(* ===== verification/_CoqProject ===== *)
-Q . S2P
Prelude.v
GoStrings.v
GoFloat.v
Errors.v
Slot.v
Node.v
ClusterInfo.v
AdminInterface.v
Groups.v
Clustering.v
Placement.v
Migration.v
MigrationProofs.v
Rebalance.v
RebalanceProofs.v
Kube.v
Utils.v
Api.v
Client.v
Heal.v
HealProofs.v
Resources.v
Ensurer.v
EnsurerProofs.v
Status.v
StatusProofs.v
Connections.v
Admin.v
AdminProofs.v
KeyMigration.v
Sync.v
Frame.v
Progress.v
Worlds.v
SyncProofs.v
SyncSlots.v
Servers.v
ServersSync.v
Settle.v
Reconcile.v
ReconcileProofs.v
Osm.v
Backup.v
BackupProofs.v
Isolation.v
Quiescence.v
Establish.v
