(* ===== verification/Prelude.v ===== *)
(** * Redis cluster operator: a verification library

    The operator keeps Redis clusters on Kubernetes: it watches resources of kind
    [DistributedRedisCluster], creates the StatefulSets of each, joins their pods into
    a Redis cluster, assigns the 16384 hash slots to the masters, moves slots when the
    number of masters changes, attaches the slaves, repairs what it can, and backs
    clusters up and restores them (kind [RedisClusterBackup]).  This library models the
    Go code under [src/pkg] and proves what makes it correct.

    ** Conventions

    A [*redisutil.Node] that several slices share is a pointer into a [heap]; the
    custom resources, which a reconciliation writes through one pointer, are arguments
    and results.  A function without effects is a Rocq function; one that can panic or
    loop returns [go]; one with effects is in the monad [M] of this file, over the heap,
    the world, or both.  An [error] is a value of [Errors.error]; code that fails
    returns an option or a sum.  Integers are [Z]; where the code relies on the width
    the wrap-around is written ([u64], [s64], [s32]), and [float64] is the dyadic
    arithmetic of [GoFloat].  A range over a Go map is [range], in any order, and
    [sort.Sort] any permutation that is sorted: a theorem holds for all of them.
    Log lines are left out.

    A loop without a syntactic bound has fuel, and gives [Diverges] without it:
    - [Slot.BuildSlotSlice_loop]: the number of slots of the range (the code loops for
      ever when the last one is the largest [uint64]; the theorem states both);
    - [Rebalance.lower_loop]: the total to lower, since each pass lowers one at least;
      [Rebalance.rebalance_loop]: twice the masters, since each round settles one;
      both are proved enough where the code ends, and [RebalancedCluster_balances] says
      exactly when it does (no fuel is enough when [n] masters at their share or above
      hold the 16384 slots and [n] does not divide 16384);
    - [Connections.connect] and the loops over pipes and batches of keys take the fuel
      as a parameter; [connect_depth] and [MigrateKeys_moves_all] say how much is enough;
    - [Placement.PlaceMasters_loop]: the candidates and two more rounds, proved enough;
    - [Status.waiting] runs on the events of its timer, one of which is the timeout.

    ** Files, in order

    Foundations.  Prelude: outcomes, the monad, its rules for partial ([safe]) and total
    correctness ([runs]) and for what code leaves alone ([keeps]), record update, machine
    integers, map ranges, sorting.  Groups: maps of lists.
    GoStrings, GoFloat: the parts of the standard library that the code uses.  Errors: [redisutil/errors.go], [distributedrediscluster/errors.go].

    Redis.  Slot: [redisutil/slot.go].  Node: [node.go] and [cluster.go].  ClusterInfo:
    [clusterinfo.go].  AdminInterface: the interface [IAdmin] as a class with its laws.
    Connections: [client.go], [connections.go].  Admin: [admin.go], an instance of
    [IAdmin]; AdminProofs and KeyMigration: its laws, the pool, the keys it moves.

    Clustering ([pkg/controller/clustering]).  Clustering: [placement_v2.go], [roles.go].
    Migration, MigrationProofs: [migration.go].  Rebalance, RebalanceProofs:
    [rebalance.go].  Placement: [placement.go], the older placement, which nothing calls.

    Kubernetes.  Kube: the API objects.  Client: the client interface with its laws, an
    in-memory API server that satisfies them, and [pkg/k8sutil].  Api:
    [pkg/apis/redis/v1alpha1].  Utils: [pkg/utils], [pkg/config].  Resources:
    [pkg/resources].  Ensurer, EnsurerProofs: [manager/ensurer.go], [osm/rclone.go].

    Controllers.  Heal, HealProofs: [pkg/controller/heal], [manager/healer.go],
    [manager/checker.go].  Status, StatusProofs: [status.go], [helper.go].  Sync:
    [sync_handler.go], [exec/exec.go].  Reconcile: the controller's [Reconcile] and event
    filters.  Frame, Progress, Worlds: what the components leave alone, how a stored
    status progresses, a concrete world for the witnesses.  SyncProofs, SyncSlots,
    ReconcileProofs: theorems on whole stages and reconciliations.  Servers, ServersSync:
    which Redis server claims which slot while slots migrate, rebalance, and through a
    whole synchronisation.  Settle: the roles of the servers, and that a synchronisation
    leaves nothing to do.  Osm: [osm/osm.go].
    Backup, BackupProofs: [pkg/controller/redisclusterbackup].  Isolation: which stored
    objects the two controllers may touch.  Quiescence: a settled cluster is left alone.
    Establish: [ensureCluster] makes the stored objects what the specification asks for.

    ** How the parts interact

    [Reconcile] reads the resource, fills its defaults, lets the [Ensurer] create the
    objects, waits for the pods, opens an [Admin] on them, heals, joins the nodes,
    advances a restore, and when the status asks for it runs [syncCluster], which builds
    a [Clustering.Ctx] from the views of the nodes and calls one of: first allocation,
    rebalancing, placing slaves, or migration followed by [scalingDown].  The clients of
    an interface ([IAdmin], [Client], [IPodControl], [ControllerEnv], [Radix]) are
    verified against its class; the implementations discharge the laws.

    ** What the theorems show

    - Slots are neither lost nor doubled: the migration plan and its execution
      ([feedMigInfo_moves_once], [DispatchSlotToNewMasters_partition]), the first
      allocation despite float rounding ([AllocSlots_partition]), rebalancing to the
      exact shares, where it ends ([RebalancedCluster_balances]), and their composition in a whole
      synchronisation ([SyncSlots.syncCluster_slots]).  The claims of the Redis servers
      follow the records of the operator: every slot has exactly one claimant after a
      migration ([DispatchSlotToNewMasters_servers]), a rebalancing, which leaves each
      server its share ([RebalancedCluster_servers]), and a whole synchronisation that
      succeeds ([syncCluster_servers]), provided the servers accept SETSLOT NODE:
      [refused_slot_is_lost] shows what happens to a slot when one refuses.  The status
      read from the servers after a first allocation, a scaling up or an addition of
      slaves asks for no further operation ([syncCluster_settles]).  Every key moves
      ([MigrateKeys_moves_all]); only empty StatefulSets go ([scalingDown_keeps_slots]).
    - Placement: one master per StatefulSet, its slaves, and spreading over machines.
    - Controllers: restore and backup move along their state machines whatever fails
      ([Reconcile_restore_machine], [backup_Reconcile_phases]) and touch no object of
      others ([Reconcile_isolated], [backup_Reconcile_isolated]): both pairs are
      instances of one proof over the relations of [Frame] and [Progress]; a successful
      call of [ensureCluster] outside a restore establishes the objects, and where the
      StatefulSets and services are there writes at most the configuration map, which it
      leaves alone when it is up to date and never finds up to date when the
      configuration is empty ([ensureCluster_establishes]); healing spares healthy nodes; a settled cluster is
      left alone ([Reconcile_quiescent]); the settings of buckets are complete and consistent.
    - Refinement and types: [Admin] satisfies the laws of [IAdmin]; the pool of
      connections is well formed after any operations.
    - Text: slots, ranges and lines of CLUSTER NODES survive printing and decoding.
    - Bounds: [BuildSlotSlice], memory sizes in 64 bits, reconnection depth, defaults.

    ** Parameters

    Code outside the repository is a parameter: the Redis driver ([Radix]), the servers
    ([KeyServers], documented behaviour of the commands used), the Kubernetes API
    ([Client] with [ClientLaws], instantiated by [api_server]), [K8sApi], [ObjectStore],
    the cloud packages ([OsmNames], [OsmEnv]), which server claims a slot, which
    commands it accepts and which server it replicates ([SlotServers], [Accepting],
    [PodServers], [RoleServers]), events and the clock of backups
    ([BackupEnv]), time and processes ([ControllerEnv]).  Each class has an
    instance that the witnesses evaluate.

    ** Not modelled

    Process start-up, flags and the registration of watches ([cmd/manager], [Add],
    [newReconciler]); the generated deep copies and OpenAPI description; the streaming of
    a remote command; the end-to-end tests.  They are I/O or glue without state of the
    operator's own.

    Left for later: the roles of the servers after a scaling down (its slots are covered
    by [syncCluster_servers]), and how the gossip between servers converges. *)

From Stdlib Require Import ZArith Lia.
From stdpp Require Export prelude gmap strings list sorting.

#[export] Set Default Goal Selector "!".

(** ** Outcomes of Go code

    A piece of Go code that can crash or loop is modelled with an explicit
    outcome: [Val] is a normal return, [Panics] a run-time panic (nil pointer,
    index out of range), [Diverges] is what a fuelled loop gives when its fuel
    runs out. *)

Inductive go (A : Type) : Type :=
| Val (a : A)
| Panics
| Diverges.
Arguments Val {A} a.
Arguments Panics {A}.
Arguments Diverges {A}.

Definition go_bind {A B} (m : go A) (k : A → go B) : go B :=
  match m with
  | Val a => k a
  | Panics => Panics
  | Diverges => Diverges
  end.

Declare Scope go_scope.
Delimit Scope go_scope with go.
Notation "'let!' x := m 'in' k" := (go_bind m (λ x, k))
  (at level 10, x pattern, m at level 100, k at level 200) : go_scope.
Open Scope go_scope.

Lemma go_bind_Val {A B} (m : go A) (k : A → go B) b :
  go_bind m k = Val b → ∃ a, m = Val a ∧ k a = Val b.
Proof. destruct m; naive_solver. Qed.

Lemma go_bind_returns {A B} (m : go A) (k : A → go B) :
  (∃ a, m = Val a) → (∀ a, m = Val a → ∃ b, k a = Val b) → ∃ b, go_bind m k = Val b.
Proof. intros [a Ha] Hk. destruct (Hk a Ha) as [b Hb]. exists b. by rewrite Ha. Qed.

(** ** Effectful code

    [M S A] is code that reads and writes a state [S], may panic or diverge, and
    returns an [A].  stdpp's [x ← m; k] sequences it.  An error return of Go is
    part of the result. *)

Definition M (S A : Type) : Type := S → go (A * S).

#[export] Instance M_ret S : MRet (M S) := λ A a s, Val (a, s).
#[export] Instance M_bind S : MBind (M S) := λ A B k m s,
  let! r := m s in k r.1 r.2.

Definition gets {S A} (f : S → A) : M S A := λ s, Val (f s, s).
Definition modify {S} (f : S → S) : M S () := λ s, Val ((), f s).
Definition panic {S A} : M S A := λ _, Panics.
(** A computation without state. *)
Definition pure {S A} (m : go A) : M S A := λ s, let! a := m in Val (a, s).
(** Code on one half of a pair of states. *)
Definition on_fst {S T A} (m : M S A) : M (S * T) A := λ st,
  let! r := m st.1 in Val (r.1, (r.2, st.2)).
Definition on_snd {S T A} (m : M T A) : M (S * T) A := λ st,
  let! r := m st.2 in Val (r.1, (st.1, r.2)).

(** [for _, x := range l { if e := f(x); e != nil { return e } }] with the error
    as the result, and the loop that goes on in every case. *)
Fixpoint for_err {S A E} (l : list A) (f : A → M S (option E)) : M S (option E) :=
  match l with
  | [] => mret None
  | x :: l' =>
      e ← f x;
      match e with
      | Some err => mret (Some err)
      | None => for_err l' f
      end
  end.
Fixpoint for_each {S A} (l : list A) (f : A → M S ()) : M S () :=
  match l with
  | [] => mret ()
  | x :: l' => f x;; for_each l' f
  end.
(** A loop that threads a local variable. *)
Fixpoint for_fold {S A B} (l : list A) (b : B) (f : B → A → M S B) : M S B :=
  match l with
  | [] => mret b
  | x :: l' => b' ← f b x; for_fold l' b' f
  end.

Section effects.
Context {S A B : Type}.

Lemma M_bind_Val (m : M S A) (k : A → M S B) s b s' :
  (m ≫= k) s = Val (b, s') ↔ ∃ a s1, m s = Val (a, s1) ∧ k a s1 = Val (b, s').
Proof.
  unfold mbind, M_bind. destruct (m s) as [[a s1]| |]; simpl; [|naive_solver..].
  split; [by eauto|]. intros (? & ? & ? & ?). by simplify_eq.
Qed.

Lemma bind_Val (m : M S A) (k : A → M S B) s a s1 : m s = Val (a, s1) → (m ≫= k) s = k a s1.
Proof. intros Hm. unfold mbind, M_bind. by rewrite Hm. Qed.

(** [runs m s P]: the code returns, and its result and final state satisfy [P]. *)
Definition runs (m : M S A) (s : S) (P : A → S → Prop) : Prop :=
  ∃ a s', m s = Val (a, s') ∧ P a s'.
(** [safe m s P]: if the code returns, its result and final state satisfy [P]. *)
Definition safe (m : M S A) (s : S) (P : A → S → Prop) : Prop :=
  ∀ a s', m s = Val (a, s') → P a s'.
End effects.

Section effect_rules.
Context {S : Type}.

Lemma safe_bind {A B} (m : M S A) (k : A → M S B) s P :
  safe m s (λ a s', safe (k a) s' P) → safe (m ≫= k) s P.
Proof. intros Hm b s' (a & s1 & H1 & H2)%M_bind_Val. by apply (Hm _ _ H1). Qed.

Lemma safe_mono {A} (m : M S A) s (P Q : A → S → Prop) :
  safe m s P → (∀ a s', P a s' → Q a s') → safe m s Q.
Proof. intros Hm Himpl a s' Heq. auto. Qed.

Lemma safe_ret {A} (a : A) (s : S) (P : A → S → Prop) : P a s → safe (mret a) s P.
Proof. intros HP ?? Heq. unfold mret, M_ret in Heq. by simplify_eq. Qed.

Lemma safe_for_err {A E} (l : list A) (f : A → M S (option E)) s (I : list A → S → Prop)
    (Q : option E → S → Prop) :
  I [] s →
  (∀ done x rest s', l = done ++ x :: rest → I done s' →
     safe (f x) s' (λ e s'', match e with None => I (done ++ [x]) s'' | _ => Q e s'' end)) →
  (∀ s', I l s' → Q None s') →
  safe (for_err l f) s Q.
Proof.
  intros Hi Hstep Hend.
  assert (∀ done rest s, l = done ++ rest → I done s → safe (for_err rest f) s Q) as Hgen.
  { intros done rest. revert done. induction rest as [|x rest IH]; intros done s' Hl Hinv; simpl.
    - apply safe_ret, Hend. rewrite Hl, app_nil_r. done.
    - apply safe_bind. eapply safe_mono; [by apply (Hstep done x rest)|].
      intros [e|] s'' HI; simpl in *; [by apply safe_ret|].
      apply (IH (done ++ [x])); [by rewrite <- (assoc_L (++))|done]. }
  by apply (Hgen [] l).
Qed.

Lemma safe_for_each {A} (l : list A) (f : A → M S ()) s (I : list A → S → Prop) :
  I [] s →
  (∀ done x rest s', l = done ++ x :: rest → I done s' →
     safe (f x) s' (λ _ s'', I (done ++ [x]) s'')) →
  safe (for_each l f) s (λ _ s', I l s').
Proof.
  intros Hi Hstep.
  assert (∀ done rest s, l = done ++ rest → I done s → safe (for_each rest f) s (λ _ s', I l s')) as Hgen.
  { intros done rest. revert done. induction rest as [|x rest IH]; intros done s' Hl Hinv; simpl.
    - apply safe_ret. by rewrite Hl, app_nil_r.
    - apply safe_bind. eapply safe_mono; [by apply (Hstep done x rest)|].
      intros [] s'' HI; simpl in *.
      apply (IH (done ++ [x])); [by rewrite <- (assoc_L (++))|done]. }
  by apply (Hgen [] l).
Qed.

Lemma safe_on_snd {T A} (m : M T A) (s : S) (t : T) P :
  (∀ a t', m t = Val (a, t') → P a (s, t')) → safe (on_snd m) (s, t) P.
Proof.
  intros Hm a st Heq. unfold on_snd in Heq. simpl in Heq.
  destruct (m t) as [[b t']| |] eqn:E; simpl in Heq; simplify_eq. by apply Hm.
Qed.

Lemma safe_for_fold {A B} (l : list A) (b : B) (f : B → A → M S B) s (I : B → S → Prop) :
  I b s → (∀ b x s, x ∈ l → I b s → safe (f b x) s I) → safe (for_fold l b f) s I.
Proof.
  revert b s. induction l as [|x l IH]; intros b s HI Hf; cbn [for_fold]; [by apply safe_ret|].
  apply safe_bind. eapply safe_mono; [by apply Hf; [left|]|]. intros b' s' HI'.
  apply IH; [done|]. intros. apply Hf; [by right|done].
Qed.

(** The same with the elements done. *)
Lemma safe_for_fold_list {A B} (l : list A) (b : B) (f : B → A → M S B) s (I : list A → B → S → Prop) :
  I [] b s → (∀ done x rest b s, l = done ++ x :: rest → I done b s → safe (f b x) s (I (done ++ [x]))) →
  safe (for_fold l b f) s (I l).
Proof.
  assert (∀ done rest b s, l = done ++ rest → I done b s →
    (∀ done x rest b s, l = done ++ x :: rest → I done b s → safe (f b x) s (I (done ++ [x]))) →
    safe (for_fold rest b f) s (I l)) as Hg; [|by apply (Hg [])].
  intros done rest. revert done. induction rest as [|x rest IH]; intros done b' s' Hl HI Hf; cbn [for_fold].
  { apply safe_ret. by rewrite Hl, app_nil_r. }
  apply safe_bind. eapply safe_mono; [by apply (Hf done x rest)|]. intros b2 s2 HI2.
  apply (IH (done ++ [x])); [|done|done]. by rewrite <- (assoc_L (++)).
Qed.

Lemma safe_for_each_inv {A} (l : list A) (f : A → M S ()) s (I : S → Prop) :
  I s → (∀ x s, x ∈ l → I s → safe (f x) s (λ _ s', I s')) → safe (for_each l f) s (λ _ s', I s').
Proof.
  revert s. induction l as [|x l IH]; intros s HI Hf; cbn [for_each]; [by apply safe_ret|].
  apply safe_bind. eapply safe_mono; [by apply Hf; [left|]|]. intros [] s' HI'.
  apply IH; [done|]. intros. apply Hf; [by right|done].
Qed.

Lemma safe_for_err_inv {A E} (l : list A) (f : A → M S (option E)) s (I : S → Prop) :
  I s → (∀ x s, x ∈ l → I s → safe (f x) s (λ _ s', I s')) → safe (for_err l f) s (λ _ s', I s').
Proof.
  revert s. induction l as [|x l IH]; intros s HI Hf; cbn [for_err]; [by apply safe_ret|].
  apply safe_bind. eapply safe_mono; [by apply Hf; [left|]|]. intros [e|] s' HI'; [by apply safe_ret|].
  apply IH; [done|]. intros. apply Hf; [by right|done].
Qed.

Lemma safe_gets {A} (f : S → A) s (P : A → S → Prop) : P (f s) s → safe (gets f) s P.
Proof. intros HP a s' Heq. unfold gets in Heq. by simplify_eq. Qed.
Lemma safe_modify (f : S → S) s (P : () → S → Prop) : P () (f s) → safe (modify f) s P.
Proof. intros HP a s' Heq. unfold modify in Heq. by simplify_eq. Qed.
Lemma safe_pure {A} (m : go A) s (P : A → S → Prop) : (∀ a, m = Val a → P a s) → safe (pure m) s P.
Proof. intros HP a s' Heq. unfold pure in Heq. destruct m; simpl in Heq; simplify_eq. by apply HP. Qed.
Lemma safe_panic {A} s (P : A → S → Prop) : safe panic s P.
Proof. intros a s' Heq. done. Qed.
Lemma safe_true {A} (m : M S A) s : safe m s (λ _ _, True).
Proof. done. Qed.
Lemma safe_on_fst {T A} (m : M S A) (s : S) (t : T) P :
  safe m s (λ a s', P a (s', t)) → safe (on_fst m) (s, t) P.
Proof.
  intros Hm a st Heq. unfold on_fst in Heq. simpl in Heq.
  destruct (m s) as [[b s']| |] eqn:E; simpl in Heq; simplify_eq. by apply Hm.
Qed.

(** Total correctness. *)
Lemma runs_bind {A B} (m : M S A) (k : A → M S B) s P :
  runs m s (λ a s', runs (k a) s' P) → runs (m ≫= k) s P.
Proof.
  intros (a & s1 & H1 & b & s2 & H2 & HP). exists b, s2. split; [|done].
  apply M_bind_Val. eauto.
Qed.

Lemma runs_ret {A} (a : A) (s : S) (P : A → S → Prop) : P a s → runs (mret a) s P.
Proof. intros HP. by exists a, s. Qed.

Lemma runs_equal {A} (m m' : M S A) s (P : A → S → Prop) : m s = m' s → runs m' s P → runs m s P.
Proof. unfold runs. by intros ->. Qed.
Lemma runs_mono {A} (m : M S A) s (P Q : A → S → Prop) :
  runs m s P → (∀ a s', P a s' → Q a s') → runs m s Q.
Proof. intros (a & s' & ? & ?) Himpl. exists a, s'. auto. Qed.

Lemma runs_and_safe {A} (m : M S A) s (P Q : A → S → Prop) :
  runs m s P → safe m s Q → runs m s (λ a s', P a s' ∧ Q a s').
Proof. intros (a & s' & Hm & HP) HQ. exists a, s'. split; [done|]. split; [done|by apply HQ]. Qed.

Lemma runs_safe {A} (m : M S A) s P : runs m s P → safe m s P.
Proof. intros (a & s' & H1 & HP) ?? H2. rewrite H1 in H2. by simplify_eq. Qed.

Lemma runs_for_err {A E} (l : list A) (f : A → M S (option E)) s :
  (∀ x s', x ∈ l → runs (f x) s' (λ _ _, True)) → runs (for_err l f) s (λ _ _, True).
Proof.
  revert s. induction l as [|x l IH]; intros s Hf; simpl; [by apply runs_ret|].
  apply runs_bind. eapply runs_mono; [apply Hf; by left|]. intros [e|] s' _.
  - by apply runs_ret.
  - apply IH. intros. apply Hf. by right.
Qed.

Lemma runs_for_each {A} (l : list A) (f : A → M S ()) s :
  (∀ x s', x ∈ l → runs (f x) s' (λ _ _, True)) → runs (for_each l f) s (λ _ _, True).
Proof.
  revert s. induction l as [|x l IH]; intros s Hf; simpl; [by apply runs_ret|].
  apply runs_bind. eapply runs_mono; [apply Hf; by left|]. intros [] s' _.
  apply IH. intros. apply Hf. by right.
Qed.

Lemma runs_pure {A} (a : A) (s : S) (P : A → S → Prop) : P a s → runs (pure (Val a)) s P.
Proof. intros HP. by exists a, s. Qed.

(** Total correctness of a loop that stops at the first error, with an invariant on
    the elements done. *)
Lemma runs_for_err_inv {A E} (l : list A) (f : A → M S (option E)) s (I : list A → S → Prop)
    (Q : option E → S → Prop) :
  I [] s →
  (∀ done x rest s', l = done ++ x :: rest → I done s' →
     runs (f x) s' (λ e s'', match e with None => I (done ++ [x]) s'' | _ => Q e s'' end)) →
  (∀ s', I l s' → Q None s') →
  runs (for_err l f) s Q.
Proof.
  intros Hi Hstep Hend.
  assert (∀ done rest s, l = done ++ rest → I done s → runs (for_err rest f) s Q) as Hgen.
  { intros done rest. revert done. induction rest as [|x rest IH]; intros done s' Hl Hinv; simpl.
    - apply runs_ret, Hend. rewrite Hl, app_nil_r. done.
    - apply runs_bind. eapply runs_mono; [by apply (Hstep done x rest)|].
      intros [e|] s'' HI; simpl in *; [by apply runs_ret|].
      apply (IH (done ++ [x])); [by rewrite <- (assoc_L (++))|done]. }
  by apply (Hgen [] l).
Qed.

(** A loop whose body returns is a fold over its list, on the local variable and
    on the state. *)
Lemma for_fold_foldl {A B} (l : list A) (b : B) (f : B → A → M S B) g u s :
  (∀ b x s, x ∈ l → f b x s = Val (g b x, u x s)) →
  for_fold l b f s = Val (foldl g b l, foldl (λ s x, u x s) s l).
Proof.
  revert b s. induction l as [|x l IH]; intros b s Hf; [done|]. cbn [for_fold foldl].
  unfold mbind, M_bind. rewrite Hf by left. simpl. apply IH. intros. apply Hf. by right.
Qed.
End effect_rules.

(** ** What code leaves alone

    [keeps R m]: whatever [m] does to the state is within the preorder [R].  The rules
    follow the code; the tactic [keeps] applies them, and the lemmas of the hint
    database of that name. *)

Definition keeps {S A} (R : relation S) (m : M S A) : Prop := ∀ s, safe m s (λ _ s', R s s').

Section keeps.
Context {S : Type} (R : relation S) `{!PreOrder R}.

Lemma keeps_ret {A} (a : A) : keeps R (mret a).
Proof. intros s. by apply safe_ret. Qed.
Lemma keeps_bind {A B} (m : M S A) (k : A → M S B) :
  keeps R m → (∀ a, keeps R (k a)) → keeps R (m ≫= k).
Proof.
  intros Hm Hk s. apply safe_bind. eapply safe_mono; [apply Hm|]. intros a s1 H1.
  eapply safe_mono; [apply Hk|]. intros b s2 H2. cbv beta in *. by transitivity s1.
Qed.
(** Going on, in a proof of [safe], with an invariant that [R] respects. *)
Lemma safe_keeps {A B} (I : S → Prop) (m : M S A) (k : A → M S B) s P :
  (∀ s s', R s s' → I s → I s') → keeps R m → I s → (∀ a s', I s' → safe (k a) s' P) → safe (m ≫= k) s P.
Proof.
  intros HI Hm Hs Hk. apply safe_bind. eapply safe_mono; [apply Hm|]. intros a s' HR. apply Hk. exact (HI _ _ HR Hs).
Qed.
Lemma keeps_gets {A} (f : S → A) : keeps R (gets f).
Proof. intros s. by apply safe_gets. Qed.
Lemma keeps_modify (f : S → S) : (∀ s, R s (f s)) → keeps R (modify f).
Proof. intros Hf s. by apply safe_modify. Qed.
Lemma keeps_pure {A} (m : go A) : keeps R (pure m).
Proof. intros s. by apply safe_pure. Qed.
Lemma keeps_panic {A} : keeps R (panic (A := A)).
Proof. intros s. apply safe_panic. Qed.
Lemma keeps_diverges {A} : keeps R (λ _ : S, @Diverges (A * S)).
Proof. intros s a s' Heq. done. Qed.
Lemma keeps_for_err {A E} (l : list A) (f : A → M S (option E)) :
  (∀ x, keeps R (f x)) → keeps R (for_err l f).
Proof.
  intros Hf. induction l as [|x l IH]; cbn [for_err]; [apply keeps_ret|].
  apply keeps_bind; [done|]. intros [e|]; [apply keeps_ret|done].
Qed.
Lemma keeps_for_each {A} (l : list A) (f : A → M S ()) : (∀ x, keeps R (f x)) → keeps R (for_each l f).
Proof.
  intros Hf. induction l as [|x l IH]; cbn [for_each]; [apply keeps_ret|].
  apply keeps_bind; [done|]. by intros [].
Qed.
Lemma keeps_for_fold {A B} (l : list A) (b : B) (f : B → A → M S B) :
  (∀ b x, keeps R (f b x)) → keeps R (for_fold l b f).
Proof.
  intros Hf. revert b. induction l as [|x l IH]; intros b; cbn [for_fold]; [apply keeps_ret|].
  by apply keeps_bind.
Qed.
End keeps.

(** A relation of one half of a pair of states. *)
Definition on_first {S T} (R : relation S) : relation (S * T) := λ s s', R s.1 s'.1.
Definition on_second {S T} (R : relation T) : relation (S * T) := λ s s', R s.2 s'.2.
#[export] Instance on_first_preorder {S T} (R : relation S) `{!PreOrder R} : PreOrder (on_first (T := T) R).
Proof.
  split; [by intros [? ?]; unfold on_first|].
  intros [x ?] [y ?] [z ?]. unfold on_first. simpl. apply transitivity.
Qed.
#[export] Instance on_second_preorder {S T} (R : relation T) `{!PreOrder R} : PreOrder (on_second (S := S) R).
Proof.
  split; [by intros [? ?]; unfold on_second|].
  intros [? x] [? y] [? z]. unfold on_second. simpl. apply transitivity.
Qed.

Section halves.
Context {S T : Type}.

Lemma keeps_on_snd (R : relation T) {A} (m : M T A) : keeps R m → keeps (on_second (S := S) R) (on_snd m).
Proof. intros Hm [s t]. apply safe_on_snd. intros a t' Heq. by apply (Hm t a t'). Qed.
Lemma keeps_on_fst (R : relation T) `{!PreOrder R} {A} (m : M S A) : keeps (on_second R) (on_fst m).
Proof. intros [s t]. apply safe_on_fst. intros a s' _. by unfold on_second. Qed.
Lemma keeps_modify_fst (R : relation T) `{!PreOrder R} (f : S * T → S) : keeps (on_second R) (modify (λ s, (f s, s.2))).
Proof. apply keeps_modify. by intros [s t]; unfold on_second. Qed.
Lemma keeps_other_snd (R : relation S) `{!PreOrder R} {A} (m : M T A) : keeps (on_first R) (on_snd m).
Proof. intros [s t]. apply safe_on_snd. intros a t' _. by unfold on_first. Qed.
End halves.

Create HintDb keeps discriminated.
#[export] Hint Extern 0 (PreOrder _) => exact _ : keeps.
#[export] Hint Resolve keeps_ret keeps_gets keeps_pure keeps_panic keeps_diverges keeps_on_fst keeps_modify_fst
  keeps_other_snd : keeps.

(** One step through the code: sequencing, loops, case distinctions, known calls. *)
Ltac keeps_step :=
  cbv beta zeta;
  match goal with
  | |- ∀ _, _ => intros ?
  | |- keeps _ (mbind _ _) => apply keeps_bind; [exact _| |]
  | |- keeps _ (for_err _ _) => apply keeps_for_err; [exact _|]
  | |- keeps _ (for_each _ _) => apply keeps_for_each; [exact _|]
  | |- keeps _ (for_fold _ _ _) => apply keeps_for_fold; [exact _|]
  | |- keeps _ (match ?x with _ => _ end) => destruct x
  | |- keeps _ _ => solve [eauto with keeps]
  | |- keeps (on_second _) (on_snd _) => apply keeps_on_snd
  end.
Ltac keeps := repeat keeps_step.

(** ** Record update

    [r <| f := v |>] is the assignment [r.f = v].  A record type declares its
    eta expansion once ([Settable]); the setter of each field is then found by
    instance resolution. *)

Class Settable (R : Type) := settable_eta : R → R.
Class Setter {R T : Type} (proj : R → T) := set_field : (T → T) → R → R.
Arguments set_field {R T} proj {_} _ _.

Ltac find_setter :=
  match goal with
  | |- @Setter ?R ?T ?proj =>
      let f := fresh "f" in let r := fresh "r" in
      unfold Setter; intros f r;
      let t := eval hnf in (settable_eta r) in
      let t := eval pattern (proj r) in t in
      match t with
      | ?F _ => let u := eval cbv beta in (F (f (proj r))) in exact u
      end
  end.
#[export] Hint Extern 0 (Setter _) => find_setter : typeclass_instances.
#[export] Hint Mode Settable ! : typeclass_instances.

Notation "r <| f := v |>" := (set_field f (λ _, v) r)
  (at level 1, left associativity, f at next level, v at level 200,
   format "r  <| f  :=  v |>") : go_scope.

(** ** Machine integers *)

(** Largest [uint64]; [u64 z] is [z] reduced to 64 bits. *)
Definition max_uint64 : Z := 2 ^ 64 - 1.
Definition u64 (z : Z) : Z := z mod 2 ^ 64.
(** [s64 z] is [z] wrapped to a signed 64-bit integer (Go's [int] and [int64]
    on the platforms the operator is built for), [s32] to [int32]. *)
Definition s64 (z : Z) : Z := (z + 2 ^ 63) mod 2 ^ 64 - 2 ^ 63.
Definition s32 (z : Z) : Z := (z + 2 ^ 31) mod 2 ^ 32 - 2 ^ 31.

Lemma u64_small z : (0 ≤ z ≤ max_uint64)%Z → u64 z = z.
Proof. unfold u64, max_uint64. intros. apply Z.mod_small. lia. Qed.

Lemma u64_range z : (0 ≤ u64 z ≤ max_uint64)%Z.
Proof.
  unfold u64, max_uint64. pose proof (Z.mod_pos_bound z (2 ^ 64)). lia.
Qed.

Lemma s64_small z : (- 2 ^ 63 ≤ z < 2 ^ 63)%Z → s64 z = z.
Proof. unfold s64. intros. rewrite Z.mod_small by lia. lia. Qed.

Lemma s32_small z : (- 2 ^ 31 ≤ z < 2 ^ 31)%Z → s32 z = z.
Proof. unfold s32. intros. rewrite Z.mod_small by lia. lia. Qed.

(** ** Range over a map, and the sort package

    Go visits the entries of a map in an order that is not specified and may
    differ from one loop to the next.  [range site m] is the order of the loop
    labelled [site] over the map [m]; theorems hold for every instance, hence
    for every order. *)

Class MapRange := {
  range : ∀ {K V : Type} `{Countable K}, nat → gmap K V → list (K * V);
  range_Permutation : ∀ {K V : Type} `{Countable K} (site : nat) (m : gmap K V),
    range site m ≡ₚ map_to_list m;
}.

(** A reference order, used to evaluate the model. *)
Definition range_default : MapRange.
Proof.
  by refine {| range K V _ _ _ m := map_to_list m |}.
Defined.

(** The reverse order. *)
Definition range_reversed : MapRange.
Proof.
  refine {| range K V _ _ _ m := reverse (map_to_list m) |}.
  intros. apply reverse_Permutation.
Defined.

Section range.
Context `{MapRange} {K V : Type} `{Countable K}.
Implicit Types m : gmap K V.

Lemma elem_of_range site m k v : (k, v) ∈ range site m ↔ m !! k = Some v.
Proof. rewrite range_Permutation. apply elem_of_map_to_list. Qed.

Lemma range_NoDup_keys site m : NoDup (range site m).*1.
Proof. rewrite range_Permutation. apply NoDup_fst_map_to_list. Qed.

Lemma range_NoDup site m : NoDup (range site m).
Proof. rewrite range_Permutation. apply NoDup_map_to_list. Qed.

Lemma range_empty site : range site (∅ : gmap K V) = [].
Proof.
  apply Permutation_nil. rewrite range_Permutation. by rewrite map_to_list_empty.
Qed.
End range.

(** [sort.Sort] with an order given by [less]: the result is a permutation of
    the input in which no element is less than an earlier one.  The package
    does not promise more (the sort is not stable). *)

Definition strict_weak {A} (less : A → A → bool) : Prop :=
  (∀ x, less x x = false) ∧
  (∀ x y z, less x y = true → less y z = true → less x z = true) ∧
  (∀ x y z, less x y = false → less y z = false → less x z = false).

Class SortPkg := {
  sort_by : ∀ {A : Type}, (A → A → bool) → list A → list A;
  sort_by_Permutation : ∀ {A} (less : A → A → bool) l, sort_by less l ≡ₚ l;
  sort_by_Sorted : ∀ {A} (less : A → A → bool) l,
    strict_weak less → StronglySorted (λ x y, less y x = false) (sort_by less l);
}.

Definition sort_default : SortPkg.
Proof.
  unshelve refine {| sort_by A less l :=
    @merge_sort A (λ x y, less y x = false) (λ x y, bool_eq_dec _ _) l |}.
  - intros. apply merge_sort_Permutation.
  - intros A less l (Hirr & Htr & Hneg). apply StronglySorted_merge_sort.
    + intros x y z Hxy Hyz. by apply (Hneg z y x).
    + intros x y. destruct (less y x) eqn:E1; [|by left].
      destruct (less x y) eqn:E2; [|by right].
      pose proof (Hirr x). pose proof (Htr x y x E2 E1). congruence.
Defined.

(** ** Lists *)

Lemma StronglySorted_weaken {A} (R1 R2 : relation A) l :
  (∀ x y, R1 x y → R2 x y) → StronglySorted R1 l → StronglySorted R2 l.
Proof.
  intros Himpl. induction 1; constructor; [done|]. eapply Forall_impl; [done|]. auto.
Qed.

Lemma elem_of_concat {A} (x : A) (ls : list (list A)) :
  x ∈ concat ls ↔ ∃ l, x ∈ l ∧ l ∈ ls.
Proof.
  rewrite list_elem_of_In, in_concat. setoid_rewrite list_elem_of_In. naive_solver.
Qed.

Lemma NoDup_drop {A} n (l : list A) : NoDup l → NoDup (drop n l).
Proof. rewrite <- (take_drop n l) at 1. by intros (_ & _ & ?)%NoDup_app. Qed.

Lemma NoDup_take {A} n (l : list A) : NoDup l → NoDup (take n l).
Proof. rewrite <- (take_drop n l) at 1. by intros (? & _ & _)%NoDup_app. Qed.

Lemma StronglySorted_lt_NoDup l : StronglySorted Z.lt l → NoDup l.
Proof.
  induction 1 as [|x l Hl IH Hall]; constructor; [|done].
  intros Hx. rewrite Forall_forall in Hall. specialize (Hall _ Hx). lia.
Qed.

(** Elements with distinct images. *)
Lemma NoDup_fmap_inj_on {A B} (f : A → B) (l : list A) x y :
  NoDup (f <$> l) → x ∈ l → y ∈ l → f x = f y → x = y.
Proof.
  intros Hnd (i & Hi)%list_elem_of_lookup (j & Hj)%list_elem_of_lookup Heq.
  assert (i = j) as ->; [|congruence].
  eapply (NoDup_lookup _ _ _ (f x) Hnd); rewrite list_lookup_fmap, ?Hi, ?Hj; simpl; congruence.
Qed.

Lemma length_omap_le {A B} (f : A → option B) (l : list A) : (length (omap f l) ≤ length l)%nat.
Proof.
  induction l as [|x l IH]; [done|]. cbn [omap list_omap length].
  destruct (f x); cbn [length]; change (list_omap _ _ f l) with (omap f l); lia.
Qed.

Lemma list_filter_all {A} (P : A → Prop) `{!∀ x, Decision (P x)} (l : list A) : (∀ x, x ∈ l → P x) → filter P l = l.
Proof.
  induction l as [|x l IH]; intros Hl; [done|]. rewrite filter_cons_True by (apply Hl; by left).
  f_equal. apply IH. intros y Hy. apply Hl. by right.
Qed.
Lemma list_filter_none {A} (P : A → Prop) `{!∀ x, Decision (P x)} (l : list A) : (∀ x, x ∈ l → ¬ P x) → filter P l = [].
Proof.
  induction l as [|x l IH]; intros Hl; [done|]. rewrite filter_cons_False by (apply Hl; by left).
  apply IH. intros y Hy. apply Hl. by right.
Qed.
