(* ===== verification/GoStrings.v ===== *)
(** The parts of the Go packages [strings], [strconv] and [net] that the
    operator uses, on byte strings: [Split] with a one-byte separator, prefix
    and suffix tests, decimal formatting and parsing with their 64-bit range
    checks, [JoinHostPort].  Case mapping and white space are those of ASCII. *)

From Stdlib Require Import ZArith Lia.
From Stdlib Require Export Ascii.
From S2P Require Import Prelude.

Local Open Scope Z_scope.

(** ** strings *)

(** Does the byte [c] occur in [s]? ([strings.IndexByte(s, c) >= 0]) *)
Fixpoint has_byte (c : ascii) (s : string) : bool :=
  match s with
  | EmptyString => false
  | String a s' => if decide (a = c) then true else has_byte c s'
  end.

(** [strings.Split(s, sep)] for a separator of one byte: never empty. *)
Fixpoint Split (s : string) (sep : ascii) : list string :=
  match s with
  | EmptyString => [""]
  | String c s' =>
      if decide (c = sep) then "" :: Split s' sep
      else match Split s' sep with
           | w :: ws => String c w :: ws
           | [] => [String c ""]
           end
  end.

(** [strings.SplitN(s, sep, 2)]. *)
Fixpoint SplitN2 (s : string) (sep : ascii) : list string :=
  match s with
  | EmptyString => [""]
  | String c s' =>
      if decide (c = sep) then [""; s']
      else match SplitN2 s' sep with
           | w :: ws => String c w :: ws
           | [] => [String c ""]
           end
  end.

Fixpoint HasPrefix (s p : string) : bool :=
  match p, s with
  | EmptyString, _ => true
  | String b p', String a s' => if decide (a = b) then HasPrefix s' p' else false
  | String _ _, EmptyString => false
  end.

Definition TrimPrefix (s p : string) : string :=
  if HasPrefix s p then String.substring (String.length p) (String.length s) s else s.

Definition HasSuffix (s p : string) : bool :=
  let n := (String.length s - String.length p)%nat in
  if decide (String.length p ≤ String.length s)%nat
  then bool_decide (String.substring n (String.length p) s = p) else false.

Definition TrimSuffix (s p : string) : string :=
  if HasSuffix s p then String.substring 0 (String.length s - String.length p) s else s.

(** [strings.LastIndex(s, sep)] for a one-byte [sep]; [None] is -1. *)
Fixpoint LastIndex (s : string) (sep : ascii) : option nat :=
  match s with
  | EmptyString => None
  | String c s' =>
      match LastIndex s' sep with
      | Some i => Some (S i)
      | None => if decide (c = sep) then Some O else None
      end
  end.

Definition lower_byte (c : ascii) : ascii :=
  let n := nat_of_ascii c in
  if decide (65 ≤ n ≤ 90)%nat then ascii_of_nat (n + 32) else c.
Definition upper_byte (c : ascii) : ascii :=
  let n := nat_of_ascii c in
  if decide (97 ≤ n ≤ 122)%nat then ascii_of_nat (n - 32) else c.

Fixpoint map_bytes (f : ascii → ascii) (s : string) : string :=
  match s with
  | EmptyString => EmptyString
  | String c s' => String (f c) (map_bytes f s')
  end.
Definition ToLower := map_bytes lower_byte.
Definition ToUpper := map_bytes upper_byte.

Definition is_space (c : ascii) : bool :=
  let n := nat_of_ascii c in
  bool_decide (n = 32)%nat || bool_decide (9 ≤ n ≤ 13)%nat.

Fixpoint TrimLeft (s : string) : string :=
  match s with
  | String c s' => if is_space c then TrimLeft s' else s
  | EmptyString => EmptyString
  end.
Fixpoint string_rev (s acc : string) : string :=
  match s with
  | EmptyString => acc
  | String c s' => string_rev s' (String c acc)
  end.
Definition TrimSpace (s : string) : string :=
  string_rev (TrimLeft (string_rev (TrimLeft s) "")) "".

(** [strings.Fields]: the words of [s] around runs of white space. *)
Fixpoint Fields_from (s cur : string) : list string :=
  match s with
  | EmptyString => if decide (cur = "") then [] else [string_rev cur ""]
  | String c s' =>
      if is_space c
      then (if decide (cur = "") then [] else [string_rev cur ""]) ++ Fields_from s' ""
      else Fields_from s' (String c cur)
  end.
Definition Fields (s : string) : list string := Fields_from s "".

Fixpoint Join (ws : list string) (sep : string) : string :=
  match ws with
  | [] => ""
  | [w] => w
  | w :: ws' => w +:+ sep +:+ Join ws' sep
  end.

(** Go compares strings byte by byte. *)
Definition string_less (a b : string) : bool :=
  match String.compare a b with Lt => true | _ => false end.

(** ** net *)

(** [net.JoinHostPort]. *)
Definition JoinHostPort (host port : string) : string :=
  if has_byte ":" host
  then "[" +:+ host +:+ "]:" +:+ port
  else host +:+ ":" +:+ port.

(** [s[i:]] and [s[:i]], for [i <= len(s)]. *)
Definition slice_from (s : string) (i : nat) : string := String.substring i (String.length s - i) s.
Definition slice_to (s : string) (i : nat) : string := String.substring 0 i s.

(** [strings.IndexByte(s, c)]; [None] is -1. *)
Fixpoint IndexByte (s : string) (c : ascii) : option nat :=
  match s with
  | EmptyString => None
  | String a s' =>
      if decide (a = c) then Some O
      else match IndexByte s' c with Some i => Some (S i) | None => None end
  end.

(** [net.SplitHostPort]; [None] is an error. *)
Definition SplitHostPort (hostport : string) : option (string * string) :=
  match LastIndex hostport ":" with
  | None => None
  | Some i =>
      let port := slice_from hostport (S i) in
      if HasPrefix hostport "[" then
        match IndexByte hostport "]" with
        | None => None
        | Some e =>
            if decide (S e = i) then
              if has_byte "[" (slice_from hostport 1) || has_byte "]" (slice_from hostport (S e))
              then None
              else Some (String.substring 1 (e - 1) hostport, port)
            else None
        end
      else
        let host := slice_to hostport i in
        if has_byte ":" host || has_byte "[" hostport || has_byte "]" hostport
        then None
        else Some (host, port)
  end.

(** ** strconv *)

Definition digit_byte (d : Z) : ascii := ascii_of_nat (48 + Z.to_nat d).

(** The value of a decimal digit. *)
Definition digit_of (c : ascii) : option Z :=
  let n := nat_of_ascii c in
  if decide (48 ≤ n ≤ 57)%nat then Some (Z.of_nat (n - 48)) else None.

(** Decimal digits of [n], most significant first, in front of [acc]. *)
Fixpoint format_digits (fuel : nat) (n : Z) (acc : string) : string :=
  match fuel with
  | O => acc
  | S fuel' =>
      let acc' := String (digit_byte (n mod 10)) acc in
      if decide (n < 10) then acc' else format_digits fuel' (n / 10) acc'
  end.

(** [strconv.FormatUint(n, 10)]; [log2 n + 1] digits are always enough. *)
Definition FormatUint (n : Z) : string := format_digits (S (Z.to_nat (Z.log2 n))) n "".
(** [strconv.FormatInt(n, 10)], also [strconv.Itoa] and ["%d"]. *)
Definition FormatInt (n : Z) : string :=
  if decide (n < 0) then String "-" (FormatUint (- n)) else FormatUint n.

(** The two errors of the number parsers. *)
Inductive num_error := ErrSyntax | ErrRange.

(** The digit loop of [strconv.ParseUint]: the value goes with the error as in
    Go (0 on a syntax error, the maximum on a range error). *)
Fixpoint ParseUint_loop (n : Z) (s : string) : Z * option num_error :=
  match s with
  | EmptyString => (n, None)
  | String c s' =>
      match digit_of c with
      | None => (0, Some ErrSyntax)
      | Some d =>
          if decide (n * 10 + d > max_uint64) then (max_uint64, Some ErrRange)
          else ParseUint_loop (n * 10 + d) s'
      end
  end.

(** [strconv.ParseUint(s, 10, 64)]. *)
Definition ParseUint (s : string) : Z * option num_error :=
  match s with
  | EmptyString => (0, Some ErrSyntax)
  | _ => ParseUint_loop 0 s
  end.

Definition ParseInt_sign (neg : bool) (s : string) : Z * option num_error :=
  match ParseUint s with
  | (_, Some ErrSyntax) => (0, Some ErrSyntax)
  | (un, _) =>
      if neg then
        if decide (un > 2 ^ 63) then (- 2 ^ 63, Some ErrRange) else (- un, None)
      else
        if decide (2 ^ 63 ≤ un) then (2 ^ 63 - 1, Some ErrRange) else (un, None)
  end.

(** [strconv.ParseInt(s, 10, 64)], also [strconv.Atoi]. *)
Definition ParseInt (s : string) : Z * option num_error :=
  match s with
  | String "-" s' => ParseInt_sign true s'
  | String "+" s' => ParseInt_sign false s'
  | _ => ParseInt_sign false s
  end.

Arguments digit_byte : simpl never.
Arguments digit_of : simpl never.
Arguments lower_byte : simpl never.
Arguments upper_byte : simpl never.
Arguments is_space : simpl never.
Arguments has_byte c%_char s%_stdpp.
Arguments Split s%_stdpp sep%_char.
Arguments SplitN2 s%_stdpp sep%_char.
Arguments LastIndex s%_stdpp sep%_char.
Arguments IndexByte s%_stdpp c%_char.
Arguments SplitHostPort hostport%_stdpp.

(** ** Lemmas on strings *)

Lemma has_byte_app c s1 s2 : has_byte c (s1 +:+ s2) = has_byte c s1 || has_byte c s2.
Proof. induction s1 as [|a s1 IH]; simpl; [done|]. by case_decide. Qed.

Lemma Split_nonempty s c : Split s c ≠ [].
Proof. induction s; simpl; [done|]. case_decide; [done|]. by case_match. Qed.

Lemma Split_none s c : has_byte c s = false → Split s c = [s].
Proof.
  induction s as [|a s IH]; simpl; [done|]. case_decide; [done|].
  intros H'. by rewrite IH.
Qed.

Lemma Split_app s1 s2 c :
  has_byte c s1 = false → Split (s1 +:+ String c s2) c = s1 :: Split s2 c.
Proof.
  induction s1 as [|a s1 IH]; simpl.
  - by rewrite decide_True.
  - case_decide; [done|]. intros H'. by rewrite IH.
Qed.

(** The pieces of a split, joined again, give the string back. *)
Lemma Join_Split s c : Join (Split s c) (String c "") = s.
Proof.
  induction s as [|a s IH]; [done|]. simpl. pose proof (Split_nonempty s c) as Hne.
  case_decide; subst.
  - destruct (Split s c) as [|w ws] eqn:E; [done|].
    change (Join ("" :: w :: ws) (String c "")) with
      ("" +:+ String c "" +:+ Join (w :: ws) (String c "")).
    by rewrite IH.
  - destruct (Split s c) as [|w ws] eqn:E; [done|].
    destruct ws as [|w' ws]; simpl in *; [congruence|].
    change (String a (w +:+ String c "" +:+ Join (w' :: ws) (String c "")) = String a s).
    by f_equal.
Qed.

Lemma substring_all s : String.substring 0 (String.length s) s = s.
Proof. induction s as [|a s IH]; simpl; [done|]. by rewrite IH. Qed.

Lemma length_string_app s1 s2 :
  String.length (s1 +:+ s2) = (String.length s1 + String.length s2)%nat.
Proof. induction s1 as [|a s1 IH]; simpl; [done|]. by f_equal. Qed.

Lemma substring_app_l s1 s2 : String.substring 0 (String.length s1) (s1 +:+ s2) = s1.
Proof.
  induction s1 as [|a s1 IH]; simpl; [by destruct s2|]. by f_equal.
Qed.

Lemma substring_app_r s1 s2 n :
  String.substring (String.length s1) n (s1 +:+ s2) = String.substring 0 n s2.
Proof. by induction s1. Qed.

Lemma string_app_nil_r s : s +:+ "" = s.
Proof. induction s as [|a s IH]; [done|]. change (String a (s +:+ "") = String a s). by f_equal. Qed.

Lemma string_app_assoc s1 s2 s3 : (s1 +:+ s2) +:+ s3 = s1 +:+ (s2 +:+ s3).
Proof.
  induction s1 as [|a s1 IH]; [done|].
  change (String a ((s1 +:+ s2) +:+ s3) = String a (s1 +:+ (s2 +:+ s3))). by f_equal.
Qed.

Lemma HasSuffix_app s p : HasSuffix (s +:+ p) p = true.
Proof.
  unfold HasSuffix. rewrite length_string_app. rewrite decide_True by lia.
  replace (String.length s + String.length p - String.length p)%nat
    with (String.length s) by lia.
  rewrite substring_app_r, substring_all. by apply bool_decide_eq_true.
Qed.

Lemma TrimSuffix_app s p : TrimSuffix (s +:+ p) p = s.
Proof.
  unfold TrimSuffix. rewrite HasSuffix_app, length_string_app.
  replace (String.length s + String.length p - String.length p)%nat
    with (String.length s) by lia.
  apply substring_app_l.
Qed.

Lemma HasPrefix_app p s : HasPrefix (p +:+ s) p = true.
Proof. induction p as [|a p IH]; simpl; [by destruct s|]. by rewrite decide_True. Qed.

Lemma TrimPrefix_app p s : TrimPrefix (p +:+ s) p = s.
Proof.
  unfold TrimPrefix. rewrite HasPrefix_app, substring_app_r, length_string_app.
  generalize (String.length p). intros n.
  assert (∀ k, String.substring 0 (k + String.length s) s = s) as H; [|apply H].
  induction s as [|a s IH]; intros k; simpl; [by destruct k|].
  rewrite Nat.add_succ_r. by rewrite IH.
Qed.

Lemma TrimPrefix_id s p : HasPrefix s p = false → TrimPrefix s p = s.
Proof. unfold TrimPrefix. by intros ->. Qed.

(** ** Lemmas on decimal numbers *)

Lemma digit_of_digit_byte d : 0 ≤ d < 10 → digit_of (digit_byte d) = Some d.
Proof.
  intros Hd. unfold digit_of, digit_byte. rewrite nat_ascii_embedding by lia.
  rewrite decide_True by lia. f_equal. lia.
Qed.

Lemma has_byte_format_digits c fuel n acc :
  0 ≤ n → digit_of c = None → has_byte c acc = false →
  has_byte c (format_digits fuel n acc) = false.
Proof.
  intros Hn Hc. revert n acc Hn. induction fuel as [|fuel IH]; intros n acc Hn Hacc; simpl; [done|].
  assert (has_byte c (String (digit_byte (n mod 10)) acc) = false) as Hacc'.
  { cbn [has_byte]. rewrite decide_False; [done|]. intros <-.
    rewrite digit_of_digit_byte in Hc; [done|].
    apply Z.mod_pos_bound. lia. }
  case_decide; [done|]. apply IH; [|done]. apply Z.div_pos; lia.
Qed.

(** A formatted number holds digits only. *)
Lemma has_byte_FormatUint c n : 0 ≤ n → digit_of c = None → has_byte c (FormatUint n) = false.
Proof. intros. by apply has_byte_format_digits. Qed.

Lemma ParseUint_format_digits fuel n acc :
  0 ≤ n ≤ max_uint64 → n < 2 ^ Z.of_nat fuel → (0 < fuel)%nat →
  ParseUint_loop 0 (format_digits fuel n acc) = ParseUint_loop n acc.
Proof.
  revert n acc. induction fuel as [|fuel IH]; intros n acc Hn Hlt Hfuel; [lia|].
  assert (0 ≤ n mod 10 < 10) as Hmod by (apply Z.mod_pos_bound; lia).
  pose proof (Z_div_mod_eq_full n 10) as Hdiv. simpl. case_decide as Hsmall.
  - cbn [ParseUint_loop]. rewrite digit_of_digit_byte by done.
    rewrite (Z.mod_small n 10) by lia. by rewrite decide_False by lia.
  - destruct fuel as [|fuel]; [simpl in Hlt; lia|].
    assert (n / 10 < 2 ^ Z.of_nat (S fuel)).
    { rewrite (Nat2Z.inj_succ (S fuel)), Z.pow_succ_r in Hlt by lia.
      apply Z.div_lt_upper_bound; lia. }
    rewrite IH; [|lia..]. cbn [ParseUint_loop]. rewrite digit_of_digit_byte by done.
    rewrite decide_False by lia. f_equal. lia.
Qed.

Lemma FormatUint_fuel n : 0 ≤ n → n < 2 ^ Z.of_nat (S (Z.to_nat (Z.log2 n))).
Proof.
  intros Hn. pose proof (Z.log2_nonneg n).
  rewrite Nat2Z.inj_succ, Z2Nat.id by lia.
  destruct (decide (n = 0)) as [->|]; [done|].
  pose proof (Z.log2_spec n). lia.
Qed.

Lemma ParseUint_loop_FormatUint n :
  0 ≤ n ≤ max_uint64 → ParseUint_loop 0 (FormatUint n) = (n, None).
Proof.
  intros Hn. unfold FormatUint.
  rewrite ParseUint_format_digits by (try apply FormatUint_fuel; lia). done.
Qed.

Lemma format_digits_nonempty fuel n acc :
  acc ≠ "" ∨ (0 < fuel)%nat → format_digits fuel n acc ≠ "".
Proof.
  revert n acc. induction fuel as [|fuel IH]; intros n acc Hor; simpl; [destruct Hor; [done|lia]|].
  case_decide; [done|]. apply IH. by left.
Qed.

(** Parsing a formatted number gives it back. *)
Lemma ParseUint_FormatUint n :
  0 ≤ n ≤ max_uint64 → ParseUint (FormatUint n) = (n, None).
Proof.
  intros Hn. rewrite <- ParseUint_loop_FormatUint by done.
  unfold ParseUint. destruct (FormatUint n) eqn:E; [|done].
  exfalso. revert E. apply format_digits_nonempty. lia.
Qed.

(** A number that parses is within 64 bits. *)
Lemma ParseUint_loop_range m s n :
  0 ≤ m → ParseUint_loop m s = (n, None) → m ≤ max_uint64 → 0 ≤ n ≤ max_uint64.
Proof.
  revert m. induction s as [|c s IH]; simpl; intros m Hm Hp Hle; [simplify_eq; lia|].
  destruct (digit_of c) as [d|] eqn:Hd; [|done]. case_decide; [done|].
  assert (0 ≤ d).
  { unfold digit_of in Hd. case_decide; simplify_eq. lia. }
  eapply IH; [|done|]; lia.
Qed.

Lemma ParseUint_range s n : ParseUint s = (n, None) → 0 ≤ n ≤ max_uint64.
Proof.
  unfold ParseUint. destruct s as [|c s]; [done|].
  intros Hp. eapply ParseUint_loop_range; [|exact Hp|]; unfold max_uint64; lia.
Qed.

(** ** Lemmas on addresses *)

Lemma LastIndex_none s c : has_byte c s = false → LastIndex s c = None.
Proof.
  induction s as [|a s IH]; [done|]. cbn [has_byte LastIndex]. case_decide; [done|].
  intros Hs. by rewrite IH.
Qed.

(** The text after the last separator. *)
Lemma LastIndex_app s1 s2 c :
  has_byte c s2 = false → LastIndex (s1 +:+ String c s2) c = Some (String.length s1).
Proof.
  intros Hs. induction s1 as [|a s1 IH].
  - simpl. by rewrite LastIndex_none, decide_True.
  - simpl. by rewrite IH.
Qed.

Lemma IndexByte_app s1 s2 c :
  has_byte c s1 = false → IndexByte (s1 +:+ String c s2) c = Some (String.length s1).
Proof.
  intros Hs. induction s1 as [|a s1 IH].
  - simpl. by rewrite decide_True.
  - revert Hs. simpl.
    case_decide; [done|]. intros Hs. by rewrite IH.
Qed.

Lemma slice_to_app s1 s2 : slice_to (s1 +:+ s2) (String.length s1) = s1.
Proof. apply substring_app_l. Qed.

Lemma slice_from_app s1 s2 : slice_from (s1 +:+ s2) (String.length s1) = s2.
Proof.
  unfold slice_from. rewrite length_string_app, substring_app_r.
  replace (String.length s1 + String.length s2 - String.length s1)%nat with (String.length s2) by lia.
  apply substring_all.
Qed.

Lemma slice_from_S s1 c s2 : slice_from (s1 +:+ String c s2) (S (String.length s1)) = s2.
Proof.
  replace (s1 +:+ String c s2) with ((s1 +:+ String c "") +:+ s2).
  - replace (S (String.length s1)) with (String.length (s1 +:+ String c "")); [apply slice_from_app|].
    rewrite length_string_app. simpl. lia.
  - by rewrite string_app_assoc.
Qed.

(** [SplitHostPort] undoes [JoinHostPort], for a host without brackets. *)
Lemma SplitHostPort_JoinHostPort host port :
  has_byte "[" host = false → has_byte "]" host = false →
  has_byte ":" port = false → has_byte "[" port = false → has_byte "]" port = false →
  SplitHostPort (JoinHostPort host port) = Some (host, port).
Proof.
  intros Hh1 Hh2 Hp1 Hp2 Hp3. unfold JoinHostPort. destruct (has_byte ":" host) eqn:Hc.
  - set (pre := "[" +:+ host +:+ "]").
    assert ("[" +:+ host +:+ "]:" +:+ port = pre +:+ String ":" port) as Heq.
    { unfold pre. by rewrite !string_app_assoc. }
    unfold SplitHostPort. rewrite Heq, LastIndex_app by done. cbv zeta.
    assert (HasPrefix (pre +:+ String ":" port) "[" = true) as ->.
    { unfold pre. rewrite string_app_assoc. apply HasPrefix_app. }
    assert (pre +:+ String ":" port = String "[" host +:+ String "]" (String ":" port)) as Heq2.
    { unfold pre. by rewrite !string_app_assoc. }
    rewrite Heq2, IndexByte_app by (cbn [has_byte]; by rewrite decide_False).
    assert (S (String.length (String "[" host)) = String.length pre) as Hlen.
    { unfold pre. rewrite !length_string_app. simpl. lia. }
    rewrite decide_True by done.
    rewrite slice_from_S.
    change (slice_from (String "[" host +:+ String "]" (String ":" port)) 1) with
      (slice_from (("[" +:+ "") +:+ (host +:+ String "]" (String ":" port))) (String.length ("[" +:+ ""))).
    rewrite slice_from_app, !has_byte_app, Hh1. cbn [has_byte].
    rewrite !decide_False, Hp2, Hp3 by done. cbn [orb].
    f_equal. f_equal.
    + cbn [String.length]. rewrite Nat.sub_1_r. cbn [Nat.pred].
      change (String.substring 0 (String.length host) (host +:+ String "]" (String ":" port)) = host).
      apply substring_app_l.
    + rewrite <- Heq2. apply slice_from_S.
  - change (host +:+ ":" +:+ port) with (host +:+ String ":" port).
    unfold SplitHostPort. rewrite LastIndex_app by done. cbv zeta.
    assert (HasPrefix (host +:+ String ":" port) "[" = false) as ->.
    { destruct host as [|a host]; [done|]. revert Hh1. cbn [has_byte].
      case_decide as Ha; [done|]. intros _. simpl. by rewrite decide_False. }
    rewrite slice_to_app, slice_from_S, !has_byte_app, Hc, Hh1, Hh2. cbn [has_byte].
    by rewrite !decide_False, Hp2, Hp3 by done.
Qed.

(** ** The order of strings *)

Lemma string_less_trans a b c :
  string_less a b = true → string_less b c = true → string_less a c = true.
Proof.
  unfold string_less. revert b c.
  induction a as [|x a IH]; intros [|y b] [|z c]; simpl; try done.
  unfold Ascii.compare.
  destruct (N.compare_spec (N_of_ascii x) (N_of_ascii y)) as [E1|E1|E1]; [| |done];
    destruct (N.compare_spec (N_of_ascii y) (N_of_ascii z)) as [E2|E2|E2]; try done;
    destruct (N.compare_spec (N_of_ascii x) (N_of_ascii z)) as [E3|E3|E3]; try done; try lia.
  apply IH.
Qed.

Lemma string_less_flip a b : string_less a b = false → a = b ∨ string_less b a = true.
Proof.
  unfold string_less. rewrite (String.compare_antisym b a).
  destruct (String.compare a b) eqn:E; simpl; [|done|by right].
  intros _. left. by apply String.compare_eq_iff.
Qed.

Lemma string_less_irrefl a : string_less a a = false.
Proof.
  unfold string_less. pose proof (String.compare_antisym a a) as Ha.
  by destruct (String.compare a a).
Qed.

Lemma strict_weak_string_less {A} (f : A → string) :
  strict_weak (λ x y, string_less (f x) (f y)).
Proof.
  split_and!.
  - intros x. apply string_less_irrefl.
  - intros x y z. apply string_less_trans.
  - intros x y z Hxy Hyz. destruct (string_less (f x) (f z)) eqn:E; [|done].
    apply string_less_flip in Hxy as [Hxy|Hxy], Hyz as [Hyz|Hyz].
    + rewrite Hxy, Hyz, string_less_irrefl in E. done.
    + rewrite Hxy in E. pose proof (string_less_trans _ _ _ E Hyz) as Hc. by rewrite string_less_irrefl in Hc.
    + rewrite <- Hyz in E. pose proof (string_less_trans _ _ _ E Hxy) as Hc.
      by rewrite string_less_irrefl in Hc.
    + pose proof (string_less_trans _ _ _ E (string_less_trans _ _ _ Hyz Hxy)) as Hc.
      by rewrite string_less_irrefl in Hc.
Qed.

(** ** Signed numbers *)

Lemma FormatUint_head n : 0 ≤ n → ∃ c s, FormatUint n = String c s ∧ c ≠ "-"%char ∧ c ≠ "+"%char.
Proof.
  intros Hn. destruct (FormatUint n) as [|c s] eqn:E.
  { exfalso. revert E. apply format_digits_nonempty. right. lia. }
  exists c, s. split; [done|].
  pose proof (has_byte_FormatUint "-" n Hn) as Hm. pose proof (has_byte_FormatUint "+" n Hn) as Hp.
  rewrite E in Hm, Hp. cbn [has_byte] in Hm, Hp. specialize (Hm eq_refl). specialize (Hp eq_refl).
  split; intros ->; by rewrite decide_True in *.
Qed.

Lemma ParseInt_FormatInt n : - 2 ^ 63 < n < 2 ^ 63 → ParseInt (FormatInt n) = (n, None).
Proof.
  intros Hn. unfold FormatInt. case_decide as Hneg.
  - cbn [ParseInt]. unfold ParseInt_sign. rewrite ParseUint_FormatUint by (unfold max_uint64; lia).
    rewrite decide_False by lia. f_equal. lia.
  - destruct (FormatUint_head n) as (c & s & Heq & Hc1 & Hc2); [lia|].
    assert (ParseInt (FormatUint n) = ParseInt_sign false (FormatUint n)) as ->.
    { rewrite Heq. unfold ParseInt. destruct c as [[] [] [] [] [] [] [] []]; done. }
    unfold ParseInt_sign. rewrite ParseUint_FormatUint by (unfold max_uint64; lia).
    by rewrite decide_False by lia.
Qed.

Lemma has_byte_FormatInt c n :
  digit_of c = None → c ≠ "-"%char → has_byte c (FormatInt n) = false.
Proof.
  intros Hd Hc. unfold FormatInt. case_decide.
  - cbn [has_byte]. rewrite decide_False by done. apply has_byte_FormatUint; [lia|done].
  - apply has_byte_FormatUint; [lia|done].
Qed.

(** Words without the separator, joined and split again. *)
Lemma Split_Join ws c :
  ws ≠ [] → Forall (λ w, has_byte c w = false) ws → Split (Join ws (String c "")) c = ws.
Proof.
  intros Hne. induction 1 as [|w ws Hw Hws IH]; [done|]. destruct ws as [|w' ws].
  - simpl. by apply Split_none.
  - change (Join (w :: w' :: ws) (String c "")) with (w +:+ String c (Join (w' :: ws) (String c ""))).
    rewrite Split_app by done. by rewrite IH.
Qed.
