(* ===== verification/GoFloat.v ===== *)
(** Go's [float64] arithmetic, as far as the clustering code uses it: integers
    converted to floats, the four operations, [math.Ceil], [math.Floor],
    [math.Abs], [math.Copysign] and the conversion back to [int].

    A finite float is the rational it denotes; an operation computes the exact
    rational and rounds it to 53 significant bits, ties to even.  The values at
    hand lie between 2^-32 and 2^32 in magnitude (or are 0), so the limits of the
    exponent play no part; the sign of a zero is not observed by the code. *)

From Stdlib Require Import ZArith QArith Qround Qabs Lia Lqa.
From S2P Require Import Prelude.

Local Open Scope Z_scope.

(** Nearest integer to [a / b] ([b > 0]), ties to even. *)
Definition div_nearest_even (a b : Z) : Z :=
  let q := a / b in
  let r := a mod b in
  match 2 * r ?= b with
  | Lt => q
  | Gt => q + 1
  | Eq => if Z.even q then q else q + 1
  end.

(** The binary exponent of the last of 53 significant bits of [n / d]. *)
Definition ulp_exponent (n d : Z) : Z :=
  let e := Z.log2 n - Z.log2 d - 52 in
  if decide (n * 2 ^ Z.max 0 (- e) < d * 2 ^ 52 * 2 ^ Z.max 0 e) then e - 1 else e.

(** [n / d] ([n, d > 0]) rounded to 53 bits. *)
Definition round53_pos (n d : Z) : Q :=
  let e := ulp_exponent n d in
  let m := div_nearest_even (n * 2 ^ Z.max 0 (- e)) (d * 2 ^ Z.max 0 e) in
  (m * 2 ^ Z.max 0 e # Z.to_pos (2 ^ Z.max 0 (- e))).

Definition round53 (q : Q) : Q :=
  match Qnum q with
  | Z0 => 0
  | Zpos p => round53_pos (Zpos p) (Zpos (Qden q))
  | Zneg p => - round53_pos (Zpos p) (Zpos (Qden q))
  end.

Inductive float64 :=
| Fin (q : Q)
| Inf (neg : bool)
| NaN.

Definition float_of_int (z : Z) : float64 := Fin (round53 (inject_Z z)).

Definition fneg (x : float64) : float64 :=
  match x with Fin q => Fin (- q) | Inf s => Inf (negb s) | NaN => NaN end.

Definition fadd (x y : float64) : float64 :=
  match x, y with
  | Fin p, Fin q => Fin (round53 (p + q))
  | NaN, _ | _, NaN => NaN
  | Inf s, Inf t => if Bool.eqb s t then Inf s else NaN
  | Inf s, Fin _ | Fin _, Inf s => Inf s
  end.
Definition fsub (x y : float64) : float64 := fadd x (fneg y).

Definition qneg (q : Q) : bool := Qnum q <? 0.
Definition qzero (q : Q) : bool := Qnum q =? 0.

Definition fmul (x y : float64) : float64 :=
  match x, y with
  | Fin p, Fin q => Fin (round53 (p * q))
  | NaN, _ | _, NaN => NaN
  | Inf s, Inf t => Inf (xorb s t)
  | Inf s, Fin q | Fin q, Inf s => if qzero q then NaN else Inf (xorb s (qneg q))
  end.

Definition fdiv (x y : float64) : float64 :=
  match x, y with
  | Fin p, Fin q =>
      if qzero q then (if qzero p then NaN else Inf (qneg p)) else Fin (round53 (p / q))
  | NaN, _ | _, NaN => NaN
  | Inf _, Inf _ => NaN
  | Inf s, Fin q => Inf (xorb s (qneg q))
  | Fin _, Inf _ => Fin 0
  end.

Definition fmap_fin (f : Q → Q) (x : float64) : float64 :=
  match x with Fin q => Fin (f q) | _ => x end.
Definition math_Ceil : float64 → float64 := fmap_fin (λ q, inject_Z (Qceiling q)).
Definition math_Floor : float64 → float64 := fmap_fin (λ q, inject_Z (Qfloor q)).
Definition math_Abs (x : float64) : float64 :=
  match x with Fin q => Fin (Qabs q) | Inf _ => Inf false | NaN => NaN end.

(** [math.Copysign(f, sign)] for a positive [f]. *)
Definition math_Copysign (f : Q) (sign : float64) : float64 :=
  match sign with
  | Fin q => Fin (if qneg q then - f else f)
  | Inf s => Fin (if s then - f else f)
  | NaN => Fin f
  end.

Definition fless (x y : float64) : bool :=
  match x, y with
  | Fin p, Fin q => negb (Qle_bool q p)
  | NaN, _ | _, NaN => false
  | Inf s, Inf t => s && negb t
  | Inf s, Fin _ => s
  | Fin _, Inf t => negb t
  end.

(** [int(f)]: truncation toward zero; an infinity or a NaN gives the smallest
    integer (the conversion of amd64). *)
Definition int_of_float (x : float64) : Z :=
  match x with
  | Fin q => Z.quot (Qnum q) (Zpos (Qden q))
  | _ => - 2 ^ 63
  end.

(** [utils.Round]: [int(num + math.Copysign(0.5, num))]. *)
Definition Round (num : float64) : Z := int_of_float (fadd num (math_Copysign (1 # 2) num)).

(** ** Rounding error *)

Lemma div_nearest_even_bound a b :
  0 < b → 2 * Z.abs (div_nearest_even a b * b - a) ≤ b.
Proof.
  intros Hb. unfold div_nearest_even.
  pose proof (Z_div_mod_eq_full a b). pose proof (Z.mod_pos_bound a b Hb).
  destruct (Z.compare_spec (2 * (a mod b)) b); [destruct (Z.even _)|..]; nia.
Qed.

Lemma div_nearest_even_exact a b : 0 < b → a mod b = 0 → div_nearest_even a b = a / b.
Proof.
  intros Hb Hr. unfold div_nearest_even. rewrite Hr.
  destruct b; [lia|done|lia].
Qed.

(** 53 bits are kept: the scaled quotient is at least 2^52. *)
Lemma ulp_exponent_spec n d :
  0 < n → 0 < d →
  d * 2 ^ Z.max 0 (ulp_exponent n d) * 2 ^ 52 ≤ n * 2 ^ Z.max 0 (- ulp_exponent n d).
Proof.
  intros Hn Hd. unfold ulp_exponent.
  pose proof (Z.log2_spec n Hn) as [Hn1 Hn2]. pose proof (Z.log2_spec d Hd) as [Hd1 Hd2].
  pose proof (Z.log2_nonneg n). pose proof (Z.log2_nonneg d).
  set (ln := Z.log2 n) in *. set (ld := Z.log2 d) in *.
  case_decide as Hlt; [|nia]. clear Hlt.
  set (e := ln - ld - 52 - 1).
  assert (2 ^ (ld + 1) * 2 ^ Z.max 0 e * 2 ^ 52 ≤ 2 ^ ln * 2 ^ Z.max 0 (- e)) as Hpow.
  { rewrite <- !Z.pow_add_r by lia. apply Z.pow_le_mono_r; lia. }
  pose proof (Z.pow_pos_nonneg 2 (Z.max 0 e)). pose proof (Z.pow_pos_nonneg 2 (Z.max 0 (- e))).
  rewrite <- Z.add_1_r in Hd2. nia.
Qed.

Lemma ulp_exponent_lt53 k d : 0 < k ≤ 2 ^ 53 → 0 < d → ulp_exponent (k * d) d ≤ 1.
Proof.
  intros Hk Hd. unfold ulp_exponent.
  assert (Z.log2 (k * d) ≤ Z.log2 k + Z.log2 d + 1) by (apply Z.log2_mul_above; lia).
  assert (Z.log2 k ≤ 53).
  { rewrite <- (Z.log2_pow2 53) by lia. apply Z.log2_le_mono. lia. }
  case_decide as Hc; [lia|].
  destruct (decide (Z.log2 (k * d) - Z.log2 d - 52 = 2)) as [He|]; [|lia].
  destruct Hc. rewrite He. change (k * d * 1 < d * 2 ^ 52 * 4). nia.
Qed.

Lemma pow_max_cases e : (0 ≤ e ∧ 2 ^ Z.max 0 (- e) = 1) ∨ (e < 0 ∧ 2 ^ Z.max 0 e = 1).
Proof.
  destruct (decide (0 ≤ e)); [left|right].
  - split; [done|]. by replace (Z.max 0 (- e)) with 0 by lia.
  - split; [lia|]. by replace (Z.max 0 e) with 0 by lia.
Qed.

Lemma round53_pos_error n d :
  0 < n → 0 < d →
  (Qabs (round53_pos n d - (n # Z.to_pos d)) <= (n # Z.to_pos d) * (1 # 2 ^ 53))%Q.
Proof.
  intros Hn Hd. unfold round53_pos.
  pose proof (ulp_exponent_spec n d Hn Hd) as Hspec.
  set (e := ulp_exponent n d) in *.
  assert (0 < 2 ^ Z.max 0 e) as HE by (apply Z.pow_pos_nonneg; lia).
  assert (0 < 2 ^ Z.max 0 (- e)) as HF by (apply Z.pow_pos_nonneg; lia).
  set (E := 2 ^ Z.max 0 e) in *. set (F := 2 ^ Z.max 0 (- e)) in *.
  pose proof (div_nearest_even_bound (n * F) (d * E)) as Hm.
  set (m := div_nearest_even (n * F) (d * E)) in *.
  specialize (Hm ltac:(nia)). unfold Qle, Qabs, Qminus, Qplus, Qopp, Qmult. simpl.
  rewrite !Pos2Z.inj_mul, !Z2Pos.id by lia.
  replace (Z.pos (2 ^ 53)) with (2 ^ 53) by done. rewrite Z.mul_1_r.
  replace (m * E * d + - n * F) with (m * (d * E) - n * F) by ring.
  assert (Z.abs (m * (d * E) - n * F) * 2 ^ 53 ≤ n * F) by lia. nia.
Qed.

Lemma round53_error q : (Qabs (round53 q - q) <= Qabs q * (1 # 2 ^ 53))%Q.
Proof.
  unfold round53. destruct q as [[|p|p] d]; cbn [Qnum Qden].
  - unfold Qle. simpl. lia.
  - apply (round53_pos_error (Z.pos p) (Z.pos d)); lia.
  - pose proof (round53_pos_error (Z.pos p) (Z.pos d) ltac:(lia) ltac:(lia)) as He.
    change (Z.to_pos (Z.pos d)) with d in He.
    assert ((- round53_pos (Z.pos p) (Z.pos d) - (Z.neg p # d)) ==
            - (round53_pos (Z.pos p) (Z.pos d) - (Z.pos p # d)))%Q as ->.
    { change (Z.neg p # d)%Q with (- (Z.pos p # d))%Q. ring. }
    rewrite Qabs_opp. exact He.
Qed.

(** ** Signs *)

Lemma div_nearest_even_nonneg a b : 0 <= a -> 0 < b -> 0 <= div_nearest_even a b.
Proof.
  intros Ha Hb. unfold div_nearest_even. pose proof (Z.div_pos a b Ha Hb).
  destruct (_ ?= _); [destruct (Z.even _)|..]; lia.
Qed.

Lemma round53_nonneg q : (0 <= q)%Q -> (0 <= round53 q)%Q.
Proof.
  intros Hq. unfold round53. destruct q as [[|p|p] d]; cbn [Qnum Qden].
  - done.
  - unfold round53_pos, Qle. simpl.
    set (e := ulp_exponent (Z.pos p) (Z.pos d)).
    pose proof (Z.pow_pos_nonneg 2 (Z.max 0 e)). pose proof (Z.pow_pos_nonneg 2 (Z.max 0 (- e))).
    pose proof (div_nearest_even_nonneg (Z.pos p * 2 ^ Z.max 0 (- e)) (Z.pos d * 2 ^ Z.max 0 e)). nia.
  - exfalso. unfold Qle in Hq. simpl in Hq. lia.
Qed.

Lemma int_of_float_inject_Z z : int_of_float (Fin (inject_Z z)) = z.
Proof. unfold int_of_float, inject_Z. cbn [Qnum Qden]. apply Z.quot_1_r. Qed.

(** The ceiling of a quotient of non-negative integers is not negative. *)
Lemma ceil_div_nonneg a b :
  0 <= a -> 0 < b -> 0 <= int_of_float (math_Ceil (fdiv (float_of_int a) (float_of_int b))).
Proof.
  intros Ha Hb. unfold fdiv, float_of_int.
  assert (0 <= round53 (inject_Z a))%Q as Hra by (apply round53_nonneg; unfold Qle; simpl; lia).
  assert (0 <= round53 (inject_Z b))%Q as Hrb by (apply round53_nonneg; unfold Qle; simpl; lia).
  destruct (qzero (round53 (inject_Z b))) eqn:Hz.
  - exfalso. apply Z.eqb_eq in Hz.
    pose proof (round53_error (inject_Z b)) as He. revert Hz He.
    destruct (round53 (inject_Z b)) as [n d]. cbn [Qnum]. intros ->.
    unfold Qle, Qabs, Qminus, Qplus, Qmult, Qopp, inject_Z. cbn [Qnum Qden].
    rewrite !Pos2Z.inj_mul. change (Z.pos (2 ^ 53)) with (2 ^ 53). nia.
  - unfold math_Ceil, fmap_fin. rewrite int_of_float_inject_Z.
    set (q := round53 (round53 (inject_Z a) / round53 (inject_Z b))).
    assert (0 <= q)%Q as Hq.
    { apply round53_nonneg. unfold Qdiv. apply Qmult_le_0_compat; [done|]. by apply Qinv_le_0_compat. }
    change 0 with (Qceiling 0). by apply Qceiling_resp_le.
Qed.

(** ** Exact and almost exact results *)

Lemma round53_pos_exact k d : 0 < k <= 2 ^ 53 -> 0 < d -> (round53_pos (k * d) d == inject_Z k)%Q.
Proof.
  intros Hk Hd. unfold round53_pos.
  pose proof (ulp_exponent_lt53 k d Hk Hd) as Hle.
  pose proof (ulp_exponent_spec (k * d) d ltac:(nia) Hd) as Hspec.
  set (e := ulp_exponent (k * d) d) in *. unfold Qeq, inject_Z. cbn [Qnum Qden].
  rewrite Z2Pos.id by (apply Z.pow_pos_nonneg; lia). rewrite Z.mul_1_r.
  destruct (Z.eq_dec e 1) as [He|He].
  - rewrite He in *. change (Z.max 0 (- (1))) with 0 in *. change (Z.max 0 1) with 1 in *.
    change (2 ^ 0) with 1 in *. change (2 ^ 1) with 2 in *.
    assert (k = 2 ^ 53) as -> by nia. replace (2 ^ 53 * d * 1) with (2 ^ 52 * (d * 2)) by lia.
    rewrite div_nearest_even_exact by (try apply Z.mod_mul; lia). rewrite Z.div_mul by lia. reflexivity.
  - replace (Z.max 0 e) with 0 by lia. change (2 ^ 0) with 1. rewrite !Z.mul_1_r.
    set (F := 2 ^ Z.max 0 (- e)). replace (k * d * F) with (k * F * d) by lia.
    rewrite div_nearest_even_exact by (try apply Z.mod_mul; lia). rewrite Z.div_mul by lia. reflexivity.
Qed.

(** A rational that is an integer of at most 53 bits is not rounded. *)
Lemma round53_exact q k : (q == inject_Z k)%Q -> 0 <= k <= 2 ^ 53 -> (round53 q == inject_Z k)%Q.
Proof.
  intros Hq Hk. destruct q as [n d]. unfold Qeq, inject_Z in Hq. cbn [Qnum Qden] in Hq.
  rewrite Z.mul_1_r in Hq. unfold round53. cbn [Qnum Qden]. destruct n as [|p|p].
  - assert (k = 0) as -> by lia. reflexivity.
  - rewrite Hq. apply round53_pos_exact; lia.
  - lia.
Qed.

Lemma round53_pos_int k : 0 < k <= 2 ^ 53 -> (round53_pos k 1 == inject_Z k)%Q.
Proof. intros Hk. rewrite <- (Z.mul_1_r k) at 1. by apply round53_pos_exact. Qed.

Lemma round53_int k : Z.abs k <= 2 ^ 53 -> (round53 (inject_Z k) == inject_Z k)%Q.
Proof.
  intros Hk. unfold round53, inject_Z. destruct k as [|p|p]; cbn [Qnum Qden]; [reflexivity|..].
  - rewrite round53_pos_int by lia. reflexivity.
  - rewrite round53_pos_int by lia. reflexivity.
Qed.

(** The rounding error of a result of bounded magnitude. *)
Lemma round53_near x (B : Z) :
  (- inject_Z B <= x <= inject_Z B)%Q ->
  (x - inject_Z B * (1 # 2 ^ 53) <= round53 x <= x + inject_Z B * (1 # 2 ^ 53))%Q.
Proof.
  intros Hx. pose proof (round53_error x) as He.
  assert (Qabs x <= inject_Z B)%Q as Hb by (apply Qabs_Qle_condition; lra).
  assert (Qabs x * (1 # 2 ^ 53) <= inject_Z B * (1 # 2 ^ 53))%Q as Hm.
  { apply Qmult_le_compat_r; [exact Hb|]. unfold Qle. simpl. lia. }
  assert (Qabs (round53 x - x) <= inject_Z B * (1 # 2 ^ 53))%Q as Ha by lra.
  apply Qabs_Qle_condition in Ha. lra.
Qed.

(** Truncation of a finite float, bounded by integers. *)
Lemma int_of_float_le q k : (q < inject_Z (k + 1))%Q -> 0 <= k -> int_of_float (Fin q) <= k.
Proof.
  intros Hq Hk. unfold int_of_float. destruct q as [n d]. unfold Qlt, inject_Z in Hq. cbn [Qnum Qden] in *.
  rewrite Z.mul_1_r in Hq. destruct (Z.le_gt_cases 0 n).
  - rewrite Z.quot_div_nonneg by lia. apply Z.lt_succ_r, Z.div_lt_upper_bound; lia.
  - pose proof (Z.quot_le_upper_bound n (Z.pos d) 0). lia.
Qed.

Lemma int_of_float_ge q k : (inject_Z k <= q)%Q -> 0 <= k -> k <= int_of_float (Fin q).
Proof.
  intros Hq Hk. unfold int_of_float. destruct q as [n d]. unfold Qle, inject_Z in Hq. cbn [Qnum Qden] in *.
  rewrite Z.mul_1_r in Hq. rewrite Z.quot_div_nonneg by nia. apply Z.div_le_lower_bound; lia.
Qed.

Lemma int_of_abs z : Z.abs z <= 2 ^ 53 -> int_of_float (math_Abs (float_of_int z)) = Z.abs z.
Proof.
  intros Hz. unfold float_of_int, math_Abs.
  assert (Qabs (round53 (inject_Z z)) == inject_Z (Z.abs z))%Q as Heq.
  { rewrite round53_int by lia. reflexivity. }
  apply Z.le_antisymm.
  - apply int_of_float_le; [|lia]. rewrite Heq. unfold Qlt, inject_Z. simpl. lia.
  - apply int_of_float_ge; [|lia]. rewrite Heq. lra.
Qed.

Lemma fless_abs a b :
  Z.abs a <= 2 ^ 53 -> Z.abs b <= 2 ^ 53 ->
  fless (math_Abs (float_of_int a)) (math_Abs (float_of_int b)) = (Z.abs a <? Z.abs b).
Proof.
  intros Ha Hb. unfold fless, math_Abs, float_of_int.
  assert (∀ z, Z.abs z <= 2 ^ 53 -> Qeq (Qabs (round53 (inject_Z z))) (inject_Z (Z.abs z))) as Heq.
  { intros z Hz. rewrite round53_int by lia. reflexivity. }
  pose proof (Heq a Ha) as Ea. pose proof (Heq b Hb) as Eb.
  destruct (Qle_bool _ _) eqn:E; simpl; symmetry.
  - apply Qle_bool_iff in E. rewrite Ea, Eb in E. apply Z.ltb_ge. unfold Qle, inject_Z in E. simpl in E. lia.
  - apply Z.ltb_lt. apply not_true_iff_false in E. rewrite Qle_bool_iff, Ea, Eb in E.
    unfold Qle, inject_Z in E. simpl in E. lia.
Qed.

Lemma fless_0_abs a :
  Z.abs a <= 2 ^ 53 -> fless (Fin 0) (math_Abs (float_of_int a)) = (0 <? Z.abs a).
Proof.
  intros Ha. unfold fless, math_Abs, float_of_int.
  assert (Qabs (round53 (inject_Z a)) == inject_Z (Z.abs a))%Q as Ea.
  { rewrite round53_int by lia. reflexivity. }
  destruct (Qle_bool _ _) eqn:E; simpl; symmetry.
  - apply Qle_bool_iff in E. rewrite Ea in E. apply Z.ltb_ge. unfold Qle, inject_Z in E. simpl in E. lia.
  - apply Z.ltb_lt. apply not_true_iff_false in E. rewrite Qle_bool_iff, Ea in E.
    unfold Qle, inject_Z in E. simpl in E. lia.
Qed.

(** A quotient of integers as floats. *)
Lemma fdiv_int a b :
  Z.abs a <= 2 ^ 53 -> 0 < b <= 2 ^ 53 ->
  exists q, fdiv (float_of_int a) (float_of_int b) = Fin (round53 q) /\ (q == inject_Z a / inject_Z b)%Q.
Proof.
  intros Ha Hb. unfold fdiv, float_of_int.
  assert (round53 (inject_Z b) == inject_Z b)%Q as Eb by (apply round53_int; lia).
  destruct (qzero (round53 (inject_Z b))) eqn:Hz.
  - exfalso. apply Z.eqb_eq in Hz. unfold Qeq in Eb. rewrite Hz in Eb. simpl in Eb. lia.
  - eexists. split; [reflexivity|]. by rewrite Eb, round53_int.
Qed.

(** The share of a single source in a resharding: scaling the fraction [k / t] back by
    [t] and rounding up gives at least [k]. *)
Lemma reshard_share k t :
  1 <= k <= t -> t <= 2 ^ 31 ->
  k <= int_of_float (math_Ceil (fmul (fdiv (float_of_int k) (float_of_int t)) (float_of_int t))).
Proof.
  intros Hk Ht. destruct (fdiv_int k t) as (q & -> & Hq); [lia..|].
  unfold fmul, float_of_int, math_Ceil, fmap_fin. rewrite int_of_float_inject_Z.
  assert (round53 (inject_Z t) == inject_Z t)%Q as Et by (apply round53_int; lia).
  assert (0 < inject_Z t)%Q as Htpos by (unfold Qlt, inject_Z; simpl; lia).
  assert (q * inject_Z t == inject_Z k)%Q as Hqt.
  { rewrite Hq, Qmult_comm. apply Qmult_div_r. lra. }
  assert (inject_Z 1 <= inject_Z k <= inject_Z t)%Q as [Hk1 Hk2] by (unfold Qle, inject_Z; simpl; lia).
  assert (inject_Z t <= inject_Z (2 ^ 31))%Q as Ht31 by (unfold Qle, inject_Z; simpl; lia).
  change (inject_Z 1) with 1%Q in *.
  assert (0 <= q <= 1)%Q as [Hq0 Hq1].
  { split.
    - destruct (Qlt_le_dec q 0) as [Hn|]; [|done]. exfalso. nra.
    - destruct (Qlt_le_dec 1 q) as [Hn|]; [|done]. exfalso. nra. }
  pose proof (round53_near q 1) as [Hr1 Hr2]; [change (inject_Z 1) with 1%Q; lra|].
  change (inject_Z 1) with 1%Q in Hr1, Hr2.
  set (x := round53 q) in *. set (y := (x * round53 (inject_Z t))%Q).
  assert (y == x * inject_Z t)%Q as Hy by (unfold y; by rewrite Et).
  assert (inject_Z k - (1 # 2 ^ 22) <= y <= inject_Z k + (1 # 2 ^ 22))%Q as [Hy1 Hy2].
  { rewrite Hy, <- Hqt. assert (inject_Z t * (1 # 2 ^ 53) <= (1 # 2 ^ 22))%Q.
    { apply Qle_trans with (inject_Z (2 ^ 31) * (1 # 2 ^ 53))%Q; [|unfold Qle; simpl; lia].
      apply Qmult_le_compat_r; [done|]. unfold Qle. simpl. lia. }
    split; nra. }
  pose proof (round53_near y (2 ^ 32)) as [Hr3 _].
  { assert (inject_Z (2 ^ 31) + (1 # 2 ^ 22) <= inject_Z (2 ^ 32))%Q by (unfold Qle; simpl; lia).
    assert (1 # 2 ^ 22 <= 1)%Q by (unfold Qle; simpl; lia). split; lra. }
  assert (inject_Z (2 ^ 32) * (1 # 2 ^ 53) <= (1 # 2 ^ 20))%Q as Hsmall by (unfold Qle; simpl; lia).
  assert ((1 # 2 ^ 22) + (1 # 2 ^ 20) < 1)%Q as Hone by (unfold Qlt; simpl; lia).
  assert (inject_Z k - 1 < round53 y)%Q as Hlt by lra.
  pose proof (Qle_ceiling (round53 y)) as Hceil.
  assert (inject_Z k - 1 < inject_Z (Qceiling (round53 y)))%Q as Hfin by lra.
  unfold Qlt, Qminus, Qplus, Qopp, inject_Z in Hfin. cbn [Qnum Qden] in Hfin. lia.
Qed.

(** ** The boundaries of an even allocation

    [AllocSlots] adds up the float [16384 / p] and rounds the sum to find the last
    slot of each of [p] nodes. *)

Definition share (p : positive) : Q := 16384 # p.

Lemma inject_Z_bound (a b : Z) : a <= b -> (inject_Z a <= inject_Z b)%Q.
Proof. unfold Qle, inject_Z. simpl. lia. Qed.

Lemma share_near p :
  Z.pos p <= 16384 ->
  exists s, fdiv (float_of_int 16384) (float_of_int (Z.pos p)) = Fin s /\
    (share p - (1 # 2 ^ 38) <= s <= share p + (1 # 2 ^ 38))%Q.
Proof.
  intros Hp. destruct (fdiv_int 16384 (Z.pos p)) as (q & Hq & Heq); [lia..|].
  exists (round53 q). split; [done|].
  assert (q == share p)%Q as Hs.
  { rewrite Heq. unfold share, inject_Z, Qdiv, Qmult, Qinv, Qeq. simpl. lia. }
  assert (0 <= share p <= inject_Z (2 ^ 14))%Q as [H0 H1] by (unfold share, Qle, inject_Z; simpl; lia).
  pose proof (round53_near q (2 ^ 14)) as [Ha Hb]; [split; lra|].
  assert (inject_Z (2 ^ 14) * (1 # 2 ^ 53) <= (1 # 2 ^ 38))%Q by (unfold Qle; simpl; lia).
  split; lra.
Qed.

(** The cursor after [i] steps. *)
Definition cursor_near (p : positive) (i : Z) (c : Q) : Prop :=
  (share p * inject_Z i - inject_Z i * (1 # 2 ^ 37) <= c <=
   share p * inject_Z i + inject_Z i * (1 # 2 ^ 37))%Q.

Lemma share_mult_bound p i : 0 <= i <= Z.pos p -> (0 <= share p * inject_Z i <= 16384)%Q.
Proof. intros Hi. unfold share, Qle, Qmult, inject_Z. simpl. nia. Qed.

Lemma cursor_step p i c s :
  Z.pos p <= 16384 -> 0 <= i < Z.pos p -> cursor_near p i c ->
  (share p - (1 # 2 ^ 38) <= s <= share p + (1 # 2 ^ 38))%Q ->
  cursor_near p (i + 1) (round53 (c + s)).
Proof.
  unfold cursor_near. intros Hp Hi [Hc1 Hc2] [Hs1 Hs2].
  pose proof (share_mult_bound p (i + 1)) as [Hb1 Hb2]; [lia|].
  rewrite inject_Z_plus in *. change (inject_Z 1) with 1%Q in *.
  assert (0 <= inject_Z i <= inject_Z 16384)%Q as [Hi1 Hi2] by (unfold Qle, inject_Z; simpl; lia).
  assert (inject_Z i * (1 # 2 ^ 37) <= (1 # 2 ^ 22))%Q as Hi3.
  { apply Qle_trans with (inject_Z 16384 * (1 # 2 ^ 37))%Q; [|unfold Qle; simpl; lia].
    apply Qmult_le_compat_r; [done|]. unfold Qle. simpl. lia. }
  assert ((1 # 2 ^ 22) <= 1 /\ (1 # 2 ^ 38) <= 1)%Q as [] by (unfold Qle; simpl; lia).
  assert (inject_Z (2 ^ 15) * (1 # 2 ^ 53) == (1 # 2 ^ 38))%Q as H15 by reflexivity.
  assert ((1 # 2 ^ 37) == (1 # 2 ^ 38) + (1 # 2 ^ 38))%Q as H37 by reflexivity.
  change (inject_Z (2 ^ 15)) with 32768%Q in *.
  pose proof (round53_near (c + s) (2 ^ 15)) as [Ha Hb]; change (inject_Z (2 ^ 15)) with 32768%Q in *.
  { split; lra. }
  split; lra.
Qed.

Lemma int_of_float_small q : (- (1) < q < 1)%Q -> int_of_float (Fin q) = 0.
Proof.
  intros [H1 H2]. unfold int_of_float. destruct q as [n d]. unfold Qlt in *. simpl in *.
  apply Z.quot_small_iff; lia.
Qed.

(** [utils.Round] is within a half, and a bit, of its argument. *)
Lemma Round_near v :
  (- (1 # 4) <= v <= 16385)%Q ->
  (v - (1 # 2) - (1 # 2 ^ 20) <= inject_Z (Round (Fin v)) <= v + (1 # 2) + (1 # 2 ^ 20))%Q \/
  ((- (1 # 4) <= v < 0)%Q /\ Round (Fin v) = 0).
Proof.
  intros [Hv1 Hv2]. unfold Round, math_Copysign, qneg, fadd. destruct (Qnum v <? 0) eqn:Hneg.
  - right. apply Z.ltb_lt in Hneg.
    assert (v < 0)%Q as Hv by (destruct v; unfold Qlt; simpl in *; lia).
    split; [split; lra|]. apply int_of_float_small.
    pose proof (round53_near (v + - (1 # 2)) 1) as [Ha Hb]; change (inject_Z 1) with 1%Q in *; [split; lra|].
    assert ((1 # 2 ^ 53) < (1 # 4))%Q by (unfold Qlt; simpl; lia). split; lra.
  - left. apply Z.ltb_ge in Hneg.
    assert (0 <= v)%Q as Hv by (destruct v; unfold Qle; simpl in *; lia).
    pose proof (round53_near (v + (1 # 2)) 32768) as [Ha Hb]; change (inject_Z 32768) with 32768%Q in *.
    { split; lra. }
    assert (32768 * (1 # 2 ^ 53) <= (1 # 2 ^ 20))%Q by (unfold Qle; simpl; lia).
    assert ((1 # 2 ^ 20) < (1 # 4))%Q by (unfold Qlt; simpl; lia).
    set (w := round53 (v + (1 # 2))) in *.
    assert (0 <= w)%Q as Hw by lra.
    unfold int_of_float. clearbody w. destruct w as [n d].
    assert (0 <= n) as Hn by (unfold Qle in Hw; simpl in Hw; lia).
    cbn [Qnum Qden]. rewrite Z.quot_div_nonneg by lia.
    pose proof (Z.mul_div_le n (Z.pos d) ltac:(lia)). pose proof (Z.mul_succ_div_gt n (Z.pos d) ltac:(lia)).
    assert (inject_Z (n / Z.pos d) <= n # d)%Q by (unfold Qle, inject_Z; cbn [Qnum Qden]; lia).
    assert ((n # d) <= inject_Z (n / Z.pos d) + 1)%Q.
    { unfold Qle, Qplus, inject_Z. cbn [Qnum Qden]. lia. }
    split; lra.
Qed.

(** The rounded boundary of node [i], scaled by [2 p], is within [p] of its ideal. *)
Lemma boundary_near p i c s :
  Z.pos p <= 16384 -> 0 <= i < Z.pos p -> cursor_near p i c ->
  (share p - (1 # 2 ^ 38) <= s <= share p + (1 # 2 ^ 38))%Q ->
  let last := Round (fsub (fadd (Fin c) (Fin s)) (Fin 1)) in
  2 * (i + 1) * 16384 - Z.pos p <= 2 * Z.pos p * (last + 1) <= 2 * (i + 1) * 16384 + Z.pos p.
Proof.
  intros Hp Hi Hc Hs last. pose proof (cursor_step p i c s Hp Hi Hc Hs) as Hc'.
  unfold cursor_near in Hc'. destruct Hc' as [Hc1 Hc2].
  unfold last. cbn [fadd fsub fneg]. clear last. set (c' := round53 (c + s)) in *.
  pose proof (share_mult_bound p (i + 1)) as [Hb1 Hb2]; [lia|].
  assert (1 <= share p * inject_Z (i + 1))%Q as Hb3.
  { unfold share, Qle, Qmult, inject_Z. simpl. nia. }
  assert (inject_Z (i + 1) * (1 # 2 ^ 37) <= (1 # 2 ^ 23))%Q as Hi3.
  { apply Qle_trans with (inject_Z 16384 * (1 # 2 ^ 37))%Q; [|unfold Qle; simpl; lia].
    apply Qmult_le_compat_r; [|unfold Qle; simpl; lia]. apply inject_Z_bound. lia. }
  assert ((1 # 2 ^ 23) < (1 # 8))%Q as H8 by (unfold Qlt; simpl; lia).
  set (x := (share p * inject_Z (i + 1))%Q) in *.
  pose proof (round53_near (c' + - (1)) 32768) as [Ha Hb]; change (inject_Z 32768) with 32768%Q in *.
  { split; lra. }
  assert (32768 * (1 # 2 ^ 53) <= (1 # 2 ^ 23))%Q as H53 by (unfold Qle; simpl; lia).
  set (v := round53 (c' + - (1))) in *. set (last := Round (Fin v)).
  assert (x - 1 - (1 # 2) - (1 # 2 ^ 19) <= inject_Z last <= x - 1 + (1 # 2) + (1 # 2 ^ 19))%Q as [Hl1 Hl2].
  { assert ((1 # 2 ^ 23) + (1 # 2 ^ 23) + (1 # 2 ^ 20) <= (1 # 2 ^ 19))%Q by (unfold Qle; simpl; lia).
    unfold last. destruct (Round_near v) as [[Hr1 Hr2]|[[Hv1 Hv2] ->]]; [split; lra|split; lra|].
    assert (0 <= (1 # 2 ^ 23) /\ 0 <= (1 # 2 ^ 19))%Q as [] by (unfold Qle; simpl; lia).
    change (inject_Z 0) with 0%Q. split; lra. }
  clearbody last. clear -Hp Hi Hl1 Hl2. unfold x, share in *.
  unfold Qminus in Hl1, Hl2. unfold Qle, Qplus, Qopp, Qmult, inject_Z in Hl1, Hl2.
  cbn [Qnum Qden] in Hl1, Hl2. change (Z.pos (2 ^ 19)) with 524288 in *. change (2 ^ 19)%positive with 524288%positive in *.
  cbn [Qnum Qden] in Hl1, Hl2. rewrite ?Pos2Z.inj_mul in Hl1. rewrite ?Pos2Z.inj_mul in Hl2.
  set (P := Z.pos p) in *. clearbody P.
  assert (1048576 * P * (last + 1) <= 1048576 * ((i + 1) * 16384) + 524288 * P + 2 * P) as H2 by lia.
  assert (1048576 * ((i + 1) * 16384) <= 1048576 * P * (last + 1) + 524288 * P + 2 * P) as H1 by lia.
  lia.
Qed.

(** Integer division through floats, for operands of the size of the slot range. *)
Lemma int_of_fdiv a b :
  0 <= a <= 2 ^ 20 -> 1 <= b <= 2 ^ 20 ->
  int_of_float (fdiv (float_of_int a) (float_of_int b)) = a / b.
Proof.
  intros Ha Hb. destruct (fdiv_int a b) as (q & -> & Hq); [lia..|].
  assert (0 < inject_Z b)%Q as Hb0 by (unfold Qlt, inject_Z; simpl; lia).
  assert (q * inject_Z b == inject_Z a)%Q as Hqb by (rewrite Hq, Qmult_comm; apply Qmult_div_r; lra).
  pose proof (Z_div_mod_eq_full a b) as Hdiv. pose proof (Z.mod_pos_bound a b ltac:(lia)) as Hmod.
  set (k := a / b) in *. set (r := a mod b) in *.
  assert (0 <= k <= 2 ^ 20) as Hk by (unfold k; split; [apply Z.div_pos; lia|apply Z.div_le_upper_bound; nia]).
  assert (inject_Z a == inject_Z b * inject_Z k + inject_Z r)%Q as Haq.
  { rewrite Hdiv, inject_Z_plus, inject_Z_mult. reflexivity. }
  assert (0 <= inject_Z r)%Q as Hr0 by (unfold Qle, inject_Z; simpl; lia).
  assert (inject_Z r + 1 <= inject_Z b)%Q as Hr1 by (unfold Qle, Qplus, inject_Z; cbn [Qnum Qden]; lia).
  assert (0 <= inject_Z k <= 2 ^ 20)%Q as [Hk0 Hk1] by (unfold Qle, inject_Z; simpl; lia).
  assert (inject_Z b <= 2 ^ 20)%Q as Hb20 by (unfold Qle, inject_Z; simpl; lia).
  change (2 ^ 20)%Q with 1048576%Q in *.
  assert (inject_Z k <= q)%Q as Hkq by nra.
  assert (q + (1 # 1048576) <= inject_Z k + 1)%Q as Hqk.
  { destruct (Qlt_le_dec (inject_Z k + 1) (q + (1 # 1048576)))%Q as [Hn|]; [|done]. exfalso. nra. }
  pose proof (round53_near q 2097152) as [Hn1 Hn2]; change (inject_Z 2097152) with 2097152%Q in *; [split; lra|].
  assert (2097152 * (1 # 2 ^ 53) < (1 # 1048576))%Q as Hsmall by (unfold Qlt; simpl; lia).
  apply Z.le_antisymm.
  - apply int_of_float_le; [|lia]. rewrite inject_Z_plus. change (inject_Z 1) with 1%Q. lra.
  - apply int_of_float_ge; [|lia]. destruct (Z.eq_dec r 0) as [Hr|Hr].
    + assert (q == inject_Z k)%Q as Hqi.
      { rewrite Hr in Haq. change (inject_Z 0) with 0%Q in Haq.
        assert (inject_Z b * (q - inject_Z k) == 0)%Q as Hz by lra.
        apply Qmult_integral in Hz as [Hz|Hz]; lra. }
      rewrite (round53_exact q k Hqi) by lia. lra.
    + assert (1 <= inject_Z r)%Q by (unfold Qle, inject_Z; simpl; lia).
      assert (inject_Z k + (1 # 1048576) <= q)%Q; [|lra].
      destruct (Qlt_le_dec q (inject_Z k + (1 # 1048576)))%Q as [Hn|]; [|done]. exfalso. nra.
Qed.
