(* ===== verification/Errors.v ===== *)
(** Go's [error] interface as the sum of the dynamic types that occur in the
    operator, with the error vocabularies of
    [pkg/controller/distributedrediscluster/errors.go] (typed errors that steer
    the reconcile loop) and [pkg/redisutil/errors.go]; the predicates of the
    Kubernetes error package are parameters ([KubeErrors]). *)

From Stdlib Require Import ZArith Lia.
From S2P Require Import Prelude GoStrings.

(** [distributedrediscluster.ErrorType]. *)
Inductive ErrorType := NoType | Requeue | Kubernetes | Redis | Cluster | StopRetry.

#[export] Instance ErrorType_eq_dec : EqDecision ErrorType.
Proof. solve_decision. Defined.
#[export] Instance num_error_eq_dec : EqDecision num_error.
Proof. solve_decision. Defined.

(** Dynamic types of [error] values: messages of [errors.New] and
    [fmt.Errorf]; errors of package [strconv] (function and input);
    [redisutil.Error]; [redisutil.ClusterInfosError]; [customError]; errors
    annotated by [errors.Wrapf] of [github.com/pkg/errors]; aggregates and
    API-server errors of Kubernetes; an error reply of a Redis server; a
    network timeout and another [*net.OpError]. *)
Inductive error : Type :=
| ErrText (msg : string)
| NumError (fn num : string) (e : num_error)
| RedisutilError (msg : string)
| ClusterInfosErr (errs : list (string * error)) (partial inconsistent : bool)
| CustomError (errorType : ErrorType) (originalError : error)
| Wrapped (cause : error) (msg : string)
| Aggregate (errs : list error)
| KubeError (reason msg : string)
| RedisReplyErr (msg : string)
| NetTimeout (msg : string)
| NetOpError (msg : string).

(** ** distributedrediscluster/errors.go *)

(** [errorType.New] *)
Definition ErrorType_New (t : ErrorType) (msg : string) : error := CustomError t (ErrText msg).
(** [errorType.Wrapf] (with the message already formatted) and [errorType.Wrap] *)
Definition ErrorType_Wrapf (t : ErrorType) (err : error) (msg : string) : error :=
  CustomError t (Wrapped err msg).
Definition ErrorType_Wrap (t : ErrorType) (err : error) (msg : string) : error :=
  ErrorType_Wrapf t err msg.

(** [New]: an error without a type. *)
Definition New (msg : string) : error := CustomError NoType (ErrText msg).

(** [Wrapf]: annotates, keeping the type of a [customError]. *)
Definition Wrapf (err : error) (msg : string) : error :=
  let wrappedError := Wrapped err msg in
  match err with
  | CustomError t _ => CustomError t wrappedError
  | _ => CustomError NoType wrappedError
  end.
Definition Wrap (err : error) (msg : string) : error := Wrapf err msg.

(** [GetType] *)
Definition GetType (err : error) : ErrorType :=
  match err with
  | CustomError t _ => t
  | _ => NoType
  end.

(** ** redisutil/errors.go *)

Definition nodeNotFoundedError : error := RedisutilError "node not founded".

(** [err == nodeNotFoundedError], an interface comparison. *)
Definition IsNodeNotFoundedError (err : option error) : bool :=
  match err with
  | Some (RedisutilError m) => bool_decide (m = "node not founded")
  | _ => false
  end.

(** A [ClusterInfosError] value: the errors by address, and the two flags. *)
Record ClusterInfosError := {
  cie_errs : gmap string error;
  cie_partial : bool;
  cie_inconsistent : bool;
}.
#[export] Instance ClusterInfosError_eta : Settable ClusterInfosError :=
  λ e, {| cie_errs := cie_errs e; cie_partial := cie_partial e;
          cie_inconsistent := cie_inconsistent e |}.

Definition NewClusterInfosError : ClusterInfosError :=
  {| cie_errs := ∅; cie_partial := false; cie_inconsistent := false |}.

(** The value as an [error]. *)
Definition ClusterInfosError_error (e : ClusterInfosError) : error :=
  ClusterInfosErr (map_to_list (cie_errs e)) (cie_partial e) (cie_inconsistent e).

Definition IsPartialError (err : error) : bool :=
  match err with
  | ClusterInfosErr _ partial _ => partial
  | _ => false
  end.

Definition IsInconsistentError (err : error) : bool :=
  match err with
  | ClusterInfosErr _ _ inconsistent => inconsistent
  | _ => false
  end.

(** ** Error messages *)

Definition quote (s : string) : string :=
  let q := String (ascii_of_nat 34) "" in q +:+ s +:+ q.

(** [err.Error()].  The aggregate text is that of the Kubernetes package, which
    the operator only logs or stores. *)
Fixpoint Error (err : error) : string :=
  match err with
  | ErrText m => m
  | NumError fn num e =>
      "strconv." +:+ fn +:+ ": parsing " +:+ quote num +:+ ": " +:+
      match e with ErrSyntax => "invalid syntax" | ErrRange => "value out of range" end
  | RedisutilError m => m
  | ClusterInfosErr errs partial inconsistent =>
      if partial then
        "Cluster infos partial: " +:+
        (fix go (l : list (string * error)) : string :=
           match l with
           | [] => ""
           | (addr, e) :: l' => (addr +:+ ": '" +:+ Error e +:+ "'") +:+ go l'
           end) errs
      else if inconsistent then "Cluster view is inconsistent" else ""
  | CustomError _ e => Error e
  | Wrapped e m => m +:+ ": " +:+ Error e
  | Aggregate errs =>
      (fix go (l : list error) : string :=
         match l with
         | [] => ""
         | [e] => Error e
         | e :: l' => Error e +:+ ", " +:+ go l'
         end) errs
  | KubeError _ m => m
  | RedisReplyErr m => m
  | NetTimeout m => m
  | NetOpError m => m
  end.

(** ** The Kubernetes error package

    [IsNotFound] and the four predicates below are functions of
    [k8s.io/apimachinery/pkg/api/errors]; [NewAggregate] is that of
    [k8s.io/apimachinery/pkg/util/errors], documented to give nil for an empty
    list and an error otherwise. *)
Class KubeErrors := {
  IsNotFound : error → bool;
  IsServiceUnavailable : error → bool;
  IsTimeout : error → bool;
  IsServerTimeout : error → bool;
  IsTooManyRequests : error → bool;
  NewAggregate : list error → option error;
  NewAggregate_None : ∀ errs, NewAggregate errs = None ↔ errs = [];
}.

(** [k8sutil.IsRequestRetryable] *)
Definition IsRequestRetryable `{KubeErrors} (err : error) : bool :=
  IsServiceUnavailable err || IsTimeout err || IsServerTimeout err || IsTooManyRequests err.

(** Concrete predicates, by the reason string, to evaluate the model. *)
Definition reason_is (r : string) (err : error) : bool :=
  match err with KubeError r' _ => bool_decide (r' = r) | _ => false end.

Definition kube_errors_default : KubeErrors.
Proof.
  refine {| IsNotFound := reason_is "NotFound";
            IsServiceUnavailable := reason_is "ServiceUnavailable";
            IsTimeout := reason_is "Timeout";
            IsServerTimeout := reason_is "ServerTimeout";
            IsTooManyRequests := reason_is "TooManyRequests";
            NewAggregate errs := match errs with [] => None | _ => Some (Aggregate errs) end |}.
  by intros [].
Defined.

(** ** Lemmas *)

(** Wrapping annotates a message and keeps the type of a typed error. *)
Lemma GetType_Wrapf err msg : GetType (Wrapf err msg) = GetType err.
Proof. by destruct err. Qed.

Lemma GetType_ErrorType_Wrap t err msg : GetType (ErrorType_Wrap t err msg) = t.
Proof. done. Qed.
