(* ===== verification/Slot.v ===== *)
(** [pkg/redisutil/slot.go]: hash slots, slot ranges, and the text forms in
    which [CLUSTER NODES] prints them. *)

From Stdlib Require Import ZArith Lia.
From S2P Require Import Prelude GoStrings Errors.

Local Open Scope Z_scope.

(** [type Slot uint64]: a value of a slot is in [0, 2^64). *)
Abbreviation Slot := Z (only parsing).

Definition slotSeparator : string := "-".
Definition importingSeparator : string := "-<-".
Definition migratingSeparator : string := "->-".

(** [Slot.String] *)
Definition Slot_String (s : Slot) : string := FormatUint s.

(** [DecodeSlot]: the value accompanies the error, as in Go. *)
Definition DecodeSlot (s : string) : Slot * option error :=
  let (slot, err) := ParseUint s in (slot, NumError "ParseUint" s <$> err).

Record SlotRange := mkSlotRange { Min : Slot; Max : Slot }.

(** [SlotRange.String] *)
Definition SlotRange_String (r : SlotRange) : string :=
  Slot_String (Min r) +:+ slotSeparator +:+ Slot_String (Max r).

(** [SlotRange.Total]: a [uint64] computation converted to [int]. *)
Definition SlotRange_Total (r : SlotRange) : Z := s64 (u64 (Max r - Min r + 1)).

Record ImportingSlot := mkImportingSlot { is_SlotID : Slot; FromNodeID : string }.
Record MigratingSlot := mkMigratingSlot { ms_SlotID : Slot; ToNodeID : string }.

Definition ImportingSlot_String (s : ImportingSlot) : string :=
  Slot_String (is_SlotID s) +:+ importingSeparator +:+ FromNodeID s.
Definition MigratingSlot_String (s : MigratingSlot) : string :=
  Slot_String (ms_SlotID s) +:+ migratingSeparator +:+ ToNodeID s.

(** [Contains] *)
Fixpoint Contains (s : list Slot) (e : Slot) : bool :=
  match s with
  | [] => false
  | a :: s' => if decide (a = e) then true else Contains s' e
  end.

(** [BuildSlotSlice]: the loop [for s := min; s <= max; s++], whose counter
    wraps at 2^64; the fuel bounds the number of tests of the condition. *)
Fixpoint BuildSlotSlice_loop (fuel : nat) (s max : Slot) (slots : list Slot) : go (list Slot) :=
  match fuel with
  | O => Diverges
  | S fuel' =>
      if decide (s ≤ max)
      then BuildSlotSlice_loop fuel' (u64 (s + 1)) max (slots ++ [s])
      else Val slots
  end.
Definition BuildSlotSlice (min max : Slot) : go (list Slot) :=
  BuildSlotSlice_loop (S (Z.to_nat (max - min + 1))) min max [].

(** [DecodeSlotRange] *)
Definition DecodeSlotRange (str : string)
    : go (list Slot * option ImportingSlot * option MigratingSlot * option error) :=
  let val := Split str "-" in
  match val with
  | [val0; val1; val2] =>
      let separator := slotSeparator +:+ val1 +:+ slotSeparator in
      match DecodeSlot (TrimPrefix val0 "[") with
      | (_, Some err) => Val ([], None, None, Some err)
      | (slot, None) =>
          if decide (separator = importingSeparator)
          then Val ([], Some (mkImportingSlot slot (TrimSuffix val2 "]")), None, None)
          else if decide (separator = migratingSeparator)
          then Val ([], None, Some (mkMigratingSlot slot (TrimSuffix val2 "]")), None)
          else Val ([], None, None, Some (ErrText ("impossible to decode slot " +:+ str)))
      end
  | val0 :: rest =>
      match DecodeSlot val0 with
      | (_, Some err) => Val ([], None, None, Some err)
      | (min, None) =>
          match rest with
          | [] =>
              let! slots := BuildSlotSlice min min in Val (slots, None, None, None)
          | val1 :: _ =>
              match DecodeSlot val1 with
              | (_, Some err) => Val ([], None, None, Some err)
              | (max, None) =>
                  let! slots := BuildSlotSlice min max in Val (slots, None, None, None)
              end
          end
      end
  | [] => Val ([], None, None, Some (ErrText ("impossible to decode slot '" +:+ str +:+ "'")))
  end.

(** The loop of [SlotRangesFromSlots] over the sorted slots; [cur] is [None]
    while [first] is true, then the pair of [min] and [max]. *)
Fixpoint SlotRangesFromSlots_loop (cur : option (Slot * Slot)) (ranges : list SlotRange)
    (slots : list Slot) : list SlotRange :=
  match slots with
  | [] =>
      match cur with
      | None => ranges
      | Some (min, max) => ranges ++ [mkSlotRange min max]
      end
  | slot :: slots' =>
      match cur with
      | None => SlotRangesFromSlots_loop (Some (slot, slot)) ranges slots'
      | Some (min, max) =>
          if decide (u64 (max + 1) < slot)
          then SlotRangesFromSlots_loop (Some (slot, slot)) (ranges ++ [mkSlotRange min max]) slots'
          else SlotRangesFromSlots_loop (Some (min, slot)) ranges slots'
      end
  end.

Section sorted.
Context `{SortPkg}.

(** [sort.Sort(SlotSlice(slots))] *)
Definition sort_slots (slots : list Slot) : list Slot := sort_by Z.ltb slots.

(** [SlotRangesFromSlots]: sorts its argument in place, so the caller's slice
    afterwards is returned with the ranges. *)
Definition SlotRangesFromSlots (slots : list Slot) : list Slot * list SlotRange :=
  let slots := sort_slots slots in
  (slots, SlotRangesFromSlots_loop None [] slots).

(** [SlotSlice.String]: the slice afterwards, and the text. *)
Definition SlotSlice_String (s : list Slot) : list Slot * string :=
  let (s, ranges) := SlotRangesFromSlots s in
  (s, "[" +:+ Join (SlotRange_String <$> ranges) " " +:+ "]").
End sorted.

(** [RemoveSlots]: the index loop with its in-place deletion
    [append(slots[:i], slots[i+1:]...)] followed by [i--]. *)
Fixpoint RemoveSlots_loop (fuel : nat) (i : nat) (slots removedSlots : list Slot) : list Slot :=
  match fuel with
  | O => slots
  | S fuel' =>
      match slots !! i with
      | None => slots
      | Some s =>
          if existsb (λ r, bool_decide (s = r)) removedSlots
          then RemoveSlots_loop fuel' i (take i slots ++ drop (S i) slots) removedSlots
          else RemoveSlots_loop fuel' (S i) slots removedSlots
      end
  end.
Definition RemoveSlots (slots removedSlots : list Slot) : list Slot :=
  RemoveSlots_loop (length slots) 0 slots removedSlots.

(** [RemoveSlot]: the same loop, stopped at the first match. *)
Fixpoint RemoveSlot_loop (fuel : nat) (i : nat) (slots : list Slot) (removedSlot : Slot) : list Slot :=
  match fuel with
  | O => slots
  | S fuel' =>
      match slots !! i with
      | None => slots
      | Some s =>
          if decide (s = removedSlot) then take i slots ++ drop (S i) slots
          else RemoveSlot_loop fuel' (S i) slots removedSlot
      end
  end.
Definition RemoveSlot (slots : list Slot) (removedSlot : Slot) : list Slot :=
  RemoveSlot_loop (length slots) 0 slots removedSlot.

(** [AddSlots] *)
Fixpoint AddSlots (slots addedSlots : list Slot) : list Slot :=
  match addedSlots with
  | [] => slots
  | s :: addedSlots' =>
      AddSlots (if Contains slots s then slots else slots ++ [s]) addedSlots'
  end.

(** ** Lemmas *)

Lemma DecodeSlot_String s : 0 ≤ s ≤ max_uint64 → DecodeSlot (Slot_String s) = (s, None).
Proof. intros. unfold DecodeSlot, Slot_String. by rewrite ParseUint_FormatUint. Qed.

Lemma has_dash_Slot_String s : 0 ≤ s → has_byte "-" (Slot_String s) = false.
Proof. intros. by apply has_byte_FormatUint. Qed.

Lemma Contains_spec s e : Contains s e = true ↔ e ∈ s.
Proof.
  induction s as [|a s IH]; cbn [Contains].
  - rewrite elem_of_nil. naive_solver.
  - rewrite elem_of_cons. case_decide; naive_solver.
Qed.

Lemma Contains_false s e : Contains s e = false ↔ e ∉ s.
Proof. rewrite <- Contains_spec. by destruct (Contains s e). Qed.

Lemma BuildSlotSlice_loop_spec fuel s max slots :
  0 ≤ s → max < max_uint64 → Z.max 0 (max - s + 1) < Z.of_nat fuel →
  BuildSlotSlice_loop fuel s max slots = Val (slots ++ seqZ s (max - s + 1)).
Proof.
  revert s slots. induction fuel as [|fuel IH]; intros s slots Hs Hmax Hfuel;
    cbn [BuildSlotSlice_loop]; [lia|]. case_decide.
  - rewrite u64_small by (unfold max_uint64 in *; lia).
    rewrite IH by lia. rewrite <- (assoc_L (++)). do 2 f_equal.
    rewrite (seqZ_cons s) by lia. simpl. f_equal. f_equal; lia.
  - rewrite seqZ_nil by lia. by rewrite app_nil_r.
Qed.

Lemma BuildSlotSlice_seqZ min max :
  0 ≤ min → max < max_uint64 → BuildSlotSlice min max = Val (seqZ min (max - min + 1)).
Proof. intros. apply BuildSlotSlice_loop_spec; lia. Qed.

Lemma BuildSlotSlice_loop_diverges fuel s slots :
  BuildSlotSlice_loop fuel s max_uint64 slots = Diverges ∨ max_uint64 < s.
Proof.
  revert s slots. induction fuel as [|fuel IH]; intros s slots; cbn [BuildSlotSlice_loop]; [by left|].
  case_decide; [|right; lia].
  destruct (IH (u64 (s + 1)) (slots ++ [s])) as [|Hlt]; [by left|].
  pose proof (u64_range (s + 1)). lia.
Qed.

(** *** SlotRangesFromSlots *)

(** The slots a range stands for. *)
Definition expand (r : SlotRange) : list Slot := seqZ (Min r) (Max r - Min r + 1).

Lemma elem_of_expand s r : s ∈ expand r ↔ Min r ≤ s ≤ Max r.
Proof. unfold expand. rewrite elem_of_seqZ. lia. Qed.

(** Ranges in increasing order with a gap between any two: the coarsest way to
    cut a set of slots into ranges. *)
Definition separated : list SlotRange → Prop :=
  StronglySorted (λ r1 r2, Max r1 + 1 < Min r2).

Lemma strict_weak_Zltb : strict_weak Z.ltb.
Proof.
  split_and!.
  - intros x. apply Z.ltb_irrefl.
  - intros x y z. rewrite !Z.ltb_lt. lia.
  - intros x y z. rewrite !Z.ltb_ge. lia.
Qed.

Lemma sort_slots_Permutation `{SortPkg} slots : sort_slots slots ≡ₚ slots.
Proof. apply sort_by_Permutation. Qed.

Lemma sort_slots_Sorted `{SortPkg} slots : StronglySorted Z.le (sort_slots slots).
Proof.
  eapply StronglySorted_weaken; [|apply sort_by_Sorted, strict_weak_Zltb].
  intros x y. by rewrite Z.ltb_ge.
Qed.

Lemma SlotRangesFromSlots_loop_spec min max ranges slots :
  0 ≤ min ≤ max → StronglySorted Z.le (max :: slots) →
  Forall (λ s, s < max_uint64) (max :: slots) →
  ∃ rs, SlotRangesFromSlots_loop (Some (min, max)) ranges slots = ranges ++ rs ∧
    separated rs ∧ Forall (λ r, min ≤ Min r ≤ Max r) rs ∧
    ∀ s, (∃ r, r ∈ rs ∧ Min r ≤ s ≤ Max r) ↔ min ≤ s ≤ max ∨ s ∈ slots.
Proof.
  revert min max ranges. induction slots as [|slot slots IH];
    intros min max ranges Hmin Hsort Hlt; cbn [SlotRangesFromSlots_loop].
  - exists [mkSlotRange min max]. split_and!; [done|repeat constructor| |].
    + repeat constructor; simpl; lia.
    + intros s. setoid_rewrite list_elem_of_singleton. rewrite elem_of_nil. naive_solver.
  - inversion_clear Hsort as [|?? Hsort' Hle]. inversion_clear Hlt as [|?? Hm Hlt'].
    assert (max ≤ slot) as Hslot by by inversion Hle.
    assert (slot < max_uint64) as Hs by by inversion Hlt'.
    rewrite u64_small by lia. case_decide.
    + destruct (IH slot slot (ranges ++ [mkSlotRange min max])) as (rs & -> & Hsep & Hall & Hin);
        [lia|done..|].
      exists (mkSlotRange min max :: rs). rewrite <- (assoc_L (++)). split_and!; [done| | |].
      * constructor; [done|]. eapply Forall_impl; [exact Hall|]. simpl. lia.
      * constructor; [simpl; lia|]. eapply Forall_impl; [exact Hall|]. simpl. lia.
      * intros s. specialize (Hin s). rewrite elem_of_cons. split.
        -- intros (r & Hr & ?). apply elem_of_cons in Hr as [->|Hr]; [left; simpl in *; lia|].
           right. destruct (proj1 Hin) as [?|?]; [by exists r|left; lia|by right].
        -- intros [?|Hel].
           { exists (mkSlotRange min max). split; [by left|done]. }
           destruct (proj2 Hin) as (r & ? & ?); [destruct Hel as [->|]; [left; lia|by right]|].
           exists r. split; [by right|done].
    + destruct (IH min slot ranges) as (rs & -> & Hsep & Hall & Hin); [lia|done..|].
      exists rs. split_and!; [done..|]. intros s. rewrite Hin, elem_of_cons.
      split; [|naive_solver lia].
      intros [?|?]; [|by auto]. destruct (decide (s ≤ max)); [by left; lia|right; left; lia].
Qed.

Section ranges.
Context `{SortPkg}.

(** For slots below 2^64-1, [SlotRangesFromSlots] leaves the caller's
    slice sorted and returns non-empty ranges, in increasing order and with a
    gap of at least one slot between any two, that cover exactly the slots
    given. *)
Lemma SlotRangesFromSlots_canonical slots :
  Forall (λ s, 0 ≤ s < max_uint64) slots →
  let (sorted, ranges) := SlotRangesFromSlots slots in
  sorted ≡ₚ slots ∧ StronglySorted Z.le sorted ∧
  Forall (λ r, Min r ≤ Max r) ranges ∧ separated ranges ∧
  ∀ s, (∃ r, r ∈ ranges ∧ Min r ≤ s ≤ Max r) ↔ s ∈ slots.
Proof.
  intros Hb. unfold SlotRangesFromSlots. cbv zeta.
  pose proof (sort_slots_Permutation slots) as Hperm.
  pose proof (sort_slots_Sorted slots) as Hsort.
  split; [done|]. split; [done|].
  assert (∀ s, s ∈ slots ↔ s ∈ sort_slots slots) as Hel by (intros; by rewrite Hperm).
  setoid_rewrite Hel. rewrite <- Hperm in Hb. clear Hel Hperm.
  destruct (sort_slots slots) as [|s0 l]; cbn [SlotRangesFromSlots_loop].
  { split_and!; [constructor..|]. intros s. rewrite elem_of_nil.
    split; [|done]. intros (r & Hr & _). by rewrite elem_of_nil in Hr. }
  destruct (SlotRangesFromSlots_loop_spec s0 s0 [] l) as (rs & -> & Hsep & Hall & Hin).
  - inversion Hb. lia.
  - done.
  - eapply Forall_impl; [exact Hb|]. simpl. lia.
  - split_and!; [|done|].
    + eapply Forall_impl; [exact Hall|]. simpl. lia.
    + intros s. rewrite app_nil_l, Hin, elem_of_cons. naive_solver lia.
Qed.
End ranges.

(** *** Removing and adding slots *)

Lemma RemoveSlots_loop_spec fuel i slots removed :
  (length slots - i ≤ fuel)%nat →
  RemoveSlots_loop fuel i slots removed =
    take i slots ++ filter (λ s, s ∉ removed) (drop i slots).
Proof.
  assert (∀ s, existsb (λ r, bool_decide (s = r)) removed = true ↔ s ∈ removed) as Hex.
  { intros s. rewrite existsb_exists. setoid_rewrite bool_decide_eq_true.
    setoid_rewrite <- list_elem_of_In. naive_solver. }
  revert i slots. induction fuel as [|fuel IH]; intros i slots Hfuel; cbn [RemoveSlots_loop].
  { rewrite take_ge, drop_ge by lia. by rewrite app_nil_r. }
  destruct (slots !! i) as [s|] eqn:Hi.
  2: { apply lookup_ge_None in Hi. rewrite take_ge, drop_ge by lia. by rewrite app_nil_r. }
  pose proof (lookup_lt_Some _ _ _ Hi) as Hlt.
  rewrite (drop_S _ _ _ Hi), filter_cons.
  assert (length (take i slots) = i) as Hlen by (rewrite length_take; lia).
  destruct (existsb _ _) eqn:E.
  - rewrite decide_False by (intros []; by apply Hex).
    rewrite IH by (rewrite length_app, Hlen, length_drop; lia).
    rewrite take_app_le, drop_app_ge by lia. rewrite take_take, Nat.min_id.
    by rewrite Hlen, Nat.sub_diag.
  - rewrite decide_True by (rewrite <- Hex; by destruct (existsb _ _)).
    rewrite IH by lia. rewrite (take_S_r _ _ _ Hi). by rewrite <- (assoc_L (++)).
Qed.

Lemma RemoveSlot_loop_spec fuel i slots removed :
  (length slots - i ≤ fuel)%nat → removed ∉ take i slots →
  (removed ∉ slots ∧ RemoveSlot_loop fuel i slots removed = slots) ∨
  ∃ l1 l2, slots = l1 ++ removed :: l2 ∧ removed ∉ l1 ∧
           RemoveSlot_loop fuel i slots removed = l1 ++ l2.
Proof.
  revert i. induction fuel as [|fuel IH]; intros i Hfuel Hnot; cbn [RemoveSlot_loop].
  { left. by rewrite take_ge in Hnot by lia. }
  destruct (slots !! i) as [s|] eqn:Hi.
  2: { left. apply lookup_ge_None in Hi. by rewrite take_ge in Hnot by lia. }
  case_decide as Heq.
  - right. exists (take i slots), (drop (S i) slots). subst s. split_and!; [|done..].
    by rewrite <- (drop_S _ _ _ Hi), take_drop.
  - apply IH; [lia|]. rewrite (take_S_r _ _ _ Hi), elem_of_app, list_elem_of_singleton. naive_solver.
Qed.

(** [RemoveSlots] returns the slots that are not to be removed, in their
    order, for every input: duplicates in either argument are handled too. *)
Lemma RemoveSlots_filter slots removedSlots :
  RemoveSlots slots removedSlots = filter (λ s, s ∉ removedSlots) slots.
Proof. unfold RemoveSlots. by rewrite RemoveSlots_loop_spec by lia. Qed.

Lemma RemoveSlots_nil slots : RemoveSlots slots [] = slots.
Proof.
  rewrite RemoveSlots_filter. induction slots as [|s slots IH]; [done|].
  rewrite filter_cons, decide_True, IH by apply not_elem_of_nil. done.
Qed.

(** [RemoveSlot] deletes the first occurrence of the slot, if any. *)
Lemma RemoveSlot_spec slots removed :
  (removed ∉ slots ∧ RemoveSlot slots removed = slots) ∨
  ∃ l1 l2, slots = l1 ++ removed :: l2 ∧ removed ∉ l1 ∧ RemoveSlot slots removed = l1 ++ l2.
Proof. apply RemoveSlot_loop_spec; [lia|]. rewrite take_0. set_solver. Qed.

Lemma AddSlots_extra slots added :
  ∃ extra, AddSlots slots added = slots ++ extra ∧ NoDup extra ∧
    ∀ s, s ∈ extra ↔ s ∈ added ∧ s ∉ slots.
Proof.
  revert slots. induction added as [|a added IH]; intros slots; cbn [AddSlots].
  { exists []. rewrite app_nil_r. split_and!; [done|constructor|set_solver]. }
  destruct (Contains slots a) eqn:E.
  - apply Contains_spec in E. destruct (IH slots) as (extra & -> & Hnd & Hin).
    exists extra. split_and!; [done..|]. intros s. rewrite Hin. set_solver.
  - apply Contains_false in E. destruct (IH (slots ++ [a])) as (extra & -> & Hnd & Hin).
    exists (a :: extra). rewrite <- (assoc_L (++)). split_and!; [done| |].
    + constructor; [rewrite Hin; set_solver|done].
    + intros s. rewrite elem_of_cons, Hin. destruct (decide (s = a)); set_solver.
Qed.

Lemma elem_of_AddSlots s slots added : s ∈ AddSlots slots added ↔ s ∈ slots ∨ s ∈ added.
Proof.
  destruct (AddSlots_extra slots added) as (extra & -> & _ & Hin).
  rewrite elem_of_app, Hin. destruct (decide (s ∈ slots)); naive_solver.
Qed.

(** The slot-list operations the migrations rely on, for all inputs, with
    duplicates or not.  [RemoveSlots] returns the slots that are not to be
    removed, in their order; [RemoveSlot] deletes the first occurrence of the
    slot, if there is one; [AddSlots] keeps the given slots as a prefix and
    appends exactly the added slots that were missing, each once. *)
Theorem slot_list_operations slots others (s : Slot) :
  RemoveSlots slots others = filter (λ s, s ∉ others) slots ∧
  ((s ∉ slots ∧ RemoveSlot slots s = slots) ∨
   ∃ l1 l2, slots = l1 ++ s :: l2 ∧ s ∉ l1 ∧ RemoveSlot slots s = l1 ++ l2) ∧
  ∃ extra, AddSlots slots others = slots ++ extra ∧ NoDup extra ∧
    ∀ s, s ∈ extra ↔ s ∈ others ∧ s ∉ slots.
Proof.
  split; [apply RemoveSlots_filter|]. split; [apply RemoveSlot_spec|apply AddSlots_extra].
Qed.

(** *** Text forms *)

Lemma Split_range a b :
  0 ≤ a → Split (Slot_String a +:+ slotSeparator +:+ b) "-" = Slot_String a :: Split b "-".
Proof.
  intros. change (slotSeparator +:+ b) with (String "-" b).
  apply Split_app. by apply has_dash_Slot_String.
Qed.

Lemma DecodeSlotRange_range min max :
  0 ≤ min → 0 ≤ max < max_uint64 → min ≤ max_uint64 →
  DecodeSlotRange (SlotRange_String (mkSlotRange min max)) =
    Val (seqZ min (max - min + 1), None, None, None).
Proof.
  intros Hmin Hmax ?. unfold DecodeSlotRange, SlotRange_String. simpl Min. simpl Max.
  rewrite Split_range by lia. rewrite Split_none by (apply has_dash_Slot_String; lia).
  rewrite !DecodeSlot_String by lia. cbv iota. rewrite BuildSlotSlice_seqZ by lia. done.
Qed.

Lemma DecodeSlotRange_single s :
  0 ≤ s < max_uint64 → DecodeSlotRange (Slot_String s) = Val ([s], None, None, None).
Proof.
  intros Hs. unfold DecodeSlotRange.
  rewrite Split_none by (apply has_dash_Slot_String; lia).
  rewrite DecodeSlot_String by lia. rewrite BuildSlotSlice_seqZ by lia.
  replace (s - s + 1) with 1 by lia. done.
Qed.

Lemma slotSeparator_app s : slotSeparator +:+ s = String "-" s.
Proof. done. Qed.

Lemma Split_arrow s mid id :
  0 ≤ s → has_byte "-" mid = false → has_byte "-" id = false →
  Split ("[" +:+ (Slot_String s +:+ (slotSeparator +:+ mid +:+ slotSeparator) +:+ id) +:+ "]") "-" =
    ["[" +:+ Slot_String s; mid; id +:+ "]"].
Proof.
  intros Hs Hmid Hid. rewrite !string_app_assoc.
  rewrite !slotSeparator_app, <- string_app_assoc, Split_app.
  2: { rewrite has_byte_app, has_dash_Slot_String by done. done. }
  rewrite Split_app by done. rewrite Split_none; [done|].
  by rewrite has_byte_app, Hid.
Qed.

Lemma DecodeSlotRange_importing s id :
  0 ≤ s < max_uint64 → has_byte "-" id = false →
  DecodeSlotRange ("[" +:+ ImportingSlot_String (mkImportingSlot s id) +:+ "]") =
    Val ([], Some (mkImportingSlot s id), None, None).
Proof.
  intros Hs Hid. unfold ImportingSlot_String. cbn [is_SlotID FromNodeID].
  change importingSeparator with (slotSeparator +:+ "<" +:+ slotSeparator).
  unfold DecodeSlotRange. rewrite !Split_arrow by (done || lia).
  rewrite !TrimPrefix_app, !TrimSuffix_app, DecodeSlot_String by lia. done.
Qed.

Lemma DecodeSlotRange_migrating s id :
  0 ≤ s < max_uint64 → has_byte "-" id = false →
  DecodeSlotRange ("[" +:+ MigratingSlot_String (mkMigratingSlot s id) +:+ "]") =
    Val ([], None, Some (mkMigratingSlot s id), None).
Proof.
  intros Hs Hid. unfold MigratingSlot_String. cbn [ms_SlotID ToNodeID].
  change migratingSeparator with (slotSeparator +:+ ">" +:+ slotSeparator).
  unfold DecodeSlotRange. rewrite !Split_arrow by (done || lia).
  rewrite !TrimPrefix_app, !TrimSuffix_app, DecodeSlot_String by lia. done.
Qed.

(** C35: every text form a slot entry can have in [CLUSTER NODES] decodes to what
    was printed: a single slot, a range, an importing slot and a migrating slot
    (whose node ID, a hexadecimal name, has no dash). *)
Theorem DecodeSlotRange_roundtrip min max s id :
  0 ≤ min ≤ max → max < max_uint64 → 0 ≤ s < max_uint64 → has_byte "-" id = false →
  DecodeSlotRange (Slot_String s) = Val ([s], None, None, None) ∧
  DecodeSlotRange (SlotRange_String (mkSlotRange min max)) =
    Val (seqZ min (max - min + 1), None, None, None) ∧
  DecodeSlotRange ("[" +:+ ImportingSlot_String (mkImportingSlot s id) +:+ "]") =
    Val ([], Some (mkImportingSlot s id), None, None) ∧
  DecodeSlotRange ("[" +:+ MigratingSlot_String (mkMigratingSlot s id) +:+ "]") =
    Val ([], None, Some (mkMigratingSlot s id), None).
Proof.
  intros Hmin Hmax Hs Hid.
  split_and!.
  - by apply DecodeSlotRange_single.
  - apply DecodeSlotRange_range; lia.
  - by apply DecodeSlotRange_importing.
  - by apply DecodeSlotRange_migrating.
Qed.

Lemma StronglySorted_seqZ m n : StronglySorted Z.lt (seqZ m n).
Proof.
  unfold seqZ. generalize 0%nat as k. induction (Z.to_nat n) as [|len IH]; intros k; simpl;
    constructor; [apply IH|].
  apply Forall_forall. intros x. rewrite list_elem_of_fmap. intros (y & -> & Hy).
  apply elem_of_seq in Hy. lia.
Qed.

Lemma StronglySorted_concat_expand ranges :
  Forall (λ r, Min r ≤ Max r) ranges → separated ranges →
  StronglySorted Z.lt (concat (expand <$> ranges)).
Proof.
  intros Hle. induction 1 as [|r ranges Hsep IH Hall]; [constructor|].
  inversion_clear Hle as [|?? Hr Hle']. simpl. apply StronglySorted_app. split_and!.
  - intros x y Hx Hy. apply elem_of_expand in Hx.
    apply elem_of_concat in Hy as (l & Hy & Hl).
    apply list_elem_of_fmap in Hl as (r' & -> & Hr').
    apply elem_of_expand in Hy. rewrite Forall_forall in Hall. specialize (Hall _ Hr'). simpl in Hall. lia.
  - apply StronglySorted_seqZ.
  - by apply IH.
Qed.

(** Printing the ranges of a set of slots and decoding every printed range
    gives the slots back, sorted: nothing is lost or invented between the slots
    of a node and the strings stored in the status of the resource. *)
Theorem SlotRanges_print_decode `{SortPkg} slots :
  NoDup slots → Forall (λ s, 0 ≤ s < max_uint64) slots →
  let (sorted, ranges) := SlotRangesFromSlots slots in
  ∃ decoded,
    Forall2 (λ r d, DecodeSlotRange (SlotRange_String r) = Val (d, None, None, None)) ranges decoded ∧
    concat decoded = sorted ∧ sorted ≡ₚ slots.
Proof.
  intros Hnd Hb. pose proof (SlotRangesFromSlots_canonical slots Hb) as Hcan.
  destruct (SlotRangesFromSlots slots) as [sorted ranges].
  destruct Hcan as (Hperm & Hsort & Hle & Hsep & Hin).
  exists (expand <$> ranges). split_and!; [| |done].
  - apply Forall2_fmap_r, Forall_Forall2_diag. apply Forall_forall. intros r Hr.
    rewrite Forall_forall in Hle. specialize (Hle _ Hr).
    rewrite Forall_forall in Hb.
    assert (Min r ∈ slots ∧ Max r ∈ slots) as [Hs1 Hs2].
    { split; apply Hin; exists r; simpl in *; (split; [done|lia]). }
    apply Hb in Hs1, Hs2. destruct r as [mn mx]. simpl in *. apply DecodeSlotRange_range; lia.
  - pose proof (StronglySorted_concat_expand _ Hle Hsep) as Hlt.
    apply (StronglySorted_unique Z.le).
    + eapply StronglySorted_weaken; [|exact Hlt]. lia.
    + done.
    + apply NoDup_Permutation.
      * clear -Hlt. induction Hlt as [|x l ? IH Hall]; constructor; [|done].
        intros Hx. rewrite Forall_forall in Hall. specialize (Hall _ Hx). lia.
      * by rewrite Hperm.
      * intros s. rewrite Hperm, <- Hin, elem_of_concat. split.
        -- intros (l & Hs & Hl). apply list_elem_of_fmap in Hl as (r & -> & Hr).
           apply elem_of_expand in Hs. by exists r.
        -- intros (r & Hr & Hs). exists (expand r).
           split; [by apply elem_of_expand|]. apply list_elem_of_fmap. by exists r.
Qed.

(** C39: [BuildSlotSlice min max] returns the slots from [min] to [max] in order
    for every [max] below 2^64-1; for [max = 2^64-1] the loop never ends, with
    any amount of fuel, as its counter wraps around to 0. *)
Theorem BuildSlotSlice_total min max :
  0 ≤ min ≤ max_uint64 →
  (max < max_uint64 → BuildSlotSlice min max = Val (seqZ min (max - min + 1))) ∧
  (∀ fuel, BuildSlotSlice_loop fuel min max_uint64 [] = Diverges).
Proof.
  intros Hmin. split; [intros; apply BuildSlotSlice_seqZ; lia|].
  intros fuel. destruct (BuildSlotSlice_loop_diverges fuel min []); [done|lia].
Qed.

(** ** Witnesses *)

Lemma DecodeSlotRange_roundtrip_witness :
  DecodeSlotRange (Slot_String 7) = Val ([7], None, None, None) ∧
  DecodeSlotRange "0-3" = Val ([0; 1; 2; 3], None, None, None) ∧
  DecodeSlotRange "[7-<-a1]" = Val ([], Some (mkImportingSlot 7 "a1"), None, None) ∧
  DecodeSlotRange "[7->-a1]" = Val ([], None, Some (mkMigratingSlot 7 "a1"), None).
Proof. by apply (DecodeSlotRange_roundtrip 0 3 7 "a1"). Defined.

Lemma SlotRanges_print_decode_witness :
  let (sorted, ranges) := @SlotRangesFromSlots sort_default [2; 9; 1; 0] in
  ∃ decoded,
    Forall2 (λ r d, DecodeSlotRange (SlotRange_String r) = Val (d, None, None, None)) ranges decoded ∧
    concat decoded = sorted ∧ sorted ≡ₚ [2; 9; 1; 0].
Proof.
  apply (@SlotRanges_print_decode sort_default [2; 9; 1; 0]); [by apply (bool_decide_unpack (NoDup [2; 9; 1; 0]))|].
  repeat constructor; done.
Defined.

Lemma BuildSlotSlice_total_witness :
  (5 < max_uint64 → BuildSlotSlice 3 5 = Val (seqZ 3 3)) ∧
  (∀ fuel, BuildSlotSlice_loop fuel 3 max_uint64 [] = Diverges).
Proof. by apply (BuildSlotSlice_total 3 5). Defined.
