(* ===== verification/Node.v ===== *)
(** [pkg/redisutil/node.go] and [pkg/redisutil/cluster.go]: the record of a
    Redis node, its roles and flags, lists of nodes, and the cluster object that
    indexes them.

    A [*Node] is a pointer: the clustering code mutates nodes that several
    slices and maps share.  [ptr] is an address, [heap] the store; a pointer held
    by the program is always valid, so a read is the total lookup [h !!! p].
    Functions on [Nodes] that only apply a predicate to the elements are
    polymorphic, and are used on pointers and on node values. *)

From Stdlib Require Import ZArith Lia.
From S2P Require Import Prelude GoStrings Errors Slot.

Local Open Scope Z_scope.

Definition DefaultRedisPort : string := "6379".
Definition RedisMasterRole : string := "master".
Definition RedisSlaveRole : string := "slave".
Definition RedisLinkStateConnected : string := "connected".
Definition RedisLinkStateDisconnected : string := "disconnected".
Definition NodeStatusPFail : string := "fail?".
Definition NodeStatusFail : string := "fail".
Definition NodeStatusHandshake : string := "handshake".
Definition NodeStatusNoAddr : string := "noaddr".
Definition NodeStatusNoFlags : string := "noflags".

(** [v1alpha1.RedisRole], a string type, and its three values. *)
Definition RedisClusterNodeRoleMaster : string := "Master".
Definition RedisClusterNodeRoleSlave : string := "Slave".
Definition RedisClusterNodeRoleNone : string := "None".

(** [redisutil.Node].  [ServerStartTime] is [None] for the zero time. *)
Record Node := mkNode {
  ID : string;
  IP : string;
  Port : string;
  Role : string;
  LinkState : string;
  MasterReferent : string;
  FailStatus : list string;
  PingSent : Z;
  PongRecv : Z;
  ConfigEpoch : Z;
  Slots : list Slot;
  balance : Z;
  MigratingSlots : gmap Z string;
  ImportingSlots : gmap Z string;
  ServerStartTime : option Z;
  NodeName : string;
  PodName : string;
  StatefulSet : string;
}.

#[export] Instance Node_eta : Settable Node := λ n,
  mkNode (ID n) (IP n) (Port n) (Role n) (LinkState n) (MasterReferent n) (FailStatus n)
    (PingSent n) (PongRecv n) (ConfigEpoch n) (Slots n) (balance n) (MigratingSlots n)
    (ImportingSlots n) (ServerStartTime n) (NodeName n) (PodName n) (StatefulSet n).

(** [NewDefaultNode] *)
Definition NewDefaultNode : Node :=
  mkNode "" "" DefaultRedisPort "" "" "" [] 0 0 0 [] 0 ∅ ∅ None "" "" "".

#[export] Instance Node_inhabited : Inhabited Node := populate NewDefaultNode.

(** [NewNode]: the pod is given by its name and the name of its node. *)
Definition NewNode (id ip pod_Name pod_Spec_NodeName : string) : Node :=
  NewDefaultNode <| ID := id |> <| IP := ip |> <| PodName := pod_Name |>
    <| NodeName := pod_Spec_NodeName |>.

(** The role scan of [SetRole]: the last role word wins. *)
Fixpoint SetRole_loop (vals : list string) (role : string) : string :=
  match vals with
  | [] => role
  | val :: vals' =>
      SetRole_loop vals'
        (if decide (val = RedisMasterRole) then RedisMasterRole
         else if decide (val = RedisSlaveRole) then RedisSlaveRole
         else role)
  end.

(** [SetRole] *)
Definition SetRole (n : Node) (flags : string) : Node * option error :=
  let n := n <| Role := SetRole_loop (Split flags ",") "" |> in
  (n, if decide (Role n = "") then Some (ErrText "node setRole failed") else None).

(** [GetRole] *)
Definition GetRole (n : Node) : string :=
  if decide (Role n = RedisMasterRole) then RedisClusterNodeRoleMaster
  else if decide (Role n = RedisSlaveRole) then RedisClusterNodeRoleSlave
  else if decide (MasterReferent n ≠ "") then RedisClusterNodeRoleSlave
  else if decide (0 < length (Slots n))%nat then RedisClusterNodeRoleMaster
  else RedisClusterNodeRoleNone.

(** [IPPort] *)
Definition IPPort (n : Node) : string := JoinHostPort (IP n) (Port n).

(** [Balance] and [SetBalance] *)
Definition Balance (n : Node) : Z := balance n.
Definition SetBalance (n : Node) (b : Z) : Node := n <| balance := b |>.

(** [SetLinkStatus] *)
Definition SetLinkStatus (n : Node) (status : string) : Node * option error :=
  let state :=
    if decide (status = RedisLinkStateConnected) then RedisLinkStateConnected
    else if decide (status = RedisLinkStateDisconnected) then RedisLinkStateDisconnected
    else "" in
  let n := n <| LinkState := state |> in
  (n, if decide (LinkState n = "") then Some (ErrText "Node SetLinkStatus failed") else None).

(** The flag loop of [SetFailureStatus]. *)
Fixpoint SetFailureStatus_loop (vals : list string) (acc : list string) : list string :=
  match vals with
  | [] => acc
  | val :: vals' =>
      SetFailureStatus_loop vals'
        (if decide (val = NodeStatusFail) then acc ++ [NodeStatusFail]
         else if decide (val = NodeStatusPFail) then acc ++ [NodeStatusPFail]
         else if decide (val = NodeStatusHandshake) then acc ++ [NodeStatusHandshake]
         else if decide (val = NodeStatusNoAddr) then acc ++ [NodeStatusNoAddr]
         else if decide (val = NodeStatusNoFlags) then acc ++ [NodeStatusNoFlags]
         else acc)
  end.

(** [SetFailureStatus] *)
Definition SetFailureStatus (n : Node) (flags : string) : Node :=
  n <| FailStatus := SetFailureStatus_loop (Split flags ",") [] |>.

(** [SetReferentMaster] *)
Definition SetReferentMaster (n : Node) (ref : string) : Node :=
  let n := n <| MasterReferent := "" |> in
  if decide (ref = "-") then n else n <| MasterReferent := ref |>.

(** [TotalSlots] *)
Definition TotalSlots (n : Node) : Z := Z.of_nat (length (Slots n)).

(** [HasStatus] *)
Definition HasStatus (n : Node) (flag : string) : bool :=
  existsb (λ status, bool_decide (status = flag)) (FailStatus n).

(** [IsMasterWithNoSlot], [IsMasterWithSlot], [IsSlave] *)
Definition IsMasterWithNoSlot (n : Node) : bool :=
  bool_decide (GetRole n = RedisClusterNodeRoleMaster) && (TotalSlots n =? 0).
Definition IsMasterWithSlot (n : Node) : bool :=
  bool_decide (GetRole n = RedisClusterNodeRoleMaster) && (0 <? TotalSlots n).
Definition IsSlave (n : Node) : bool :=
  bool_decide (GetRole n = RedisClusterNodeRoleSlave).

(** ** Nodes *)

(** Addresses and the store of nodes. *)
Abbreviation ptr := positive (only parsing).
Abbreviation heap := (gmap positive Node).
Abbreviation Nodes := (list positive) (only parsing).

(** [p.f = v] through the pointer [p]. *)
Definition heap_upd (f : Node → Node) (p : ptr) (h : heap) : heap := <[p := f (h !!! p)]> h.

Section nodes.
Context {A : Type}.

(** [Nodes.FilterByFunc] *)
Fixpoint FilterByFunc_loop (fn : A → bool) (n newSlice : list A) : list A :=
  match n with
  | [] => newSlice
  | node :: n' => FilterByFunc_loop fn n' (if fn node then newSlice ++ [node] else newSlice)
  end.
Definition FilterByFunc (n : list A) (fn : A → bool) : list A := FilterByFunc_loop fn n [].

(** [Nodes.GetNodesByFunc] *)
Definition GetNodesByFunc (n : list A) (f : A → bool) : list A * option error :=
  let nodes := FilterByFunc_loop f n [] in
  (nodes, if decide (length nodes = 0%nat) then Some nodeNotFoundedError else None).

(** [Nodes.CountByFunc] *)
Fixpoint CountByFunc (n : list A) (fn : A → bool) : Z :=
  match n with
  | [] => 0
  | v :: n' => (if fn v then 1 else 0) + CountByFunc n' fn
  end.

(** [Nodes.GetNodeByID], where [node_id] reads the ID of an element. *)
Fixpoint GetNodeByID (node_id : A → string) (n : list A) (id : string) : option A * option error :=
  match n with
  | [] => (None, Some nodeNotFoundedError)
  | node :: n' => if decide (node_id node = id) then (Some node, None) else GetNodeByID node_id n' id
  end.

(** [Nodes.SortByFunc]: sorts in place, so the result is also the receiver
    afterwards. *)
Definition SortByFunc `{SortPkg} (n : list A) (less : A → A → bool) : list A := sort_by less n.
End nodes.

(** [LessByID], [MoreByID] *)
Definition LessByID (n1 n2 : Node) : bool := string_less (ID n1) (ID n2).
Definition MoreByID (n1 n2 : Node) : bool := string_less (ID n2) (ID n1).

(** [Nodes.SortNodes], by [Nodes.Less]. *)
Definition SortNodes `{SortPkg} (n : list Node) : list Node := sort_by LessByID n.

(** [Node.String], of [time.Time.Format] with the layout of the code; printing the
    slots sorts them, so the node afterwards is returned with the text. *)
Definition Node_String `{SortPkg} (format_time : Z → string) (n : Node) : Node * string :=
  let '(slots, text) := SlotSlice_String (Slots n) in
  let n := n <| Slots := slots |> in
  let fields :=
    "{Redis ID: " +:+ ID n +:+ ", role: " +:+ GetRole n +:+ ", master: " +:+ MasterReferent n +:+
    ", link: " +:+ LinkState n +:+ ", status: [" +:+ Join (FailStatus n) " " +:+ "], addr: " +:+ IPPort n +:+
    ", slots: " +:+ text +:+ ", len(migratingSlots): " +:+ FormatInt (Z.of_nat (size (MigratingSlots n))) +:+
    ", len(importingSlots): " +:+ FormatInt (Z.of_nat (size (ImportingSlots n))) in
  (n, match ServerStartTime n with
      | None => fields +:+ "}"
      | Some t => fields +:+ ", ServerStartTime: " +:+ format_time t +:+ "}"
      end).

(** ** redisutil/cluster.go *)

(** [redisutil.Cluster]; [NbslotsToMigrate] is its [ActionsInfo], a struct with
    this one field. *)
Record RedisCluster := mkRedisCluster {
  rc_Name : string;
  rc_Namespace : string;
  rc_Nodes : gmap string ptr;
  rc_Status : string;
  rc_NodesPlacement : string;
  NbslotsToMigrate : Z;
}.
#[export] Instance RedisCluster_eta : Settable RedisCluster := λ c,
  mkRedisCluster (rc_Name c) (rc_Namespace c) (rc_Nodes c) (rc_Status c)
    (rc_NodesPlacement c) (NbslotsToMigrate c).

(** [NewCluster] *)
Definition NewCluster (name namespace : string) : RedisCluster :=
  mkRedisCluster name namespace ∅ "" "" 0.

(** [Cluster.AddNode] ([Node.Clear] of the replaced node does nothing). *)
Definition AddNode (c : RedisCluster) (h : heap) (node : ptr) : RedisCluster :=
  c <| rc_Nodes := <[ID (h !!! node) := node]> (rc_Nodes c) |>.

(** [Cluster.GetNodeByID] *)
Definition Cluster_GetNodeByID (c : RedisCluster) (id : string) : option ptr * option error :=
  match rc_Nodes c !! id with
  | Some n => (Some n, None)
  | None => (None, Some nodeNotFoundedError)
  end.

Section cluster.
Context `{MapRange}.

(** [Cluster.GetNodeByFunc] *)
Fixpoint GetNodeByFunc_loop (f : ptr → bool) (l : list (string * ptr)) : option ptr * option error :=
  match l with
  | [] => (None, Some nodeNotFoundedError)
  | (_, n) :: l' => if f n then (Some n, None) else GetNodeByFunc_loop f l'
  end.
Definition Cluster_GetNodeByFunc (c : RedisCluster) (f : ptr → bool) : option ptr * option error :=
  GetNodeByFunc_loop f (range 0 (rc_Nodes c)).

(** [Cluster.GetNodeByIP], [Cluster.GetNodeByPodName] *)
Definition Cluster_GetNodeByIP (c : RedisCluster) (h : heap) (ip : string) :=
  Cluster_GetNodeByFunc c (λ node, bool_decide (IP (h !!! node) = ip)).
Definition Cluster_GetNodeByPodName (c : RedisCluster) (h : heap) (name : string) :=
  Cluster_GetNodeByFunc c (λ node, bool_decide (PodName (h !!! node) = name)).

(** [Cluster.GetNodesByFunc] *)
Definition Cluster_GetNodesByFunc (c : RedisCluster) (f : ptr → bool) : list ptr * option error :=
  GetNodesByFunc (range 1 (rc_Nodes c)).*2 f.
End cluster.

(** The cluster [rc] knows each node of [l] under its ID. *)
Definition indexes (rc : RedisCluster) (h : heap) (l : list ptr) : Prop :=
  ∀ p, p ∈ l → rc_Nodes rc !! ID (h !!! p) = Some p.

(** ** Lemmas *)

Lemma heap_upd_eq f p h : heap_upd f p h !!! p = f (h !!! p).
Proof. apply lookup_total_insert_eq. Qed.
Lemma heap_upd_ne f p q h : p ≠ q → heap_upd f p h !!! q = h !!! q.
Proof. apply lookup_total_insert_ne. Qed.
Lemma heap_upd_case f p q h :
  heap_upd f p h !!! q = if decide (p = q) then f (h !!! q) else h !!! q.
Proof. case_decide; [subst; apply heap_upd_eq|by apply heap_upd_ne]. Qed.

Lemma FilterByFunc_loop_filter {A} (fn : A → bool) n acc :
  FilterByFunc_loop fn n acc = acc ++ filter (λ x, fn x = true) n.
Proof.
  revert acc. induction n as [|x n IH]; intros acc; cbn [FilterByFunc_loop];
    [by rewrite app_nil_r|].
  rewrite IH, filter_cons. case_decide as Hx.
  - rewrite Hx. by rewrite <- (assoc_L (++)).
  - by destruct (fn x).
Qed.

Lemma FilterByFunc_filter {A} (n : list A) fn :
  FilterByFunc n fn = filter (λ x, fn x = true) n.
Proof. unfold FilterByFunc. by rewrite FilterByFunc_loop_filter. Qed.

Lemma elem_of_FilterByFunc {A} (n : list A) fn x :
  x ∈ FilterByFunc n fn ↔ fn x = true ∧ x ∈ n.
Proof. by rewrite FilterByFunc_filter, list_elem_of_filter. Qed.

Lemma CountByFunc_filter {A} (n : list A) fn :
  CountByFunc n fn = Z.of_nat (length (filter (λ x, fn x = true) n)).
Proof.
  induction n as [|x n IH]; [done|]. cbn [CountByFunc]. rewrite IH, filter_cons.
  case_decide as Hx; [rewrite Hx; simpl; lia|by destruct (fn x)].
Qed.

Lemma GetNodesByFunc_spec {A} (n : list A) f :
  (GetNodesByFunc n f).1 = filter (λ x, f x = true) n ∧
  ((GetNodesByFunc n f).2 = None ↔ ∃ x, x ∈ n ∧ f x = true).
Proof.
  unfold GetNodesByFunc. rewrite FilterByFunc_loop_filter. simpl. split; [done|].
  destruct (filter _ n) as [|x l] eqn:E; [rewrite decide_True by done|rewrite decide_False by done].
  - split; [done|]. intros (x & Hx & Hf).
    assert (x ∈ filter (λ x, f x = true) n) as Hin by by apply list_elem_of_filter.
    rewrite E in Hin. by apply elem_of_nil in Hin.
  - split; [intros _|done].
    assert (x ∈ filter (λ x, f x = true) n) as Hin by (rewrite E; by left).
    apply list_elem_of_filter in Hin. naive_solver.
Qed.

Lemma GetNodeByID_Some {A} (node_id : A → string) n id x err :
  GetNodeByID node_id n id = (Some x, err) → x ∈ n ∧ node_id x = id ∧ err = None.
Proof.
  induction n as [|y n IH]; simpl; [done|].
  case_decide; intros; simplify_eq; [by split_and!; [left|..]|].
  destruct IH as (? & ? & ?); [done|]. by split_and!; [right|..].
Qed.

Lemma GetNodeByID_None {A} (node_id : A → string) n id err :
  GetNodeByID node_id n id = (None, err) → err = Some nodeNotFoundedError ∧ ∀ x, x ∈ n → node_id x ≠ id.
Proof.
  induction n as [|y n IH]; simpl; intros Heq.
  - simplify_eq. split; [done|]. intros x Hx. by apply elem_of_nil in Hx.
  - case_decide; simplify_eq. destruct (IH Heq) as [? Hn]. split; [done|].
    intros x [->|?]%elem_of_cons; auto.
Qed.

(** With distinct IDs, a node of the list is found by its ID. *)
Lemma GetNodeByID_unique {A} (node_id : A → string) n x :
  NoDup (node_id <$> n) → x ∈ n → GetNodeByID node_id n (node_id x) = (Some x, None).
Proof.
  induction n as [|y n IH]; simpl; intros Hnd Hx; [by apply elem_of_nil in Hx|].
  apply NoDup_cons in Hnd as [Hy Hnd]. apply elem_of_cons in Hx as [->|Hx]; [by rewrite decide_True|].
  rewrite decide_False; [by apply IH|]. intros Heq. apply Hy. rewrite Heq. by apply list_elem_of_fmap_2.
Qed.
