(* ===== verification/ClusterInfo.v ===== *)
(** [pkg/redisutil/clusterinfo.go]: decoding the reply of [CLUSTER NODES] into
    the view of one node ([NodeInfos]: the node itself and its friends), the
    views of all nodes ([ClusterInfos]), and the check that they agree.

    [ComputeStatus] appends to and sorts slices that alias [Friends]; slices of
    friends are therefore modelled with their spare capacity. *)

From Stdlib Require Import ZArith Lia.
From S2P Require Import Prelude GoStrings Errors Slot Node.

Local Open Scope Z_scope.

Definition ClusterInfosUnset : string := "Unset".
Definition ClusterInfosPartial : string := "Partial".
Definition ClusterInfosInconsistent : string := "Inconsistent".
Definition ClusterInfosConsistent : string := "Consistent".

(** A slice of pointers: its elements, and how many more fit in its array. *)
Record slice := mkSlice { elems : list ptr; spare : nat }.

(** How much spare capacity the runtime leaves when [append] moves a full slice
    of [n] elements; not specified by the language. *)
Class Growth := growth : nat → nat.
(** Doubling, as the runtime does for small slices. *)
Definition growth_double : Growth := λ n, pred n.

(** [s = append(s, x)] *)
Definition slice_append `{Growth} (s : slice) (x : ptr) : slice :=
  match spare s with
  | O => mkSlice (elems s ++ [x]) (growth (length (elems s)))
  | S k => mkSlice (elems s ++ [x]) k
  end.

Record NodeInfos := mkNodeInfos { ni_Node : ptr; Friends : slice }.
#[export] Instance NodeInfos_eta : Settable NodeInfos := λ n,
  mkNodeInfos (ni_Node n) (Friends n).

Record ClusterInfos := mkClusterInfos { Infos : gmap string NodeInfos; Status : string }.
#[export] Instance ClusterInfos_eta : Settable ClusterInfos := λ c,
  mkClusterInfos (Infos c) (Status c).

(** [new(Node)]: an address not in use. *)
Definition alloc (n : Node) : M heap ptr := λ h,
  let p := fresh (dom h) in Val (p, <[p := n]> h).

(** [NewNodeInfos] *)
Definition NewNodeInfos : M heap NodeInfos :=
  p ← alloc NewDefaultNode; mret (mkNodeInfos p (mkSlice [] 0)).
(** [NewClusterInfos] *)
Definition NewClusterInfos : ClusterInfos := mkClusterInfos ∅ ClusterInfosUnset.

(** [DecodeNodeStartTime]: [now] is the value of [time.Now()] in seconds. *)
Fixpoint DecodeNodeStartTime_loop (now : Z) (lines : list string) : go (Z * option error) :=
  match lines with
  | [] => Val (now, Some (ErrText
      "error while decoding redis instance uptime in seconds. no data found"))
  | line :: lines' =>
      match Split line ":" with
      | v0 :: rest =>
          if decide (v0 = "uptime_in_seconds") then
            match rest with
            | [] => Panics
            | v1 :: _ =>
                match ParseInt (TrimSpace v1) with
                | (_, Some e) => Val (now, Some (NumError "Atoi" (TrimSpace v1) e))
                | (uptime, None) => Val (now - uptime, None)
                end
            end
          else DecodeNodeStartTime_loop now lines'
      | [] => DecodeNodeStartTime_loop now lines'
      end
  end.
Definition DecodeNodeStartTime (now : Z) (input : string) : go (Z * option error) :=
  DecodeNodeStartTime_loop now (Split input (ascii_of_nat 10)).

(** [splitHostPort] *)
Definition splitHostPort (address : string) : string * string * option error :=
  match LastIndex address ":" with
  | None => ("", "", Some (ErrText ("splitHostPort failed, invalid address " +:+ address)))
  | Some i => (slice_to address i, slice_from address (S i), None)
  end.

(** The slot loop of [DecodeNodeInfos]; a field that does not decode is skipped. *)
Fixpoint decode_slots (n : Node) (fields : list string) : go Node :=
  match fields with
  | [] => Val n
  | slot :: fields' =>
      let! r := DecodeSlotRange slot in
      match r with
      | (s, importing, migrating, None) =>
          let n := n <| Slots := Slots n ++ s |> in
          let n := match importing with
            | Some i => n <| ImportingSlots := <[is_SlotID i := FromNodeID i]> (ImportingSlots n) |>
            | None => n end in
          let n := match migrating with
            | Some m => n <| MigratingSlots := <[ms_SlotID m := ToNodeID m]> (MigratingSlots n) |>
            | None => n end in
          decode_slots n fields'
      | _ => decode_slots n fields'
      end
  end.

(** A numeric field: kept at 0 when it does not parse. *)
Definition decode_int (s : string) : Z :=
  match ParseInt s with
  | (i, None) => i
  | _ => 0
  end.

(** The fields of a line of at least eight values. *)
Definition decode_values (addr : string) (values : list string) : go Node :=
  match values with
  | v0 :: v1 :: v2 :: v3 :: v4 :: v5 :: v6 :: v7 :: fields =>
      let node := NewDefaultNode <| ID := v0 |> in
      let ipPort := Split v1 "@" in
      let node :=
        match splitHostPort (default "" (head ipPort)) with
        | (ip, port, None) =>
            let node := node <| IP := ip |> <| Port := port |> in
            if decide (ip = "") then
              node <| IP := match SplitHostPort addr with Some (host, _) => host | None => "" end |>
            else node
        | _ => node
        end in
      let node := (SetRole node v2).1 in
      let node := SetFailureStatus node v2 in
      let node := SetReferentMaster node v3 in
      let node := node <| PingSent := decode_int v4 |> in
      let node := node <| PongRecv := decode_int v5 |> in
      let node := node <| ConfigEpoch := decode_int v6 |> in
      let node := (SetLinkStatus node v7).1 in
      decode_slots node fields
  | _ => Panics
  end.

Section infos.
Context `{Growth}.

(** The line loop of [DecodeNodeInfos]. *)
Fixpoint DecodeNodeInfos_loop (addr : string) (infos : NodeInfos) (lines : list string) :
    M heap NodeInfos :=
  match lines with
  | [] => mret infos
  | line :: lines' =>
      let values := Split line " " in
      if decide (length values < 8)%nat then DecodeNodeInfos_loop addr infos lines'
      else
        node ← pure (decode_values addr values);
        p ← alloc node;
        if HasPrefix (default "" (values !! 2%nat)) "myself"
        then DecodeNodeInfos_loop addr (infos <| ni_Node := p |>) lines'
        else DecodeNodeInfos_loop addr (infos <| Friends := slice_append (Friends infos) p |>) lines'
  end.

(** [DecodeNodeInfos] *)
Definition DecodeNodeInfos (input addr : string) : M heap NodeInfos :=
  infos ← NewNodeInfos;
  DecodeNodeInfos_loop addr infos (Split input (ascii_of_nat 10)).

Context `{MapRange} `{SortPkg}.

(** [ClusterInfos.GetNodes] *)
Definition GetNodes (c : ClusterInfos) : Nodes := ni_Node <$> (range 10 (Infos c)).*2.

(** [ConfigSignature]: by address, the slots of a master.  The value is the slice
    of the node itself, so it is represented by the node that owns it. *)
Abbreviation ConfigSignature := (gmap string ptr).
Definition signature_slots (h : heap) (c : ConfigSignature) : gmap string (list Slot) :=
  (λ p, Slots (h !!! p)) <$> c.

(** [getConfigSignature] *)
Fixpoint getConfigSignature_loop (h : heap) (signature : ConfigSignature) (nodes : Nodes) : ConfigSignature :=
  match nodes with
  | [] => signature
  | node :: nodes' =>
      getConfigSignature_loop h
        (if decide (Role (h !!! node) = RedisMasterRole)
         then <[IPPort (h !!! node) := node]> signature else signature) nodes'
  end.
Definition getConfigSignature (h : heap) (nodes : Nodes) : ConfigSignature :=
  getConfigSignature_loop h ∅ nodes.

(** [ConfigSignature.String] sorts the slots it prints, in place. *)
Definition ConfigSignature_String_entry (c : ConfigSignature) (s : string) (i : string) : M heap string :=
  match c !! i with
  | None => mret s
  | Some p =>
      slots ← gets (λ h, SlotSlice_String (Slots (h !!! p)));
      modify (heap_upd (λ n, n <| Slots := slots.1 |>) p);;
      mret (s +:+ i +:+ ":" +:+ slots.2 +:+ String (ascii_of_nat 10) "")
  end.
Definition ConfigSignature_String (c : ConfigSignature) : M heap string :=
  let sc := sort_by string_less (range 11 c).*1 in
  s ← for_fold sc "map[" (ConfigSignature_String_entry c);
  mret (s +:+ "]").

(** [append(nodeinfos.Friends, nodeinfos.Node).SortByFunc(LessByID)]: the sorted
    view, and [Friends] afterwards.  With spare capacity the append does not move
    the array, and the sort then permutes the array that [Friends] reads. *)
Definition sorted_view (h : heap) (ni : NodeInfos) : Nodes * slice :=
  let view := SortByFunc (elems (Friends ni) ++ [ni_Node ni]) (λ a b, LessByID (h !!! a) (h !!! b)) in
  (view,
   match spare (Friends ni) with
   | O => Friends ni
   | S k => mkSlice (take (length (elems (Friends ni))) view) (S k)
   end).

(** One round of the loop of [ComputeStatus]: the text of both signatures is built
    for the log. *)
Definition ComputeStatus_step (consolidated : ConfigSignature) (c : ClusterInfos)
    (e : string * NodeInfos) : M heap ClusterInfos :=
  let (addr, nodeinfos) := e in
  view ← gets (λ h, sorted_view h nodeinfos);
  let c := c <| Infos := <[addr := nodeinfos <| Friends := view.2 |>]> (Infos c) |> in
  signature ← gets (λ h, getConfigSignature h view.1);
  ConfigSignature_String signature;;
  equal ← gets (λ h, bool_decide (signature_slots h consolidated = signature_slots h signature));
  if (equal : bool) then mret c
  else
    ConfigSignature_String consolidated;;
    ConfigSignature_String signature;;
    mret (c <| Status := ClusterInfosInconsistent |>).

(** [ClusterInfos.ComputeStatus] *)
Definition ComputeStatus (c : ClusterInfos) : M heap (ClusterInfos * bool) :=
  if decide (Status c ≠ ClusterInfosUnset) then mret (c, false)
  else
    consolidatedSignature ← gets (λ h,
      getConfigSignature h (SortByFunc (GetNodes c) (λ a b, LessByID (h !!! a) (h !!! b))));
    c ← for_fold (range 12 (Infos c)) c (ComputeStatus_step consolidatedSignature);
    if decide (Status c = ClusterInfosUnset)
    then mret (c <| Status := ClusterInfosConsistent |>, true)
    else mret (c, false).
End infos.

(** ** The consistency check *)

(** What a list of nodes says of the masters: at address [a], slots [s]. *)
Definition claims (h : heap) (l : Nodes) (a : string) (s : list Slot) : Prop :=
  ∃ p, p ∈ l ∧ Role (h !!! p) = RedisMasterRole ∧ IPPort (h !!! p) = a ∧ Slots (h !!! p) = s.

(** No two masters of the list have the same address. *)
Definition distinct_masters (h : heap) (l : Nodes) : Prop :=
  ∀ p q, p ∈ l → q ∈ l → Role (h !!! p) = RedisMasterRole → Role (h !!! q) = RedisMasterRole →
    IPPort (h !!! p) = IPPort (h !!! q) → Slots (h !!! p) = Slots (h !!! q).

(** The nodes of a view as one list. *)
Definition view_nodes (ni : NodeInfos) : Nodes := elems (Friends ni) ++ [ni_Node ni].

Definition slots_sorted (h : heap) (l : Nodes) : Prop :=
  ∀ p, p ∈ l → is_Some (h !! p) ∧ StronglySorted Z.le (Slots (h !!! p)).

Lemma getConfigSignature_loop_lookup h signature nodes a p :
  getConfigSignature_loop h signature nodes !! a = Some p →
  signature !! a = Some p ∨ (p ∈ nodes ∧ Role (h !!! p) = RedisMasterRole ∧ IPPort (h !!! p) = a).
Proof.
  revert signature. induction nodes as [|q nodes IH]; intros signature Hp; simpl in Hp; [by left|].
  apply IH in Hp as [Hp|(? & ? & ?)]; [|right; by split_and!; [right|..]].
  case_decide as Hr; [|by left].
  apply lookup_insert_Some in Hp as [[<- <-]|[_ Hp]]; [|by left].
  right. by split_and!; [left|..].
Qed.

Lemma getConfigSignature_loop_mono h signature nodes a :
  is_Some (signature !! a) → is_Some (getConfigSignature_loop h signature nodes !! a).
Proof.
  revert signature. induction nodes as [|q nodes IH]; intros signature Hs; simpl; [done|].
  apply IH. case_decide; [|done]. apply lookup_insert_is_Some. destruct (decide (IPPort (h !!! q) = a)); auto.
Qed.

Lemma getConfigSignature_loop_is_Some h signature nodes p :
  p ∈ nodes → Role (h !!! p) = RedisMasterRole →
  is_Some (getConfigSignature_loop h signature nodes !! IPPort (h !!! p)).
Proof.
  revert signature. induction nodes as [|q nodes IH]; intros signature Hp Hr; simpl;
    [by apply elem_of_nil in Hp|].
  apply elem_of_cons in Hp as [->|Hp]; [|by apply IH].
  apply getConfigSignature_loop_mono. rewrite decide_True by done. by rewrite lookup_insert_eq.
Qed.

(** The signature of a list is what the list claims. *)
Lemma signature_slots_claims h nodes a s :
  distinct_masters h nodes →
  signature_slots h (getConfigSignature h nodes) !! a = Some s ↔ claims h nodes a s.
Proof.
  intros Hd. unfold signature_slots, getConfigSignature. rewrite lookup_fmap_Some. split.
  - intros (p & <- & Hp). apply getConfigSignature_loop_lookup in Hp as [Hp|(? & ? & ?)]; [done|].
    by exists p.
  - intros (p & Hp & Hr & <- & <-).
    destruct (getConfigSignature_loop_is_Some h ∅ nodes p Hp Hr) as [q Hq].
    exists q. split; [|done].
    apply getConfigSignature_loop_lookup in Hq as [Hq|(? & ? & ?)]; [done|]. by apply Hd.
Qed.

Lemma claims_Permutation h l l' a s : l ≡ₚ l' → claims h l a s ↔ claims h l' a s.
Proof. intros Hp. unfold claims. by setoid_rewrite Hp. Qed.

Lemma distinct_masters_Permutation h l l' : l ≡ₚ l' → distinct_masters h l → distinct_masters h l'.
Proof. intros Hp Hd p q Hin1 Hin2. apply Hd; by rewrite Hp. Qed.

Lemma signature_slots_eq h l l' :
  distinct_masters h l → distinct_masters h l' →
  signature_slots h (getConfigSignature h l) = signature_slots h (getConfigSignature h l') ↔
  ∀ a s, claims h l a s ↔ claims h l' a s.
Proof.
  intros Hd Hd'. split.
  - intros Heq a s. rewrite <- !signature_slots_claims by done. by rewrite Heq.
  - intros Heq. apply map_eq. intros a. apply option_eq. intros s.
    by rewrite !signature_slots_claims.
Qed.

Section status.
Context `{Growth} `{MapRange} `{SortPkg}.

(** Sorted slots are left as they are. *)
Lemma SlotSlice_String_sorted slots :
  StronglySorted Z.le slots → (SlotSlice_String slots).1 = slots.
Proof.
  intros Hs. simpl. apply (StronglySorted_unique Z.le); [apply sort_slots_Sorted|done|].
  apply sort_slots_Permutation.
Qed.

Lemma ConfigSignature_String_sorted h nodes :
  slots_sorted h nodes →
  ∃ s, ConfigSignature_String (getConfigSignature h nodes) h = Val (s, h).
Proof.
  intros Hs. unfold ConfigSignature_String.
  assert (∀ l acc, ∃ s, for_fold l acc (ConfigSignature_String_entry (getConfigSignature h nodes)) h
            = Val (s, h)) as Hfold.
  { induction l as [|i l IH]; intros acc; [by eexists|]. cbn [for_fold].
    unfold mbind, M_bind at 1. unfold ConfigSignature_String_entry at 1.
    destruct (getConfigSignature h nodes !! i) as [p|] eqn:E; [|apply IH].
    apply getConfigSignature_loop_lookup in E as [E|(Hp & _)]; [done|].
    destruct (Hs p Hp) as [[n Hn] Hsort].
    assert (heap_upd (λ n0, n0 <| Slots := (SlotSlice_String (Slots (h !!! p))).1 |>) p h = h) as Hid.
    { rewrite SlotSlice_String_sorted by done. unfold heap_upd.
      rewrite (lookup_total_correct _ _ _ Hn). apply insert_id. rewrite Hn. by destruct n. }
    unfold mbind, M_bind, gets, modify. cbn [go_bind fst snd]. rewrite Hid. apply IH. }
  destruct (Hfold (sort_by string_less (range 11 (getConfigSignature h nodes)).*1) "map[") as [s Hl].
  unfold mbind, M_bind. rewrite Hl. by eexists.
Qed.

Lemma ComputeStatus_step_spec h consolidated nodes c addr ni :
  consolidated = getConfigSignature h nodes →
  slots_sorted h nodes → slots_sorted h (view_nodes ni) →
  ∃ infos, ComputeStatus_step consolidated c (addr, ni) h =
    Val (mkClusterInfos infos
      (if decide (signature_slots h consolidated = signature_slots h (getConfigSignature h (sorted_view h ni).1))
       then Status c else ClusterInfosInconsistent), h).
Proof.
  intros -> Hn Hv.
  assert (slots_sorted h (sorted_view h ni).1) as Hv'.
  { intros p Hp. apply Hv. revert Hp. unfold sorted_view, SortByFunc. simpl.
    by rewrite sort_by_Permutation. }
  destruct (ConfigSignature_String_sorted h _ Hv') as [s Hs].
  destruct (ConfigSignature_String_sorted h _ Hn) as [s0 Hs0].
  unfold ComputeStatus_step, mbind, M_bind, gets. cbn [go_bind fst snd].
  rewrite Hs. cbn [go_bind fst snd]. case_decide as Heq.
  - rewrite bool_decide_true by done. by eexists.
  - rewrite bool_decide_false by done. rewrite Hs0. cbn [go_bind fst snd].
    rewrite Hs. by eexists.
Qed.

Lemma ComputeStatus_loop_spec h consolidated nodes l c :
  consolidated = getConfigSignature h nodes →
  slots_sorted h nodes → (∀ addr ni, (addr, ni) ∈ l → slots_sorted h (view_nodes ni)) →
  ∃ infos st, for_fold l c (ComputeStatus_step consolidated) h = Val (mkClusterInfos infos st, h) ∧
    ((st = Status c ∧ ∀ addr ni, (addr, ni) ∈ l →
        signature_slots h consolidated = signature_slots h (getConfigSignature h (sorted_view h ni).1)) ∨
     (st = ClusterInfosInconsistent ∧ ∃ addr ni, (addr, ni) ∈ l ∧
        signature_slots h consolidated ≠ signature_slots h (getConfigSignature h (sorted_view h ni).1))).
Proof.
  intros Hc Hn. revert c. induction l as [|[addr ni] l IH]; intros c Hl.
  { destruct c as [i st]. exists i, st. split; [done|]. left. split; [done|]. intros ?? []%elem_of_nil. }
  destruct (ComputeStatus_step_spec h consolidated nodes c addr ni Hc Hn) as [infos Hstep].
  { apply (Hl addr). by left. }
  cbn [for_fold]. unfold mbind, M_bind. rewrite Hstep. cbn [go_bind fst snd].
  edestruct IH as (infos' & st & Heq & Hst); [intros; eapply Hl; by right|].
  rewrite Heq. exists infos', st. split; [done|]. cbn [Status] in Hst.
  destruct Hst as [(-> & Hall)|(-> & a & n & Hin & Hne)].
  - case_decide as Hag.
    + left. split; [done|]. intros a n [?|?]%elem_of_cons; [by simplify_eq|by eapply Hall].
    + right. split; [done|]. exists addr, ni. split; [by left|done].
  - right. split; [done|]. exists a, n. split; [by right|done].
Qed.

(** C21: on data that is complete (status [Unset]), with the slots of every node in
    increasing order (as Redis prints them) and no two masters of a view at one
    address, [ComputeStatus] returns, leaves the nodes as they are, and answers
    [true] with status [Consistent] exactly when every node's view makes the same
    claims (address and slots of each master) as the nodes make about themselves;
    otherwise the status is [Inconsistent]. *)
Theorem ComputeStatus_agreement h c :
  Status c = ClusterInfosUnset →
  slots_sorted h (GetNodes c) → distinct_masters h (GetNodes c) →
  (∀ addr ni, Infos c !! addr = Some ni →
     slots_sorted h (view_nodes ni) ∧ distinct_masters h (view_nodes ni)) →
  ∃ c' b, ComputeStatus c h = Val ((c', b), h) ∧
    Status c' = (if (b : bool) then ClusterInfosConsistent else ClusterInfosInconsistent) ∧
    (b = true ↔ ∀ addr ni, Infos c !! addr = Some ni →
       ∀ a s, claims h (GetNodes c) a s ↔ claims h (view_nodes ni) a s).
Proof.
  intros Hst Hn Hdn Hv. unfold ComputeStatus. rewrite decide_False by naive_solver.
  set (nodes := SortByFunc (GetNodes c) (λ a b, LessByID (h !!! a) (h !!! b))).
  assert (nodes ≡ₚ GetNodes c) as Hperm by apply sort_by_Permutation.
  assert (∀ ni, (sorted_view h ni).1 ≡ₚ view_nodes ni) as Hpv by (intros; apply sort_by_Permutation).
  assert (∀ addr ni, Infos c !! addr = Some ni →
    (signature_slots h (getConfigSignature h nodes) =
     signature_slots h (getConfigSignature h (sorted_view h ni).1) ↔
     ∀ a s, claims h (GetNodes c) a s ↔ claims h (view_nodes ni) a s)) as Hag.
  { intros addr ni Hni. rewrite signature_slots_eq.
    - apply forall_proper. intros a. apply forall_proper. intros s.
      by rewrite (claims_Permutation _ _ _ _ _ Hperm), (claims_Permutation _ _ _ _ _ (Hpv ni)).
    - by eapply distinct_masters_Permutation.
    - eapply distinct_masters_Permutation; [symmetry; apply Hpv|]. by eapply Hv. }
  destruct (ComputeStatus_loop_spec h (getConfigSignature h nodes) nodes (range 12 (Infos c)) c)
    as (infos & st & Heq & Hcase).
  { done. } { intros p. rewrite Hperm. apply Hn. }
  { intros addr ni Hin%elem_of_range. by eapply Hv. }
  cbv beta delta [mbind M_bind gets]. cbn [go_bind fst snd]. fold nodes.
  rewrite Heq. cbn [go_bind fst snd Status]. setoid_rewrite elem_of_range in Hcase.
  destruct Hcase as [(-> & Hall)|(-> & addr & ni & Hni & Hne)].
  - rewrite decide_True by done. eexists _, true. split; [done|]. split; [done|].
    split; [|done]. intros _ addr ni Hni. apply (Hag addr ni Hni), (Hall addr ni Hni).
  - rewrite decide_False by done. eexists _, false. split; [done|]. split; [done|].
    split; [done|]. intros Hall. destruct Hne. apply (Hag addr ni Hni), (Hall addr ni Hni).
Qed.
End status.

Section friends.
Context `{Growth} `{SortPkg}.

(** What a round of [ComputeStatus] does to [Friends].  A slice that is full is
    left as it is.  A slice with spare capacity is overwritten by the sorted view:
    it loses the node [m] with the largest ID of the view and gains the node itself
    if that is not [m]; so a friend with the largest ID is no longer seen by the
    checks that scan [Friends] afterwards. *)
Theorem ComputeStatus_overwrites_friends h ni :
  let friends := elems (Friends ni) in
  let friends' := elems (sorted_view h ni).2 in
  (spare (Friends ni) = 0%nat → friends' = friends) ∧
  ((0 < spare (Friends ni))%nat → ∃ m,
     friends' ++ [m] ≡ₚ friends ++ [ni_Node ni] ∧
     ∀ p, p ∈ friends ++ [ni_Node ni] → LessByID (h !!! m) (h !!! p) = false).
Proof.
  simpl. unfold sorted_view. simpl. set (less := λ a b, LessByID (h !!! a) (h !!! b)).
  destruct (spare (Friends ni)) as [|k] eqn:Hsp; simpl; [split; [done|lia]|]. split; [done|]. intros _.
  set (l := elems (Friends ni) ++ [ni_Node ni]). unfold SortByFunc.
  pose proof (sort_by_Permutation less l) as Hp.
  pose proof (sort_by_Sorted less l (strict_weak_string_less (λ p, ID (h !!! p)))) as Hs.
  destruct (sort_by less l) as [|m view _] using rev_ind.
  { apply Permutation_nil in Hp. by destruct (elems (Friends ni)). }
  exists m. assert (length view = length (elems (Friends ni))) as Hlen.
  { apply Permutation_length in Hp. unfold l in Hp. rewrite !length_app in Hp. simpl in Hp. lia. }
  rewrite <- Hlen, take_app_length. split; [done|]. intros p Hin.
  rewrite <- Hp, elem_of_app, list_elem_of_singleton in Hin.
  apply StronglySorted_app in Hs as (Hs & _ & _).
  destruct Hin as [Hin| ->]; [|apply string_less_irrefl]. by apply (Hs p m); [|left].
Qed.
End friends.

(** ** Round trip of a line of CLUSTER NODES *)

(** What the slot part of a line can hold. *)
Inductive slot_field :=
| FSlot (s : Slot)
| FRange (r : SlotRange)
| FImporting (i : ImportingSlot)
| FMigrating (m : MigratingSlot).

Definition print_field (f : slot_field) : string :=
  match f with
  | FSlot s => Slot_String s
  | FRange r => SlotRange_String r
  | FImporting i => "[" +:+ ImportingSlot_String i +:+ "]"
  | FMigrating m => "[" +:+ MigratingSlot_String m +:+ "]"
  end.
Definition field_ok (f : slot_field) : Prop :=
  match f with
  | FSlot s => 0 ≤ s < max_uint64
  | FRange r => 0 ≤ Min r ≤ Max r ∧ Max r < max_uint64
  | FImporting i => 0 ≤ is_SlotID i < max_uint64 ∧
      has_byte "-" (FromNodeID i) = false ∧ has_byte " " (FromNodeID i) = false
  | FMigrating m => 0 ≤ ms_SlotID m < max_uint64 ∧
      has_byte "-" (ToNodeID m) = false ∧ has_byte " " (ToNodeID m) = false
  end.
Definition field_slots (f : slot_field) : list Slot :=
  match f with
  | FSlot s => [s]
  | FRange r => seqZ (Min r) (Max r - Min r + 1)
  | _ => []
  end.
Definition field_importing (m : gmap Z string) (f : slot_field) : gmap Z string :=
  match f with FImporting i => <[is_SlotID i := FromNodeID i]> m | _ => m end.
Definition field_migrating (m : gmap Z string) (f : slot_field) : gmap Z string :=
  match f with FMigrating i => <[ms_SlotID i := ToNodeID i]> m | _ => m end.

(** A line as Redis prints it. *)
Definition node_words (id ip port cport : string) (flags : list string) (master : string)
    (ping pong epoch : Z) (link : string) (fields : list slot_field) : list string :=
  [id; ip +:+ String ":" port +:+ String "@" cport; Join flags ","; master;
   FormatInt ping; FormatInt pong; FormatInt epoch; link] ++ (print_field <$> fields).
Definition node_line id ip port cport flags master ping pong epoch link fields : string :=
  Join (node_words id ip port cport flags master ping pong epoch link fields) " ".

Definition role_word (w : string) : Prop := w = RedisMasterRole ∨ w = RedisSlaveRole.
Definition failure_word (w : string) : Prop :=
  w ∈ [NodeStatusFail; NodeStatusPFail; NodeStatusHandshake; NodeStatusNoAddr; NodeStatusNoFlags].
#[export] Instance role_word_dec w : Decision (role_word w).
Proof. unfold role_word. apply _. Defined.
#[export] Instance failure_word_dec w : Decision (failure_word w).
Proof. unfold failure_word. apply _. Defined.

Lemma SetRole_loop_spec vals role :
  SetRole_loop vals role = default role (last (filter role_word vals)).
Proof.
  revert role. induction vals as [|v vals IH]; intros role; [done|].
  cbn [SetRole_loop]. rewrite IH, filter_cons.
  destruct (decide (v = RedisMasterRole)) as [->|Hm].
  - rewrite (decide_True (P := role_word RedisMasterRole)) by (by left).
    rewrite last_cons. by destruct (last _).
  - destruct (decide (v = RedisSlaveRole)) as [->|Hs].
    + rewrite (decide_True (P := role_word RedisSlaveRole)) by (by right).
      rewrite last_cons. by destruct (last _).
    + rewrite (decide_False (P := role_word v)) by (intros [?|?]; done). done.
Qed.

Lemma SetFailureStatus_loop_spec vals acc :
  SetFailureStatus_loop vals acc = acc ++ filter failure_word vals.
Proof.
  revert acc. induction vals as [|v vals IH]; intros acc; [by rewrite app_nil_r|].
  cbn [SetFailureStatus_loop]. rewrite IH, filter_cons.
  destruct (decide (failure_word v)) as [Hv|Hv].
  - unfold failure_word in Hv. rewrite !elem_of_cons in Hv. rewrite (cons_middle v acc), (assoc_L (++)).
    destruct Hv as [->|[->|[->|[->|[->|[]%elem_of_nil]]]]]; done.
  - unfold failure_word in Hv. rewrite !elem_of_cons in Hv.
    rewrite !decide_False by naive_solver. done.
Qed.

Lemma print_field_no_space f : field_ok f → has_byte " " (print_field f) = false.
Proof.
  assert (∀ s, 0 ≤ s → has_byte " " (Slot_String s) = false) as Hs
    by (intros; by apply has_byte_FormatUint).
  destruct f as [s|[mn mx]|[s id]|[s id]]; cbn [field_ok print_field Min Max is_SlotID ms_SlotID FromNodeID ToNodeID].
  - intros. apply Hs. lia.
  - intros [??]. unfold SlotRange_String. cbn [Min Max]. rewrite !has_byte_app, !Hs by lia. done.
  - intros (? & _ & Hid). unfold ImportingSlot_String. cbn [is_SlotID FromNodeID].
    by rewrite !has_byte_app, Hs, Hid by lia.
  - intros (? & _ & Hid). unfold MigratingSlot_String. cbn [ms_SlotID ToNodeID].
    by rewrite !has_byte_app, Hs, Hid by lia.
Qed.

Lemma decode_slots_print fields n :
  Forall field_ok fields →
  decode_slots n (print_field <$> fields) = Val (n
    <| Slots := Slots n ++ (fields ≫= field_slots) |>
    <| ImportingSlots := foldl field_importing (ImportingSlots n) fields |>
    <| MigratingSlots := foldl field_migrating (MigratingSlots n) fields |>).
Proof.
  intros Hok. revert n. induction Hok as [|f fields Hf Hfs IH]; intros n.
  { simpl. rewrite app_nil_r. by destruct n. }
  cbn [fmap list_fmap decode_slots].
  destruct f as [s|[mn mx]|[s id]|[s id]];
    cbn [field_ok print_field Min Max is_SlotID ms_SlotID FromNodeID ToNodeID] in *.
  - rewrite DecodeSlotRange_single by done. cbn [go_bind]. rewrite IH.
    destruct n; simpl. by rewrite <- (assoc_L (++)).
  - rewrite DecodeSlotRange_range by lia. cbn [go_bind]. rewrite IH.
    destruct n; simpl. by rewrite <- (assoc_L (++)).
  - rewrite DecodeSlotRange_importing by naive_solver. cbn [go_bind]. rewrite IH.
    destruct n; simpl. by rewrite app_nil_r.
  - rewrite DecodeSlotRange_migrating by naive_solver. cbn [go_bind]. rewrite IH.
    destruct n; simpl. by rewrite app_nil_r.
Qed.

(** C34: a line of [CLUSTER NODES], as Redis prints it, decodes to the node it
    describes: identity, address without the bus port, role, failure flags,
    referent master, times, link state, slots, and slots in migration.  The parts
    of the line contain no space, the address no '@', the port no ':'. *)
Theorem decode_node_line addr id ip port cport flags master ping pong epoch link fields :
  ip ≠ "" → flags ≠ [] →
  Forall (λ w, has_byte " " w = false) [id; ip; port; cport; master; link] →
  Forall (λ w, has_byte " " w = false ∧ has_byte "," w = false) flags →
  has_byte "@" ip = false → has_byte "@" port = false → has_byte ":" port = false →
  Forall (λ z, - 2 ^ 63 < z < 2 ^ 63) [ping; pong; epoch] →
  link = RedisLinkStateConnected ∨ link = RedisLinkStateDisconnected →
  Forall field_ok fields →
  decode_values addr
    (Split (node_line id ip port cport flags master ping pong epoch link fields) " ") =
  Val {| ID := id; IP := ip; Port := port;
         Role := default "" (last (filter role_word flags));
         LinkState := link;
         MasterReferent := if decide (master = "-") then "" else master;
         FailStatus := filter failure_word flags;
         PingSent := ping; PongRecv := pong; ConfigEpoch := epoch;
         Slots := fields ≫= field_slots;
         balance := 0;
         MigratingSlots := foldl field_migrating ∅ fields;
         ImportingSlots := foldl field_importing ∅ fields;
         ServerStartTime := None; NodeName := ""; PodName := ""; StatefulSet := "" |}.
Proof.
  intros Hip Hflags Hw Hfl Hat1 Hat2 Hcol Hnum Hlink Hfields.
  rewrite !Forall_cons in Hw. rewrite !Forall_cons in Hnum. destruct Hw as (Hid & Hip' & Hport & Hcport & Hmaster & Hl & _).
  destruct Hnum as (Hping & Hpong & Hepoch & _).
  assert (Split (Join flags ",") "," = flags) as Hsplit.
  { apply Split_Join; [done|]. eapply Forall_impl; [exact Hfl|]. by intros ? []. }
  unfold node_line. rewrite Split_Join.
  - unfold node_words. cbn [app decode_values].
    rewrite <- string_app_assoc, Split_app by (rewrite has_byte_app; cbn [has_byte]; by rewrite Hat1, Hat2).
    cbn [head from_option Datatypes.id]. unfold splitHostPort. rewrite LastIndex_app by done.
    rewrite slice_to_app, slice_from_S. unfold decode_int. rewrite !ParseInt_FormatInt by done.
    rewrite decide_False by done. rewrite decode_slots_print by done. f_equal.
    unfold SetRole, SetFailureStatus, SetReferentMaster, SetLinkStatus, NewDefaultNode.
    rewrite Hsplit, SetRole_loop_spec, SetFailureStatus_loop_spec. cbn [app].
    destruct (decide (master = "-")); destruct Hlink as [->| ->]; done.
  - done.
  - unfold node_words. apply Forall_app. split.
    + assert (∀ z, has_byte " " (FormatInt z) = false) as Hz by (intros; by apply has_byte_FormatInt).
      assert (has_byte " " (ip +:+ String ":" port +:+ String "@" cport) = false).
      { rewrite !has_byte_app. cbn [has_byte]. by rewrite Hip', Hport, Hcport. }
      assert (has_byte " " (Join flags ",") = false).
      { clear -Hfl. induction Hfl as [|w ws [Hw _] Hws IH]; [done|]. destruct ws; [done|].
        change (Join (w :: s :: ws) ",") with (w +:+ "," +:+ Join (s :: ws) ",").
        by rewrite !has_byte_app, Hw, IH. }
      by repeat (apply Forall_cons; split).
    + apply Forall_fmap. eapply Forall_impl; [exact Hfields|]. apply print_field_no_space.
Qed.

(** ** Witnesses *)

(** Two masters, each with the other as its friend. *)
Definition demo_node (id ip : string) (slots : list Slot) : Node :=
  NewDefaultNode <| ID := id |> <| IP := ip |> <| Role := RedisMasterRole |> <| Slots := slots |>.
Definition demo_heap : heap :=
  {[ 1%positive := demo_node "a" "ip1" [0; 1]; 2%positive := demo_node "b" "ip2" [2];
     3%positive := demo_node "b" "ip2" [2]; 4%positive := demo_node "a" "ip1" [0; 1] ]}.
Definition demo_infos : ClusterInfos :=
  mkClusterInfos {[ "ip1:6379" := mkNodeInfos 1 (mkSlice [3%positive] 0);
                    "ip2:6379" := mkNodeInfos 2 (mkSlice [4%positive] 0) ]} ClusterInfosUnset.

Lemma ComputeStatus_agreement_witness :
  ∃ c' b, @ComputeStatus range_default sort_default demo_infos demo_heap = Val ((c', b), demo_heap) ∧
    Status c' = (if (b : bool) then ClusterInfosConsistent else ClusterInfosInconsistent) ∧
    (b = true ↔ ∀ addr ni, Infos demo_infos !! addr = Some ni →
       ∀ a s, claims demo_heap (@GetNodes range_default demo_infos) a s ↔ claims demo_heap (view_nodes ni) a s).
Proof.
  assert (∀ p, p ∈ [1; 2; 3; 4]%positive →
    is_Some (demo_heap !! p) ∧ StronglySorted Z.le (Slots (demo_heap !!! p))) as Hs.
  { intros p Hp. rewrite !elem_of_cons, elem_of_nil in Hp.
    destruct Hp as [->|[->|[->|[->|[]]]]];
      (split; [by eexists|repeat constructor; done]). }
  assert (∀ p q, p ∈ [1; 2; 3; 4]%positive → q ∈ [1; 2; 3; 4]%positive →
    IPPort (demo_heap !!! p) = IPPort (demo_heap !!! q) →
    Slots (demo_heap !!! p) = Slots (demo_heap !!! q)) as Hd.
  { intros p q Hp Hq. rewrite !elem_of_cons, elem_of_nil in Hp, Hq.
    destruct Hp as [->|[->|[->|[->|[]]]]]; destruct Hq as [->|[->|[->|[->|[]]]]];
      intros Heq; vm_compute in Heq; first [discriminate | reflexivity]. }
  assert (∀ p, p ∈ @GetNodes range_default demo_infos → p ∈ [1; 2; 3; 4]%positive) as Hg
    by (intros p; change (@GetNodes range_default demo_infos) with [1; 2]%positive; clear; set_solver).
  assert (∀ addr ni, Infos demo_infos !! addr = Some ni → ∀ p, p ∈ view_nodes ni → p ∈ [1; 2; 3; 4]%positive) as Hv.
  { intros addr ni. unfold demo_infos. cbn [Infos].
    intros [[_ <-]|[_ [_ <-]%lookup_singleton_Some]]%lookup_insert_Some p;
      unfold view_nodes; cbn [elems Friends ni_Node app]; clear; set_solver. }
  apply (@ComputeStatus_agreement range_default sort_default demo_heap demo_infos).
  - done.
  - intros p Hp. by apply Hs, Hg.
  - intros p q Hp Hq _ _. apply Hd; by apply Hg.
  - intros addr ni Hni. split; [intros p Hp; by eapply Hs, Hv|].
    intros p q Hp Hq _ _. apply Hd; by eapply Hv.
Defined.

Lemma decode_node_line_witness :
  ∃ n, decode_values "10.0.0.1:6379"
    (Split (node_line "07c3" "10.0.0.2" "6379" "16379" ["myself"; "master"] "-" 0 17 3 "connected"
       [FRange (mkSlotRange 0 2); FSlot 7; FMigrating (mkMigratingSlot 7 "e7d1")]) " ") = Val n ∧
    Slots n = [0; 1; 2; 7] ∧ Role n = "master" ∧ MigratingSlots n = {[ 7 := "e7d1" ]}.
Proof.
  eexists. split.
  { apply decode_node_line; try done.
    - repeat constructor.
    - repeat constructor.
    - repeat constructor.
    - by left.
    - repeat (constructor || done). }
  done.
Defined.
