(* ===== verification/AdminInterface.v ===== *)
(** The interface [IAdmin] of [pkg/redisutil/admin.go], against which the
    clustering and healing code is written, with the laws its clients rely on.
    [Admin] (file Admin) implements it over connections to Redis servers;
    [recording_admin] below records the calls, and is used to state in which order
    the operator issues them and to evaluate the clients.

    [W] is whatever the implementation works on; an operation that receives nodes
    by pointer, or returns some, also works on the heap. *)

From Stdlib Require Import ZArith Lia.
From S2P Require Import Prelude GoStrings Errors Slot Node ClusterInfo.

Local Open Scope Z_scope.

Definition DefaultHashMaxSlots : Slot := 16383.
Definition ResetHard : string := "HARD".
Definition ResetSoft : string := "SOFT".

(** [slave.SetReferentMaster(masterID); slave.SetRole(RedisSlaveRole)] *)
Definition become_slave (masterID : string) (slave : Node) : Node :=
  (SetRole (SetReferentMaster slave masterID) RedisSlaveRole).1.

Class IAdmin (W : Type) := {
  GetHashMaxSlot : W → Slot;
  admin_GetClusterInfos : M (heap * W) (ClusterInfos * option error);
  admin_ClusterManagerNodeIsEmpty : M W (bool * option error);
  admin_SetConfigEpoch : M W (option error);
  admin_SetConfigIfNeed : gmap string string → M W (option error);
  admin_AttachNodeToCluster : string → M W (option error);
  admin_AttachSlaveToMaster : ptr → string → M (heap * W) (option error);
  admin_DetachSlave : ptr → M (heap * W) (option error);
  admin_ForgetNode : string → M (heap * W) (option error);
  admin_SetSlots : string → string → list Slot → string → M W (option error);
  admin_AddSlots : string → list Slot → M W (option error);
  admin_SetSlot : string → string → Slot → string → M W (option error);
  admin_MigrateKeys : string → Node → list Slot → Z → Z → bool → M W (Z * option error);
  admin_MigrateKeysInSlot : string → Node → Slot → Z → Z → bool → M W (Z * option error);
  admin_FlushAndReset : string → string → M W (option error);
  admin_ResetPassword : string → M W (option error);
  admin_Close : M W ();
  admin_Connections_Remove : string → M W ();
  admin_Connections_ReplaceAll : list string → M W ();
}.

(** What the clients need to know of the heap: attaching a slave changes that
    node's role and referent master, and only when it succeeds; the calls that
    fetch nodes allocate them and leave the existing ones alone. *)
Class IAdminLaws (W : Type) `{IAdmin W} := {
  AttachSlaveToMaster_heap : ∀ p id h w e h' w',
    admin_AttachSlaveToMaster p id (h, w) = Val (e, (h', w')) →
    h' = match e with None => heap_upd (become_slave id) p h | Some _ => h end;
  ForgetNode_heap : ∀ id h w e h' w',
    admin_ForgetNode id (h, w) = Val (e, (h', w')) → h ⊆ h';
  GetClusterInfos_heap : ∀ h w r h' w',
    admin_GetClusterInfos (h, w) = Val (r, (h', w')) → h ⊆ h';
}.

(** ** The recording implementation *)

Inductive call :=
| CallAddSlots (addr : string) (slots : list Slot)
| CallSetSlots (addr action : string) (slots : list Slot) (nodeID : string)
| CallSetSlot (addr action : string) (slot : Slot) (nodeID : string)
| CallMigrateKeys (addr : string) (dest : string) (slots : list Slot)
| CallAttachSlave (addr masterID : string)
| CallForget (id : string)
| CallMeet (addr : string)
| CallReset (addr mode : string)
| CallOther (what : string).

#[export] Instance call_eq_dec : EqDecision call.
Proof. solve_decision. Defined.

Section recording.
(** Which calls fail. *)
Variable fails : call → bool.

Definition record (c : call) : M (list call) (option error) := λ tr,
  Val (if fails c then Some (ErrText "refused") else None, tr ++ [c]).
Definition record_ (c : call) : M (list call) () := λ tr, Val ((), tr ++ [c]).

Definition recording_admin : IAdmin (list call) := {|
  GetHashMaxSlot _ := DefaultHashMaxSlots;
  admin_GetClusterInfos := mret (NewClusterInfos, None);
  admin_ClusterManagerNodeIsEmpty := mret (true, None);
  admin_SetConfigEpoch := record (CallOther "SetConfigEpoch");
  admin_SetConfigIfNeed _ := record (CallOther "SetConfigIfNeed");
  admin_AttachNodeToCluster addr := record (CallMeet addr);
  admin_AttachSlaveToMaster p id :=
    addr ← gets (λ st, IPPort (st.1 !!! p));
    e ← on_snd (record (CallAttachSlave addr id));
    match e with
    | None => modify (λ st, (heap_upd (become_slave id) p st.1, st.2));; mret None
    | Some err => mret (Some err)
    end;
  admin_DetachSlave p := on_snd (record (CallOther "DetachSlave"));
  admin_ForgetNode id := on_snd (record (CallForget id));
  admin_SetSlots addr action slots nodeID := record (CallSetSlots addr action slots nodeID);
  admin_AddSlots addr slots := record (CallAddSlots addr slots);
  admin_SetSlot addr action slot nodeID := record (CallSetSlot addr action slot nodeID);
  admin_MigrateKeys addr dest slots _ _ _ :=
    e ← record (CallMigrateKeys addr (ID dest) slots); mret (0, e);
  admin_MigrateKeysInSlot addr dest slot _ _ _ :=
    e ← record (CallMigrateKeys addr (ID dest) [slot]); mret (0, e);
  admin_FlushAndReset addr mode := record (CallReset addr mode);
  admin_ResetPassword _ := record (CallOther "ResetPassword");
  admin_Close := record_ (CallOther "Close");
  admin_Connections_Remove addr := record_ (CallOther ("Remove " +:+ addr));
  admin_Connections_ReplaceAll addrs := record_ (CallOther ("ReplaceAll " +:+ Join addrs ","));
|}.

Lemma recording_admin_laws : @IAdminLaws (list call) recording_admin.
Proof.
  split; cbn [recording_admin admin_AttachSlaveToMaster admin_ForgetNode admin_GetClusterInfos].
  - intros p id h w e h' w'. unfold mbind, M_bind, gets, on_snd, record, modify, mret, M_ret. simpl.
    destruct (fails _); simpl; intros; by simplify_eq.
  - intros id h w e h' w'. unfold on_snd, record. simpl. intros. by simplify_eq.
  - intros h w r h' w'. unfold mret, M_ret. intros. by simplify_eq.
Qed.
End recording.
