(* ===== verification/Groups.v ===== *)
(** Maps of lists: [m[k] = append(m[k], x)], the elements of all the lists, and the
    lists of the elements grouped by a key. *)

From Stdlib Require Import ZArith Lia.
From S2P Require Import Prelude.

(** [m[k] = append(m[k], x)] *)
Definition map_append {K A} `{Countable K} (m : gmap K (list A)) (k : K) (x : A) : gmap K (list A) :=
  <[k := default [] (m !! k) ++ [x]]> m.

Section map_slots.
Context {K : Type} `{Countable K} {A : Type}.
Implicit Types m : gmap K (list A).

(** All the elements of the lists of a map. *)
Definition map_slots m : list A := concat (map_to_list m).*2.

Lemma elem_of_map_slots m x : x ∈ map_slots m ↔ ∃ k l, m !! k = Some l ∧ x ∈ l.
Proof.
  unfold map_slots. rewrite elem_of_concat. setoid_rewrite list_elem_of_fmap. split.
  - intros (l & Hx & [k l'] & -> & Hk%elem_of_map_to_list). eauto.
  - intros (k & l & Hk%elem_of_map_to_list & Hx). exists l. split; [done|]. by exists (k, l).
Qed.

Lemma lookup_map_append m k x k' :
  default [] (map_append m k x !! k') = default [] (m !! k') ++ (if decide (k = k') then [x] else []).
Proof.
  unfold map_append. case_decide; subst.
  - by rewrite lookup_insert_eq.
  - by rewrite lookup_insert_ne, app_nil_r.
Qed.

Lemma map_append_is_Some m k x k' : is_Some (map_append m k x !! k') ↔ k = k' ∨ is_Some (m !! k').
Proof. unfold map_append. by rewrite lookup_insert_is_Some'. Qed.

Lemma map_slots_delete m k l : m !! k = Some l → map_slots m ≡ₚ l ++ map_slots (delete k m).
Proof. intros Hk. unfold map_slots. by rewrite <- (map_to_list_delete m k l Hk). Qed.

Lemma map_slots_insert m k l : map_slots (<[k := l]> m) ≡ₚ l ++ map_slots (delete k m).
Proof.
  rewrite (map_slots_delete _ k l) by apply lookup_insert_eq. by rewrite delete_insert_eq.
Qed.

Lemma map_slots_append m k x : map_slots (map_append m k x) ≡ₚ x :: map_slots m.
Proof.
  unfold map_append. rewrite map_slots_insert.
  destruct (m !! k) as [l|] eqn:Hk; cbn [from_option Datatypes.id].
  - rewrite (map_slots_delete m k l Hk), <- (assoc_L (++)). symmetry. apply Permutation_middle.
  - by rewrite delete_id.
Qed.

Lemma map_slots_empty : map_slots ∅ = [].
Proof. unfold map_slots. by rewrite map_to_list_empty. Qed.

Lemma NoDup_map_slots m :
  (∀ k l, m !! k = Some l → NoDup l) →
  (∀ k k' l l' x, m !! k = Some l → m !! k' = Some l' → x ∈ l → x ∈ l' → k = k') →
  NoDup (map_slots m).
Proof.
  unfold map_slots. pose proof (NoDup_fst_map_to_list m) as Hnd. intros Hl Hd.
  setoid_rewrite <- elem_of_map_to_list in Hl.
  assert (∀ k k' l l' x, (k, l) ∈ map_to_list m → (k', l') ∈ map_to_list m → x ∈ l → x ∈ l' → k = k') as Hd'.
  { intros ?????. rewrite !elem_of_map_to_list. apply Hd. }
  clear Hd. revert Hnd Hl Hd'. generalize (map_to_list m) as ls. clear m.
  induction ls as [|[k l] ls IH]; intros Hnd Hl Hd; [constructor|].
  rewrite fmap_cons in *. cbn [fst snd concat] in *. apply NoDup_cons in Hnd as [Hk Hnd].
  apply NoDup_app. split_and!.
  - eapply Hl. by left.
  - intros x Hx (l' & Hx' & ([k' l''] & -> & Hin)%list_elem_of_fmap)%elem_of_concat. cbn [snd] in *.
    assert (k = k') as <- by (eapply (Hd k k' l l'' x); [by left|by right|done..]).
    apply Hk. apply list_elem_of_fmap. by exists (k, l'').
  - apply IH; [done| |].
    + intros. eapply Hl. by right.
    + intros. eapply Hd; [by right|by right|done..].
Qed.

(** Elements of different keys are different. *)
Lemma map_slots_unique m k k' x :
  NoDup (map_slots m) → x ∈ default [] (m !! k) → x ∈ default [] (m !! k') → k = k'.
Proof.
  intros Hnd Hx Hx'. destruct (decide (k = k')) as [|Hne]; [done|]. exfalso.
  destruct (m !! k) as [l|] eqn:Hk; [|by apply elem_of_nil in Hx].
  destruct (m !! k') as [l'|] eqn:Hk'; [|by apply elem_of_nil in Hx']. simpl in Hx, Hx'.
  rewrite (map_slots_delete m k l Hk) in Hnd. apply NoDup_app in Hnd as (_ & Hd & _).
  apply (Hd x Hx), elem_of_map_slots. exists k', l'. by rewrite lookup_delete_ne.
Qed.
End map_slots.

(** Grouping a list by a key, as a loop of [map_append]. *)
Section group.
Context {K : Type} `{Countable K} {A : Type} (key : A → K).
Implicit Types (m : gmap K (list A)) (l : list A).

Definition group l k : list A := filter (λ x, key x = k) l.

Lemma foldl_map_append l m k :
  foldl (λ m x, map_append m (key x) x) m l !! k =
  match group l k with [] => m !! k | ps => Some (default [] (m !! k) ++ ps) end.
Proof.
  revert m. induction l as [|x l IH]; intros m; [done|]. cbn [foldl]. rewrite IH. unfold group, map_append.
  rewrite filter_cons. case_decide as Hk.
  - rewrite Hk, lookup_insert_eq. destruct (filter _ l); simpl; [done|]. by rewrite <- (assoc_L (++)).
  - by rewrite lookup_insert_ne by congruence.
Qed.

Lemma map_slots_group l m : map_slots (foldl (λ m x, map_append m (key x) x) m l) ≡ₚ l ++ map_slots m.
Proof.
  revert m. induction l as [|x l IH]; intros m; [done|]. cbn [foldl]. rewrite IH, map_slots_append. simpl.
  by rewrite <- Permutation_middle.
Qed.
End group.
