(* ===== verification/Clustering.v ===== *)
(** [pkg/controller/clustering/placement_v2.go] and [roles.go]: the clustering
    context of one synchronisation, the choice of one master per StatefulSet, the
    distribution of the other nodes as slaves, and the attachment of slaves. *)

From Stdlib Require Import ZArith Lia.
From S2P Require Import Prelude GoStrings Errors Slot Node ClusterInfo AdminInterface Groups.

Local Open Scope Z_scope.

Definition unknownVMName : string := "unknown".

(** [statefulsets.ClusterStatefulSetName], [ClusterHeadlessSvcName] *)
Definition ClusterStatefulSetName (clusterName : string) (i : Z) : string :=
  "drc-" +:+ clusterName +:+ "-" +:+ FormatInt i.
Definition ClusterHeadlessSvcName (name : string) (i : Z) : string :=
  name +:+ "-" +:+ FormatInt i.

(** [clustering.Ctx].  A missing entry of [newMastersBySts] reads as a nil node. *)
Record Ctx := mkCtx {
  expectedMasterNum : Z;
  clusterName : string;
  cluster : RedisCluster;
  nodes : gmap string Nodes;
  currentMasters : Nodes;
  newMastersBySts : gmap string ptr;
  slavesByMaster : gmap string Nodes;
  bestEffort : bool;
}.
#[export] Instance Ctx_eta : Settable Ctx := λ c,
  mkCtx (expectedMasterNum c) (clusterName c) (cluster c) (nodes c) (currentMasters c)
    (newMastersBySts c) (slavesByMaster c) (bestEffort c).

Section placement.
Context `{MapRange}.
Implicit Types (h : heap) (c : Ctx).

(** [sortRedisNodeByStatefulSet]: the nodes by StatefulSet name, and the current
    masters it collects in the context. *)
Definition sortRedisNodeByStatefulSet_step h (acc : Ctx * gmap string Nodes) (rNode : ptr) :
    Ctx * gmap string Nodes :=
  let (c, nodesByStatefulSet) := acc in
  match Cluster_GetNodeByID (cluster c) (ID (h !!! rNode)) with
  | (Some cNode, None) =>
      let ssName := if decide (StatefulSet (h !!! cNode) = "") then unknownVMName
                    else StatefulSet (h !!! cNode) in
      (if bool_decide (GetRole (h !!! rNode) = RedisClusterNodeRoleMaster) && (0 <? TotalSlots (h !!! rNode))
       then c <| currentMasters := currentMasters c ++ [rNode] |> else c,
       map_append nodesByStatefulSet ssName rNode)
  | _ => acc
  end.
Definition sortRedisNodeByStatefulSet h c (nodes : Nodes) : Ctx * gmap string Nodes :=
  foldl (sortRedisNodeByStatefulSet_step h) (c, ∅) nodes.

(** [NewCtx] *)
Definition NewCtx h (cl : RedisCluster) (ns : Nodes) (masterNum : Z) (clName : string) : Ctx :=
  let ctx := mkCtx masterNum clName cl ∅ [] ∅ ∅ false in
  let (ctx, byStatefulSet) := sortRedisNodeByStatefulSet h ctx ns in
  ctx <| nodes := byStatefulSet |>.

(** The search of [PlaceMasters]: the first node on a machine without master. *)
Fixpoint PlaceMasters_loop h (allMasters nodes : Nodes) : option ptr :=
  match nodes with
  | [] => None
  | cNode :: nodes' =>
      match (GetNodesByFunc allMasters
               (λ node, bool_decide (NodeName (h !!! node) = NodeName (h !!! cNode)))).2 with
      | Some _ => Some cNode
      | None => PlaceMasters_loop h allMasters nodes'
      end
  end.

(** [Ctx.PlaceMasters] *)
Definition PlaceMasters h c (ssName : string) : go (Ctx * ptr) :=
  let allMasters := currentMasters c ++ (range 20 (newMastersBySts c)).*2 in
  let nodes := default [] (nodes c !! ssName) in
  match PlaceMasters_loop h allMasters nodes with
  | Some cNode => Val (c, cNode)
  | None =>
      match nodes with
      | [] => Panics
      | n0 :: _ => Val (c <| bestEffort := true |>, n0)
      end
  end.

(** One round of [Ctx.DispatchMasters]. *)
Definition DispatchMasters_step h (i : Z) c : go (Ctx * option error) :=
  let stsName := ClusterStatefulSetName (clusterName c) i in
  match nodes c !! stsName with
  | None => Val (c, Some (ErrText ("missing statefulset " +:+ stsName)))
  | Some nodes =>
      match FilterByFunc nodes (λ p, IsMasterWithSlot (h !!! p)) with
      | [] =>
          let! r := PlaceMasters h c stsName in
          let (c, master) := r in
          Val (c <| newMastersBySts := <[stsName := master]> (newMastersBySts c) |>, None)
      | [m] => Val (c <| newMastersBySts := <[stsName := m]> (newMastersBySts c) |>, None)
      | _ => Val (c, Some (ErrText ("split brain: " +:+ stsName)))
      end
  end.
Fixpoint DispatchMasters_loop h (idxs : list Z) c : go (Ctx * option error) :=
  match idxs with
  | [] => Val (c, None)
  | i :: idxs' =>
      let! r := DispatchMasters_step h i c in
      match r with
      | (c, None) => DispatchMasters_loop h idxs' c
      | _ => Val r
      end
  end.
(** [Ctx.DispatchMasters] *)
Definition DispatchMasters h c : go (Ctx * option error) :=
  DispatchMasters_loop h (seqZ 0 (expectedMasterNum c)) c.

(** The inner loop of [Ctx.PlaceSlaves]; [master] is nil when the StatefulSet has
    no new master. *)
Fixpoint PlaceSlaves_nodes h (master : option ptr) (nodes : Nodes) c : go Ctx :=
  match nodes with
  | [] => Val c
  | node :: nodes' =>
      match master with
      | None => Panics
      | Some master =>
          if decide (IP (h !!! node) = IP (h !!! master)) then PlaceSlaves_nodes h (Some master) nodes' c
          else
            let c := if decide (NodeName (h !!! node) ≠ NodeName (h !!! master))
                     then c <| bestEffort := false |> else c in
            let attach := c <| slavesByMaster := map_append (slavesByMaster c) (ID (h !!! master)) node |> in
            if decide (GetRole (h !!! node) = RedisClusterNodeRoleSlave) then
              if decide (MasterReferent (h !!! node) ≠ ID (h !!! master))
              then PlaceSlaves_nodes h (Some master) nodes' attach
              else PlaceSlaves_nodes h (Some master) nodes' c
            else PlaceSlaves_nodes h (Some master) nodes' attach
      end
  end.
Fixpoint PlaceSlaves_loop h (sets : list (string * Nodes)) c : go Ctx :=
  match sets with
  | [] => Val c
  | (ssName, ns) :: sets' =>
      let! c := PlaceSlaves_nodes h (newMastersBySts c !! ssName) ns c in
      PlaceSlaves_loop h sets' c
  end.
(** [Ctx.PlaceSlaves]; its error is always nil. *)
Definition PlaceSlaves h c : go (Ctx * option error) :=
  let! c := PlaceSlaves_loop h (range 21 (nodes c)) (c <| bestEffort := true |>) in
  Val (c, None).

(** [GetCurrentMasters], [GetNewMasters], [GetSlaves], [GetStatefulsetNodes] *)
Definition GetCurrentMasters c : Nodes := currentMasters c.
Definition GetNewMasters c : Nodes := (range 22 (newMastersBySts c)).*2.
Definition GetSlaves c : gmap string Nodes := slavesByMaster c.
Definition GetStatefulsetNodes c : gmap string Nodes := nodes c.

Context {W : Type} `{IAdmin W}.

(** [Ctx.AttachingSlavesToMaster]: an error does not stop the loop; the last one is
    returned. *)
Definition AttachingSlavesToMaster c : M (heap * W) (option error) :=
  for_fold (range 23 (slavesByMaster c)) None (λ globalErr e,
    let (masterID, slaves) := (e : string * Nodes) in
    match Cluster_GetNodeByID (cluster c) masterID with
    | (Some masterNode, None) =>
        for_fold slaves globalErr (λ globalErr slave,
          id ← gets (λ st, ID (st.1 !!! masterNode));
          err ← admin_AttachSlaveToMaster slave id;
          mret (match err with Some _ => err | None => globalErr end))
    | _ => mret globalErr
    end).
End placement.

(** ** Choice of the masters *)

Lemma ClusterStatefulSetName_inj name i j :
  - 2 ^ 63 < i < 2 ^ 63 → - 2 ^ 63 < j < 2 ^ 63 →
  ClusterStatefulSetName name i = ClusterStatefulSetName name j → i = j.
Proof.
  intros Hi Hj Heq. unfold ClusterStatefulSetName in Heq.
  assert (∀ a b c : string, a +:+ b = a +:+ c → b = c) as Hinj.
  { intros a. induction a as [|x a IH]; intros b c; [done|]. simpl. intros. simplify_eq. auto. }
  do 3 apply Hinj in Heq.
  pose proof (ParseInt_FormatInt i Hi) as H1. rewrite Heq, ParseInt_FormatInt in H1 by done. congruence.
Qed.

Section dispatch.
Context `{MapRange}.
Variable h : heap.

(** What [DispatchMasters] asks of the StatefulSet [s] of the context: it exists and
    has at most one master with slots. *)
Definition set_ok (c : Ctx) (s : string) : Prop :=
  ∃ ns, nodes c !! s = Some ns ∧ (length (filter (λ p, IsMasterWithSlot (h !!! p) = true) ns) ≤ 1)%nat.
(** [m] is a proper master of the StatefulSet: one of its nodes, and the one with
    slots if any has slots. *)
Definition proper_master (c : Ctx) (s : string) (m : ptr) : Prop :=
  ∃ ns, nodes c !! s = Some ns ∧ m ∈ ns ∧ ∀ p, p ∈ ns → IsMasterWithSlot (h !!! p) = true → p = m.

(** What the choice of the masters leaves alone. *)
Definition same_cluster (c c' : Ctx) : Prop :=
  nodes c' = nodes c ∧ currentMasters c' = currentMasters c ∧ cluster c' = cluster c ∧
  slavesByMaster c' = slavesByMaster c.

Lemma PlaceMasters_loop_in allMasters ns m : PlaceMasters_loop h allMasters ns = Some m → m ∈ ns.
Proof.
  induction ns as [|n ns IH]; simpl; [done|]. case_match; intros; simplify_eq; [by left|].
  right. by apply IH.
Qed.

(** [PlaceMasters] only changes [bestEffort], and returns a node of the set. *)
Lemma PlaceMasters_spec c s ns :
  nodes c !! s = Some ns → ns ≠ [] →
  ∃ b m, PlaceMasters h c s = Val (c <| bestEffort := b |>, m) ∧ m ∈ ns.
Proof.
  intros Hs Hne. unfold PlaceMasters. rewrite Hs. cbn [from_option Datatypes.id].
  destruct (PlaceMasters_loop h _ ns) as [m|] eqn:E.
  - exists (bestEffort c), m. split; [by destruct c|]. by eapply PlaceMasters_loop_in.
  - destruct ns as [|m ns]; [done|]. exists true, m. split; [done|]. by left.
Qed.

Lemma DispatchMasters_step_spec i c :
  let s := ClusterStatefulSetName (clusterName c) i in
  (∀ s ns, nodes c !! s = Some ns → ns ≠ []) →
  (∃ b m, DispatchMasters_step h i c =
     Val (c <| bestEffort := b |> <| newMastersBySts := <[s := m]> (newMastersBySts c) |>, None) ∧
     set_ok c s ∧ proper_master c s m) ∨
  (∃ e, DispatchMasters_step h i c = Val (c, Some e) ∧ ¬ set_ok c s).
Proof.
  intros s Hne. unfold DispatchMasters_step. fold s.
  destruct (nodes c !! s) as [ns|] eqn:Hs.
  2: { right. eexists. split; [done|]. intros (ns & Hns & _). congruence. }
  rewrite FilterByFunc_filter.
  destruct (filter _ ns) as [|m [|m' l]] eqn:Hf.
  - left. destruct (PlaceMasters_spec c s ns Hs (Hne _ _ Hs)) as (b & m & Heq & Hin).
    exists b, m. rewrite Heq. split; [done|]. split; [exists ns; rewrite Hf; split; [done|simpl; lia]|].
    exists ns. split_and!; [done..|]. intros p Hp Hm.
    assert (p ∈ filter (λ p, IsMasterWithSlot (h !!! p) = true) ns) as Hpf by by apply list_elem_of_filter.
    rewrite Hf in Hpf. by apply elem_of_nil in Hpf.
  - left. exists (bestEffort c), m. split; [by destruct c|]. split.
    { exists ns. rewrite Hs, Hf. split; [done|]. simpl. lia. }
    exists ns. split; [done|].
    assert (m ∈ filter (λ p, IsMasterWithSlot (h !!! p) = true) ns) as Hmf by (rewrite Hf; by left).
    apply list_elem_of_filter in Hmf as [_ Hmf]. split; [done|]. intros p Hp Hm.
    assert (p ∈ filter (λ p, IsMasterWithSlot (h !!! p) = true) ns) as Hpf by by apply list_elem_of_filter.
    rewrite Hf in Hpf. by apply list_elem_of_singleton in Hpf.
  - right. eexists. split; [done|]. intros (ns' & Hs' & Hlen). rewrite Hs in Hs'. simplify_eq.
    rewrite Hf in Hlen. simpl in Hlen. lia.
Qed.

Lemma DispatchMasters_loop_spec idxs c :
  NoDup (ClusterStatefulSetName (clusterName c) <$> idxs) →
  (∀ s ns, nodes c !! s = Some ns → ns ≠ []) →
  ∃ c' e, DispatchMasters_loop h idxs c = Val (c', e) ∧
    same_cluster c c' ∧
    (e = None ↔ ∀ i, i ∈ idxs → set_ok c (ClusterStatefulSetName (clusterName c) i)) ∧
    (∀ s, s ∉ ClusterStatefulSetName (clusterName c) <$> idxs →
       newMastersBySts c' !! s = newMastersBySts c !! s) ∧
    (e = None → ∀ i, i ∈ idxs → ∃ m,
       newMastersBySts c' !! ClusterStatefulSetName (clusterName c) i = Some m ∧
       proper_master c (ClusterStatefulSetName (clusterName c) i) m).
Proof.
  revert c. induction idxs as [|i idxs IH]; intros c Hnd Hne; cbn [DispatchMasters_loop].
  { exists c, None. split; [done|]. split; [done|]. split_and!; [|done|]; [split; [|done]|]; intros; by edestruct (elem_of_nil i). }
  rewrite fmap_cons in *. apply NoDup_cons in Hnd as [Hi Hnd].
  destruct (DispatchMasters_step_spec i c Hne) as [(b & m & -> & Hok & Hm)|(e & -> & Hno)].
  - cbn [go_bind]. set (c1 := c <| bestEffort := b |> <| newMastersBySts := _ |>).
    destruct (IH c1) as (c' & e & Heq & Hf & He & Hother & Hall); [done..|].
    exists c', e. split; [done|]. split; [exact Hf|]. split_and!.
    + rewrite He. setoid_rewrite elem_of_cons. split.
      * intros Hrest j [->|Hj]; [done|]. by apply (Hrest j).
      * intros Ha j Hj. apply (Ha j). by right.
    + intros s Hs. apply not_elem_of_cons in Hs as [Hs1 Hs2]. rewrite Hother by done.
      simpl. by rewrite lookup_insert_ne.
    + intros -> j [->|Hj]%elem_of_cons; [|by apply (Hall eq_refl j)].
      exists m. split; [|done]. rewrite Hother by done. simpl. by rewrite lookup_insert_eq.
  - cbn [go_bind]. exists c, (Some e). split; [done|]. split; [done|]. split_and!; [split; [done|]|done|done].
    intros Hall. destruct Hno. apply Hall. by left.
Qed.

(** [DispatchMasters], with the fields it leaves alone. *)
Lemma DispatchMasters_spec c :
  expectedMasterNum c < 2 ^ 31 → newMastersBySts c = ∅ →
  (∀ s ns, nodes c !! s = Some ns → ns ≠ []) →
  ∃ c' e, DispatchMasters h c = Val (c', e) ∧
    same_cluster c c' ∧
    (e = None ↔ ∀ i, 0 ≤ i < expectedMasterNum c → set_ok c (ClusterStatefulSetName (clusterName c) i)) ∧
    (e = None →
       (∀ s, is_Some (newMastersBySts c' !! s) ↔
          ∃ i, 0 ≤ i < expectedMasterNum c ∧ s = ClusterStatefulSetName (clusterName c) i) ∧
       ∀ s m, newMastersBySts c' !! s = Some m → proper_master c s m).
Proof.
  intros Hn Hempty Hne. unfold DispatchMasters.
  destruct (DispatchMasters_loop_spec (seqZ 0 (expectedMasterNum c)) c) as (c' & e & Heq & Hf & He & Hother & Hall).
  { apply NoDup_fmap_2_strong; [|apply NoDup_seqZ]. intros i j Hi%elem_of_seqZ Hj%elem_of_seqZ.
    apply ClusterStatefulSetName_inj; lia. }
  { done. }
  setoid_rewrite elem_of_seqZ in He. setoid_rewrite elem_of_seqZ in Hall.
  exists c', e. split; [done|]. split; [done|]. split; [rewrite He; by split; intros Ha i ?; apply Ha; lia|].
  intros ->. assert (∀ s m, newMastersBySts c' !! s = Some m →
    ∃ i, 0 ≤ i < expectedMasterNum c ∧ s = ClusterStatefulSetName (clusterName c) i) as Hdom.
  { intros s m Hm. destruct (decide (s ∈ ClusterStatefulSetName (clusterName c) <$> seqZ 0 (expectedMasterNum c)))
      as [(i & -> & Hi%elem_of_seqZ)%list_elem_of_fmap|Hs]; [exists i; split; [lia|done]|].
    rewrite Hother, Hempty in Hm by done. done. }
  split.
  - intros s. split; [intros [m Hm]; by eapply Hdom|]. intros (i & Hi & ->).
    destruct (Hall eq_refl i) as (m & Hm & _); [lia|]. by eexists.
  - intros s m Hm. destruct (Hdom s m Hm) as (i & Hi & ->).
    destruct (Hall eq_refl i) as (m' & Hm' & Hp); [lia|]. by simplify_eq.
Qed.

(** C15: [DispatchMasters], on a context whose StatefulSets have nodes, never
    panics.  It succeeds exactly when each of the expected StatefulSets exists and
    has at most one master with slots (otherwise: missing StatefulSet, or split
    brain); then the new masters are one per expected StatefulSet, a node of that
    set, and the one that holds slots whenever there is one. *)
Theorem DispatchMasters_one_master_per_set c :
  expectedMasterNum c < 2 ^ 31 → newMastersBySts c = ∅ →
  (∀ s ns, nodes c !! s = Some ns → ns ≠ []) →
  ∃ c' e, DispatchMasters h c = Val (c', e) ∧
    (e = None ↔ ∀ i, 0 ≤ i < expectedMasterNum c → set_ok c (ClusterStatefulSetName (clusterName c) i)) ∧
    (e = None →
       (∀ s, is_Some (newMastersBySts c' !! s) ↔
          ∃ i, 0 ≤ i < expectedMasterNum c ∧ s = ClusterStatefulSetName (clusterName c) i) ∧
       ∀ s m, newMastersBySts c' !! s = Some m → proper_master c s m).
Proof.
  intros. destruct (DispatchMasters_spec c) as (c' & e & Heq & _ & Hpost); [done..|]. by exists c', e.
Qed.
End dispatch.

(** ** Distribution of the slaves *)

Section slaves.
Context `{MapRange}.
Variable h : heap.

(** The nodes of a StatefulSet that [PlaceSlaves] attaches to its master [m]: those
    with another IP, unless they already are slaves of [m]. *)
Definition to_attach (m p : ptr) : Prop :=
  IP (h !!! p) ≠ IP (h !!! m) ∧
  ¬ (GetRole (h !!! p) = RedisClusterNodeRoleSlave ∧ MasterReferent (h !!! p) = ID (h !!! m)).
#[export] Instance to_attach_dec m p : Decision (to_attach m p).
Proof. unfold to_attach. apply _. Defined.
(** The other nodes run on the machine of [m]. *)
Definition same_machine (m p : ptr) : Prop :=
  IP (h !!! p) ≠ IP (h !!! m) → NodeName (h !!! p) = NodeName (h !!! m).

Definition slaves_of (c : Ctx) (k : string) : Nodes := default [] (slavesByMaster c !! k).

Lemma slaves_of_append c k k' x :
  slaves_of (c <| slavesByMaster := map_append (slavesByMaster c) k x |>) k' =
  slaves_of c k' ++ (if decide (k' = k) then [x] else []).
Proof.
  unfold slaves_of, map_append. simpl. case_decide; subst.
  - by rewrite lookup_insert_eq.
  - by rewrite lookup_insert_ne, app_nil_r.
Qed.

Lemma PlaceSlaves_nodes_spec m ns c :
  ∃ c', PlaceSlaves_nodes h (Some m) ns c = Val c' ∧
    newMastersBySts c' = newMastersBySts c ∧ cluster c' = cluster c ∧
    (∀ k, slaves_of c' k =
       slaves_of c k ++ (if decide (k = ID (h !!! m)) then filter (to_attach m) ns else [])) ∧
    (bestEffort c' = true ↔ bestEffort c = true ∧ Forall (same_machine m) ns).
Proof.
  revert c. induction ns as [|p ns IH]; intros c; cbn [PlaceSlaves_nodes].
  { exists c. split_and!; [done..| |by rewrite Forall_nil; tauto].
    intros k. by case_decide; rewrite app_nil_r. }
  destruct (decide (IP (h !!! p) = IP (h !!! m))) as [Hip|Hip].
  { destruct (IH c) as (c' & -> & Hm & Hc & Hs & Hb). exists c'. split_and!; [done..| |].
    - intros k. rewrite Hs, filter_cons, (decide_False (P := to_attach m p)) by (intros []; done). done.
    - rewrite Hb, Forall_cons. unfold same_machine at 2. naive_solver. }
  set (c1 := if decide (NodeName (h !!! p) ≠ NodeName (h !!! m)) then c <| bestEffort := false |> else c).
  assert ((newMastersBySts c1 = newMastersBySts c ∧ cluster c1 = cluster c) ∧ slavesByMaster c1 = slavesByMaster c ∧
    (bestEffort c1 = true ↔ bestEffort c = true ∧ same_machine m p)) as ([Hm1 Hc1] & Hs1 & Hb1).
  { unfold c1, same_machine. case_decide; simpl; (split; [done|]); (split; [done|]); [naive_solver|].
    destruct (decide (NodeName (h !!! p) = NodeName (h !!! m))); naive_solver. }
  set (c2 := c1 <| slavesByMaster := map_append (slavesByMaster c1) (ID (h !!! m)) p |>).
  assert (∀ k, slaves_of c2 k = slaves_of c k ++ (if decide (k = ID (h !!! m)) then [p] else [])) as Hs2.
  { intros k. unfold c2. rewrite slaves_of_append. unfold slaves_of. by rewrite Hs1. }
  assert (∀ P, to_attach m p →
    (∃ c', PlaceSlaves_nodes h (Some m) ns c2 = Val c' ∧ P c') →
    ∃ c', (if decide (GetRole (h !!! p) = RedisClusterNodeRoleSlave)
           then if decide (MasterReferent (h !!! p) ≠ ID (h !!! m))
                then PlaceSlaves_nodes h (Some m) ns c2 else PlaceSlaves_nodes h (Some m) ns c1
           else PlaceSlaves_nodes h (Some m) ns c2) = Val c' ∧ P c') as Hatt.
  { intros P [_ Hno] HP. case_decide; [|done]. rewrite decide_True by (intros Heq; by apply Hno). done. }
  destruct (decide (to_attach m p)) as [Hp|Hp].
  - apply Hatt; [done|]. destruct (IH c2) as (c' & -> & Hm & Hc & Hs & Hb). exists c'. split_and!; [done|by rewrite Hm|by rewrite Hc| |].
    + intros k. rewrite Hs, Hs2, <- (assoc_L (++)), filter_cons, (decide_True (P := to_attach m p)) by done.
      by destruct (decide (k = ID (h !!! m))).
    + rewrite Hb, Forall_cons. unfold c2. simpl. rewrite Hb1. tauto.
  - destruct (IH c1) as (c' & Heq & Hm & Hc & Hs & Hb). exists c'.
    assert (GetRole (h !!! p) = RedisClusterNodeRoleSlave ∧ MasterReferent (h !!! p) = ID (h !!! m)) as [Hr Hmr].
    { apply dec_stable. intros Hno. apply Hp. done. }
    rewrite decide_True by done. rewrite decide_False by (intros Hne; by apply Hne).
    split_and!; [done|by rewrite Hm|by rewrite Hc| |].
    + intros k. rewrite Hs, filter_cons, (decide_False (P := to_attach m p)) by done.
      unfold slaves_of. by rewrite Hs1.
    + rewrite Hb, Forall_cons, Hb1. tauto.
Qed.

Lemma PlaceSlaves_loop_spec sets c :
  (∀ s ns, (s, ns) ∈ sets → is_Some (newMastersBySts c !! s)) →
  ∃ c', PlaceSlaves_loop h sets c = Val c' ∧ cluster c' = cluster c ∧
    (∀ k, slaves_of c' k = slaves_of c k ++ (sets ≫= λ e,
       match newMastersBySts c !! e.1 with
       | Some m => if decide (k = ID (h !!! m)) then filter (to_attach m) e.2 else []
       | None => []
       end)) ∧
    (bestEffort c' = true ↔ bestEffort c = true ∧
       ∀ s ns m p, (s, ns) ∈ sets → newMastersBySts c !! s = Some m → p ∈ ns → same_machine m p).
Proof.
  revert c. induction sets as [|[s ns] sets IH]; intros c Hsets; cbn [PlaceSlaves_loop].
  { exists c. split_and!; [done|done|intros; by rewrite app_nil_r|]. setoid_rewrite elem_of_nil. naive_solver. }
  destruct (Hsets s ns) as [m Hm]; [by left|]. rewrite Hm.
  destruct (PlaceSlaves_nodes_spec m ns c) as (c1 & -> & Hm1 & Hc1 & Hs1 & Hb1). cbn [go_bind].
  destruct (IH c1) as (c' & Heq & Hc & Hs & Hb). { intros. rewrite Hm1. eapply Hsets. by right. }
  exists c'. split; [done|]. split; [by rewrite Hc|]. split.
  - intros k. rewrite Hs, Hs1, Hm1, <- (assoc_L (++)). cbn [mbind list_bind fst snd]. by rewrite Hm.
  - rewrite Hb, Hb1, Hm1, Forall_forall. setoid_rewrite elem_of_cons. split.
    + intros [[? Hns] Hrest]. split; [done|]. intros s' ns' m' p [Heq'|Hin] Hm' Hp; [|by eapply Hrest].
      simplify_eq. by apply Hns.
    + intros [? Hall]. split; [split; [done|]|]; [intros p Hp|intros ? ? ? ? ? ? ?].
      * eapply Hall; [by left| |done]. done.
      * eapply Hall; [by right| |]; done.
Qed.

(** [PlaceSlaves] lists a node only under the master of its StatefulSet. *)
Lemma PlaceSlaves_spec c :
  slavesByMaster c = ∅ →
  (∀ s ns, nodes c !! s = Some ns → is_Some (newMastersBySts c !! s)) →
  (∀ s s' m m', newMastersBySts c !! s = Some m → newMastersBySts c !! s' = Some m' →
     ID (h !!! m) = ID (h !!! m') → s = s') →
  ∃ c', PlaceSlaves h c = Val (c', None) ∧ cluster c' = cluster c ∧
    (∀ s ns m, nodes c !! s = Some ns → newMastersBySts c !! s = Some m →
       slaves_of c' (ID (h !!! m)) = filter (to_attach m) ns) ∧
    (∀ k p, p ∈ slaves_of c' k → ∃ s ns m, nodes c !! s = Some ns ∧ newMastersBySts c !! s = Some m ∧
       k = ID (h !!! m) ∧ p ∈ ns ∧ to_attach m p) ∧
    (bestEffort c' = true ↔ ∀ s ns m p, nodes c !! s = Some ns →
       newMastersBySts c !! s = Some m → p ∈ ns → same_machine m p).
Proof.
  intros Hempty Hall Hinj. unfold PlaceSlaves.
  destruct (PlaceSlaves_loop_spec (range 21 (nodes c)) (c <| bestEffort := true |>)) as (c' & -> & Hc & Hs & Hb).
  { intros s ns Hin%elem_of_range. by eapply Hall. }
  exists c'. split; [done|]. split; [by rewrite Hc|].
  assert (∀ k, slaves_of c' k = range 21 (nodes c) ≫= λ e, match newMastersBySts c !! e.1 with
    | Some m => if decide (k = ID (h !!! m)) then filter (to_attach m) e.2 else []
    | None => [] end) as Hs'.
  { intros k. rewrite Hs. unfold slaves_of at 1. simpl. by rewrite Hempty, lookup_empty. }
  split_and!.
  - intros s ns m Hns Hm. rewrite Hs'. pose proof (range_NoDup_keys 21 (nodes c)) as Hnd.
    apply elem_of_range with (site := 21%nat) in Hns. revert Hnd Hns.
    generalize (range 21 (nodes c)) as l. intros l Hnd Hin.
    apply list_elem_of_split in Hin as (l1 & l2 & ->).
    rewrite bind_app, bind_cons. cbn [fst snd]. rewrite Hm, decide_True by done.
    rewrite fmap_app, fmap_cons in Hnd. cbn [fst] in Hnd.
    apply NoDup_app in Hnd as (_ & Hl1 & Hnd). apply NoDup_cons in Hnd as [Hl2 _].
    assert (∀ l : list (string * Nodes), s ∉ l.*1 → (l ≫= λ e, match newMastersBySts c !! e.1 with
      | Some m0 => if decide (ID (h !!! m) = ID (h !!! m0)) then filter (to_attach m0) e.2 else []
      | None => [] end) = []) as Hnil.
    { clear -Hinj Hm. induction l as [|[s' ns'] l IH]; [done|]. rewrite fmap_cons, not_elem_of_cons.
      intros [Hne Hl]. rewrite bind_cons. cbn [fst snd]. rewrite IH by done.
      destruct (newMastersBySts c !! s') as [m'|] eqn:Hm'; [|done].
      rewrite decide_False; [done|]. intros Heq. destruct Hne. by eapply Hinj. }
    rewrite !Hnil; [by rewrite app_nil_r| |].
    + done.
    + intros Hin. eapply Hl1; [exact Hin|]. by left.
  - intros k p. rewrite Hs'. intros ([s ns] & Hp & Hin%elem_of_range)%list_elem_of_bind. cbn [fst snd] in Hp.
    destruct (newMastersBySts c !! s) as [m|] eqn:Hm; [|by apply elem_of_nil in Hp].
    case_decide as Hk; [|by apply elem_of_nil in Hp]. apply list_elem_of_filter in Hp as [Hat Hp].
    by exists s, ns, m.
  - rewrite Hb. simpl. setoid_rewrite elem_of_range. naive_solver.
Qed.

(** C25: [PlaceSlaves], when every StatefulSet of the context has a new master and
    different sets have masters with different IDs, returns and lists under each
    master exactly the nodes of its StatefulSet, in order, that have another IP and
    are not already its slaves; [bestEffort] is left set exactly when all those
    other nodes run on the machine of their master.  A StatefulSet with nodes but
    without new master makes it panic (nil dereference). *)
Theorem PlaceSlaves_attaches_each_set c :
  slavesByMaster c = ∅ →
  ((∀ s ns, nodes c !! s = Some ns → is_Some (newMastersBySts c !! s)) →
   (∀ s s' m m', newMastersBySts c !! s = Some m → newMastersBySts c !! s' = Some m' →
      ID (h !!! m) = ID (h !!! m') → s = s') →
   ∃ c', PlaceSlaves h c = Val (c', None) ∧
     (∀ s ns m, nodes c !! s = Some ns → newMastersBySts c !! s = Some m →
        slaves_of c' (ID (h !!! m)) = filter (to_attach m) ns) ∧
     (bestEffort c' = true ↔ ∀ s ns m p, nodes c !! s = Some ns →
        newMastersBySts c !! s = Some m → p ∈ ns → same_machine m p)) ∧
  (∀ s n ns, nodes c = {[ s := n :: ns ]} → newMastersBySts c !! s = None → PlaceSlaves h c = Panics).
Proof.
  intros Hempty. split.
  - intros Hall Hinj. destruct (PlaceSlaves_spec c Hempty Hall Hinj) as (c' & Heq & _ & Hs & _ & Hb). by exists c'.
  - intros s n ns Hns Hm. unfold PlaceSlaves. rewrite Hns.
    assert (range 21 ({[s := n :: ns]} : gmap string Nodes) = [(s, n :: ns)]) as ->.
    { apply Permutation_singleton_r. rewrite range_Permutation. by rewrite map_to_list_singleton. }
    cbn [PlaceSlaves_loop]. simpl. by rewrite Hm.
Qed.
End slaves.

(** ** Witnesses *)

(** One StatefulSet with a master that holds slots and a second node. *)
Definition demo_set : heap :=
  {[ 1%positive := demo_node "a" "ip1" [0; 1]; 2%positive := demo_node "b" "ip2" [] ]}.
Definition demo_set_ctx : Ctx :=
  mkCtx 1 "demo" (NewCluster "demo" "ns") {[ "drc-demo-0" := [1%positive; 2%positive] ]} [1%positive] ∅ ∅ false.

Lemma DispatchMasters_one_master_per_set_witness :
  ∃ c' e, @DispatchMasters range_default demo_set demo_set_ctx = Val (c', e) ∧
    (e = None → ∀ s m, newMastersBySts c' !! s = Some m → proper_master demo_set demo_set_ctx s m).
Proof.
  destruct (@DispatchMasters_one_master_per_set range_default demo_set demo_set_ctx)
    as (c' & e & Heq & _ & Hpost).
  - done.
  - done.
  - intros s ns Hs. change (({[ "drc-demo-0" := [1%positive; 2%positive] ]} : gmap string Nodes) !! s = Some ns) in Hs.
    by apply lookup_singleton_Some in Hs as [_ <-].
  - exists c', e. split; [exact Heq|]. intros He. apply (Hpost He).
Defined.

Lemma PlaceSlaves_attaches_each_set_witness :
  let c := demo_set_ctx <| newMastersBySts := {[ "drc-demo-0" := 1%positive ]} |> in
  ∃ c', @PlaceSlaves range_default demo_set c = Val (c', None) ∧
    slaves_of c' "a" = filter (to_attach demo_set 1%positive) [1%positive; 2%positive].
Proof.
  set (c := demo_set_ctx <| newMastersBySts := {[ "drc-demo-0" := 1%positive ]} |>). cbv zeta.
  destruct (@PlaceSlaves_attaches_each_set range_default demo_set c eq_refl) as [Hok _].
  destruct Hok as (c' & Heq & Hs & _).
  - intros s ns Hs. change (({[ "drc-demo-0" := [1%positive; 2%positive] ]} : gmap string Nodes) !! s = Some ns) in Hs.
    apply lookup_singleton_Some in Hs as [<- _]. by exists 1%positive.
  - intros s s' m m' Hs Hs' _. change (({[ "drc-demo-0" := 1%positive ]} : gmap string ptr) !! s = Some m) in Hs.
    change (({[ "drc-demo-0" := 1%positive ]} : gmap string ptr) !! s' = Some m') in Hs'.
    apply lookup_singleton_Some in Hs as [<- _]. by apply lookup_singleton_Some in Hs' as [<- _].
  - exists c'. split; [exact Heq|]. by apply (Hs "drc-demo-0" _ 1%positive).
Defined.
