(* ===== verification/Placement.v ===== *)
(** [pkg/controller/clustering/placement.go] and [DispatchMasters] of [migration.go]: the
    older placement, which spreads masters and slaves over machines without regard to
    their StatefulSets.  Nothing calls it any more. *)

From Stdlib Require Import ZArith Lia.
From S2P Require Import Prelude GoStrings Errors Slot Node ClusterInfo AdminInterface Groups Clustering.

Local Open Scope Z_scope.

Definition ClusterStatusCalculatingRebalancing : string := "Calculating Rebalancing".
Definition NodesPlacementInfoBestEffort : string := "BestEffort".
Definition NodesPlacementInfoOptimal : string := "Optimal".

Section placement.
Context `{MapRange} `{SortPkg}.
Implicit Types (h : heap) (rc : RedisCluster).

(** [sortRedisNodeByVM] *)
Definition vm_name (n : Node) : string := if decide (NodeName n ≠ "") then NodeName n else unknownVMName.
Definition sortRedisNodeByVM rc h (nodes : Nodes) : gmap string Nodes :=
  foldl (λ nodesByVM rnode,
    match Cluster_GetNodeByID rc (ID (h !!! rnode)) with
    | (Some cnode, None) => map_append nodesByVM (vm_name (h !!! cnode)) rnode
    | _ => nodesByVM
    end) ∅ nodes.

(** One round over the machines: whether it returned from the function, the selection,
    what is left of the machines, and [isProgress].  A machine's entry is only written
    when its own turn comes, so the round reads the lists it started from. *)
Fixpoint PlaceMasters_range (nbMaster : Z) (bestEffort : bool) (vmWithAlreadyMaster : gmap string Nodes)
    (entries : list (string * Nodes)) (selection : Nodes) (masterByVM : gmap string Nodes) (isProgress : bool)
    : bool * Nodes * gmap string Nodes * bool :=
  match entries with
  | [] => (false, selection, masterByVM, isProgress)
  | (vmName, nodes) :: rest =>
      let continue := PlaceMasters_range nbMaster bestEffort vmWithAlreadyMaster rest in
      if negb bestEffort && bool_decide (is_Some (vmWithAlreadyMaster !! vmName))
      then continue selection masterByVM isProgress
      else
        match nodes with
        | [] => continue selection masterByVM isProgress
        | n0 :: nodes' =>
            let selection := selection ++ [n0] in
            let masterByVM := <[vmName := nodes']> masterByVM in
            if decide (nbMaster ≤ Z.of_nat (length selection)) then (true, selection, masterByVM, true)
            else continue selection masterByVM true
        end
  end.

(** The loop of [PlaceMasters] and what follows it; [round] labels the rounds, whose
    orders may differ. *)
Definition PlaceMasters_end (nbMaster : Z) (selection : Nodes) (bestEffort : bool) : Nodes * bool * option error :=
  if decide (nbMaster ≤ Z.of_nat (length selection)) then (selection, bestEffort, None)
  else (selection, bestEffort, Some (ErrText "unable to found enough node for have the request number of master")).
Fixpoint PlaceMasters_loop (fuel : nat) (nbMaster : Z) (vmWithAlreadyMaster : gmap string Nodes) (bestEffort : bool)
    (selection : Nodes) (masterByVM : gmap string Nodes) : go (Nodes * bool * option error) :=
  if decide (Z.of_nat (length selection) < nbMaster) then
    match fuel with
    | O => Diverges
    | S fuel' =>
        match PlaceMasters_range nbMaster bestEffort vmWithAlreadyMaster (range (400 + fuel) masterByVM)
                selection masterByVM false with
        | (true, selection, _, _) => Val (selection, bestEffort, None)
        | (false, selection, masterByVM, isProgress) =>
            if bestEffort && negb isProgress then Val (PlaceMasters_end nbMaster selection bestEffort)
            else PlaceMasters_loop fuel' nbMaster vmWithAlreadyMaster true selection masterByVM
        end
    end
  else Val (PlaceMasters_end nbMaster selection bestEffort).

(** [PlaceMasters] *)
Definition PlaceMasters rc h (currentMaster allPossibleMasters : Nodes) (nbMaster : Z)
    : go (Nodes * bool * option error) :=
  let masterByVM := sortRedisNodeByVM rc h allPossibleMasters in
  let vmWithAlreadyMaster := sortRedisNodeByVM rc h currentMaster in
  let! selection :=
    (if decide (nbMaster < Z.of_nat (length currentMaster)) then
       if decide (nbMaster < 0) then Panics else Val (take (Z.to_nat nbMaster) currentMaster)
     else Val currentMaster) in
  PlaceMasters_loop (length allPossibleMasters + 2) nbMaster vmWithAlreadyMaster false selection masterByVM.

(** [DispatchMasters] of [migration.go]; the results are the cluster, the new masters, the
    current ones, all of them, and the error. *)
Definition DispatchMasters rc h (nodes : Nodes) (nbMaster : Z)
    : go (RedisCluster * Nodes * Nodes * Nodes * option error) :=
  let currentMasterNodes := FilterByFunc nodes (λ p, IsMasterWithSlot (h !!! p)) in
  let currentMasterWithNoSlot := FilterByFunc nodes (λ p, IsMasterWithNoSlot (h !!! p)) in
  let allMasterNodes := currentMasterNodes ++ currentMasterWithNoSlot in
  let! r := PlaceMasters rc h currentMasterNodes currentMasterWithNoSlot nbMaster in
  match r with
  | (_, _, Some err) =>
      Val (rc, [], [], [],
        Some (ErrText ("not enough master available current:" +:+ FormatInt (Z.of_nat (length allMasterNodes)) +:+
          " target:" +:+ FormatInt nbMaster +:+ ", err:" +:+ Error err)))
  | (newMasterNodesSmartSelection, besteffort, None) =>
      let newMasters := SortByFunc newMasterNodesSmartSelection (λ a b, LessByID (h !!! a) (h !!! b)) in
      Val (rc <| rc_Status := ClusterStatusCalculatingRebalancing |>
              <| rc_NodesPlacement := if (besteffort : bool) then NodesPlacementInfoBestEffort
                                      else NodesPlacementInfoOptimal |>,
           newMasters, currentMasterNodes, allMasterNodes, None)
  end.

(** [checkIfSameVM] *)
Definition checkIfSameVM rc h (redisID vmName : string) : bool :=
  let nodeVMName :=
    match Cluster_GetNodeByID rc redisID with
    | (Some vmNode, None) => NodeName (h !!! vmNode)
    | _ => unknownVMName
    end in
  bool_decide (vmName = nodeVMName).

(** [PlaceSlaves].  Its first loop computes lists without the old slaves and discards
    them.  A kept slave goes to its master; one in excess is dropped, after a nil
    dereference when the cluster does not know it. *)
Fixpoint keep_old_slave rc h (replicationFactor : Z) (slave : ptr) (masters : Nodes)
    (slavesByMaster : gmap string Nodes) : go (gmap string Nodes) :=
  match masters with
  | [] => Val slavesByMaster
  | master :: masters' =>
      let referent := MasterReferent (h !!! slave) in
      if decide (referent = ID (h !!! master)) then
        if decide (replicationFactor ≤ Z.of_nat (length (default [] (slavesByMaster !! referent)))) then
          match (Cluster_GetNodeByID rc (ID (h !!! slave))).2 with
          | Some _ => Panics
          | None => keep_old_slave rc h replicationFactor slave masters' slavesByMaster
          end
        else Val (map_append slavesByMaster referent slave)
      else keep_old_slave rc h replicationFactor slave masters' slavesByMaster
  end.
Fixpoint keep_old_slaves rc h (replicationFactor : Z) (masters oldSlaves : Nodes)
    (slavesByMaster : gmap string Nodes) : go (gmap string Nodes) :=
  match oldSlaves with
  | [] => Val slavesByMaster
  | slave :: rest =>
      let! slavesByMaster := keep_old_slave rc h replicationFactor slave masters slavesByMaster in
      keep_old_slaves rc h replicationFactor masters rest slavesByMaster
  end.

(** Whether the machine already hosts a slave of the list. *)
Fixpoint vm_used rc h (vmName : string) (currentSlaves : Nodes) : bool :=
  match currentSlaves with
  | [] => false
  | currentSlave :: rest =>
      match Cluster_GetNodeByID rc (ID (h !!! currentSlave)) with
      | (Some vmSlaveNode, None) =>
          if decide (vmName = NodeName (h !!! vmSlaveNode)) then true else vm_used rc h vmName rest
      | _ => vm_used rc h vmName rest
      end
  end.
(** The first master that has room for a slave on the machine. *)
Fixpoint find_master rc h (replicationFactor : Z) (vmName : string) (entries : list (string * Nodes)) : option string :=
  match entries with
  | [] => None
  | (idMaster, currentSlaves) :: rest =>
      if decide (replicationFactor ≤ Z.of_nat (length currentSlaves)) then find_master rc h replicationFactor vmName rest
      else if checkIfSameVM rc h idMaster vmName then find_master rc h replicationFactor vmName rest
      else if vm_used rc h vmName currentSlaves then find_master rc h replicationFactor vmName rest
      else Some idMaster
  end.
(** The first master with room. *)
Fixpoint find_room (replicationFactor : Z) (entries : list (string * Nodes)) : option string :=
  match entries with
  | [] => None
  | (masterID, slaves) :: rest =>
      if decide (replicationFactor ≤ Z.of_nat (length slaves)) then find_room replicationFactor rest else Some masterID
  end.

(** The slaves of the machines, one after the other, with the number of those before;
    and the slaves without a place. *)
Definition spread_slave rc h (replicationFactor : Z) (acc : nat * gmap string Nodes * gmap string Nodes)
    (e : string * ptr) : nat * gmap string Nodes * gmap string Nodes :=
  let '(n, slavesByMaster, notUsed) := acc in
  match find_master rc h replicationFactor e.1 (range (1000 + 2 * n) slavesByMaster) with
  | Some idMaster => (S n, map_append slavesByMaster idMaster e.2, notUsed)
  | None => (S n, slavesByMaster, map_append notUsed e.1 e.2)
  end.
Definition place_left (replicationFactor : Z) (acc : nat * gmap string Nodes) (freeSlave : ptr) : nat * gmap string Nodes :=
  let (n, slavesByMaster) := acc in
  match find_room replicationFactor (range (1001 + 2 * n) slavesByMaster) with
  | Some masterID => (S n, map_append slavesByMaster masterID freeSlave)
  | None => (S n, slavesByMaster)
  end.
Definition PlaceSlaves rc h (masters oldSlaves newSlaves : Nodes) (replicationFactor : Z)
    : go (gmap string Nodes * bool) :=
  let newSlavesByVM := sortRedisNodeByVM rc h newSlaves in
  let slavesByMaster := foldl (λ m node, <[ID (h !!! node) := []]> m) (∅ : gmap string Nodes) masters in
  let! slavesByMaster := keep_old_slaves rc h replicationFactor masters oldSlaves slavesByMaster in
  let '(_, slavesByMaster, notUsed) :=
    foldl (λ acc e, foldl (λ acc p, spread_slave rc h replicationFactor acc (e.1, p)) acc e.2)
      (0%nat, slavesByMaster, ∅) (range 41 newSlavesByVM) in
  Val ((foldl (λ acc e, foldl (place_left replicationFactor) acc e.2) (0%nat, slavesByMaster) (range 42 notUsed)).2,
       negb (bool_decide (notUsed = ∅))).
End placement.

(** ** One round over the machines *)

Section round.
Context `{MapRange}.
Variables (nb : Z) (be : bool) (taken : gmap string Nodes).
Implicit Types (es : list (string * Nodes)) (sel : Nodes) (m : gmap string Nodes).

(** The machines a round takes a node from. *)
Definition open_machine (vm : string) : Prop := be = true ∨ taken !! vm = None.
#[export] Instance open_machine_dec vm : Decision (open_machine vm).
Proof. unfold open_machine. apply _. Defined.
(** The nodes it offers: the first of every such machine. *)
Definition offers es : Nodes := omap (λ e, if decide (open_machine e.1) then head e.2 else None) es.

Lemma closed_machine vm : negb be && bool_decide (is_Some (taken !! vm)) = true ↔ ¬ open_machine vm.
Proof.
  unfold open_machine. rewrite andb_true_iff, negb_true_iff, bool_decide_eq_true, <- not_eq_None_Some.
  destruct be; naive_solver.
Qed.

(** A round appends the nodes on offer until there are enough, and what it takes it
    removes from the machines. *)
Lemma PlaceMasters_range_spec es sel m pr :
  Z.of_nat (length sel) < nb → NoDup es.*1 → (∀ vm ns, (vm, ns) ∈ es → m !! vm = Some ns) →
  let k := Z.to_nat (nb - Z.of_nat (length sel)) in
  ∃ m', PlaceMasters_range nb be taken es sel m pr =
      (bool_decide (k ≤ length (offers es))%nat, sel ++ take k (offers es), m',
       pr || bool_decide (offers es ≠ [])) ∧
    (sel ++ take k (offers es)) ++ map_slots m' ≡ₚ sel ++ map_slots m.
Proof.
  revert sel m pr. induction es as [|[vm ns] es IH]; intros sel m pr Hlen Hnd Hm; cbv zeta.
  { exists m. cbn [PlaceMasters_range offers omap list_omap length]. rewrite take_nil, app_nil_r.
    rewrite bool_decide_eq_false_2 by lia. by rewrite orb_false_r. }
  rewrite fmap_cons in Hnd. apply NoDup_cons in Hnd as [Hvm Hnd]. cbn [fst] in Hvm.
  cbn [PlaceMasters_range]. destruct (negb be && _) eqn:Hcl.
  { apply closed_machine in Hcl. destruct (IH sel m pr) as (m' & -> & Hperm); [done|done|intros; apply Hm; by right|].
    exists m'. unfold offers in *. cbn [omap list_omap fst]. by rewrite decide_False by done. }
  assert (open_machine vm) as Hop. { apply dec_stable. rewrite <- closed_machine. by rewrite Hcl. }
  assert (offers ((vm, ns) :: es) = match ns with [] => offers es | n0 :: _ => n0 :: offers es end) as ->.
  { unfold offers. cbn [omap list_omap fst snd]. rewrite decide_True by done. by destruct ns. }
  destruct ns as [|n0 ns]; [apply IH; [done|done|intros; apply Hm; by right]|].
  assert (m !! vm = Some (n0 :: ns)) as Hvm' by (apply Hm; by left).
  assert ((sel ++ [n0]) ++ map_slots (<[vm := ns]> m) ≡ₚ sel ++ map_slots m) as Hmove.
  { rewrite map_slots_insert, (map_slots_delete m vm _ Hvm'), <- (assoc_L (++)). done. }
  rewrite length_app. cbn [length]. case_decide as Henough.
  - exists (<[vm := ns]> m). replace (Z.to_nat _) with 1%nat by lia. cbn [take length].
    rewrite bool_decide_eq_true_2 by lia. split; [by destruct pr|]. by rewrite take_0.
  - replace (Z.to_nat (nb - Z.of_nat (length sel))) with (S (Z.to_nat (nb - Z.of_nat (length (sel ++ [n0])))))
      by (rewrite length_app; simpl; lia).
    destruct (IH (sel ++ [n0]) (<[vm := ns]> m) true) as (m' & -> & Hperm).
    { rewrite length_app. simpl. lia. } { done. }
    { intros vm' ns' Hin. rewrite lookup_insert_ne; [apply Hm; by right|]. intros ->. apply Hvm.
      apply list_elem_of_fmap. by exists (vm', ns'). }
    exists m'. cbn [take length]. rewrite <- Hmove, <- Hperm. rewrite <- !(assoc_L (++)). split; [|done].
    erewrite bool_decide_ext; [by destruct pr|lia].
Qed.
End round.

(** ** The selection of the masters *)

Section selection.
Context `{MapRange}.
Implicit Types (es : list (string * Nodes)) (sel cur free : Nodes) (m : gmap string Nodes) (h : heap).

Lemma elem_of_offers be taken es p :
  p ∈ offers be taken es ↔ ∃ vm ns, (vm, ns) ∈ es ∧ open_machine be taken vm ∧ head ns = Some p.
Proof.
  unfold offers. rewrite list_elem_of_omap. split.
  - intros ([vm ns] & Hin & Hp). cbn [fst snd] in Hp. case_decide; [|done]. eauto.
  - intros (vm & ns & Hin & Ho & Hp). exists (vm, ns). split; [done|]. cbn [fst snd]. by rewrite decide_True.
Qed.

Lemma offers_all taken site m : offers true taken (range site m) = [] → map_slots m = [].
Proof.
  intros Hno. destruct (map_slots m) as [|p l] eqn:E; [done|].
  assert (p ∈ map_slots m) as Hp by (rewrite E; by left). apply elem_of_map_slots in Hp as (vm & ns & Hvm & Hp).
  destruct ns as [|n0 ns]; [by apply elem_of_nil in Hp|].
  assert (n0 ∈ offers true taken (range site m)) as Hin.
  { apply elem_of_offers. exists vm, (n0 :: ns). split_and!; [by apply elem_of_range|by left|done]. }
  rewrite Hno in Hin. by apply elem_of_nil in Hin.
Qed.

(** What a result of the loop says: from [sel] and the nodes [rest] it selected as many
    as asked, or all of them. *)
Definition selected (nb : Z) sel (rest : Nodes) (sel' : Nodes) (err : option error) : Prop :=
  (∃ picked left, sel' = sel ++ picked ∧ picked ++ left ≡ₚ rest) ∧
  (err = None ↔ nb ≤ Z.of_nat (length sel) + Z.of_nat (length rest)) ∧
  (err = None → Z.of_nat (length sel') = nb).

Lemma selected_more nb sel picked rest rest' sel' err :
  picked ++ rest' ≡ₚ rest → selected nb (sel ++ picked) rest' sel' err → selected nb sel rest sel' err.
Proof.
  intros Hp ((more & left & -> & Hl) & Herr & Hlen). split_and!; [|rewrite Herr|done].
  - exists (picked ++ more), left. rewrite <- !(assoc_L (++)). split; [done|]. by rewrite <- Hp, <- Hl.
  - rewrite <- Hp, !length_app. lia.
Qed.

Lemma loop_round nb be taken fuel sel m site :
  Z.of_nat (length sel) < nb →
  let es := range site m in
  let k := Z.to_nat (nb - Z.of_nat (length sel)) in
  ∃ m', PlaceMasters_range nb be taken es sel m false =
      (bool_decide (k ≤ length (offers be taken es))%nat, sel ++ take k (offers be taken es), m',
       bool_decide (offers be taken es ≠ [])) ∧
    take k (offers be taken es) ++ map_slots m' ≡ₚ map_slots m ∧
    (length (map_slots m) ≤ fuel → offers be taken es ≠ [] → length (map_slots m') < fuel)%nat.
Proof.
  intros Hlen es k. destruct (PlaceMasters_range_spec nb be taken es sel m false) as (m' & Heq & Hperm);
    [done|apply range_NoDup_keys|by intros vm ns ?%elem_of_range|].
  rewrite <- (assoc_L (++)) in Hperm. apply Permutation_app_inv_l in Hperm. exists m'. split_and!; [done..|].
  intros Hf Hne. rewrite <- Hperm, length_app, length_take in Hf. fold k in Hf.
  destruct (offers be taken es); [done|]. cbn [length] in Hf. lia.
Qed.

(** Enough fuel for the rounds in best effort: each takes a node or is the last. *)
Lemma loop_best_effort nb taken fuel sel m :
  Z.of_nat (length sel) ≤ nb → (length (map_slots m) < fuel)%nat →
  ∃ sel' err, PlaceMasters_loop fuel nb taken true sel m = Val (sel', true, err) ∧
    selected nb sel (map_slots m) sel' err.
Proof.
  revert sel m. induction fuel as [|fuel IH]; intros sel m Hlen Hfuel; [lia|]. cbn [PlaceMasters_loop].
  assert (Z.of_nat (length sel) = nb → selected nb sel (map_slots m) sel None) as Hdone.
  { intros Heq. split_and!; [exists [], (map_slots m); by rewrite app_nil_r|split; [lia|done]|done]. }
  case_decide as Hlt.
  2: { exists sel, None. unfold PlaceMasters_end. rewrite decide_True by lia. split; [done|]. apply Hdone. lia. }
  destruct (loop_round nb true taken fuel sel m (400 + S fuel) Hlt) as (m' & -> & Hperm & Hm').
  set (os := offers true taken _) in *. set (k := Z.to_nat _) in *.
  case_bool_decide as Hk.
  { exists (sel ++ take k os), None. split; [done|]. split_and!; [by exists (take k os), (map_slots m')| |].
    - split; [intros _|done]. rewrite <- Hperm, length_app, length_take. lia.
    - intros _. rewrite length_app, length_take. lia. }
  rewrite take_ge in * by lia. case_bool_decide as Hos; cbn [andb negb].
  - destruct (IH (sel ++ os) m') as (sel' & err & -> & Hsel); [rewrite length_app; lia|apply Hm'; [lia|done]|].
    exists sel', err. split; [done|]. by eapply selected_more.
  - assert (os = []) as Hnil by (destruct os; [done|]; by destruct Hos). assert (map_slots m = []) as Hm by by eapply offers_all.
    rewrite Hnil, app_nil_r. unfold PlaceMasters_end. rewrite decide_False by lia. eexists _, _. split; [done|].
    rewrite Hm. split_and!; [exists [], []; by rewrite app_nil_r|split; [done|simpl; lia]|done].
Qed.
End selection.

Section machines.
Context `{MapRange}.
Variables (rc : RedisCluster) (h : heap).
Implicit Types (es : list (string * Nodes)) (cur free l : Nodes).

Definition vm_of (p : ptr) : string := vm_name (h !!! p).
Definition vms l : gset string := list_to_set (vm_of <$> l).

Lemma sortRedisNodeByVM_eq l :
  indexes rc h l → sortRedisNodeByVM rc h l = foldl (λ m p, map_append m (vm_of p) p) ∅ l.
Proof.
  unfold sortRedisNodeByVM. generalize (∅ : gmap string Nodes). induction l as [|p l IH]; intros m Hix; [done|].
  cbn [foldl]. unfold Cluster_GetNodeByID at 2. rewrite Hix by (by left). apply IH. intros q Hq. apply Hix. by right.
Qed.

Lemma offers_machines be taken es :
  (∀ vm ns, (vm, ns) ∈ es → ns ≠ [] ∧ ∀ p, p ∈ ns → vm_of p = vm) →
  vm_of <$> offers be taken es = filter (open_machine be taken) es.*1.
Proof.
  induction es as [|[vm ns] es IH]; intros Hes; [done|]. unfold offers in *. cbn [omap list_omap fst snd fmap list_fmap].
  destruct (Hes vm ns) as [Hne Hvm]; [by left|]. destruct ns as [|n0 ns]; [done|].
  rewrite filter_cons, <- (IH ltac:(intros; apply Hes; by right)).
  destruct (decide (open_machine be taken vm)); [|done]. cbn [head fmap list_fmap]. f_equal. apply Hvm. by left.
Qed.

(** Without best effort, a round offers one node of each machine without current master. *)
Lemma offers_spread cur free site :
  indexes rc h cur → indexes rc h free →
  let os := offers false (sortRedisNodeByVM rc h cur) (range site (sortRedisNodeByVM rc h free)) in
  length os = size (vms free ∖ vms cur) ∧ NoDup (vm_of <$> os) ∧ ∀ p, p ∈ os → p ∈ free ∧ vm_of p ∉ vms cur.
Proof.
  intros Hcur Hfree. rewrite !sortRedisNodeByVM_eq by done. intros os.
  assert (∀ l vm ns, foldl (λ m p, map_append m (vm_of p) p) ∅ l !! vm = Some ns ↔ ns = group vm_of l vm ∧ ns ≠ []) as Hlk.
  { intros l vm ns. rewrite foldl_map_append, lookup_empty. simpl. destruct (group vm_of l vm); naive_solver. }
  assert (∀ l vm, group vm_of l vm ≠ [] ↔ vm ∈ vms l) as Hvms.
  { intros l vm. unfold vms, group. rewrite elem_of_list_to_set, list_elem_of_fmap. split.
    - destruct (filter _ l) as [|p ps] eqn:E; [done|]. intros _.
      assert (p ∈ filter (λ x, vm_of x = vm) l) as [? ?]%list_elem_of_filter by (rewrite E; by left). by exists p.
    - intros (p & -> & Hp) Hnil. assert (p ∈ filter (λ x, vm_of x = vm_of p) l) as Hin by by apply list_elem_of_filter.
      rewrite Hnil in Hin. by apply elem_of_nil in Hin. }
  set (taken := foldl _ _ cur) in *.
  assert (∀ vm, open_machine false taken vm ↔ vm ∉ vms cur) as Hopen.
  { intros vm. unfold open_machine. rewrite <- Hvms. unfold taken. rewrite eq_None_not_Some. unfold is_Some.
    setoid_rewrite Hlk. naive_solver. }
  assert (vm_of <$> os = filter (open_machine false taken) (range site (foldl (λ m p, map_append m (vm_of p) p) ∅ free)).*1) as Heq.
  { apply offers_machines. intros vm ns Hin%elem_of_range. apply Hlk in Hin as [-> Hne]. split; [done|].
    intros p Hp. by apply list_elem_of_filter in Hp as [? _]. }
  assert (NoDup (vm_of <$> os)) as Hnd by (rewrite Heq; apply NoDup_filter, range_NoDup_keys).
  split_and!; [|done|].
  - rewrite <- (length_fmap vm_of), <- (size_list_to_set (C := gset string)) by done. f_equal. apply leibniz_equiv. intros vm.
    rewrite elem_of_list_to_set, elem_of_difference, Heq, list_elem_of_filter, Hopen, list_elem_of_fmap, <- (Hvms free). split.
    + intros [? ([vm' ns] & -> & Hin%elem_of_range)]. apply Hlk in Hin as [-> Hne]. done.
    + intros [Hne ?]. split; [done|]. eexists (vm, _). split; [done|]. apply elem_of_range, Hlk. done.
  - intros p (vm & ns & Hin%elem_of_range & Ho & Hhd)%elem_of_offers. apply Hlk in Hin as [-> Hne].
    assert (p ∈ group vm_of free vm) as Hp by (apply head_Some_elem_of; done).
    apply list_elem_of_filter in Hp as [<- Hp]. split; [done|]. by apply Hopen.
Qed.

Lemma PlaceMasters_selects cur free nb :
  0 ≤ nb → indexes rc h cur → indexes rc h free →
  let start := take (Z.to_nat nb) cur in
  ∃ sel be err, PlaceMasters rc h cur free nb = Val (sel, be, err) ∧
    selected nb start free sel err ∧
    (be = false ↔ nb ≤ Z.of_nat (length cur) + Z.of_nat (size (vms free ∖ vms cur))) ∧
    (be = false → ∃ os, sel = start ++ os ∧ NoDup (vm_of <$> os) ∧ ∀ p, p ∈ os → p ∈ free ∧ vm_of p ∉ vms cur).
Proof.
  intros Hnb Hcur Hfree start. unfold PlaceMasters.
  set (loop := PlaceMasters_loop _ nb _ false).
  replace (go_bind _ _) with (loop start (sortRedisNodeByVM rc h free)).
  2: { unfold start. case_decide; [rewrite decide_False by lia; done|]. by rewrite take_ge by lia. }
  unfold loop. replace (length free + 2)%nat with (S (S (length free))) by lia. cbn [PlaceMasters_loop].
  assert (Z.of_nat (length start) = Z.min nb (Z.of_nat (length cur))) as Hstart by (unfold start; rewrite length_take; lia).
  assert (map_slots (sortRedisNodeByVM rc h free) ≡ₚ free) as Hflat.
  { rewrite sortRedisNodeByVM_eq by done. by rewrite map_slots_group, map_slots_empty, app_nil_r. }
  case_decide as Hlt.
  2: { unfold PlaceMasters_end. rewrite decide_True by lia. eexists _, _, _. split; [done|]. split; [|split].
    - split_and!; [exists [], free; by rewrite app_nil_r|split; [lia|done]|lia].
    - split; [lia|done].
    - intros _. exists []. rewrite app_nil_r. split_and!; [done|constructor|by intros ? ?%elem_of_nil]. }
  destruct (loop_round nb false (sortRedisNodeByVM rc h cur) (S (length free)) start (sortRedisNodeByVM rc h free)
    (400 + S (S (length free))) Hlt) as (m' & -> & Hperm & _).
  destruct (offers_spread cur free (400 + S (S (length free))) Hcur Hfree) as (Hsize & Hnd & Hos).
  set (os := offers _ _ _) in *. set (k := Z.to_nat (nb - _)) in *. rewrite Hflat in Hperm.
  pose proof (f_equal length (take_drop k os)) as Htd. rewrite length_app, length_take in Htd.
  case_bool_decide as Hk.
  - eexists _, _, _. split; [done|]. split; [|split].
    + split_and!; [by exists (take k os), (map_slots m')| |intros _; rewrite length_app, length_take; lia].
      split; [intros _|done]. rewrite <- Hperm, length_app, length_take. lia.
    + split; [lia|done].
    + intros _. exists (take k os). split_and!; [done| |].
      * rewrite fmap_take. by apply NoDup_take.
      * intros p Hp. apply Hos. rewrite <- (take_drop k os). apply elem_of_app. by left.
  - rewrite take_ge in * by lia. cbn [andb].
    destruct (loop_best_effort nb (sortRedisNodeByVM rc h cur) (S (length free)) (start ++ os) m') as (sel & err & Heq & Hsel).
    { rewrite length_app. lia. } { pose proof (Permutation_length Hperm) as Hl. rewrite length_app in Hl. lia. }
    exists sel, true, err. split; [exact Heq|]. split; [|split]; [by eapply selected_more|split; [done|lia]|done].
Qed.
End machines.

Section dispatch.
Context `{MapRange} `{SortPkg}.
Implicit Types (rc : RedisCluster) (h : heap).

Lemma indexes_sub rc h l l' : (∀ p, p ∈ l' → p ∈ l) → indexes rc h l → indexes rc h l'.
Proof. intros Hl Hix p Hp. by apply Hix, Hl. Qed.

(** C26: the older [DispatchMasters], on nodes the cluster knows, always returns.  It
    succeeds exactly when there are as many masters, with or without slots, as asked.
    Then it selects that many, without repetition, sorted by ID, and takes masters
    without slots only when all those with slots are taken.  The placement is reported
    as optimal exactly when the machines without a slot holder are enough for the new
    ones, and then no new master shares its machine with another selected one. *)
Theorem DispatchMasters_spreads rc h nodes nb :
  NoDup nodes → indexes rc h nodes → 0 ≤ nb →
  let cur := filter (λ p, IsMasterWithSlot (h !!! p) = true) nodes in
  let free := filter (λ p, IsMasterWithNoSlot (h !!! p) = true) nodes in
  ∃ rc' new cur' all err, DispatchMasters rc h nodes nb = Val (rc', new, cur', all, err) ∧
    (err = None ↔ nb ≤ Z.of_nat (length cur) + Z.of_nat (length free)) ∧
    (err = None →
       cur' = cur ∧ all = cur ++ free ∧
       NoDup new ∧ Z.of_nat (length new) = nb ∧ (∀ p, p ∈ new → p ∈ cur ++ free) ∧
       StronglySorted (λ p q, LessByID (h !!! q) (h !!! p) = false) new ∧
       (∀ p q, p ∈ new → p ∉ cur → q ∈ cur → q ∈ new) ∧
       (rc_NodesPlacement rc' = NodesPlacementInfoOptimal ↔
          nb ≤ Z.of_nat (length cur) + Z.of_nat (size (vms h free ∖ vms h cur))) ∧
       (rc_NodesPlacement rc' = NodesPlacementInfoOptimal → ∀ p q, p ∈ new → q ∈ new → p ∉ cur →
          vm_of h p = vm_of h q → p = q)).
Proof.
  intros Hnd Hix Hnb cur free. unfold DispatchMasters. rewrite !FilterByFunc_filter. fold cur free.
  assert (indexes rc h cur ∧ indexes rc h free) as [Hcur Hfree].
  { split; (eapply indexes_sub; [|exact Hix]); by intros p [_ ?]%list_elem_of_filter. }
  assert (NoDup (cur ++ free)) as Hndcf.
  { apply NoDup_app. split_and!; [by apply NoDup_filter| |by apply NoDup_filter].
    intros p [Hp _]%list_elem_of_filter [Hq _]%list_elem_of_filter. unfold IsMasterWithSlot, IsMasterWithNoSlot in Hp, Hq.
    destruct (bool_decide _); simpl in Hp, Hq; [lia|done]. }
  destruct (PlaceMasters_selects rc h cur free nb Hnb Hcur Hfree) as (sel & be & err & -> & Hsel & Hbe & Hos).
  set (start := take (Z.to_nat nb) cur) in *.
  assert (Z.of_nat (length start) = Z.min nb (Z.of_nat (length cur))) as Hstart by (unfold start; rewrite length_take; lia).
  assert (err = None ↔ nb ≤ Z.of_nat (length cur) + Z.of_nat (length free)) as Herr.
  { destruct Hsel as (_ & -> & _). lia. }
  cbn [go_bind]. destruct err as [err|].
  { eexists _, _, _, _, _. split; [done|]. split; [|done]. split; [done|]. intros Hle. by apply Herr in Hle. }
  eexists _, _, _, _, _. split; [done|]. split; [done|]. intros _. cbn [rc_NodesPlacement set_field].
  destruct Hsel as ((picked & left & -> & Hperm) & _ & Hlen). specialize (Hlen eq_refl).
  set (new := SortByFunc _ _). assert (new ≡ₚ start ++ picked) as Hnew by apply sort_by_Permutation.
  assert (start ++ picked ⊆+ cur ++ free) as Hsub.
  { apply submseteq_app; [apply sublist_submseteq, sublist_take|]. rewrite <- Hperm. by apply submseteq_inserts_r. }
  assert (NoDup (start ++ picked)) as Hndsp.
  { destruct (submseteq_Permutation _ _ Hsub) as [rest Hrest]. rewrite Hrest in Hndcf. by apply NoDup_app in Hndcf as [? _]. }
  assert (∀ p, p ∈ start → p ∈ cur) as Hsc.
  { intros p Hp. rewrite <- (take_drop (Z.to_nat nb) cur). apply elem_of_app. by left. }
  assert (picked ≠ [] → start = cur) as Hall.
  { intros Hne. rewrite length_app in Hlen. destruct picked; [done|]. simpl in Hlen. apply take_ge. lia. }
  split_and!; [done..|by rewrite Hnew|by rewrite Hnew| | | | |].
  - intros p Hp. rewrite Hnew in Hp. by eapply elem_of_submseteq.
  - apply sort_by_Sorted, (strict_weak_string_less (λ p, ID (h !!! p))).
  - intros p q Hp Hno Hq. rewrite Hnew, elem_of_app in *. left. rewrite Hall; [done|].
    intros ->. destruct Hp as [Hp|Hp]; [by apply Hno, Hsc|by apply elem_of_nil in Hp].
  - rewrite <- Hbe. by destruct be.
  - intros Hopt. destruct be; [done|]. destruct (Hos eq_refl) as (os & Heq & Hvms & Hin). apply app_inv_head in Heq as ->.
    intros p q Hp Hq Hno Heq. rewrite Hnew, elem_of_app in Hp, Hq. destruct Hp as [Hp|Hp]; [by destruct Hno; apply Hsc|].
    destruct Hq as [Hq|Hq]; [|by eapply (NoDup_fmap_inj_on (vm_of h))].
    destruct (Hin p Hp) as [_ Hvm]. destruct Hvm. rewrite Heq. apply elem_of_list_to_set, list_elem_of_fmap_2. auto.
Qed.
End dispatch.

(** ** The slaves *)

Section slaves.
Context `{MapRange}.
Variables (rc : RedisCluster) (h : heap) (rf : Z).
Implicit Types (m : gmap string Nodes).

(** No master has more slaves than asked. *)
Definition within m : Prop := ∀ id l, m !! id = Some l → Z.of_nat (length l) ≤ Z.max 0 rf.

Lemma within_append m id p :
  within m → Z.of_nat (length (default [] (m !! id))) < rf → within (map_append m id p).
Proof.
  intros Hm Hroom id' l. unfold map_append. destruct (decide (id = id')) as [<-|Hne].
  - rewrite lookup_insert_eq. intros [= <-]. rewrite length_app. simpl. lia.
  - rewrite lookup_insert_ne by done. apply Hm.
Qed.
Lemma find_master_room vm es m id :
  (∀ k l, (k, l) ∈ es → m !! k = Some l) → find_master rc h rf vm es = Some id →
  Z.of_nat (length (default [] (m !! id))) < rf.
Proof.
  induction es as [|[k l] es IH]; intros Hes; cbn [find_master]; [done|].
  assert (∀ k l, (k, l) ∈ es → m !! k = Some l) as Hes' by (intros; apply Hes; by right).
  repeat (case_match; [by apply IH|]). intros [= <-]. rewrite (Hes k l) by (by left). simpl. lia.
Qed.
Lemma find_room_room es m id :
  (∀ k l, (k, l) ∈ es → m !! k = Some l) → find_room rf es = Some id →
  Z.of_nat (length (default [] (m !! id))) < rf.
Proof.
  induction es as [|[k l] es IH]; intros Hes; cbn [find_room]; [done|].
  case_match; [apply IH; intros; apply Hes; by right|]. intros [= <-]. rewrite (Hes k l) by (by left). simpl. lia.
Qed.

Lemma keep_old_slaves_within masters olds m m' :
  within m → keep_old_slaves rc h rf masters olds m = Val m' → within m'.
Proof.
  revert m. induction olds as [|p olds IH]; intros m Hm; cbn [keep_old_slaves]; [by intros [= <-]|].
  intros (m1 & Hk & Hrest)%go_bind_Val. apply (IH m1); [|done]. clear IH Hrest.
  induction masters as [|q masters IH]; cbn [keep_old_slave] in Hk; [by simplify_eq|].
  case_decide; [|by apply IH]. case_decide as Hfull; [case_match; [done|by apply IH]|]. simplify_eq.
  apply within_append; [done|lia].
Qed.

Lemma foldl_inv {A B} (P : A → Prop) (f : A → B → A) l a : P a → (∀ a b, P a → P (f a b)) → P (foldl f a l).
Proof. revert a. induction l as [|b l IH]; intros a Ha Hf; [done|]. apply IH; auto. Qed.

(** A slave in excess that the cluster does not know makes [PlaceSlaves] panic; when it
    returns, no master has more slaves than asked. *)
Lemma PlaceSlaves_within masters olds news m b :
  PlaceSlaves rc h masters olds news rf = Val (m, b) → within m.
Proof.
  unfold PlaceSlaves. intros (m0 & Hold & Heq)%go_bind_Val.
  eapply keep_old_slaves_within in Hold.
  2: { apply (foldl_inv within); [by intros id l|]. intros m1 p Hm1 id l.
       rewrite lookup_insert_Some. intros [[_ <-]|[_ ?]]; [simpl; lia|by eapply Hm1]. }
  set (spread := foldl _ (0%nat, m0, ∅) _) in Heq.
  assert (within spread.1.2) as Hs.
  { apply (foldl_inv (λ acc, within acc.1.2)); [done|]. intros acc e Hacc. apply (foldl_inv (λ acc, within acc.1.2)); [done|].
    intros [[n m1] nu] p Hm1. cbn [fst snd] in Hm1. unfold spread_slave.
    destruct (find_master _ _ _ _ _) as [id|] eqn:Hf; [|done]. apply within_append; [done|].
    eapply find_master_room; [|exact Hf]. by intros k l ?%elem_of_range. }
  destruct spread as [[n m1] nu]. cbn [fst snd] in Hs. injection Heq as <- _.
  apply (foldl_inv (λ acc, within acc.2)); [done|]. intros acc e Hacc. apply (foldl_inv (λ acc, within acc.2)); [done|].
  intros [n' m2] p Hm2. cbn [snd] in Hm2. unfold place_left.
  destruct (find_room _ _) as [id|] eqn:Hf; [|done]. apply within_append; [done|].
  eapply find_room_room; [|exact Hf]. by intros k l ?%elem_of_range.
Qed.
End slaves.

(** ** Three masters on two machines *)

Definition demo_machines : heap :=
  {[ 1%positive := (demo_node "a" "ip1" [0; 1]) <| NodeName := "m1" |>; 2%positive := (demo_node "b" "ip2" []) <| NodeName := "m1" |>;
     3%positive := (demo_node "c" "ip3" []) <| NodeName := "m2" |> ]}.
Definition demo_known : RedisCluster :=
  (NewCluster "demo" "ns") <| rc_Nodes := {[ "a" := 1%positive; "b" := 2%positive; "c" := 3%positive ]} |>.

(** The slave in excess. *)
Example PlaceSlaves_unknown_slave :
  @PlaceSlaves range_default (demo_known <| rc_Nodes := ∅ |>)
    (heap_upd (λ n, n <| MasterReferent := "a" |>) 2%positive demo_machines) [1%positive] [2%positive] [] 0 = Panics.
Proof. vm_compute. reflexivity. Qed.

Lemma DispatchMasters_spreads_witness :
  ∃ rc' new cur' all,
    @DispatchMasters range_default sort_default demo_known demo_machines [1%positive; 2%positive; 3%positive] 2 =
      Val (rc', new, cur', all, None) ∧
    ∀ p q, p ∈ new → q ∈ new → p ∉ [1%positive] → vm_of demo_machines p = vm_of demo_machines q → p = q.
Proof.
  destruct (@DispatchMasters_spreads range_default sort_default demo_known demo_machines
    [1%positive; 2%positive; 3%positive] 2) as (rc' & new & cur' & all & err & Heq & Herr & Hpost).
  - by apply (bool_decide_unpack (NoDup [1%positive; 2%positive; 3%positive])).
  - intros p Hp. assert (p = 1%positive ∨ p = 2%positive ∨ p = 3%positive) as Hc by set_solver.
    destruct Hc as [->|[->| ->]]; reflexivity.
  - discriminate.
  - assert (err = None) as -> by (apply Herr; vm_compute; discriminate).
    exists rc', new, cur', all. split; [exact Heq|]. destruct (Hpost eq_refl) as (_ & _ & _ & _ & _ & _ & _ & Hopt & Hspread).
    apply Hspread, Hopt. vm_compute. discriminate.
Defined.
