(* ===== verification/Migration.v ===== *)
(** [pkg/controller/clustering/migration.go]: which slots move from which master
    to which when the set of masters changes, and the migration itself.

    The code only logs in [buildSlotsByNode] after the computation; the log is left
    out.  In [DispatchSlotToNewMasters], the bill of materials (the [Slots] of the
    nodes) is updated in the heap as the migrations succeed. *)

From Stdlib Require Import ZArith Lia.
From S2P Require Import Prelude GoStrings GoFloat Errors Slot Node ClusterInfo AdminInterface.
From S2P Require Import Groups Clustering.

Local Open Scope Z_scope.

(** [redisv1alpha1.ClusterStatusRebalancing] *)
Definition ClusterStatusRebalancing : string := "Rebalancing".

(** [migrationInfo] (a nil [From] is [None]) and [mapSlotByMigInfo]. *)
Abbreviation migrationInfo := (option ptr * ptr)%type (only parsing).
Abbreviation mapSlotByMigInfo := (gmap (option positive * positive) (list Slot)).

Section migration.
Context `{MapRange} `{SortPkg}.
Implicit Types (h : heap).

(** The loops of [retrieveSlotToMigrateFrom]. *)
Fixpoint retrieveSlotToMigrateFrom_loop h (oldMasterNodes : Nodes) (nbSlotByNode : Z)
    (acc : gmap string (list Slot)) : gmap string (list Slot) :=
  match oldMasterNodes with
  | [] => acc
  | node :: rest =>
      let n := h !!! node in
      let acc :=
        if decide (nbSlotByNode ≤ TotalSlots n) then
          match drop (Z.to_nat nbSlotByNode) (Slots n) with
          | [] => acc
          | extra => <[ID n := default [] (acc !! ID n) ++ extra]> acc
          end
        else acc in
      retrieveSlotToMigrateFrom_loop h rest nbSlotByNode acc
  end.
(** [retrieveSlotToMigrateFrom], for a non-negative [nbSlotByNode]. *)
Definition retrieveSlotToMigrateFrom h (oldMasterNodes : Nodes) (nbSlotByNode : Z) :=
  retrieveSlotToMigrateFrom_loop h oldMasterNodes nbSlotByNode ∅.

(** [retrieveSlotToMigrateFromRemovedNodes] *)
Definition is_removed h (newMasterNodes : Nodes) (old : ptr) : bool :=
  negb (existsb (λ new, bool_decide (ID (h !!! old) = ID (h !!! new))) newMasterNodes).
Definition retrieveSlotToMigrateFromRemovedNodes h (newMasterNodes oldMasterNodes : Nodes)
    : gmap string (list Slot) :=
  let removedNodes := FilterByFunc oldMasterNodes (is_removed h newMasterNodes) in
  foldl (λ acc node, <[ID (h !!! node) := Slots (h !!! node)]> acc) ∅ removedNodes.

(** [for i := a; i < b; i++ { l = append(l, i) }] *)
Definition append_between (l : list Slot) (a b : Slot) : list Slot := l ++ seqZ a (b - a).

(** The gap search of [retrieveLostSlots] over the sorted slots. *)
Fixpoint retrieveLostSlots_loop (last : Slot) (lostSlots slots : list Slot) : Slot * list Slot :=
  match slots with
  | [] => (last, lostSlots)
  | slot :: slots' =>
      let lostSlots :=
        if decide (u64 (last + 1) < slot) then append_between lostSlots (u64 (last + 1)) slot
        else lostSlots in
      retrieveLostSlots_loop slot lostSlots slots'
  end.
(** [retrieveLostSlots] *)
Definition retrieveLostSlots h (oldMasterNodes : Nodes) (nbSlots : Z) : list Slot :=
  let currentFullRange := sort_slots (oldMasterNodes ≫= λ node, Slots (h !!! node)) in
  let lostSlots :=
    match currentFullRange with
    | [] => [0]
    | s0 :: _ => if decide (s0 ≠ 0) then [0] else []
    end in
  let (last, lostSlots) := retrieveLostSlots_loop 0 lostSlots currentFullRange in
  append_between lostSlots (u64 (last + 1)) (u64 nbSlots).

(** State of [buildSlotByNodeFromAvailableSlots]: the slots each new master would
    have, by index, the slots to add, by ID, and the current index. *)
Record assign := mkAssign {
  slotOfNode : gmap nat (list Slot);
  slotToAddByNode : gmap string (list Slot);
  idNode : nat;
}.

(** The body of its inner loop; the index stays below the number of masters. *)
Definition assign_slot h (newMasterNodes : Nodes) (nbSlotByNode : Z) (st : assign) (slot : Slot) : assign :=
  let missingSlots := nbSlotByNode - Z.of_nat (length (default [] (slotOfNode st !! idNode st))) in
  let id :=
    if decide (0 < missingSlots) then idNode st
    else if decide (S (idNode st) < length newMasterNodes)%nat then S (idNode st) else idNode st in
  mkAssign (map_append (slotOfNode st) id slot)
    (map_append (slotToAddByNode st) (ID (h !!! (newMasterNodes !!! id))) slot) id.

(** [buildSlotByNodeFromAvailableSlots] *)
Definition buildSlotByNodeFromAvailableSlots h (newMasterNodes : Nodes) (nbSlotByNode : Z)
    (slotToMigrateByNode : gmap string (list Slot)) : gmap string (list Slot) :=
  match newMasterNodes with
  | [] => ∅
  | _ =>
      let slotOfNode := list_to_map (imap (λ i node, (i, Slots (h !!! node))) newMasterNodes) in
      slotToAddByNode
        (foldl (λ st e, foldl (assign_slot h newMasterNodes nbSlotByNode) st (e : string * list Slot).2)
           (mkAssign slotOfNode ∅ 0) (range 30 slotToMigrateByNode))
  end.

(** [int(math.Ceil(float64(nbSlots) / float64(nbNode)))] *)
Definition slots_by_node (nbSlots nbNode : Z) : Z :=
  int_of_float (math_Ceil (fdiv (float_of_int nbSlots) (float_of_int nbNode))).

(** The slots that have to move, by the node that gives them up; those of no node
    are under the empty name. *)
Definition slots_to_migrate h (newMasterNodes oldMasterNodes : Nodes) (nbSlots nbSlotByNode : Z)
    : gmap string (list Slot) :=
  let slotToMigrateByNode := retrieveSlotToMigrateFrom h oldMasterNodes nbSlotByNode in
  let fromDeleted := retrieveSlotToMigrateFromRemovedNodes h newMasterNodes oldMasterNodes in
  let slotToMigrateByNode :=
    foldl (λ acc e, <[(e : string * list Slot).1 := e.2]> acc) slotToMigrateByNode (range 31 fromDeleted) in
  <["" := retrieveLostSlots h oldMasterNodes nbSlots]> slotToMigrateByNode.

(** [buildSlotsByNode] *)
Definition buildSlotsByNode h (newMasterNodes oldMasterNodes : Nodes) (nbSlots : Z)
    : gmap string (list Slot) :=
  match newMasterNodes with
  | [] => ∅
  | _ =>
      let nbSlotByNode := slots_by_node nbSlots (Z.of_nat (length newMasterNodes)) in
      buildSlotByNodeFromAvailableSlots h newMasterNodes nbSlotByNode
        (slots_to_migrate h newMasterNodes oldMasterNodes nbSlots nbSlotByNode)
  end.

(** The search of [feedMigInfo] for the current owner of slot [s] among the old
    masters: whether it is found, with the migrations and their number. *)
Fixpoint feedMigInfo_search h (newMasterNodes oldMasterNodes : Nodes) (id : string) (s : Slot)
    (acc : mapSlotByMigInfo * Z) : bool * (mapSlotByMigInfo * Z) :=
  match oldMasterNodes with
  | [] => (false, acc)
  | oldNode :: rest =>
      if decide (ID (h !!! oldNode) = id) then
        if Contains (Slots (h !!! oldNode)) s then (true, acc)
        else feedMigInfo_search h newMasterNodes rest id s acc
      else if Contains (Slots (h !!! oldNode)) s then
        match GetNodeByID (λ p, ID (h !!! p)) newMasterNodes id with
        | (Some newNode, None) =>
            (true, (map_append acc.1 (Some oldNode, newNode) s, acc.2 + 1))
        | _ => feedMigInfo_search h newMasterNodes rest id s acc
        end
      else feedMigInfo_search h newMasterNodes rest id s acc
  end.
Definition feedMigInfo_slot h (newMasterNodes oldMasterNodes : Nodes) (id : string)
    (acc : mapSlotByMigInfo * Z) (s : Slot) : mapSlotByMigInfo * Z :=
  match feedMigInfo_search h newMasterNodes oldMasterNodes id s acc with
  | (true, acc) => acc
  | (false, acc) =>
      match GetNodeByID (λ p, ID (h !!! p)) newMasterNodes id with
      | (Some newNode, None) => (map_append acc.1 (None, newNode) s, acc.2 + 1)
      | _ => acc
      end
  end.
(** [feedMigInfo]: the migrations, and [ClusterActionsInfo.NbslotsToMigrate]. *)
Definition feedMigInfo h (newMasterNodes oldMasterNodes : Nodes) (nbSlots : Z) : mapSlotByMigInfo * Z :=
  foldl (λ acc e, foldl (feedMigInfo_slot h newMasterNodes oldMasterNodes (e : string * list Slot).1) acc e.2)
    (∅, 0) (range 32 (buildSlotsByNode h newMasterNodes oldMasterNodes nbSlots)).

Context {W : Type} `{IAdmin W}.

(** [p.Slots = f(p.Slots)] *)
Definition upd_slots (f : list Slot → list Slot) (p : ptr) : heap → heap :=
  heap_upd (λ n, n <| Slots := f (Slots n) |>) p.
Definition addr_of (p : ptr) : M (heap * W) string := gets (λ st, IPPort (st.1 !!! p)).
Definition id_of (p : ptr) : M (heap * W) string := gets (λ st, ID (st.1 !!! p)).

(** "now tell all other nodes" *)
Definition tell_others (allMasterNodes : Nodes) (from to : ptr) (slots : list Slot) : M (heap * W) () :=
  for_each allMasterNodes (λ master,
    st ← gets Datatypes.id;
    let h := st.1 in
    if decide (IPPort (h !!! master) = IPPort (h !!! to) ∨ IPPort (h !!! master) = IPPort (h !!! from))
    then mret ()
    else if decide (TotalSlots (h !!! master) = 0) then mret ()
    else on_snd (admin_SetSlots (IPPort (h !!! master)) "NODE" slots (ID (h !!! to)));; mret ()).

(** One round of the loop of [DispatchSlotToNewMasters]. *)
Definition dispatch_migration (allMasterNodes : Nodes) (e : (option ptr * ptr) * list Slot)
    : M (heap * W) (option error) :=
  let '((From, To), slots) := e in
  st ← gets Datatypes.id;
  let h := st.1 in
  err ← match From with
    | None => on_snd (admin_AddSlots (IPPort (h !!! To)) slots)
    | Some From =>
        err ← on_snd (admin_SetSlots (IPPort (h !!! To)) "IMPORTING" slots (ID (h !!! From)));
        match err with
        | Some err => mret (Some err)
        | None =>
            err ← on_snd (admin_SetSlots (IPPort (h !!! From)) "MIGRATING" slots (ID (h !!! To)));
            match err with
            | Some err => mret (Some err)
            | None =>
                on_snd (admin_MigrateKeys (IPPort (h !!! From)) (h !!! To) slots 10 30000 true);;
                on_snd (admin_SetSlots (IPPort (h !!! To)) "NODE" slots (ID (h !!! To)));;
                on_snd (admin_SetSlots (IPPort (h !!! From)) "NODE" slots (ID (h !!! To)));;
                modify (λ st, (upd_slots (λ l, RemoveSlots l slots) From st.1, st.2));;
                tell_others allMasterNodes From To slots;;
                mret None
            end
        end
    end;
  match err with
  | Some err => mret (Some err)
  | None =>
      modify (λ st, (upd_slots (λ l, AddSlots l slots) To st.1, st.2));;
      mret None
  end.

(** [DispatchSlotToNewMasters] *)
Definition DispatchSlotToNewMasters (c : Ctx) (newMasterNodes currentMasterNodes allMasterNodes : Nodes)
    : M (heap * W) (Ctx * option error) :=
  st ← gets Datatypes.id;
  let (migrationSlotInfo, info) :=
    feedMigInfo st.1 newMasterNodes currentMasterNodes (s64 (u64 (GetHashMaxSlot st.2 + 1))) in
  let c := c <| cluster := (cluster c) <| NbslotsToMigrate := info |> <| rc_Status := ClusterStatusRebalancing |> |> in
  err ← for_err (range 33 migrationSlotInfo) (dispatch_migration allMasterNodes);
  mret (c, err).
End migration.
