(* ===== verification/MigrationProofs.v ===== *)
(** Correctness of [clustering/migration.go]: the plan moves each slot that has to
    move exactly once, and applying it leaves the slots partitioned among the new
    masters. *)

From Stdlib Require Import ZArith Lia.
From S2P Require Import Prelude GoStrings GoFloat Errors Slot Node ClusterInfo AdminInterface.
From S2P Require Import Groups Clustering Migration.

Local Open Scope Z_scope.

(** ** Loops over a map of slot lists *)

(** Nested loops over a map of lists, as one loop over pairs. *)
Definition entries {K A} (l : list (K * list A)) : list (K * A) := l ≫= λ e, (e.1,.) <$> e.2.

Lemma foldl_entries {B K A} (f : K → B → A → B) (b : B) (l : list (K * list A)) :
  foldl (λ acc e, foldl (f e.1) acc e.2) b l = foldl (λ acc p, f p.1 acc p.2) b (entries l).
Proof.
  unfold entries. revert b. induction l as [|[k xs] l IH]; intros b; [done|].
  rewrite bind_cons, foldl_app. cbn [foldl fst snd]. rewrite IH. f_equal.
  clear IH. revert b. induction xs as [|x xs IH]; intros b; [done|]. simpl. apply IH.
Qed.

Lemma elem_of_entries {K A} (l : list (K * list A)) k x :
  (k, x) ∈ entries l ↔ ∃ xs, (k, xs) ∈ l ∧ x ∈ xs.
Proof.
  unfold entries. rewrite list_elem_of_bind. split.
  - intros ([k' xs] & (x' & ? & ?)%list_elem_of_fmap & Hl). simplify_eq/=. eauto.
  - intros (xs & Hl & Hx). exists (k, xs). split; [|done]. by apply list_elem_of_fmap_2.
Qed.

Lemma entries_snd {K A} (l : list (K * list A)) : (entries l).*2 = concat l.*2.
Proof.
  unfold entries. induction l as [|[k xs] l IH]; [done|]. rewrite bind_cons, fmap_app, IH. simpl.
  f_equal. rewrite <- list_fmap_compose. apply list_fmap_id.
Qed.

Lemma range_entries_snd `{MapRange} {K A} `{Countable K} site (m : gmap K (list A)) :
  (entries (range site m)).*2 ≡ₚ map_slots m.
Proof. rewrite entries_snd. unfold map_slots. by rewrite range_Permutation. Qed.

Lemma elem_of_range_entries `{MapRange} {K A} `{Countable K} site (m : gmap K (list A)) k x :
  (k, x) ∈ entries (range site m) ↔ x ∈ default [] (m !! k).
Proof.
  rewrite elem_of_entries. setoid_rewrite elem_of_range. split.
  - intros (xs & -> & ?). done.
  - destruct (m !! k) as [xs|]; simpl; [eauto|by intros ?%elem_of_nil].
Qed.

(** ** Lost slots *)

Section lost.
Context `{SortPkg}.

Lemma retrieveLostSlots_loop_app last lost slots :
  retrieveLostSlots_loop last lost slots =
  ((retrieveLostSlots_loop last [] slots).1, lost ++ (retrieveLostSlots_loop last [] slots).2).
Proof.
  revert last lost. induction slots as [|s slots IH]; intros last lost; cbn [retrieveLostSlots_loop].
  { by rewrite app_nil_r. }
  rewrite (IH s). symmetry. rewrite (IH s). simpl. f_equal. unfold append_between.
  case_decide; simpl; [by rewrite (assoc_L (++))|done].
Qed.

Definition gaps (nb last : Z) (slots : list Slot) : list Slot :=
  let r := retrieveLostSlots_loop last [] slots in append_between r.2 (u64 (r.1 + 1)) (u64 nb).

Lemma StronglySorted_lt_seqZ_app a n l :
  StronglySorted Z.lt l → (∀ x, x ∈ l → a + n ≤ x) → StronglySorted Z.lt (seqZ a n ++ l).
Proof.
  intros Hl Hle. apply StronglySorted_app. split_and!; [|apply StronglySorted_seqZ|done].
  intros x y Hx%elem_of_seqZ Hy%Hle. lia.
Qed.

Lemma gaps_cons nb last x slots :
  0 ≤ last < max_uint64 →
  gaps nb last (x :: slots) =
  (if decide (last + 1 < x) then seqZ (last + 1) (x - (last + 1)) else []) ++ gaps nb x slots.
Proof.
  intros Hl. unfold gaps. cbn [retrieveLostSlots_loop]. rewrite retrieveLostSlots_loop_app.
  cbv zeta. cbn [fst snd]. rewrite (u64_small (last + 1)) by lia. unfold append_between.
  case_decide; cbn [app]; by rewrite <- ?(assoc_L (++)).
Qed.

Lemma gaps_spec nb last slots :
  0 ≤ last < nb → nb ≤ 2 ^ 63 → StronglySorted Z.le slots → Forall (λ s, last ≤ s < nb) slots →
  StronglySorted Z.lt (gaps nb last slots) ∧
  ∀ s, s ∈ gaps nb last slots ↔ last < s < nb ∧ s ∉ slots.
Proof.
  intros Hlast Hnb. revert last Hlast.
  induction slots as [|x slots IH]; intros last Hlast Hsort Hall.
  - unfold gaps, append_between. simpl.
    rewrite (u64_small (last + 1)), (u64_small nb) by (unfold max_uint64; lia).
    split; [apply StronglySorted_seqZ|]. intros s. rewrite elem_of_seqZ.
    split; [intros; split; [lia|apply not_elem_of_nil]|intros [? _]; lia].
  - apply StronglySorted_inv in Hsort as [Hsort Hx]. apply Forall_cons in Hall as [Hxb Hall].
    rewrite Forall_forall in Hx. rewrite Forall_forall in Hall.
    destruct (IH x) as [IH1 IH2]; [lia|done| |].
    { apply Forall_forall. intros y Hy. pose proof (Hx y Hy). pose proof (Hall y Hy). simpl in *. lia. }
    rewrite gaps_cons by (unfold max_uint64; lia).
    assert (∀ s, last < s < nb ∧ s ∉ x :: slots ↔ last < s < x ∨ s ∈ gaps nb x slots) as Heq.
    { intros s. rewrite IH2, not_elem_of_cons. split.
      - intros (? & ? & ?). destruct (decide (s < x)); [left; lia|right; split; [lia|done]].
      - intros [?|[? ?]]; (split; [lia|]); (split; [lia|]); [|done].
        intros Hs%Hx. simpl in Hs. lia. }
    case_decide.
    + split.
      * apply StronglySorted_lt_seqZ_app; [done|]. intros y Hy%IH2. lia.
      * intros s. rewrite Heq, elem_of_app, elem_of_seqZ.
        split; (intros [?|?]; [left; lia|by right]).
    + split; [done|]. intros s. rewrite Heq. cbn [app].
      split; [by right|]. intros [?|?]; [lia|done].
Qed.

(** The lost slots are the slots in [0, nbSlots) that no old master holds, each once. *)
Lemma retrieveLostSlots_spec h old nb :
  0 < nb ≤ 2 ^ 63 → (∀ p s, p ∈ old → s ∈ Slots (h !!! p) → 0 ≤ s < nb) →
  StronglySorted Z.lt (retrieveLostSlots h old nb) ∧
  ∀ s, s ∈ retrieveLostSlots h old nb ↔ 0 ≤ s < nb ∧ ∀ p, p ∈ old → s ∉ Slots (h !!! p).
Proof.
  intros Hnb Hrange. unfold retrieveLostSlots. set (all := old ≫= λ node, Slots (h !!! node)).
  assert (∀ s, s ∈ sort_slots all ↔ ∃ p, p ∈ old ∧ s ∈ Slots (h !!! p)) as Hin.
  { intros s. rewrite sort_slots_Permutation. unfold all. rewrite list_elem_of_bind. naive_solver. }
  assert (∀ s, (∀ p, p ∈ old → s ∉ Slots (h !!! p)) ↔ s ∉ sort_slots all) as Hnin.
  { intros s. rewrite Hin. naive_solver. }
  setoid_rewrite Hnin. pose proof (sort_slots_Sorted all) as Hsort.
  assert (Forall (λ s, 0 ≤ s < nb) (sort_slots all)) as Hall.
  { apply Forall_forall. intros s (p & Hp & Hs)%Hin. by eapply Hrange. }
  clear Hnin Hin. destruct (gaps_spec nb 0 (sort_slots all)) as [Hs Hg]; [lia..|done|done|].
  rewrite retrieveLostSlots_loop_app. cbv zeta. unfold append_between. rewrite <- (assoc_L (++)).
  change (_ ++ seqZ _ _) with (gaps nb 0 (sort_slots all)).
  assert (0 ∈ sort_slots all ∨ 0 ∉ sort_slots all) as H0 by (destruct (decide (0 ∈ sort_slots all)); auto).
  assert (match sort_slots all with [] => [0] | s0 :: _ => if decide (s0 ≠ 0) then [0] else [] end =
          if decide (0 ∈ sort_slots all) then [] else [0]) as ->.
  { destruct (sort_slots all) as [|s0 l]; [done|]. clear -Hsort Hall.
    apply StronglySorted_inv in Hsort as [_ Hle]. apply Forall_cons in Hall as [H0 Hall].
    destruct (decide (s0 = 0)) as [->|Hne].
    - rewrite decide_False by (intros Hn; by apply Hn). rewrite decide_True; [done|by left].
    - rewrite decide_True by done. rewrite decide_False; [done|].
      intros [?|Hl]%elem_of_cons; [done|]. rewrite Forall_forall in Hle. apply Hle in Hl. lia. }
  case_decide as Hz.
  - split; [done|]. intros s. cbn [app]. rewrite Hg.
    split; [intros [? ?]; split; [lia|done]|].
    intros [? Hs0]. split; [|done]. destruct (decide (s = 0)) as [->|]; [done|lia].
  - split.
    + constructor; [done|]. apply Forall_forall. intros s Hsg%Hg. lia.
    + intros s. cbn [app]. rewrite elem_of_cons, Hg.
      split; [intros [->|[? ?]]; (split; [lia|done])|].
      intros [? Hs0]. destruct (decide (s = 0)) as [->|]; [by left|right; split; [lia|done]].
Qed.
End lost.

(** ** Assignment of the available slots *)

Section assign.
Context `{MapRange}.
Variable h : heap.
Variables (new : Nodes) (nb : Z).

Lemma assign_slot_spec st s :
  let st' := assign_slot h new nb st s in
  (idNode st < length new)%nat →
  (idNode st' < length new)%nat ∧
  map_slots (slotToAddByNode st') ≡ₚ s :: map_slots (slotToAddByNode st) ∧
  (∀ k, is_Some (slotToAddByNode st' !! k) →
     is_Some (slotToAddByNode st !! k) ∨ ∃ q, q ∈ new ∧ k = ID (h !!! q)).
Proof.
  intros st' Hid. unfold st', assign_slot. cbn [idNode slotToAddByNode].
  set (id := if decide _ then _ else _).
  assert (id < length new)%nat as Hlt by (unfold id; repeat case_decide; lia).
  split; [done|]. split; [apply map_slots_append|].
  intros k [<-|?]%map_append_is_Some; [|by left]. right. exists (new !!! id). split; [|done].
  by apply list_elem_of_lookup_total_2.
Qed.

(** The slots to add are exactly the available ones, each assigned to one of the
    new masters. *)
Lemma buildSlotByNodeFromAvailableSlots_spec m :
  new ≠ [] →
  let r := buildSlotByNodeFromAvailableSlots h new nb m in
  map_slots r ≡ₚ map_slots m ∧
  ∀ k, is_Some (r !! k) → ∃ q, q ∈ new ∧ k = ID (h !!! q).
Proof.
  intros Hne. unfold buildSlotByNodeFromAvailableSlots.
  destruct new as [|n0 new'] eqn:Enew; [done|]. rewrite <- Enew in *. clear Hne.
  rewrite (foldl_entries (λ _ : string, assign_slot h new nb)).
  set (st0 := mkAssign _ _ _).
  assert (∀ l st, (idNode st < length new)%nat →
    (∀ k, is_Some (slotToAddByNode st !! k) → ∃ q, q ∈ new ∧ k = ID (h !!! q)) →
    let st' := foldl (λ acc p, assign_slot h new nb acc p.2) st l in
    map_slots (slotToAddByNode st') ≡ₚ (l : list (string * Slot)).*2 ++ map_slots (slotToAddByNode st) ∧
    ∀ k, is_Some (slotToAddByNode st' !! k) → ∃ q, q ∈ new ∧ k = ID (h !!! q)) as Hloop.
  { induction l as [|[k s] l IH]; intros st Hid Hk; [done|].
    cbn [foldl snd]. destruct (assign_slot_spec st s Hid) as (Hid' & Hperm & Hk').
    destruct (IH (assign_slot h new nb st s) Hid') as [IH1 IH2].
    { intros k' [?|?]%Hk'; [by apply Hk|done]. }
    split; [|done]. rewrite IH1, Hperm. rewrite fmap_cons. cbn [snd].
    symmetry. apply (Permutation_middle l.*2). }
  destruct (Hloop (entries (range 30 m)) st0) as [Hl1 Hl2].
  { simpl. rewrite Enew. simpl. lia. }
  { simpl. intros k. rewrite lookup_empty. by intros []. }
  split; [|done]. rewrite Hl1, range_entries_snd. unfold st0. cbn [slotToAddByNode].
  by rewrite map_slots_empty, app_nil_r.
Qed.
End assign.

(** ** Slots to migrate *)

Lemma foldl_insert_range `{MapRange} {K A} `{Countable K} site (m d : gmap K A) :
  foldl (λ acc e, <[(e : K * A).1 := e.2]> acc) m (range site d) = d ∪ m.
Proof.
  assert (∀ (l : list (K * A)) (m : gmap K A), NoDup l.*1 →
    foldl (λ acc e, <[e.1 := e.2]> acc) m l = (list_to_map l : gmap K A) ∪ m) as Hl.
  { induction l as [|[k x] l IH]; intros m' Hnd; simpl; [by rewrite map_empty_union|].
    rewrite fmap_cons in Hnd. apply NoDup_cons in Hnd as [Hk Hnd]. cbn [fst] in Hk.
    rewrite IH by done. rewrite <- insert_union_l. rewrite <- insert_union_r; [done|].
    by apply not_elem_of_list_to_map_1. }
  rewrite Hl by apply range_NoDup_keys. f_equal.
  rewrite (list_to_map_proper (range site d) (map_to_list d)).
  - apply list_to_map_to_list.
  - apply range_NoDup_keys.
  - apply range_Permutation.
Qed.

Section plan.
Context `{MapRange} `{SortPkg}.
Variable h : heap.
Variables (new old : Nodes) (N : Z).

(** What the plan relies on: the masters have distinct, non-empty IDs; the slots
    below [N] are held by the old masters, each by at most one. *)
Record bom_ok := {
  bom_new : new ≠ [];
  bom_NoDup_new : NoDup new;
  bom_NoDup_old : NoDup old;
  bom_id : ∀ p q, p ∈ new ++ old → q ∈ new ++ old → ID (h !!! p) = ID (h !!! q) → p = q;
  bom_id_nonempty : ∀ p, p ∈ new ++ old → ID (h !!! p) ≠ "";
  bom_N : 0 < N ≤ 2 ^ 32;
  bom_slots_NoDup : ∀ p, p ∈ new ++ old → NoDup (Slots (h !!! p));
  bom_slots_range : ∀ p s, p ∈ old → s ∈ Slots (h !!! p) → 0 ≤ s < N;
  bom_disjoint : ∀ p q s, p ∈ old → q ∈ old → s ∈ Slots (h !!! p) → s ∈ Slots (h !!! q) → p = q;
  bom_new_empty : ∀ p, p ∈ new → p ∉ old → Slots (h !!! p) = [];
}.

Hypothesis Hok : bom_ok.

Lemma old_id p q : p ∈ old → q ∈ old → ID (h !!! p) = ID (h !!! q) → p = q.
Proof. intros. apply (bom_id Hok); [set_solver..|done]. Qed.

Lemma retrieveSlotToMigrateFrom_loop_lookup nb l acc k :
  NoDup l → (∀ p, p ∈ l → p ∈ old) → (∀ p, p ∈ l → acc !! ID (h !!! p) = None) →
  0 ≤ nb →
  ∀ xs, retrieveSlotToMigrateFrom_loop h l nb acc !! k = Some xs ↔
    acc !! k = Some xs ∨
    ∃ p, p ∈ l ∧ ID (h !!! p) = k ∧ xs = drop (Z.to_nat nb) (Slots (h !!! p)) ∧ xs ≠ [].
Proof.
  revert acc. induction l as [|p l IH]; intros acc Hnd Hl Hacc Hnb xs; cbn [retrieveSlotToMigrateFrom_loop].
  { split; [by left|]. intros [?|(p & Hp & _)]; [done|]. by apply elem_of_nil in Hp. }
  apply NoDup_cons in Hnd as [Hp Hnd].
  assert (∀ q, q ∈ l → ID (h !!! q) ≠ ID (h !!! p)) as Hne.
  { intros q Hq Heq. apply Hp. rewrite <- (old_id q p); [done|apply Hl; by right|apply Hl; by left|done]. }
  pose (xp := drop (Z.to_nat nb) (Slots (h !!! p))).
  assert ((if decide (nb ≤ TotalSlots (h !!! p)) then
            match drop (Z.to_nat nb) (Slots (h !!! p)) with
            | [] => acc
            | extra => <[ID (h !!! p) := default [] (acc !! ID (h !!! p)) ++ extra]> acc end
           else acc) = if decide (xp = []) then acc else <[ID (h !!! p) := xp]> acc) as ->.
  { rewrite Hacc by by left. simpl. unfold xp. destruct (drop _ _) as [|x l'] eqn:Hd.
    - rewrite (decide_True (P := [] = [])) by done. by case_decide.
    - rewrite (decide_False (P := x :: l' = [])) by done. rewrite decide_True; [done|].
      apply (f_equal length) in Hd. rewrite length_drop in Hd. simpl in Hd. unfold TotalSlots. lia. }
  rewrite IH; [|done|intros; apply Hl; by right| |done].
  2: { intros q Hq. case_decide; [apply Hacc; by right|].
       rewrite lookup_insert_ne by (intros Heq; by apply (Hne q Hq)). apply Hacc. by right. }
  setoid_rewrite elem_of_cons. case_decide as Hxp.
  - split; [naive_solver|]. intros [?|(q & [->|?] & ? & Hxs & ?)]; [by left| |right; by exists q].
    fold xp in Hxs. congruence.
  - rewrite lookup_insert_Some. split.
    + intros [[[<- <-]|[? ?]]|(q & ? & ? & ?)]; [right; exists p; naive_solver|by left|right; exists q; naive_solver].
    + intros [Ha|(q & [->|?] & <- & Hxs & ?)].
      * left. right. split; [|done]. intros <-. rewrite Hacc in Ha by by left. done.
      * left. left. done.
      * right. by exists q.
Qed.

Lemma is_removed_spec p : p ∈ old → is_removed h new p = true ↔ p ∉ new.
Proof.
  intros Hp. unfold is_removed. rewrite negb_true_iff, <- not_true_iff_false, existsb_exists.
  split; intros Hn Hin; apply Hn.
  - exists p. split; [by apply list_elem_of_In|]. by apply bool_decide_eq_true.
  - destruct Hin as (q & Hq%list_elem_of_In & Heq%bool_decide_eq_true).
    rewrite (bom_id Hok p q) by (done || set_solver). done.
Qed.

Lemma removed_loop_lookup (l : Nodes) (acc : gmap string (list Slot)) k xs :
  NoDup l → (∀ p, p ∈ l → p ∈ old) →
  foldl (λ acc node, <[ID (h !!! node) := Slots (h !!! node)]> acc) acc l !! k = Some xs ↔
  (∃ p, p ∈ l ∧ ID (h !!! p) = k ∧ xs = Slots (h !!! p)) ∨
  ((∀ p, p ∈ l → ID (h !!! p) ≠ k) ∧ acc !! k = Some xs).
Proof.
  revert acc. induction l as [|p l IH]; intros acc Hnd Hl; cbn [foldl].
  { split; [intros; right; split; [by intros ? ?%elem_of_nil|done]|].
    intros [(p & Hp%elem_of_nil & _)|[_ ?]]; done. }
  apply NoDup_cons in Hnd as [Hp Hnd]. rewrite IH; [|done|intros; apply Hl; by right].
  assert (∀ q, q ∈ l → ID (h !!! q) ≠ ID (h !!! p)) as Hne.
  { intros q Hq Heq. apply Hp. rewrite <- (old_id q p); [done|apply Hl; by right|apply Hl; by left|done]. }
  setoid_rewrite elem_of_cons. rewrite lookup_insert_Some. split.
  - intros [(q & ? & ? & ?)|[Hno [[<- <-]|[? ?]]]].
    + left. exists q. auto.
    + left. exists p. auto.
    + right. split; [|done]. intros q [->|?]; [done|by apply Hno].
  - intros [(q & [->|?] & <- & ->)|[Hno ?]].
    + right. split; [done|]. by left.
    + left. by exists q.
    + right. split; [intros q ?; apply Hno; by right|]. right. split; [|done]. apply Hno. by left.
Qed.

(** The slots that master [p] gives up when every new master keeps [nb] slots. *)
Definition gives nb (p : ptr) : list Slot :=
  if decide (p ∈ new) then drop (Z.to_nat nb) (Slots (h !!! p)) else Slots (h !!! p).

Lemma slots_to_migrate_lookup nb k xs :
  0 ≤ nb →
  slots_to_migrate h new old N nb !! k = Some xs → xs ≠ [] →
  (k = "" ∧ xs = retrieveLostSlots h old N) ∨ ∃ p, p ∈ old ∧ ID (h !!! p) = k ∧ xs = gives nb p.
Proof.
  intros Hnb. unfold slots_to_migrate. rewrite lookup_insert_Some, foldl_insert_range.
  intros [[<- <-]|[Hk Hxs]] Hne; [by left|]. right.
  apply lookup_union_Some_raw in Hxs as [Hxs|[Hno Hxs]].
  - unfold retrieveSlotToMigrateFromRemovedNodes in Hxs. rewrite FilterByFunc_filter in Hxs.
    apply removed_loop_lookup in Hxs as [(p & Hp & <- & ->)|[_ Hxs]];
      [|done|by apply NoDup_filter, bom_NoDup_old|by intros ? [_ ?]%list_elem_of_filter].
    apply list_elem_of_filter in Hp as [Hrem Hp]. rewrite is_removed_spec in Hrem by done.
    exists p. split_and!; [done..|]. unfold gives. by rewrite decide_False.
  - unfold retrieveSlotToMigrateFrom in Hxs.
    apply retrieveSlotToMigrateFrom_loop_lookup in Hxs as [Hxs|(p & Hp & <- & -> & _)];
      [done| |by apply bom_NoDup_old|done|done|done].
    exists p. split_and!; [done..|]. unfold gives. rewrite decide_True; [done|].
    apply dec_stable. intros Hpn. unfold retrieveSlotToMigrateFromRemovedNodes in Hno.
    rewrite FilterByFunc_filter in Hno. apply eq_None_not_Some in Hno. apply Hno.
    exists (Slots (h !!! p)). apply removed_loop_lookup;
      [by apply NoDup_filter, bom_NoDup_old|by intros ? [_ ?]%list_elem_of_filter|].
    left. exists p. split_and!; [|done..]. apply list_elem_of_filter. by rewrite is_removed_spec.
Qed.

Lemma slots_to_migrate_gives nb p :
  0 ≤ nb → p ∈ old → gives nb p ≠ [] →
  slots_to_migrate h new old N nb !! ID (h !!! p) = Some (gives nb p).
Proof.
  intros Hnb Hp Hne. unfold slots_to_migrate. rewrite foldl_insert_range.
  rewrite lookup_insert_ne by (intros Heq; symmetry in Heq; revert Heq; apply (bom_id_nonempty Hok); set_solver).
  unfold gives in *. unfold retrieveSlotToMigrateFromRemovedNodes. rewrite FilterByFunc_filter.
  apply lookup_union_Some_raw. case_decide as Hpn.
  - right. split.
    + apply eq_None_not_Some. intros [xs Hxs].
      apply removed_loop_lookup in Hxs as [(q & [Hrem Hq]%list_elem_of_filter & Heq & ->)|[_ Hxs]];
        [|done|by apply NoDup_filter, bom_NoDup_old|by intros ? [_ ?]%list_elem_of_filter].
      rewrite is_removed_spec in Hrem by done. apply Hrem. by rewrite (old_id q p).
    + unfold retrieveSlotToMigrateFrom.
      apply retrieveSlotToMigrateFrom_loop_lookup; [by apply bom_NoDup_old|done|done|done|].
      right. by exists p.
  - left. apply removed_loop_lookup;
      [by apply NoDup_filter, bom_NoDup_old|by intros ? [_ ?]%list_elem_of_filter|].
    left. exists p. split_and!; [|done..]. apply list_elem_of_filter. by rewrite is_removed_spec.
Qed.

Lemma gives_subset nb p s : s ∈ gives nb p → s ∈ Slots (h !!! p).
Proof.
  unfold gives. case_decide; [|done]. intros Hs. rewrite <- (take_drop (Z.to_nat nb) (Slots _)).
  apply elem_of_app. by right.
Qed.

(** The slots to migrate: no duplicates, and exactly the slots given up and the lost ones. *)
Lemma slots_to_migrate_spec nb :
  0 ≤ nb →
  NoDup (map_slots (slots_to_migrate h new old N nb)) ∧
  ∀ s, s ∈ map_slots (slots_to_migrate h new old N nb) ↔
    (∃ p, p ∈ old ∧ s ∈ gives nb p) ∨ s ∈ retrieveLostSlots h old N.
Proof.
  intros Hnb. destruct (retrieveLostSlots_spec h old N) as [Hlsort Hlost];
    [pose proof (bom_N Hok); lia|apply (bom_slots_range Hok)|].
  split.
  - apply NoDup_map_slots.
    + intros k l Hk. destruct (decide (l = [])) as [->|Hl]; [constructor|].
      apply slots_to_migrate_lookup in Hk as [[_ ->]|(p & Hp & _ & ->)]; [| |done|done].
      * by apply StronglySorted_lt_NoDup.
      * pose proof (bom_slots_NoDup Hok p ltac:(set_solver)) as Hnd. unfold gives. case_decide; [|done].
        by apply NoDup_drop.
    + intros k k' l l' x Hk Hk' Hx Hx'.
      apply slots_to_migrate_lookup in Hk; [|done|by intros ->; apply elem_of_nil in Hx].
      apply slots_to_migrate_lookup in Hk'; [|done|by intros ->; apply elem_of_nil in Hx'].
      destruct Hk as [[-> ->]|(p & Hp & <- & ->)], Hk' as [[-> ->]|(p' & Hp' & <- & ->)]; [done|..].
      * exfalso. apply Hlost in Hx as [_ Hx]. by apply (Hx p' Hp'), (gives_subset nb).
      * exfalso. apply Hlost in Hx' as [_ Hx']. by apply (Hx' p Hp), (gives_subset nb).
      * rewrite (bom_disjoint Hok p p' x Hp Hp'); [done|by eapply gives_subset..].
  - intros s. rewrite elem_of_map_slots. split.
    + intros (k & l & Hk & Hs).
      apply slots_to_migrate_lookup in Hk; [|done|by intros ->; apply elem_of_nil in Hs].
      destruct Hk as [[-> ->]|(p & Hp & <- & ->)]; [by right|left; by exists p].
    + intros [(p & Hp & Hs)|Hs].
      * exists (ID (h !!! p)), (gives nb p). split; [|done]. apply slots_to_migrate_gives; [done..|].
        intros Hn. rewrite Hn in Hs. by apply elem_of_nil in Hs.
      * exists "", (retrieveLostSlots h old N). split; [|done]. apply lookup_insert_eq.
Qed.

(** ** The migrations *)

(** The old master that holds slot [s]. *)
Definition owner (s : Slot) : option ptr := find (λ p, Contains (Slots (h !!! p)) s) old.

Lemma owner_Some s p : owner s = Some p → p ∈ old ∧ s ∈ Slots (h !!! p).
Proof. intros [Hp Hs]%find_some. by rewrite <- list_elem_of_In, Contains_spec in *. Qed.
Lemma owner_None s p : owner s = None → p ∈ old → s ∉ Slots (h !!! p).
Proof. intros Hn Hp. apply Contains_false, (find_none _ _ Hn). by apply list_elem_of_In. Qed.
Lemma owner_intro s p : p ∈ old → s ∈ Slots (h !!! p) → owner s = Some p.
Proof.
  intros Hp Hs. destruct (owner s) as [q|] eqn:Ho; [|by destruct (owner_None s p Ho Hp)].
  apply owner_Some in Ho as [??]. f_equal. by eapply (bom_disjoint Hok).
Qed.

(** A slot assigned to [q] migrates unless [q] holds it already. *)
Definition migrates (q : ptr) (s : Slot) : Prop := owner s ≠ Some q.
#[local] Instance migrates_dec q s : Decision (migrates q s).
Proof. unfold migrates. apply _. Defined.

Lemma feedMigInfo_search_spec q s acc l :
  q ∈ new → (∀ p, p ∈ l → p ∈ old) →
  feedMigInfo_search h new l (ID (h !!! q)) s acc =
  match find (λ p, Contains (Slots (h !!! p)) s) l with
  | Some p => (true, if decide (p = q) then acc else (map_append acc.1 (Some p, q) s, acc.2 + 1))
  | None => (false, acc)
  end.
Proof.
  intros Hq. induction l as [|p l IH]; intros Hl; cbn [feedMigInfo_search find]; [done|].
  assert (p ∈ old) as Hp by (apply Hl; by left).
  rewrite IH by (intros; apply Hl; by right).
  destruct (decide (ID (h !!! p) = ID (h !!! q))) as [Heq|Hne].
  - apply (bom_id Hok) in Heq; [|set_solver..]. subst p.
    destruct (Contains _ s); [by rewrite decide_True|done].
  - destruct (Contains _ s); [|done]. rewrite (GetNodeByID_unique (λ p, ID (h !!! p)) new q); [|..|done].
    + by rewrite decide_False by congruence.
    + apply NoDup_fmap_2_strong; [|apply (bom_NoDup_new Hok)].
      intros a b Ha Hb. apply (bom_id Hok); set_solver.
Qed.

Lemma feedMigInfo_slot_spec q s acc :
  q ∈ new →
  feedMigInfo_slot h new old (ID (h !!! q)) acc s =
  if decide (migrates q s) then (map_append acc.1 (owner s, q) s, acc.2 + 1) else acc.
Proof.
  intros Hq. unfold feedMigInfo_slot. rewrite feedMigInfo_search_spec by done. fold (owner s).
  assert (NoDup ((λ p, ID (h !!! p)) <$> new)) as Hnd.
  { apply NoDup_fmap_2_strong; [|apply (bom_NoDup_new Hok)].
    intros a b Ha Hb. apply (bom_id Hok); set_solver. }
  destruct (decide (migrates q s)) as [Hm|Hm]; unfold migrates in Hm; destruct (owner s) as [p|].
  - by rewrite decide_False by congruence.
  - by rewrite (GetNodeByID_unique (λ p, ID (h !!! p)) new q).
  - rewrite decide_True; [done|]. apply dec_stable in Hm. congruence.
  - by destruct Hm.
Qed.

(** The migration plan for an assignment [r] of slots to the new masters. *)
Lemma feedMigInfo_loop_spec (l : list (string * Slot)) acc :
  (∀ k s, (k, s) ∈ l → ∃ q, q ∈ new ∧ k = ID (h !!! q)) →
  let r := foldl (λ acc p, feedMigInfo_slot h new old p.1 acc p.2) acc l in
  ∃ moved, map_slots r.1 ≡ₚ moved ++ map_slots acc.1 ∧
    moved `sublist_of` l.*2 ∧ r.2 = acc.2 + Z.of_nat (length moved) ∧
    ∀ F q s, s ∈ default [] (r.1 !! (F, q)) ↔
      s ∈ default [] (acc.1 !! (F, q)) ∨
      (q ∈ new ∧ (ID (h !!! q), s) ∈ l ∧ migrates q s ∧ F = owner s).
Proof.
  revert acc. induction l as [|[k s] l IH]; intros acc Hl; cbn [foldl fst snd].
  { exists []. split_and!; [done|done|simpl; lia|]. intros. rewrite elem_of_nil. tauto. }
  destruct (Hl k s) as (q & Hq & ->); [by left|]. rewrite feedMigInfo_slot_spec by done.
  set (acc' := if decide _ then _ else _).
  destruct (IH acc') as (moved & Hperm & Hsub & Hcnt & Hin); [intros; eapply Hl; by right|].
  exists (if decide (migrates q s) then s :: moved else moved).
  assert (∀ q', q' ∈ new → ID (h !!! q') = ID (h !!! q) → q' = q) as Hinj.
  { intros q' Hq'. apply (bom_id Hok); set_solver. }
  unfold acc' in *. destruct (decide (migrates q s)) as [Hm|Hm]; cbn [fst snd] in *; split_and!.
  - rewrite Hperm, map_slots_append. symmetry. apply (Permutation_middle moved).
  - rewrite fmap_cons. by constructor.
  - rewrite Hcnt. simpl. lia.
  - intros F q' s'. rewrite Hin, lookup_map_append, elem_of_app, elem_of_cons. split.
    + intros [[?|Hs']|(? & ? & ? & ->)]; [by left| |right; by auto].
      case_decide as Heq; [|by apply elem_of_nil in Hs'].
      apply list_elem_of_singleton in Hs' as ->. simplify_eq. right. by auto.
    + intros [?|(? & [Heq|?] & ? & ->)]; [by left; left| |right; by auto].
      simplify_eq. rewrite (Hinj q') by done. left. right.
      rewrite decide_True by done. by apply list_elem_of_singleton.
  - done.
  - rewrite fmap_cons. by constructor.
  - done.
  - intros F q' s'. rewrite Hin, elem_of_cons. split; [intros [?|(? & ? & ? & ->)]; auto|].
    intros [?|(? & [Heq|?] & Hm' & ->)]; [by left| |right; by auto].
    simplify_eq. by rewrite (Hinj q') in Hm'.
Qed.

(** The plan as a whole: [target] says which new master each slot that has to move
    is assigned to. *)
Lemma feedMigInfo_spec :
  0 ≤ slots_by_node N (Z.of_nat (length new)) →
  let nb := slots_by_node N (Z.of_nat (length new)) in
  let r := feedMigInfo h new old N in
  ∃ assigned : gmap string (list Slot),
    NoDup (map_slots assigned) ∧
    (∀ s, s ∈ map_slots assigned ↔ (∃ p, p ∈ old ∧ s ∈ gives nb p) ∨ s ∈ retrieveLostSlots h old N) ∧
    (∀ k, is_Some (assigned !! k) → ∃ q, q ∈ new ∧ k = ID (h !!! q)) ∧
    NoDup (map_slots r.1) ∧ r.2 = Z.of_nat (length (map_slots r.1)) ∧
    ∀ F q s, s ∈ default [] (r.1 !! (F, q)) ↔
      q ∈ new ∧ s ∈ default [] (assigned !! ID (h !!! q)) ∧ migrates q s ∧ F = owner s.
Proof.
  intros Hnb nb r. destruct (slots_to_migrate_spec nb Hnb) as [Hnd Hmem].
  destruct (buildSlotByNodeFromAvailableSlots_spec h new nb (slots_to_migrate h new old N nb))
    as [Hperm Hkeys]; [apply (bom_new Hok)|].
  set (assigned := buildSlotByNodeFromAvailableSlots h new nb (slots_to_migrate h new old N nb)) in *.
  exists assigned.
  assert (buildSlotsByNode h new old N = assigned) as Hbuild.
  { unfold buildSlotsByNode. pose proof (bom_new Hok) as Hne. by destruct new. }
  destruct (feedMigInfo_loop_spec (entries (range 32 assigned)) (∅, 0)) as (moved & Hp & Hsub & Hcnt & Hin).
  { intros k s Hks%elem_of_range_entries. apply Hkeys.
    destruct (assigned !! k); [done|]. by apply elem_of_nil in Hks. }
  assert (feedMigInfo h new old N = foldl (λ acc p, feedMigInfo_slot h new old p.1 acc p.2)
    (∅, 0) (entries (range 32 assigned))) as Hr.
  { unfold feedMigInfo. rewrite Hbuild.
    by rewrite (foldl_entries (λ k, feedMigInfo_slot h new old k)). }
  unfold r. rewrite Hr. cbn [fst snd] in *. rewrite map_slots_empty, app_nil_r in Hp.
  split_and!.
  - by rewrite Hperm.
  - intros s. by rewrite Hperm.
  - done.
  - rewrite Hp. eapply sublist_NoDup; [|exact Hsub]. by rewrite range_entries_snd, Hperm.
  - rewrite Hcnt, Hp. done.
  - intros F q s. rewrite Hin, lookup_empty, elem_of_range_entries. simpl. rewrite elem_of_nil. tauto.
Qed.
End plan.

(** ** Applying the plan *)

Section apply.
Context `{MapRange} `{SortPkg} {W : Type} `{IAdmin W}.

Lemma tell_others_heap all from to slots st :
  safe (tell_others all from to slots) st (λ _ st', st'.1 = st.1).
Proof.
  eapply safe_mono; [apply (safe_for_each all _ st (λ _ st', st'.1 = st.1)); [done|]|done].
  intros done x rest [h' w'] _ Heq. cbn [fst] in Heq.
  apply safe_bind. apply safe_ret. cbn [fst Datatypes.id]. unfold Datatypes.id. cbn [fst].
  case_decide; [by apply safe_ret|]. case_decide; [by apply safe_ret|].
  apply safe_bind. apply safe_on_snd. intros e w'' _. by apply safe_ret.
Qed.

(** A round either stops with an error and leaves the nodes alone, or moves the
    slots from [From] to [To]. *)
Definition moved_heap (e : (option ptr * ptr) * list Slot) (h : heap) : heap :=
  upd_slots (λ l, AddSlots l e.2) e.1.2
    (match e.1.1 with None => h | Some p => upd_slots (λ l, RemoveSlots l e.2) p h end).

Lemma dispatch_migration_heap all e st :
  safe (dispatch_migration all e) st
    (λ err st', st'.1 = match err with None => moved_heap e st.1 | Some _ => st.1 end).
Proof.
  destruct e as [[[p|] q] slots], st as [h w]; unfold dispatch_migration, moved_heap; cbn [fst snd].
  - apply safe_bind, safe_ret. unfold Datatypes.id. cbn [fst]. apply safe_bind, safe_bind, safe_on_snd.
    intros [e1|] w1 _; [by repeat apply safe_ret|].
    apply safe_bind, safe_on_snd. intros [e2|] w2 _; [by repeat apply safe_ret|].
    apply safe_bind, safe_on_snd. intros r3 w3 _. apply safe_bind, safe_on_snd. intros r4 w4 _.
    apply safe_bind, safe_on_snd. intros r5 w5 _. apply safe_bind. intros [] st6 Heq.
    unfold modify in Heq. simplify_eq. cbn [fst].
    apply safe_bind. eapply safe_mono; [apply tell_others_heap|]. intros [] [h7 w7] Heq7. cbn [fst] in Heq7.
    apply safe_ret, safe_bind. intros [] st8 Heq8. unfold modify in Heq8. simplify_eq.
    by apply safe_ret.
  - apply safe_bind, safe_ret. unfold Datatypes.id. cbn [fst]. apply safe_bind, safe_on_snd.
    intros [e1|] w1 _; [by apply safe_ret|].
    apply safe_bind. intros [] st8 Heq8. unfold modify in Heq8. simplify_eq. by apply safe_ret.
Qed.
End apply.

Section result.
Context `{MapRange} `{SortPkg} {W : Type} `{IAdmin W}.
Variable h : heap.
Variables (new old : Nodes) (N : Z).
Hypothesis Hok : bom_ok h new old N.

(** The slots of the nodes after the migrations [done]. *)
Definition after (done : list ((option ptr * ptr) * list Slot)) (h' : heap) : Prop :=
  ∀ p, p ∈ new ++ old → NoDup (Slots (h' !!! p)) ∧
    ∀ s, s ∈ Slots (h' !!! p) ↔
      (s ∈ Slots (h !!! p) ∧ ¬ ∃ q l, ((Some p, q), l) ∈ done ∧ s ∈ l) ∨
      (∃ F l, ((F, p), l) ∈ done ∧ s ∈ l).

Lemma after_step done F q l h' :
  q ∈ new ++ old → (∀ p, F = Some p → p ∈ old ∧ p ≠ q ∧ ∀ s, s ∈ l → s ∈ Slots (h !!! p)) →
  (∀ F' q' l' s, ((F', q'), l') ∈ done → s ∈ l' → s ∉ l) →
  (∀ s p, s ∈ l → p ∈ old → s ∈ Slots (h !!! p) → F = Some p) →
  after done h' → after (done ++ [((F, q), l)]) (moved_heap ((F, q), l) h').
Proof.
  intros Hq HF Huniq Howner Hafter p Hp. destruct (Hafter p Hp) as [Hnd Hin].
  assert (∀ F' p' (s : Z), (∃ q' l', ((F', q'), l') ∈ done ++ [((F, q), l)] ∧ p' = q' ∧ s ∈ l') ↔
    (∃ q' l', ((F', q'), l') ∈ done ∧ p' = q' ∧ s ∈ l') ∨ (F' = F ∧ p' = q ∧ s ∈ l)) as Hdone.
  { intros. setoid_rewrite elem_of_app. setoid_rewrite list_elem_of_singleton.
    split; [intros (? & ? & [?|?] & ? & ?); [left; eauto|simplify_eq; by right]|].
    intros [(? & ? & ? & ? & ?)|(-> & -> & ?)]; eauto 6. }
  assert (∀ s, (∃ q' l', ((Some p, q'), l') ∈ done ++ [((F, q), l)] ∧ s ∈ l') ↔
    (∃ q' l', ((Some p, q'), l') ∈ done ∧ s ∈ l') ∨ (F = Some p ∧ s ∈ l)) as Hfrom.
  { intros s. setoid_rewrite elem_of_app. setoid_rewrite list_elem_of_singleton.
    split; [intros (? & ? & [?|?] & ?); [left; eauto|simplify_eq; by right]|].
    intros [(? & ? & ? & ?)|(-> & ?)]; eauto 6. }
  assert (∀ s, (∃ F' l', ((F', p), l') ∈ done ++ [((F, q), l)] ∧ s ∈ l') ↔
    (∃ F' l', ((F', p), l') ∈ done ∧ s ∈ l') ∨ (p = q ∧ s ∈ l)) as Hto.
  { intros s. setoid_rewrite elem_of_app. setoid_rewrite list_elem_of_singleton.
    split; [intros (? & ? & [?|?] & ?); [left; eauto|simplify_eq; by right]|].
    intros [(? & ? & ? & ?)|(-> & ?)]; eauto 6. }
  clear Hdone.
  set (h1 := match F with None => h' | Some p0 => upd_slots (λ l0, RemoveSlots l0 l) p0 h' end).
  assert (NoDup (Slots (h1 !!! p)) ∧ ∀ s, s ∈ Slots (h1 !!! p) ↔
    s ∈ Slots (h' !!! p) ∧ ¬ (F = Some p ∧ s ∈ l)) as [Hnd1 Hin1].
  { unfold h1. destruct F as [p0|]; [|split; [done|]; intros s; naive_solver].
    unfold upd_slots. rewrite heap_upd_case. case_decide as Heq.
    - subst p0. cbn [Slots set_field]. simpl. rewrite RemoveSlots_filter.
      split; [by apply NoDup_filter|]. intros s. rewrite list_elem_of_filter. naive_solver.
    - split; [done|]. intros s. naive_solver. }
  assert (moved_heap ((F, q), l) h' = upd_slots (λ l0, AddSlots l0 l) q h1) as -> by done.
  assert (NoDup (Slots (upd_slots (λ l0, AddSlots l0 l) q h1 !!! p)) ∧
    ∀ s, s ∈ Slots (upd_slots (λ l0, AddSlots l0 l) q h1 !!! p) ↔
      s ∈ Slots (h1 !!! p) ∨ (p = q ∧ s ∈ l)) as [Hnd2 Hin2].
  { unfold upd_slots. rewrite heap_upd_case. case_decide as Heq; [subst p|].
    - simpl. split; [|intros s; rewrite elem_of_AddSlots; naive_solver].
      destruct (AddSlots_extra (Slots (h1 !!! q)) l) as (extra & -> & ? & Hextra).
      apply NoDup_app. split_and!; [done| |done]. intros s Hs1 Hs2%Hextra. naive_solver.
    - split; [done|]. intros s. naive_solver. }
  split; [done|]. intros s. rewrite Hin2, Hin1, Hin, Hfrom, Hto. split.
  - intros [[[[Hs Hno]|Hs] Hn]|Hs]; [left|right; by left|right; by right].
    split; [done|]. intros [?|?]; auto.
  - intros [[Hs Hn]|[Hs|Hs]]; [left|left|by right].
    + split; [left; split; [done|]|]; intros ?; apply Hn; auto.
    + split; [by right|]. intros [-> Hl]. destruct Hs as (F' & l' & Hd & Hs'). by apply (Huniq F' p l' s).
Qed.

(** What the plan says of each slot of an entry. *)
Record entry_slot (done : list ((option ptr * ptr) * list Slot)) (F : option ptr) (q : ptr) (s : Slot) : Prop := {
  es_new : q ∈ new;
  es_from p : F = Some p → p ∈ old ∧ p ≠ q ∧ s ∈ Slots (h !!! p);
  es_owner p : p ∈ old → s ∈ Slots (h !!! p) → F = Some p;
  es_once F' q' l' : ((F', q'), l') ∈ done → s ∉ l';
}.
Lemma plan_entry done F q l rest s :
  range 33 (feedMigInfo h new old N).1 = done ++ ((F, q), l) :: rest → s ∈ l → entry_slot done F q s.
Proof.
  intros Hsplit Hs. pose proof (bom_N _ _ _ _ Hok) as HNr.
  destruct (feedMigInfo_spec h new old N Hok) as (assigned & _ & _ & _ & Hnd & _ & Hin).
  { apply ceil_div_nonneg; [lia|]. pose proof (bom_new _ _ _ _ Hok). destruct new; [done|]. simpl. lia. }
  set (plan := (feedMigInfo h new old N).1) in *.
  assert (∀ F q l s, ((F, q), l) ∈ range 33 plan → s ∈ l → s ∈ default [] (plan !! (F, q))) as Hel.
  { intros F0 q0 l0 s0 Hl%elem_of_range Hs0. by rewrite Hl. }
  assert (((F, q), l) ∈ range 33 plan) as Hcur by (rewrite Hsplit; set_solver).
  destruct (proj1 (Hin F q s) (Hel _ _ _ _ Hcur Hs)) as (Hq & _ & Hm & ->). split; [done|..].
  - intros p Ho. pose proof (owner_Some _ _ _ _ Ho) as [Hp Hsp]. split_and!; [done| |done]. intros ->. by apply Hm.
  - intros p Hp Hsp. by apply (owner_intro h new old N Hok).
  - intros F' q' l' Hd Hs'. assert (((F', q'), l') ∈ range 33 plan) as Hd' by (rewrite Hsplit; set_solver).
    pose proof (map_slots_unique plan _ _ s Hnd (Hel _ _ _ _ Hd' Hs') (Hel _ _ _ _ Hcur Hs)) as Hkey.
    pose proof (range_NoDup_keys 33 plan) as Hkeys. rewrite Hsplit, fmap_app, fmap_cons in Hkeys. cbn [fst] in Hkeys.
    apply NoDup_app in Hkeys as (_ & Hkeys & _). simplify_eq. apply (Hkeys (owner h old s, q)); [|by left].
    apply list_elem_of_fmap. by exists (owner h old s, q, l').
Qed.

(** An entry without slots leaves the nodes as they are. *)
Lemma after_nothing done F q h' : after done h' → after (done ++ [((F, q), [])]) (moved_heap ((F, q), []) h').
Proof.
  intros Hafter p Hp. destruct (Hafter p Hp) as [Hnd' Hin'].
  assert (Slots (moved_heap (F, q, []) h' !!! p) = Slots (h' !!! p)) as ->.
  { unfold moved_heap. cbn [fst snd]. unfold upd_slots. rewrite heap_upd_case. destruct F; [|by case_decide].
    rewrite !heap_upd_case. repeat case_decide; simpl; by rewrite ?RemoveSlots_nil. }
  split; [done|]. intros s. rewrite Hin'. setoid_rewrite elem_of_app. setoid_rewrite list_elem_of_singleton. split.
  - intros [[? Hno]|(? & ? & ? & ?)]; [left; split; [done|]|right; eauto].
    intros (? & ? & [?|?] & Hs); [apply Hno; eauto|simplify_eq; by apply elem_of_nil in Hs].
  - intros [[? Hno]|(? & ? & [?|?] & Hs)]; [left; split; [done|]|right; eauto|].
    + intros (? & ? & ? & ?). apply Hno. eauto.
    + simplify_eq. by apply elem_of_nil in Hs.
Qed.
Lemma after_entry done F q l h' :
  (∀ s, s ∈ l → entry_slot done F q s) → after done h' → after (done ++ [((F, q), l)]) (moved_heap ((F, q), l) h').
Proof.
  intros Hl Hafter. destruct (destruct_list l) as [(s0 & l0 & ->)|]; [|subst l; by apply after_nothing].
  pose proof (Hl s0 ltac:(by left)) as Hs0. apply after_step; [|..|done].
  - apply elem_of_app. left. by eapply es_new.
  - intros p ->. destruct (es_from _ _ _ _ Hs0 p eq_refl) as (? & ? & _). split_and!; [done..|].
    intros s Hs. by apply (es_from _ _ _ _ (Hl s Hs) p).
  - intros F' q' l' s Hd Hs Hs'. by apply (es_once _ _ _ _ (Hl s Hs') F' q' l').
  - intros s p Hs Hp Hsp. by apply (es_owner _ _ _ _ (Hl s Hs)).
Qed.

(** The migrations of the plan, with what they do to the world: [J] holds after each. *)
Lemma dispatch_loop_inv all w (J : heap → W → Prop) :
  J h w →
  (∀ done F q l h' w', (∀ s, s ∈ l → entry_slot done F q s) → after done h' → J h' w' →
     safe (dispatch_migration all ((F, q), l)) (h', w') (λ e st', e = None → J st'.1 st'.2)) →
  safe (for_err (range 33 (feedMigInfo h new old N).1) (dispatch_migration all)) (h, w)
    (λ e st', ∃ done rest, range 33 (feedMigInfo h new old N).1 = done ++ rest ∧ after done st'.1 ∧
       (e = None → rest = [] ∧ J st'.1 st'.2)).
Proof.
  intros HJ Hstep. set (plan := range 33 (feedMigInfo h new old N).1).
  apply (safe_for_err plan _ (h, w) (λ done st', after done st'.1 ∧ J st'.1 st'.2)).
  - split; [|done]. intros p Hp. split; [by apply (bom_slots_NoDup _ _ _ _ Hok)|]. intros s. cbn [fst].
    setoid_rewrite elem_of_nil. naive_solver.
  - intros done [[F q] l] rest [h' w'] Hsplit [Hafter HJ']. cbn [fst snd] in *.
    assert (∀ s, s ∈ l → entry_slot done F q s) as Hl by (intros s; by eapply plan_entry).
    intros e [h'' w''] Heq. pose proof (dispatch_migration_heap _ _ _ _ _ Heq) as Hh. cbn [fst] in *.
    pose proof (Hstep done F q l h' w' Hl Hafter HJ' _ _ Heq) as HJ''. destruct e as [e|]; subst h''.
    + by exists done, (((F, q), l) :: rest).
    + split; [by apply after_entry|by apply HJ''].
  - intros [h' w'] [Hafter HJ']. exists plan, []. split; [by rewrite app_nil_r|]. auto.
Qed.
Lemma dispatch_loop_after all w :
  safe (for_err (range 33 (feedMigInfo h new old N).1) (dispatch_migration all)) (h, w)
    (λ e st', ∃ done rest, range 33 (feedMigInfo h new old N).1 = done ++ rest ∧ after done st'.1 ∧
       (e = None → rest = [])).
Proof.
  eapply safe_mono; [by apply (dispatch_loop_inv all w (λ _ _, True))|].
  intros e st' (done & rest & ? & ? & Hrest). exists done, rest. naive_solver.
Qed.

(** ** The bill of materials afterwards *)

(** The consequences of [after], for a part [done] of the plan or all of it. *)
Section consequences.
Variables (done rest : list ((option ptr * ptr) * list Slot)) (h' : heap).
Hypothesis Hsplit : range 33 (feedMigInfo h new old N).1 = done ++ rest.
Hypothesis Hafter : after done h'.

Variable assigned : gmap string (list Slot).
Let plan := (feedMigInfo h new old N).1.
Let nb := slots_by_node N (Z.of_nat (length new)).
Hypothesis Hassigned : NoDup (map_slots assigned).
Hypothesis Hmem : ∀ s, s ∈ map_slots assigned ↔
  (∃ p, p ∈ old ∧ s ∈ gives h new nb p) ∨ s ∈ retrieveLostSlots h old N.
Hypothesis Hkeys : ∀ k, is_Some (assigned !! k) → ∃ q, q ∈ new ∧ k = ID (h !!! q).
Hypothesis Hplan : NoDup (map_slots plan).
Hypothesis Hin : ∀ F q s, s ∈ default [] (plan !! (F, q)) ↔
  q ∈ new ∧ s ∈ default [] (assigned !! ID (h !!! q)) ∧ migrates h old q s ∧ F = owner h old s.

Lemma entry_plan F q l s : ((F, q), l) ∈ done → s ∈ l →
  s ∈ default [] (plan !! (F, q)) ∧ q ∈ new ∧ s ∈ default [] (assigned !! ID (h !!! q)) ∧
  migrates h old q s ∧ F = owner h old s.
Proof.
  intros Hd Hs. assert (((F, q), l) ∈ range 33 plan) as Hd'%elem_of_range.
  { unfold plan. rewrite Hsplit. apply elem_of_app. by left. }
  assert (s ∈ default [] (plan !! (F, q))) as Hs' by by rewrite Hd'.
  split; [done|]. by apply Hin.
Qed.

Lemma holder_old p s : p ∈ new ++ old → s ∈ Slots (h !!! p) → p ∈ old.
Proof.
  intros Hp Hs. apply dec_stable. intros Hno. apply elem_of_app in Hp as [Hp|?]; [|done].
  rewrite (bom_new_empty _ _ _ _ Hok) in Hs by done. by apply elem_of_nil in Hs.
Qed.

Lemma after_disjoint p q s :
  p ∈ new ++ old → q ∈ new ++ old → s ∈ Slots (h' !!! p) → s ∈ Slots (h' !!! q) → p = q.
Proof.
  intros Hp Hq Hsp Hsq. apply (Hafter p Hp) in Hsp. apply (Hafter q Hq) in Hsq.
  assert (∀ a b, a ∈ new ++ old → s ∈ Slots (h !!! a) →
    (¬ ∃ q l, ((Some a, q), l) ∈ done ∧ s ∈ l) → (∃ F l, ((F, b), l) ∈ done ∧ s ∈ l) → False) as Hno.
  { intros a b Ha Hsa Hn (F & l & Hd & Hl). destruct (entry_plan F b l s Hd Hl) as (_ & _ & _ & _ & HF).
    rewrite (owner_intro h new old N Hok s a) in HF by (done || by eapply holder_old).
    subst F. apply Hn. eauto. }
  destruct Hsp as [[Hsp Hnp]|Hsp], Hsq as [[Hsq Hnq]|Hsq].
  - apply (bom_disjoint _ _ _ _ Hok p q s); [by eapply holder_old..|done|done].
  - by destruct (Hno p q).
  - by destruct (Hno q p).
  - destruct Hsp as (F & l & Hd & Hl), Hsq as (F' & l' & Hd' & Hl').
    pose proof (entry_plan _ _ _ _ Hd Hl) as [Hs _]. pose proof (entry_plan _ _ _ _ Hd' Hl') as [Hs' _].
    pose proof (map_slots_unique plan _ _ s Hplan Hs Hs'). by simplify_eq.
Qed.

Lemma after_kept p s :
  p ∈ old → s ∈ Slots (h !!! p) → ∃ q, q ∈ new ++ old ∧ s ∈ Slots (h' !!! q).
Proof.
  intros Hp Hs.
  destruct (decide (Exists (λ e, e.1.1 = Some p ∧ s ∈ e.2) done)) as [Hex|Hno].
  - apply Exists_exists in Hex as ([[F q] l] & Hd & HF & Hl). cbn [fst snd] in *. subst F.
    destruct (entry_plan _ _ _ _ Hd Hl) as (_ & Hq & _).
    exists q. split; [set_solver|]. apply (Hafter q); [set_solver|]. right. eauto.
  - exists p. split; [set_solver|]. apply (Hafter p); [set_solver|]. left. split; [done|].
    intros (q & l & Hd & Hl). apply Hno, Exists_exists. exists (Some p, q, l). done.
Qed.

Hypothesis Hall : rest = [].

Lemma plan_done F q s : s ∈ default [] (plan !! (F, q)) → ∃ l, ((F, q), l) ∈ done ∧ s ∈ l.
Proof.
  intros Hs. destruct (plan !! (F, q)) as [l|] eqn:Hl; [|by apply elem_of_nil in Hs].
  exists l. split; [|done]. apply (elem_of_range 33) in Hl. unfold plan in Hl.
  by rewrite Hsplit, Hall, app_nil_r in Hl.
Qed.

Lemma assigned_holder s : s ∈ map_slots assigned → ∃ q, q ∈ new ∧ s ∈ Slots (h' !!! q) ∧
  (∀ p, p ∈ old → s ∈ Slots (h !!! p) → p ≠ q → ∃ q l, ((Some p, q), l) ∈ done ∧ s ∈ l).
Proof.
  intros (k & l & Hk & Hs)%elem_of_map_slots. destruct (Hkeys k) as (q & Hq & ->); [by eexists|].
  assert (s ∈ default [] (assigned !! ID (h !!! q))) as Hsq by by rewrite Hk.
  exists q. split; [done|]. destruct (decide (owner h old s = Some q)) as [Ho|Ho].
  - apply owner_Some in Ho as Ho'. destruct Ho' as [Hqo Hsl]. split.
    + apply (Hafter q); [set_solver|]. left. split; [done|]. intros (q' & l' & Hd & Hl').
      destruct (entry_plan _ _ _ _ Hd Hl') as (_ & Hq' & Hs' & Hm & _).
      pose proof (map_slots_unique assigned _ _ s Hassigned Hsq Hs') as Hid.
      apply (bom_id _ _ _ _ Hok) in Hid; [|set_solver..]. subst q'. by apply Hm.
    + intros p Hp Hsp Hne. destruct Hne. by eapply (bom_disjoint _ _ _ _ Hok).
  - destruct (plan_done (owner h old s) q s) as (l' & Hd & Hl'); [by apply Hin|]. split.
    + apply (Hafter q); [set_solver|]. right. eauto.
    + intros p Hp Hsp Hne. exists q, l'. split; [|done].
      by rewrite (owner_intro h new old N Hok s p) in Hd.
Qed.

Lemma after_removed p : p ∈ old → p ∉ new → Slots (h' !!! p) = [].
Proof.
  intros Hp Hpn. destruct (Slots (h' !!! p)) as [|s l'] eqn:Hs; [done|]. exfalso.
  assert (s ∈ Slots (h' !!! p)) as Hsp by (rewrite Hs; by left).
  apply (Hafter p) in Hsp as [[Hsp Hno]|(F & l & Hd & Hl)]; [..|set_solver].
  - destruct (assigned_holder s) as (q & Hq & _ & Hmv).
    { apply Hmem. left. exists p. split; [done|]. unfold gives. by rewrite decide_False. }
    apply Hno, (Hmv p); [done|done|]. by intros ->.
  - by destruct (entry_plan _ _ _ _ Hd Hl) as (_ & ? & _).
Qed.

Lemma after_partition : (new ≫= λ p, Slots (h' !!! p)) ≡ₚ seqZ 0 N.
Proof.
  destruct (retrieveLostSlots_spec h old N) as [_ Hlost];
    [pose proof (bom_N _ _ _ _ Hok); lia|apply (bom_slots_range _ _ _ _ Hok)|].
  apply NoDup_Permutation; [|apply NoDup_seqZ|].
  - apply NoDup_bind.
    + intros p q s Hsp Hsq Hp Hq. apply (after_disjoint p q s); [set_solver..|done|done].
    + intros p Hp. apply (Hafter p). set_solver.
    + apply (bom_NoDup_new _ _ _ _ Hok).
  - intros s. rewrite list_elem_of_bind, elem_of_seqZ. split.
    + intros (p & Hs & Hp). apply (Hafter p) in Hs; [|set_solver].
      assert ((∃ q, q ∈ old ∧ s ∈ Slots (h !!! q)) ∨ s ∈ retrieveLostSlots h old N) as [(q & Hq & Hsq)|Hl].
      { destruct Hs as [[Hs _]|(F & l & Hd & Hl)].
        - left. exists p. split; [|done]. eapply holder_old; [|done]. set_solver.
        - destruct (entry_plan _ _ _ _ Hd Hl) as (_ & _ & Hsa & _).
          assert (s ∈ map_slots assigned) as Hsm.
          { apply elem_of_map_slots. destruct (assigned !! ID (h !!! p)) as [l'|] eqn:E; [eauto|].
            by apply elem_of_nil in Hsa. }
          apply Hmem in Hsm as [(q & Hq & Hsq%gives_subset)|?]; [left; eauto|by right]. }
      * pose proof (bom_slots_range _ _ _ _ Hok q s Hq Hsq). lia.
      * apply Hlost in Hl. lia.
    + intros Hs. destruct (decide (s ∈ map_slots assigned)) as [Ha|Ha].
      { destruct (assigned_holder s Ha) as (q & Hq & Hsq & _). eauto. }
      destruct (owner h old s) as [p|] eqn:Ho.
      * apply owner_Some in Ho as [Hp Hsp]. exists p.
        assert (p ∈ new) as Hpn.
        { apply dec_stable. intros Hpn. apply Ha, Hmem. left. exists p. split; [done|].
          unfold gives. by rewrite decide_False. }
        split; [|done]. apply (Hafter p); [set_solver|]. left. split; [done|].
        intros (q & l & Hd & Hl). destruct (entry_plan _ _ _ _ Hd Hl) as (_ & _ & Hsa & _).
        apply Ha, elem_of_map_slots. destruct (assigned !! ID (h !!! q)) eqn:E; [eauto|].
        by apply elem_of_nil in Hsa.
      * destruct Ha. apply Hmem. right. apply Hlost. split; [lia|]. intros p Hp.
        by apply (owner_None h old).
Qed.
End consequences.
End result.

(** The calls of a dispatch return (they may fail). *)
Class AdminReturns (W : Type) `{IAdmin W} := {
  SetSlots_returns : ∀ addr action slots id w, runs (admin_SetSlots addr action slots id) w (λ _ _, True);
  AddSlots_returns : ∀ addr slots w, runs (admin_AddSlots addr slots) w (λ _ _, True);
  SetSlot_returns : ∀ addr action slot id w, runs (admin_SetSlot addr action slot id) w (λ _ _, True);
  MigrateKeys_returns : ∀ addr dest slots b t r w, runs (admin_MigrateKeys addr dest slots b t r) w (λ _ _, True);
  MigrateKeysInSlot_returns : ∀ addr dest slot b t r w,
    runs (admin_MigrateKeysInSlot addr dest slot b t r) w (λ _ _, True);
}.

Section returns.
Context `{MapRange} `{SortPkg} {W : Type} `{AdminReturns W}.

Lemma runs_on_snd {S T A} (m : M T A) (s : S) (t : T) :
  runs m t (λ _ _, True) → runs (on_snd m) (s, t) (λ _ _, True).
Proof. intros (a & t' & Hm & _). exists a, (s, t'). unfold on_snd. simpl. by rewrite Hm. Qed.

Lemma runs_then {S A B} (m : M S A) (k : A → M S B) s :
  runs m s (λ _ _, True) → (∀ a s', runs (k a) s' (λ _ _, True)) → runs (m ≫= k) s (λ _ _, True).
Proof. intros Hm Hk. apply runs_bind. eapply runs_mono; [exact Hm|]. intros a s' _. apply Hk. Qed.

Lemma dispatch_migration_returns all e st : runs (dispatch_migration all e) st (λ _ _, True).
Proof.
  assert (∀ f (st' : heap * W), runs (modify f) st' (λ _ _, True)) as Hmod by (intros; by eexists _, _).
  assert (∀ A (a : A) (st' : heap * W), runs (mret a) st' (λ _ _, True)) as Hret by (intros; by apply runs_ret).
  destruct e as [[[p|] q] slots]; unfold dispatch_migration; cbn [fst snd].
  - apply runs_then; [by apply runs_ret|]. intros [h1 w1] [h2 w2]. apply runs_then.
    + apply runs_then; [apply runs_on_snd, SetSlots_returns|]. intros [?|] [??]; [done|].
      apply runs_then; [apply runs_on_snd, SetSlots_returns|]. intros [?|] [??]; [done|].
      apply runs_then; [apply runs_on_snd, MigrateKeys_returns|]. intros ? [??].
      apply runs_then; [apply runs_on_snd, SetSlots_returns|]. intros ? [??].
      apply runs_then; [apply runs_on_snd, SetSlots_returns|]. intros ? [??].
      apply runs_then; [done|]. intros ? [??]. apply runs_then; [|done].
      apply runs_for_each. intros m [??] _. apply runs_then; [by apply runs_ret|]. intros [??] [??].
      cbv beta zeta. cbn [fst]. case_decide; [done|]. case_decide; [done|].
      apply runs_then; [apply runs_on_snd, SetSlots_returns|done].
    + intros [?|] [??]; [done|]. by apply runs_then.
  - apply runs_then; [by apply runs_ret|]. intros [h1 w1] [h2 w2].
    apply runs_then; [apply runs_on_snd, AddSlots_returns|]. intros [?|] [??]; [done|]. by apply runs_then.
Qed.

(** How the slots lie in [h'] after a migration from [old] to [new] that started in
    [h] and ended with [err]. *)
Definition handed_over (h : heap) (new old : Nodes) (N : Z) (err : option error) (h' : heap) : Prop :=
  (∀ p, p ∈ new ++ old → NoDup (Slots (h' !!! p))) ∧
  (∀ p q s, p ∈ new ++ old → q ∈ new ++ old →
     s ∈ Slots (h' !!! p) → s ∈ Slots (h' !!! q) → p = q) ∧
  (∀ p s, p ∈ old → s ∈ Slots (h !!! p) → ∃ q, q ∈ new ++ old ∧ s ∈ Slots (h' !!! q)) ∧
  (err = None →
     (new ≫= λ p, Slots (h' !!! p)) ≡ₚ seqZ 0 N ∧
     ∀ p, p ∈ old → p ∉ new → Slots (h' !!! p) = []).

Lemma DispatchSlotToNewMasters_runs c h w new old all N :
  bom_ok h new old N → GetHashMaxSlot w + 1 = N →
  runs (DispatchSlotToNewMasters c new old all) (h, w) (λ r st', handed_over h new old N r.2 st'.1).
Proof.
  intros Hok HN. pose proof (bom_N _ _ _ _ Hok) as HNr.
  unfold DispatchSlotToNewMasters. apply runs_bind, runs_ret. unfold Datatypes.id. cbn [fst snd].
  assert (s64 (u64 (GetHashMaxSlot w + 1)) = N) as ->.
  { rewrite HN, u64_small by (unfold max_uint64; lia). by rewrite s64_small by lia. }
  destruct (feedMigInfo h new old N) as [plan info] eqn:Hfeed. apply runs_bind.
  destruct (runs_for_err (range 33 plan) (dispatch_migration all) (h, w)) as (e & [h' w'] & Hrun & _).
  { intros. apply dispatch_migration_returns. }
  exists e, (h', w'). split; [done|]. apply runs_ret. cbn [fst snd].
  assert (plan = (feedMigInfo h new old N).1) as -> by by rewrite Hfeed.
  destruct (dispatch_loop_after h new old N Hok all w e (h', w') Hrun)
    as (done & rest & Hsplit & Hafter & Hrest). cbn [fst] in Hafter.
  destruct (feedMigInfo_spec h new old N Hok) as (assigned & Ha1 & Ha2 & Ha3 & Ha4 & _ & Ha5).
  { apply ceil_div_nonneg; [lia|]. pose proof (bom_new _ _ _ _ Hok). destruct new; [done|]. simpl. lia. }
  unfold handed_over. cbn [fst snd]. split_and!.
  - intros p Hp. by apply Hafter.
  - intros. by eapply after_disjoint.
  - intros. by eapply after_kept.
  - intros ->. split; [by eapply after_partition; eauto|]. intros. by eapply after_removed; eauto.
Qed.

(** C3: [DispatchSlotToNewMasters], on masters with distinct IDs that hold the slots
    of [0, N) without overlap, always returns.  Whatever the outcome, no slot that had
    an owner is lost and no slot has two owners in the nodes it leaves.  When it
    succeeds, the new masters partition all of [0, N), lost slots included, and the
    masters that go away hold nothing. *)
Theorem DispatchSlotToNewMasters_partition c h w new old all N :
  bom_ok h new old N → GetHashMaxSlot w + 1 = N →
  runs (DispatchSlotToNewMasters c new old all) (h, w) (λ r st',
    let h' := st'.1 in
    (∀ p, p ∈ new ++ old → NoDup (Slots (h' !!! p))) ∧
    (∀ p q s, p ∈ new ++ old → q ∈ new ++ old →
       s ∈ Slots (h' !!! p) → s ∈ Slots (h' !!! q) → p = q) ∧
    (∀ p s, p ∈ old → s ∈ Slots (h !!! p) → ∃ q, q ∈ new ++ old ∧ s ∈ Slots (h' !!! q)) ∧
    (r.2 = None →
       (new ≫= λ p, Slots (h' !!! p)) ≡ₚ seqZ 0 N ∧
       ∀ p, p ∈ old → p ∉ new → Slots (h' !!! p) = [])).
Proof. apply DispatchSlotToNewMasters_runs. Qed.
End returns.

(** ** The plan, and the order of the commands *)

Section statements.
Context `{MapRange} `{SortPkg}.

(** C4: [feedMigInfo] plans every move exactly once.  A slot is in at most one list of
    the plan; it goes from the old master that holds it (or from none, if it is lost)
    to a different, new master; every slot that no old master holds, and every slot of
    a master that goes away, is in the plan; and the counter is the number of slots in
    the plan. *)
Theorem feedMigInfo_moves_once h new old N :
  bom_ok h new old N →
  let (plan, NbslotsToMigrate) := feedMigInfo h new old N in
  NoDup (map_slots plan) ∧ NbslotsToMigrate = Z.of_nat (length (map_slots plan)) ∧
  (∀ F q l s, plan !! (F, q) = Some l → s ∈ l →
     q ∈ new ∧ F ≠ Some q ∧ 0 ≤ s < N ∧
     match F with
     | Some p => p ∈ old ∧ s ∈ Slots (h !!! p)
     | None => ∀ p, p ∈ old → s ∉ Slots (h !!! p)
     end) ∧
  (∀ s, 0 ≤ s < N → (∀ p, p ∈ old → p ∈ new → s ∉ Slots (h !!! p)) → s ∈ map_slots plan).
Proof.
  intros Hok. destruct (feedMigInfo h new old N) as [plan n] eqn:Hfeed.
  pose proof (bom_N _ _ _ _ Hok) as HNr.
  destruct (retrieveLostSlots_spec h old N) as [_ Hlost]; [lia|apply (bom_slots_range _ _ _ _ Hok)|].
  destruct (feedMigInfo_spec h new old N Hok) as (assigned & _ & Hmem & Hkeys & Hnd & Hcnt & Hin).
  { apply ceil_div_nonneg; [lia|]. pose proof (bom_new _ _ _ _ Hok). destruct new; [done|]. simpl. lia. }
  rewrite Hfeed in *. cbn [fst snd] in *.
  assert (∀ k s, s ∈ default [] (assigned !! k) → s ∈ map_slots assigned) as Has.
  { intros k s Hs. apply elem_of_map_slots. destruct (assigned !! k) as [l|] eqn:E; [eauto|].
    by apply elem_of_nil in Hs. }
  split_and!; [done|done| |].
  - intros F q l s Hl Hs. assert (s ∈ default [] (plan !! (F, q))) as Hs' by by rewrite Hl.
    apply Hin in Hs' as (Hq & Hsa & Hm & ->). split; [done|]. split; [done|].
    apply Has, Hmem in Hsa. destruct (owner h old s) as [p|] eqn:Ho.
    + apply owner_Some in Ho as [Hp Hsp]. split; [|done]. by apply (bom_slots_range _ _ _ _ Hok p).
    + assert (∀ p, p ∈ old → s ∉ Slots (h !!! p)) as Hno by (intros; by apply (owner_None h old)).
      split; [|done]. destruct Hsa as [(p & Hp & Hg%gives_subset)|Hl']; [by destruct (Hno p)|].
      by apply Hlost.
  - intros s Hs Hkept. apply elem_of_map_slots.
    assert (s ∈ map_slots assigned) as (k & l & Hk & Hsl)%elem_of_map_slots.
    { apply Hmem. destruct (owner h old s) as [p|] eqn:Ho.
      - apply owner_Some in Ho as [Hp Hsp]. left. exists p. split; [done|]. unfold gives.
        rewrite decide_False; [done|]. intros Hpn. by apply (Hkept p).
      - right. apply Hlost. split; [done|]. intros. by apply (owner_None h old). }
    destruct (Hkeys k) as (q & Hq & ->); [by eexists|].
    assert (s ∈ default [] (plan !! (owner h old s, q))) as Hsp.
    { apply Hin. rewrite Hk. split_and!; [done..| |done]. intros Ho.
      apply owner_Some in Ho as [Ho Hs']. by apply (Hkept q). }
    destruct (plan !! (owner h old s, q)) as [l'|] eqn:E; [eauto|]. by apply elem_of_nil in Hsp.
Qed.

(** The other masters that are told of a migration: those at another address that
    still hold slots. *)
Definition told (h : heap) (from to m : ptr) : Prop :=
  IPPort (h !!! m) ≠ IPPort (h !!! to) ∧ IPPort (h !!! m) ≠ IPPort (h !!! from) ∧
  TotalSlots (h !!! m) ≠ 0.
#[export] Instance told_dec h from to m : Decision (told h from to m).
Proof. unfold told. apply _. Defined.

Lemma tell_others_calls fails all from to slots h tr :
  @tell_others _ (recording_admin fails) all from to slots (h, tr) =
  Val ((), (h, tr ++ ((λ m, CallSetSlots (IPPort (h !!! m)) "NODE" slots (ID (h !!! to))) <$>
                      filter (told h from to) all))).
Proof.
  unfold tell_others. revert tr. induction all as [|m all IH]; intros tr; cbn [for_each].
  { by rewrite app_nil_r. }
  rewrite filter_cons. unfold mbind, M_bind. unfold gets at 1. cbn [go_bind fst snd Datatypes.id].
  unfold Datatypes.id. cbn [fst].
  destruct (decide (IPPort (h !!! m) = IPPort (h !!! to) ∨ IPPort (h !!! m) = IPPort (h !!! from))) as [Ha|Ha].
  { cbn. rewrite IH. by rewrite decide_False by (intros (? & ? & ?); naive_solver). }
  destruct (decide (TotalSlots (h !!! m) = 0)) as [Hz|Hz].
  { cbn. rewrite IH. by rewrite decide_False by (intros (? & ? & ?); naive_solver). }
  rewrite decide_True by (split_and!; naive_solver).
  cbn. rewrite IH, <- (assoc_L (++)). done.
Qed.

(** C22: the commands of one migration, in order: IMPORTING is set on the destination,
    then MIGRATING on the source, then the keys move, then the destination and after it
    the source learn the new owner, and last the other masters that still hold slots.
    When IMPORTING or MIGRATING fails no further command is sent and no node changes. *)
Theorem dispatch_migration_order fails all p q slots h tr :
  let importing := CallSetSlots (IPPort (h !!! q)) "IMPORTING" slots (ID (h !!! p)) in
  let migrating := CallSetSlots (IPPort (h !!! p)) "MIGRATING" slots (ID (h !!! q)) in
  let h1 := upd_slots (λ l, RemoveSlots l slots) p h in
  @dispatch_migration _ (recording_admin fails) all ((Some p, q), slots) (h, tr) =
  if fails importing then Val (Some (ErrText "refused"), (h, tr ++ [importing]))
  else if fails migrating then Val (Some (ErrText "refused"), (h, tr ++ [importing; migrating]))
  else Val (None, (upd_slots (λ l, AddSlots l slots) q h1,
    tr ++ [importing; migrating;
           CallMigrateKeys (IPPort (h !!! p)) (ID (h !!! q)) slots;
           CallSetSlots (IPPort (h !!! q)) "NODE" slots (ID (h !!! q));
           CallSetSlots (IPPort (h !!! p)) "NODE" slots (ID (h !!! q))] ++
      ((λ m, CallSetSlots (IPPort (h1 !!! m)) "NODE" slots (ID (h1 !!! q))) <$> filter (told h1 p q) all))).
Proof.
  intros importing migrating h1. unfold dispatch_migration, mbind, M_bind.
  unfold gets. unfold Datatypes.id. cbn [go_bind fst snd].
  unfold on_snd. cbn [recording_admin admin_SetSlots]. unfold record. cbn [go_bind fst snd].
  fold importing. destruct (fails importing); [done|].
  cbn [go_bind fst snd mret M_ret]. fold migrating. rewrite <- (assoc_L (++)).
  destruct (fails migrating); [done|].
  cbn [go_bind fst snd admin_MigrateKeys recording_admin record mbind M_bind mret M_ret modify].
  unfold mbind, M_bind, record, mret, M_ret. cbn [go_bind fst snd]. fold h1.
  rewrite tell_others_calls. cbn [go_bind fst snd]. by rewrite <- !(assoc_L (++)).
Qed.
End statements.

(** ** Witnesses *)

Definition demo_masters : heap :=
  {[ 1%positive := demo_node "a" "ip1" [0; 1]; 2%positive := demo_node "b" "ip2" [2] ]}.
Definition demo_ctx : Ctx := mkCtx 1 "demo" (NewCluster "demo" "ns") ∅ [] ∅ ∅ false.

Lemma demo_bom_ok : bom_ok demo_masters [1%positive] [1%positive; 2%positive] 16384.
Proof.
  assert (∀ p, p ∈ [1%positive] ++ [1%positive; 2%positive] → p = 1%positive ∨ p = 2%positive) as Hp by set_solver.
  assert (∀ p, p ∈ [1%positive; 2%positive] → p = 1%positive ∨ p = 2%positive) as Hp' by set_solver.
  split.
  - discriminate.
  - by apply (bool_decide_unpack (NoDup [1%positive])).
  - by apply (bool_decide_unpack (NoDup [1%positive; 2%positive])).
  - intros p q [->| ->]%Hp [->| ->]%Hp Heq; first [reflexivity|vm_compute in Heq; discriminate].
  - intros p [->| ->]%Hp; discriminate.
  - by vm_compute.
  - intros p [->| ->]%Hp.
    + by apply (bool_decide_unpack (NoDup [0; 1])).
    + by apply (bool_decide_unpack (NoDup [2])).
  - intros p s [->| ->]%Hp'.
    + change (Slots (demo_masters !!! 1%positive)) with [0; 1]. rewrite !elem_of_cons, elem_of_nil. lia.
    + change (Slots (demo_masters !!! 2%positive)) with [2]. rewrite !elem_of_cons, elem_of_nil. lia.
  - intros p q s [->| ->]%Hp' [->| ->]%Hp'; try (intros _ _; reflexivity).
    + change (Slots (demo_masters !!! 1%positive)) with [0; 1].
      change (Slots (demo_masters !!! 2%positive)) with [2]. rewrite !elem_of_cons, !elem_of_nil. lia.
    + change (Slots (demo_masters !!! 1%positive)) with [0; 1].
      change (Slots (demo_masters !!! 2%positive)) with [2]. rewrite !elem_of_cons, !elem_of_nil. lia.
  - intros p Hin Hno. apply list_elem_of_singleton in Hin as ->. destruct Hno. by left.
Qed.

Lemma recording_admin_returns fails : @AdminReturns (list call) (recording_admin fails).
Proof. by split; intros; eexists _, _. Qed.

Lemma DispatchSlotToNewMasters_partition_witness :
  ∃ r st', @DispatchSlotToNewMasters range_default sort_default (list call) (recording_admin (λ _, false))
      demo_ctx [1%positive] [1%positive; 2%positive] [1%positive; 2%positive] (demo_masters, []) = Val (r, st') ∧
    (r.2 = None → Slots (st'.1 !!! 2%positive) = []).
Proof.
  destruct (@DispatchSlotToNewMasters_partition range_default sort_default (list call)
    (recording_admin (λ _, false)) (recording_admin_returns _) demo_ctx demo_masters []
    [1%positive] [1%positive; 2%positive] [1%positive; 2%positive] 16384 demo_bom_ok eq_refl)
    as (r & st' & Hrun & _ & _ & _ & Hpost).
  exists r, st'. split; [exact Hrun|]. intros Hr. apply Hpost; [exact Hr|right; left|].
  intros Hin%list_elem_of_singleton. discriminate.
Defined.

Lemma feedMigInfo_moves_once_witness :
  let (plan, n) := @feedMigInfo range_default sort_default demo_masters [1%positive] [1%positive; 2%positive] 16384 in
  NoDup (map_slots plan) ∧ n = Z.of_nat (length (map_slots plan)).
Proof.
  pose proof (@feedMigInfo_moves_once range_default sort_default demo_masters [1%positive]
    [1%positive; 2%positive] 16384 demo_bom_ok) as Hw.
  destruct (@feedMigInfo range_default sort_default demo_masters [1%positive] [1%positive; 2%positive] 16384).
  destruct Hw as (H1 & H2 & _). by split.
Defined.
