(* ===== verification/Rebalance.v ===== *)
(** [pkg/controller/clustering/rebalance.go]: spreading the slots over the masters
    after a scale-up ([RebalancedCluster]), and the first allocation of the slots
    ([AllocSlots]).

    [SortByFunc] sorts the caller's slices in place; the callers do not use them
    afterwards.  The two loops without a bound in the source run on fuel. *)

From Stdlib Require Import ZArith QArith Lia.
From S2P Require Import Prelude GoStrings GoFloat Errors Slot Node ClusterInfo AdminInterface.
From S2P Require Import Clustering Migration.

Local Open Scope Z_scope.

(** [MovedNode] *)
Record MovedNode := mkMovedNode { Source : ptr; mv_Slot : Slot }.

Section rebalance.
Context `{SortPkg}.
Implicit Types (h : heap).

(** [for i := 0; i < int(n); i++ { if len(moved) < numSlots { ... keys[i] ... } }] *)
Fixpoint computeReshardTable_node (fuel : nat) (i : nat) (node : ptr) (keys : list Slot) (numSlots : Z)
    (moved : list MovedNode) : go (list MovedNode) :=
  match fuel with
  | O => Val moved
  | S fuel' =>
      if decide (Z.of_nat (length moved) < numSlots) then
        match keys !! i with
        | None => Panics
        | Some s =>
            computeReshardTable_node fuel' (S i) node keys numSlots (moved ++ [mkMovedNode node s])
        end
      else computeReshardTable_node fuel' (S i) node keys numSlots moved
  end.

Fixpoint computeReshardTable_loop h (first : bool) (sources : Nodes) (numSlots sourceTotSlots : Z)
    (moved : list MovedNode) : go (list MovedNode) :=
  match sources with
  | [] => Val moved
  | node :: rest =>
      let n := fmul (fdiv (float_of_int numSlots) (float_of_int sourceTotSlots))
                 (float_of_int (TotalSlots (h !!! node))) in
      let n := if first then math_Ceil n else math_Floor n in
      let! moved := computeReshardTable_node (Z.to_nat (int_of_float n)) 0 node
                      (Slots (h !!! node)) numSlots moved in
      computeReshardTable_loop h false rest numSlots sourceTotSlots moved
  end.

(** [computeReshardTable] *)
Definition computeReshardTable h (src : Nodes) (numSlots : Z) : go (list MovedNode) :=
  let sources := SortByFunc src (λ a b, TotalSlots (h !!! a) <? TotalSlots (h !!! b)) in
  let sourceTotSlots := foldl (λ acc p, acc + TotalSlots (h !!! p)) 0 sources in
  computeReshardTable_loop h true sources numSlots sourceTotSlots [].

(** One pass of the second loop of [RebalancedCluster]. *)
Fixpoint lower_balances (nodes : Nodes) (h : heap) (totalBalance : Z) : heap * Z :=
  match nodes with
  | [] => (h, totalBalance)
  | node :: rest =>
      if (Balance (h !!! node) <? 0) && (0 <? totalBalance)
      then lower_balances rest (heap_upd (λ n, SetBalance n (Balance n - 1)) node h) (totalBalance - 1)
      else lower_balances rest h totalBalance
  end.
(** [for totalBalance > 0 { ... }] *)
Fixpoint lower_loop (fuel : nat) (nodes : Nodes) (h : heap) (totalBalance : Z) : go heap :=
  if decide (0 < totalBalance) then
    match fuel with
    | O => Diverges
    | S fuel' => let (h, t) := lower_balances nodes h totalBalance in lower_loop fuel' nodes h t
    end
  else Val h.

(** The balances [RebalancedCluster] starts from. *)
Definition set_balances (max : Slot) (nodes : Nodes) (h : heap) : heap :=
  foldl (λ h node,
    let expected := int_of_float (fdiv (float_of_int (u64 (max + 1))) (float_of_int (Z.of_nat (length nodes)))) in
    heap_upd (λ n, SetBalance n (Z.of_nat (length (Slots n)) - expected)) node h) h nodes.

Definition total_balance h (nodes : Nodes) : Z := foldl (λ acc p, acc + Balance (h !!! p)) 0 nodes.

Context {W : Type} `{IAdmin W}.

(** [moveSlot] *)
Definition moveSlot (source : MovedNode) (target : ptr) : M (heap * W) (option error) :=
  st ← gets Datatypes.id;
  let h := st.1 in
  let src := Source source in
  e ← on_snd (admin_SetSlot (IPPort (h !!! target)) "IMPORTING" (mv_Slot source) (ID (h !!! target)));
  match e with
  | Some err => mret (Some err)
  | None =>
      e ← on_snd (admin_SetSlot (IPPort (h !!! src)) "MIGRATING" (mv_Slot source) (ID (h !!! src)));
      match e with
      | Some err => mret (Some err)
      | None =>
          r ← on_snd (admin_MigrateKeysInSlot (IPPort (h !!! src)) (h !!! target) (mv_Slot source) 10 30000 true);
          match r with
          | (_, Some err) => mret (Some err)
          | (_, None) =>
              on_snd (admin_SetSlot (IPPort (h !!! target)) "NODE" (mv_Slot source) (ID (h !!! target)));;
              on_snd (admin_SetSlot (IPPort (h !!! src)) "NODE" (mv_Slot source) (ID (h !!! target)));;
              modify (λ st, (upd_slots (λ l, RemoveSlot l (mv_Slot source)) src st.1, st.2));;
              mret None
          end
      end
  end.

(** [numSlots]: the smaller of the absolute balances. *)
Definition num_slots (dst src : Z) : float64 :=
  if fless (math_Abs (float_of_int dst)) (math_Abs (float_of_int src))
  then math_Abs (float_of_int dst) else math_Abs (float_of_int src).

(** The last loop of [RebalancedCluster]; the indices stay within the slice. *)
Fixpoint rebalance_loop (fuel : nat) (sn : Nodes) (dstIdx srcIdx : Z) : M (heap * W) (option error) :=
  if decide (dstIdx < srcIdx) then
    match fuel with
    | O => λ _, Diverges
    | S fuel' =>
        let dst := sn !!! Z.to_nat dstIdx in
        let src := sn !!! Z.to_nat srcIdx in
        h ← gets fst;
        let numSlots := num_slots (Balance (h !!! dst)) (Balance (h !!! src)) in
        e ← (if fless (Fin 0) numSlots then
               table ← pure (computeReshardTable h [src] (int_of_float numSlots));
               for_err table (λ e, moveSlot e dst)
             else mret None);
        match e with
        | Some err => mret (Some err)
        | None =>
            modify (λ st, (heap_upd (λ n, SetBalance n (Balance n + int_of_float numSlots)) dst st.1, st.2));;
            modify (λ st, (heap_upd (λ n, SetBalance n (Balance n - int_of_float numSlots)) src st.1, st.2));;
            h ← gets fst;
            rebalance_loop fuel' sn
              (if decide (Balance (h !!! dst) = 0) then dstIdx + 1 else dstIdx)
              (if decide (Balance (h !!! src) = 0) then srcIdx - 1 else srcIdx)
        end
    end
  else mret None.

(** [RebalancedCluster] *)
Definition RebalancedCluster (newMasterNodes : Nodes) : M (heap * W) (option error) :=
  st ← gets Datatypes.id;
  let h := set_balances (GetHashMaxSlot st.2) newMasterNodes st.1 in
  let totalBalance := total_balance h newMasterNodes in
  h ← pure (lower_loop (Z.to_nat totalBalance) newMasterNodes h totalBalance);
  modify (λ st, (h, st.2));;
  let sn := SortByFunc newMasterNodes (λ a b, Balance (h !!! a) <? Balance (h !!! b)) in
  rebalance_loop (2 * length sn) sn 0 (Z.of_nat (length sn) - 1).

(** The last slot of the node at [index]. *)
Definition AllocSlots_last (mastersNum clusterHashSlots index first : Z) (cursor slotsPerNode : float64) : Z :=
  let last := Round (fsub (fadd cursor slotsPerNode) (Fin 1)) in
  let last := if decide (clusterHashSlots < last ∨ index = mastersNum - 1)
              then clusterHashSlots - 1 else last in
  if decide (last < first) then first else last.

(** The loop of [AllocSlots]. *)
Fixpoint AllocSlots_loop (mastersNum clusterHashSlots : Z) (slotsPerNode : float64) (index first : Z)
    (cursor : float64) (nodes : Nodes) : M (heap * W) (option error) :=
  match nodes with
  | [] => mret None
  | node :: rest =>
      let last := AllocSlots_last mastersNum clusterHashSlots index first cursor slotsPerNode in
      slots ← pure (BuildSlotSlice (u64 first) (u64 last));
      modify (λ st, (upd_slots (λ _, slots) node st.1, st.2));;
      addr ← gets (λ st, IPPort (st.1 !!! node));
      e ← on_snd (admin_AddSlots addr slots);
      match e with
      | Some err => mret (Some err)
      | None =>
          AllocSlots_loop mastersNum clusterHashSlots slotsPerNode (index + 1) (last + 1)
            (fadd cursor slotsPerNode) rest
      end
  end.

(** [AllocSlots] *)
Definition AllocSlots (newMasterNodes : Nodes) : M (heap * W) (option error) :=
  st ← gets Datatypes.id;
  let mastersNum := Z.of_nat (length newMasterNodes) in
  let clusterHashSlots := s64 (u64 (GetHashMaxSlot st.2 + 1)) in
  let slotsPerNode := fdiv (float_of_int clusterHashSlots) (float_of_int mastersNum) in
  AllocSlots_loop mastersNum clusterHashSlots slotsPerNode 0 0 (Fin 0) newMasterNodes.
End rebalance.
