(* ===== verification/RebalanceProofs.v ===== *)
(** Correctness of [clustering/rebalance.go]: the first allocation partitions the
    hash slots, a resharding table has the requested slots, and rebalancing ends with
    every balance at zero. *)

From Stdlib Require Import ZArith QArith Lia.
From S2P Require Import Prelude GoStrings GoFloat Errors Slot Node ClusterInfo AdminInterface.
From S2P Require Import Clustering Migration MigrationProofs Rebalance.

Local Open Scope Z_scope.

(** ** First allocation *)

Section alloc.
Context `{SortPkg} {W : Type} `{AdminReturns W}.
Variable p : positive.
Let n := Z.pos p.
Hypothesis Hn : n ≤ 16384.

(** The share of a node is even: it differs from 16384 / n by at most one slot. *)
Definition even_share (l : list Slot) : Prop :=
  16384 - n ≤ n * Z.of_nat (length l) ≤ 16384 + n.

Lemma last_bound i last :
  0 ≤ i < n - 1 → 2 * n * (last + 1) ≤ 2 * (i + 1) * 16384 + n → last ≤ 16383 - (n - 1 - i).
Proof. intros Hi Hl. destruct (decide (last ≤ 16383 - (n - 1 - i))) as [|Hgt]; [done|]. nia. Qed.

Lemma seqZ_split a b c : 0 ≤ b → 0 ≤ c → seqZ a (b + c) = seqZ a b ++ seqZ (a + b) c.
Proof.
  intros. apply list_eq_same_length with (length (seqZ a (b + c))); [|done|].
  - rewrite length_app, !length_seqZ. lia.
  - intros i x y _ Hx Hy. apply lookup_seqZ in Hx as [-> Hi].
    apply lookup_app_Some in Hy as [[-> ?]%lookup_seqZ|[Hge [-> ?]%lookup_seqZ]]; [done|].
    rewrite length_seqZ in *. lia.
Qed.

Lemma last_of_spec i first c s :
  0 ≤ i < n → 0 ≤ first ≤ 16384 - n + i → cursor_near p i c →
  (share p - (1 # 2 ^ 38) <= s <= share p + (1 # 2 ^ 38))%Q →
  (2 * n ≤ 16384 → 2 * i * 16384 - n ≤ 2 * n * first ≤ 2 * i * 16384 + n) →
  let last := AllocSlots_last n 16384 i first (Fin c) (Fin s) in
  first ≤ last ≤ 16383 - (n - 1 - i) ∧ (i = n - 1 → last = 16383) ∧
  (2 * n ≤ 16384 → 2 * (i + 1) * 16384 - n ≤ 2 * n * (last + 1) ≤ 2 * (i + 1) * 16384 + n).
Proof.
  intros Hi Hfirst Hc Hs Heven. pose proof (boundary_near p i c s Hn Hi Hc Hs) as Hb. cbv zeta in Hb.
  unfold AllocSlots_last. set (r := Round _) in *. clearbody r. cbv zeta. fold n in Hb.
  destruct (decide (i = n - 1)) as [->|Hne].
  - rewrite (decide_True (P := 16384 < r ∨ _)) by (by right).
    rewrite decide_False by lia. split; [lia|]. split; [done|]. nia.
  - pose proof (last_bound i r ltac:(lia) ltac:(lia)) as Hr.
    rewrite (decide_False (P := 16384 < r ∨ _)) by lia.
    case_decide as Hlt.
    + split; [lia|]. split; [lia|]. intros H2. specialize (Heven H2). exfalso. nia.
    + split; [lia|]. split; [lia|]. intros _. lia.
Qed.

Lemma AllocSlots_loop_spec s nodes i first c h w :
  (share p - (1 # 2 ^ 38) <= s <= share p + (1 # 2 ^ 38))%Q →
  NoDup nodes → 0 ≤ i → i + Z.of_nat (length nodes) = n → cursor_near p i c →
  0 ≤ first ≤ 16384 - n + i → (nodes = [] → first = 16384) →
  (2 * n ≤ 16384 → 2 * i * 16384 - n ≤ 2 * n * first ≤ 2 * i * 16384 + n) →
  runs (AllocSlots_loop n 16384 (Fin s) i first (Fin c) nodes) (h, w) (λ e st',
    (∀ q, q ∉ nodes → st'.1 !!! q = h !!! q) ∧
    (e = None →
       (nodes ≫= λ q, Slots (st'.1 !!! q)) = seqZ first (16384 - first) ∧
       ∀ q, q ∈ nodes → Slots (st'.1 !!! q) ≠ [] ∧ (2 * n ≤ 16384 → even_share (Slots (st'.1 !!! q))))).
Proof.
  intros Hs. revert i first c h w.
  induction nodes as [|q nodes IH]; intros i first c h w Hnd Hi Hlen Hc Hfirst Hnil Heven.
  { apply runs_ret. split; [done|]. intros _. rewrite Hnil by done.
    split; [done|]. by intros q ?%elem_of_nil. }
  apply NoDup_cons in Hnd as [Hq Hnd]. simpl in Hlen.
  destruct (last_of_spec i first c s) as (Hl1 & Hl2 & Hl3); [lia|done..|].
  cbn [AllocSlots_loop]. set (last := AllocSlots_last n 16384 i first (Fin c) (Fin s)) in *. clearbody last.
  assert (BuildSlotSlice (u64 first) (u64 last) = Val (seqZ first (last - first + 1))) as Hbuild.
  { rewrite !u64_small by (unfold max_uint64; lia). apply BuildSlotSlice_seqZ; unfold max_uint64; lia. }
  apply runs_bind. eexists _, (h, w). split; [unfold pure; by rewrite Hbuild|].
  apply runs_bind. eexists _, _. split; [done|]. apply runs_bind. eexists _, _. split; [done|].
  cbn [fst snd]. set (h1 := upd_slots _ q h).
  apply runs_bind. destruct (AddSlots_returns (IPPort (h1 !!! q)) (seqZ first (last - first + 1)) w)
    as (e & w1 & Hadd & _).
  exists e, (h1, w1). split; [unfold on_snd; cbn [fst snd]; by rewrite Hadd|].
  assert (∀ q', q' ∉ q :: nodes → h1 !!! q' = h !!! q') as Hh1.
  { intros q' [Hne _]%not_elem_of_cons. by apply heap_upd_ne. }
  destruct e as [e|].
  { apply runs_ret. split; [done|]. done. }
  eapply runs_mono; [apply IH|].
  - done.
  - lia.
  - lia.
  - apply cursor_step; [done|lia|done..].
  - lia.
  - intros ->. rewrite Hl2; simpl in Hlen; lia.
  - done.
  - intros e [h' w'] [Hframe Hpost]. cbn [fst] in *. split.
    { intros q' Hq'. apply not_elem_of_cons in Hq' as Hq''. destruct Hq'' as [_ Hn2].
      rewrite Hframe by done. by apply Hh1. }
    intros ->. destruct (Hpost eq_refl) as [Hconc Hshare].
    assert (Slots (h' !!! q) = seqZ first (last - first + 1)) as Hslots.
    { rewrite Hframe by done. unfold h1, upd_slots. by rewrite heap_upd_eq. }
    split.
    + rewrite bind_cons, Hconc, Hslots.
      replace (16384 - first) with ((last - first + 1) + (16384 - (last + 1))) by lia.
      rewrite (seqZ_split first (last - first + 1)) by lia.
      by replace (first + (last - first + 1)) with (last + 1) by lia.
    + intros q' [->|Hq']%elem_of_cons; [|by apply Hshare]. rewrite Hslots. split.
      * intros Hnil'. apply (f_equal length) in Hnil'. rewrite length_seqZ in Hnil'. simpl in Hnil'. lia.
      * intros H2. specialize (Heven H2). specialize (Hl3 H2).
        unfold even_share. rewrite length_seqZ, Z2Nat.id by lia. lia.
Qed.
End alloc.

Section alloc_theorem.
Context {W : Type} `{AdminReturns W}.

(** The shares that the first allocation leaves in [h']. *)
Definition shared_out (nodes : Nodes) (h : heap) (err : option error) (h' : heap) : Prop :=
  (∀ q, q ∉ nodes → h' !!! q = h !!! q) ∧
  (err = None →
     (nodes ≫= λ q, Slots (h' !!! q)) = seqZ 0 16384 ∧
     ∀ q, q ∈ nodes → Slots (h' !!! q) ≠ [] ∧
       (2 * Z.of_nat (length nodes) ≤ 16384 →
          16384 - Z.of_nat (length nodes) ≤
          Z.of_nat (length nodes) * Z.of_nat (length (Slots (h' !!! q))) ≤
          16384 + Z.of_nat (length nodes))).

Lemma AllocSlots_runs nodes h w :
  GetHashMaxSlot w = DefaultHashMaxSlots → NoDup nodes → 1 ≤ Z.of_nat (length nodes) ≤ 16384 →
  runs (AllocSlots nodes) (h, w) (λ e st', shared_out nodes h e st'.1).
Proof.
  intros Hmax Hnd Hlen. unfold AllocSlots. apply runs_bind, runs_ret. unfold Datatypes.id. cbn [fst snd].
  rewrite Hmax. change (s64 (u64 (DefaultHashMaxSlots + 1))) with 16384.
  destruct (Z.of_nat (length nodes)) as [|p|p] eqn:Hp; [lia| |lia].
  destruct (share_near p) as (s & -> & Hs); [lia|].
  eapply runs_mono; [apply (AllocSlots_loop_spec p)|].
  - lia.
  - done.
  - done.
  - lia.
  - lia.
  - unfold cursor_near. change (inject_Z 0) with 0%Q. unfold share, Qle. simpl. lia.
  - lia.
  - by intros ->.
  - lia.
  - intros e [h' w'] [Hframe Hpost]. split; [done|]. intros ->. destruct (Hpost eq_refl) as [Hc Hsh].
    split; [done|]. intros q Hq. destruct (Hsh q Hq). split; [done|]. unfold even_share in *. lia.
Qed.

(** C5: [AllocSlots] on 1 to 16384 distinct masters returns; when no command fails,
    the masters get, in their order, consecutive ranges that together are exactly the
    slots 0 to 16383, every master gets at least one slot, and with at most 8192 masters
    each gets 16384/n slots up to one: the float arithmetic of the boundaries never
    leaves a gap, an overlap or an empty range. *)
Theorem AllocSlots_partition nodes h w :
  GetHashMaxSlot w = DefaultHashMaxSlots → NoDup nodes → 1 ≤ Z.of_nat (length nodes) ≤ 16384 →
  runs (AllocSlots nodes) (h, w) (λ e st',
    (∀ q, q ∉ nodes → st'.1 !!! q = h !!! q) ∧
    (e = None →
       (nodes ≫= λ q, Slots (st'.1 !!! q)) = seqZ 0 16384 ∧
       ∀ q, q ∈ nodes → Slots (st'.1 !!! q) ≠ [] ∧
         (2 * Z.of_nat (length nodes) ≤ 16384 →
            16384 - Z.of_nat (length nodes) ≤
            Z.of_nat (length nodes) * Z.of_nat (length (Slots (st'.1 !!! q))) ≤
            16384 + Z.of_nat (length nodes)))).
Proof. apply AllocSlots_runs. Qed.
End alloc_theorem.

(** ** Resharding tables *)

Lemma computeReshardTable_node_spec fuel i node keys k :
  (i ≤ k ≤ length keys)%nat → (k ≤ i + fuel)%nat →
  computeReshardTable_node fuel i node keys (Z.of_nat k) (mkMovedNode node <$> take i keys) =
  Val (mkMovedNode node <$> take k keys).
Proof.
  revert i. induction fuel as [|fuel IH]; intros i Hi Hk; cbn [computeReshardTable_node].
  { by replace k with i by lia. }
  rewrite length_fmap, length_take, Nat.min_l by lia. case_decide as Hlt.
  - destruct (keys !! i) as [s|] eqn:Hs; [|apply lookup_ge_None in Hs; lia].
    replace ((mkMovedNode node <$> take i keys) ++ [mkMovedNode node s])
      with (mkMovedNode node <$> take (S i) keys); [apply IH; lia|].
    by rewrite (take_S_r _ _ _ Hs), fmap_app.
  - assert (i = k) as -> by lia. assert (length (take k keys) = k) as Hlk by (rewrite length_take; lia).
    clear IH Hk Hlt. generalize (S k) as j.
    induction fuel as [|fuel IH]; intros j; cbn [computeReshardTable_node]; [done|].
    rewrite decide_False; [apply IH|]. rewrite length_fmap. lia.
Qed.

Section reshard.
Context `{SortPkg}.

(** The table for a single source is its first slots. *)
Lemma computeReshardTable_single h p k :
  (1 ≤ k ≤ length (Slots (h !!! p)))%nat → Z.of_nat (length (Slots (h !!! p))) ≤ 2 ^ 31 →
  computeReshardTable h [p] (Z.of_nat k) = Val (mkMovedNode p <$> take k (Slots (h !!! p))).
Proof.
  intros Hk Hlen. unfold computeReshardTable, SortByFunc.
  assert (sort_by (λ a b, TotalSlots (h !!! a) <? TotalSlots (h !!! b)) [p] = [p]) as ->
    by apply Permutation_singleton_r, sort_by_Permutation.
  cbn [foldl computeReshardTable_loop]. rewrite Z.add_0_l. unfold TotalSlots.
  assert (1 ≤ Z.of_nat k ≤ Z.of_nat (length (Slots (h !!! p)))) as Hkz by lia.
  pose proof (reshard_share _ _ Hkz Hlen) as Hshare.
  set (m := int_of_float _) in *. clearbody m.
  change (@nil MovedNode) with (mkMovedNode p <$> take 0 (Slots (h !!! p))).
  rewrite computeReshardTable_node_spec by lia. done.
Qed.

(** C33: for a single source with at least [k] slots, [computeReshardTable] returns the
    [k] first slots of the source, for every [1 <= k <= 2^31]: the float computation of
    the share never makes it fall short of the request nor index past the slots. *)
Theorem computeReshardTable_exact h p k :
  1 ≤ k ≤ TotalSlots (h !!! p) → TotalSlots (h !!! p) ≤ 2 ^ 31 →
  ∃ table, computeReshardTable h [p] k = Val table ∧ Z.of_nat (length table) = k ∧
    Forall (λ e, Source e = p) table ∧ mv_Slot <$> table = take (Z.to_nat k) (Slots (h !!! p)).
Proof.
  unfold TotalSlots. intros Hk Hlen. eexists. split_and!.
  - rewrite <- (Z2Nat.id k) at 1 by lia. apply computeReshardTable_single; lia.
  - rewrite length_fmap, length_take. lia.
  - apply Forall_fmap, Forall_forall. done.
  - rewrite <- list_fmap_compose. apply list_fmap_id.
Qed.
End reshard.

(** ** The balances *)

Definition sum_balance (h : heap) (l : Nodes) : Z := foldr (λ p acc, Balance (h !!! p) + acc) 0 l.

Lemma total_balance_sum h l : total_balance h l = sum_balance h l.
Proof.
  unfold total_balance, sum_balance.
  assert (∀ acc, foldl (λ acc p, acc + Balance (h !!! p)) acc l =
                 acc + foldr (λ p acc, Balance (h !!! p) + acc) 0 l) as Hg.
  { induction l as [|p l IH]; intros acc; simpl; [lia|]. rewrite IH. lia. }
  rewrite Hg. lia.
Qed.

Lemma sum_balance_app h l1 l2 : sum_balance h (l1 ++ l2) = sum_balance h l1 + sum_balance h l2.
Proof. unfold sum_balance. induction l1 as [|p l1 IH]; simpl; [lia|]. rewrite IH. lia. Qed.

Lemma sum_balance_cons h p l : sum_balance h (p :: l) = Balance (h !!! p) + sum_balance h l.
Proof. done. Qed.

Lemma sum_balance_Permutation h l1 l2 : l1 ≡ₚ l2 → sum_balance h l1 = sum_balance h l2.
Proof. unfold sum_balance. induction 1; simpl; lia. Qed.

Lemma sum_balance_frame h h' l :
  (∀ p, p ∈ l → Balance (h' !!! p) = Balance (h !!! p)) → sum_balance h' l = sum_balance h l.
Proof.
  induction l as [|p l IH]; intros Hf; [done|]. rewrite !sum_balance_cons, Hf by (by left).
  rewrite IH; [done|]. intros. apply Hf. by right.
Qed.

Lemma sum_balance_bound h l b : (∀ p, p ∈ l → b ≤ Balance (h !!! p)) → b * Z.of_nat (length l) ≤ sum_balance h l.
Proof.
  induction l as [|p l IH]; intros Hb; [simpl; lia|]. rewrite sum_balance_cons. simpl length.
  specialize (IH ltac:(intros; apply Hb; by right)). specialize (Hb p ltac:(by left)). lia.
Qed.
Lemma sum_balance_bound_above h l b : (∀ p, p ∈ l → Balance (h !!! p) ≤ b) → sum_balance h l ≤ b * Z.of_nat (length l).
Proof.
  induction l as [|p l IH]; intros Hb; [simpl; lia|]. rewrite sum_balance_cons. simpl length.
  specialize (IH ltac:(intros; apply Hb; by right)). specialize (Hb p ltac:(by left)). lia.
Qed.

(** Only balances differ, and only on the listed nodes. *)
Definition same_but_balance (l : Nodes) (h h' : heap) : Prop :=
  ∀ p, Slots (h' !!! p) = Slots (h !!! p) ∧ (p ∉ l → h' !!! p = h !!! p).

Lemma set_balances_spec n nodes h :
  NoDup nodes → n = Z.of_nat (length nodes) → 1 ≤ n ≤ 16384 →
  let h' := set_balances DefaultHashMaxSlots nodes h in
  same_but_balance nodes h h' ∧
  ∀ p, p ∈ nodes → Balance (h' !!! p) = Z.of_nat (length (Slots (h !!! p))) - 16384 / n.
Proof.
  intros Hnd -> Hn. unfold set_balances. change (u64 (DefaultHashMaxSlots + 1)) with 16384.
  rewrite int_of_fdiv by lia. set (q := 16384 / _). clearbody q. clear Hn.
  revert h. induction nodes as [|p nodes IH]; intros h; cbn [foldl].
  { split; [done|]. by intros p ?%elem_of_nil. }
  apply NoDup_cons in Hnd as [Hp Hnd].
  set (h1 := heap_upd _ p h). destruct (IH Hnd h1) as [IH1 IH2]. cbv zeta in *.
  assert (∀ x, Slots (h1 !!! x) = Slots (h !!! x)) as Hs1.
  { intros x. unfold h1. rewrite heap_upd_case. by case_decide. }
  split.
  - intros x. destruct (IH1 x) as [Hx1 Hx2]. split; [by rewrite Hx1|].
    intros [Hne Hx]%not_elem_of_cons. rewrite Hx2 by done. by apply heap_upd_ne.
  - intros x [->|Hx]%elem_of_cons.
    + destruct (IH1 p) as [_ Hx2]. rewrite Hx2 by done. unfold h1. by rewrite heap_upd_eq.
    + rewrite IH2 by done. by rewrite Hs1.
Qed.

Lemma lower_balances_spec nodes h t :
  NoDup nodes → 0 ≤ t →
  let (h', t') := lower_balances nodes h t in
  same_but_balance nodes h h' ∧ 0 ≤ t' ≤ t ∧
  sum_balance h' nodes = sum_balance h nodes - (t - t') ∧
  (∀ p, p ∈ nodes → Balance (h' !!! p) = Balance (h !!! p) ∨
     (Balance (h !!! p) < 0 ∧ Balance (h' !!! p) = Balance (h !!! p) - 1)) ∧
  (0 < t → (∃ p, p ∈ nodes ∧ Balance (h !!! p) < 0) → t' < t).
Proof.
  intros Hnd. revert h t. induction nodes as [|p nodes IH]; intros h t Ht; cbn [lower_balances].
  { split_and!; [done|lia|lia|lia|by intros p ?%elem_of_nil|by intros _ (p & ?%elem_of_nil & _)]. }
  apply NoDup_cons in Hnd as [Hp Hnd].
  destruct ((Balance (h !!! p) <? 0) && (0 <? t)) eqn:Hc.
  - apply andb_true_iff in Hc as [Hb%Z.ltb_lt Ht'%Z.ltb_lt].
    set (h1 := heap_upd _ p h). specialize (IH Hnd h1 (t - 1) ltac:(lia)).
    destruct (lower_balances nodes h1 (t - 1)) as [h' t']. destruct IH as (IH1 & IH2 & IH3 & IH4 & IH5).
    assert (∀ x, x ∈ nodes → h1 !!! x = h !!! x) as Hx1.
    { intros x Hx. apply heap_upd_ne. by intros ->. }
    assert (h' !!! p = h1 !!! p) as Hp' by by apply IH1.
    assert (Balance (h' !!! p) = Balance (h !!! p) - 1) as Hbp.
    { rewrite Hp'. unfold h1. by rewrite heap_upd_eq. }
    split_and!.
    + intros x. destruct (IH1 x) as [Hs Hx]. split.
      * rewrite Hs. unfold h1. rewrite heap_upd_case. by case_decide.
      * intros [Hne Hxn]%not_elem_of_cons. rewrite Hx by done. by apply heap_upd_ne.
    + lia.
    + lia.
    + rewrite !sum_balance_cons, IH3, Hbp. rewrite (sum_balance_frame h h1); [lia|].
      intros x Hx. by rewrite Hx1.
    + intros x [->|Hx]%elem_of_cons; [by right|]. rewrite <- (Hx1 x) by done. by apply IH4.
    + intros _ _. lia.
  - specialize (IH Hnd h t Ht). destruct (lower_balances nodes h t) as [h' t'].
    destruct IH as (IH1 & IH2 & IH3 & IH4 & IH5).
    assert (h' !!! p = h !!! p) as Hp' by by apply IH1.
    split_and!; [|lia|lia| | |].
    + intros x. destruct (IH1 x) as [Hs Hx]. split; [done|]. intros [_ ?]%not_elem_of_cons. by apply Hx.
    + rewrite !sum_balance_cons, IH3, Hp'. lia.
    + intros x [->|Hx]%elem_of_cons; [left; by rewrite Hp'|by apply IH4].
    + intros Ht' (x & [->|Hx]%elem_of_cons & Hbx); [|by apply IH5; [|exists x]].
      exfalso. apply andb_false_iff in Hc as [Hc%Z.ltb_ge|Hc%Z.ltb_ge]; lia.
Qed.

(** The second loop ends with a total of 0 when some balance is negative. *)
Lemma lower_loop_spec fuel nodes h t :
  NoDup nodes → 0 ≤ t → (Z.to_nat t ≤ fuel)%nat →
  sum_balance h nodes = t → (0 < t → ∃ p, p ∈ nodes ∧ Balance (h !!! p) < 0) →
  ∃ h', lower_loop fuel nodes h t = Val h' ∧ same_but_balance nodes h h' ∧ sum_balance h' nodes = 0 ∧
    ∀ p, p ∈ nodes → Balance (h' !!! p) = Balance (h !!! p) ∨
      (Balance (h !!! p) < 0 ∧ Balance (h' !!! p) ≤ Balance (h !!! p)).
Proof.
  intros Hnd. revert h t. induction fuel as [|fuel IH]; intros h t Ht Hfuel Hsum Hneg; cbn [lower_loop].
  { rewrite decide_False by lia. exists h. split_and!; [done|done|lia|by left]. }
  case_decide as Hpos; [|exists h; split_and!; [done|done|lia|by left]].
  pose proof (lower_balances_spec nodes h t Hnd Ht) as Hpass.
  destruct (lower_balances nodes h t) as [h1 t1]. destruct Hpass as (H1 & H2 & H3 & H4 & H5).
  specialize (H5 Hpos (Hneg Hpos)).
  destruct (IH h1 t1) as (h' & Heq & Hs & Hz & Hb); [lia|lia|lia| |].
  { intros _. destruct (Hneg Hpos) as (p & Hp & Hbp). exists p. split; [done|].
    destruct (H4 p Hp) as [->|[_ ->]]; lia. }
  exists h'. split; [done|]. split; [|split; [done|]].
  - intros x. destruct (Hs x) as [Hsx Hx], (H1 x) as [Hsx1 Hx1]. split; [by rewrite Hsx|].
    intros Hn. by rewrite Hx, Hx1.
  - intros p Hp. destruct (Hb p Hp) as [->|[Hn Hle]], (H4 p Hp) as [He|[Hn' He]]; rewrite He in *;
      [by left|right; lia|right; lia|right; lia].
Qed.

(** All that may differ is balances. *)
Definition same_but_balances (h h' : heap) : Prop := ∀ p,
  Slots (h' !!! p) = Slots (h !!! p) ∧ IPPort (h' !!! p) = IPPort (h !!! p) ∧ ID (h' !!! p) = ID (h !!! p).
#[export] Instance same_but_balances_preorder : PreOrder same_but_balances.
Proof.
  split; [by intros h p|]. intros h1 h2 h3 H12 H23 p. destruct (H23 p) as (-> & -> & ->). apply H12.
Qed.
Lemma same_but_balances_upd f p h : same_but_balances h (heap_upd (λ n, SetBalance n (f n)) p h).
Proof. intros q. rewrite heap_upd_case. by case_decide. Qed.
Lemma set_balances_same max nodes h : same_but_balances h (set_balances max nodes h).
Proof.
  unfold set_balances. cbv zeta. generalize (int_of_float (fdiv (float_of_int (u64 (max + 1))) (float_of_int (Z.of_nat (length nodes))))).
  intros n. revert h. induction nodes as [|p nodes IH]; intros h; [done|]. cbn [foldl].
  etrans; [apply (same_but_balances_upd (λ m, Z.of_nat (length (Slots m)) - n))|apply IH].
Qed.
Lemma lower_balances_same nodes h t : same_but_balances h (lower_balances nodes h t).1.
Proof.
  revert h t. induction nodes as [|p nodes IH]; intros h t; cbn [lower_balances]; [done|].
  case_match; [|apply IH]. etrans; [apply (same_but_balances_upd (λ m, Balance m - 1))|apply IH].
Qed.
Lemma lower_loop_same fuel nodes h t h' : lower_loop fuel nodes h t = Val h' → same_but_balances h h'.
Proof.
  revert h t. induction fuel as [|fuel IH]; intros h t; cbn [lower_loop]; case_decide; intros Heq; try by simplify_eq.
  pose proof (lower_balances_same nodes h t) as Hs. destruct (lower_balances nodes h t) as [h1 t1].
  etrans; [exact Hs|by eapply IH].
Qed.

(** Without a negative balance a positive total is never lowered: the loop of
    [RebalancedCluster] does not end. *)
Lemma lower_loop_diverges fuel nodes h t :
  0 < t → (∀ p, p ∈ nodes → 0 ≤ Balance (h !!! p)) → lower_loop fuel nodes h t = Diverges.
Proof.
  intros Ht Hpos. assert (lower_balances nodes h t = (h, t)) as Hlb.
  { induction nodes as [|p nodes IH]; [done|]. cbn [lower_balances].
    assert (Balance (h !!! p) <? 0 = false) as -> by (apply Z.ltb_ge, Hpos; by left).
    simpl. apply IH. intros. apply Hpos. by right. }
  induction fuel as [|fuel IH]; cbn [lower_loop]; rewrite decide_True by done; [done|].
  by rewrite Hlb.
Qed.

(** ** Moving the slots *)

Section moves.
Context `{SortPkg} {W : Type} `{AdminReturns W}.

(** Only the slots of [src] differ; they are [l]. *)
Definition with_slots (src : ptr) (l : list Slot) (h h' : heap) : Prop :=
  (∀ p, p ≠ src → h' !!! p = h !!! p) ∧ Slots (h' !!! src) = l ∧
  Balance (h' !!! src) = Balance (h !!! src).

Lemma moveSlot_spec src dst s h w :
  runs (moveSlot (mkMovedNode src s) dst) (h, w) (λ e st',
    e = None → with_slots src (RemoveSlot (Slots (h !!! src)) s) h st'.1).
Proof.
  unfold moveSlot. cbn [Source mv_Slot]. apply runs_bind, runs_ret. unfold Datatypes.id. cbn [fst].
  assert (∀ A (m : M W A) (k : A → M (heap * W) (option error)) Q (h' : heap) w',
    (∀ w, runs m w (λ _ _, True)) → (∀ a w'', runs (k a) (h', w'') Q) →
    runs (on_snd m ≫= k) (h', w') Q) as Hstep.
  { intros A m k Q h' w' Hm Hk. destruct (Hm w') as (a & w'' & Ha & _). apply runs_bind.
    exists a, (h', w''). split; [unfold on_snd; simpl; by rewrite Ha|apply Hk]. }
  apply Hstep; [intros; apply SetSlot_returns|]. intros [e|] w1; [by apply runs_ret|].
  apply Hstep; [intros; apply SetSlot_returns|]. intros [e|] w2; [by apply runs_ret|].
  apply Hstep; [intros; apply MigrateKeysInSlot_returns|]. intros [c [e|]] w3; [by apply runs_ret|].
  apply Hstep; [intros; apply SetSlot_returns|]. intros _ w4.
  apply Hstep; [intros; apply SetSlot_returns|]. intros _ w5.
  apply runs_bind. eexists _, _. split; [done|]. apply runs_ret. intros _. cbn [fst].
  unfold upd_slots. split_and!.
  - intros p Hp. by apply heap_upd_ne.
  - by rewrite heap_upd_eq.
  - by rewrite heap_upd_eq.
Qed.

Lemma RemoveSlot_head s l : RemoveSlot (s :: l) s = l.
Proof. unfold RemoveSlot. simpl. by rewrite decide_True. Qed.

Lemma moveSlots_spec src dst moved rest h w :
  Slots (h !!! src) = moved ++ rest →
  runs (for_err (mkMovedNode src <$> moved) (λ e, moveSlot e dst)) (h, w) (λ e st',
    e = None → with_slots src rest h st'.1).
Proof.
  revert h w. induction moved as [|s moved IH]; intros h w Hs; cbn [fmap list_fmap for_err].
  { apply runs_ret. intros _. by split_and!. }
  apply runs_bind. eapply runs_mono; [apply moveSlot_spec|]. intros [e|] [h1 w1] Hp; cbn [fst] in Hp.
  { by apply runs_ret. }
  destruct (Hp eq_refl) as (Ha1 & Ha2 & Ha3). rewrite Hs in Ha2. cbn [app] in Ha2.
  rewrite RemoveSlot_head in Ha2.
  eapply runs_mono; [by apply IH|]. intros e [h2 w2] Hp2 He. cbn [fst] in *.
  destruct (Hp2 He) as (Hb1 & Hb2 & Hb3). split_and!.
  - intros p Hne. rewrite Hb1 by done. by apply Ha1.
  - done.
  - congruence.
Qed.

(** ** The two-pointer loop *)

(** The nodes between the indices: [dst] below zero, [src] above, and the untouched
    ones in increasing order of balance. *)
Definition sorted_mid (h : heap) (mid : Nodes) : Prop :=
  StronglySorted (λ p q, Balance (h !!! p) ≤ Balance (h !!! q)) mid.

(** What relates the state of the loop to its start [h0]: a node gives up one slot per
    unit of balance it loses, and never more than it has. *)
Definition kept (h0 h : heap) (p : ptr) : Prop :=
  (Balance (h0 !!! p) ≤ 0 ∧ Slots (h !!! p) = Slots (h0 !!! p)) ∨
  (0 ≤ Balance (h !!! p) ≤ Balance (h0 !!! p) ∧
   Slots (h !!! p) = drop (Z.to_nat (Balance (h0 !!! p) - Balance (h !!! p))) (Slots (h0 !!! p))).

Definition bounded (h : heap) (p : ptr) : Prop :=
  Balance (h !!! p) ≤ Z.of_nat (length (Slots (h !!! p))) ≤ 2 ^ 31 ∧ - 2 ^ 31 ≤ Balance (h !!! p).

Lemma num_slots_min a b :
  - 2 ^ 31 ≤ a ≤ 0 → 0 ≤ b ≤ 2 ^ 31 → int_of_float (num_slots a b) = Z.min (- a) b ∧
  fless (Fin 0) (num_slots a b) = (0 <? Z.min (- a) b).
Proof.
  intros Ha Hb. unfold num_slots. rewrite fless_abs by lia.
  destruct (Z.ltb_spec (Z.abs a) (Z.abs b)); rewrite int_of_abs, fless_0_abs by lia;
    (split; [lia|f_equal; lia]).
Qed.

(** The balances of a round, which moves [m] slots from [y] to [x]. *)
Definition shift_balance (x y : ptr) (m : Z) (h : heap) : heap :=
  heap_upd (λ n, SetBalance n (Balance n - m)) y (heap_upd (λ n, SetBalance n (Balance n + m)) x h).
(** [Inv] holds after a round without error if it held before. *)
Definition kept_by_rounds (Inv : heap → W → Prop) (l : Nodes) : Prop := ∀ h w x y m,
  x ∈ l → y ∈ l → x ≠ y → 0 ≤ m ≤ TotalSlots (h !!! y) → Inv h w →
  safe (for_err (mkMovedNode y <$> take (Z.to_nat m) (Slots (h !!! y))) (λ e, moveSlot e x)) (h, w)
    (λ e st', e = None → Inv (shift_balance x y m st'.1) st'.2).
Lemma kept_by_rounds_Permutation Inv l l' : l ≡ₚ l' → kept_by_rounds Inv l → kept_by_rounds Inv l'.
Proof. intros Hp Hk h w x y m Hx Hy. rewrite <- Hp in Hx, Hy. by apply Hk. Qed.

Section invariant.
Variable Inv : heap → W → Prop.

(** One round between [x] (index [dstIdx]) and [y] (index [srcIdx]). *)
Lemma rebalance_round sn d s x y h0 h w fuel Q :
  sn !!! Z.to_nat d = x → sn !!! Z.to_nat s = y → d < s → x ≠ y →
  Balance (h !!! x) ≤ 0 → 0 ≤ Balance (h !!! y) → kept h0 h x → kept h0 h y →
  Balance (h0 !!! x) ≤ Balance (h !!! x) → Balance (h !!! y) ≤ Balance (h0 !!! y) →
  bounded h x → bounded h y → Balance (h0 !!! x) ≤ 0 →
  kept_by_rounds Inv sn → x ∈ sn → y ∈ sn → Inv h w →
  (∀ e st', Q (Some e : option error) st') →
  (∀ h' w',
     (∀ p, p ≠ x → p ≠ y → h' !!! p = h !!! p) →
     let m := Z.min (- Balance (h !!! x)) (Balance (h !!! y)) in
     Balance (h' !!! x) = Balance (h !!! x) + m → Balance (h' !!! y) = Balance (h !!! y) - m →
     kept h0 h' x → kept h0 h' y → bounded h' x → bounded h' y → Inv h' w' →
     runs (rebalance_loop fuel sn (if decide (Balance (h' !!! x) = 0) then d + 1 else d)
             (if decide (Balance (h' !!! y) = 0) then s - 1 else s)) (h', w') Q) →
  runs (rebalance_loop (S fuel) sn d s) (h, w) Q.
Proof.
  intros Hx Hy Hds Hxy Hbx Hby Hkx Hky Hx0 Hy0 Hbdx Hbdy Hbx0 HInv Hxin Hyin HI Herr Hk.
  cbn [rebalance_loop].
  rewrite decide_True by done. rewrite Hx, Hy. apply runs_bind. eexists _, _. split; [done|]. cbn [fst].
  unfold bounded in Hbdx, Hbdy.
  destruct (num_slots_min (Balance (h !!! x)) (Balance (h !!! y))) as [Hint Hless]; [lia..|].
  rewrite Hless, Hint. set (m := Z.min _ _) in *. apply runs_bind.
  assert (runs (if 0 <? m then
      table ← pure (computeReshardTable h [y] m); for_err table (λ e, moveSlot e x)
    else mret None) (h, w) (λ e st', (e = None → with_slots y (drop (Z.to_nat m) (Slots (h !!! y))) h st'.1) ∧
      (e = None → Inv (shift_balance x y m st'.1) st'.2))) as Hmove.
  { assert (0 ≤ m ≤ TotalSlots (h !!! y)) as Hm0 by (unfold TotalSlots; lia).
    specialize (HInv h w x y m Hxin Hyin Hxy Hm0 HI). destruct (Z.ltb_spec 0 m) as [Hm|Hm].
    - apply runs_bind. eexists _, _. split.
      { unfold pure. rewrite <- (Z2Nat.id m) at 1 by lia. rewrite computeReshardTable_single by lia. done. }
      apply runs_and_safe; [|done]. apply moveSlots_spec. by rewrite take_drop.
    - assert (m = 0) as E by lia. rewrite E in HInv |- *. apply runs_ret. split; [intros _; by split_and!|].
      intros _. by apply (HInv None (h, w)). }
  eapply runs_mono; [exact Hmove|]. intros [e|] [h1 w1] Hws; cbn [fst] in Hws.
  { apply runs_ret. apply Herr. }
  destruct Hws as [Hws HI1]. destruct (Hws eq_refl) as (Hother & Hsl & Hbal). specialize (HI1 eq_refl).
  do 2 (apply runs_bind; eexists _, _; split; [done|]). apply runs_bind. eexists _, _. split; [done|]. cbn [fst].
  set (h2 := heap_upd _ y (heap_upd _ x h1)).
  assert (h2 !!! x = SetBalance (h !!! x) (Balance (h !!! x) + m)) as Ehx.
  { unfold h2. rewrite heap_upd_ne by done. by rewrite heap_upd_eq, Hother. }
  assert (Slots (h2 !!! y) = drop (Z.to_nat m) (Slots (h !!! y)) ∧ Balance (h2 !!! y) = Balance (h !!! y) - m)
    as [Esy Eby].
  { unfold h2. rewrite heap_upd_eq, heap_upd_ne by done. simpl. rewrite Hsl. by unfold Balance in *; rewrite Hbal. }
  assert (Balance (h2 !!! x) = Balance (h !!! x) + m ∧ Slots (h2 !!! x) = Slots (h !!! x)) as [Ebx Esx]
    by by rewrite Ehx.
  apply Hk; [|done|done|..|exact HI1].
  - intros p Hpx Hpy. unfold h2. rewrite !heap_upd_ne by done. by apply Hother.
  - left. split; [done|]. rewrite Esx. destruct Hkx as [[_ ?]|[? Hd]]; [done|].
    rewrite Hd. by replace (Z.to_nat _) with 0%nat by lia.
  - destruct Hky as [[? Hs]|[? Hd]].
    + assert (m = 0) as -> by lia. left. split; [done|]. by rewrite Esy.
    + right. split; [lia|]. rewrite Esy, Eby, Hd, drop_drop. f_equal. lia.
  - unfold bounded. rewrite Ebx, Esx. lia.
  - unfold bounded. rewrite Eby, Esy, length_drop. lia.
Qed.

Lemma kept_refl h0 h p : h !!! p = h0 !!! p → kept h0 h p.
Proof.
  intros Heq. unfold kept. rewrite Heq. destruct (Z.le_gt_cases (Balance (h0 !!! p)) 0); [by left|].
  right. split; [lia|]. by replace (Z.to_nat _) with 0%nat by lia.
Qed.

Lemma sorted_mid_frame h h' mid :
  (∀ p, p ∈ mid → h' !!! p = h !!! p) → sorted_mid h mid → sorted_mid h' mid.
Proof.
  unfold sorted_mid. induction mid as [|a mid IH]; intros Hf Hs; [constructor|].
  apply StronglySorted_inv in Hs as [Hs Ha]. constructor; [apply IH; [intros; apply Hf; by right|done]|].
  rewrite Forall_forall in *. intros p Hp. rewrite !Hf by (by left || by right). by apply Ha.
Qed.

(** In a list sorted by balance whose sum is at most (at least) zero, the first (last)
    balance is not positive (negative). *)
Lemma sorted_first h a mid : sorted_mid h (a :: mid) → sum_balance h (a :: mid) ≤ 0 → Balance (h !!! a) ≤ 0.
Proof.
  intros Hs Hsum. destruct (Z.le_gt_cases (Balance (h !!! a)) 0) as [|Hpos]; [done|]. exfalso.
  apply StronglySorted_inv in Hs as [_ Ha]. rewrite Forall_forall in Ha.
  pose proof (sum_balance_bound h (a :: mid) 1) as Hb. simpl length in Hb.
  cut (1 * Z.of_nat (S (length mid)) ≤ sum_balance h (a :: mid)); [lia|]. apply Hb.
  intros p [->|Hp]%elem_of_cons; [lia|]. specialize (Ha p Hp). lia.
Qed.
Lemma sorted_last h b mid : sorted_mid h (mid ++ [b]) → 0 ≤ sum_balance h (mid ++ [b]) → 0 ≤ Balance (h !!! b).
Proof.
  intros Hs Hsum. destruct (Z.le_gt_cases 0 (Balance (h !!! b))) as [|Hneg]; [done|]. exfalso.
  apply StronglySorted_app in Hs as (Hs & _ & _).
  pose proof (sum_balance_bound_above h (mid ++ [b]) (-1)) as Hb. rewrite length_app in Hb. simpl in Hb.
  cut (sum_balance h (mid ++ [b]) ≤ -1 * Z.of_nat (length mid + 1)); [lia|]. apply Hb.
  intros p [Hp| ->%list_elem_of_singleton]%elem_of_app; [|lia].
  specialize (Hs p b Hp ltac:(by left)). simpl in Hs. lia.
Qed.

Lemma rebalance_loop_stop fuel sn d s st :
  s ≤ d → rebalance_loop fuel sn d s st = Val (None, st).
Proof. intros. destruct fuel; cbn [rebalance_loop]; by rewrite decide_False by lia. Qed.

(** The state of the loop with [pre] and [post] done, between [x] and [y]. *)
Record loop_state (h0 h : heap) (pre : Nodes) (x : ptr) (mid : Nodes) (y : ptr) (post : Nodes) := {
  ls_NoDup : NoDup (pre ++ x :: mid ++ y :: post);
  ls_x : Balance (h !!! x) ≤ 0;
  ls_y : 0 ≤ Balance (h !!! y);
  ls_sum : sum_balance h (x :: mid ++ [y]) = 0;
  ls_sorted : sorted_mid h mid;
  ls_mid : ∀ p, p ∈ mid → h !!! p = h0 !!! p;
  ls_kept_x : kept h0 h x;
  ls_kept_y : kept h0 h y;
  ls_x0 : Balance (h0 !!! x) ≤ Balance (h !!! x);
  ls_y0 : Balance (h !!! y) ≤ Balance (h0 !!! y);
  ls_bounded : ∀ p, p ∈ x :: mid ++ [y] → bounded h p;
  ls_done : ∀ p, p ∈ pre ++ post → Balance (h !!! p) = 0 ∧ kept h0 h p;
}.

Lemma lookup_index (l1 l2 : Nodes) x d : d = Z.of_nat (length l1) → (l1 ++ x :: l2) !!! Z.to_nat d = x.
Proof. intros ->. rewrite Nat2Z.id. by apply list_lookup_total_middle. Qed.

(** What a round leaves, before an index moves. *)
Record after_round (h0 h : heap) (pre : Nodes) (x : ptr) (mid : Nodes) (y : ptr) (post : Nodes) := {
  ar_NoDup : NoDup (pre ++ x :: mid ++ y :: post);
  ar_sum : Balance (h !!! x) + sum_balance h mid + Balance (h !!! y) = 0;
  ar_sorted : sorted_mid h mid;
  ar_mid : ∀ p, p ∈ mid → h !!! p = h0 !!! p;
  ar_bounded : ∀ p, p ∈ x :: mid ++ [y] → bounded h p;
  ar_kept : ∀ p, p ∈ x :: mid ++ [y] → kept h0 h p;
  ar_x : Balance (h0 !!! x) ≤ Balance (h !!! x) ≤ 0;
  ar_y : 0 ≤ Balance (h !!! y) ≤ Balance (h0 !!! y);
  ar_done : ∀ p, p ∈ pre ++ post → Balance (h !!! p) = 0 ∧ kept h0 h p;
}.

Lemma after_round_both h0 h pre x a mid b y post :
  after_round h0 h pre x (a :: mid ++ [b]) y post →
  Balance (h !!! x) = 0 → Balance (h !!! y) = 0 →
  loop_state h0 h (pre ++ [x]) a mid b (y :: post).
Proof.
  intros [] Hx Hy. rewrite Hx, Hy in ar_sum0.
  pose proof (sorted_first h a (mid ++ [b]) ar_sorted0 ltac:(lia)) as Ha.
  pose proof (sorted_last h b (a :: mid) ar_sorted0 ltac:(simpl app; lia)) as Hb.
  assert (h !!! a = h0 !!! a) as Ea by (apply ar_mid0; set_solver).
  assert (h !!! b = h0 !!! b) as Eb by (apply ar_mid0; set_solver).
  split; rewrite <- ?Ea, <- ?Eb; try done; try lia.
  - revert ar_NoDup0. cbn [app]. by rewrite <- !(assoc_L (++)).
  - apply StronglySorted_inv in ar_sorted0 as [Hs _]. by apply StronglySorted_app in Hs as (_ & ? & _).
  - intros p Hp. apply ar_mid0. set_solver.
  - apply ar_kept0. set_solver.
  - apply ar_kept0. set_solver.
  - intros p Hp. apply ar_bounded0. set_solver.
  - intros p Hp. assert (p ∈ pre ++ post ∨ p = x ∨ p = y) as [?|[->| ->]] by set_solver;
      [by apply ar_done0|split; [done|apply ar_kept0; set_solver]..].
Qed.

Lemma after_round_left h0 h pre x a mid y post :
  after_round h0 h pre x (a :: mid) y post → Balance (h !!! x) = 0 →
  loop_state h0 h (pre ++ [x]) a mid y post.
Proof.
  intros [] Hx. rewrite Hx in ar_sum0.
  pose proof (sorted_first h a mid ar_sorted0 ltac:(lia)) as Ha.
  assert (h !!! a = h0 !!! a) as Ea by (apply ar_mid0; set_solver).
  split; rewrite <- ?Ea; try done; try lia.
  - by rewrite <- !(assoc_L (++)).
  - rewrite sum_balance_cons, sum_balance_app. rewrite sum_balance_cons in ar_sum0. simpl. lia.
  - by apply StronglySorted_inv in ar_sorted0 as [? _].
  - intros p Hp. apply ar_mid0. set_solver.
  - apply ar_kept0. set_solver.
  - apply ar_kept0. set_solver.
  - intros p Hp. apply ar_bounded0. set_solver.
  - intros p Hp. assert (p ∈ pre ++ post ∨ p = x) as [?| ->] by set_solver;
      [by apply ar_done0|split; [done|apply ar_kept0; set_solver]].
Qed.

Lemma after_round_right h0 h pre x mid b y post :
  after_round h0 h pre x (mid ++ [b]) y post → Balance (h !!! y) = 0 →
  loop_state h0 h pre x mid b (y :: post).
Proof.
  intros [] Hy. rewrite Hy in ar_sum0.
  pose proof (sorted_last h b mid ar_sorted0 ltac:(lia)) as Hb.
  assert (h !!! b = h0 !!! b) as Eb by (apply ar_mid0; set_solver).
  split; rewrite <- ?Eb; try done; try lia.
  - revert ar_NoDup0. by rewrite <- (assoc_L (++)).
  - rewrite sum_balance_cons. lia.
  - by apply StronglySorted_app in ar_sorted0 as (_ & ? & _).
  - intros p Hp. apply ar_mid0. set_solver.
  - apply ar_kept0. set_solver.
  - apply ar_kept0. set_solver.
  - intros p Hp. apply ar_bounded0. set_solver.
  - intros p Hp. assert (p ∈ pre ++ post ∨ p = y) as [?| ->] by set_solver;
      [by apply ar_done0|split; [done|apply ar_kept0; set_solver]].
Qed.

Lemma loop_state_distinct h0 h pre x mid y post :
  loop_state h0 h pre x mid y post →
  x ∉ mid ∧ y ∉ mid ∧ x ≠ y ∧ (∀ p, p ∈ pre ++ post → p ≠ x ∧ p ≠ y).
Proof.
  intros [Hnd _ _ _ _ _ _ _ _ _ _ _]. apply NoDup_app in Hnd as (_ & Hpre & Hnd).
  apply NoDup_cons in Hnd as [Hx Hnd]. apply NoDup_app in Hnd as (_ & Hmid & Hnd).
  apply NoDup_cons in Hnd as [Hy _]. split_and!; [set_solver|set_solver|set_solver|].
  intros p Hp. split; intros ->; set_solver.
Qed.

Lemma loop_state_round h0 h h' pre x mid y post :
  loop_state h0 h pre x mid y post →
  (∀ p, p ≠ x → p ≠ y → h' !!! p = h !!! p) →
  let m := Z.min (- Balance (h !!! x)) (Balance (h !!! y)) in
  Balance (h' !!! x) = Balance (h !!! x) + m → Balance (h' !!! y) = Balance (h !!! y) - m →
  kept h0 h' x → kept h0 h' y → bounded h' x → bounded h' y →
  after_round h0 h' pre x mid y post.
Proof.
  intros Hls Hframe m Hbx Hby Hkx Hky Hbdx Hbdy.
  destruct (loop_state_distinct _ _ _ _ _ _ _ Hls) as (Hxm & Hym & Hxy & Hpp). destruct Hls.
  assert (∀ p, p ∈ mid → h' !!! p = h !!! p) as Hmid'.
  { intros p Hp. apply Hframe; by intros ->. }
  assert (∀ p, p ∈ mid → h' !!! p = h0 !!! p) as Hmid0.
  { intros p Hp. rewrite Hmid' by done. by apply ls_mid0. }
  split; try done; try lia.
  - rewrite sum_balance_cons, sum_balance_app, sum_balance_cons in ls_sum0. simpl in ls_sum0.
    rewrite (sum_balance_frame h h' mid) by (intros; by rewrite Hmid'). lia.
  - by apply (sorted_mid_frame h).
  - intros p [->|[Hp| ->%list_elem_of_singleton]%elem_of_app]%elem_of_cons; [done| |done].
    unfold bounded. rewrite Hmid' by done. apply ls_bounded0. set_solver.
  - intros p [->|[Hp| ->%list_elem_of_singleton]%elem_of_app]%elem_of_cons; [done| |done].
    by apply kept_refl, Hmid0.
  - intros p Hp. destruct (Hpp p Hp). unfold kept. rewrite Hframe by done. by apply ls_done0.
Qed.

(** At most one node is left between the indices: its balance is 0 as well. *)
Lemma after_round_end h0 h pre x mid y post :
  after_round h0 h pre x mid y post → (length mid ≤ 1)%nat →
  Balance (h !!! x) = 0 → Balance (h !!! y) = 0 →
  ∀ p, p ∈ pre ++ x :: mid ++ y :: post → Balance (h !!! p) = 0 ∧ kept h0 h p.
Proof.
  intros [] Hlen Hx Hy p Hp.
  assert (p ∈ pre ++ post ∨ p = x ∨ p = y ∨ p ∈ mid) as [?|[->|[->|Hm]]] by set_solver;
    [by apply ar_done0|split; [done|apply ar_kept0; set_solver]..|].
  split; [|apply ar_kept0; set_solver]. destruct mid as [|a [|]]; [by apply elem_of_nil in Hm| |simpl in Hlen; lia].
  apply list_elem_of_singleton in Hm as ->. simpl in ar_sum0. lia.
Qed.

Lemma rebalance_loop_spec k : ∀ h0 pre x mid y post h w fuel d s,
  (length mid ≤ k)%nat → (length mid < fuel)%nat → loop_state h0 h pre x mid y post →
  d = Z.of_nat (length pre) → s = d + Z.of_nat (length mid) + 1 →
  let sn := pre ++ x :: mid ++ y :: post in
  kept_by_rounds Inv sn → Inv h w →
  runs (rebalance_loop fuel sn d s) (h, w)
    (λ e st', e = None → (∀ p, p ∈ sn → Balance (st'.1 !!! p) = 0 ∧ kept h0 st'.1 p) ∧ Inv st'.1 st'.2).
Proof.
  induction k as [k IH] using lt_wf_ind.
  intros h0 pre x mid y post h w fuel d s Hlen Hfuel Hls Hd Hs sn HInv HI. destruct fuel as [|fuel]; [lia|].
  destruct (loop_state_distinct _ _ _ _ _ _ _ Hls) as (_ & _ & Hxy & _).
  assert (sn = (pre ++ x :: mid) ++ y :: post) as Hsn by (unfold sn; by rewrite <- (assoc_L (++))).
  eapply (rebalance_round sn d s x y h0); try by apply Hls.
  - by apply lookup_index.
  - rewrite Hsn. apply lookup_index. rewrite length_app. simpl. lia.
  - lia.
  - done.
  - apply (ls_bounded _ _ _ _ _ _ _ Hls). by left.
  - apply (ls_bounded _ _ _ _ _ _ _ Hls). right. apply elem_of_app. right. by left.
  - pose proof (ls_x0 _ _ _ _ _ _ _ Hls). pose proof (ls_x _ _ _ _ _ _ _ Hls). lia.
  - exact HInv.
  - unfold sn. set_solver.
  - unfold sn. set_solver.
  - done.
  - done.
  - intros h' w' Hframe m Hbx Hby Hkx Hky Hbdx Hbdy HI'.
    pose proof (loop_state_round h0 h h' pre x mid y post Hls Hframe Hbx Hby Hkx Hky Hbdx Hbdy) as Har.
    destruct (decide (Balance (h' !!! x) = 0)) as [Zx|Zx], (decide (Balance (h' !!! y) = 0)) as [Zy|Zy]; [..|lia].
    + destruct (decide (length mid ≤ 1)%nat) as [Hsmall|Hbig].
      { eexists _, _. split; [apply rebalance_loop_stop; lia|]. intros _. cbn [fst snd].
        split; [by eapply after_round_end|done]. }
      destruct mid as [|a mid]; [simpl in Hbig; lia|].
      destruct mid as [|b mid _] using rev_ind; [simpl in Hbig; lia|]. simpl in Hlen, Hfuel, Hs, Hbig.
      rewrite length_app in Hlen, Hfuel, Hs. simpl in Hlen, Hfuel, Hs.
      assert (sn = (pre ++ [x]) ++ a :: mid ++ b :: (y :: post)) as E.
      { unfold sn. rewrite <- !(assoc_L (++)). cbn [app]. by rewrite <- !(assoc_L (++)). }
      rewrite E in HInv |- *.
      apply (IH (length mid)); [lia|lia|lia|by apply after_round_both|rewrite length_app; simpl; lia|lia|done..].
    + destruct mid as [|a mid].
      { exfalso. destruct Har. simpl in ar_sum0. lia. }
      simpl in Hlen, Hfuel, Hs.
      assert (sn = (pre ++ [x]) ++ a :: mid ++ y :: post) as E by (unfold sn; by rewrite <- !(assoc_L (++))).
      rewrite E in HInv |- *.
      apply (IH (length mid)); [lia|lia|lia|by apply after_round_left|rewrite length_app; simpl; lia|lia|done..].
    + destruct mid as [|b mid _] using rev_ind.
      { exfalso. destruct Har. simpl in ar_sum0. lia. }
      rewrite length_app in Hlen, Hfuel, Hs. simpl in Hlen, Hfuel, Hs.
      assert (sn = pre ++ x :: mid ++ b :: (y :: post)) as E by (unfold sn; by rewrite <- !(assoc_L (++))).
      rewrite E in HInv |- *.
      apply (IH (length mid)); [lia|lia|lia|by apply after_round_right|lia|lia|done..].
Qed.
End invariant.
End moves.

Section rebalanced.
Context `{SortPkg} {W : Type} `{AdminReturns W}.

Lemma strict_weak_balance (h : heap) : strict_weak (λ a b : ptr, Balance (h !!! a) <? Balance (h !!! b)).
Proof. split_and!; intros; rewrite ?Z.ltb_lt, ?Z.ltb_ge in *; lia. Qed.

Lemma sort_balance_sorted (h : heap) nodes :
  sorted_mid h (SortByFunc nodes (λ a b, Balance (h !!! a) <? Balance (h !!! b))).
Proof.
  unfold sorted_mid, SortByFunc. eapply StronglySorted_weaken; [|apply sort_by_Sorted, strict_weak_balance].
  intros p q Hpq%Z.ltb_ge. done.
Qed.

(** The loop over the whole sorted list. *)
Lemma rebalance_loop_all (Inv : heap → W → Prop) h w sn fuel :
  NoDup sn → sorted_mid h sn → sum_balance h sn = 0 → (∀ p, p ∈ sn → bounded h p) →
  (length sn ≤ fuel)%nat → kept_by_rounds Inv sn → Inv h w →
  runs (rebalance_loop fuel sn 0 (Z.of_nat (length sn) - 1)) (h, w)
    (λ e st', e = None → (∀ p, p ∈ sn → Balance (st'.1 !!! p) = 0 ∧ kept h st'.1 p) ∧ Inv st'.1 st'.2).
Proof.
  intros Hnd Hs Hsum Hb Hfuel HInv HI. destruct sn as [|x sn].
  { eexists _, _. split; [apply rebalance_loop_stop; simpl; lia|]. intros _. split; [by intros p ?%elem_of_nil|done]. }
  destruct sn as [|y mid _] using rev_ind.
  { eexists _, _. split; [apply rebalance_loop_stop; simpl; lia|]. intros _. split; [|done]. intros p ->%list_elem_of_singleton.
    simpl in Hsum. split; [simpl; lia|]. by apply kept_refl. }
  assert (Balance (h !!! x) ≤ 0) as Hx by (apply (sorted_first h x (mid ++ [y])); [done|lia]).
  assert (0 ≤ Balance (h !!! y)) as Hy by (apply (sorted_last h y (x :: mid)); [done|simpl app; lia]).
  simpl in Hfuel. rewrite length_app in Hfuel. simpl in Hfuel.
  apply (rebalance_loop_spec Inv (length mid) h [] x mid y []);
    [lia|lia| |done|simpl; rewrite length_app; simpl; lia|done..].
  split; try done; try lia; try by apply kept_refl.
  - apply StronglySorted_inv in Hs as [Hs _]. by apply StronglySorted_app in Hs as (_ & ? & _).
  - by intros p ?%elem_of_nil.
Qed.

(** Every master keeps the share of [n], and what it had less. *)
Definition rebalanced (n : Z) (nodes : Nodes) (h h' : heap) : Prop := ∀ p, p ∈ nodes →
  Balance (h' !!! p) = 0 ∧
  Slots (h' !!! p) = drop (Z.to_nat (TotalSlots (h !!! p) - 16384 / n)) (Slots (h !!! p)).

(** The heap [h2] with the balances the last loop starts from.  What a master has above
    its balance is its target: the share, or more for a master that starts below it. *)
Definition target (h h2 : heap) (p : ptr) : Z := TotalSlots (h !!! p) - Balance (h2 !!! p).
Record fair_start (n : Z) (nodes : Nodes) (h h2 : heap) : Prop := {
  fs_same : same_but_balances h h2;
  fs_sum : sum_balance h2 nodes = 0;
  fs_share p : p ∈ nodes → 16384 / n ≤ target h h2 p;
  fs_above p : p ∈ nodes → 16384 / n ≤ TotalSlots (h !!! p) → target h h2 p = 16384 / n;
}.

Lemma sum_balance_targets h h2 q (l : Nodes) :
  (∀ p, p ∈ l → q ≤ target h h2 p) →
  sum_balance h2 l ≤ Z.of_nat (length (l ≫= λ p, Slots (h !!! p))) - q * Z.of_nat (length l).
Proof.
  unfold target, TotalSlots. induction l as [|p l IH]; intros Hq; [simpl; lia|].
  rewrite sum_balance_cons, bind_cons, length_app. simpl length.
  pose proof (Hq p ltac:(by left)). specialize (IH (λ x Hx, Hq x (list_elem_of_further _ _ _ Hx))). lia.
Qed.

(** No target exceeds the share by more than the remainder, since they sum to 16384. *)
Lemma fair_start_target n nodes h h2 p :
  fair_start n nodes h h2 → n = Z.of_nat (length nodes) → 1 ≤ n → p ∈ nodes →
  Z.of_nat (length (nodes ≫= λ p, Slots (h !!! p))) = 16384 →
  target h h2 p ≤ 16384 / n + 16384 mod n ∧ TotalSlots (h !!! p) ≤ 16384.
Proof.
  intros [_ Hsum Hshare _] Hn Hn1 Hp Htotal. pose proof (Z_div_mod_eq_full 16384 n) as Hdiv.
  apply list_elem_of_split in Hp as (l1 & l2 & Hl). assert (∀ x, x ∈ l1 ++ l2 → x ∈ nodes) as Hin by (rewrite Hl; set_solver).
  pose proof (sum_balance_targets h h2 (16384 / n) (l1 ++ l2) (λ x Hx, Hshare x (Hin x Hx))) as Hrest.
  rewrite Hl, bind_app, bind_cons, !length_app in Htotal. rewrite bind_app, !length_app, sum_balance_app in Hrest.
  rewrite Hl, sum_balance_app, sum_balance_cons in Hsum. rewrite Hl, length_app in Hn. simpl in Hn.
  unfold target, TotalSlots. split; [|lia]. nia.
Qed.

(** The balances of the first loop add up to the remainder. *)
Lemma set_balances_sum nodes h :
  let n := Z.of_nat (length nodes) in
  NoDup nodes → 1 ≤ n ≤ 16384 → Z.of_nat (length (nodes ≫= λ p, Slots (h !!! p))) = 16384 →
  sum_balance (set_balances DefaultHashMaxSlots nodes h) nodes = 16384 mod n.
Proof.
  intros n Hnd Hn Htotal. destruct (set_balances_spec n nodes h Hnd eq_refl Hn) as [_ Hb].
  set (h1 := set_balances _ _ _) in *.
  assert (∀ l, (∀ p, p ∈ l → p ∈ nodes) → sum_balance h1 l =
    Z.of_nat (length (l ≫= λ p, Slots (h !!! p))) - Z.of_nat (length l) * (16384 / n)) as Hg.
  { clear Htotal. induction l as [|p l IH]; intros Hl; [simpl; lia|].
    rewrite sum_balance_cons, Hb, IH by (intros; apply Hl; set_solver).
    rewrite bind_cons, length_app. simpl length. lia. }
  rewrite Hg, Htotal by done. fold n. pose proof (Z_div_mod_eq_full 16384 n). lia.
Qed.

Lemma fair_start_exists nodes h :
  let n := Z.of_nat (length nodes) in
  NoDup nodes → 1 ≤ n ≤ 16384 → Z.of_nat (length (nodes ≫= λ p, Slots (h !!! p))) = 16384 →
  (16384 mod n ≠ 0 → ∃ p, p ∈ nodes ∧ TotalSlots (h !!! p) < 16384 / n) →
  let h1 := set_balances DefaultHashMaxSlots nodes h in
  ∃ h2, lower_loop (Z.to_nat (total_balance h1 nodes)) nodes h1 (total_balance h1 nodes) = Val h2 ∧
    fair_start n nodes h h2.
Proof.
  intros n Hnd Hn Htotal Hneg h1. destruct (set_balances_spec n nodes h Hnd eq_refl Hn) as [Hs1 Hb1].
  fold h1 in Hs1, Hb1. rewrite total_balance_sum.
  pose proof (set_balances_sum nodes h Hnd Hn Htotal) as Hsum. fold n h1 in Hsum.
  pose proof (Z.mod_pos_bound 16384 n ltac:(lia)) as Hmod.
  destruct (lower_loop_spec (Z.to_nat (sum_balance h1 nodes)) nodes h1 (sum_balance h1 nodes))
    as (h2 & Hloop & Hs2 & Hz2 & Hb2); [done|lia|lia|done| |].
  { intros Hpos. destruct Hneg as (p & Hp & Hlt); [lia|]. exists p. split; [done|].
    rewrite Hb1 by done. unfold TotalSlots in Hlt. lia. }
  exists h2. split; [done|]. split.
  - etrans; [apply (set_balances_same DefaultHashMaxSlots nodes)|by eapply lower_loop_same].
  - done.
  - intros p Hp. unfold target, TotalSlots. pose proof (Hb1 p Hp). destruct (Hb2 p Hp) as [->|[? ?]]; lia.
  - intros p Hp. unfold target, TotalSlots. pose proof (Hb1 p Hp). destruct (Hb2 p Hp) as [->|[? ?]]; lia.
Qed.

Lemma RebalancedCluster_keeps (Inv : heap → W → Prop) nodes h w :
  let n := Z.of_nat (length nodes) in
  GetHashMaxSlot w = DefaultHashMaxSlots → NoDup nodes → 1 ≤ n ≤ 16384 →
  Z.of_nat (length (nodes ≫= λ p, Slots (h !!! p))) = 16384 →
  (16384 mod n ≠ 0 → ∃ p, p ∈ nodes ∧ TotalSlots (h !!! p) < 16384 / n) →
  (∀ h2, fair_start n nodes h h2 → Inv h2 w) → kept_by_rounds Inv nodes →
  runs (RebalancedCluster nodes) (h, w) (λ e st', e = None → rebalanced n nodes h st'.1 ∧ Inv st'.1 st'.2).
Proof.
  intros n Hmax Hnd Hn Htotal Hneg HI HInv. unfold RebalancedCluster.
  apply runs_bind, runs_ret. unfold Datatypes.id. cbn [fst snd]. rewrite Hmax.
  destruct (fair_start_exists nodes h Hnd Hn Htotal Hneg) as (h2 & Hloop & Hfair). fold n in Hfair.
  apply runs_bind. eexists _, _. split; [unfold pure; by rewrite Hloop|].
  apply runs_bind. eexists _, _. split; [done|]. cbn [fst snd].
  set (sn := SortByFunc nodes _). assert (sn ≡ₚ nodes) as Hperm by apply sort_by_Permutation.
  assert (∀ p, Slots (h2 !!! p) = Slots (h !!! p)) as Hslots by (intros p; apply (fs_same _ _ _ _ Hfair)).
  assert (0 ≤ 16384 / n) as Hq by (apply Z.div_pos; lia). pose proof (Z.mod_pos_bound 16384 n ltac:(lia)) as Hmod.
  assert (16384 / n ≤ 16384) as Hq' by (apply Z.div_le_upper_bound; lia).
  assert (∀ p, p ∈ nodes → bounded h2 p) as Hbounded.
  { intros p Hp. destruct (fair_start_target _ _ _ _ p Hfair eq_refl ltac:(lia) Hp Htotal) as [Ht Hl].
    pose proof (fs_share _ _ _ _ Hfair p Hp) as Hs. unfold bounded. rewrite Hslots. unfold target, TotalSlots in *. lia. }
  eapply runs_mono; [apply (rebalance_loop_all Inv)|].
  - by rewrite Hperm.
  - apply sort_balance_sorted.
  - rewrite (sum_balance_Permutation _ _ _ Hperm). apply Hfair.
  - intros p Hp. rewrite Hperm in Hp. by apply Hbounded.
  - lia.
  - by eapply kept_by_rounds_Permutation.
  - by apply HI.
  - intros e [h3 w3] Hpost He. cbn [fst snd] in *. destruct (Hpost He) as [Hdone HI3]. split; [|done].
    intros p Hp. destruct (Hdone p) as [Hz Hk]; [by rewrite Hperm|]. split; [done|].
    pose proof (fs_share _ _ _ _ Hfair p Hp) as Hs. pose proof (fs_above _ _ _ _ Hfair p Hp) as Ha.
    unfold target in Hs, Ha. destruct Hk as [[Hk1 Hk2]|[Hk1 Hk2]]; rewrite Hk2, Hslots.
    + by replace (Z.to_nat _) with 0%nat by lia.
    + f_equal. lia.
Qed.

Lemma RebalancedCluster_runs nodes h w :
  let n := Z.of_nat (length nodes) in
  GetHashMaxSlot w = DefaultHashMaxSlots → NoDup nodes → 1 ≤ n ≤ 16384 →
  Z.of_nat (length (nodes ≫= λ p, Slots (h !!! p))) = 16384 →
  (16384 mod n ≠ 0 → ∃ p, p ∈ nodes ∧ TotalSlots (h !!! p) < 16384 / n) →
  runs (RebalancedCluster nodes) (h, w) (λ e st', e = None → rebalanced n nodes h st'.1).
Proof.
  intros n Hmax Hnd Hn Htotal Hneg.
  eapply runs_mono; [by apply (RebalancedCluster_keeps (λ _ _, True))|]. intros e st' Hpost He. by apply Hpost.
Qed.

(** When no master is below its share the total is never lowered, with any fuel. *)
Lemma RebalancedCluster_stuck nodes h w :
  let n := Z.of_nat (length nodes) in let h1 := set_balances DefaultHashMaxSlots nodes h in
  GetHashMaxSlot w = DefaultHashMaxSlots → NoDup nodes → 1 ≤ n ≤ 16384 →
  Z.of_nat (length (nodes ≫= λ p, Slots (h !!! p))) = 16384 →
  16384 mod n ≠ 0 → (∀ p, p ∈ nodes → 16384 / n ≤ TotalSlots (h !!! p)) →
  (∀ fuel, lower_loop fuel nodes h1 (total_balance h1 nodes) = Diverges) ∧
  RebalancedCluster nodes (h, w) = Diverges.
Proof.
  intros n h1 Hmax Hnd Hn Htotal Hmod Hshare.
  destruct (set_balances_spec n nodes h Hnd eq_refl Hn) as [_ Hb]. fold h1 in Hb.
  assert (∀ fuel, lower_loop fuel nodes h1 (total_balance h1 nodes) = Diverges) as Hdiv.
  { intros fuel. apply lower_loop_diverges.
    - rewrite total_balance_sum. unfold h1. rewrite set_balances_sum by done. fold n.
      pose proof (Z.mod_pos_bound 16384 n ltac:(lia)). lia.
    - intros p Hp. rewrite Hb by done. specialize (Hshare p Hp). unfold TotalSlots in Hshare. lia. }
  split; [done|]. unfold RebalancedCluster, mbind, M_bind, gets, pure. cbn [go_bind fst snd]. unfold Datatypes.id. cbn [fst snd].
  rewrite Hmax. fold h1. by rewrite Hdiv.
Qed.

(** C6: whether [RebalancedCluster] ends, and with what.  Take 1 to 16384 distinct masters
    that hold 16384 slots together; the share of each is [16384 / n].  When [n] divides
    16384, or some master is below the share (as after a scaling up, where the new master
    holds no slot), it returns, whatever commands fail; if none fails, every balance ends
    at zero and every master has given up exactly what it had above the share, from the
    front of its list, and kept the rest.  In the remaining case, a remainder to place
    and no master below the share, it never returns: the loop that lowers the balances
    runs for ever, with any fuel. *)
Theorem RebalancedCluster_balances nodes h w :
  let n := Z.of_nat (length nodes) in let h1 := set_balances DefaultHashMaxSlots nodes h in
  let lowerable := 16384 mod n = 0 ∨ ∃ p, p ∈ nodes ∧ TotalSlots (h !!! p) < 16384 / n in
  GetHashMaxSlot w = DefaultHashMaxSlots → NoDup nodes → 1 ≤ n ≤ 16384 →
  Z.of_nat (length (nodes ≫= λ p, Slots (h !!! p))) = 16384 →
  (lowerable → runs (RebalancedCluster nodes) (h, w) (λ e st', e = None → ∀ p, p ∈ nodes →
    Balance (st'.1 !!! p) = 0 ∧
    Slots (st'.1 !!! p) = drop (Z.to_nat (TotalSlots (h !!! p) - 16384 / n)) (Slots (h !!! p)))) ∧
  (¬ lowerable → RebalancedCluster nodes (h, w) = Diverges ∧
    ∀ fuel, lower_loop fuel nodes h1 (total_balance h1 nodes) = Diverges).
Proof.
  intros n h1 lowerable Hmax Hnd Hn Htotal. split.
  - intros Hlow. apply RebalancedCluster_runs; [done..|]. by destruct Hlow.
  - intros [Hmod Hnone]%Decidable.not_or. destruct (RebalancedCluster_stuck nodes h w) as [? ?]; [done..| |done].
    intros p Hp. apply Z.nlt_ge. intros Hlt. apply Hnone. by exists p.
Qed.
End rebalanced.

(** The commands of [moveSlot], in order.  IMPORTING names the target itself and
    MIGRATING the source itself, unlike the commands of a migration. *)
Lemma moveSlot_commands fails src dst s h tr :
  let importing := CallSetSlot (IPPort (h !!! dst)) "IMPORTING" s (ID (h !!! dst)) in
  let migrating := CallSetSlot (IPPort (h !!! src)) "MIGRATING" s (ID (h !!! src)) in
  let moving := CallMigrateKeys (IPPort (h !!! src)) (ID (h !!! dst)) [s] in
  @moveSlot _ (recording_admin fails) (mkMovedNode src s) dst (h, tr) =
  if fails importing then Val (Some (ErrText "refused"), (h, tr ++ [importing]))
  else if fails migrating then Val (Some (ErrText "refused"), (h, tr ++ [importing; migrating]))
  else if fails moving then Val (Some (ErrText "refused"), (h, tr ++ [importing; migrating; moving]))
  else Val (None, (upd_slots (λ l, RemoveSlot l s) src h,
    tr ++ [importing; migrating; moving;
           CallSetSlot (IPPort (h !!! dst)) "NODE" s (ID (h !!! dst));
           CallSetSlot (IPPort (h !!! src)) "NODE" s (ID (h !!! dst))])).
Proof.
  intros importing migrating moving. unfold moveSlot, mbind, M_bind.
  unfold gets. unfold Datatypes.id. cbn [go_bind fst snd Source mv_Slot].
  unfold on_snd. cbn [recording_admin admin_SetSlot]. unfold record. cbn [go_bind fst snd].
  fold importing. destruct (fails importing); [done|].
  cbn [go_bind fst snd mret M_ret]. fold migrating. rewrite <- (assoc_L (++)).
  destruct (fails migrating); [done|].
  cbn [go_bind fst snd admin_MigrateKeysInSlot recording_admin].
  unfold record, mbind, M_bind, mret, M_ret. cbn [go_bind fst snd]. fold moving. rewrite <- (assoc_L (++)).
  destruct (fails moving); [done|].
  unfold modify. cbn [go_bind fst snd app]. by rewrite <- !(assoc_L (++)).
Qed.

(** ** Witnesses *)

Lemma AllocSlots_partition_witness :
  ∃ e st', @AllocSlots (list call) (recording_admin (λ _, false))
      [1%positive; 2%positive] (demo_masters, []) = Val (e, st') ∧
    (e = None → ([1%positive; 2%positive] ≫= λ q, Slots (st'.1 !!! q)) = seqZ 0 16384).
Proof.
  destruct (@AllocSlots_partition (list call) (recording_admin (λ _, false)) (recording_admin_returns _)
    [1%positive; 2%positive] demo_masters [] eq_refl
    ltac:(by apply (bool_decide_unpack (NoDup [1%positive; 2%positive]))) ltac:(simpl; lia))
    as (e & st' & Hrun & _ & Hpost).
  exists e, st'. split; [exact Hrun|]. intros He. apply Hpost. exact He.
Defined.

Lemma computeReshardTable_exact_witness :
  ∃ table, @computeReshardTable sort_default demo_masters [1%positive] 2 = Val table ∧
    Z.of_nat (length table) = 2 ∧ Forall (λ e, Source e = 1%positive) table ∧ mv_Slot <$> table = [0; 1].
Proof. apply (@computeReshardTable_exact sort_default demo_masters 1%positive 2); by vm_compute. Defined.

(** All slots on the first of two masters. *)
Definition demo_scale_up : heap :=
  {[ 1%positive := demo_node "a" "ip1" (seqZ 0 16384); 2%positive := demo_node "b" "ip2" [] ]}.

(** Three masters at their share, one of them with the slot that is left. *)
Definition demo_stuck : heap :=
  {[ 1%positive := demo_node "a" "ip1" (seqZ 0 5462); 2%positive := demo_node "b" "ip2" (seqZ 5462 5461);
     3%positive := demo_node "c" "ip3" (seqZ 10923 5461) ]}.
Lemma demo_stuck_slots :
  Slots (demo_stuck !!! 1%positive) = seqZ 0 5462 ∧ Slots (demo_stuck !!! 2%positive) = seqZ 5462 5461 ∧
  Slots (demo_stuck !!! 3%positive) = seqZ 10923 5461.
Proof.
  unfold demo_stuck.
  split_and!; [by rewrite lookup_total_insert_eq|by rewrite lookup_total_insert_ne, lookup_total_insert_eq by done|].
  by rewrite !lookup_total_insert_ne, lookup_total_singleton_eq by done.
Qed.

Lemma RebalancedCluster_balances_witness :
  (∃ e st', @RebalancedCluster sort_default (list call) (recording_admin (λ _, false))
      [1%positive; 2%positive] (demo_scale_up, []) = Val (e, st') ∧
    (e = None → Balance (st'.1 !!! 1%positive) = 0)) ∧
  @RebalancedCluster sort_default (list call) (recording_admin (λ _, false))
    [1%positive; 2%positive; 3%positive] (demo_stuck, []) = Diverges.
Proof.
  assert (Slots (demo_scale_up !!! 1%positive) = seqZ 0 16384) as E1
    by (unfold demo_scale_up; by rewrite lookup_total_insert_eq).
  assert (Slots (demo_scale_up !!! 2%positive) = []) as E2 by reflexivity.
  destruct demo_stuck_slots as (S1 & S2 & S3). split.
  - destruct (@RebalancedCluster_balances sort_default (list call) (recording_admin (λ _, false))
      (recording_admin_returns _) [1%positive; 2%positive] demo_scale_up []) as [Hends _].
    + reflexivity.
    + by apply (bool_decide_unpack (NoDup [1%positive; 2%positive])).
    + simpl. lia.
    + cbn [mbind list_bind]. rewrite E1, E2, !length_app, length_seqZ. simpl length. lia.
    + destruct (Hends (or_introl eq_refl)) as (e & st' & Hrun & Hpost).
      exists e, st'. split; [exact Hrun|]. intros He. apply (Hpost He). left.
  - destruct (@RebalancedCluster_balances sort_default (list call) (recording_admin (λ _, false))
      (recording_admin_returns _) [1%positive; 2%positive; 3%positive] demo_stuck []) as [_ Hloops].
    + reflexivity.
    + by apply (bool_decide_unpack (NoDup [1%positive; 2%positive; 3%positive])).
    + simpl. lia.
    + cbn [mbind list_bind]. rewrite S1, S2, S3, !length_app, !length_seqZ. simpl length. lia.
    + apply Hloops. intros [Hm|(p & Hp & Hlt)]; [discriminate|].
      assert (16384 / Z.of_nat (length [1%positive; 2%positive; 3%positive]) = 5461) as Hq by reflexivity.
      rewrite Hq in Hlt. unfold TotalSlots in Hlt.
      apply elem_of_cons in Hp as [->|[->|[->|Hp%elem_of_nil]%elem_of_cons]%elem_of_cons]; [| | |done];
        rewrite ?S1, ?S2, ?S3, length_seqZ in Hlt; lia.
Defined.
