(* ===== verification/Kube.v ===== *)
(** The Kubernetes API objects that the operator reads and writes: the structs of
    [k8s.io/api] as records of the fields that occur in the code.  Fields whose
    content the operator only copies from one object to another are kept as
    [opaque] values, their serialised form.

    The functions of third-party packages that the operator applies to these
    objects are the fields of [K8sApi]; nothing is assumed of them but what a
    theorem names. *)

From Stdlib Require Import ZArith.
From S2P Require Import Prelude GoStrings Errors.

Local Open Scope Z_scope.

Abbreviation opaque := string (only parsing).
(** [map[string]string] of labels and annotations; a nil map reads as empty. *)
Abbreviation label_map := (gmap string string).

(** [metav1.OwnerReference] *)
Record OwnerReference := mkOwnerReference {
  or_APIVersion : string;
  or_Kind : string;
  or_Name : string;
  or_UID : string;
  or_Controller : option bool;
  or_BlockOwnerDeletion : option bool;
}.

(** [metav1.ObjectMeta]; times are nanoseconds since the epoch. *)
Record ObjectMeta := mkObjectMeta {
  om_Name : string;
  om_Namespace : string;
  om_UID : string;
  om_Labels : label_map;
  om_Annotations : label_map;
  om_OwnerReferences : list OwnerReference;
  om_DeletionTimestamp : option Z;
  om_Generation : Z;
}.
#[export] Instance ObjectMeta_eta : Settable ObjectMeta := λ m,
  mkObjectMeta (om_Name m) (om_Namespace m) (om_UID m) (om_Labels m) (om_Annotations m)
    (om_OwnerReferences m) (om_DeletionTimestamp m) (om_Generation m).

(** The object metadata with these four fields set and the others zero. *)
Definition newObjectMeta (name namespace : string) (lbls : label_map) (owners : list OwnerReference) : ObjectMeta :=
  mkObjectMeta name namespace "" lbls ∅ owners None 0.

(** [resource.Quantity]: an amount in billionths, and the form it is written in. *)
Record Quantity := mkQuantity { q_amount : Z; q_form : string }.
#[export] Instance Quantity_eq_dec : EqDecision Quantity.
Proof. solve_decision. Defined.

(** [Quantity.Cmp] compares the amounts. *)
Definition Quantity_Cmp (a b : Quantity) : Z :=
  match q_amount a ?= q_amount b with Lt => -1 | Eq => 0 | Gt => 1 end.

(** [corev1.ResourceRequirements]: resource lists by resource name. *)
Record ResourceRequirements := mkResourceRequirements {
  Requests : gmap string Quantity;
  Limits : gmap string Quantity;
}.
#[export] Instance ResourceRequirements_eq_dec : EqDecision ResourceRequirements.
Proof. solve_decision. Defined.

(** [ResourceList.Cpu()] and [Memory()]: the zero quantity when absent. *)
Definition resource_get (l : gmap string Quantity) (name : string) : Quantity :=
  default (mkQuantity 0 "DecimalSI") (l !! name).
Definition Cpu (l : gmap string Quantity) : Quantity := resource_get l "cpu".
Definition Memory (l : gmap string Quantity) : Quantity := resource_get l "memory".

(** [corev1.EnvVar]: [SecretKeyRef] and [ConfigMapKeyRef] are name and key. *)
Record EnvVarSource := mkEnvVarSource {
  FieldRef : option string;
  SecretKeyRef : option (string * string);
  ConfigMapKeyRef : option (string * string);
}.
Record EnvVar := mkEnvVar {
  env_Name : string;
  env_Value : string;
  env_ValueFrom : option EnvVarSource;
}.

Record ContainerPort := mkContainerPort {
  cp_Name : string;
  cp_ContainerPort : Z;
  cp_Protocol : string;
}.
Record VolumeMount := mkVolumeMount {
  vm_Name : string;
  vm_MountPath : string;
  vm_SubPath : string;
  vm_ReadOnly : bool;
}.
(** [corev1.Probe] and [corev1.Lifecycle]: what the operator sets itself, or a
    value copied from a specification. *)
Inductive Probe :=
| ExecProbe (InitialDelaySeconds TimeoutSeconds : Z) (command : list string)
| ProbeCopied (p : opaque).
Inductive Lifecycle :=
| ExecLifecycle (PostStart PreStop : list string)
| LifecycleCopied (l : opaque).

Record Container := mkContainer {
  c_Name : string;
  c_Image : string;
  c_ImagePullPolicy : string;
  c_Command : list string;
  c_Args : list string;
  c_Ports : list ContainerPort;
  c_Env : list EnvVar;
  c_Resources : ResourceRequirements;
  c_VolumeMounts : list VolumeMount;
  c_LivenessProbe : option Probe;
  c_ReadinessProbe : option Probe;
  c_Lifecycle : option Lifecycle;
  c_SecurityContext : option opaque;
}.
#[export] Instance Container_eta : Settable Container := λ c,
  mkContainer (c_Name c) (c_Image c) (c_ImagePullPolicy c) (c_Command c) (c_Args c) (c_Ports c)
    (c_Env c) (c_Resources c) (c_VolumeMounts c) (c_LivenessProbe c) (c_ReadinessProbe c)
    (c_Lifecycle c) (c_SecurityContext c).
(** [corev1.Container{}] *)
Definition zero_Container : Container :=
  mkContainer "" "" "" [] [] [] [] (mkResourceRequirements ∅ ∅) [] None None None None.

(** [corev1.VolumeSource], a union of pointers. *)
Inductive VolumeSource :=
| VolConfigMap (name : string) (defaultMode : Z)
| VolSecret (secretName : string)
| VolEmptyDir
| VolPVC (claimName : string)
| VolCopied (v : opaque).
Record Volume := mkVolume { v_Name : string; v_Source : VolumeSource }.

(** [corev1.Affinity]: what [getAffinity] builds (terms of a pod anti-affinity:
    the topology key and the labels to match), or a copied value. *)
Inductive Affinity :=
| PodAntiAffinity (preferred : list (Z * string * label_map)) (required : list (string * label_map))
| AffinityCopied (a : opaque).

Record PodSpec := mkPodSpec {
  ps_NodeName : string;
  ps_Containers : list Container;
  ps_InitContainers : list Container;
  ps_Volumes : list Volume;
  ps_RestartPolicy : string;
  ps_ImagePullSecrets : list opaque;
  ps_Affinity : option Affinity;
  ps_Tolerations : list opaque;
  ps_SecurityContext : option opaque;
  ps_NodeSelector : label_map;
  ps_SchedulerName : string;
  ps_PriorityClassName : string;
  ps_Priority : option Z;
}.
#[export] Instance PodSpec_eta : Settable PodSpec := λ p,
  mkPodSpec (ps_NodeName p) (ps_Containers p) (ps_InitContainers p) (ps_Volumes p)
    (ps_RestartPolicy p) (ps_ImagePullSecrets p) (ps_Affinity p) (ps_Tolerations p)
    (ps_SecurityContext p) (ps_NodeSelector p) (ps_SchedulerName p) (ps_PriorityClassName p)
    (ps_Priority p).
Definition zero_PodSpec : PodSpec :=
  mkPodSpec "" [] [] [] "" [] None [] None ∅ "" "" None.

(** [corev1.PodRunning] *)
Definition PodRunning : string := "Running".

Record Pod := mkPod {
  pod_meta : ObjectMeta;
  pod_spec : PodSpec;
  pod_Phase : string;
  pod_IP : string;
}.

Record PersistentVolumeClaim := mkPVC {
  pvc_meta : ObjectMeta;
  pvc_AccessModes : list string;
  pvc_Requests : gmap string Quantity;
  pvc_StorageClassName : option string;
  pvc_VolumeMode : option string;
}.
#[export] Instance PersistentVolumeClaim_eta : Settable PersistentVolumeClaim := λ p,
  mkPVC (pvc_meta p) (pvc_AccessModes p) (pvc_Requests p) (pvc_StorageClassName p) (pvc_VolumeMode p).

(** [appsv1.StatefulSet]; its template is labels, annotations and pod
    specification, its selector the labels to match. *)
Record StatefulSetSpec := mkStatefulSetSpec {
  ss_ServiceName : string;
  ss_Replicas : option Z;
  ss_UpdateStrategy : string;
  ss_MatchLabels : label_map;
  ss_TemplateLabels : label_map;
  ss_TemplateAnnotations : label_map;
  ss_PodSpec : PodSpec;
  ss_VolumeClaimTemplates : list PersistentVolumeClaim;
}.
#[export] Instance StatefulSetSpec_eta : Settable StatefulSetSpec := λ s,
  mkStatefulSetSpec (ss_ServiceName s) (ss_Replicas s) (ss_UpdateStrategy s) (ss_MatchLabels s)
    (ss_TemplateLabels s) (ss_TemplateAnnotations s) (ss_PodSpec s) (ss_VolumeClaimTemplates s).
Record AppsStatefulSet := mkStatefulSet {
  ss_meta : ObjectMeta;
  ss_spec : StatefulSetSpec;
  ss_ReadyReplicas : Z;
  ss_CurrentReplicas : Z;
}.
#[export] Instance StatefulSet_eta : Settable AppsStatefulSet := λ s,
  mkStatefulSet (ss_meta s) (ss_spec s) (ss_ReadyReplicas s) (ss_CurrentReplicas s).

Record Service := mkService {
  svc_meta : ObjectMeta;
  svc_Ports : list (string * Z);
  svc_Selector : label_map;
  svc_ClusterIP : string;
}.
Record ConfigMap := mkConfigMap {
  cm_meta : ObjectMeta;
  cm_Data : gmap string string;
}.
Record PodDisruptionBudget := mkPDB {
  pdb_meta : ObjectMeta;
  pdb_MaxUnavailable : Z;
  pdb_MatchLabels : label_map;
}.
Record Secret := mkSecret {
  secret_meta : ObjectMeta;
  secret_Data : gmap string string;
}.

(** [batchv1.Job]: conditions are type and status. *)
Record Job := mkJob {
  job_meta : ObjectMeta;
  job_ActiveDeadlineSeconds : option Z;
  job_BackoffLimit : option Z;
  job_PodSpec : PodSpec;
  job_Conditions : list (string * string);
  job_Succeeded : Z;
  job_Failed : Z;
}.
#[export] Instance Job_eta : Settable Job := λ j,
  mkJob (job_meta j) (job_ActiveDeadlineSeconds j) (job_BackoffLimit j) (job_PodSpec j)
    (job_Conditions j) (job_Succeeded j) (job_Failed j).

(** ** Third-party functions *)

Class K8sApi := {
  (** [ResourceRequirements.Size()], the length of the protobuf encoding: 0 for
      the value without entries. *)
  ResourceRequirements_Size : ResourceRequirements → Z;
  (** [resource.MustParse], of the constants of the source *)
  MustParse : string → Quantity;
  (** [validation.IsDNS1035Label]: the violations *)
  IsDNS1035Label : string → list string;
  (** [ValidateResourceRequirements]: the errors *)
  ValidateResourceRequirements : ResourceRequirements → list error;
  (** [field.ErrorList.ToAggregate] *)
  ErrorList_ToAggregate : list error → option error;
  (** [metav1.NewControllerRef] of an object and its group, version and kind *)
  NewControllerRef : ObjectMeta → string * string * string → OwnerReference;
}.

(** A concrete instance, to evaluate the model: sizes are numbers of entries, the
    only quantities parsed are those of the source, a label must not be empty. *)
Definition k8s_default : K8sApi := {|
  ResourceRequirements_Size r := Z.of_nat (size (Requests r) + size (Limits r));
  MustParse s := mkQuantity 1 s;
  IsDNS1035Label s := if decide (s = "" ∨ has_byte "." s = true) then ["a DNS-1035 label must match"] else [];
  ValidateResourceRequirements _ := [];
  ErrorList_ToAggregate errs := match errs with [] => None | e :: _ => Some e end;
  NewControllerRef m gvk :=
    mkOwnerReference (gvk.1.1 +:+ "/" +:+ gvk.1.2) gvk.2 (om_Name m) (om_UID m) (Some true) (Some true);
|}.
