(* ===== verification/Utils.v ===== *)
(** [pkg/utils] and [pkg/config/redis.go]: comparisons, label maps, sizes of the
    Redis configuration, the file of renamed commands, the scope of the operator.
    Logging is left out. *)

From Stdlib Require Import ZArith Lia.
From S2P Require Import Prelude GoStrings Errors.

Local Open Scope Z_scope.

(** ** compare.go: is there a difference worth acting on? *)

(** [CompareIntValue]; a nil pointer is [None]. *)
Definition CompareIntValue (old new : option Z) : bool :=
  match old, new with
  | None, None => true
  | None, _ | _, None => false
  | Some o, Some n => if decide (o ≠ n) then true else false
  end.

(** [CompareInt32], [CompareStringValue] *)
Definition CompareInt32 (old new : Z) : bool := if decide (old ≠ new) then true else false.
Definition CompareStringValue (old new : string) : bool := if decide (old ≠ new) then true else false.

(** [types.go]: [Int32] *)
Definition Int32 (v : option Z) : Z := match v with Some x => x | None => 0 end.

Section labels.
Context `{MapRange}.

(** [MergeLabels]: a later map wins. *)
Definition MergeLabels (allLabels : list (gmap string string)) : gmap string string :=
  foldl (λ res l, foldl (λ res kv, <[(kv : string * string).1 := kv.2]> res) res (range 40 l)) ∅ allLabels.
End labels.

(** ** parse.go *)

(** The suffixes of [ParseRedisMemConf], in the order of its tests, with the
    factors. *)
Definition mem_units : list (string * Z) :=
  [ ("k", 1000); ("kb", 1024); ("m", 1000 * 1000); ("mb", 1024 * 1024);
    ("g", 1000 * 1000 * 1000); ("gb", 1024 * 1024 * 1024); ("b", 1) ].

Fixpoint find_unit (u : string) (units : list (string * Z)) : string * Z :=
  match units with
  | [] => (u, 1)
  | (suffix, mul) :: units' =>
      if HasSuffix u suffix then (slice_to u (String.length u - String.length suffix), mul)
      else find_unit u units'
  end.

(** [ParseRedisMemConf]; the product is an [int64]. *)
Definition ParseRedisMemConf (p : string) : string * option error :=
  let '(digits, mul) := find_unit (ToLower p) mem_units in
  match ParseInt digits with
  | (_, Some e) => ("", Some (NumError "ParseInt" digits e))
  | (val, None) => (FormatInt (s64 (val * mul)), None)
  end.

(** ** rename_cmd.go *)

(** The lines [bufio.Scanner] delivers: without the terminator and a carriage
    return before it, up to the first line of 65536 bytes or more. *)
Definition strip_cr (l : string) : string := TrimSuffix l (String (ascii_of_nat 13) "").
Fixpoint scan_lines_of (ls : list string) : list string :=
  match ls with
  | [] => []
  | [l] => if decide (l = "") then [] else if decide (Z.of_nat (String.length l) < 65536) then [strip_cr l] else []
  | l :: ls' => if decide (Z.of_nat (String.length l) < 65536) then strip_cr l :: scan_lines_of ls' else []
  end.
Definition scan_lines (text : string) : list string := scan_lines_of (Split text (ascii_of_nat 10)).

(** The body of the scan loop of [BuildCommandReplaceMapping]. *)
Definition rename_line (mapping : gmap string string) (line : string) : gmap string string :=
  match Fields line with
  | [w; cmd; name] =>
      if decide (ToLower w = "rename-command") then <[ToUpper cmd := name]> mapping else mapping
  | _ => mapping
  end.
(** [BuildCommandReplaceMapping], of the content of the file ([None] when it
    cannot be opened). *)
Definition BuildCommandReplaceMapping (file : option string) : gmap string string :=
  match file with
  | None => ∅
  | Some text => foldl rename_line ∅ (scan_lines text)
  end.

(** ** scoped.go *)

Definition AnnotationScope : string := "redis.kun/scope".
Definition AnnotationClusterScoped : string := "cluster-scoped".

(** The package variable [isClusterScoped] is an argument; [SetClusterScoped]
    gives its new value. *)
Definition SetClusterScoped (isClusterScoped : bool) (namespace : string) : bool :=
  if decide (namespace ≠ "") then false else isClusterScoped.

(** [ShoudManage], of the annotations of the object. *)
Definition ShoudManage (isClusterScoped : bool) (annotations : gmap string string) : bool :=
  match annotations !! AnnotationScope with
  | Some v => if isClusterScoped then bool_decide (v = AnnotationClusterScoped) else false
  | None => if negb isClusterScoped then true else false
  end.

(** ** string.go *)

(** [copy(b[bp:], s)] on a buffer given by what is written and the room left. *)
Definition copy_to (b : string * nat) (s : string) : string * nat :=
  (b.1 +:+ String.substring 0 b.2 s, (b.2 - String.length s)%nat).
(** [SliceJoin], of the strings of the elements. *)
Definition SliceJoin (a : list string) (sep : string) : string :=
  match a with
  | [] => ""
  | [a0] => a0
  | [a0; a1] => a0 +:+ sep +:+ a1
  | [a0; a1; a2] => a0 +:+ sep +:+ a1 +:+ sep +:+ a2
  | a0 :: rest =>
      let n := (String.length sep * (length a - 1) + sum_list (String.length <$> a))%nat in
      (foldl (λ b s, copy_to (copy_to b sep) s) (copy_to ("", n) a0) rest).1
  end.

(** ** config/redis.go *)

(** [path.Clean] and [path.Join] of the standard library, on path elements. *)
Fixpoint clean_elems (rooted : bool) (stack elems : list string) : list string :=
  match elems with
  | [] => reverse stack
  | e :: elems' =>
      clean_elems rooted
        (if decide (e = "" ∨ e = ".") then stack
         else if decide (e = "..") then
           match stack with
           | top :: stack' => if decide (top = "..") then e :: stack else stack'
           | [] => if rooted then [] else [e]
           end
         else e :: stack) elems'
  end.
Definition path_Clean (p : string) : string :=
  if decide (p = "") then "."
  else
    let rooted := HasPrefix p "/" in
    let body := Join (clean_elems rooted [] (Split p "/")) "/" in
    if rooted then "/" +:+ body else if decide (body = "") then "." else body.
Definition path_Join (elems : list string) : string :=
  match filter (λ e, e ≠ "") elems with
  | [] => ""
  | es => path_Clean (Join es "/")
  end.

(** [config.Redis]: the fields that are read. *)
Record RedisConfig := mkRedisConfig {
  DialTimeout : Z;
  RenameCommandsPath : string;
  RenameCommandsFile : string;
}.
(** [Redis.GetRenameCommandsFile] *)
Definition GetRenameCommandsFile (r : RedisConfig) : string :=
  if decide (RenameCommandsFile r = "") then ""
  else path_Join [RenameCommandsPath r; RenameCommandsFile r].

(** ** Lemmas *)

Lemma string_app_inj_last s t a b :
  s +:+ String a "" = t +:+ String b "" → s = t ∧ a = b.
Proof.
  revert t. induction s as [|x s IH]; intros [|y t]; simpl; intros Heq; simplify_eq.
  - done.
  - by destruct t.
  - by destruct s.
  - by destruct (IH t) as [-> ->].
Qed.

Lemma HasSuffix_true s p : HasSuffix s p = true → ∃ t, s = t +:+ p.
Proof.
  unfold HasSuffix. case_decide as Hle; [|done]. intros Heq%bool_decide_eq_true.
  exists (String.substring 0 (String.length s - String.length p) s).
  rewrite <- Heq at 2. generalize dependent p. induction s as [|c s IH]; intros p Hle Heq.
  - by destruct p.
  - cbn [String.length] in *. destruct (decide (String.length p = S (String.length s))) as [Hn|Hn].
    + rewrite Hn, Nat.sub_diag. change (String c s = String.substring 0 (S (String.length s)) (String c s)).
      symmetry. apply (substring_all (String c s)).
    + rewrite Nat.sub_succ_l in * by lia. cbn [String.substring] in *.
      change (String c s = String c (String.substring 0 (String.length s - String.length p) s +:+
        String.substring (String.length s - String.length p) (String.length p) s)).
      f_equal. apply IH; [lia|done].
Qed.

Lemma HasSuffix_false s p : (∀ t, s ≠ t +:+ p) → HasSuffix s p = false.
Proof.
  intros Hn. destruct (HasSuffix s p) eqn:E; [|done].
  apply HasSuffix_true in E as [t Ht]. by destruct (Hn t).
Qed.

Lemma slice_to_suffix s p : slice_to (s +:+ p) (String.length (s +:+ p) - String.length p) = s.
Proof.
  rewrite length_string_app.
  replace (String.length s + String.length p - String.length p)%nat with (String.length s) by lia.
  apply slice_to_app.
Qed.

(** A string without any letter of the units. *)
Definition no_unit_letter (d : string) : Prop :=
  has_byte "k" d = false ∧ has_byte "m" d = false ∧ has_byte "g" d = false ∧ has_byte "b" d = false.

Lemma string_snoc2 s a b : s +:+ String a (String b "") = (s +:+ String a "") +:+ String b "".
Proof. by rewrite string_app_assoc. Qed.

Ltac not_suffix :=
  apply HasSuffix_false; intros ?t ?Heq; rewrite ?string_snoc2 in *;
  repeat match goal with
  | H : _ +:+ String _ "" = _ +:+ String _ "" |- _ => apply string_app_inj_last in H as [? ?]
  end; simplify_eq;
  repeat match goal with
  | H : no_unit_letter _ |- _ => unfold no_unit_letter in H; destruct_and! H
  | H : has_byte _ (_ +:+ String _ _) = false |- _ => rewrite has_byte_app in H; simpl in H
  | H : _ || true = false |- _ => rewrite orb_true_r in H; discriminate
  end.

Lemma find_unit_digits d unit mul :
  no_unit_letter d → (unit, mul) ∈ ("", 1) :: mem_units → find_unit (d +:+ unit) mem_units = (d, mul).
Proof.
  intros Hd Hin. unfold mem_units in *.
  repeat (apply elem_of_cons in Hin as [[= -> ->]|Hin]); [..|by apply elem_of_nil in Hin];
    cbn [find_unit].
  all: rewrite ?string_app_nil_r.
  all: repeat match goal with
    | |- context [HasSuffix ?s ?p] =>
        first [rewrite (HasSuffix_app d p); by rewrite slice_to_suffix
              |replace (HasSuffix s p) with false by (symmetry; not_suffix)]
    end.
  done.
Qed.

Lemma lower_digit_byte d : 0 ≤ d < 10 → lower_byte (digit_byte d) = digit_byte d.
Proof.
  intros. assert (d = 0 ∨ d = 1 ∨ d = 2 ∨ d = 3 ∨ d = 4 ∨ d = 5 ∨ d = 6 ∨ d = 7 ∨ d = 8 ∨ d = 9)
    as Hd by lia. by destruct_or! Hd; subst.
Qed.

Lemma map_bytes_app f s1 s2 : map_bytes f (s1 +:+ s2) = map_bytes f s1 +:+ map_bytes f s2.
Proof.
  induction s1 as [|a s1 IH]; [done|].
  change (String (f a) (map_bytes f (s1 +:+ s2)) = String (f a) (map_bytes f s1 +:+ map_bytes f s2)).
  by f_equal.
Qed.

Lemma ToLower_format_digits fuel n acc :
  ToLower acc = acc → ToLower (format_digits fuel n acc) = format_digits fuel n acc.
Proof.
  revert n acc. induction fuel as [|fuel IH]; intros n acc Hacc; [done|]. cbn [format_digits].
  assert (ToLower (String (digit_byte (n mod 10)) acc) = String (digit_byte (n mod 10)) acc) as Hd.
  { unfold ToLower in *. cbn [map_bytes]. rewrite lower_digit_byte; [by f_equal|].
    apply Z.mod_pos_bound. lia. }
  destruct (decide (n < 10)); [done|by apply IH].
Qed.

Lemma ToLower_FormatInt n : 0 ≤ n → ToLower (FormatInt n) = FormatInt n.
Proof. intros. unfold FormatInt. rewrite decide_False by lia. by apply ToLower_format_digits. Qed.

Lemma no_unit_letter_FormatInt n : 0 ≤ n → no_unit_letter (FormatInt n).
Proof. intros. by split_and!; apply has_byte_FormatInt; [..|done]. Qed.

(** [ParseRedisMemConf] on every size a user can write, a decimal number
    followed by no unit or one of k, kb, m, mb, g, gb, b in any case, succeeds and
    gives the number of bytes in decimal, reduced to a signed 64-bit integer: a
    size beyond 8 exbibytes silently wraps around. *)
Theorem ParseRedisMemConf_units n unit mul suffix :
  0 ≤ n < 2 ^ 63 → (unit, mul) ∈ ("", 1) :: mem_units → ToLower suffix = unit →
  ParseRedisMemConf (FormatInt n +:+ suffix) = (FormatInt (s64 (n * mul)), None).
Proof.
  intros Hn Hin <-. unfold ParseRedisMemConf.
  unfold ToLower at 1. rewrite map_bytes_app. fold (ToLower (FormatInt n)) (ToLower suffix).
  rewrite ToLower_FormatInt by lia.
  rewrite (find_unit_digits _ _ mul); [|apply no_unit_letter_FormatInt; lia|done].
  by rewrite ParseInt_FormatInt by lia.
Qed.

Lemma ParseRedisMemConf_units_witness :
  ParseRedisMemConf "12Gb" = ("12884901888", None) ∧
  ParseRedisMemConf "9007199254740992kb" = ("-9223372036854775808", None).
Proof.
  split.
  - apply (ParseRedisMemConf_units 12 "gb" (1024 * 1024 * 1024) "Gb"); [lia|by repeat constructor|reflexivity].
  - apply (ParseRedisMemConf_units 9007199254740992 "kb" 1024 "kb"); [lia|by repeat constructor|reflexivity].
Defined.

(** The buffer of [SliceJoin] is exactly large enough. *)
Lemma copy_to_fits b s : (String.length s ≤ b.2)%nat →
  copy_to b s = (b.1 +:+ s, (b.2 - String.length s)%nat).
Proof.
  intros Hle. unfold copy_to. f_equal. f_equal. generalize dependent (b.2). clear.
  induction s as [|c s IH]; intros [|n] Hle; cbn [String.length String.substring] in *; try done; [lia|].
  f_equal. apply IH. lia.
Qed.

Lemma SliceJoin_loop rest sep b :
  ((String.length sep * length rest + sum_list (String.length <$> rest)) ≤ b.2)%nat →
  (foldl (λ b s, copy_to (copy_to b sep) s) b rest).1 =
  b.1 +:+ foldr (λ s r, sep +:+ s +:+ r) "" rest.
Proof.
  revert b. induction rest as [|s rest IH]; intros b Hle; simpl in *; [by rewrite string_app_nil_r|].
  change (list_fmap string nat String.length rest) with (String.length <$> rest) in Hle.
  rewrite Nat.mul_succ_r in Hle. rewrite (copy_to_fits b sep), copy_to_fits by (cbn [snd]; lia). rewrite IH by (cbn [snd]; lia).
  cbn [fst]. by rewrite !string_app_assoc.
Qed.

Lemma Join_foldr a0 rest sep : Join (a0 :: rest) sep = a0 +:+ foldr (λ s r, sep +:+ s +:+ r) "" rest.
Proof.
  revert a0. induction rest as [|s rest IH]; intros a0; [simpl; by rewrite string_app_nil_r|].
  change (Join (a0 :: s :: rest) sep) with (a0 +:+ sep +:+ Join (s :: rest) sep). by rewrite IH.
Qed.

(** [SliceJoin] is [strings.Join]. *)
Lemma SliceJoin_Join a sep : SliceJoin a sep = Join a sep.
Proof.
  destruct a as [|a0 [|a1 [|a2 [|a3 a]]]]; try done.
  rewrite Join_foldr. remember (a1 :: a2 :: a3 :: a) as rest eqn:Hr.
  assert (SliceJoin (a0 :: rest) sep =
    (foldl (λ b s, copy_to (copy_to b sep) s)
       (copy_to ("", (String.length sep * (length (a0 :: rest) - 1) +
          sum_list (String.length <$> (a0 :: rest)))%nat) a0) rest).1) as ->.
  { by rewrite Hr. }
  rewrite copy_to_fits by (simpl; lia). rewrite SliceJoin_loop; [done|].
  cbn [fst snd length]. rewrite Nat.sub_succ, Nat.sub_0_r.
  assert (sum_list (String.length <$> a0 :: rest) = String.length a0 + sum_list (String.length <$> rest))%nat
    as -> by done. lia.
Qed.
