(* ===== verification/Api.v ===== *)
(** [pkg/apis/redis/v1alpha1]: the custom resources [DistributedRedisCluster] and
    [RedisClusterBackup], their constants, defaulting ([default.go]) and the
    validation webhook.

    A record field keeps its Go name, after a prefix for the struct where the bare
    name is taken.  A nil map reads as an empty one, except [Config] and
    [Annotations], which the code compares with nil. *)

From Stdlib Require Import ZArith Lia.
From S2P Require Import Prelude GoStrings Errors Kube Utils.

Local Open Scope Z_scope.

(** ** constants.go *)

Definition PersistentClaim : string := "persistent-claim".
Definition Ephemeral : string := "ephemeral".

Definition OperatorName : string := "redis-cluster-operator".
Definition LabelManagedByKey : string := "managed-by".
Definition StatefulSetLabel : string := "statefulSet".
Definition PasswordENV : string := "REDIS_PASSWORD".

Definition ClusterStatusOK : string := "Healthy".
Definition ClusterStatusKO : string := "Failed".
Definition ClusterStatusScaling : string := "Scaling".
Definition ClusterStatusRebalancing : string := "Rebalancing".
Definition ClusterStatusRollingUpdate : string := "RollingUpdate".
Definition ClusterStatusResetPassword : string := "ResetPassword".

Definition RestorePhaseRunning : string := "Running".
Definition RestorePhaseRestart : string := "Restart".
Definition RestorePhaseSucceeded : string := "Succeeded".

Definition DatabaseNamePrefix : string := "redis".
Definition LabelClusterName : string := "redis.kun/name".
Definition LabelBackupStatus : string := "backup.redis.kun/status".
Definition AnnotationJobType : string := "redis.kun/job-type".
Definition JobTypeBackup : string := "backup".
Definition JobTypeRestore : string := "restore".
Definition PrometheusExporterPortNumber : Z := 9100.
Definition PrometheusExporterTelemetryPath : string := "/metrics".
Definition BackupDumpDir : string := "/data".
Definition UtilVolumeName : string := "util-volume".

Definition BackupPhaseRunning : string := "Running".
Definition BackupPhaseSucceeded : string := "Succeeded".
Definition BackupPhaseFailed : string := "Failed".
Definition BackupPhaseIgnored : string := "Ignored".

(** register.go *)
Definition DistributedRedisClusterKind : string := "DistributedRedisCluster".
Definition RedisClusterBackupKind : string := "RedisClusterBackup".
Definition SchemeGroup : string := "redis.kun".
Definition SchemeVersion : string := "v1alpha1".

(** ** distributedrediscluster_types.go *)

Record PrometheusSpec := mkPrometheusSpec {
  prom_Port : Z;
  prom_Namespace : string;
  prom_Labels : label_map;
  prom_Interval : string;
}.
#[export] Instance PrometheusSpec_eta : Settable PrometheusSpec := λ p,
  mkPrometheusSpec (prom_Port p) (prom_Namespace p) (prom_Labels p) (prom_Interval p).

Record AgentSpec := mkAgentSpec {
  ag_Image : string;
  ag_Prometheus : option PrometheusSpec;
  ag_Args : list string;
  ag_Env : list EnvVar;
  ag_Resources : ResourceRequirements;
  ag_SecurityContext : option opaque;
}.
#[export] Instance AgentSpec_eta : Settable AgentSpec := λ a,
  mkAgentSpec (ag_Image a) (ag_Prometheus a) (ag_Args a) (ag_Env a) (ag_Resources a) (ag_SecurityContext a).

Record BackupSourceSpec := mkBackupSourceSpec {
  bs_Namespace : string;
  bs_Name : string;
  bs_Args : list string;
}.
(** [InitSpec], a struct with this one field. *)
Record InitSpec := mkInitSpec { BackupSource : option BackupSourceSpec }.

Record RedisStorage := mkRedisStorage {
  st_Size : Quantity;
  st_Type : string;
  st_Class : string;
  st_DeleteClaim : bool;
}.

Record DistributedRedisClusterSpec := mkDRCSpec {
  Image : string;
  ImagePullPolicy : string;
  ImagePullSecrets : list opaque;
  Command : list string;
  Env : list EnvVar;
  MasterSize : Z;
  ClusterReplicas : Z;
  ServiceName : string;
  Config : option (gmap string string);
  RequiredAntiAffinity : bool;
  spec_Affinity : option opaque;
  NodeSelector : label_map;
  ToleRations : list opaque;
  SecurityContext : option opaque;
  ContainerSecurityContext : option opaque;
  Annotations : option label_map;
  Storage : option RedisStorage;
  Resources : option ResourceRequirements;
  PasswordSecret : option string;
  Monitor : option AgentSpec;
  Init : option InitSpec;
}.
#[export] Instance DRCSpec_eta : Settable DistributedRedisClusterSpec := λ s,
  mkDRCSpec (Image s) (ImagePullPolicy s) (ImagePullSecrets s) (Command s) (Env s) (MasterSize s)
    (ClusterReplicas s) (ServiceName s) (Config s) (RequiredAntiAffinity s) (spec_Affinity s)
    (NodeSelector s) (ToleRations s) (SecurityContext s) (ContainerSecurityContext s) (Annotations s)
    (Storage s) (Resources s) (PasswordSecret s) (Monitor s) (Init s).

Record RedisClusterNode := mkRedisClusterNode {
  rcn_ID : string;
  rcn_Role : string;
  rcn_IP : string;
  rcn_Port : string;
  rcn_Slots : list string;
  rcn_MasterRef : string;
  rcn_PodName : string;
  rcn_NodeName : string;
  rcn_StatefulSet : string;
}.
#[export] Instance RedisClusterNode_eta : Settable RedisClusterNode := λ n,
  mkRedisClusterNode (rcn_ID n) (rcn_Role n) (rcn_IP n) (rcn_Port n) (rcn_Slots n) (rcn_MasterRef n)
    (rcn_PodName n) (rcn_NodeName n) (rcn_StatefulSet n).
#[export] Instance RedisClusterNode_eq_dec : EqDecision RedisClusterNode.
Proof. solve_decision. Defined.

(** ** redisclusterbackup_types.go *)

(** [store.LocalSpec] and [store.Backend] of the object store API. *)
Record LocalSpec := mkLocalSpec {
  local_VolumeSource : VolumeSource;
  local_MountPath : string;
  local_SubPath : string;
}.
Record S3Spec := mkS3Spec { s3_Endpoint : string; s3_Bucket : string; s3_Prefix : string }.
(** [Azure], [GCS] and [Swift] are given by their prefixes, the only field that is
    read. *)
Record Backend := mkBackend {
  StorageSecretName : string;
  be_Local : option LocalSpec;
  be_S3 : option S3Spec;
  be_GCS : option string;
  be_Azure : option string;
  be_Swift : option string;
}.

(** [v1alpha1.PodSpec], of the pods of a backup job. *)
Record BackupPodSpec := mkBackupPodSpec {
  bp_ServiceAccountName : string;
  bp_Args : list string;
  bp_Env : list EnvVar;
  bp_InitContainers : list opaque;
  bp_NodeSelector : label_map;
  bp_Resources : ResourceRequirements;
  bp_Affinity : option opaque;
  bp_SchedulerName : string;
  bp_Tolerations : list opaque;
  bp_ImagePullSecrets : list opaque;
  bp_PriorityClassName : string;
  bp_Priority : option Z;
  bp_SecurityContext : option opaque;
  bp_LivenessProbe : option opaque;
  bp_ReadinessProbe : option opaque;
  bp_Lifecycle : option opaque;
}.

Record RedisClusterBackupSpec := mkBackupSpec {
  b_Image : string;
  b_RedisClusterName : string;
  b_Storage : option RedisStorage;
  b_Backend : Backend;
  b_PodSpec : option BackupPodSpec;
  b_ActiveDeadlineSeconds : option Z;
}.

Record RedisClusterBackupStatus := mkBackupStatus {
  b_StartTime : option Z;
  b_CompletionTime : option Z;
  b_Phase : string;
  b_Reason : string;
  b_MasterSize : Z;
  b_ClusterReplicas : Z;
  b_ClusterImage : string;
}.
#[export] Instance BackupStatus_eta : Settable RedisClusterBackupStatus := λ b,
  mkBackupStatus (b_StartTime b) (b_CompletionTime b) (b_Phase b) (b_Reason b) (b_MasterSize b)
    (b_ClusterReplicas b) (b_ClusterImage b).

Record RedisClusterBackup := mkRedisClusterBackup {
  b_meta : ObjectMeta;
  b_Spec : RedisClusterBackupSpec;
  b_Status : RedisClusterBackupStatus;
}.
#[export] Instance RedisClusterBackup_eta : Settable RedisClusterBackup := λ b,
  mkRedisClusterBackup (b_meta b) (b_Spec b) (b_Status b).

(** ** The status and the resource *)

Record Restore_ := mkRestore {
  Phase : string;
  Backup : option RedisClusterBackup;
}.
#[export] Instance Restore_eta : Settable Restore_ := λ r, mkRestore (Phase r) (Backup r).

Record DistributedRedisClusterStatus := mkDRCStatus {
  ds_Status : string;
  ds_Reason : string;
  NumberOfMaster : Z;
  MinReplicationFactor : Z;
  MaxReplicationFactor : Z;
  ds_NodesPlacement : string;
  ds_Nodes : list RedisClusterNode;
  ds_Restore : Restore_;
}.
#[export] Instance DRCStatus_eta : Settable DistributedRedisClusterStatus := λ s,
  mkDRCStatus (ds_Status s) (ds_Reason s) (NumberOfMaster s) (MinReplicationFactor s)
    (MaxReplicationFactor s) (ds_NodesPlacement s) (ds_Nodes s) (ds_Restore s).

Record DistributedRedisCluster := mkDRC {
  drc_meta : ObjectMeta;
  Spec : DistributedRedisClusterSpec;
  drc_Status : DistributedRedisClusterStatus;
}.
#[export] Instance DRC_eta : Settable DistributedRedisCluster := λ c,
  mkDRC (drc_meta c) (Spec c) (drc_Status c).
Definition drc_Name (c : DistributedRedisCluster) : string := om_Name (drc_meta c).
Definition drc_Namespace (c : DistributedRedisCluster) : string := om_Namespace (drc_meta c).
(** [c.Status.Restore] *)
Definition Restore (c : DistributedRedisCluster) : Restore_ := ds_Restore (drc_Status c).

(** ** default.go *)

Definition minMasterSize : Z := 3.
Definition defaultRedisImage : string := "redis:5.0.4-alpine".
Definition defaultMonitorImage : string := "oliver006/redis_exporter:latest".

Definition IsRestoreFromBackup (c : DistributedRedisCluster) : bool :=
  match Init (Spec c) with
  | Some initSpec => match BackupSource initSpec with Some _ => true | None => false end
  | None => false
  end.
Definition IsRestored (c : DistributedRedisCluster) : bool :=
  bool_decide (Phase (Restore c) = RestorePhaseSucceeded).
Definition ShouldInitRestorePhase (c : DistributedRedisCluster) : bool :=
  bool_decide (Phase (Restore c) = "").
Definition IsRestoreRunning (c : DistributedRedisCluster) : bool :=
  bool_decide (Phase (Restore c) = RestorePhaseRunning).
Definition IsRestoreRestarting (c : DistributedRedisCluster) : bool :=
  bool_decide (Phase (Restore c) = RestorePhaseRestart).

Section defaults.
Context `{K8sApi}.

Definition defaultResource : ResourceRequirements :=
  mkResourceRequirements
    {[ "cpu" := MustParse "200m"; "memory" := MustParse "2Gi" ]}
    {[ "cpu" := MustParse "1000m"; "memory" := MustParse "4Gi" ]}.

(** The part of [DefaultSpec] on [mon := in.Spec.Monitor]: the monitor with its
    defaults, and whether one was missing. *)
Definition default_monitor (mon : AgentSpec) : AgentSpec * PrometheusSpec * bool :=
  let '(mon, update) :=
    if decide (ag_Image mon = "") then (mon <| ag_Image := defaultMonitorImage |>, true)
    else (mon, false) in
  let '(prom, update) :=
    match ag_Prometheus mon with
    | None => (mkPrometheusSpec 0 "" ∅ "", true)
    | Some prom => (prom, update)
    end in
  let '(prom, update) :=
    if decide (prom_Port prom = 0) then (prom <| prom_Port := PrometheusExporterPortNumber |>, true)
    else (prom, update) in
  (mon <| ag_Prometheus := Some prom |>, prom, update).

(** [if missing { in.Spec.f = v; update = true }] *)
Definition default_if (missing : DistributedRedisClusterSpec → bool)
    (set : DistributedRedisClusterSpec → DistributedRedisClusterSpec)
    (su : DistributedRedisClusterSpec * bool) : DistributedRedisClusterSpec * bool :=
  if missing su.1 then (set su.1, true) else su.

(** The four fields [DefaultSpec] treats first, for a resource named [name]. *)
Definition default_fields (name : string) (spec : DistributedRedisClusterSpec)
    : DistributedRedisClusterSpec * bool :=
  let su := default_if (λ s, bool_decide (MasterSize s < minMasterSize))
              (λ s, s <| MasterSize := minMasterSize |>) (spec, false) in
  let su := default_if (λ s, bool_decide (Image s = "")) (λ s, s <| Image := defaultRedisImage |>) su in
  let su := default_if (λ s, bool_decide (ServiceName s = "")) (λ s, s <| ServiceName := name |>) su in
  default_if (λ s, match Resources s with None => true | Some r => ResourceRequirements_Size r =? 0 end)
    (λ s, s <| Resources := Some defaultResource |>) su.

(** [DefaultSpec]: the resource with the defaults filled in, and whether one was. *)
Definition DefaultSpec (c : DistributedRedisCluster) : DistributedRedisCluster * bool :=
  let '(spec, update) := default_fields (drc_Name c) (Spec c) in
  match Monitor spec with
  | None => (c <| Spec := spec |>, update)
  | Some mon =>
      let '(mon, prom, mon_update) := default_monitor mon in
      let '(annotations, update) :=
        match Annotations spec with
        | None => (∅, true)
        | Some a => (a, update || mon_update)
        end in
      let annotations :=
        <["prometheus.io/port" := FormatInt (prom_Port prom)]>
          (<["prometheus.io/path" := PrometheusExporterTelemetryPath]>
            (<["prometheus.io/scrape" := "true"]> annotations)) in
      (c <| Spec := spec <| Monitor := Some mon |> <| Annotations := Some annotations |> |>, update)
  end.

(** [DefaultOwnerReferences] *)
Definition DefaultOwnerReferences (c : DistributedRedisCluster) : list OwnerReference :=
  [NewControllerRef (drc_meta c) (SchemeGroup, SchemeVersion, DistributedRedisClusterKind)].
End defaults.

(** [RedisClusterBackup.Validate] *)
Definition Validate (b : RedisClusterBackup) : option error :=
  let be := b_Backend (b_Spec b) in
  if decide (b_RedisClusterName (b_Spec b) = "") then Some (ErrText "bakcup [RedisClusterName] is missing")
  else if decide (be_S3 be = None ∧ be_GCS be = None ∧ be_Azure be = None ∧ be_Swift be = None ∧ be_Local be = None)
  then Some (ErrText "no storage provider is configured")
  else if decide (be_Azure be ≠ None ∨ be_Swift be ≠ None) then
    if decide (StorageSecretName be = "") then Some (ErrText "bakcup [SecretName] is missing") else None
  else None.

(** [n] on [k] digits, zero padded (dates are non-negative). *)
Fixpoint pad_digits (k : nat) (n : Z) (acc : string) : string :=
  match k with
  | O => acc
  | S k' => pad_digits k' (n / 10) (String (digit_byte (n mod 10)) acc)
  end.
(** The civil date (year, month, day) of a day number since 1970-01-01, in the
    proleptic Gregorian calendar of package [time]. *)
Definition civil_of_days (days : Z) : Z * Z * Z :=
  let z := days + 719468 in
  let era := z / 146097 in
  let doe := z - era * 146097 in
  let yoe := (doe - doe / 1460 + doe / 36524 - doe / 146096) / 365 in
  let doy := doe - (365 * yoe + yoe / 4 - yoe / 100) in
  let mp := (5 * doy + 2) / 153 in
  let d := doy - (153 * mp + 2) / 5 + 1 in
  let m := if decide (mp < 10) then mp + 3 else mp - 9 in
  (yoe + era * 400 + (if decide (m ≤ 2) then 1 else 0), m, d).
(** [t.Format("20060102150405")], in UTC, for years up to 9999. *)
Definition format_time (t : Z) : string :=
  let secs := t / 1000000000 in
  let '(y, m, d) := civil_of_days (secs / 86400) in
  let tod := secs mod 86400 in
  pad_digits 4 y "" +:+ pad_digits 2 m "" +:+ pad_digits 2 d "" +:+
  pad_digits 2 (tod / 3600) "" +:+ pad_digits 2 (tod / 60 mod 60) "" +:+ pad_digits 2 (tod mod 60) "".

(** [RedisClusterBackup.RemotePath]; a nil [StartTime] is dereferenced. *)
Definition RemotePath (b : RedisClusterBackup) : go (string * option error) :=
  match b_StartTime (b_Status b) with
  | None => Panics
  | Some t =>
      let be := b_Backend (b_Spec b) in
      let timePrefix := format_time t in
      let rest := [DatabaseNamePrefix; om_Namespace (b_meta b); b_RedisClusterName (b_Spec b); timePrefix] in
      Val match be_S3 be, be_GCS be, be_Azure be, be_Local be, be_Swift be with
          | Some s3, _, _, _, _ => (path_Join (s3_Prefix s3 :: rest), None)
          | None, Some prefix, _, _, _ => (path_Join (prefix :: rest), None)
          | None, None, Some prefix, _, _ => (path_Join (prefix :: rest), None)
          | None, None, None, Some _, _ => (path_Join rest, None)
          | None, None, None, None, Some prefix => (path_Join (prefix :: rest), None)
          | None, None, None, None, None => ("", Some (ErrText "no storage provider is configured"))
          end
  end.

Definition RCloneSecretName (b : RedisClusterBackup) : string := "rcloneconfig-" +:+ om_Name (b_meta b).
Definition JobName (b : RedisClusterBackup) : string := "redisbackup-" +:+ om_Name (b_meta b).
Definition IsRefLocalPVC (b : RedisClusterBackup) : bool :=
  match be_Local (b_Backend (b_Spec b)) with
  | Some l => match local_VolumeSource l with VolPVC _ => true | _ => false end
  | None => false
  end.

(** ** distributedrediscluster_webhook.go *)

Section webhook.
Context `{K8sApi}.

(** The checks that [ValidateCreate] and [ValidateUpdate] share. *)
Definition validate_spec (c : DistributedRedisCluster) : option error :=
  let spec := Spec c in
  let errs := IsDNS1035Label (ServiceName spec) in
  if decide (ServiceName spec ≠ "" ∧ errs ≠ [])
  then Some (ErrText ("the custom service is invalid: invalid value: " +:+ ServiceName spec +:+ ", " +:+ Join errs ","))
  else
    match Resources spec with
    | Some r =>
        match ValidateResourceRequirements r with
        | [] => None
        | errs => ErrorList_ToAggregate errs
        end
    | None => None
    end.

(** [ValidateCreate] *)
Definition ValidateCreate (c : DistributedRedisCluster) : option error := validate_spec c.

(** [compareObj]: does the update change what the operator has to act on? *)
Definition compareObj (new old : DistributedRedisCluster) : bool :=
  if CompareInt32 (MasterSize (Spec new)) (MasterSize (Spec old)) then true
  else if CompareStringValue (Image (Spec new)) (Image (Spec old)) then true
  else if decide (Resources (Spec new) ≠ Resources (Spec old)) then true
  else if decide (PasswordSecret (Spec new) ≠ PasswordSecret (Spec old)) then true
  else false.

(** [ValidateUpdate]; [None] is an old object of another type. *)
Definition ValidateUpdate (c : DistributedRedisCluster) (old : option DistributedRedisCluster) : option error :=
  match old with
  | None => Some (ErrText "invalid obj type")
  | Some oldObj =>
      match validate_spec c with
      | Some e => Some e
      | None =>
          let status := ds_Status (drc_Status oldObj) in
          if decide (status = "") then None
          else if compareObj c oldObj && negb (bool_decide (status = ClusterStatusOK)) then
            Some (ErrText ("redis cluster status: [" +:+ status +:+ "], wait for the status to become "
              +:+ ClusterStatusOK +:+ " before operating"))
          else None
      end
  end.
End webhook.

(** ** Properties *)

Section default_props.
Context `{K8sApi}.

(** What a resource is after defaulting. *)
Definition defaulted_monitor (s : DistributedRedisClusterSpec) (mon : AgentSpec) : Prop :=
  ag_Image mon ≠ "" ∧
  ∃ prom annotations,
    ag_Prometheus mon = Some prom ∧ prom_Port prom ≠ 0 ∧ Annotations s = Some annotations ∧
    annotations !! "prometheus.io/scrape" = Some "true" ∧
    annotations !! "prometheus.io/path" = Some PrometheusExporterTelemetryPath ∧
    annotations !! "prometheus.io/port" = Some (FormatInt (prom_Port prom)).
Definition defaulted (c : DistributedRedisCluster) : Prop :=
  let s := Spec c in
  minMasterSize ≤ MasterSize s ∧ Image s ≠ "" ∧ ServiceName s ≠ "" ∧
  (∃ r, Resources s = Some r ∧ ResourceRequirements_Size r ≠ 0) ∧
  (∀ mon, Monitor s = Some mon → defaulted_monitor s mon).

Lemma default_monitor_spec mon :
  let '(mon', prom, update) := default_monitor mon in
  ag_Image mon' ≠ "" ∧ ag_Prometheus mon' = Some prom ∧ prom_Port prom ≠ 0 ∧
  (update = false → mon' = mon).
Proof.
  destruct mon as [img [[port ns lb iv]|] args env res sc]; unfold default_monitor; cbn [ag_Image].
  - destruct (decide (img = "")); cbn; destruct (decide (port = 0)); cbn; split_and!; try done; by subst.
  - by destruct (decide (img = "")); cbn.
Qed.

Lemma default_monitor_fix mon prom :
  ag_Image mon ≠ "" → ag_Prometheus mon = Some prom → prom_Port prom ≠ 0 →
  default_monitor mon = (mon, prom, false).
Proof.
  destruct mon as [img pr args env res sc], prom as [port ns lb iv]. cbn. intros Himg -> Hport.
  unfold default_monitor. cbn [ag_Image]. rewrite decide_False by done. cbn. by rewrite decide_False.
Qed.

Lemma default_if_set (P : DistributedRedisClusterSpec → Prop) missing set su :
  (∀ s, missing s = false → P s) → (∀ s, P (set s)) → P (default_if missing set su).1.
Proof. intros H1 H2. unfold default_if. destruct (missing su.1) eqn:E; simpl; auto. Qed.

Lemma default_if_keep (P : DistributedRedisClusterSpec → Prop) missing set su :
  (∀ s, P s → P (set s)) → P su.1 → P (default_if missing set su).1.
Proof. intros H1 H2. unfold default_if. destruct (missing su.1); simpl; auto. Qed.

(** A stage with nothing to do leaves specification and flag alone. *)
Lemma default_if_id missing set su : missing su.1 = false → default_if missing set su = su.
Proof. unfold default_if. by intros ->. Qed.

Definition fields_ok (s : DistributedRedisClusterSpec) : Prop :=
  minMasterSize ≤ MasterSize s ∧ Image s ≠ "" ∧ ServiceName s ≠ "" ∧
  ∃ r, Resources s = Some r ∧ ResourceRequirements_Size r ≠ 0.

Lemma default_fields_ok name s :
  name ≠ "" → ResourceRequirements_Size defaultResource ≠ 0 → fields_ok (default_fields name s).1.
Proof.
  intros Hname Hsize. unfold default_fields, fields_ok. split_and!.
  - do 3 (apply default_if_keep; [done|]). apply default_if_set; [|done].
    intros s' Hs%bool_decide_eq_false. lia.
  - do 2 (apply default_if_keep; [done|]). apply default_if_set; [|done].
    by intros s' Hs%bool_decide_eq_false.
  - apply default_if_keep; [done|]. apply default_if_set; [|done].
    by intros s' Hs%bool_decide_eq_false.
  - apply default_if_set; [|intros s'; by eexists].
    intros s' Hs. destruct (Resources s') as [r|]; [|done].
    exists r. split; [done|]. by apply Z.eqb_neq.
Qed.

Lemma default_fields_rest name s :
  let s' := (default_fields name s).1 in Monitor s' = Monitor s ∧ Annotations s' = Annotations s.
Proof.
  cbv zeta. unfold default_fields.
  by do 4 (apply (default_if_keep (λ s', Monitor s' = Monitor s ∧ Annotations s' = Annotations s)); [done|]).
Qed.

Lemma default_fields_fix name s : fields_ok s → default_fields name s = (s, false).
Proof.
  intros (H1 & H2 & H3 & r & Hr & H4). unfold default_fields.
  rewrite (default_if_id _ _ (s, false)) by (apply bool_decide_eq_false; cbn [fst]; lia).
  rewrite (default_if_id _ _ (s, false)) by by apply bool_decide_eq_false.
  rewrite (default_if_id _ _ (s, false)) by by apply bool_decide_eq_false.
  apply default_if_id. cbn [fst]. rewrite Hr. by apply Z.eqb_neq.
Qed.

(** C38: [DefaultSpec] gives every resource with a name a specification with at
    least three masters, an image, a service name, resources, and for a monitor an
    image, a port and the three Prometheus annotations; a specification that is
    already so is left unchanged and not reported as updated, so defaulting is
    idempotent and does not make the operator write the resource again. *)
Theorem DefaultSpec_fixpoint c :
  drc_Name c ≠ "" → ResourceRequirements_Size defaultResource ≠ 0 →
  defaulted (DefaultSpec c).1 ∧
  (defaulted c → DefaultSpec c = (c, false)) ∧
  DefaultSpec (DefaultSpec c).1 = ((DefaultSpec c).1, false).
Proof.
  intros Hname Hsize.
  assert (defaulted (DefaultSpec c).1 ∧ drc_Name (DefaultSpec c).1 = drc_Name c) as [Hdef _].
  { unfold DefaultSpec. destruct (default_fields (drc_Name c) (Spec c)) as [s upd] eqn:Ef.
    pose proof (default_fields_ok (drc_Name c) (Spec c) Hname Hsize) as Hok. rewrite Ef in Hok.
    destruct Hok as (H1 & H2 & H3 & H4). cbn [fst] in *.
    destruct (Monitor s) as [mon|] eqn:Em.
    - pose proof (default_monitor_spec mon) as Hm.
      destruct (default_monitor mon) as [[mon' prom] mu]. destruct Hm as (Hi & Hp & Hport & _).
      destruct (Annotations s); (split; [split_and!; try done|done]); intros m [= <-]; (split; [done|]);
        eexists prom, _; (split_and!; [done|done|reflexivity|..]); by simplify_map_eq.
    - split; [|done]. split_and!; try done. intros mon Hmon. unfold Spec in Hmon. cbn in Hmon. congruence. }
  assert (∀ c, defaulted c → DefaultSpec c = (c, false)) as Hfix.
  { clear. intros c (H1 & H2 & H3 & H4 & Hmon). unfold DefaultSpec.
    rewrite default_fields_fix by by split_and!. destruct c as [meta s st]. cbn [Spec] in *.
    destruct (Monitor s) as [mon|] eqn:Em; [|done].
    destruct (Hmon mon eq_refl) as (Hi & prom & a & Hp & Hport & Ha & Hs1 & Hs2 & Hs3).
    rewrite (default_monitor_fix mon prom), Ha by done.
    rewrite (insert_id _ _ _ Hs1), (insert_id _ _ _ Hs2), (insert_id _ _ _ Hs3). simpl.
    do 2 f_equal. destruct s. simpl in *. unfold set_field. simpl. by subst. }
  split_and!; auto.
Qed.
End default_props.

(** A resource as a user writes it, for the witnesses. *)
Definition demo_spec : DistributedRedisClusterSpec :=
  mkDRCSpec "" "" [] [] [] 3 1 "" None false None ∅ [] None None None None None None None None.
Definition demo_status (status : string) : DistributedRedisClusterStatus :=
  mkDRCStatus status "" 0 0 0 "" [] (mkRestore "" None).
Definition demo_drc (s : DistributedRedisClusterSpec) (status : string) : DistributedRedisCluster :=
  mkDRC (newObjectMeta "cache" "ns" ∅ []) s (demo_status status).

Lemma DefaultSpec_fixpoint_witness :
  let c := demo_drc (demo_spec <| Monitor := Some (mkAgentSpec "" None [] [] (mkResourceRequirements ∅ ∅) None) |>) "" in
  let c' := (@DefaultSpec k8s_default c).1 in
  @defaulted k8s_default c' ∧ (@DefaultSpec k8s_default c).2 = true ∧
  @DefaultSpec k8s_default c' = (c', false).
Proof.
  cbv zeta. pose proof (@DefaultSpec_fixpoint k8s_default
    (demo_drc (demo_spec <| Monitor := Some (mkAgentSpec "" None [] [] (mkResourceRequirements ∅ ∅) None) |>) ""))
    as Hfix.
  destruct Hfix as (H1 & _ & H2); [vm_compute; discriminate..|].
  split; [exact H1|]. split; [vm_compute; reflexivity|exact H2].
Defined.

Section webhook_props.
Context `{K8sApi}.

Lemma compareObj_false new old :
  compareObj new old = false ↔
  MasterSize (Spec new) = MasterSize (Spec old) ∧ Image (Spec new) = Image (Spec old) ∧
  Resources (Spec new) = Resources (Spec old) ∧ PasswordSecret (Spec new) = PasswordSecret (Spec old).
Proof.
  unfold compareObj, CompareInt32, CompareStringValue.
  destruct (decide (MasterSize (Spec new) ≠ MasterSize (Spec old))) as [?|H1%dec_stable]; [naive_solver|].
  destruct (decide (Image (Spec new) ≠ Image (Spec old))) as [?|H2%dec_stable]; [naive_solver|].
  destruct (decide (Resources (Spec new) ≠ Resources (Spec old))) as [?|H3%dec_stable]; [naive_solver|].
  destruct (decide (PasswordSecret (Spec new) ≠ PasswordSecret (Spec old))) as [?|H4%dec_stable]; naive_solver.
Qed.

(** [ValidateUpdate] accepts an update exactly when the new specification is
    itself acceptable to [ValidateCreate] and, unless the cluster has no status yet
    or is healthy, the number of masters, the image, the resources and the password
    secret are unchanged: no scaling, rolling update or password change starts while
    another operation is in progress. *)
Theorem ValidateUpdate_accepts c old :
  ValidateUpdate c (Some old) = None ↔
  ValidateCreate c = None ∧
  (ds_Status (drc_Status old) = "" ∨ ds_Status (drc_Status old) = ClusterStatusOK ∨
   MasterSize (Spec c) = MasterSize (Spec old) ∧ Image (Spec c) = Image (Spec old) ∧
   Resources (Spec c) = Resources (Spec old) ∧ PasswordSecret (Spec c) = PasswordSecret (Spec old)).
Proof.
  unfold ValidateUpdate, ValidateCreate. rewrite <- compareObj_false.
  destruct (validate_spec c); [naive_solver|].
  destruct (decide (ds_Status (drc_Status old) = "")) as [->|Hne]; [naive_solver|].
  destruct (compareObj c old); simpl; [|naive_solver].
  destruct (decide (ds_Status (drc_Status old) = ClusterStatusOK)) as [->|Hok].
  - naive_solver.
  - rewrite bool_decide_eq_false_2 by done. simpl. naive_solver.
Qed.
End webhook_props.
