(* ===== verification/Client.v ===== *)
(** The Kubernetes client ([sigs.k8s.io/controller-runtime/pkg/client], a parameter
    of the model) and [pkg/k8sutil], the controls written over it.

    [Client W] is the interface on a world [W]; a read returns the object or an
    error.  [api_server] is a concrete client over an in-memory API server, used to
    evaluate the code and to state what it does to the stored objects. *)

From Stdlib Require Import ZArith Lia.
From S2P Require Import Prelude GoStrings Errors Kube Api.

Local Open Scope Z_scope.

(** ** API objects *)

Inductive Object :=
| OPod (p : Pod)
| OService (s : Service)
| OStatefulSet (s : AppsStatefulSet)
| OConfigMap (c : ConfigMap)
| OPDB (p : PodDisruptionBudget)
| OPVC (p : PersistentVolumeClaim)
| OSecret (s : Secret)
| OJob (j : Job)
| OCluster (c : DistributedRedisCluster)
| OBackup (b : RedisClusterBackup).

Definition object_kind (o : Object) : string :=
  match o with
  | OPod _ => "Pod" | OService _ => "Service" | OStatefulSet _ => "StatefulSet"
  | OConfigMap _ => "ConfigMap" | OPDB _ => "PodDisruptionBudget"
  | OPVC _ => "PersistentVolumeClaim" | OSecret _ => "Secret" | OJob _ => "Job"
  | OCluster _ => DistributedRedisClusterKind | OBackup _ => RedisClusterBackupKind
  end.
Definition object_meta (o : Object) : ObjectMeta :=
  match o with
  | OPod p => pod_meta p | OService s => svc_meta s | OStatefulSet s => ss_meta s
  | OConfigMap c => cm_meta c | OPDB p => pdb_meta p | OPVC p => pvc_meta p
  | OSecret s => secret_meta s | OJob j => job_meta j | OCluster c => drc_meta c
  | OBackup b => b_meta b
  end.

(** The Go types of API objects. *)
Class KObject (T : Type) := {
  kind_of : string;
  to_object : T → Object;
  of_object : Object → option T;
  of_to_object : ∀ x, of_object (to_object x) = Some x;
  to_of_object : ∀ o x, of_object o = Some x → o = to_object x;
  kind_to_object : ∀ x, object_kind (to_object x) = kind_of;
  of_object_kind : ∀ o, object_kind o = kind_of → is_Some (of_object o);
}.
Arguments kind_of T {_}.

#[export] Instance Pod_object : KObject Pod.
Proof.
  by refine {| kind_of := "Pod"; to_object := OPod;
    of_object o := match o with OPod x => Some x | _ => None end |}; [|intros []; intros; simplify_eq| |intros []; intros; by eauto].
Defined.
#[export] Instance Service_object : KObject Service.
Proof.
  by refine {| kind_of := "Service"; to_object := OService;
    of_object o := match o with OService x => Some x | _ => None end |}; [|intros []; intros; simplify_eq| |intros []; intros; by eauto].
Defined.
#[export] Instance StatefulSet_object : KObject AppsStatefulSet.
Proof.
  by refine {| kind_of := "StatefulSet"; to_object := OStatefulSet;
    of_object o := match o with OStatefulSet x => Some x | _ => None end |}; [|intros []; intros; simplify_eq| |intros []; intros; by eauto].
Defined.
#[export] Instance ConfigMap_object : KObject ConfigMap.
Proof.
  by refine {| kind_of := "ConfigMap"; to_object := OConfigMap;
    of_object o := match o with OConfigMap x => Some x | _ => None end |}; [|intros []; intros; simplify_eq| |intros []; intros; by eauto].
Defined.
#[export] Instance PDB_object : KObject PodDisruptionBudget.
Proof.
  by refine {| kind_of := "PodDisruptionBudget"; to_object := OPDB;
    of_object o := match o with OPDB x => Some x | _ => None end |}; [|intros []; intros; simplify_eq| |intros []; intros; by eauto].
Defined.
#[export] Instance PVC_object : KObject PersistentVolumeClaim.
Proof.
  by refine {| kind_of := "PersistentVolumeClaim"; to_object := OPVC;
    of_object o := match o with OPVC x => Some x | _ => None end |}; [|intros []; intros; simplify_eq| |intros []; intros; by eauto].
Defined.
#[export] Instance Secret_object : KObject Secret.
Proof.
  by refine {| kind_of := "Secret"; to_object := OSecret;
    of_object o := match o with OSecret x => Some x | _ => None end |}; [|intros []; intros; simplify_eq| |intros []; intros; by eauto].
Defined.
#[export] Instance Job_object : KObject Job.
Proof.
  by refine {| kind_of := "Job"; to_object := OJob;
    of_object o := match o with OJob x => Some x | _ => None end |}; [|intros []; intros; simplify_eq| |intros []; intros; by eauto].
Defined.
#[export] Instance Cluster_object : KObject DistributedRedisCluster.
Proof.
  by refine {| kind_of := DistributedRedisClusterKind; to_object := OCluster;
    of_object o := match o with OCluster x => Some x | _ => None end |}; [|intros []; intros; simplify_eq| |intros []; intros; by eauto].
Defined.
#[export] Instance Backup_object : KObject RedisClusterBackup.
Proof.
  by refine {| kind_of := RedisClusterBackupKind; to_object := OBackup;
    of_object o := match o with OBackup x => Some x | _ => None end |}; [|intros []; intros; simplify_eq| |intros []; intros; by eauto].
Defined.

(** ** client.Client

    [Update] and [Status().Update] also decode the response into the object they
    are given: they return the object as it is afterwards, with the error. *)

Class Client (W : Type) := {
  client_Get : ∀ {T} `{KObject T}, string → string → M W (error + T);
  client_List : ∀ {T} `{KObject T}, string → label_map → M W (error + list T);
  client_Create : ∀ {T} `{KObject T}, T → M W (option error);
  client_Update : ∀ {T} `{KObject T}, T → M W (T * option error);
  client_Delete : ∀ {T} `{KObject T}, T → M W (option error);
  client_StatusUpdate : ∀ {T} `{KObject T}, T → M W (T * option error);
}.

(** ** pkg/k8sutil *)

Section k8sutil.
Context {W : Type} `{Client W}.

(** A write whose object is not used afterwards. *)
Definition write_only {T} (m : M W (T * option error)) : M W (option error) :=
  r ← m; mret r.2.

(** [obj, err := get(); if err != nil { return err }; return delete(obj)] *)
Definition delete_by_name {T} `{KObject T} (get : M W (error + T)) (delete : T → M W (option error))
    : M W (option error) :=
  r ← get;
  match r with
  | inl err => mret (Some err)
  | inr obj => delete obj
  end.

(** pod.go *)
Definition CreatePod (pod : Pod) : M W (option error) := client_Create pod.
Definition UpdatePod (pod : Pod) : M W (option error) := write_only (client_Update pod).
Definition DeletePod (pod : Pod) : M W (option error) := client_Delete pod.
Definition GetPod (namespace name : string) : M W (error + Pod) := client_Get namespace name.
Definition DeletePodByName (namespace name : string) : M W (option error) :=
  delete_by_name (GetPod namespace name) client_Delete.

(** statefulset.go *)
Definition CreateStatefulSet (ss : AppsStatefulSet) : M W (option error) := client_Create ss.
Definition UpdateStatefulSet (ss : AppsStatefulSet) : M W (option error) := write_only (client_Update ss).
Definition DeleteStatefulSet (ss : AppsStatefulSet) : M W (option error) := client_Delete ss.
Definition GetStatefulSet (namespace name : string) : M W (error + AppsStatefulSet) :=
  client_Get namespace name.
Definition DeleteStatefulSetByName (namespace name : string) : M W (option error) :=
  delete_by_name (GetStatefulSet namespace name) DeleteStatefulSet.
Definition GetStatefulSetPods (namespace name : string) : M W (error + list Pod) :=
  r ← GetStatefulSet namespace name;
  match r with
  | inl err => mret (inl err)
  | inr ss => client_List namespace (ss_MatchLabels (ss_spec ss))
  end.
Definition GetStatefulSetPodsByLabels (namespace : string) (labels : label_map) : M W (error + list Pod) :=
  client_List namespace labels.
Definition ListStatefulSetByLabels (namespace : string) (labels : label_map)
    : M W (error + list AppsStatefulSet) :=
  client_List namespace labels.

(** configmap.go *)
Definition CreateConfigMap (cm : ConfigMap) : M W (option error) := client_Create cm.
Definition UpdateConfigMap (cm : ConfigMap) : M W (option error) := write_only (client_Update cm).
Definition DeleteConfigMap (cm : ConfigMap) : M W (option error) := client_Delete cm.
Definition GetConfigMap (namespace name : string) : M W (error + ConfigMap) := client_Get namespace name.

(** pvc.go *)
Definition DeletePvc (pvc : PersistentVolumeClaim) : M W (option error) := client_Delete pvc.
Definition DeletePvcByLabels (namespace : string) (labels : label_map) : M W (option error) :=
  r ← client_List namespace labels;
  match r with
  | inl err => mret (Some err)
  | inr foundPvcs => for_err foundPvcs (λ pvc : PersistentVolumeClaim, client_Delete pvc)
  end.
Definition GetPvc (namespace name : string) : M W (error + PersistentVolumeClaim) :=
  client_Get namespace name.

(** service.go *)
Definition CreateService (svc : Service) : M W (option error) := client_Create svc.
Definition UpdateService (svc : Service) : M W (option error) := write_only (client_Update svc).
Definition DeleteService (svc : Service) : M W (option error) := client_Delete svc.
Definition GetService (namespace name : string) : M W (error + Service) := client_Get namespace name.
Definition DeleteServiceByName (namespace name : string) : M W (option error) :=
  delete_by_name (GetService namespace name) DeleteService.

(** poddisruptionbudget.go *)
Definition CreatePodDisruptionBudget (pb : PodDisruptionBudget) : M W (option error) := client_Create pb.
Definition UpdatePodDisruptionBudget (pb : PodDisruptionBudget) : M W (option error) := write_only (client_Update pb).
Definition DeletePodDisruptionBudget (pb : PodDisruptionBudget) : M W (option error) := client_Delete pb.
Definition GetPodDisruptionBudget (namespace name : string) : M W (error + PodDisruptionBudget) :=
  client_Get namespace name.
Definition DeletePodDisruptionBudgetByName (namespace name : string) : M W (option error) :=
  delete_by_name (GetPodDisruptionBudget namespace name) DeletePodDisruptionBudget.

(** batchjob.go *)
Definition CreateJob (job : Job) : M W (option error) := client_Create job.
Definition UpdateJob (job : Job) : M W (option error) := write_only (client_Update job).
Definition DeleteJob (job : Job) : M W (option error) := client_Delete job.
Definition GetJob (namespace name : string) : M W (error + Job) := client_Get namespace name.
Definition ListJobByLabels (namespace : string) (labs : label_map) : M W (error + list Job) :=
  client_List namespace labs.

(** customresource.go *)
Definition UpdateCRStatus {T} `{KObject T} (obj : T) : M W (T * option error) := client_StatusUpdate obj.
Definition UpdateCR {T} `{KObject T} (obj : T) : M W (T * option error) := client_Update obj.
Definition GetRedisClusterBackup (namespace name : string) : M W (error + RedisClusterBackup) :=
  client_Get namespace name.
Definition GetDistributedRedisCluster (namespace name : string) : M W (error + DistributedRedisCluster) :=
  client_Get namespace name.

(** util.go: [CreateSecret] *)
Definition CreateSecret `{KubeErrors} (secret : Secret) : M W (option error) :=
  r ← client_Get (T := Secret) (om_Namespace (secret_meta secret)) (om_Name (secret_meta secret));
  match r with
  | inl err => if IsNotFound err then client_Create secret else mret (Some err)
  | inr _ => mret None
  end.
End k8sutil.

(** ** What the API server stores

    Objects are stored by kind, namespace and name.  [Update] replaces an object
    but keeps the status of the kinds whose status is a subresource, [Status().Update]
    replaces the status alone. *)

Abbreviation key := (string * (string * string))%type (only parsing).
Abbreviation store := (gmap (string * (string * string)) Object).

Definition object_key (o : Object) : string * (string * string) :=
  (object_kind o, (om_Namespace (object_meta o), om_Name (object_meta o))).
Definition key_of {T} `{KObject T} (x : T) : string * (string * string) := object_key (to_object x).

(** [old] with the specification of [new]; [old] with the status of [new]. *)
Definition with_spec (old new : Object) : Object :=
  match old, new with
  | OStatefulSet o, OStatefulSet n =>
      OStatefulSet (mkStatefulSet (ss_meta n) (ss_spec n) (ss_ReadyReplicas o) (ss_CurrentReplicas o))
  | OCluster o, OCluster n => OCluster (n <| drc_Status := drc_Status o |>)
  | OBackup o, OBackup n => OBackup (n <| b_Status := b_Status o |>)
  | OPod o, OPod n => OPod (mkPod (pod_meta n) (pod_spec n) (pod_Phase o) (pod_IP o))
  | OJob o, OJob n =>
      OJob (n <| job_Conditions := job_Conditions o |> <| job_Succeeded := job_Succeeded o |>
              <| job_Failed := job_Failed o |>)
  | _, _ => new
  end.
Definition with_status (old new : Object) : Object :=
  match old, new with
  | OStatefulSet o, OStatefulSet n =>
      OStatefulSet (mkStatefulSet (ss_meta o) (ss_spec o) (ss_ReadyReplicas n) (ss_CurrentReplicas n))
  | OCluster o, OCluster n => OCluster (o <| drc_Status := drc_Status n |>)
  | OBackup o, OBackup n => OBackup (o <| b_Status := b_Status n |>)
  | OPod o, OPod n => OPod (mkPod (pod_meta o) (pod_spec o) (pod_Phase n) (pod_IP n))
  | OJob o, OJob n =>
      OJob (o <| job_Conditions := job_Conditions n |> <| job_Succeeded := job_Succeeded n |>
              <| job_Failed := job_Failed n |>)
  | _, _ => if decide (object_kind old = object_kind new) then old else new
  end.

(** What the theorems on resources rely on: a client without a stale cache whose
    requests return, with a result or an error.  A read does not change the store,
    gives the object of the requested name, and reports an object as not found only when
    it is absent; a write changes the
    object it names, and nothing when it fails. *)
Class ClientLaws (W : Type) `{KubeErrors} `{Client W} := {
  stored : W → store;
  Get_law : ∀ {T} `{KObject T} namespace name w,
    runs (client_Get (T := T) namespace name) w (λ r w',
      stored w' = stored w ∧
      match r with
      | inr x => stored w !! (kind_of T, (namespace, name)) = Some (to_object x)
      | inl err => IsNotFound err = true → stored w !! (kind_of T, (namespace, name)) = None
      end);
  Get_key_law : ∀ {T} `{KObject T} namespace name w,
    safe (client_Get (T := T) namespace name) w (λ r _,
      match r with inr x => key_of x = (kind_of T, (namespace, name)) | inl _ => True end);
  Create_law : ∀ {T} `{KObject T} (x : T) w,
    runs (client_Create x) w (λ r w',
      match r with
      | None => stored w !! key_of x = None ∧ stored w' = <[key_of x := to_object x]> (stored w)
      | Some _ => stored w' = stored w
      end);
  Update_obj_law : ∀ {T} `{KObject T} (x : T) w,
    runs (client_Update x) w (λ r w',
      match r.2 with
      | None => ∃ old, stored w !! key_of x = Some old ∧ to_object r.1 = with_spec old (to_object x) ∧
          stored w' = <[key_of x := to_object r.1]> (stored w)
      | Some _ => r.1 = x ∧ stored w' = stored w
      end);
  Delete_law : ∀ {T} `{KObject T} (x : T) w,
    runs (client_Delete x) w (λ r w',
      match r with
      | None => stored w' = delete (key_of x) (stored w)
      | Some _ => stored w' = stored w
      end);
  StatusUpdate_obj_law : ∀ {T} `{KObject T} (x : T) w,
    runs (client_StatusUpdate x) w (λ r w',
      match r.2 with
      | None => ∃ old, stored w !! key_of x = Some old ∧ to_object r.1 = with_status old (to_object x) ∧
          stored w' = <[key_of x := to_object r.1]> (stored w)
      | Some _ => r.1 = x ∧ stored w' = stored w
      end);
  List_law : ∀ {T} `{KObject T} namespace (labels : label_map) w,
    runs (client_List (T := T) namespace labels) w (λ r w',
      stored w' = stored w ∧
      match r with
      | inr xs => ∀ x, x ∈ xs ↔ stored w !! key_of x = Some (to_object x) ∧
          (key_of x).2.1 = namespace ∧ labels ⊆ om_Labels (object_meta (to_object x))
      | inl _ => True
      end);
}.

(** [Update] where the object is not used afterwards. *)
Lemma Update_law {W T} `{ClientLaws W} `{KObject T} (x : T) (w : W) :
  runs (write_only (client_Update x)) w (λ r w',
    match r with
    | None => ∃ old, stored w !! key_of x = Some old ∧
        stored w' = <[key_of x := with_spec old (to_object x)]> (stored w)
    | Some _ => stored w' = stored w
    end).
Proof.
  apply runs_bind. eapply runs_mono; [apply Update_obj_law|]. intros [y e] w' Hw. apply runs_ret.
  destruct e; [by destruct Hw|]. destruct Hw as (old & Hs & Hy & ->). exists old. by rewrite <- Hy.
Qed.

(** ** An in-memory API server

    [fails verb key] makes a request fail with an error of the server; the second
    half of the state is the list of the writes that succeeded. *)
Section api_server.
Context (fails : string → string * (string * string) → option error).

Definition api_world : Type := store * list (string * (string * (string * string))).

Definition api_read {A : Type} (verb : string) (k : string * (string * string)) (f : store → error + A)
    : M api_world (error + A) := λ w,
  Val (match fails verb k with
       | Some err => inl (KubeError "InternalError" (Error err))
       | None => f w.1
       end, w).
Definition api_write (verb : string) (k : string * (string * string)) (f : store → error + store)
    : M api_world (option error) := λ w,
  match fails verb k with
  | Some err => Val (Some (KubeError "InternalError" (Error err)), w)
  | None =>
      match f w.1 with
      | inl err => Val (Some err, w)
      | inr s => Val (None, (s, w.2 ++ [(verb, k)]))
      end
  end.
(** An operation on the object stored under [k]. *)
Definition on_stored {A : Type} (s : store) (k : string * (string * string)) (f : Object → A) : error + A :=
  match s !! k with
  | Some old => inr (f old)
  | None => inl (KubeError "NotFound" "not found")
  end.

Definition api_Get {T} `{KObject T} (ns name : string) : M api_world (error + T) :=
  let k := (kind_of T, (ns, name)) in
  api_read "get" k (λ s,
    match s !! k with
    | Some o =>
        match of_object o with
        | Some x => if decide (key_of x = k) then inr x else inl (KubeError "BadRequest" "name")
        | None => inl (KubeError "BadRequest" "type")
        end
    | None => inl (KubeError "NotFound" "not found")
    end).
(** The object under [k], when it is of the listed kind and has the labels. *)
Definition api_select {T} `{KObject T} (ns : string) (labels : label_map)
    (e : (string * (string * string)) * Object) : option T :=
  x ← of_object e.2;
  if decide (e.1 = key_of x ∧ e.1.2.1 = ns ∧ labels ⊆ om_Labels (object_meta e.2)) then Some x else None.
Definition api_List {T} `{KObject T} (ns : string) (labels : label_map) : M api_world (error + list T) :=
  api_read "list" (kind_of T, (ns, "")) (λ s, inr (omap (api_select ns labels) (map_to_list s))).
Definition api_Create {T} `{KObject T} (x : T) : M api_world (option error) :=
  api_write "create" (key_of x) (λ s,
    match s !! key_of x with
    | Some _ => inl (KubeError "AlreadyExists" "already exists")
    | None => inr (<[key_of x := to_object x]> s)
    end).
(** A write of an object derived from the stored one and the one given. *)
Definition api_refresh {T} `{KObject T} (verb : string) (f : Object → Object → Object) (x : T)
    : M api_world (T * option error) :=
  y ← gets (λ w : api_world, w.1 !! key_of x ≫= λ old, of_object (f old (to_object x)));
  e ← api_write verb (key_of x) (λ s,
    on_stored s (key_of x) (λ old, <[key_of x := f old (to_object x)]> s));
  mret (match e with None => default x y | Some _ => x end, e).
Definition api_Update {T} `{KObject T} (x : T) : M api_world (T * option error) :=
  api_refresh "update" with_spec x.
Definition api_Delete {T} `{KObject T} (x : T) : M api_world (option error) :=
  api_write "delete" (key_of x) (λ s, on_stored s (key_of x) (λ _, delete (key_of x) s)).
Definition api_StatusUpdate {T} `{KObject T} (x : T) : M api_world (T * option error) :=
  api_refresh "status" with_status x.

Definition api_server : Client api_world := {|
  client_Get T _ := api_Get;
  client_List T _ := api_List;
  client_Create T _ := api_Create;
  client_Update T _ := api_Update;
  client_Delete T _ := api_Delete;
  client_StatusUpdate T _ := api_StatusUpdate;
|}.

Lemma api_write_law verb k f w :
  runs (api_write verb k f) w (λ r w', match r with None => f w.1 = inr w'.1 | Some _ => w' = w end).
Proof.
  unfold api_write, runs. destruct (fails verb k); [by eexists _, _|].
  destruct (f w.1) eqn:E; by eexists _, _.
Qed.

Lemma with_spec_kind old new : object_kind (with_spec old new) = object_kind new.
Proof. by destruct old, new. Qed.
Lemma with_status_kind old new : object_kind (with_status old new) = object_kind new.
Proof. unfold with_status. repeat case_match; by simplify_eq. Qed.

Lemma api_refresh_law {T} `{KObject T} verb f (x : T) w :
  (∀ old, object_kind (f old (to_object x)) = object_kind (to_object x)) →
  runs (api_refresh verb f x) w (λ r w',
    match r.2 with
    | None => ∃ old, w.1 !! key_of x = Some old ∧ to_object r.1 = f old (to_object x) ∧
        w'.1 = <[key_of x := to_object r.1]> w.1
    | Some _ => r.1 = x ∧ w' = w
    end).
Proof.
  intros Hkind. unfold api_refresh. apply runs_bind, runs_ret. unfold Datatypes.id.
  apply runs_bind. eapply runs_mono; [apply api_write_law|]. intros [e|] w' Hw; apply runs_ret; [done|].
  cbn [fst snd] in *. unfold on_stored in Hw. destruct (w.1 !! key_of x) as [old|]; [|done].
  destruct (of_object_kind _ (eq_trans (Hkind old) (kind_to_object x))) as [y Hy]. simpl. rewrite Hy. simpl.
  rewrite <- (to_of_object _ _ Hy). exists old. split_and!; [done|done|by simplify_eq].
Qed.

Definition api_server_laws : @ClientLaws api_world kube_errors_default api_server.
Proof.
  unshelve refine {| stored w := w.1 |}; cbn [client_Get client_List client_Create client_Update
    client_Delete client_StatusUpdate api_server].
  - intros T ? ns name w. unfold runs, api_Get, api_read. eexists _, _. split; [done|]. split; [done|].
    destruct (fails _ _); [done|].
    destruct (w.1 !! (kind_of T, (ns, name))) as [o|] eqn:E; [|done].
    destruct (of_object o) as [x|] eqn:Eo; [|done]. apply to_of_object in Eo. subst.
    by destruct (decide _).
  - intros T ? ns name w r w'. unfold api_Get, api_read. intros Heq. injection Heq as <- _.
    destruct (fails _ _); [done|]. destruct (w.1 !! _) as [o|]; [|done]. destruct (of_object o) as [x|]; [|done].
    by destruct (decide _).
  - intros T ? x w. eapply runs_mono; [apply api_write_law|]. intros [e|] w' Hw; [by subst|].
    simpl in Hw. destruct (w.1 !! key_of x); by simplify_eq.
  - intros T ? x w. eapply runs_mono; [apply api_refresh_law; intros; apply with_spec_kind|].
    intros [y [e|]] w' Hw; [|done]. by destruct Hw as [-> ->].
  - intros T ? x w. eapply runs_mono; [apply api_write_law|]. intros [e|] w' Hw; [by subst|].
    simpl in Hw. unfold on_stored in Hw. destruct (w.1 !! key_of x) as [old|]; [|done]. by simplify_eq.
  - intros T ? x w. eapply runs_mono; [apply api_refresh_law; intros; apply with_status_kind|].
    intros [y [e|]] w' Hw; [|done]. by destruct Hw as [-> ->].
  - intros T ? ns labels w. unfold runs, api_List, api_read. eexists _, _. split; [done|]. split; [done|].
    destruct (fails _ _); [done|].
    intros x. rewrite list_elem_of_omap. unfold api_select. split.
    + intros ([k o] & Hin%elem_of_map_to_list & Hx). simpl in Hx.
      destruct (of_object o) as [y|] eqn:Eo; [|done]. simpl in Hx.
      case_decide as Hd; [|done]. simplify_eq. destruct Hd as (-> & Hns & Hl).
      apply to_of_object in Eo. subst. by split_and!.
    + intros (Hs & Hns & Hl). exists (key_of x, to_object x). split; [by apply elem_of_map_to_list|].
      simpl. rewrite of_to_object. simpl. by rewrite decide_True.
Defined.
End api_server.
