(* ===== verification/Heal.v ===== *)
(** [pkg/controller/heal] and [pkg/controller/manager/{healer,checker}.go]: the
    repairs the operator tries before it touches the cluster (failed nodes,
    untrusted nodes, pods stuck in termination, a split cluster) and the check that
    all pods run.

    The repairs call the Redis administration ([IAdmin]) and delete pods
    ([IPodControl]); the state is the heap of nodes and the world of both. *)

From Stdlib Require Import ZArith Lia.
From S2P Require Import Prelude GoStrings Errors Slot Node ClusterInfo AdminInterface Kube Utils.
From S2P Require Import Api Client Clustering.

Local Open Scope Z_scope.

(** The part of [k8sutil.IPodControl] the repairs use. *)
Class IPodControl (W : Type) := {
  pods_DeletePodByName : string → string → M W (option error);
}.
(** [k8sutil.NewPodController] *)
Definition NewPodController {W} `{Client W} : IPodControl W := {|
  pods_DeletePodByName := DeletePodByName;
|}.

(** The secondary admin that [reassignClusters] creates with [redisutil.NewAdmin]
    for the addresses of a minor cluster, uses and closes. *)
Class IClusterAdmin (W : Type) := {
  sub_NewAdmin : list string → M W ();
  sub_FlushAndReset : string → string → M W (option error);
  sub_Close : M W ();
}.

(** [heal.CheckAndHeal], its data. *)
Record CheckAndHeal := mkCheckAndHeal {
  heal_Pods : list Pod;
  DryRun : bool;
}.

(** ** clustersplit.go *)

Abbreviation addrs := (list string) (only parsing).

(** [findInCluster] *)
Definition findInCluster (addr : string) (clusters : list addrs) : bool :=
  existsb (λ c, existsb (λ nodeAddr, bool_decide (addr = nodeAddr)) c) clusters.

(** The addresses of the nodes of a view that have no failure flag. *)
Definition healthy_view (h : heap) (nodeinfos : NodeInfos) : addrs :=
  (λ p, IPPort (h !!! p)) <$>
    FilterByFunc (elems (Friends nodeinfos) ++ [ni_Node nodeinfos])
      (λ p, bool_decide (FailStatus (h !!! p) = [])).

Section heal.
Context `{MapRange}.

(** [buildClustersLists].  The infos have no nil entry or node: [GetClusterInfos] stores
    only those with a node, so the check that skips them is left out. *)
Definition buildClustersLists_step (h : heap) (clusters : list addrs) (nodeinfos : NodeInfos) : list addrs :=
  let c := healthy_view h nodeinfos in
  let overlap := existsb (λ node, findInCluster node clusters) c in
  if negb overlap then clusters ++ [c] else clusters.
Definition buildClustersLists (h : heap) (infos : ClusterInfos) : list addrs :=
  foldl (buildClustersLists_step h) [] (range 50 (Infos infos)).*2.

(** The search of [splitMainCluster]: index of the first largest cluster (-1 if
    all are empty) and its size. *)
Fixpoint splitMainCluster_loop (i : Z) (best : Z * nat) (clusters : list addrs) : Z * nat :=
  match clusters with
  | [] => best
  | c :: clusters' =>
      splitMainCluster_loop (i + 1) (if decide (best.2 < length c)%nat then (i, length c) else best) clusters'
  end.
(** [splitMainCluster] *)
Definition splitMainCluster (clusters : list addrs) : addrs * list addrs :=
  match clusters with
  | [] => ([], [])
  | c0 :: _ =>
      let maincluster := (splitMainCluster_loop 0 (-1, O) clusters).1 in
      if decide (maincluster ≠ -1) then
        let i := Z.to_nat maincluster in
        (clusters !!! i, take i clusters ++ drop (S i) clusters)
      else (c0, [])
  end.

Context `{KubeErrors} {W : Type} `{IAdmin W}.
Implicit Types (h : heap).

(** [errs = append(errs, err)] when there is one. *)
Definition collect (errs : list error) (err : option error) : list error :=
  match err with Some e => errs ++ [e] | None => errs end.

Section split.
Context `{IClusterAdmin W}.

(** [reassignClusters] *)
Definition reassign_node (errs : list error) (nodeAddr : string) : M W (list error) :=
  err ← sub_FlushAndReset nodeAddr ResetHard;
  err2 ← admin_AttachNodeToCluster nodeAddr;
  mret (collect (collect errs err) err2).
Definition reassignClusters (clusters : list addrs) : M W (option error) :=
  let '(mainCluster, badClusters) := splitMainCluster clusters in
  match mainCluster with
  | [] => mret (Some (ErrText "impossible to fix cluster split, cannot elect main cluster"))
  | _ =>
      admin_Connections_ReplaceAll mainCluster;;
      errs ← for_fold badClusters [] (λ errs cluster,
        sub_NewAdmin cluster;;
        errs ← for_fold cluster errs reassign_node;
        sub_Close;;
        mret errs);
      mret (NewAggregate errs)
  end.

(** [FixClusterSplit] *)
Definition FixClusterSplit (c : CheckAndHeal) (infos : ClusterInfos) : M (heap * W) (bool * option error) :=
  h ← gets fst;
  let clusters := buildClustersLists h infos in
  if decide (1 < length clusters)%nat then
    if DryRun c then mret (true, None)
    else
      err ← on_snd (reassignClusters clusters);
      mret (true, err)
  else mret (false, None).
End split.

(** ** failednodes.go *)

(** The body of the loop of [listGhostNodes] over the friends of a node. *)
Definition ghost_step h (status_nodes : list RedisClusterNode) (ghosts : gmap string bool) (p : ptr)
    : gmap string bool :=
  let node := h !!! p in
  let ghosts := if HasStatus node NodeStatusNoAddr then <[ID node := true]> ghosts else ghosts in
  if HasStatus node NodeStatusFail || HasStatus node NodeStatusPFail then
    let found := existsb (λ pod, bool_decide (rcn_ID pod = ID node)) status_nodes in
    if negb found then <[ID node := true]> ghosts else ghosts
  else ghosts.
(** [listGhostNodes] *)
Definition listGhostNodes h (cl : DistributedRedisCluster) (infos : ClusterInfos) : gmap string bool :=
  foldl (λ ghosts ni, foldl (ghost_step h (ds_Nodes (drc_Status cl))) ghosts (elems (Friends ni)))
    ∅ (range 51 (Infos infos)).*2.

(** [FixFailedNodes] *)
Definition FixFailedNodes (c : CheckAndHeal) (cl : DistributedRedisCluster) (infos : ClusterInfos)
    : M (heap * W) (bool * option error) :=
  h ← gets fst;
  let forgetSet := listGhostNodes h cl infos in
  r ← for_fold (range 52 forgetSet) (false, []) (λ acc e,
    if negb (DryRun c) then
      err ← admin_ForgetNode e.1;
      mret (true, collect acc.2 err)
    else mret (true, acc.2));
  mret (r.1, NewAggregate r.2).

(** ** untrustenodes.go *)

Definition untrusted_step h (untrusted : gmap string ptr) (p : ptr) : gmap string ptr :=
  let node := h !!! p in
  if HasStatus node NodeStatusHandshake then
    match untrusted !! ID node with
    | Some _ => untrusted
    | None => <[ID node := p]> untrusted
    end
  else untrusted.
(** [listUntrustedNodes] *)
Definition listUntrustedNodes h (infos : ClusterInfos) : gmap string ptr :=
  foldl (λ untrusted ni, foldl (untrusted_step h) untrusted (elems (Friends ni)))
    ∅ (range 53 (Infos infos)).*2.

(** [checkIfPodNameExistAndIsReused] *)
Fixpoint checkIfPodNameExistAndIsReused_loop (node : Node) (exists_ : bool) (podlist : list Pod) : bool * bool :=
  match podlist with
  | [] => (exists_, false)
  | currentPod :: podlist' =>
      if decide (om_Name (pod_meta currentPod) = PodName node) then
        if decide (pod_IP currentPod = IP node) then (true, true)
        else checkIfPodNameExistAndIsReused_loop node true podlist'
      else checkIfPodNameExistAndIsReused_loop node exists_ podlist'
  end.
Definition checkIfPodNameExistAndIsReused (node : Node) (podlist : list Pod) : bool * bool :=
  if decide (PodName node = "") then (false, false)
  else checkIfPodNameExistAndIsReused_loop node false podlist.

Context `{IPodControl W}.

(** The body of the loop of [FixUntrustedNodes]; the first [continue] is for an
    error that [GetNodesByFunc] never gives. *)
Definition fix_untrusted (c : CheckAndHeal) (cl : DistributedRedisCluster) (infos : ClusterInfos)
    (acc : bool * list error) (e : string * ptr) : M (heap * W) (bool * list error) :=
  let '(id, uNode) := e in
  h ← gets fst;
  let u := h !!! uNode in
  let getByIPFunc n := bool_decide (IP (h !!! n) = IP u) && negb (bool_decide (ID (h !!! n) = ID u)) in
  let found := GetNodesByFunc (GetNodes infos) getByIPFunc in
  match found.2, IsNodeNotFoundedError found.2 with
  | Some e, false => mret (acc.1, acc.2 ++ [e])
  | _, _ =>
      if decide (0 < length found.1)%nat then mret acc
      else
        let '(exists_, reused) := checkIfPodNameExistAndIsReused u (heal_Pods c) in
        errs ← (if exists_ && negb reused then
                  err ← on_snd (pods_DeletePodByName (drc_Namespace cl) (PodName u));
                  mret (collect acc.2 err)
                else mret acc.2);
        if negb (DryRun c) then
          err ← admin_ForgetNode id;
          mret (true, collect errs err)
        else mret (true, errs)
  end.
(** [FixUntrustedNodes] *)
Definition FixUntrustedNodes (c : CheckAndHeal) (cl : DistributedRedisCluster) (infos : ClusterInfos)
    : M (heap * W) (bool * option error) :=
  h ← gets fst;
  r ← for_fold (range 54 (listUntrustedNodes h infos)) (false, []) (fix_untrusted c cl infos);
  mret (r.1, NewAggregate r.2).

(** ** terminatingpod.go *)

(** [FixTerminatingPods]; [now] is [time.Now()]. *)
Definition FixTerminatingPods (now : Z) (c : CheckAndHeal) (cl : DistributedRedisCluster) (maxDuration : Z)
    : M W (bool * option error) :=
  if decide (maxDuration = 0) then mret (false, None)
  else
    r ← for_fold (heal_Pods c) (false, []) (λ acc pod,
      match om_DeletionTimestamp (pod_meta pod) with
      | None => mret acc
      | Some t =>
          if decide (t + maxDuration < now) then
            if negb (DryRun c) then
              err ← pods_DeletePodByName (drc_Namespace cl) (om_Name (pod_meta pod));
              mret (true, collect acc.2 err)
            else mret (true, acc.2)
          else mret acc
      end);
    mret (r.1, NewAggregate r.2).

(** ** manager/healer.go *)

(** [realHeal.Heal] *)
Definition Heal (c : CheckAndHeal) (cl : DistributedRedisCluster) (infos : ClusterInfos)
    : M (heap * W) (bool * option error) :=
  r ← FixFailedNodes c cl infos;
  match r with
  | (actionDone, Some err) => mret (actionDone, Some err)
  | (true, None) => mret (true, None)
  | (false, None) =>
      r ← FixUntrustedNodes c cl infos;
      match r with
      | (actionDone, Some err) => mret (actionDone, Some err)
      | (true, None) => mret (true, None)
      | (false, None) => mret (false, None)
      end
  end.
End heal.

(** ** manager/checker.go *)

Section checker.
Context {W : Type} `{Client W}.

(** [checkRedisNodeNum]; a nil [Replicas] is dereferenced. *)
Definition checkRedisNodeNum (expectNodeNum : Z) (ss : AppsStatefulSet) : go (option error) :=
  match ss_Replicas (ss_spec ss) with
  | None => Panics
  | Some replicas =>
      Val (if decide (expectNodeNum ≠ replicas)
           then Some (ErrText "number of redis pods is different from specification")
           else if decide (expectNodeNum ≠ ss_ReadyReplicas ss)
           then Some (ErrText "redis pods are not all ready")
           else if decide (expectNodeNum ≠ ss_CurrentReplicas ss)
           then Some (ErrText "redis pods need to be updated")
           else None)
  end.

(** [CheckRedisNodeNum] *)
Definition CheckRedisNodeNum (cl : DistributedRedisCluster) : M W (option error) :=
  for_err (seqZ 0 (MasterSize (Spec cl))) (λ i,
    let name := ClusterStatefulSetName (drc_Name cl) i in
    let expectNodeNum := s32 (ClusterReplicas (Spec cl) + 1) in
    r ← GetStatefulSet (drc_Namespace cl) name;
    match r with
    | inl err => mret (Some err)
    | inr ss => pure (checkRedisNodeNum expectNodeNum ss)
    end).
End checker.

(** [CheckRedisMasterNum] *)
Definition CheckRedisMasterNum (cl : DistributedRedisCluster) : option error :=
  if decide (MasterSize (Spec cl) ≠ NumberOfMaster (drc_Status cl))
  then Some (ErrText "number of redis master different from specification") else None.
