(* ===== verification/HealProofs.v ===== *)
(** What the repairs of [Heal] do: which nodes they forget, which pods they delete,
    how a split cluster is recognised and joined again. *)

From Stdlib Require Import ZArith Lia.
From S2P Require Import Prelude GoStrings Errors Slot Node ClusterInfo AdminInterface Kube Utils.
From S2P Require Import Api Client Clustering Heal.

Local Open Scope Z_scope.

(** ** Clusters as seen by their nodes *)

Lemma findInCluster_true addr cs : findInCluster addr cs = true ↔ ∃ c, c ∈ cs ∧ addr ∈ c.
Proof.
  unfold findInCluster. rewrite existsb_exists. setoid_rewrite existsb_exists.
  setoid_rewrite bool_decide_eq_true. setoid_rewrite <- list_elem_of_In. naive_solver.
Qed.

(** Two lists of addresses without a common one. *)
Definition apart (c1 c2 : list string) : Prop := ∀ x, x ∈ c1 → x ∈ c2 → False.
Definition pairwise_apart (cs : list (list string)) : Prop :=
  ∀ i j c1 c2, cs !! i = Some c1 → cs !! j = Some c2 → i ≠ j → apart c1 c2.

Section lists.
Context `{MapRange} (h : heap).

Lemma overlap_false c cs :
  existsb (λ node, findInCluster node cs) c = false ↔ ∀ c', c' ∈ cs → apart c c'.
Proof.
  rewrite <- not_true_iff_false, existsb_exists. setoid_rewrite findInCluster_true.
  setoid_rewrite <- list_elem_of_In. unfold apart. naive_solver.
Qed.

Lemma buildClustersLists_step_spec cs ni :
  let cs' := buildClustersLists_step h cs ni in
  (cs' = cs ∨ cs' = cs ++ [healthy_view h ni]) ∧
  (pairwise_apart cs → pairwise_apart cs') ∧
  (healthy_view h ni ∈ cs' ∨ ∃ c, c ∈ cs' ∧ ¬ apart (healthy_view h ni) c).
Proof.
  unfold buildClustersLists_step. simpl.
  destruct (existsb _ (healthy_view h ni)) eqn:E; simpl.
  - split_and!; [by left|done|]. right.
    apply existsb_exists in E as (x & Hx & (c & Hc & Hxc)%findInCluster_true).
    apply list_elem_of_In in Hx. exists c. split; [done|]. intros Ha. by apply (Ha x).
  - split_and!; [by right| |left; apply elem_of_app; right; by left].
    intros Hp i j c1 c2 Hi Hj Hij. pose proof (proj1 (overlap_false _ _) E) as Hov.
    apply lookup_app_Some in Hi as [Hi|[Hi1 Hi2]]; apply lookup_app_Some in Hj as [Hj|[Hj1 Hj2]].
    + by apply (Hp i j).
    + apply list_lookup_singleton_Some in Hj2 as [_ <-]. intros x H1 H2.
      apply (Hov c1 (list_elem_of_lookup_2 _ _ _ Hi) x H2 H1).
    + apply list_lookup_singleton_Some in Hi2 as [_ <-]. intros x H1 H2.
      apply (Hov c2 (list_elem_of_lookup_2 _ _ _ Hj) x H1 H2).
    + apply list_lookup_singleton_Some in Hi2 as [? _], Hj2 as [? _]. lia.
Qed.

Lemma buildClustersLists_fold nis cs0 :
  pairwise_apart cs0 →
  let cs := foldl (buildClustersLists_step h) cs0 nis in
  pairwise_apart cs ∧ (∀ c, c ∈ cs0 → c ∈ cs) ∧
  (∀ c, c ∈ cs → c ∈ cs0 ∨ ∃ ni, ni ∈ nis ∧ c = healthy_view h ni) ∧
  (∀ ni, ni ∈ nis → healthy_view h ni ∈ cs ∨ ∃ c, c ∈ cs ∧ ¬ apart (healthy_view h ni) c).
Proof.
  revert cs0. induction nis as [|ni nis IH]; intros cs0 Hp; simpl.
  - split_and!; [done|done|by left|]. intros ni Hni. by apply elem_of_nil in Hni.
  - destruct (buildClustersLists_step_spec cs0 ni) as (Hstep & Hp' & Hni).
    destruct (IH _ (Hp' Hp)) as (H1 & H2 & H3 & H4).
    assert (∀ c, c ∈ cs0 → c ∈ buildClustersLists_step h cs0 ni) as Hkeep.
    { intros c Hc. destruct Hstep as [-> | ->]; [done|]. apply elem_of_app. by left. }
    split_and!; [done|auto| |].
    + intros c Hc. destruct (H3 c Hc) as [Hc'|(n & ? & ->)]; [|right; exists n; split; [by right|done]].
      destruct Hstep as [Heq|Heq]; rewrite Heq in Hc'; [by left|].
      apply elem_of_app in Hc' as [?|Hc']; [by left|]. apply list_elem_of_singleton in Hc' as ->.
      right. exists ni. split; [by left|done].
    + intros n [->|Hn]%elem_of_cons; [|by apply H4].
      destruct Hni as [?|(c & ? & ?)]; [left; auto|right; eauto].
Qed.

Lemma elem_of_infos site (infos : ClusterInfos) ni :
  ni ∈ (range site (Infos infos)).*2 ↔ ∃ addr, Infos infos !! addr = Some ni.
Proof.
  rewrite list_elem_of_fmap. split.
  - intros ([a n] & -> & Hin%elem_of_range). by exists a.
  - intros (a & Ha). exists (a, ni). split; [done|]. by apply elem_of_range.
Qed.

(** [buildClustersLists] finds clusters without a common node, each the healthy
    nodes some node knows; the view of every node is one of them or overlaps one. *)
Lemma buildClustersLists_spec infos :
  let cs := buildClustersLists h infos in
  pairwise_apart cs ∧
  (∀ c, c ∈ cs → ∃ addr ni, Infos infos !! addr = Some ni ∧ c = healthy_view h ni) ∧
  (∀ addr ni, Infos infos !! addr = Some ni →
     healthy_view h ni ∈ cs ∨ ∃ c, c ∈ cs ∧ ¬ apart (healthy_view h ni) c).
Proof.
  unfold buildClustersLists.
  destruct (buildClustersLists_fold (range 50 (Infos infos)).*2 []) as (H1 & _ & H3 & H4); [done|].
  split_and!; [done| |].
  - intros c Hc. destruct (H3 c Hc) as [Hn|(ni & (addr & Ha)%elem_of_infos & ->)]; [by apply elem_of_nil in Hn|eauto].
  - intros addr ni Ha. apply H4. apply elem_of_infos. eauto.
Qed.
End lists.

(** ** The main cluster *)

Lemma splitMainCluster_loop_spec clusters i best :
  0 ≤ i →
  let r := splitMainCluster_loop i best clusters in
  (r = best ∧ Forall (λ c, (length c ≤ best.2)%nat) clusters) ∨
  ∃ k c, clusters !! k = Some c ∧ r = (i + Z.of_nat k, length c) ∧ (best.2 < length c)%nat ∧
    Forall (λ c', (length c' < length c)%nat) (take k clusters) ∧
    Forall (λ c', (length c' ≤ length c)%nat) clusters.
Proof.
  revert i best. induction clusters as [|c cs IH]; intros i best Hi; simpl; [by left|].
  destruct (decide (best.2 < length c)%nat) as [Hlt|Hle].
  - right. destruct (IH (i + 1) (i, length c)) as [[Hr Hall]|(k & c' & Hk & Hr & Hlt' & Htake & Hall)]; [lia|..].
    + exists 0%nat, c. rewrite Z.add_0_r. split_and!; [done|done|done|by constructor|by constructor].
    + exists (S k), c'. simpl in *. split_and!; [done| |lia|constructor; [lia|done]|constructor; [lia|done]].
      rewrite Hr. f_equal. lia.
  - destruct (IH (i + 1) best) as [[Hr Hall]|(k & c' & Hk & Hr & Hlt' & Htake & Hall)]; [lia|..].
    + left. split; [done|]. constructor; [lia|done].
    + right. exists (S k), c'. simpl in *. split_and!; [done| |lia|constructor; [lia|done]|constructor; [lia|done]].
      rewrite Hr. f_equal. lia.
Qed.

(** The main cluster is the first of the largest ones, and the others are the bad
    clusters; when all are empty there is no main cluster. *)
Lemma splitMainCluster_spec clusters :
  let '(main, bad) := splitMainCluster clusters in
  (main = [] ∧ bad = [] ∧ Forall (λ c, c = []) clusters) ∨
  ∃ k, clusters !! k = Some main ∧ main ≠ [] ∧ bad = take k clusters ++ drop (S k) clusters ∧
    Forall (λ c, (length c < length main)%nat) (take k clusters) ∧
    Forall (λ c, (length c ≤ length main)%nat) clusters.
Proof.
  unfold splitMainCluster. destruct clusters as [|c0 cs]; [by left|].
  destruct (splitMainCluster_loop_spec (c0 :: cs) 0 (-1, 0%nat)) as [[Hr Hall]|(k & c & Hk & Hr & Hlt & Htake & Hall)];
    [lia| |]; rewrite Hr; cbn [fst snd] in *.
  - rewrite decide_False by lia. left.
    assert (Forall (λ c, c = []) (c0 :: cs)) as Hnil.
    { eapply Forall_impl; [exact Hall|]. intros [|??] Hl; [done|]. simpl in Hl. lia. }
    split_and!; [by inversion Hnil|done|done].
  - rewrite decide_True by lia. replace (Z.to_nat (0 + Z.of_nat k)) with k by lia.
    right. exists k. rewrite (list_lookup_total_correct _ _ _ Hk). split_and!; [done| |done..].
    destruct c; [simpl in Hlt; lia|done].
Qed.

(** ** Recording implementations *)

Section recording.
Variable fails : call → bool.

Definition recording_pods : IPodControl (list call) := {|
  pods_DeletePodByName ns name := record fails (CallOther ("DeletePod " +:+ ns +:+ "/" +:+ name));
|}.
Definition recording_cluster_admin : IClusterAdmin (list call) := {|
  sub_NewAdmin addrs := record_ (CallOther ("NewAdmin " +:+ Join addrs ","));
  sub_FlushAndReset addr mode := record fails (CallReset addr mode);
  sub_Close := record_ (CallOther "CloseAdmin");
|}.

(** The errors of a sequence of calls. *)
Definition errors_of (calls : list call) : list error :=
  (λ _, ErrText "refused") <$> filter (λ c, fails c = true) calls.

Lemma record_eq c tr : record fails c tr = Val (if fails c then Some (ErrText "refused") else None, tr ++ [c]).
Proof. done. Qed.
Lemma collect_errors errs c :
  collect errs (if fails c then Some (ErrText "refused") else None) = errs ++ errors_of [c].
Proof.
  unfold errors_of. rewrite filter_cons. destruct (fails c); simpl; [done|by rewrite app_nil_r].
Qed.
Lemma errors_of_app l1 l2 : errors_of (l1 ++ l2) = errors_of l1 ++ errors_of l2.
Proof. unfold errors_of. by rewrite filter_app, fmap_app. Qed.
End recording.

Section split.
Context `{MapRange} `{KubeErrors} (fails : call → bool).
Local Existing Instances recording_admin recording_pods recording_cluster_admin.

(** The calls that join the nodes of a bad cluster to the main one. *)
Definition rejoin_calls (cluster : list string) : list call :=
  CallOther ("NewAdmin " +:+ Join cluster ",") ::
  (cluster ≫= λ nodeAddr, [CallReset nodeAddr ResetHard; CallMeet nodeAddr]) ++ [CallOther "CloseAdmin"].

Definition reassign_calls (nodeAddr : string) : list call := [CallReset nodeAddr ResetHard; CallMeet nodeAddr].

Lemma reassign_node_eq errs a tr :
  @reassign_node (list call) (recording_admin fails) (recording_cluster_admin fails) errs a tr =
  Val (errs ++ errors_of fails (reassign_calls a), tr ++ reassign_calls a).
Proof.
  unfold reassign_node, mbind, M_bind, mret, M_ret.
  cbn [sub_FlushAndReset admin_AttachNodeToCluster recording_admin recording_cluster_admin].
  rewrite record_eq. cbn [go_bind fst snd]. rewrite record_eq. cbn [go_bind fst snd].
  rewrite !collect_errors. unfold reassign_calls.
  change [CallReset a ResetHard; CallMeet a] with ([CallReset a ResetHard] ++ [CallMeet a]).
  rewrite errors_of_app. by rewrite <- !(assoc_L (++)).
Qed.

(** A loop that makes calls and collects their errors. *)
Lemma for_fold_calls {A} (l : list A) (f : list error → A → M (list call) (list error)) calls errors errs tr :
  (∀ errs x tr, f errs x tr = Val (errs ++ errors x, tr ++ calls x)) →
  for_fold l errs f tr = Val (errs ++ (l ≫= errors), tr ++ (l ≫= calls)).
Proof.
  intros Hf. revert errs tr. induction l as [|x l IH]; intros errs tr.
  - simpl. by rewrite !app_nil_r.
  - cbn [for_fold]. unfold mbind at 1, M_bind at 1. rewrite Hf. cbn [go_bind fst snd]. rewrite IH.
    change ((x :: l) ≫= calls) with (calls x ++ (l ≫= calls)).
    change ((x :: l) ≫= errors) with (errors x ++ (l ≫= errors)).
    by rewrite <- !(assoc_L (++)).
Qed.

Lemma reassignClusters_eq clusters tr :
  @reassignClusters _ (list call) (recording_admin fails) (recording_cluster_admin fails) clusters tr =
  let '(main, bad) := splitMainCluster clusters in
  if decide (main = []) then
    Val (Some (ErrText "impossible to fix cluster split, cannot elect main cluster"), tr)
  else
    Val (NewAggregate (bad ≫= λ cl, cl ≫= λ a, errors_of fails (reassign_calls a)),
         tr ++ CallOther ("ReplaceAll " +:+ Join main ",") :: (bad ≫= rejoin_calls)).
Proof.
  unfold reassignClusters. destruct (splitMainCluster clusters) as [main bad].
  destruct main as [|m main]; [by rewrite decide_True|]. rewrite decide_False by done.
  unfold mbind at 1 2, M_bind at 1 2.
  cbn [admin_Connections_ReplaceAll recording_admin sub_NewAdmin sub_Close recording_cluster_admin].
  unfold record_ at 1. cbn [go_bind fst snd].
  rewrite (for_fold_calls bad _ rejoin_calls (λ cl, cl ≫= λ a, errors_of fails (reassign_calls a))).
  - cbn [go_bind fst snd]. unfold mret, M_ret. by rewrite <- (assoc_L (++)).
  - intros errs cl tr'. unfold mbind, M_bind, record_, mret, M_ret. cbn [go_bind fst snd].
    rewrite (for_fold_calls cl _ reassign_calls (λ a, errors_of fails (reassign_calls a)))
      by (intros; apply reassign_node_eq).
    cbn [go_bind fst snd]. do 2 f_equal. unfold rejoin_calls. by rewrite <- !(assoc_L (++)).
Qed.

(** C31: [FixClusterSplit] acts exactly when the healthy nodes are seen as more than
    one cluster: with views that pairwise share a node it does nothing.  Outside a
    dry run it then keeps the first of the largest clusters, reconnects to it alone,
    and hard-resets and re-attaches every node of every other cluster, one cluster
    after the other, whether or not earlier nodes failed; the error returned is
    that of the failed calls. *)
Theorem FixClusterSplit_rejoins c infos h tr :
  let clusters := buildClustersLists h infos in
  let '(main, bad) := splitMainCluster clusters in
  ((∀ a1 a2 n1 n2, Infos infos !! a1 = Some n1 → Infos infos !! a2 = Some n2 →
      ¬ apart (healthy_view h n1) (healthy_view h n2)) → (length clusters ≤ 1)%nat) ∧
  (main ≠ [] → clusters ≡ₚ main :: bad ∧ ∀ c', c' ∈ bad → (length c' ≤ length main)%nat) ∧
  @FixClusterSplit _ _ (list call) (recording_admin fails) (recording_cluster_admin fails) c infos (h, tr) =
  if decide (length clusters ≤ 1)%nat then Val ((false, None), (h, tr))
  else if DryRun c then Val ((true, None), (h, tr))
  else if decide (main = []) then
    Val ((true, Some (ErrText "impossible to fix cluster split, cannot elect main cluster")), (h, tr))
  else
    Val ((true, NewAggregate (bad ≫= λ cl, cl ≫= λ a, errors_of fails (reassign_calls a))),
         (h, tr ++ CallOther ("ReplaceAll " +:+ Join main ",") :: (bad ≫= rejoin_calls))).
Proof.
  cbv zeta. pose proof (splitMainCluster_spec (buildClustersLists h infos)) as Hspec.
  pose proof (reassignClusters_eq (buildClustersLists h infos) tr) as Hre.
  destruct (buildClustersLists_spec h infos) as (Hap & Hin & _).
  unfold FixClusterSplit, gets. unfold mbind at 1, M_bind at 1. cbn [go_bind fst snd].
  set (clusters := buildClustersLists h infos) in *.
  destruct (splitMainCluster clusters) as [main bad] eqn:Es. split_and!.
  - intros Hov. destruct clusters as [|c1 [|c2 cs]] eqn:Ec; simpl; [lia..|]. exfalso.
    destruct (Hin c1) as (a1 & n1 & H1 & ->); [by left|].
    destruct (Hin c2) as (a2 & n2 & H2 & ->); [right; by left|].
    by apply (Hov a1 a2 n1 n2 H1 H2), (Hap 0%nat 1%nat).
  - intros Hne. destruct Hspec as [(? & _)|(k & Hk & _ & -> & _ & Hall)]; [done|]. split.
    + rewrite <- (take_drop_middle clusters k main Hk) at 1. apply Permutation_sym, Permutation_middle.
    + intros c' Hc'. rewrite Forall_forall in Hall. apply Hall.
      rewrite <- (take_drop_middle clusters k main Hk). set_solver.
  - destruct (decide (length clusters ≤ 1)%nat); [by rewrite decide_False by lia|].
    rewrite decide_True by lia. destruct (DryRun c); [done|].
    unfold mbind, M_bind, on_snd. cbn [fst snd]. rewrite Hre.
    by destruct (decide (main = [])).
Qed.
End split.

(** ** Failed nodes *)

Section ghosts.
Context `{MapRange} `{KubeErrors}.
Implicit Types (h : heap).

(** Some node of the cluster knows the node [p]. *)
Definition known (infos : ClusterInfos) (p : ptr) : Prop :=
  ∃ addr ni, Infos infos !! addr = Some ni ∧ p ∈ elems (Friends ni).

(** The node has no address, or is failing and is not the node of a pod of the
    status. *)
Definition is_ghost (status_nodes : list RedisClusterNode) (node : Node) : Prop :=
  HasStatus node NodeStatusNoAddr = true ∨
  (HasStatus node NodeStatusFail = true ∨ HasStatus node NodeStatusPFail = true) ∧
  ∀ pod, pod ∈ status_nodes → rcn_ID pod ≠ ID node.

Lemma ghost_step_spec h sn ghosts p id :
  is_Some (ghost_step h sn ghosts p !! id) ↔
  is_Some (ghosts !! id) ∨ (ID (h !!! p) = id ∧ is_ghost sn (h !!! p)).
Proof.
  unfold ghost_step, is_ghost. cbv zeta. generalize (h !!! p) as node. intros node.
  assert (existsb (λ pod, bool_decide (rcn_ID pod = ID node)) sn = false ↔
    ∀ pod, pod ∈ sn → rcn_ID pod ≠ ID node) as Hf.
  { rewrite <- not_true_iff_false, existsb_exists. setoid_rewrite bool_decide_eq_true.
    setoid_rewrite <- list_elem_of_In. naive_solver. }
  assert (∀ (g : gmap string bool), is_Some (<[ID node := true]> g !! id) ↔ is_Some (g !! id) ∨ ID node = id) as Hins.
  { intros g. destruct (decide (ID node = id)) as [->|Hne].
    - rewrite lookup_insert_eq. split; [by right|by eexists].
    - rewrite lookup_insert_ne by done. naive_solver. }
  destruct (HasStatus node NodeStatusNoAddr), (HasStatus node NodeStatusFail) eqn:E1,
    (HasStatus node NodeStatusPFail) eqn:E2; simpl;
    try (destruct (existsb _ sn) eqn:E; simpl; rewrite ?Hins;
         [assert (¬ (∀ pod, pod ∈ sn → rcn_ID pod ≠ ID node)) by (rewrite <- Hf; congruence)
         |assert (∀ pod, pod ∈ sn → rcn_ID pod ≠ ID node) by (by apply Hf)]);
    rewrite ?Hins; clear Hins Hf E1 E2; naive_solver.
Qed.

Lemma ghost_fold_spec h sn ps ghosts id :
  is_Some (foldl (ghost_step h sn) ghosts ps !! id) ↔
  is_Some (ghosts !! id) ∨ ∃ p, p ∈ ps ∧ ID (h !!! p) = id ∧ is_ghost sn (h !!! p).
Proof.
  revert ghosts. induction ps as [|p ps IH]; intros ghosts; simpl.
  - split; [by left|]. intros [?|(p & Hp & _)]; [done|]. by apply elem_of_nil in Hp.
  - rewrite IH, ghost_step_spec. setoid_rewrite elem_of_cons. naive_solver.
Qed.

(** [listGhostNodes] gives exactly the IDs of the known nodes that are ghosts. *)
Lemma listGhostNodes_spec h cl infos id :
  is_Some (listGhostNodes h cl infos !! id) ↔
  ∃ p, known infos p ∧ ID (h !!! p) = id ∧ is_ghost (ds_Nodes (drc_Status cl)) (h !!! p).
Proof.
  unfold listGhostNodes, known.
  assert (∀ (nis : list NodeInfos) g, is_Some (foldl (λ g ni, foldl (ghost_step h (ds_Nodes (drc_Status cl))) g
      (elems (Friends ni))) g nis !! id) ↔ is_Some (g !! id) ∨ ∃ ni p, ni ∈ nis ∧ p ∈ elems (Friends ni) ∧
      ID (h !!! p) = id ∧ is_ghost (ds_Nodes (drc_Status cl)) (h !!! p)) as Hgen.
  { induction nis as [|ni nis IH]; intros g; simpl.
    - split; [by left|]. intros [?|(ni & p & Hn & _)]; [done|]. by apply elem_of_nil in Hn.
    - rewrite IH, ghost_fold_spec. setoid_rewrite elem_of_cons. naive_solver. }
  rewrite Hgen. rewrite lookup_empty. setoid_rewrite elem_of_infos. split.
  - intros [[? ?]|(ni & p & (a & Ha) & Hp & Hid & Hg)]; [done|]. exists p. eauto 10.
  - intros (p & (a & ni & Ha & Hp) & Hid & Hg). right. eauto 10.
Qed.

(** The loop of [FixFailedNodes]. *)
Lemma forget_loop fails c (l : list (string * bool)) b errs h tr :
  for_fold l (b, errs) (λ acc e,
    if negb (DryRun c) then
      err ← @admin_ForgetNode (list call) (recording_admin fails) e.1;
      mret (true, collect acc.2 err)
    else mret (true, acc.2)) (h, tr) =
  Val ((b || negb (bool_decide (l.*1 = [])),
        if DryRun c then errs else errs ++ errors_of fails (CallForget <$> l.*1)),
       (h, if DryRun c then tr else tr ++ (CallForget <$> l.*1))).
Proof.
  revert b errs tr. induction l as [|e l IH]; intros b errs tr; cbn [for_fold].
  - rewrite bool_decide_true by done. simpl. rewrite orb_false_r, !app_nil_r. by destruct (DryRun c).
  - destruct (DryRun c) eqn:Ed; cbn [negb fst snd] in *.
    + erewrite bind_Val by done. rewrite IH. simpl. by rewrite orb_true_r.
    + erewrite bind_Val; [|by erewrite bind_Val].
      rewrite IH. cbn [fst snd]. rewrite collect_errors. simpl. rewrite orb_true_r, <- !(assoc_L (++)), <- errors_of_app. done.
Qed.

Definition ghost_ids h cl infos : list string := (range 52 (listGhostNodes h cl infos)).*1.

Lemma ghost_ids_spec h cl infos :
  NoDup (ghost_ids h cl infos) ∧
  ∀ id, id ∈ ghost_ids h cl infos ↔
    ∃ p, known infos p ∧ ID (h !!! p) = id ∧ is_ghost (ds_Nodes (drc_Status cl)) (h !!! p).
Proof.
  split; [apply range_NoDup_keys|]. intros id. rewrite <- listGhostNodes_spec.
  unfold ghost_ids. rewrite list_elem_of_fmap. split.
  - intros ([id' b] & -> & Hin%elem_of_range). by exists b.
  - intros [b Hb]. exists (id, b). split; [done|]. by apply elem_of_range.
Qed.

Lemma FixFailedNodes_eq fails c cl infos h tr :
  let ids := ghost_ids h cl infos in
  @FixFailedNodes _ _ (list call) (recording_admin fails) c cl infos (h, tr) =
  Val ((negb (bool_decide (ids = [])),
        if DryRun c then None else NewAggregate (errors_of fails (CallForget <$> ids))),
       (h, if DryRun c then tr else tr ++ (CallForget <$> ids))).
Proof.
  unfold FixFailedNodes. erewrite bind_Val by done. cbv zeta. cbn [fst].
  erewrite bind_Val by apply forget_loop. unfold mret, M_ret. cbn [fst snd orb].
  destruct (DryRun c); [|done]. do 3 f_equal. by apply NewAggregate_None.
Qed.

(** [FixFailedNodes] asks the cluster to forget exactly the ghost nodes (nodes
    without an address, and failing nodes that belong to no pod of the status), each
    of them once, and goes on when a request fails; a dry run makes no request.  An
    action is reported exactly when there is a ghost, and the error is that of the
    failed requests. *)
Theorem FixFailedNodes_forgets_ghosts fails c cl infos h tr :
  ∃ ids,
    NoDup ids ∧
    (∀ id, id ∈ ids ↔ ∃ p, known infos p ∧ ID (h !!! p) = id ∧ is_ghost (ds_Nodes (drc_Status cl)) (h !!! p)) ∧
    @FixFailedNodes _ _ (list call) (recording_admin fails) c cl infos (h, tr) =
    Val ((negb (bool_decide (ids = [])),
          if DryRun c then None else NewAggregate (errors_of fails (CallForget <$> ids))),
         (h, if DryRun c then tr else tr ++ (CallForget <$> ids))).
Proof.
  exists (ghost_ids h cl infos). destruct (ghost_ids_spec h cl infos) as [H1 H2].
  split_and!; [done|done|apply FixFailedNodes_eq].
Qed.
End ghosts.

(** ** Untrusted nodes *)

Section untrusted.
Context `{MapRange} `{KubeErrors}.
Implicit Types (h : heap).

(** Another node of the cluster answers at the address of [u]. *)
Definition ip_taken h (infos : ClusterInfos) (u : Node) : bool :=
  existsb (λ n, bool_decide (IP (h !!! n) = IP u) && negb (bool_decide (ID (h !!! n) = ID u))) (GetNodes infos).
(** The pod of [u] exists, and its address is no longer that of [u]. *)
Definition pod_stale (pods : list Pod) (u : Node) : bool :=
  negb (bool_decide (PodName u = "")) &&
  existsb (λ p, bool_decide (om_Name (pod_meta p) = PodName u)) pods &&
  negb (existsb (λ p, bool_decide (om_Name (pod_meta p) = PodName u) && bool_decide (pod_IP p = IP u)) pods).

Lemma checkIfPodNameExistAndIsReused_loop_spec u b pods :
  let '(e, r) := checkIfPodNameExistAndIsReused_loop u b pods in
  e && negb r =
  (b || existsb (λ p, bool_decide (om_Name (pod_meta p) = PodName u)) pods) &&
  negb (existsb (λ p, bool_decide (om_Name (pod_meta p) = PodName u) && bool_decide (pod_IP p = IP u)) pods).
Proof.
  revert b. induction pods as [|p pods IH]; intros b; simpl; [by rewrite orb_false_r|].
  destruct (decide (om_Name (pod_meta p) = PodName u)) as [Hn|Hn].
  - rewrite (bool_decide_eq_true_2 _ Hn). simpl. destruct (decide (pod_IP p = IP u)) as [Hi|Hi].
    + rewrite (bool_decide_eq_true_2 _ Hi). simpl. by rewrite andb_false_r.
    + rewrite (bool_decide_eq_false_2 _ Hi). simpl. specialize (IH true).
      destruct (checkIfPodNameExistAndIsReused_loop u true pods). by rewrite IH, orb_true_r.
  - rewrite (bool_decide_eq_false_2 _ Hn). simpl. apply IH.
Qed.

Lemma checkIfPodNameExistAndIsReused_spec u pods :
  let '(e, r) := checkIfPodNameExistAndIsReused u pods in e && negb r = pod_stale pods u.
Proof.
  unfold checkIfPodNameExistAndIsReused, pod_stale. destruct (decide (PodName u = "")) as [He|He].
  - by rewrite bool_decide_true.
  - rewrite bool_decide_false by done. apply checkIfPodNameExistAndIsReused_loop_spec.
Qed.

(** [listUntrustedNodes]: one node for each ID a known node in handshake has. *)
Lemma listUntrustedNodes_spec h infos :
  (∀ id p, listUntrustedNodes h infos !! id = Some p →
     known infos p ∧ ID (h !!! p) = id ∧ HasStatus (h !!! p) NodeStatusHandshake = true) ∧
  (∀ p, known infos p → HasStatus (h !!! p) NodeStatusHandshake = true →
     is_Some (listUntrustedNodes h infos !! ID (h !!! p))).
Proof.
  set (Q (m : gmap string ptr) := ∀ id p, m !! id = Some p → known infos p ∧ ID (h !!! p) = id ∧
                        HasStatus (h !!! p) NodeStatusHandshake = true).
  assert (∀ ps m, Q m → Forall (known infos) ps →
    Q (foldl (untrusted_step h) m ps) ∧ dom m ⊆ dom (foldl (untrusted_step h) m ps) ∧
    ∀ p, p ∈ ps → HasStatus (h !!! p) NodeStatusHandshake = true →
      ID (h !!! p) ∈ dom (foldl (untrusted_step h) m ps)) as Hps.
  { induction ps as [|p ps IH]; intros m Hm Hall; simpl.
    - split_and!; [done|done|]. intros p Hp. by apply elem_of_nil in Hp.
    - apply Forall_cons in Hall as [Hp Hall].
      assert (Q (untrusted_step h m p) ∧ dom m ⊆ dom (untrusted_step h m p) ∧
        (HasStatus (h !!! p) NodeStatusHandshake = true → ID (h !!! p) ∈ dom (untrusted_step h m p))) as (H1 & H2 & H3).
      { unfold untrusted_step. destruct (HasStatus (h !!! p) NodeStatusHandshake) eqn:E; [|done].
        destruct (m !! ID (h !!! p)) eqn:El; [split_and!; [done|done|intros _; by eapply elem_of_dom_2]|].
        split_and!; [|rewrite dom_insert; clear; set_solver|intros _; rewrite dom_insert; clear; set_solver].
        intros id q. destruct (decide (ID (h !!! p) = id)) as [<-|Hne].
        - rewrite lookup_insert_eq. by intros [= <-].
        - rewrite lookup_insert_ne by done. apply Hm. }
      destruct (IH _ H1 Hall) as (H4 & H5 & H6). split_and!; [done|by etrans|].
      intros q [->|Hq]%elem_of_cons Hs; [apply H5; auto|auto]. }
  assert (∀ (nis : list NodeInfos) m, Q m → (∀ ni, ni ∈ nis → Forall (known infos) (elems (Friends ni))) →
    let m' := foldl (λ m ni, foldl (untrusted_step h) m (elems (Friends ni))) m nis in
    Q m' ∧ dom m ⊆ dom m' ∧ ∀ ni p, ni ∈ nis → p ∈ elems (Friends ni) →
      HasStatus (h !!! p) NodeStatusHandshake = true → ID (h !!! p) ∈ dom m') as Hnis.
  { induction nis as [|ni nis IH]; intros m Hm Hall; simpl.
    - split_and!; [done|done|]. intros ni p Hn. by apply elem_of_nil in Hn.
    - destruct (Hps (elems (Friends ni)) m Hm) as (H1 & H2 & H3); [apply Hall; by left|].
      destruct (IH _ H1) as (H4 & H5 & H6); [intros; apply Hall; by right|].
      split_and!; [done|by etrans|]. intros n p [->|Hn]%elem_of_cons Hp Hs; [apply H5; auto|eauto]. }
  destruct (Hnis (range 53 (Infos infos)).*2 ∅) as (H1 & _ & H3).
  - intros id p. by rewrite lookup_empty.
  - intros ni (a & Ha)%elem_of_infos. apply Forall_forall. intros p Hp. by exists a, ni.
  - split; [exact H1|]. intros p (a & ni & Ha & Hp) Hs. apply elem_of_dom.
    apply (H3 ni); [apply elem_of_infos; by exists a|done|done].
Qed.

(** The requests for one untrusted node. *)
Definition untrusted_calls (c : CheckAndHeal) (namespace : string) h infos (e : string * ptr) : list call :=
  let u := h !!! e.2 in
  if ip_taken h infos u then []
  else (if pod_stale (heal_Pods c) u then [CallOther ("DeletePod " +:+ namespace +:+ "/" +:+ PodName u)] else []) ++
       (if DryRun c then [] else [CallForget e.1]).

(** [GetNodesByFunc] fails with the not-found error or not at all. *)
Lemma GetNodesByFunc_err {A B} (n : list A) f (x : error → B) (y : B) :
  match (GetNodesByFunc n f).2, IsNodeNotFoundedError (GetNodesByFunc n f).2 with
  | Some e, false => x e
  | _, _ => y
  end = y.
Proof. unfold GetNodesByFunc. cbn [snd]. by destruct (decide _). Qed.

Lemma ip_taken_GetNodesByFunc h infos u :
  ip_taken h infos u = negb (bool_decide ((GetNodesByFunc (GetNodes infos)
    (λ n, bool_decide (IP (h !!! n) = IP u) && negb (bool_decide (ID (h !!! n) = ID u)))).1 = [])).
Proof.
  unfold ip_taken. set (f := λ n, _). rewrite (proj1 (GetNodesByFunc_spec _ f)).
  induction (GetNodes infos) as [|n ns IH]; [done|]. simpl.
  rewrite filter_cons. destruct (f n) eqn:E; simpl; [done|]. rewrite IH. done.
Qed.

Lemma fix_untrusted_eq fails c cl infos h acc e tr :
  @fix_untrusted _ (list call) (recording_admin fails) (recording_pods fails) c cl infos acc e (h, tr) =
  let calls := untrusted_calls c (drc_Namespace cl) h infos e in
  Val ((acc.1 || negb (ip_taken h infos (h !!! e.2)), acc.2 ++ errors_of fails calls), (h, tr ++ calls)).
Proof.
  destruct e as [id p], acc as [b errs]. unfold fix_untrusted, untrusted_calls.
  erewrite bind_Val by done. cbv zeta. cbn [fst snd].
  rewrite GetNodesByFunc_err, ip_taken_GetNodesByFunc.
  pose proof (checkIfPodNameExistAndIsReused_spec (h !!! p) (heal_Pods c)) as Hpod.
  destruct (GetNodesByFunc _ _).1 as [|n ns]; cbn [length].
  - rewrite decide_False by lia. rewrite bool_decide_true by done. cbn [negb].
    destruct (checkIfPodNameExistAndIsReused _ _) as [e r]. rewrite Hpod. rewrite orb_true_r.
    destruct (pod_stale (heal_Pods c) (h !!! p)).
    + erewrite bind_Val; [|by erewrite bind_Val]. cbn [fst snd]. rewrite collect_errors.
      destruct (DryRun c); cbn [negb]; [by rewrite app_nil_r|].
      erewrite bind_Val by done. cbn [fst snd]. rewrite collect_errors. unfold mret, M_ret.
      by rewrite <- !(assoc_L (++)), <- errors_of_app.
    + erewrite bind_Val by done. destruct (DryRun c); cbn [negb app].
      * unfold mret, M_ret. by rewrite !app_nil_r.
      * erewrite bind_Val by done. cbn [fst snd]. by rewrite collect_errors.
  - rewrite decide_True by lia. rewrite bool_decide_false by done. cbn [negb].
    unfold mret, M_ret. by rewrite orb_false_r, !app_nil_r.
Qed.

Lemma FixUntrustedNodes_eq fails c cl infos h tr :
  let us := range 54 (listUntrustedNodes h infos) in
  let calls := us ≫= untrusted_calls c (drc_Namespace cl) h infos in
  @FixUntrustedNodes _ _ (list call) (recording_admin fails) (recording_pods fails) c cl infos (h, tr) =
  Val ((existsb (λ e, negb (ip_taken h infos (h !!! e.2))) us, NewAggregate (errors_of fails calls)),
       (h, tr ++ calls)).
Proof.
  cbv zeta. unfold FixUntrustedNodes. erewrite bind_Val by done. cbn [fst].
  generalize (range 54 (listUntrustedNodes h infos)) as us. intros us.
  assert (∀ acc tr, for_fold us acc (@fix_untrusted _ (list call) (recording_admin fails) (recording_pods fails)
      c cl infos) (h, tr) =
    let calls := us ≫= untrusted_calls c (drc_Namespace cl) h infos in
    Val ((acc.1 || existsb (λ e, negb (ip_taken h infos (h !!! e.2))) us, acc.2 ++ errors_of fails calls),
         (h, tr ++ calls))) as Hloop.
  { induction us as [|e us IH]; intros [b errs] tr'; cbn [for_fold].
    - simpl. by rewrite orb_false_r, !app_nil_r.
    - erewrite bind_Val by apply fix_untrusted_eq. rewrite IH. cbv zeta. cbn [fst snd existsb].
      change ((e :: us) ≫= untrusted_calls c (drc_Namespace cl) h infos)
        with (untrusted_calls c (drc_Namespace cl) h infos e ++ (us ≫= untrusted_calls c (drc_Namespace cl) h infos)).
      by rewrite errors_of_app, orb_assoc, <- !(assoc_L (++)). }
  erewrite bind_Val by apply Hloop. done.
Qed.

(** [FixUntrustedNodes] treats every untrusted node (known, in handshake) once,
    whatever fails: nothing when another node answers at its address; otherwise it
    deletes the pod of the node if that pod exists but has another address, and
    forgets the node.  A dry run forgets nothing, but it does delete the pods.  An
    action is reported exactly when some node's address is not taken. *)
Theorem FixUntrustedNodes_effect fails c cl infos h tr :
  ∃ us,
    NoDup us.*1 ∧
    (∀ id p, (id, p) ∈ us → known infos p ∧ ID (h !!! p) = id ∧ HasStatus (h !!! p) NodeStatusHandshake = true) ∧
    (∀ p, known infos p → HasStatus (h !!! p) NodeStatusHandshake = true → ID (h !!! p) ∈ us.*1) ∧
    let calls := us ≫= untrusted_calls c (drc_Namespace cl) h infos in
    @FixUntrustedNodes _ _ (list call) (recording_admin fails) (recording_pods fails) c cl infos (h, tr) =
    Val ((existsb (λ e, negb (ip_taken h infos (h !!! e.2))) us, NewAggregate (errors_of fails calls)),
         (h, tr ++ calls)).
Proof.
  exists (range 54 (listUntrustedNodes h infos)).
  destruct (listUntrustedNodes_spec h infos) as [H1 H2]. split_and!.
  - apply range_NoDup_keys.
  - intros id p Hin%elem_of_range. by apply H1.
  - intros p Hk Hs. destruct (H2 p Hk Hs) as [q Hq]. apply list_elem_of_fmap. exists (ID (h !!! p), q).
    split; [done|]. by apply elem_of_range.
  - apply FixUntrustedNodes_eq.
Qed.

(** C24: a round of [Heal] returns, leaves the heap alone, and only ever asks to
    forget a known node that is failing, has no address, or is still in handshake,
    and to delete the stale pod of a node in handshake.  It reports an action or an
    error whenever it made a request, and handles untrusted nodes only in a round
    without failed ones. *)
Theorem Heal_spares_healthy_nodes fails c cl infos h tr :
  ∃ r calls,
    @Heal _ _ (list call) (recording_admin fails) (recording_pods fails) c cl infos (h, tr) = Val (r, (h, tr ++ calls)) ∧
    (calls ≠ [] → r.1 = true) ∧
    (∀ k, k ∈ calls → ∃ p, known infos p ∧
       (k = CallForget (ID (h !!! p)) ∧
          (is_ghost (ds_Nodes (drc_Status cl)) (h !!! p) ∨ HasStatus (h !!! p) NodeStatusHandshake = true) ∨
        k = CallOther ("DeletePod " +:+ drc_Namespace cl +:+ "/" +:+ PodName (h !!! p)) ∧
          HasStatus (h !!! p) NodeStatusHandshake = true ∧ pod_stale (heal_Pods c) (h !!! p) = true)) ∧
    ((∃ p, known infos p ∧ is_ghost (ds_Nodes (drc_Status cl)) (h !!! p)) →
       r.1 = true ∧ ∀ k, k ∈ calls → ∃ p, k = CallForget (ID (h !!! p)) ∧ is_ghost (ds_Nodes (drc_Status cl)) (h !!! p)).
Proof.
  destruct (ghost_ids_spec h cl infos) as [_ Hids]. destruct (listUntrustedNodes_spec h infos) as [Hun _].
  unfold Heal. erewrite bind_Val by apply FixFailedNodes_eq.
  set (ids := ghost_ids h cl infos) in *.
  destruct (decide (ids = [])) as [Hnil|Hne].
  - rewrite bool_decide_true by done. rewrite Hnil. cbn [negb fmap list_fmap app].
    rewrite app_nil_r. assert (NewAggregate (errors_of fails []) = None) as -> by by apply NewAggregate_None.
    assert (∀ A (x : A), (if DryRun c then x else x) = x) as Hif by (intros; by destruct (DryRun c)).
    rewrite !Hif. erewrite bind_Val by apply FixUntrustedNodes_eq. cbv zeta.
    set (us := range 54 (listUntrustedNodes h infos)).
    set (calls := us ≫= untrusted_calls c (drc_Namespace cl) h infos).
    set (act := existsb _ us).
    exists (act, NewAggregate (errors_of fails calls)), calls. split_and!.
    + by destruct act, (NewAggregate _).
    + intros Hc. cbn [fst]. destruct calls as [|k calls'] eqn:Ec; [done|].
      assert (k ∈ calls) as Hk by (rewrite Ec; by left).
      apply list_elem_of_bind in Hk as (e & Hk & He). apply existsb_exists.
      exists e. split; [by apply list_elem_of_In|]. unfold untrusted_calls in Hk.
      destruct (ip_taken h infos (h !!! e.2)); [by apply elem_of_nil in Hk|done].
    + intros k Hk. apply list_elem_of_bind in Hk as ([id p] & Hk & He%elem_of_range).
      destruct (Hun id p He) as (Hkn & <- & Hs). exists p. split; [done|]. unfold untrusted_calls in Hk. cbn [fst snd] in Hk.
      destruct (ip_taken h infos (h !!! p)); [by apply elem_of_nil in Hk|].
      apply elem_of_app in Hk as [Hk|Hk].
      * destruct (pod_stale _ _) eqn:Est; [|by apply elem_of_nil in Hk].
        apply list_elem_of_singleton in Hk as ->. by right.
      * destruct (DryRun c); [by apply elem_of_nil in Hk|]. apply list_elem_of_singleton in Hk as ->.
        left. split; [done|by right].
    + intros (p & Hk & Hg). assert (ID (h !!! p) ∈ ids) as Hin by (apply Hids; eauto).
      rewrite Hnil in Hin. by apply elem_of_nil in Hin.
  - rewrite bool_decide_false by done. cbn [negb].
    exists (true, if DryRun c then None else NewAggregate (errors_of fails (CallForget <$> ids))),
      (if DryRun c then [] else CallForget <$> ids). split_and!.
    + destruct (DryRun c); [by rewrite app_nil_r|]. by destruct (NewAggregate _).
    + done.
    + intros k Hk. destruct (DryRun c); [by apply elem_of_nil in Hk|].
      apply list_elem_of_fmap in Hk as (id & -> & (p & Hk & <- & Hg)%Hids). exists p. split; [done|].
      left. split; [done|by left].
    + intros _. split; [done|]. intros k Hk. destruct (DryRun c); [by apply elem_of_nil in Hk|].
      apply list_elem_of_fmap in Hk as (id & -> & (p & Hk & <- & Hg)%Hids). by exists p.
Qed.
End untrusted.

(** ** Pods stuck in termination *)

Section terminating.
Context `{KubeErrors}.

(** The deletion of the pod was requested more than [max] ago. *)
Definition is_overdue (now max : Z) (p : Pod) : bool :=
  match om_DeletionTimestamp (pod_meta p) with Some t => bool_decide (t + max < now) | None => false end.
Definition overdue (now max : Z) (pods : list Pod) : list string :=
  (om_Name ∘ pod_meta) <$>
    filter (λ p, is_overdue now max p = true) pods.

(** [FixTerminatingPods] deletes by name exactly the pods that have been
    terminating for longer than the given duration, in order and whatever fails, and
    reports an action exactly when there is one; a zero duration disables it and a
    dry run deletes nothing. *)
Theorem FixTerminatingPods_deletes_overdue fails now c cl max tr :
  let names := if decide (max = 0) then [] else overdue now max (heal_Pods c) in
  let calls := if DryRun c then []
               else (λ n, CallOther ("DeletePod " +:+ drc_Namespace cl +:+ "/" +:+ n)) <$> names in
  @FixTerminatingPods _ (list call) (recording_pods fails) now c cl max tr =
  Val ((negb (bool_decide (names = [])), NewAggregate (errors_of fails calls)), tr ++ calls).
Proof.
  cbv zeta. unfold FixTerminatingPods. destruct (decide (max = 0)) as [->|Hmax].
  { rewrite bool_decide_true by done. assert (∀ A (x : A), (if DryRun c then x else x) = x) as Hif
      by (intros; by destruct (DryRun c)). cbn [fmap list_fmap negb]. rewrite Hif, app_nil_r.
    unfold mret, M_ret. do 3 f_equal. symmetry. by apply NewAggregate_None. }
  generalize (heal_Pods c) as pods. intros pods.
  set (name_call n := CallOther ("DeletePod " +:+ drc_Namespace cl +:+ "/" +:+ n)).
  match goal with |- context [for_fold pods _ ?body] => set (f := body) end.
  assert (∀ acc p tr, f acc p tr =
    let calls := if is_overdue now max p && negb (DryRun c) then [name_call (om_Name (pod_meta p))] else [] in
    Val ((acc.1 || is_overdue now max p, acc.2 ++ errors_of fails calls), tr ++ calls)) as Hstep.
  { intros [b errs] p tr'. unfold f, is_overdue. cbv zeta. cbn [fst snd].
    destruct (om_DeletionTimestamp (pod_meta p)) as [t|]; [destruct (decide (t + max < now)) as [Hlt|Hlt]|].
    - rewrite bool_decide_true by done. rewrite orb_true_r. destruct (DryRun c); cbn [negb andb].
      + unfold mret, M_ret. by rewrite !app_nil_r.
      + erewrite bind_Val by done. cbn [fst snd]. by rewrite collect_errors.
    - rewrite bool_decide_false by done. unfold mret, M_ret. cbn [andb]. by rewrite orb_false_r, !app_nil_r.
    - unfold mret, M_ret. cbn [andb]. by rewrite orb_false_r, !app_nil_r. }
  assert (∀ acc tr, for_fold pods acc f tr =
    let calls := if DryRun c then [] else name_call <$> overdue now max pods in
    Val ((acc.1 || negb (bool_decide (overdue now max pods = [])), acc.2 ++ errors_of fails calls), tr ++ calls)) as Hloop.
  { clearbody f. unfold overdue. induction pods as [|p pods IH]; intros [b errs] tr'; cbn [for_fold].
    - cbv zeta. rewrite bool_decide_true by done. cbn [filter list_filter fmap list_fmap fst snd negb].
      destruct (DryRun c); by rewrite orb_false_r, !app_nil_r.
    - erewrite bind_Val by apply Hstep. rewrite IH. cbv zeta. cbn [fst snd]. rewrite filter_cons.
      destruct (is_overdue now max p); [rewrite decide_True by done|rewrite decide_False by done]; cbn [andb].
      + destruct (DryRun c); cbn [negb fmap list_fmap]; rewrite ?orb_true_r, ?app_nil_r; [done|].
        by rewrite <- !(assoc_L (++)), <- errors_of_app.
      + by rewrite orb_false_r, !app_nil_r. }
  erewrite bind_Val by apply Hloop. done.
Qed.
End terminating.

(** ** The check of the pods *)

Section checker.
Context `{KubeErrors} {W : Type} `{Client W} `{!ClientLaws W}.

(** The [i]-th StatefulSet of the cluster is stored, and all its pods are wanted,
    ready and current. *)
Definition statefulset_ready (w : W) (cl : DistributedRedisCluster) (i : Z) : Prop :=
  ∃ ss, stored w !! ("StatefulSet", (drc_Namespace cl, ClusterStatefulSetName (drc_Name cl) i)) = Some (OStatefulSet ss) ∧
    ss_Replicas (ss_spec ss) = Some (s32 (ClusterReplicas (Spec cl) + 1)) ∧
    ss_ReadyReplicas ss = s32 (ClusterReplicas (Spec cl) + 1) ∧
    ss_CurrentReplicas ss = s32 (ClusterReplicas (Spec cl) + 1).

Lemma checkRedisNodeNum_None n ss :
  checkRedisNodeNum n ss = Val None ↔
  ss_Replicas (ss_spec ss) = Some n ∧ ss_ReadyReplicas ss = n ∧ ss_CurrentReplicas ss = n.
Proof.
  unfold checkRedisNodeNum. destruct (ss_Replicas (ss_spec ss)) as [r|]; [|naive_solver].
  destruct (decide (n ≠ r)) as [?|H1%dec_stable]; [naive_solver|].
  destruct (decide (n ≠ ss_ReadyReplicas ss)) as [?|H2%dec_stable]; [naive_solver|].
  destruct (decide (n ≠ ss_CurrentReplicas ss)) as [?|H3%dec_stable]; naive_solver.
Qed.

(** [CheckRedisNodeNum] returns and changes nothing, provided the stored
    StatefulSets have a replica count.  It accepts the cluster only when for each of
    its masters the StatefulSet is stored with [ClusterReplicas + 1] wanted, ready
    and current pods; it rejects it only when one is not, or a read failed. *)
Theorem CheckRedisNodeNum_ready cl w :
  (∀ i ss, stored w !! ("StatefulSet", (drc_Namespace cl, ClusterStatefulSetName (drc_Name cl) i)) =
     Some (OStatefulSet ss) → ss_Replicas (ss_spec ss) ≠ None) →
  runs (CheckRedisNodeNum cl) w (λ r w',
    stored w' = stored w ∧
    match r with
    | None => ∀ i, 0 ≤ i < MasterSize (Spec cl) → statefulset_ready w cl i
    | Some err => (∃ i, 0 ≤ i < MasterSize (Spec cl) ∧ ¬ statefulset_ready w cl i) ∨ IsNotFound err = false
    end).
Proof.
  intros Hrep. unfold CheckRedisNodeNum.
  eapply (runs_for_err_inv _ _ _ (λ done s, stored s = stored w ∧ ∀ i, i ∈ done → statefulset_ready w cl i)).
  - split; [done|]. intros i Hi. by apply elem_of_nil in Hi.
  - intros done i rest s Hl [Hs Hdone].
    assert (0 ≤ i < MasterSize (Spec cl)) as Hi.
    { assert (i ∈ seqZ 0 (MasterSize (Spec cl))) as Hin by (rewrite Hl; apply elem_of_app; right; by left).
      apply elem_of_seqZ in Hin. lia. }
    apply runs_bind. eapply runs_mono; [apply Get_law|]. intros r1 s1 [Hs1 Hr1]. rewrite Hs in Hr1.
    change (kind_of AppsStatefulSet) with "StatefulSet" in Hr1.
    destruct r1 as [err|ss].
    + apply runs_ret. split; [congruence|]. destruct (IsNotFound err) eqn:En; [left|by right].
      exists i. split; [done|]. intros (ss & Hss & _). rewrite Hr1 in Hss by done. done.
    + destruct (checkRedisNodeNum (s32 (ClusterReplicas (Spec cl) + 1)) ss) as [e| |] eqn:Ec.
      * apply runs_pure. destruct e as [err|].
        -- split; [congruence|]. left. exists i. split; [done|]. intros (ss' & Hss & Hready).
           rewrite Hr1 in Hss. injection Hss as <-. apply checkRedisNodeNum_None in Hready. congruence.
        -- split; [congruence|]. intros j [Hj|Hj%list_elem_of_singleton]%elem_of_app; [by apply Hdone|subst j].
           apply checkRedisNodeNum_None in Ec. by exists ss.
      * exfalso. unfold checkRedisNodeNum in Ec. apply (Hrep i ss) in Hr1.
        by destruct (ss_Replicas (ss_spec ss)).
      * exfalso. unfold checkRedisNodeNum in Ec. by destruct (ss_Replicas (ss_spec ss)).
  - intros s [Hs Hall]. split; [done|]. intros i Hi. apply Hall. apply elem_of_seqZ. lia.
Qed.
End checker.

(** One StatefulSet of a cluster of one master and one slave, all ready. *)
Definition demo_sts : AppsStatefulSet :=
  mkStatefulSet (newObjectMeta "drc-cache-0" "ns" ∅ [])
    (mkStatefulSetSpec "svc" (Some 2) "RollingUpdate" ∅ ∅ ∅ zero_PodSpec []) 2 2.

Lemma CheckRedisNodeNum_ready_witness :
  @runs api_world (option error)
    (@CheckRedisNodeNum api_world (api_server (λ _ _, None)) (demo_drc (demo_spec <| MasterSize := 1 |>) ""))
    ({[ key_of demo_sts := OStatefulSet demo_sts ]}, [])
    (λ r w', w'.1 = {[ key_of demo_sts := OStatefulSet demo_sts ]}).
Proof.
  eapply runs_mono.
  - apply (@CheckRedisNodeNum_ready kube_errors_default api_world (api_server (λ _ _, None))
      (api_server_laws (λ _ _, None))).
    intros i ss Hss.
    change (({[ key_of demo_sts := OStatefulSet demo_sts ]} : store) !! ("StatefulSet", ("ns", ClusterStatefulSetName "cache" i)) =
      Some (OStatefulSet ss)) in Hss.
    apply lookup_singleton_Some in Hss as [_ [= <-]]. done.
  - intros r w' [Hw _]. exact Hw.
Defined.
