(* ===== verification/Resources.v ===== *)
(** [pkg/resources]: the Kubernetes objects generated from a
    [DistributedRedisCluster] (configuration maps, StatefulSets, services, pod
    disruption budgets), and the reading of passwords.

    The mapping of renamed commands comes from a file; its content is the argument
    [rename_file]. *)

From Stdlib Require Import ZArith Lia.
From S2P Require Import Prelude GoStrings Errors Kube Utils Api Client Clustering.

Local Open Scope Z_scope.

Definition newline : string := String (ascii_of_nat 10) "".
Definition tab : string := String (ascii_of_nat 9) "".

(** [store.Backend] of the object store API: where the backups are. *)
Class ObjectStore := {
  Backend_Location : Backend → error + string;
  Backend_Provider : Backend → error + string;
  Backend_Container : Backend → error + string;
}.
Definition object_store_default : ObjectStore :=
  {| Backend_Location b := inr "s3:bucket"; Backend_Provider b := inr "s3"; Backend_Container b := inr "bucket" |}.

(** ** configmaps/configmap.go *)

Definition RestoreSucceeded : string := "succeeded".
Definition RedisConfKey : string := "redis.conf".

Definition RedisConfigMapName (clusterName : string) : string := "redis-cluster-" +:+ clusterName.
Definition RestoreConfigMapName (clusterName : string) : string := "rediscluster-restore-" +:+ clusterName.

(** The two scripts of the configuration map, line by line. *)
Definition shutdownContent : string := Join
  [ "#!/bin/sh";
    "CLUSTER_CONFIG=" +:+ quote "/data/nodes.conf";
    "failover() {";
    tab +:+ "echo " +:+ quote "Do CLUSTER FAILOVER";
    tab +:+ "masterID=$(cat ${CLUSTER_CONFIG} | grep " +:+ quote "myself" +:+ " | awk '{print $1}')";
    tab +:+ "echo " +:+ quote "Master: ${masterID}";
    tab +:+ "slave=$(cat ${CLUSTER_CONFIG} | grep ${masterID} | grep " +:+ quote "slave" +:+
      " | awk 'NR==1{print $2}' | sed 's/:6379@16379//')";
    tab +:+ "echo " +:+ quote "Slave: ${slave}";
    tab +:+ "password=$(cat /data/redis_password)";
    tab +:+ "if [[ -z " +:+ quote "${password}" +:+ " ]]; then";
    tab +:+ tab +:+ "redis-cli -h ${slave} CLUSTER FAILOVER";
    tab +:+ "else";
    tab +:+ tab +:+ "redis-cli -h ${slave} -a " +:+ quote "${password}" +:+ " CLUSTER FAILOVER";
    tab +:+ "fi";
    tab +:+ "echo " +:+ quote "Wait for MASTER <-> SLAVE syncFinished";
    tab +:+ "sleep 20";
    "}";
    "if [ -f ${CLUSTER_CONFIG} ]; then";
    tab +:+ "cat ${CLUSTER_CONFIG} | grep " +:+ quote "myself" +:+ " | grep " +:+ quote "master" +:+ " && \";
    tab +:+ "failover";
    "fi" ] newline.
Definition fixIPContent : string := Join
  [ "#!/bin/sh";
    "CLUSTER_CONFIG=" +:+ quote "/data/nodes.conf";
    "if [ -f ${CLUSTER_CONFIG} ]; then";
    "    if [ -z " +:+ quote "${POD_IP}" +:+ " ]; then";
    "    echo " +:+ quote "Unable to determine Pod IP address!";
    "    exit 1";
    "    fi";
    "    echo " +:+ quote "Updating my IP to ${POD_IP} in ${CLUSTER_CONFIG}";
    "    sed -i.bak -e " +:+ quote "/myself/ s/ .*:6379@16379/ ${POD_IP}:6379@16379/" +:+ " ${CLUSTER_CONFIG}";
    "fi";
    "exec " +:+ quote "$@" ] newline.

Section resources.
Context `{MapRange} `{SortPkg} `{K8sApi}.
Implicit Types (cl : DistributedRedisCluster) (labels : label_map).

(** [generateRedisConfContent] *)
Definition conf_line (configMap : gmap string string) (k : string) : string :=
  let v := default "" (configMap !! k) in
  if decide (v = "") then "" else k +:+ " " +:+ v +:+ newline.
Definition generateRedisConfContent (configMap : option (gmap string string)) : string :=
  match configMap with
  | None => ""
  | Some configMap =>
      let keys := sort_by string_less (range 60 configMap).*1 in
      foldl (λ buffer k, buffer +:+ conf_line configMap k) "" keys
  end.

(** [NewConfigMapForCR], [NewConfigMapForRestore] *)
Definition NewConfigMapForCR cl labels : ConfigMap :=
  mkConfigMap
    (newObjectMeta (RedisConfigMapName (drc_Name cl)) (drc_Namespace cl) labels (DefaultOwnerReferences cl))
    {[ "shutdown.sh" := shutdownContent; "fix-ip.sh" := fixIPContent;
       RedisConfKey := generateRedisConfContent (Config (Spec cl)) ]}.
Definition NewConfigMapForRestore cl labels : ConfigMap :=
  mkConfigMap
    (newObjectMeta (RestoreConfigMapName (drc_Name cl)) (drc_Namespace cl) labels (DefaultOwnerReferences cl))
    {[ RestoreSucceeded := FormatInt 0 ]}.

(** ** services/service.go *)

Definition NewHeadLessSvcForCR cl (name : string) labels : Service :=
  mkService (newObjectMeta name (drc_Namespace cl) labels (DefaultOwnerReferences cl))
    [("client", 6379); ("gossip", 16379)] labels "None".
(** A monitor without [Prometheus] is dereferenced. *)
Definition NewSvcForCR cl (name : string) labels : go Service :=
  let svc ports := mkService (newObjectMeta name (drc_Namespace cl) labels (DefaultOwnerReferences cl)) ports labels "" in
  match Monitor (Spec cl) with
  | None => Val (svc [("client", 6379); ("gossip", 16379)])
  | Some mon =>
      match ag_Prometheus mon with
      | None => Panics
      | Some prom => Val (svc [("client", 6379); ("gossip", 16379); ("prom-http", prom_Port prom)])
      end
  end.

(** ** poddisruptionbudgets/poddisruptionbudget.go *)

Definition NewPodDisruptionBudgetForCR cl (name : string) labels : PodDisruptionBudget :=
  mkPDB (newObjectMeta name (drc_Namespace cl) labels (DefaultOwnerReferences cl)) 1 labels.

(** ** statefulsets/statefulset.go *)

Definition redisStorageVolumeName : string := "redis-data".
Definition redisRestoreLocalVolumeName : string := "redis-local".
Definition redisServerName : string := "redis".
Definition hostnameTopologyKey : string := "kubernetes.io/hostname".
Definition ExporterContainerName : string := "exporter".
Definition graceTime : Z := 30.
Definition configMapVolumeName : string := "conf".
(** osm.go *)
Definition SecretMountPath : string := "/etc/rclone".

(** [redisPassword]: the REDIS_PASSWORD environment variable. *)
Definition redisPassword cl : option EnvVar :=
  match PasswordSecret (Spec cl) with
  | None => None
  | Some secretName => Some (mkEnvVar PasswordENV "" (Some (mkEnvVarSource None (Some (secretName, "password")) None)))
  end.

(** [emptyVolume], [redisDataVolume], [redisVolumes] *)
Definition emptyVolume : Volume := mkVolume redisStorageVolumeName VolEmptyDir.
Definition redisDataVolume cl : option Volume :=
  match Storage (Spec cl) with
  | None => Some emptyVolume
  | Some st =>
      if decide (st_Type st = Ephemeral) then Some emptyVolume
      else if decide (st_Type st = PersistentClaim) then None
      else Some emptyVolume
  end.
Definition redisVolumes cl : list Volume :=
  let volumes := [mkVolume configMapVolumeName (VolConfigMap (RedisConfigMapName (drc_Name cl)) 493)] in
  let volumes := match redisDataVolume cl with Some v => volumes ++ [v] | None => volumes end in
  match Backup (Restore cl) with
  | None => volumes
  | Some backup =>
      if negb (IsRestoreFromBackup cl) || negb (IsRestoreRunning cl) then volumes
      else
        let volumes := volumes ++ [mkVolume "rcloneconfig" (VolSecret (RCloneSecretName backup))] in
        match be_Local (b_Backend (b_Spec backup)) with
        | Some l =>
            if IsRefLocalPVC backup then volumes ++ [mkVolume redisRestoreLocalVolumeName (local_VolumeSource l)]
            else volumes
        | None => volumes
        end
  end.

(** [volumeMounts], [customContainerEnv] *)
Definition volumeMounts : list VolumeMount :=
  [mkVolumeMount redisStorageVolumeName "/data" "" false; mkVolumeMount configMapVolumeName "/conf" "" false].
Definition customContainerEnv (env customEnv : list EnvVar) : list EnvVar := env ++ customEnv.

(** [getAffinity] *)
Definition getAffinity cl labels : option Affinity :=
  match spec_Affinity (Spec cl) with
  | Some affinity => Some (AffinityCopied affinity)
  | None =>
      let preferred := [(100, hostnameTopologyKey, {[ LabelClusterName := drc_Name cl ]} : label_map)] in
      if RequiredAntiAffinity (Spec cl) then Some (PodAntiAffinity preferred [(hostnameTopologyKey, labels)])
      else Some (PodAntiAffinity preferred [])
  end.

(** [persistentClaim], for the storage of the specification *)
Definition persistentClaim (st : RedisStorage) labels : PersistentVolumeClaim :=
  mkPVC (newObjectMeta redisStorageVolumeName "" labels []) ["ReadWriteOnce"]
    {[ "storage" := st_Size st ]} (Some (st_Class st)) (Some "Filesystem").

(** [mergeRenameCmds] *)
Definition keep_user_cmd (systemRenameCmdMap : gmap string string) (cmd : string) : bool :=
  match Fields cmd with
  | [flag; name; _] =>
      if decide (ToLower flag = "--rename-command") then
        match systemRenameCmdMap !! name with Some _ => false | None => true end
      else true
  | _ => true
  end.
Definition mergeRenameCmds (userCmds : list string) (systemRenameCmdMap : gmap string string) : list string :=
  let cmds := foldl (λ cmds cmd, if keep_user_cmd systemRenameCmdMap cmd then cmds ++ [cmd] else cmds) [] userCmds in
  let renameCmdSlice :=
    (λ kv, "--rename-command " +:+ (kv : string * string).1 +:+ " " +:+ kv.2) <$> range 61 systemRenameCmdMap in
  cmds ++ sort_by string_less renameCmdSlice.

(** [getRedisCommand] *)
Definition getRedisCommand (rename_file : option string) cl (password : option EnvVar) : list string :=
  let cmd := ["/conf/fix-ip.sh"; "redis-server"; "/conf/redis.conf"; "--cluster-enabled yes";
              "--cluster-config-file /data/nodes.conf"] in
  let cmd := match password with
    | Some _ => cmd ++ ["--requirepass '$(" +:+ PasswordENV +:+ ")'"; "--masterauth '$(" +:+ PasswordENV +:+ ")'"]
    | None => cmd
    end in
  cmd ++ mergeRenameCmds (Command (Spec cl)) (BuildCommandReplaceMapping rename_file).

(** [redisServerContainer]; nil [Resources] are dereferenced. *)
Definition redisServerContainer (rename_file : option string) cl (password : option EnvVar) : go Container :=
  let probe := ExecProbe graceTime 5 ["sh"; "-c"; "redis-cli -h $(hostname) ping"] in
  match Resources (Spec cl) with
  | None => Panics
  | Some resources =>
      let env := [mkEnvVar "POD_IP" "" (Some (mkEnvVarSource (Some "status.podIP") None None))] in
      let env := match password with Some p => env ++ [p] | None => env end in
      Val {| c_Name := redisServerName;
             c_Image := Image (Spec cl);
             c_ImagePullPolicy := ImagePullPolicy (Spec cl);
             c_Command := getRedisCommand rename_file cl password;
             c_Args := [];
             c_Ports := [mkContainerPort "client" 6379 "TCP"; mkContainerPort "gossip" 16379 "TCP"];
             c_Env := customContainerEnv env (Env (Spec cl));
             c_Resources := resources;
             c_VolumeMounts := volumeMounts;
             c_LivenessProbe := Some probe;
             c_ReadinessProbe := Some probe;
             c_Lifecycle := Some (ExecLifecycle
               ["/bin/sh"; "-c"; "echo ${REDIS_PASSWORD} > /data/redis_password"]
               ["/bin/sh"; "/conf/shutdown.sh"]);
             c_SecurityContext := ContainerSecurityContext (Spec cl) |}
  end.

(** [redisExporterContainer], for the monitor of the specification *)
Definition redisExporterContainer cl (mon : AgentSpec) (password : option EnvVar) : go Container :=
  match ag_Prometheus mon with
  | None => Panics
  | Some prom =>
      let env := match password with Some p => ag_Env mon ++ [p] | None => ag_Env mon end in
      Val {| c_Name := ExporterContainerName;
             c_Image := ag_Image mon;
             c_ImagePullPolicy := "Always";
             c_Command := [];
             c_Args := ["--web.listen-address=:" +:+ FormatInt (prom_Port prom);
                        "--web.telemetry-path=" +:+ PrometheusExporterTelemetryPath] ++ ag_Args mon;
             c_Ports := [mkContainerPort "prom-http" (prom_Port prom) "TCP"];
             c_Env := customContainerEnv env (Env (Spec cl));
             c_Resources := ag_Resources mon;
             c_VolumeMounts := [];
             c_LivenessProbe := None;
             c_ReadinessProbe := None;
             c_Lifecycle := None;
             c_SecurityContext := ag_SecurityContext mon |}
  end.

Context `{ObjectStore}.

(** [redisInitContainer], for the backup that is restored *)
Definition redisInitContainer cl (backup : RedisClusterBackup) (password : option EnvVar) : go (error + Container) :=
  match Backend_Location (b_Backend (b_Spec backup)) with
  | inl err => Val (inl err)
  | inr location =>
      let! r := RemotePath backup in
      match r with
      | (_, Some err) => Val (inl err)
      | (folderName, None) =>
          let mounts := [mkVolumeMount redisStorageVolumeName BackupDumpDir "" false;
                         mkVolumeMount "rcloneconfig" SecretMountPath "" true] in
          let mounts :=
            match be_Local (b_Backend (b_Spec backup)) with
            | Some l =>
                if IsRefLocalPVC backup then
                  mounts ++ [mkVolumeMount redisRestoreLocalVolumeName (local_MountPath l) (local_SubPath l) true]
                else mounts
            | None => mounts
            end in
          let env :=
            [mkEnvVar "POD_NAME" "" (Some (mkEnvVarSource (Some "metadata.name") None None));
             mkEnvVar "REDIS_RESTORE_SUCCEEDED" "" (Some (mkEnvVarSource None None
               (Some (RestoreConfigMapName (drc_Name cl), RestoreSucceeded))))] in
          let env := match password with Some p => env ++ [p] | None => env end in
          let container :=
            zero_Container <| c_Name := JobTypeRestore |> <| c_Image := b_Image (b_Spec backup) |>
              <| c_ImagePullPolicy := "Always" |>
              <| c_Args := [JobTypeRestore; "--data-dir=" +:+ BackupDumpDir; "--location=" +:+ location;
                            "--folder=" +:+ folderName; "--snapshot=" +:+ om_Name (b_meta backup); "--"] |>
              <| c_VolumeMounts := mounts |> in
          let container :=
            match b_PodSpec (b_Spec backup) with
            | Some ps => container <| c_Resources := bp_Resources ps |>
                <| c_LivenessProbe := ProbeCopied <$> bp_LivenessProbe ps |>
                <| c_ReadinessProbe := ProbeCopied <$> bp_ReadinessProbe ps |>
                <| c_Lifecycle := LifecycleCopied <$> bp_Lifecycle ps |>
            | None => container
            end in
          Val (inr (container <| c_Env := customContainerEnv env (Env (Spec cl)) |>))
      end
  end.

(** [NewStatefulSetForCR] *)
Definition NewStatefulSetForCR (rename_file : option string) cl (ssName svcName : string) labels
    : go (error + AppsStatefulSet) :=
  let password := redisPassword cl in
  let spec := Spec cl in
  let! server := redisServerContainer rename_file cl password in
  let! containers := match Monitor spec with
    | Some mon => let! exporter := redisExporterContainer cl mon password in Val [server; exporter]
    | None => Val [server]
    end in
  let claims := match Storage spec with
    | Some st =>
        if decide (st_Type st = PersistentClaim) then
          let claim := persistentClaim st labels in
          [if st_DeleteClaim st
           then claim <| pvc_meta := (pvc_meta claim) <| om_OwnerReferences := DefaultOwnerReferences cl |> |>
           else claim]
        else []
    | None => []
    end in
  let ss inits :=
    mkStatefulSet
      (newObjectMeta ssName (drc_Namespace cl) labels (DefaultOwnerReferences cl))
      {| ss_ServiceName := svcName;
         ss_Replicas := Some (s32 (ClusterReplicas spec + 1));
         ss_UpdateStrategy := "RollingUpdate";
         ss_MatchLabels := labels;
         ss_TemplateLabels := labels;
         ss_TemplateAnnotations := default ∅ (Annotations spec);
         ss_PodSpec := zero_PodSpec <| ps_ImagePullSecrets := ImagePullSecrets spec |>
           <| ps_Affinity := getAffinity cl labels |> <| ps_Tolerations := ToleRations spec |>
           <| ps_SecurityContext := SecurityContext spec |> <| ps_NodeSelector := NodeSelector spec |>
           <| ps_Containers := containers |> <| ps_InitContainers := inits |>
           <| ps_Volumes := redisVolumes cl |>;
         ss_VolumeClaimTemplates := claims |} 0 0 in
  match Backup (Restore cl) with
  | Some backup =>
      if IsRestoreFromBackup cl && IsRestoreRunning cl then
        let! init := redisInitContainer cl backup password in
        match init with
        | inl err => Val (inl err)
        | inr init => Val (inr (ss [init]))
        end
      else Val (inr (ss []))
  | None => Val (inr (ss []))
  end.

(** ** statefulsets/helper.go *)

Definition passwordKey : string := "password".

(** [getSecretKeyRefByKey] *)
Fixpoint getSecretKeyRefByKey (key : string) (envSet : list EnvVar) : string :=
  match envSet with
  | [] => ""
  | value :: envSet' =>
      if decide (key = env_Name value) then
        match env_ValueFrom value ≫= SecretKeyRef with
        | Some ref => ref.1
        | None => getSecretKeyRefByKey key envSet'
        end
      else getSecretKeyRefByKey key envSet'
  end.

(** [sts.Spec.Template.Spec.Containers[0]] *)
Definition container0 (sts : AppsStatefulSet) : go Container :=
  match ps_Containers (ss_PodSpec (ss_spec sts)) with
  | c :: _ => Val c
  | [] => Panics
  end.

(** [IsPasswordChanged] *)
Definition IsPasswordChanged cl (sts : AppsStatefulSet) : go bool :=
  match PasswordSecret (Spec cl) with
  | Some name =>
      let! c := container0 sts in
      let secretName := getSecretKeyRefByKey PasswordENV (c_Env c) in
      Val (if decide (secretName = "") then true else negb (bool_decide (secretName = name)))
  | None => Val false
  end.

Context {W : Type} `{Client W}.

(** [string(secret.Data["password"])] of a secret read by name *)
Definition secret_password (namespace name : string) : M W (error + string) :=
  r ← client_Get (T := Secret) namespace name;
  mret match r with
       | inl err => inl err
       | inr secret => inr (default "" (secret_Data secret !! passwordKey))
       end.
(** [GetOldRedisClusterPassword] *)
Definition GetOldRedisClusterPassword (sts : AppsStatefulSet) : M W (error + string) :=
  c ← pure (container0 sts);
  let secretName := getSecretKeyRefByKey PasswordENV (c_Env c) in
  if decide (secretName = "") then mret (inr "")
  else secret_password (om_Namespace (ss_meta sts)) secretName.
(** [GetClusterPassword] *)
Definition GetClusterPassword cl : M W (error + string) :=
  match PasswordSecret (Spec cl) with
  | None => mret (inr "")
  | Some name => secret_password (drc_Namespace cl) name
  end.
End resources.
