(* ===== verification/Ensurer.v ===== *)
(** [pkg/controller/manager/ensurer.go] and [pkg/osm/rclone.go]: the operator
    creates the objects a cluster needs when they are missing, and updates them when
    they no longer match the specification.

    The map [labels] is shared by the calls, which write the name of the current
    StatefulSet into it: it is an argument and a result. *)

From Stdlib Require Import ZArith Lia.
From S2P Require Import Prelude GoStrings Errors Kube Utils Api Client Clustering Resources.

Local Open Scope Z_scope.

Section ensurer.
Context `{MapRange} `{SortPkg} `{K8sApi} `{ObjectStore} `{KubeErrors} {W : Type} `{Client W}.
Variable rename_file : option string.
Implicit Types (cl : DistributedRedisCluster) (labels : label_map).

(** ** osm/rclone.go *)

(** [cephContext], [localContext] *)
Definition cephContext (config : gmap string string) (provider : string) (s3 : S3Spec) : string :=
  Join [ "[" +:+ provider +:+ "]"; "type = s3"; "provider = Ceph"; "env_auth = false";
         "access_key_id = " +:+ default "" (config !! "AWS_ACCESS_KEY_ID");
         "secret_access_key = " +:+ default "" (config !! "AWS_SECRET_ACCESS_KEY");
         "region ="; "endpoint = " +:+ s3_Endpoint s3; "location_constraint ="; "acl =";
         "server_side_encryption ="; "storage_class ="; "" ] newline.
Definition localContext (provider : string) : string :=
  Join [ "[" +:+ provider +:+ "]"; "type = local"; "" ] newline.

(** [newContext] *)
Definition newContext (spec : Backend) (namespace : string) : M W (error + string) :=
  r ← (if decide (StorageSecretName spec = "") then mret (inr ∅)
       else
         r ← client_Get (T := Secret) namespace (StorageSecretName spec);
         mret match r with inl err => inl err | inr secret => inr (secret_Data secret) end);
  mret match r with
       | inl err => inl err
       | inr config =>
           match Backend_Provider spec with
           | inl err => inl err
           | inr provider =>
               match be_S3 spec with
               | Some s3 => inr (cephContext config provider s3)
               | None =>
                   match be_Local spec with
                   | Some _ => inr (localContext provider)
                   | None => inl (ErrText "no storage provider is configured")
                   end
               end
           end
       end.

(** [NewRcloneSecret] *)
Definition NewRcloneSecret (name namespace : string) (spec : Backend) (owners : list OwnerReference)
    : M W (error + Secret) :=
  r ← newContext spec namespace;
  mret match r with
       | inl err => inl err
       | inr rcloneCtx => inr (mkSecret (newObjectMeta name namespace ∅ owners) {[ "config" := rcloneCtx ]})
       end.

(** ** Objects that are only created *)

(** [_, err := get(); if IsNotFound(err) { return create(obj) }; return err] *)
Definition create_if_missing {A} (get : M W (error + A)) (create : M W (option error)) : M W (option error) :=
  r ← get;
  match r with
  | inr _ => mret None
  | inl err => if IsNotFound err then create else mret (Some err)
  end.

(** [ensureRedisPDB] *)
Definition ensureRedisPDB cl (name : string) labels : M W (option error) :=
  create_if_missing (GetPodDisruptionBudget (drc_Namespace cl) name)
    (CreatePodDisruptionBudget (NewPodDisruptionBudgetForCR cl name labels)).

(** [ensureRedisHeadLessSvc] *)
Definition ensureRedisHeadLessSvc cl (name : string) labels : M W (option error) :=
  create_if_missing (GetService (drc_Namespace cl) name)
    (CreateService (NewHeadLessSvcForCR cl name labels)).

(** [EnsureRedisSvc] *)
Definition EnsureRedisSvc cl labels : M W (option error * label_map) :=
  let name := ServiceName (Spec cl) in
  let labels := delete StatefulSetLabel labels in
  err ← create_if_missing (GetService (drc_Namespace cl) name)
    (svc ← pure (NewSvcForCR cl name labels); CreateService svc);
  mret (err, labels).

(** The loops over the StatefulSets of the cluster, which write the name of each
    into the labels and stop at the first error. *)
Fixpoint for_statefulsets cl (f : string → string → label_map → M W (bool * option error))
    (idxs : list Z) (updated : bool) labels : M W (bool * option error * label_map) :=
  match idxs with
  | [] => mret (updated, None, labels)
  | i :: idxs' =>
      let name := ClusterStatefulSetName (drc_Name cl) i in
      let svcName := ClusterHeadlessSvcName (ServiceName (Spec cl)) i in
      let labels := <[StatefulSetLabel := name]> labels in
      r ← f name svcName labels;
      match r with
      | (_, Some err) => mret (false, Some err, labels)
      | (stsUpdated, None) => for_statefulsets cl f idxs' (stsUpdated || updated) labels
      end
  end.

(** [EnsureRedisHeadLessSvcs] *)
Definition EnsureRedisHeadLessSvcs cl labels : M W (option error * label_map) :=
  r ← for_statefulsets cl (λ name svcName labels,
        err ← ensureRedisHeadLessSvc cl svcName labels; mret (false, err))
      (seqZ 0 (MasterSize (Spec cl))) false labels;
  mret (r.1.2, r.2).

(** ** StatefulSets *)

(** [monitorChanged] *)
Definition monitorChanged cl (sts : AppsStatefulSet) : bool :=
  let has_exporter :=
    existsb (λ container, bool_decide (c_Name container = ExporterContainerName))
      (ps_Containers (ss_PodSpec (ss_spec sts))) in
  match Monitor (Spec cl) with
  | Some _ => negb has_exporter
  | None => has_exporter
  end.

(** The comparison of resources in [shouldUpdateRedis]. *)
Definition resources_changed (expect current : ResourceRequirements) : bool :=
  if decide (Quantity_Cmp (Memory (Requests expect)) (Memory (Requests current)) ≠ 0) then true
  else if decide (Quantity_Cmp (Cpu (Requests expect)) (Cpu (Requests current)) ≠ 0) then true
  else if decide (Quantity_Cmp (Memory (Limits expect)) (Memory (Limits current)) ≠ 0) then true
  else if decide (Quantity_Cmp (Cpu (Limits expect)) (Cpu (Limits current)) ≠ 0) then true
  else false.

(** [shouldUpdateRedis]; a nil [Replicas], no container or nil [Resources] are
    dereferenced. *)
Definition shouldUpdateRedis cl (sts : AppsStatefulSet) : go bool :=
  match ss_Replicas (ss_spec sts) with
  | None => Panics
  | Some replicas =>
      if decide (s32 (ClusterReplicas (Spec cl) + 1) ≠ replicas) then Val true
      else
        let! c := container0 sts in
        if decide (Image (Spec cl) ≠ c_Image c) then Val true
        else
          let! changed := IsPasswordChanged cl sts in
          if changed : bool then Val true
          else
            match Resources (Spec cl) with
            | None => Panics
            | Some expectResource =>
                if resources_changed expectResource (c_Resources c) then Val true
                else Val (monitorChanged cl sts)
            end
  end.

(** [ensureRedisStatefulset] *)
Definition ensureRedisStatefulset cl (ssName svcName : string) labels : M W (bool * option error) :=
  err ← ensureRedisPDB cl ssName labels;
  match err with
  | Some err => mret (false, Some err)
  | None =>
      r ← GetStatefulSet (drc_Namespace cl) ssName;
      match r with
      | inr ss =>
          update ← pure (shouldUpdateRedis cl ss);
          if update : bool then
            newSS ← pure (NewStatefulSetForCR rename_file cl ssName svcName labels);
            match newSS with
            | inl err => mret (false, Some err)
            | inr newSS => err ← UpdateStatefulSet newSS; mret (true, err)
            end
          else mret (false, None)
      | inl err =>
          if IsNotFound err then
            newSS ← pure (NewStatefulSetForCR rename_file cl ssName svcName labels);
            match newSS with
            | inl err => mret (false, Some err)
            | inr newSS => err ← CreateStatefulSet newSS; mret (false, err)
            end
          else mret (false, Some err)
      end
  end.

(** [EnsureRedisStatefulsets] *)
Definition EnsureRedisStatefulsets cl labels : M W (bool * option error * label_map) :=
  for_statefulsets cl (ensureRedisStatefulset cl) (seqZ 0 (MasterSize (Spec cl))) false labels.

(** [updateRedisStatefulset], [UpdateRedisStatefulsets] *)
Definition updateRedisStatefulset cl (ssName svcName : string) labels : M W (option error) :=
  newSS ← pure (NewStatefulSetForCR rename_file cl ssName svcName labels);
  match newSS with
  | inl err => mret (Some err)
  | inr newSS => UpdateStatefulSet newSS
  end.
Definition UpdateRedisStatefulsets cl labels : M W (option error * label_map) :=
  r ← for_statefulsets cl (λ name svcName labels,
        err ← updateRedisStatefulset cl name svcName labels; mret (false, err))
      (seqZ 0 (MasterSize (Spec cl))) false labels;
  mret (r.1.2, r.2).

(** ** Configuration maps *)

(** The loop of [isRedisConfChanged] over the lines of the stored configuration. *)
Fixpoint isRedisConfChanged_loop (currentConf : gmap string string) (lines : list string) : bool :=
  match lines with
  | [] => false
  | line :: lines' =>
      match SplitN2 (TrimSuffix line " ") " " with
      | [k; v] =>
          match currentConf !! k with
          | None => true
          | Some valueInCurrentConf =>
              if decide (valueInCurrentConf ≠ v) then true else isRedisConfChanged_loop currentConf lines'
          end
      | _ => isRedisConfChanged_loop currentConf lines'
      end
  end.
(** [isRedisConfChanged] *)
Definition isRedisConfChanged (confInCm : string) (currentConf : option (gmap string string)) : bool :=
  let currentConf := default ∅ currentConf in
  let lines := Split (TrimSuffix confInCm newline) (ascii_of_nat 10) in
  if decide (length lines ≠ size currentConf) then true
  else isRedisConfChanged_loop currentConf lines.

(** The configuration map of the restore, in [EnsureRedisConfigMap]. *)
Definition ensure_restore_configmap cl labels : M W (option error) :=
  if IsRestoreFromBackup cl then
    r ← GetConfigMap (drc_Namespace cl) (RestoreConfigMapName (drc_Name cl));
    match r with
    | inl err =>
        if IsNotFound err then CreateConfigMap (NewConfigMapForRestore cl labels) else mret (Some err)
    | inr restoreCm =>
        if bool_decide (Phase (Restore cl) = RestorePhaseRestart) &&
           bool_decide (default "" (cm_Data restoreCm !! RestoreSucceeded) = "0")
        then UpdateConfigMap (NewConfigMapForRestore cl labels)
        else mret None
    end
  else mret None.

(** [EnsureRedisConfigMap] *)
Definition EnsureRedisConfigMap cl labels : M W (option error) :=
  r ← GetConfigMap (drc_Namespace cl) (RedisConfigMapName (drc_Name cl));
  err ← match r with
    | inl err =>
        if IsNotFound err then CreateConfigMap (NewConfigMapForCR cl labels) else mret (Some err)
    | inr drcCm =>
        if isRedisConfChanged (default "" (cm_Data drcCm !! RedisConfKey)) (Config (Spec cl))
        then UpdateConfigMap (NewConfigMapForCR cl labels)
        else mret None
    end;
  match err with
  | Some err => mret (Some err)
  | None => ensure_restore_configmap cl labels
  end.

(** [EnsureRedisRCloneSecret]; a nil [Backup] is dereferenced. *)
Definition EnsureRedisRCloneSecret cl : M W (option error) :=
  if negb (IsRestoreFromBackup cl) || IsRestored cl then mret None
  else
    match Backup (Restore cl) with
    | None => panic
    | Some backup =>
        r ← NewRcloneSecret (RCloneSecretName backup) (drc_Namespace cl) (b_Backend (b_Spec backup))
              (DefaultOwnerReferences cl);
        match r with
        | inl err => mret (Some err)
        | inr secret => CreateSecret secret
        end
    end.
End ensurer.
