(* ===== verification/EnsurerProofs.v ===== *)
(** What the ensurer maintains: the stored Redis configuration is recognised as
    current exactly when it is, a generated StatefulSet needs no update, and one
    round of [EnsureRedisStatefulsets] makes a second one do nothing. *)

From Stdlib Require Import ZArith Lia.
From S2P Require Import Prelude GoStrings Errors Kube Utils Api Client Clustering Resources Ensurer.

Local Open Scope Z_scope.

(** ** The Redis configuration *)

(** Keys and values that survive the text form: no line break, no space in a key,
    no space at the end of a value. *)
Definition conf_entry_ok (k v : string) : Prop :=
  has_byte " " k = false ∧ has_byte (ascii_of_nat 10) k = false ∧
  has_byte (ascii_of_nat 10) v = false ∧ HasSuffix v " " = false.
#[local] Instance conf_entry_ok_dec k v : Decision (conf_entry_ok k v).
Proof. unfold conf_entry_ok. apply _. Defined.
Definition conf_ok (m : gmap string string) : Prop := map_Forall conf_entry_ok m.

Lemma SplitN2_app k v : has_byte " " k = false → SplitN2 (k +:+ " " +:+ v) " " = [k; v].
Proof.
  induction k as [|c k IH]; intros Hk; simpl.
  - done.
  - simpl in Hk. destruct (decide (c = " "%char)); [done|]. simpl in IH. by rewrite IH.
Qed.

Lemma TrimSuffix_id s p : HasSuffix s p = false → TrimSuffix s p = s.
Proof. unfold TrimSuffix. by intros ->. Qed.

Lemma HasSuffix_app_ne s v p :
  String.length p = 1%nat → v ≠ "" → HasSuffix v p = false → HasSuffix (s +:+ v) p = false.
Proof.
  intros Hp Hv Hf. apply HasSuffix_false. intros t Heq.
  destruct p as [|c [|? ?]]; [done| |done].
  assert (∃ v' c', v = v' +:+ String c' "") as (v' & c' & ->).
  { clear -Hv. induction v as [|a v IH]; [done|]. destruct v as [|b v]; [by exists "", a|].
    destruct IH as (v' & c' & Heq); [done|]. exists (String a v'), c'. simpl. by rewrite Heq. }
  rewrite <- string_app_assoc in Heq. apply string_app_inj_last in Heq as [_ ->].
  by rewrite HasSuffix_app in Hf.
Qed.

Section conf.
Context `{MapRange} `{SortPkg}.
Implicit Types (m : gmap string string).

(** The keys that appear in the text, in order, and the lines. *)
Definition conf_keys m : list string :=
  filter (λ k, default "" (m !! k) ≠ "") (sort_by string_less (range 60 m).*1).
Definition conf_text_line m (k : string) : string := k +:+ " " +:+ default "" (m !! k).

Lemma generateRedisConfContent_lines m :
  conf_keys m ≠ [] →
  generateRedisConfContent (Some m) = Join (conf_text_line m <$> conf_keys m) newline +:+ newline.
Proof.
  unfold conf_keys, generateRedisConfContent. generalize (sort_by string_less (range 60 m).*1) as ks.
  assert (∀ ks b, foldl (λ buffer k, buffer +:+ conf_line m k) b ks =
    b +:+ foldr (λ l r, l +:+ newline +:+ r) "" (conf_text_line m <$> filter (λ k, default "" (m !! k) ≠ "") ks)) as Hfold.
  { induction ks as [|k ks IH]; intros b; [by rewrite string_app_nil_r|]. cbn [foldl]. rewrite IH, filter_cons.
    unfold conf_line. destruct (decide (default "" (m !! k) = "")) as [He|He].
    - rewrite decide_False by auto. by rewrite string_app_nil_r.
    - rewrite decide_True by done. cbn [fmap list_fmap foldr]. unfold conf_text_line at 2.
      by rewrite !string_app_assoc. }
  intros ks Hne. rewrite Hfold. change ("" +:+ ?x) with x.
  destruct (conf_text_line m <$> filter _ ks) as [|l ls] eqn:E; [by apply fmap_nil_inv in E|].
  clear. revert l. induction ls as [|l' ls IH]; intros l.
  - simpl. by rewrite string_app_nil_r.
  - change (Join (l :: l' :: ls) newline) with (l +:+ newline +:+ Join (l' :: ls) newline).
    rewrite !string_app_assoc. rewrite <- IH. done.
Qed.

Lemma conf_keys_spec m k : k ∈ conf_keys m ↔ ∃ v, m !! k = Some v ∧ v ≠ "".
Proof.
  unfold conf_keys. rewrite list_elem_of_filter, sort_by_Permutation, list_elem_of_fmap. split.
  - intros [Hv ([k' v] & -> & Hin%elem_of_range)]. simpl in *. rewrite Hin in Hv. eauto.
  - intros (v & Hm & Hv). rewrite Hm. split; [done|]. exists (k, v). split; [done|]. by apply elem_of_range.
Qed.

Lemma conf_keys_NoDup m : NoDup (conf_keys m).
Proof.
  unfold conf_keys. apply NoDup_filter. rewrite sort_by_Permutation. apply range_NoDup_keys.
Qed.

(** The number of lines: the entries with a value. *)
Lemma length_conf_keys m :
  length (conf_keys m) = size (filter (λ kv, kv.2 ≠ "") m).
Proof.
  assert (list_to_set (conf_keys m) = dom (filter (λ kv, kv.2 ≠ "") m)) as Hdom.
  { apply set_eq. intros k. rewrite elem_of_list_to_set, conf_keys_spec, elem_of_dom. unfold is_Some.
    setoid_rewrite map_lookup_filter_Some. naive_solver. }
  rewrite <- size_dom, <- Hdom. rewrite size_list_to_set; [done|]. apply conf_keys_NoDup.
Qed.

Lemma conf_line_split m k v :
  m !! k = Some v → v ≠ "" → conf_entry_ok k v →
  has_byte (ascii_of_nat 10) (conf_text_line m k) = false ∧
  SplitN2 (TrimSuffix (conf_text_line m k) " ") " " = [k; v].
Proof.
  intros Hm Hv (H1 & H2 & H3 & H4). unfold conf_text_line. rewrite Hm. cbn [default from_option Datatypes.id].
  split; [by rewrite !has_byte_app, H2, H3|].
  rewrite TrimSuffix_id; [by apply SplitN2_app|].
  rewrite <- string_app_assoc. by apply HasSuffix_app_ne.
Qed.

(** The lines read back from the stored text. *)
Lemma conf_lines_stored m :
  conf_ok m → conf_keys m ≠ [] →
  Split (TrimSuffix (generateRedisConfContent (Some m)) newline) (ascii_of_nat 10) = conf_text_line m <$> conf_keys m.
Proof.
  intros Hok Hne. rewrite generateRedisConfContent_lines by done. rewrite TrimSuffix_app.
  apply Split_Join; [by intros ?%fmap_nil_inv|]. apply Forall_fmap, Forall_forall.
  intros k (v & Hm & Hv)%conf_keys_spec. apply (conf_line_split m k v); [done..|]. by apply (Hok k v).
Qed.

Lemma isRedisConfChanged_loop_spec m m' ks :
  (∀ k, k ∈ ks → ∃ v, m !! k = Some v ∧ v ≠ "" ∧ conf_entry_ok k v) →
  isRedisConfChanged_loop m' (conf_text_line m <$> ks) = false ↔ ∀ k, k ∈ ks → m' !! k = m !! k.
Proof.
  induction ks as [|k ks IH]; intros Hks; cbn [fmap list_fmap isRedisConfChanged_loop].
  - split; [|done]. intros _ k Hk. by apply elem_of_nil in Hk.
  - destruct (Hks k) as (v & Hm & Hv & Hok); [by left|].
    destruct (conf_line_split m k v Hm Hv Hok) as [_ ->].
    assert (∀ k, k ∈ ks → ∃ v, m !! k = Some v ∧ v ≠ "" ∧ conf_entry_ok k v) as Hks' by (intros; apply Hks; by right).
    specialize (IH Hks'). destruct (m' !! k) as [v'|] eqn:Em'.
    + destruct (decide (v' ≠ v)) as [Hne|Heq%dec_stable].
      * split; [done|]. intros Hall. specialize (Hall k). rewrite Em', Hm in Hall.
        specialize (Hall ltac:(by left)). congruence.
      * change (list_fmap string string (conf_text_line m) ks) with (conf_text_line m <$> ks). rewrite IH. split.
        -- intros Hall k' [->|Hk']%elem_of_cons; [congruence|auto].
        -- intros Hall k' Hk'. apply Hall. by right.
    + split; [done|]. intros Hall. specialize (Hall k). rewrite Em', Hm in Hall.
      specialize (Hall ltac:(by left)). congruence.
Qed.

Lemma isRedisConfChanged_spec m m' :
  conf_ok m → conf_keys m ≠ [] →
  isRedisConfChanged (generateRedisConfContent (Some m)) (Some m') = false ↔
  size (filter (λ kv, kv.2 ≠ "") m) = size m' ∧ ∀ k, k ∈ conf_keys m → m' !! k = m !! k.
Proof.
  intros Hok Hne. unfold isRedisConfChanged. rewrite conf_lines_stored by done. cbn [default from_option Datatypes.id].
  rewrite length_fmap, length_conf_keys.
  destruct (decide (size (filter _ m) ≠ size m')) as [Hs|Hs%dec_stable]; [naive_solver|].
  rewrite isRedisConfChanged_loop_spec; [naive_solver|].
  intros k (v & Hm & Hv)%conf_keys_spec. exists v. split_and!; [done..|]. by apply (Hok k v).
Qed.

Lemma conf_keys_nil m : conf_keys m = [] → ∀ k v, m !! k = Some v → v = "".
Proof.
  intros Hnil k v Hm. destruct (decide (v = "")) as [|Hv]; [done|].
  assert (k ∈ conf_keys m) as Hin by (apply conf_keys_spec; eauto). rewrite Hnil in Hin. by apply elem_of_nil in Hin.
Qed.

Lemma generateRedisConfContent_nil m : conf_keys m = [] → generateRedisConfContent (Some m) = "".
Proof.
  intros Hnil. unfold generateRedisConfContent.
  assert (∀ ks b, foldl (λ buffer k, buffer +:+ conf_line m k) b ks = b) as Hf; [|by rewrite Hf].
  induction ks as [|k ks IH]; intros b; [done|]. cbn [foldl]. rewrite IH. unfold conf_line.
  rewrite decide_True; [by rewrite string_app_nil_r|].
  destruct (m !! k) as [v|] eqn:E; [by apply (conf_keys_nil m Hnil k)|done].
Qed.

(** C30: the operator recognises a change of the Redis configuration: for a stored
    text generated from a non-empty configuration with usable keys and values,
    [isRedisConfChanged] says no change exactly when the current configuration is
    the one the text was generated from.  A configuration that is empty, or has
    several entries one of which is empty, is reported as changed for ever, against
    its own generated text. *)
Theorem isRedisConfChanged_detects m m' :
  conf_ok m →
  (m ≠ ∅ → map_Forall (λ _ v, v ≠ "") m →
     isRedisConfChanged (generateRedisConfContent (Some m)) (Some m') = false ↔ m = m') ∧
  (m = ∅ ∨ size m ≠ 1%nat ∧ (∃ k, m !! k = Some "") →
     isRedisConfChanged (generateRedisConfContent (Some m)) (Some m) = true).
Proof.
  intros Hok. split.
  - intros Hne Hv. assert (conf_keys m ≠ []) as Hk.
    { destruct (map_choose m Hne) as (k & v & Hm). intros Hnil. apply (Hv k v Hm). by eapply conf_keys_nil. }
    rewrite isRedisConfChanged_spec by done.
    assert (filter (λ kv : string * string, kv.2 ≠ "") m = m) as ->.
    { apply map_filter_id. intros k v Hm. simpl. by apply (Hv k v). }
    split; [|by intros ->]. intros [Hsize Hall]. apply map_subseteq_size_eq; [|by rewrite Hsize].
    apply map_subseteq_spec. intros k v Hm. rewrite Hall; [done|].
    apply conf_keys_spec. exists v. split; [done|]. by apply (Hv k v).
  - intros Hm. destruct (decide (conf_keys m = [])) as [Hnil|Hne].
    + rewrite generateRedisConfContent_nil by done. unfold isRedisConfChanged.
      cbn [default from_option Datatypes.id]. rewrite decide_True; [done|].
      change (Split (TrimSuffix "" newline) (ascii_of_nat 10)) with [""]. cbn [length].
      destruct Hm as [->|[Hsize _]]; [by rewrite map_size_empty|done].
    + destruct (isRedisConfChanged _ _) eqn:E; [done|]. apply isRedisConfChanged_spec in E as [Hsize _]; [|done..].
      exfalso. destruct Hm as [->|[_ (k & Hk)]].
      * destruct (conf_keys ∅) as [|k ks] eqn:Ek; [done|].
        assert (k ∈ conf_keys ∅) as (v & Hv & _)%conf_keys_spec by (rewrite Ek; by left). done.
      * assert (filter (λ kv : string * string, kv.2 ≠ "") m ⊂ m) as Hsub.
        { apply map_subset_alt. split; [apply map_filter_subseteq|]. exists k. split; [|by eexists].
          apply map_lookup_filter_None. right. intros v Hv. rewrite Hk in Hv. injection Hv as <-. simpl. auto. }
        apply map_subset_size in Hsub. lia.
Qed.
End conf.

Definition demo_conf : gmap string string := {[ "maxmemory" := "1gb"; "save" := "900 1" ]}.

Lemma isRedisConfChanged_detects_witness :
  @isRedisConfChanged (@generateRedisConfContent range_default sort_default (Some demo_conf)) (Some demo_conf) = false ∧
  @isRedisConfChanged (@generateRedisConfContent range_default sort_default (Some ∅)) (Some ∅) = true.
Proof.
  split.
  - apply (@isRedisConfChanged_detects range_default sort_default demo_conf demo_conf).
    + apply (bool_decide_unpack (map_Forall conf_entry_ok demo_conf)). by vm_compute.
    + intros H. apply (f_equal (lookup "save")) in H. vm_compute in H. discriminate.
    + apply (bool_decide_unpack (map_Forall (λ _ v, v ≠ "") demo_conf)). by vm_compute.
    + reflexivity.
  - apply (@isRedisConfChanged_detects range_default sort_default ∅ ∅); [apply map_Forall_empty|by left].
Defined.

(** ** Generated StatefulSets *)

Section generated.
Context `{MapRange} `{SortPkg} `{K8sApi} `{ObjectStore}.
Variable rename_file : option string.
Implicit Types (cl : DistributedRedisCluster).

(** What is needed for a generated StatefulSet, and given by defaulting and by the
    restore: resources, a port for the exporter, a start time of the backup; a
    password secret has a name. *)
Definition generable cl : Prop :=
  is_Some (Resources (Spec cl)) ∧
  (∀ mon, Monitor (Spec cl) = Some mon → is_Some (ag_Prometheus mon)) ∧
  (∀ b, Backup (Restore cl) = Some b → is_Some (b_StartTime (b_Status b))) ∧
  PasswordSecret (Spec cl) ≠ Some "".

Lemma NewStatefulSetForCR_returns cl ssName svcName labels :
  generable cl → ∃ r, NewStatefulSetForCR rename_file cl ssName svcName labels = Val r.
Proof.
  intros ([res Hres] & Hmon & Hback & _). unfold NewStatefulSetForCR.
  apply go_bind_returns; [unfold redisServerContainer; rewrite Hres; by eexists|]. intros server _.
  apply go_bind_returns.
  - destruct (Monitor (Spec cl)) as [mon|]; [|by eexists]. destruct (Hmon mon eq_refl) as [prom Hprom].
    unfold redisExporterContainer. rewrite Hprom. by eexists.
  - intros cs _. destruct (Backup (Restore cl)) as [b|]; [|by eexists].
    destruct (Hback b eq_refl) as [t Ht].
    destruct (IsRestoreFromBackup cl && IsRestoreRunning cl); [|by eexists].
    apply go_bind_returns; [|by intros [err|init] _; eexists].
    unfold redisInitContainer, RemotePath. rewrite Ht. destruct (Backend_Location _); [by eexists|]. cbn [go_bind].
    repeat case_match; by eexists.
Qed.

Lemma redisExporterContainer_name cl mon password c :
  redisExporterContainer cl mon password = Val c → c_Name c = ExporterContainerName.
Proof. unfold redisExporterContainer. destruct (ag_Prometheus mon); [|done]. by intros [= <-]. Qed.

(** The fields of a generated StatefulSet that the operator reads back. *)
Lemma NewStatefulSetForCR_inv cl ssName svcName labels ss :
  NewStatefulSetForCR rename_file cl ssName svcName labels = Val (inr ss) →
  om_Name (ss_meta ss) = ssName ∧ om_Namespace (ss_meta ss) = drc_Namespace cl ∧
  ss_Replicas (ss_spec ss) = Some (s32 (ClusterReplicas (Spec cl) + 1)) ∧
  ∃ server others,
    redisServerContainer rename_file cl (redisPassword cl) = Val server ∧
    ps_Containers (ss_PodSpec (ss_spec ss)) = server :: others ∧
    match Monitor (Spec cl) with
    | Some _ => ∃ e, others = [e] ∧ c_Name e = ExporterContainerName
    | None => others = []
    end.
Proof.
  unfold NewStatefulSetForCR. intros (server & Hserver & (cs & Hcs & Hrest)%go_bind_Val)%go_bind_Val.
  assert (∃ others, cs = server :: others ∧ match Monitor (Spec cl) with
    | Some _ => ∃ e, others = [e] ∧ c_Name e = ExporterContainerName | None => others = [] end) as (others & -> & Hoth).
  { destruct (Monitor (Spec cl)) as [mon|]; [|injection Hcs as <-; by exists []].
    apply go_bind_Val in Hcs as (e & He%redisExporterContainer_name & [= <-]). exists [e]. eauto. }
  assert (∃ inits, ss = mkStatefulSet (ss_meta ss) (ss_spec ss) 0 0 ∧
    ps_InitContainers (ss_PodSpec (ss_spec ss)) = inits ∧
    ps_Containers (ss_PodSpec (ss_spec ss)) = server :: others ∧
    om_Name (ss_meta ss) = ssName ∧ om_Namespace (ss_meta ss) = drc_Namespace cl ∧
    ss_Replicas (ss_spec ss) = Some (s32 (ClusterReplicas (Spec cl) + 1))) as (_ & _ & _ & Hps & Hn & Hns & Hrep).
  { destruct (Backup (Restore cl)) as [b|]; [|injection Hrest as <-; by eexists].
    destruct (IsRestoreFromBackup cl && IsRestoreRunning cl); [|injection Hrest as <-; by eexists].
    apply go_bind_Val in Hrest as ([err|init] & _ & Hss); [done|]. injection Hss as <-. by eexists. }
  split_and!; [done..|]. exists server, others. by split_and!.
Qed.

Lemma Quantity_Cmp_refl q : Quantity_Cmp q q = 0.
Proof. unfold Quantity_Cmp. by rewrite Z.compare_refl. Qed.

Lemma resources_changed_refl r : resources_changed r r = false.
Proof. unfold resources_changed. by rewrite !Quantity_Cmp_refl. Qed.

(** A StatefulSet generated for the cluster, with any status, needs no update. *)
Lemma shouldUpdateRedis_generated cl ssName svcName labels ss ready current :
  generable cl → NewStatefulSetForCR rename_file cl ssName svcName labels = Val (inr ss) →
  shouldUpdateRedis cl (mkStatefulSet (ss_meta ss) (ss_spec ss) ready current) = Val false.
Proof.
  intros (_ & _ & _ & Hpw) (_ & _ & Hrep & server & others & Hserver & Hcs & Hoth)%NewStatefulSetForCR_inv.
  unfold shouldUpdateRedis, container0. cbn [ss_spec]. rewrite Hrep, decide_False by auto. rewrite Hcs. cbn [go_bind].
  unfold redisServerContainer in Hserver. destruct (Resources (Spec cl)) as [res|] eqn:Er; [|done].
  injection Hserver as <-. cbn [c_Image c_Resources]. rewrite decide_False by auto.
  unfold IsPasswordChanged, container0, redisPassword in *. cbn [ss_spec]. rewrite Hcs.
  assert (monitorChanged cl (mkStatefulSet (ss_meta ss) (ss_spec ss) ready current) = false) as Hmc.
  { unfold monitorChanged. cbn [ss_spec]. rewrite Hcs. cbn [existsb c_Name].
    rewrite (bool_decide_eq_false_2 (redisServerName = _)) by done. cbn [orb].
    destruct (Monitor (Spec cl)).
    - destruct Hoth as (e & -> & He). simpl. by rewrite He, bool_decide_true.
    - by subst. }
  rewrite Hmc, resources_changed_refl.
  destruct (PasswordSecret (Spec cl)) as [name|] eqn:Ep; cbn [go_bind]; [|done].
  cbn [c_Env]. unfold customContainerEnv. cbn [app].
  match goal with |- context [getSecretKeyRefByKey PasswordENV ?env] =>
    assert (getSecretKeyRefByKey PasswordENV env = name) as -> by reflexivity end.
  rewrite decide_False by congruence. by rewrite bool_decide_true.
Qed.
End generated.

(** ** Ensuring the StatefulSets *)

Section ensure.
Context `{MapRange} `{SortPkg} `{K8sApi} `{ObjectStore} `{KubeErrors} {W : Type} `{Client W} `{!ClientLaws W}.
Variable rename_file : option string.
Implicit Types (cl : DistributedRedisCluster) (s : store).

Definition sts_key cl (name : string) : string * (string * string) := ("StatefulSet", (drc_Namespace cl, name)).
Definition pdb_key cl (name : string) : string * (string * string) :=
  ("PodDisruptionBudget", (drc_Namespace cl, name)).

(** Stored StatefulSets have a replica count and a container. *)
Definition store_wf s : Prop := ∀ k ss, s !! k = Some (OStatefulSet ss) →
  is_Some (ss_Replicas (ss_spec ss)) ∧ ps_Containers (ss_PodSpec (ss_spec ss)) ≠ [].

(** The StatefulSet is stored as the specification wants it, with its budget. *)
Definition sts_ok cl (name : string) s : Prop :=
  (∃ ss, s !! sts_key cl name = Some (OStatefulSet ss) ∧ shouldUpdateRedis cl ss = Val false) ∧
  is_Some (s !! pdb_key cl name).

(** The stores agree but for the two objects of a name. *)
Definition same_but cl (name : string) s s' : Prop :=
  ∀ k, k ≠ sts_key cl name → k ≠ pdb_key cl name → s' !! k = s !! k.

Lemma create_if_missing_runs {T} `{KObject T} namespace name (x : T) (w : W) :
  key_of x = (kind_of T, (namespace, name)) →
  runs (create_if_missing (client_Get (T := T) namespace name) (client_Create x)) w (λ e w',
    (stored w' = stored w ∨ stored w !! key_of x = None ∧ stored w' = <[key_of x := to_object x]> (stored w)) ∧
    (e = None → is_Some (stored w' !! key_of x)) ∧
    (is_Some (stored w !! key_of x) → stored w' = stored w)).
Proof.
  intros Hk. unfold create_if_missing. apply runs_bind. eapply runs_mono; [apply Get_law|].
  intros r w1 [Hs Hr]. rewrite <- Hk in Hr. destruct r as [err|y].
  - destruct (IsNotFound err) eqn:En; [|apply runs_ret; split_and!; [by left|done|done]].
    eapply runs_mono; [apply Create_law|]. rewrite Hs. intros [e|] w2 Hc.
    + rewrite Hc. split_and!; [by left|done|done].
    + destruct Hc as [Hnone ->]. split_and!; [by right|rewrite lookup_insert_eq; by eexists|].
      rewrite Hnone. by intros [? ?].
  - apply runs_ret. rewrite Hs. split_and!; [by left|rewrite Hr; by eexists|done].
Qed.

Lemma ensureRedisPDB_runs cl name labels (w : W) :
  runs (ensureRedisPDB cl name labels) w (λ e w',
    (stored w' = stored w ∨ ∃ p, stored w' = <[pdb_key cl name := OPDB p]> (stored w)) ∧
    (e = None → is_Some (stored w' !! pdb_key cl name)) ∧
    (is_Some (stored w !! pdb_key cl name) → stored w' = stored w)).
Proof.
  eapply runs_mono; [by apply (create_if_missing_runs (T := PodDisruptionBudget))|].
  intros e w' (Hs & Hok & Hid). split_and!; [|exact Hok|exact Hid].
  destruct Hs as [?|[_ ?]]; [by left|right; by eexists].
Qed.

Lemma shouldUpdateRedis_returns cl ss :
  generable cl → is_Some (ss_Replicas (ss_spec ss)) → ps_Containers (ss_PodSpec (ss_spec ss)) ≠ [] →
  ∃ b, shouldUpdateRedis cl ss = Val b.
Proof.
  intros ([r Hr] & _ & _ & _) [n Hn] Hcs. unfold shouldUpdateRedis, IsPasswordChanged, container0. rewrite Hn, Hr.
  destruct (ps_Containers _) as [|c cs]; [done|]. cbn [go_bind].
  destruct (PasswordSecret (Spec cl)); cbn [go_bind]; repeat case_match; by eexists.
Qed.

Lemma store_wf_insert s k ss :
  store_wf s → is_Some (ss_Replicas (ss_spec ss)) → ps_Containers (ss_PodSpec (ss_spec ss)) ≠ [] →
  store_wf (<[k := OStatefulSet ss]> s).
Proof.
  intros Hs Hk1 Hk2 k' ss'. destruct (decide (k = k')) as [<-|Hne].
  - rewrite lookup_insert_eq. by intros [= <-].
  - rewrite lookup_insert_ne by done. apply Hs.
Qed.

Lemma store_wf_insert_pdb s k p : store_wf s → store_wf (<[k := OPDB p]> s).
Proof.
  intros Hs k' ss'. destruct (decide (k = k')) as [<-|Hne].
  - by rewrite lookup_insert_eq.
  - rewrite lookup_insert_ne by done. apply Hs.
Qed.

Lemma generated_wf cl name svcName labels ss :
  NewStatefulSetForCR rename_file cl name svcName labels = Val (inr ss) →
  key_of ss = sts_key cl name ∧ is_Some (ss_Replicas (ss_spec ss)) ∧ ps_Containers (ss_PodSpec (ss_spec ss)) ≠ [].
Proof.
  intros (Hn & Hns & Hrep & server & others & _ & Hcs & _)%NewStatefulSetForCR_inv.
  split_and!; [|by eexists|by rewrite Hcs].
  unfold key_of, object_key, sts_key. simpl. by rewrite Hn, Hns.
Qed.

Lemma with_spec_StatefulSet old ss :
  ∃ ready current, with_spec old (OStatefulSet ss) = OStatefulSet (mkStatefulSet (ss_meta ss) (ss_spec ss) ready current).
Proof. destruct ss as [m sp r c]. destruct old; simpl; by eexists _, _. Qed.

Lemma ensureRedisStatefulset_runs cl name svcName labels (w : W) :
  generable cl → store_wf (stored w) →
  runs (ensureRedisStatefulset rename_file cl name svcName labels) w (λ r w',
    store_wf (stored w') ∧ same_but cl name (stored w) (stored w') ∧
    (r.2 = None → sts_ok cl name (stored w')) ∧
    (sts_ok cl name (stored w) → stored w' = stored w ∧ r.1 = false)).
Proof.
  intros Hgen Hwf. unfold ensureRedisStatefulset. apply runs_bind. eapply runs_mono; [apply ensureRedisPDB_runs|].
  intros e w1 (Hs1 & Hpdb & Hid1).
  assert (store_wf (stored w1)) as Hwf1 by (destruct Hs1 as [->|[p ->]]; [done|by apply store_wf_insert_pdb]).
  assert (same_but cl name (stored w) (stored w1)) as Hsame1.
  { intros k Hk1 Hk2. destruct Hs1 as [->|[p ->]]; [done|]. by rewrite lookup_insert_ne. }
  destruct e as [err|].
  { apply runs_ret. split_and!; [done|done|done|]. intros [_ Hp]. split; [by apply Hid1|done]. }
  specialize (Hpdb eq_refl). apply runs_bind. eapply runs_mono; [apply Get_law|].
  intros r w2 [Hs2 Hr]. change (kind_of AppsStatefulSet, (drc_Namespace cl, name)) with (sts_key cl name) in Hr.
  assert (sts_ok cl name (stored w) → stored w1 = stored w) as Hid by (intros [_ ?]; auto).
  assert (∀ ss, NewStatefulSetForCR rename_file cl name svcName labels = Val (inr ss) → ∀ ready current w3,
    stored w3 = <[sts_key cl name := OStatefulSet (mkStatefulSet (ss_meta ss) (ss_spec ss) ready current)]> (stored w2) →
    store_wf (stored w3) ∧ same_but cl name (stored w) (stored w3) ∧ sts_ok cl name (stored w3)) as Hnew.
  { intros ss Hss ready current w3 Hs3. pose proof (generated_wf _ _ _ _ _ Hss) as (_ & Hrep & Hcs).
    rewrite Hs3, Hs2. split_and!.
    - by apply store_wf_insert.
    - intros k Hk1 Hk2. rewrite lookup_insert_ne by done. by apply Hsame1.
    - split; [|by rewrite lookup_insert_ne by done].
      rewrite lookup_insert_eq. eexists. split; [done|]. by eapply shouldUpdateRedis_generated. }
  destruct (NewStatefulSetForCR_returns rename_file cl name svcName labels Hgen) as [new Hnew_eq].
  destruct r as [err|ss].
  - assert (¬ (IsNotFound err = true ∧ sts_ok cl name (stored w))) as Hno.
    { intros [En Hok]. destruct Hok as [(ss & Hss & _) Hp]. specialize (Hr En). rewrite (Hid1 Hp) in Hr. congruence. }
    destruct (IsNotFound err) eqn:En.
    2: { apply runs_ret. rewrite Hs2. split_and!; [done..|]. intros Hok. split; [auto|done]. }
    apply runs_bind. rewrite Hnew_eq. apply runs_pure. destruct new as [err'|ss].
    { apply runs_ret. rewrite Hs2. split_and!; [done..|tauto]. }
    destruct (generated_wf _ _ _ _ _ Hnew_eq) as (Hkey & _ & _).
    apply runs_bind. eapply runs_mono; [apply Create_law|]. intros [e|] w3 Hc; apply runs_ret.
    + rewrite Hc, Hs2. split_and!; [done..|tauto].
    + destruct Hc as [_ Hc]. rewrite Hkey in Hc. destruct (Hnew ss Hnew_eq (ss_ReadyReplicas ss) (ss_CurrentReplicas ss) w3) as (? & ? & ?).
      { rewrite Hc. by destruct ss. }
      split_and!; [done..|tauto].
  - destruct (Hwf1 _ _ Hr) as [Hrep Hcs].
    destruct (shouldUpdateRedis_returns cl ss Hgen Hrep Hcs) as [b Hb].
    assert (b = true → ¬ sts_ok cl name (stored w)) as Hno.
    { intros -> [(ss' & Hss & Hu) Hp]. rewrite <- (Hid1 Hp), Hr in Hss. injection Hss as <-. congruence. }
    apply runs_bind. rewrite Hb. apply runs_pure. destruct b.
    2: { apply runs_ret. rewrite Hs2. split_and!; [done..| |intros Hok; split; [auto|done]].
         intros _. split; [by exists ss|done]. }
    apply runs_bind. rewrite Hnew_eq. apply runs_pure. destruct new as [err'|ss'].
    { apply runs_ret. rewrite Hs2. split_and!; [done..|tauto]. }
    destruct (generated_wf _ _ _ _ _ Hnew_eq) as (Hkey & _ & _).
    apply runs_bind. eapply runs_mono; [apply Update_law|]. intros [e|] w3 Hc; apply runs_ret.
    + rewrite Hc, Hs2. split_and!; [done..|tauto].
    + destruct Hc as (old & _ & Hc). rewrite Hkey in Hc.
      destruct (with_spec_StatefulSet old ss') as (ready & current & Hw).
      destruct (Hnew ss' Hnew_eq ready current w3) as (? & ? & ?).
      { rewrite Hc. f_equal. exact Hw. }
      split_and!; [done..|tauto].
Qed.
Lemma sts_ok_same cl name name' s s' :
  name ≠ name' → same_but cl name s s' → sts_ok cl name' s → sts_ok cl name' s'.
Proof.
  intros Hne Hs [(ss & Hss & Hu) Hp].
  assert (∀ k, k = sts_key cl name' ∨ k = pdb_key cl name' → s' !! k = s !! k) as Hk.
  { intros k Hk. apply Hs; destruct Hk as [-> | ->]; unfold sts_key, pdb_key; congruence. }
  split; [exists ss|]; rewrite Hk by auto; done.
Qed.

Abbreviation sts_name cl := (ClusterStatefulSetName (drc_Name cl)).

Lemma ensure_loop_runs cl idxs updated labels (w : W) :
  generable cl → store_wf (stored w) → NoDup (sts_name cl <$> idxs) →
  runs (for_statefulsets cl (ensureRedisStatefulset rename_file cl) idxs updated labels) w (λ r w',
    store_wf (stored w') ∧
    (∀ k, (∀ i, i ∈ idxs → k ≠ sts_key cl (sts_name cl i) ∧ k ≠ pdb_key cl (sts_name cl i)) →
       stored w' !! k = stored w !! k) ∧
    (r.1.2 = None → ∀ i, i ∈ idxs → sts_ok cl (sts_name cl i) (stored w')) ∧
    ((∀ i, i ∈ idxs → sts_ok cl (sts_name cl i) (stored w)) →
       stored w' = stored w ∧ (r.1.2 = None → r.1.1 = updated))).
Proof.
  intros Hgen. revert updated labels w. induction idxs as [|i idxs IH]; intros updated labels w Hwf Hnd.
  { apply runs_ret. split_and!; [done|done|by intros _ i ?%elem_of_nil|done]. }
  rewrite fmap_cons, NoDup_cons in Hnd. destruct Hnd as [Hi Hnd]. cbn [for_statefulsets].
  apply runs_bind. eapply runs_mono; [by apply ensureRedisStatefulset_runs|].
  intros [b [err|]] w1 (Hwf1 & Hsame & Hok & Hid).
  { apply runs_ret. split_and!; [done| |done|].
    - intros k Hk. destruct (Hk i); [by left|]. by apply Hsame.
    - intros Hall. destruct Hid as [-> _]; [apply Hall; by left|done]. }
  eapply runs_mono; [by apply IH|]. intros r w2 (Hwf2 & Hsame2 & Hok2 & Hid2).
  assert (∀ j, j ∈ idxs → sts_name cl i ≠ sts_name cl j) as Hne.
  { intros j Hj Heq. apply Hi. rewrite Heq. by apply list_elem_of_fmap_2. }
  split_and!; [done| | |].
  - intros k Hk. destruct (Hk i) as [Hk1 Hk2]; [by left|]. rewrite Hsame2; [by apply Hsame|].
    intros j Hj. apply Hk. by right.
  - intros Hr j [->|Hj]%elem_of_cons; [|by apply Hok2].
    destruct (Hok eq_refl) as [(ss & Hss & Hu) Hp]. split.
    + exists ss. split; [|done]. rewrite Hsame2; [done|]. intros j' Hj'%Hne. unfold sts_key, pdb_key. split; congruence.
    + rewrite Hsame2; [done|]. intros j' Hj'%Hne. unfold sts_key, pdb_key. split; congruence.
  - intros Hall. destruct Hid as [Heq Hb]; [apply Hall; by left|]. destruct Hid2 as [-> Hr].
    { intros j Hj. rewrite Heq. apply Hall. by right. }
    split; [done|]. intros Hnone. rewrite Hr by done. simpl in Hb. by rewrite Hb.
Qed.

Lemma sts_names_NoDup cl : MasterSize (Spec cl) < 2 ^ 31 → NoDup (sts_name cl <$> seqZ 0 (MasterSize (Spec cl))).
Proof.
  intros Hm. apply NoDup_fmap_2_strong; [|apply NoDup_seqZ].
  intros i j Hi%elem_of_seqZ Hj%elem_of_seqZ. apply ClusterStatefulSetName_inj; lia.
Qed.

(** C20: [EnsureRedisStatefulsets] terminates without a panic on a well-formed store.
    When it returns no error, each StatefulSet of the cluster is stored with its
    disruption budget and [shouldUpdateRedis] accepts it; only those objects were
    written; and if all were already accepted then nothing was written and no update
    is reported, so that a reconciled cluster stays as it is. *)
Theorem EnsureRedisStatefulsets_converges cl labels (w : W) :
  generable cl → store_wf (stored w) → MasterSize (Spec cl) < 2 ^ 31 →
  runs (EnsureRedisStatefulsets rename_file cl labels) w (λ r w',
    let accepted s := ∀ i, 0 ≤ i < MasterSize (Spec cl) → sts_ok cl (sts_name cl i) s in
    store_wf (stored w') ∧
    (∀ k, (∀ i, 0 ≤ i < MasterSize (Spec cl) → k ≠ sts_key cl (sts_name cl i) ∧ k ≠ pdb_key cl (sts_name cl i)) →
       stored w' !! k = stored w !! k) ∧
    (r.1.2 = None → accepted (stored w')) ∧
    (accepted (stored w) → stored w' = stored w ∧ (r.1.2 = None → r.1.1 = false))).
Proof.
  intros Hgen Hwf Hm. eapply runs_mono; [by apply ensure_loop_runs; [| |apply sts_names_NoDup]|].
  intros r w' (Hwf' & Hsame & Hok & Hid). split_and!; [done| | |].
  - intros k Hk. apply Hsame. intros i Hi%elem_of_seqZ. apply Hk. lia.
  - intros Hr i Hi. apply Hok; [done|]. apply elem_of_seqZ. lia.
  - intros Hall. apply Hid. intros i Hi%elem_of_seqZ. apply Hall. lia.
Qed.
End ensure.

Definition ensure_demo_drc : DistributedRedisCluster :=
  demo_drc (demo_spec <| MasterSize := 2 |> <| Resources := Some (mkResourceRequirements ∅ ∅) |>) "".

Lemma EnsureRedisStatefulsets_converges_witness :
  @runs api_world _ (@EnsureRedisStatefulsets range_default sort_default k8s_default object_store_default
      kube_errors_default api_world (api_server (λ _ _, None)) None ensure_demo_drc ∅) (∅, []) (λ r w',
    r.1.2 = None → ∀ i, 0 ≤ i < 2 →
      @sts_ok ensure_demo_drc (ClusterStatefulSetName (drc_Name ensure_demo_drc) i) w'.1).
Proof.
  eapply runs_mono.
  - apply (@EnsureRedisStatefulsets_converges range_default sort_default k8s_default object_store_default
      kube_errors_default api_world (api_server (λ _ _, None)) (api_server_laws (λ _ _, None))).
    + split_and!; [by eexists|intros mon; discriminate|intros b; discriminate|discriminate].
    + intros k ss Hk. exact (False_rect _ (lookup_empty_Some k _ Hk)).
    + reflexivity.
  - intros r w' (_ & _ & Hok & _) Hr. exact (Hok Hr).
Defined.
