(* ===== verification/Status.v ===== *)
(** [pkg/controller/distributedrediscluster/{status,helper}.go]: the status built
    from the nodes and the pods, when it is worth writing, when the cluster needs an
    operation, and waiting for an event with a timeout.

    The status refers to Redis nodes on the heap.  [buildClusterStatus] sorts the
    slots of the nodes it prints, in place. *)

From Stdlib Require Import ZArith Lia.
From S2P Require Import Prelude GoStrings Errors Slot Node ClusterInfo Kube Utils.
From S2P Require Import Api Client.

Local Open Scope Z_scope.

(** ** status.go *)

Abbreviation ClusterStatus := DistributedRedisClusterStatus.

Definition SetClusterFailed (status : ClusterStatus) (reason : string) : ClusterStatus :=
  status <| ds_Status := ClusterStatusKO |> <| ds_Reason := reason |>.
Definition SetClusterOK (status : ClusterStatus) (reason : string) : ClusterStatus :=
  status <| ds_Status := ClusterStatusOK |> <| ds_Reason := reason |>.
Definition SetClusterRebalancing (status : ClusterStatus) (reason : string) : ClusterStatus :=
  status <| ds_Status := ClusterStatusRebalancing |> <| ds_Reason := reason |>.
Definition SetClusterScaling (status : ClusterStatus) (reason : string) : ClusterStatus :=
  status <| ds_Status := ClusterStatusScaling |> <| ds_Reason := reason |>.
Definition SetClusterUpdating (status : ClusterStatus) (reason : string) : ClusterStatus :=
  status <| ds_Status := ClusterStatusRollingUpdate |> <| ds_Reason := reason |>.
Definition SetClusterResetPassword (status : ClusterStatus) (reason : string) : ClusterStatus :=
  status <| ds_Status := ClusterStatusResetPassword |> <| ds_Reason := reason |>.

(** [compareNodes] *)
Definition compareNodes (nodeA nodeB : RedisClusterNode) : bool :=
  if CompareStringValue (rcn_IP nodeA) (rcn_IP nodeB) then true
  else if CompareStringValue (rcn_MasterRef nodeA) (rcn_MasterRef nodeB) then true
  else if CompareStringValue (rcn_PodName nodeA) (rcn_PodName nodeB) then true
  else if CompareStringValue (rcn_Port nodeA) (rcn_Port nodeB) then true
  else if CompareStringValue (rcn_Role nodeA) (rcn_Role nodeB) then true
  else if decide (length (rcn_Slots nodeA) ≠ length (rcn_Slots nodeB)) then true
  else if negb (bool_decide (length (rcn_Slots nodeA) = 0%nat)) &&
          negb (bool_decide (rcn_Slots nodeA = rcn_Slots nodeB)) then true
  else false.

(** The two loops of [compareStatus]: the inner one over the new nodes, from
    [found], gives [None] for its [return true]. *)
Fixpoint compareStatus_inner (nodeA : RedisClusterNode) (found : bool) (news : list RedisClusterNode)
    : option bool :=
  match news with
  | [] => Some found
  | nodeB :: news' =>
      if decide (rcn_ID nodeA = rcn_ID nodeB) then
        if compareNodes nodeA nodeB then None else compareStatus_inner nodeA true news'
      else compareStatus_inner nodeA found news'
  end.
Fixpoint compareStatus_outer (olds news : list RedisClusterNode) : bool :=
  match olds with
  | [] => false
  | nodeA :: olds' =>
      match compareStatus_inner nodeA false news with
      | Some true => compareStatus_outer olds' news
      | _ => true
      end
  end.
(** [compareStatus] *)
Definition compareStatus (old new : ClusterStatus) : bool :=
  if CompareStringValue (ds_Status old) (ds_Status new) then true
  else if CompareStringValue (ds_Reason old) (ds_Reason new) then true
  else if CompareInt32 (NumberOfMaster old) (NumberOfMaster new) then true
  else if CompareInt32 (s32 (Z.of_nat (length (ds_Nodes old)))) (s32 (Z.of_nat (length (ds_Nodes new)))) then true
  else if CompareStringValue (Phase (ds_Restore old)) (Phase (ds_Restore new)) then true
  else compareStatus_outer (ds_Nodes old) (ds_Nodes new).

(** [updateClusterIfNeed]: the resource afterwards; the error of the write is
    dropped. *)
Definition updateClusterIfNeed {W} `{Client W} (cluster : DistributedRedisCluster) (newStatus : ClusterStatus)
    : M W DistributedRedisCluster :=
  if compareStatus (drc_Status cluster) newStatus then
    r ← UpdateCRStatus (cluster <| drc_Status := newStatus |>); mret r.1
  else mret cluster.

Section status.
Context `{MapRange} `{SortPkg}.

(** What the loop of [buildClusterStatus] accumulates: [status.Nodes], [nbMaster]
    and [nbSlaveByMaster]. *)
Record status_acc := mkStatusAcc {
  sa_Nodes : list RedisClusterNode;
  sa_nbMaster : Z;
  sa_nbSlaveByMaster : gmap string Z;
}.

(** The node of a pod before its Redis node is known. *)
Definition pod_node (pod : Pod) : RedisClusterNode :=
  mkRedisClusterNode "" "" (pod_IP pod) "" [] "" (om_Name (pod_meta pod)) (ps_NodeName (pod_spec pod))
    match om_OwnerReferences (pod_meta pod) with
    | owner :: _ => if decide (or_Kind owner = "StatefulSet") then or_Name owner else ""
    | [] => ""
    end.

(** The counts after a Redis node. *)
Definition count_master (redisNode : Node) (c : Z * gmap string Z) : Z * gmap string Z :=
  if IsMasterWithSlot redisNode then
    (s32 (c.1 + 1),
     match c.2 !! ID redisNode with Some _ => c.2 | None => <[ID redisNode := 0]> c.2 end)
  else c.
Definition count_slave (redisNode : Node) (nb : gmap string Z) : gmap string Z :=
  if IsSlave redisNode && negb (bool_decide (MasterReferent redisNode = "")) then
    <[MasterReferent redisNode := default 0 (nb !! MasterReferent redisNode) + 1]> nb
  else nb.
Definition count_node (redisNode : Node) (c : Z * gmap string Z) : Z * gmap string Z :=
  let c := count_master redisNode c in (c.1, count_slave redisNode c.2).

(** The body of the loop for the one Redis node of a pod, with the texts of its
    slot ranges. *)
Definition status_node (newNode : RedisClusterNode) (redisNode : Node) (slots : list string) : RedisClusterNode :=
  let newNode := newNode <| rcn_ID := ID redisNode |> <| rcn_Role := GetRole redisNode |>
                   <| rcn_Port := Port redisNode |> in
  let newNode :=
    if IsSlave redisNode && negb (bool_decide (MasterReferent redisNode = ""))
    then newNode <| rcn_MasterRef := MasterReferent redisNode |> else newNode in
  newNode <| rcn_Slots := slots |>.
(** [slots := SlotRangesFromSlots(redisNode.Slots)], printed. *)
Definition print_slots (p : ptr) : M heap (list string) :=
  slots ← gets (λ h, Slots (h !!! p));
  if decide (0 < length slots)%nat then
    let '(slots, ranges) := SlotRangesFromSlots slots in
    modify (heap_upd (λ n, n <| Slots := slots |>) p);;
    mret (SlotRange_String <$> ranges)
  else mret [].

Definition buildClusterStatus_pod (clusterInfos : ClusterInfos) (acc : status_acc) (pod : Pod)
    : M heap status_acc :=
  found ← gets (λ h, GetNodesByFunc (GetNodes clusterInfos) (λ node, bool_decide (IP (h !!! node) = pod_IP pod)));
  match found with
  | (_, Some _) => mret acc
  | ([p], None) =>
      redisNode ← gets (λ h, h !!! p);
      slots ← print_slots p;
      let c := count_node redisNode (sa_nbMaster acc, sa_nbSlaveByMaster acc) in
      mret (mkStatusAcc (sa_Nodes acc ++ [status_node (pod_node pod) redisNode slots]) c.1 c.2)
  | (_, None) => mret (mkStatusAcc (sa_Nodes acc ++ [pod_node pod]) (sa_nbMaster acc) (sa_nbSlaveByMaster acc))
  end.

(** The least and the greatest counter, from [math.MaxInt32] and 0. *)
Definition factor_step (b : Z * Z) (e : string * Z) : Z * Z :=
  let '(mn, mx) := b in
  (if decide (e.2 < mn) then e.2 else mn, if decide (mx < e.2) then e.2 else mx).
Definition replication_factors (nbSlaveByMaster : gmap string Z) : Z * Z :=
  let '(mn, mx) := foldl factor_step (2 ^ 31 - 1, 0) (range 70 nbSlaveByMaster) in
  (if decide (size nbSlaveByMaster = 0%nat) then 0 else mn, mx).

(** [buildClusterStatus] *)
Definition buildClusterStatus (clusterInfos : ClusterInfos) (pods : list Pod) (cluster : DistributedRedisCluster)
    : M heap ClusterStatus :=
  let oldStatus := drc_Status cluster in
  acc ← for_fold pods (mkStatusAcc [] 0 ∅) (buildClusterStatus_pod clusterInfos);
  let '(minReplicationFactor, maxReplicationFactor) := replication_factors (sa_nbSlaveByMaster acc) in
  mret {| ds_Status := ds_Status oldStatus;
          ds_Reason := ds_Reason oldStatus;
          NumberOfMaster := sa_nbMaster acc;
          MinReplicationFactor := s32 minReplicationFactor;
          MaxReplicationFactor := s32 maxReplicationFactor;
          ds_NodesPlacement := "";
          ds_Nodes := sa_Nodes acc;
          ds_Restore := ds_Restore oldStatus |}.

(** ** helper.go *)

Definition defaultLabels : label_map := {[ LabelManagedByKey := OperatorName ]}.

(** [getLabels] *)
Definition getLabels (cluster : DistributedRedisCluster) : label_map :=
  MergeLabels [defaultLabels; {[ LabelClusterName := drc_Name cluster ]}].

(** The address of a pod in [newRedisAdmin]: the last port named [client] of a
    container named [redis]. *)
Definition container_port (redisPort : string) (container : Container) : string :=
  if decide (c_Name container = "redis") then
    foldl (λ redisPort port,
      if decide (cp_Name port = "client") then FormatInt (cp_ContainerPort port) else redisPort)
      redisPort (c_Ports container)
  else redisPort.
Definition admin_addr (pod : Pod) : string :=
  JoinHostPort (pod_IP pod) (foldl container_port DefaultRedisPort (ps_Containers (pod_spec pod))).

(** [newRedisCluster]; the nodes are those of the infos, and get the names of
    their pods from the status. *)
Definition name_node (rCluster : RedisCluster) (node : RedisClusterNode) : M heap () :=
  match rc_Nodes rCluster !! rcn_ID node with
  | Some rNode =>
      modify (heap_upd (λ n, n <| PodName := rcn_PodName node |> <| NodeName := rcn_NodeName node |>
                <| StatefulSet := rcn_StatefulSet node |>) rNode)
  | None => mret ()
  end.
Definition newRedisCluster (infos : ClusterInfos) (cluster : DistributedRedisCluster)
    : M heap (RedisCluster * Nodes * option error) :=
  let nodes := GetNodes infos in
  h ← gets Datatypes.id;
  let rCluster :=
    (NewCluster (drc_Name cluster) (drc_Namespace cluster))
      <| rc_Nodes := foldl (λ m node, <[ID (h !!! node) := node]> m) (∅ : gmap string ptr) nodes |> in
  for_each (ds_Nodes (drc_Status cluster)) (name_node rCluster);;
  mret (rCluster, nodes, None).

(** [clusterPods] *)
Definition clusterPods (pods : list Pod) : list Pod :=
  foldl (λ podSlice pod, if decide (pod_Phase pod = PodRunning) then podSlice ++ [pod] else podSlice) [] pods.
End status.

(** [needClusterOperation] *)
Definition needClusterOperation (cluster : DistributedRedisCluster) : bool :=
  if CompareIntValue (Some (NumberOfMaster (drc_Status cluster))) (Some (MasterSize (Spec cluster))) then true
  else if CompareIntValue (Some (MinReplicationFactor (drc_Status cluster))) (Some (ClusterReplicas (Spec cluster)))
  then true
  else if CompareIntValue (Some (MaxReplicationFactor (drc_Status cluster))) (Some (ClusterReplicas (Spec cluster)))
  then true
  else false.

(** What the [select] of [waiting] delivers: the timeout, or a tick, before which
    the rest of the system did [env] to the world. *)
Inductive select_event (W : Type) :=
| Timeout
| Tick (env : W → W).
Arguments Timeout {W}.
Arguments Tick {W} env.

(** [waiting], on the events its timers deliver; without an event it blocks. *)
Fixpoint waiting {W} (name : string) (handler : M W (option error)) (events : list (select_event W))
    : M W (option error) :=
  match events with
  | [] => λ _, Diverges
  | Timeout :: _ => mret (Some (ErrText (name +:+ " timed out")))
  | Tick env :: events' =>
      modify env;;
      err ← handler;
      match err with
      | None => mret None
      | Some _ => waiting name handler events'
      end
  end.

Section handlers.
Context `{MapRange} {W : Type} `{Client W}.

(** [waitPodTerminating.Handler] and [waitStatefulSetUpdating.Handler] *)
Fixpoint first_running (pods : list Pod) : option error :=
  match pods with
  | [] => None
  | pod :: pods' =>
      if decide (pod_Phase pod = PodRunning)
      then Some (ErrText ("[" +:+ om_Name (pod_meta pod) +:+ "] pod still runing"))
      else first_running pods'
  end.
Definition waitPodTerminating_Handler (cluster : DistributedRedisCluster) (statefulSet : string)
    : M W (option error) :=
  let labels := <[StatefulSetLabel := statefulSet]> (getLabels cluster) in
  r ← GetStatefulSetPodsByLabels (drc_Namespace cluster) labels;
  mret match r with
       | inl err => Some err
       | inr podList => first_running podList
       end.

Fixpoint some_not_ready (replicas : Z) (stsList : list AppsStatefulSet) : option error :=
  match stsList with
  | [] => Some (ErrText "statefulSet still not updated")
  | sts :: stsList' =>
      if decide (ss_ReadyReplicas sts ≠ replicas) then None else some_not_ready replicas stsList'
  end.
Definition waitStatefulSetUpdating_Handler (cluster : DistributedRedisCluster) : M W (option error) :=
  r ← ListStatefulSetByLabels (drc_Namespace cluster) (getLabels cluster);
  mret match r with
       | inl err => Some err
       | inr stsList => some_not_ready (s32 (ClusterReplicas (Spec cluster) + 1)) stsList
       end.
End handlers.
