(* ===== verification/StatusProofs.v ===== *)
(** What the status of a cluster says: when two statuses differ, when the cluster
    counts as settled, and how a wait ends. *)

From Stdlib Require Import ZArith Lia.
From S2P Require Import Prelude GoStrings Errors Slot Node ClusterInfo Kube Utils.
From S2P Require Import Api Client Status.

Local Open Scope Z_scope.

(** ** Comparing statuses *)

(** The part of a node that [compareNodes] looks at, with its ID. *)
Definition node_view (n : RedisClusterNode) : RedisClusterNode :=
  n <| rcn_NodeName := "" |> <| rcn_StatefulSet := "" |>.

Lemma CompareStringValue_spec a b : CompareStringValue a b = negb (bool_decide (a = b)).
Proof. unfold CompareStringValue. by destruct (decide (a ≠ b)); destruct (decide (a = b)); case_bool_decide. Qed.
Lemma CompareInt32_spec a b : CompareInt32 a b = negb (bool_decide (a = b)).
Proof. unfold CompareInt32. by destruct (decide (a ≠ b)); destruct (decide (a = b)); case_bool_decide. Qed.

Ltac compare_field x y :=
  destruct (decide (x = y)) as [->|];
  [rewrite (bool_decide_eq_true_2 (y = y)) by done; cbn [negb]
  |rewrite (bool_decide_eq_false_2 (x = y)) by done; cbn [negb]; split; congruence].

Lemma compareNodes_false a b :
  rcn_ID a = rcn_ID b → compareNodes a b = false ↔ node_view a = node_view b.
Proof.
  intros Hid. unfold compareNodes. rewrite !CompareStringValue_spec.
  destruct a, b. cbn in *. subst. unfold node_view, set_field. simpl.
  compare_field rcn_IP rcn_IP0. compare_field rcn_MasterRef rcn_MasterRef0.
  compare_field rcn_PodName rcn_PodName0. compare_field rcn_Port rcn_Port0. compare_field rcn_Role rcn_Role0.
  destruct (decide _) as [Hl|Hl]; [split; congruence|].
  destruct (decide (rcn_Slots = rcn_Slots0)) as [->|Hne].
  - rewrite (bool_decide_eq_true_2 (rcn_Slots0 = _)) by done. by rewrite andb_false_r.
  - rewrite (bool_decide_eq_false_2 (rcn_Slots = _)) by done.
    rewrite (bool_decide_eq_false_2 (length rcn_Slots = _)); [cbn [negb andb]; split; congruence|].
    intros H0. apply Hne. apply dec_stable in Hl. rewrite H0 in Hl.
    apply nil_length_inv in H0. symmetry in Hl. apply nil_length_inv in Hl. congruence.
Qed.

Lemma compareStatus_inner_spec a found news :
  compareStatus_inner a found news = Some true ↔
  (found = true ∨ ∃ b, b ∈ news ∧ rcn_ID a = rcn_ID b) ∧
  ∀ b, b ∈ news → rcn_ID a = rcn_ID b → node_view a = node_view b.
Proof.
  revert found. induction news as [|b news IH]; intros found; simpl.
  - split; [|intros [[->|(b & Hb%elem_of_nil & _)] _]; done].
    intros [= ->]. split; [by left|]. by intros b Hb%elem_of_nil.
  - setoid_rewrite elem_of_cons. destruct (decide (rcn_ID a = rcn_ID b)) as [He|He].
    + destruct (compareNodes a b) eqn:Ec.
      * split; [done|]. intros [_ Hall]. specialize (Hall b (or_introl eq_refl) He).
        apply compareNodes_false in Hall; [congruence|done].
      * apply compareNodes_false in Ec; [|done]. rewrite IH. split.
        -- intros [_ Hall]. split; [right; by exists b; auto|]. intros b' [->|Hb']; auto.
        -- intros [_ Hall]. split; [by left|]. auto.
    + rewrite IH. split.
      * intros [Hex Hall]. split; [|intros b' [->|Hb']; [done|auto]].
        destruct Hex as [?|(b' & ? & ?)]; [by left|right; exists b'; auto].
      * intros [Hex Hall]. split; [|auto].
        destruct Hex as [?|(b' & [->|?] & ?)]; [by left|done|right; by exists b'].
Qed.

Lemma compareStatus_outer_false olds news :
  compareStatus_outer olds news = false ↔
  ∀ a, a ∈ olds → (∃ b, b ∈ news ∧ rcn_ID a = rcn_ID b) ∧
    ∀ b, b ∈ news → rcn_ID a = rcn_ID b → node_view a = node_view b.
Proof.
  induction olds as [|a olds IH]; simpl.
  - split; [|done]. by intros _ a Ha%elem_of_nil.
  - pose proof (compareStatus_inner_spec a false news) as Hin. setoid_rewrite elem_of_cons.
    destruct (compareStatus_inner a false news) as [[]|].
    + rewrite IH. split; [|by eauto]. intros Hall a' [->|Ha']; [|auto].
      destruct Hin as [Hin _]. specialize (Hin eq_refl). naive_solver.
    + split; [done|]. intros Hall. exfalso.
      assert (Some false = Some true) by (apply Hin; naive_solver). done.
    + split; [done|]. intros Hall. exfalso.
      assert (None = Some true) by (apply Hin; naive_solver). done.
Qed.

Lemma compareStatus_false old new :
  Z.of_nat (length (ds_Nodes old)) < 2 ^ 31 → Z.of_nat (length (ds_Nodes new)) < 2 ^ 31 →
  compareStatus old new = false ↔
  ds_Status old = ds_Status new ∧ ds_Reason old = ds_Reason new ∧ NumberOfMaster old = NumberOfMaster new ∧
  length (ds_Nodes old) = length (ds_Nodes new) ∧ Phase (ds_Restore old) = Phase (ds_Restore new) ∧
  compareStatus_outer (ds_Nodes old) (ds_Nodes new) = false.
Proof.
  intros Ho Hn. unfold compareStatus. rewrite !CompareStringValue_spec, !CompareInt32_spec.
  rewrite !s32_small by lia.
  repeat (case_bool_decide; simpl; [|naive_solver lia]). naive_solver lia.
Qed.

Lemma view_ID (l : list RedisClusterNode) : rcn_ID <$> (node_view <$> l) = rcn_ID <$> l.
Proof. rewrite <- list_fmap_compose. by apply list_fmap_ext. Qed.

Lemma outer_false_Permutation (olds news : list RedisClusterNode) :
  NoDup (rcn_ID <$> olds) → NoDup (rcn_ID <$> news) →
  length olds = length news ∧ compareStatus_outer olds news = false ↔ node_view <$> olds ≡ₚ node_view <$> news.
Proof.
  intros Ho Hn. rewrite compareStatus_outer_false. split.
  - intros [Hlen Hall]. apply submseteq_length_Permutation; [|rewrite !length_fmap; lia].
    apply NoDup_submseteq; [apply (NoDup_fmap_1 rcn_ID); by rewrite view_ID|].
    intros v (a & -> & Ha)%list_elem_of_fmap. destruct (Hall a Ha) as [(b & Hb & He) Hv].
    rewrite (Hv b Hb He). by apply list_elem_of_fmap_2.
  - intros Hp. split; [by rewrite <- (length_fmap node_view), Hp, length_fmap|]. intros a Ha.
    assert (node_view a ∈ node_view <$> news) as (b & Hv & Hb)%list_elem_of_fmap
      by (rewrite <- Hp; by apply list_elem_of_fmap_2).
    assert (rcn_ID a = rcn_ID b) as Hid by apply (f_equal rcn_ID Hv). split; [by exists b|].
    intros b' Hb' Hid'. rewrite Hv. f_equal. apply (NoDup_fmap_inj_on rcn_ID news); congruence.
Qed.

(** C29: [compareStatus] is a comparison of what the status says.  For statuses whose
    nodes have distinct IDs it reports no difference exactly when status, reason,
    number of masters and restore phase are equal and the two lists of nodes are the
    same up to their order and up to [NodeName] and [StatefulSet]; the replication
    factors, the placement and the restored backup are not compared.  A status with
    two nodes of the same ID and different addresses differs from itself, and is
    written at every round. *)
Theorem compareStatus_equivalence old new :
  Z.of_nat (length (ds_Nodes old)) < 2 ^ 31 → Z.of_nat (length (ds_Nodes new)) < 2 ^ 31 →
  (NoDup (rcn_ID <$> ds_Nodes old) → NoDup (rcn_ID <$> ds_Nodes new) →
     compareStatus old new = false ↔
     ds_Status old = ds_Status new ∧ ds_Reason old = ds_Reason new ∧
     NumberOfMaster old = NumberOfMaster new ∧ Phase (ds_Restore old) = Phase (ds_Restore new) ∧
     node_view <$> ds_Nodes old ≡ₚ node_view <$> ds_Nodes new) ∧
  ((∃ a b, a ∈ ds_Nodes old ∧ b ∈ ds_Nodes old ∧ rcn_ID a = rcn_ID b ∧ rcn_IP a ≠ rcn_IP b) →
     compareStatus old old = true).
Proof.
  intros Ho Hn. split.
  - intros Hdo Hdn. rewrite compareStatus_false, <- outer_false_Permutation by done. tauto.
  - intros (a & b & Ha & Hb & Hid & Hip). apply not_false_is_true. intros Hc.
    apply compareStatus_false in Hc as (_ & _ & _ & _ & _ & Hc); [|done..].
    apply compareStatus_outer_false with (a := a) in Hc as [_ Hc]; [|done].
    specialize (Hc b Hb Hid). apply (f_equal rcn_IP) in Hc. done.
Qed.

Definition demo_node (id ip : string) : RedisClusterNode :=
  mkRedisClusterNode id "Master" ip "6379" [] "" ("pod-" +:+ id) "worker" "set".
Definition demo_node_status (l : list RedisClusterNode) (factor : Z) : ClusterStatus :=
  mkDRCStatus "Healthy" "OK" 2 factor factor "" l (mkRestore "" None).

Lemma compareStatus_equivalence_witness :
  compareStatus (demo_node_status [demo_node "a" "10.0.0.1"; demo_node "b" "10.0.0.2"] 0)
    (demo_node_status [demo_node "b" "10.0.0.2"; demo_node "a" "10.0.0.1"] 1) = false ∧
  compareStatus (demo_node_status [demo_node "a" "10.0.0.1"; demo_node "a" "10.0.0.2"] 0)
    (demo_node_status [demo_node "a" "10.0.0.1"; demo_node "a" "10.0.0.2"] 0) = true.
Proof.
  split.
  - refine (proj2 (proj1 (compareStatus_equivalence _ _ _ _) _ _) _); [done|done| | |].
    + apply (bool_decide_unpack _). by vm_compute.
    + apply (bool_decide_unpack _). by vm_compute.
    + split_and!; [done..|]. apply Permutation_swap.
  - refine (proj2 (compareStatus_equivalence _ (demo_node_status [] 0) _ _) _); [done|done|].
    exists (demo_node "a" "10.0.0.1"), (demo_node "a" "10.0.0.2"). split_and!; [by left|by right; left|done|done].
Defined.

(** ** Counting the masters and their slaves *)

(** The node but for the order of its slots. *)
Definition same_but_order (n n' : Node) : Prop := n' = n <| Slots := Slots n' |> ∧ Slots n' ≡ₚ Slots n.

Lemma same_but_order_refl n : same_but_order n n.
Proof. split; [by destruct n|done]. Qed.

Lemma same_but_order_fields n n' :
  same_but_order n n' → ID n' = ID n ∧ IP n' = IP n ∧ MasterReferent n' = MasterReferent n ∧
    GetRole n' = GetRole n ∧ TotalSlots n' = TotalSlots n.
Proof.
  intros [He Hp]. apply Permutation_length in Hp. rewrite He. split_and!; [done..| |].
  - unfold GetRole. cbn. by rewrite Hp.
  - unfold TotalSlots. cbn. by rewrite Hp.
Qed.

Lemma count_node_same n n' c : same_but_order n n' → count_node n' c = count_node n c.
Proof.
  intros (Hid & _ & Href & Hrole & Htot)%same_but_order_fields.
  unfold count_node, count_master, count_slave, IsMasterWithSlot, IsSlave. by rewrite Hid, Href, Hrole, Htot.
Qed.

(** A slave of the master [id]; the IDs the replication is counted for. *)
Definition slave_of (id : string) (n : Node) : Prop := IsSlave n = true ∧ MasterReferent n = id ∧ id ≠ "".
Definition tracked (l : list Node) (id : string) : Prop :=
  ∃ n, n ∈ l ∧ (IsMasterWithSlot n = true ∧ ID n = id ∨ slave_of id n).
#[export] Instance slave_of_dec id n : Decision (slave_of id n).
Proof. unfold slave_of. apply _. Defined.
Definition masters (l : list Node) : Z := Z.of_nat (length (filter (λ n, IsMasterWithSlot n = true) l)).
Definition slaves (l : list Node) (id : string) : Z := Z.of_nat (length (filter (slave_of id) l)).

Lemma IsSlave_not_master n : IsSlave n = true → IsMasterWithSlot n = false.
Proof.
  unfold IsSlave, IsMasterWithSlot. intros H%bool_decide_eq_true. rewrite H. done.
Qed.

Lemma tracked_snoc l n id :
  tracked (l ++ [n]) id ↔ tracked l id ∨ (IsMasterWithSlot n = true ∧ ID n = id ∨ slave_of id n).
Proof.
  unfold tracked. split.
  - intros (m & [Hm|Hm%list_elem_of_singleton]%elem_of_app & Hor); [left; by exists m|subst; by right].
  - intros [(m & Hm & Hor)|Hor]; [exists m|exists n]; (split; [apply elem_of_app|done]); [by left|right; by left].
Qed.

(** What the counters of the loop are. *)
Definition counts_ok (l : list Node) (c : Z * gmap string Z) : Prop :=
  c.1 = masters l ∧ ∀ id v, c.2 !! id = Some v ↔ tracked l id ∧ v = slaves l id.

Lemma slaves_untracked l id : ¬ tracked l id → slaves l id = 0.
Proof.
  intros Hn. unfold slaves. destruct (filter (slave_of id) l) as [|n l'] eqn:E; [done|].
  destruct Hn. assert (n ∈ filter (slave_of id) l) as Hin by (rewrite E; by left).
  apply list_elem_of_filter in Hin as [Hs Hin]. exists n. auto.
Qed.

Lemma counts_default l c id : counts_ok l c → default 0 (c.2 !! id) = slaves l id.
Proof.
  intros [_ Hs]. destruct (c.2 !! id) as [v|] eqn:E; simpl; [by apply Hs in E as [_ ->]|].
  symmetry. apply slaves_untracked. intros Ht. assert (c.2 !! id = Some (slaves l id)) by by apply Hs. congruence.
Qed.

Lemma slaves_snoc l n id : slaves (l ++ [n]) id = slaves l id + if decide (slave_of id n) then 1 else 0.
Proof.
  unfold slaves. rewrite filter_app, filter_cons, filter_nil, length_app. case_decide; simpl; lia.
Qed.
Lemma masters_snoc l n : masters (l ++ [n]) = masters l + if IsMasterWithSlot n then 1 else 0.
Proof.
  unfold masters. rewrite filter_app, filter_cons, filter_nil, length_app.
  case_decide as Hm; [rewrite Hm; simpl; lia|]. destruct (IsMasterWithSlot n); [done|simpl; lia].
Qed.
Lemma masters_bound l : 0 ≤ masters l ≤ Z.of_nat (length l).
Proof. unfold masters. pose proof (length_filter (λ n, IsMasterWithSlot n = true) l). lia. Qed.

Lemma counts_master l n c :
  counts_ok l c → IsMasterWithSlot n = true → Z.of_nat (length l) < 2 ^ 31 - 1 →
  counts_ok (l ++ [n]) (count_master n c).
Proof.
  intros Hok Em Hlen. pose proof (masters_bound l). destruct Hok as [Hm Hs] eqn:E. clear E. unfold count_master.
  assert (IsSlave n = false) as Es.
  { destruct (IsSlave n) eqn:Es; [|done]. apply IsSlave_not_master in Es. congruence. }
  assert (∀ id, ¬ slave_of id n) as Hns by (intros id [? _]; congruence).
  rewrite Em. split; cbn [fst snd]; [rewrite masters_snoc, Em, Hm; apply s32_small; lia|].
  intros id v. rewrite slaves_snoc, decide_False, Z.add_0_r, tracked_snoc by done.
  pose proof (counts_default l c (ID n) Hok) as Hd. specialize (Hs id v). specialize (Hns id).
  destruct (decide (ID n = id)) as [Hid|Hne].
  - subst id. destruct (c.2 !! ID n) as [u|] eqn:Eu; simpl in Hd.
    + rewrite Eu. split; [intros [= <-]|intros [_ ->]]; [auto|congruence].
    + rewrite lookup_insert_eq. split; [intros [= <-]|intros [_ ->]]; [auto|congruence].
  - assert ((match c.2 !! ID n with Some _ => c.2 | None => <[ID n := 0]> c.2 end) !! id = c.2 !! id) as ->.
    { destruct (c.2 !! ID n); [done|]. by rewrite lookup_insert_ne. }
    rewrite Hs. tauto.
Qed.

Lemma counts_slave l n c :
  counts_ok l c → IsMasterWithSlot n = false → counts_ok (l ++ [n]) (c.1, count_slave n c.2).
Proof.
  intros Hok Em. destruct Hok as [Hm Hs] eqn:E. clear E.
  split; cbn [fst snd]; [rewrite masters_snoc, Em; lia|].
  intros id v. rewrite slaves_snoc, tracked_snoc, Em. unfold count_slave. specialize (Hs id v).
  pose proof (counts_default l c id Hok) as Hd. destruct (decide (slave_of id n)) as [Hso|Hso].
  - pose proof Hso as (Es & Href & Hne). rewrite Es, Href, bool_decide_eq_false_2 by done. cbn [andb negb].
    rewrite lookup_insert_eq, Hd. split; [intros [= <-]|intros [_ ->]]; auto.
  - assert ((if IsSlave n && negb (bool_decide (MasterReferent n = ""))
      then <[MasterReferent n := default 0 (c.2 !! MasterReferent n) + 1]> c.2 else c.2) !! id = c.2 !! id) as ->.
    { destruct (IsSlave n) eqn:Es; [|done]. case_bool_decide; [done|]. simpl. rewrite lookup_insert_ne; [done|].
      intros <-. by destruct Hso. }
    rewrite Hs, Z.add_0_r. intuition congruence.
Qed.

Lemma counts_step l n c :
  counts_ok l c → Z.of_nat (length l) < 2 ^ 31 - 1 → counts_ok (l ++ [n]) (count_node n c).
Proof.
  intros Hok Hlen. unfold count_node. destruct (IsMasterWithSlot n) eqn:Em.
  - pose proof (counts_master l n c Hok Em Hlen) as Hc. unfold count_slave.
    assert (IsSlave n = false) as ->.
    { destruct (IsSlave n) eqn:Es; [|done]. apply IsSlave_not_master in Es. congruence. }
    by destruct (count_master n c).
  - unfold count_master. rewrite Em. by apply counts_slave.
Qed.

Lemma counts_all ns : Z.of_nat (length ns) < 2 ^ 31 → counts_ok ns (foldl (λ c n, count_node n c) (0, ∅) ns).
Proof.
  induction ns as [|n ns IH] using rev_ind; intros Hlen.
  - split; [done|]. intros id v. simpl. rewrite lookup_empty. split; [done|]. by intros [(n & ?%elem_of_nil & _) _].
  - rewrite foldl_snoc. rewrite length_app in Hlen. cbn [length] in Hlen. apply counts_step; [apply IH|]; lia.
Qed.

(** ** The replication factors *)

Lemma factor_fold (l : list (string * Z)) mn mx :
  let b := foldl factor_step (mn, mx) l in
  b.1 ≤ mn ∧ mx ≤ b.2 ∧ (∀ e, e ∈ l → b.1 ≤ e.2 ≤ b.2) ∧
  (b.1 = mn ∨ ∃ e, e ∈ l ∧ e.2 = b.1) ∧ (b.2 = mx ∨ ∃ e, e ∈ l ∧ e.2 = b.2).
Proof.
  revert mn mx. induction l as [|x l IH]; intros mn mx; simpl.
  { split_and!; [done|done|by intros e ?%elem_of_nil|by left|by left]. }
  specialize (IH (if decide (x.2 < mn) then x.2 else mn) (if decide (mx < x.2) then x.2 else mx)).
  cbn zeta in IH. destruct IH as (H1 & H2 & Hall & Hmn & Hmx). setoid_rewrite elem_of_cons.
  split_and!; [destruct (decide (x.2 < mn)); lia|destruct (decide (mx < x.2)); lia| | |].
  - intros e [->|He]; [|by apply Hall]. destruct (decide (x.2 < mn)), (decide (mx < x.2)); lia.
  - destruct Hmn as [Hmn|(e & He & Hv)]; [|right; by exists e; auto]. rewrite Hmn.
    destruct (decide (x.2 < mn)); [right; by exists x; auto|by left].
  - destruct Hmx as [Hmx|(e & He & Hv)]; [|right; by exists e; auto]. rewrite Hmx.
    destruct (decide (mx < x.2)); [right; by exists x; auto|by left].
Qed.

Section factors.
Context `{MapRange} `{SortPkg}.

(** Both factors are [r] exactly when every counter is. *)
Lemma replication_factors_spec nb r :
  (∀ id v, nb !! id = Some v → 0 ≤ v < 2 ^ 31) →
  let f := replication_factors nb in
  0 ≤ f.1 < 2 ^ 31 ∧ 0 ≤ f.2 < 2 ^ 31 ∧
  (f.1 = r ∧ f.2 = r ↔ (∀ id v, nb !! id = Some v → v = r) ∧ (nb = ∅ → r = 0)).
Proof.
  intros Hv. unfold replication_factors.
  pose proof (factor_fold (range 70 nb) (2 ^ 31 - 1) 0) as Hf. cbn zeta in Hf.
  destruct (foldl factor_step _ _) as [mn mx]. cbn [fst snd] in *.
  destruct Hf as (Hmn1 & Hmx0 & Hall & Hmn & Hmx).
  assert (∀ id v, nb !! id = Some v → mn ≤ v ≤ mx) as Hb.
  { intros id v Hin. apply (Hall (id, v)). by apply elem_of_range. }
  assert (∀ e, e ∈ range 70 nb → ∃ id, nb !! id = Some e.2) as Hin by (intros [id v] ?%elem_of_range; eauto).
  destruct (decide (size nb = 0%nat)) as [Hz|Hz].
  - apply map_size_empty_inv in Hz. subst nb. rewrite range_empty in *.
    assert (mx = 0) as -> by (destruct Hmx as [?|(e & ?%elem_of_nil & _)]; done).
    split_and!; [lia..|]. split; [|by naive_solver]. intros [<- _]. split; [|done]. intros id v. by rewrite lookup_empty.
  - destruct (map_choose nb) as (id0 & v0 & Hv0); [intros ->; by rewrite map_size_empty in Hz|].
    assert (∃ id, nb !! id = Some mn) as [i1 Hi1].
    { destruct Hmn as [->|(e & He & <-)]; [|by apply Hin]. exists id0. rewrite Hv0. f_equal.
      pose proof (Hb _ _ Hv0). pose proof (Hv _ _ Hv0). lia. }
    assert (∃ id, nb !! id = Some mx) as [i2 Hi2].
    { destruct Hmx as [->|(e & He & <-)]; [|by apply Hin]. exists id0. rewrite Hv0. f_equal.
      pose proof (Hb _ _ Hv0). pose proof (Hv _ _ Hv0). lia. }
    pose proof (Hv _ _ Hi1). pose proof (Hv _ _ Hi2). split_and!; [lia..|]. split.
    + intros [-> ->]. split; [|by intros ->; rewrite map_size_empty in Hz]. intros id v Hid. pose proof (Hb _ _ Hid). lia.
    + intros [Hr _]. split; eauto.
Qed.

(** The Redis node of a pod: the one node with its address. *)
Definition redis_node_of (h : heap) (infos : ClusterInfos) (pod : Pod) : option ptr :=
  match filter (λ p, IP (h !!! p) = pod_IP pod) (GetNodes infos) with
  | [p] => Some p
  | _ => None
  end.

Definition heap_same (h h' : heap) : Prop := ∀ p, same_but_order (h !!! p) (h' !!! p).

Lemma redis_node_of_found h h' infos pod :
  heap_same h h' →
  match GetNodesByFunc (GetNodes infos) (λ node, bool_decide (IP (h' !!! node) = pod_IP pod)) with
  | (_, Some _) => redis_node_of h infos pod = None
  | (l, None) => redis_node_of h infos pod = match l with [p] => Some p | _ => None end
  end.
Proof.
  intros Hh. unfold GetNodesByFunc. rewrite FilterByFunc_loop_filter. cbn [app]. unfold redis_node_of.
  assert (∀ l : list ptr, filter (λ x, bool_decide (IP (h' !!! x) = pod_IP pod) = true) l =
    filter (λ p, IP (h !!! p) = pod_IP pod) l) as Hf.
  { intros l. apply list_filter_iff. intros p. rewrite bool_decide_eq_true.
    by destruct (same_but_order_fields _ _ (Hh p)) as (_ & -> & _). }
  rewrite Hf. destruct (filter _ _) as [|p [|q l]] eqn:E; by simpl.
Qed.

Lemma print_slots_runs h0 p h :
  heap_same h0 h → runs (print_slots p) h (λ _ h', heap_same h0 h').
Proof.
  intros Hs. unfold print_slots. apply runs_bind, runs_ret. unfold Datatypes.id.
  case_decide; [|by apply runs_ret]. unfold SlotRangesFromSlots. cbn zeta.
  apply runs_bind, runs_ret, runs_ret. intros q. rewrite heap_upd_case. case_decide as Hpq; [subst q|done].
  destruct (Hs p) as [He Hp]. split; [cbn; by rewrite He at 1|]. cbn.
  by rewrite sort_slots_Permutation.
Qed.

(** The Redis nodes of the pods, in the order of the pods. *)
Definition nodes_of (h : heap) (infos : ClusterInfos) (pods : list Pod) : list Node :=
  (λ p, h !!! p) <$> omap (redis_node_of h infos) pods.

Lemma buildClusterStatus_loop h0 infos pods acc h :
  heap_same h0 h →
  runs (for_fold pods acc (buildClusterStatus_pod infos)) h (λ acc' h',
    heap_same h0 h' ∧
    (sa_nbMaster acc', sa_nbSlaveByMaster acc') =
      foldl (λ c n, count_node n c) (sa_nbMaster acc, sa_nbSlaveByMaster acc) (nodes_of h0 infos pods)).
Proof.
  revert acc h. induction pods as [|pod pods IH]; intros acc h Hs; [by apply runs_ret|].
  cbn [for_fold]. apply runs_bind. unfold nodes_of. cbn [omap list_omap].
  enough (runs (buildClusterStatus_pod infos acc pod) h (λ acc' h',
    heap_same h0 h' ∧ (sa_nbMaster acc', sa_nbSlaveByMaster acc') =
      match redis_node_of h0 infos pod with
      | Some p => count_node (h0 !!! p) (sa_nbMaster acc, sa_nbSlaveByMaster acc)
      | None => (sa_nbMaster acc, sa_nbSlaveByMaster acc)
      end)) as Hpod.
  { eapply runs_mono; [exact Hpod|]. intros acc' h' [Hs' Hc]. eapply runs_mono; [by apply IH|].
    intros acc'' h'' [Hs'' Hc']. split; [done|]. rewrite Hc', Hc. by destruct (redis_node_of h0 infos pod). }
  unfold buildClusterStatus_pod. apply runs_bind, runs_ret. unfold Datatypes.id.
  pose proof (redis_node_of_found h0 h infos pod Hs) as Hf.
  destruct (GetNodesByFunc _ _) as [l [err|]];
    [rewrite Hf; destruct l as [|? [|? ?]]; by apply runs_ret|].
  destruct l as [|p [|q l]]; rewrite Hf; [by apply runs_ret| |by apply runs_ret].
  apply runs_bind, runs_ret. unfold Datatypes.id. apply runs_bind.
  eapply runs_mono; [by apply print_slots_runs|]. intros slots h' Hs'. apply runs_ret. split; [done|].
  cbn [sa_nbMaster sa_nbSlaveByMaster]. rewrite (count_node_same (h0 !!! p)) by apply Hs.
  by destruct (count_node _ _).
Qed.

(** The status against the counts of masters and slaves. *)
Lemma buildClusterStatus_counts infos pods cluster h :
  Z.of_nat (length pods) < 2 ^ 31 →
  runs (buildClusterStatus infos pods cluster) h (λ status h',
    let l := nodes_of h infos pods in
    heap_same h h' ∧
    ds_Status status = ds_Status (drc_Status cluster) ∧ ds_Reason status = ds_Reason (drc_Status cluster) ∧
    ds_Restore status = Restore cluster ∧
    (needClusterOperation (cluster <| drc_Status := status |>) = false ↔
       masters l = MasterSize (Spec cluster) ∧
       (∀ id, tracked l id → slaves l id = ClusterReplicas (Spec cluster)) ∧
       ((∀ id, ¬ tracked l id) → ClusterReplicas (Spec cluster) = 0))).
Proof.
  intros Hlen. unfold buildClusterStatus. apply runs_bind.
  eapply runs_mono; [apply (buildClusterStatus_loop h); intros p; apply same_but_order_refl|]. intros acc h' [Hs Hc].
  set (l := nodes_of h infos pods) in *. cbn [sa_nbMaster sa_nbSlaveByMaster] in Hc.
  assert (Z.of_nat (length l) < 2 ^ 31) as Hl.
  { unfold l, nodes_of. rewrite length_fmap. pose proof (length_omap_le (redis_node_of h infos) pods). lia. }
  destruct (counts_all l Hl) as [Hm Hnb]. rewrite <- Hc in Hm, Hnb. cbn [fst snd] in Hm, Hnb.
  destruct (replication_factors_spec (sa_nbSlaveByMaster acc) (ClusterReplicas (Spec cluster))) as (H1 & H2 & Hiff).
  { intros id v [_ ->]%Hnb. unfold slaves. pose proof (length_filter (slave_of id) l). lia. }
  destruct (replication_factors _) as [mn mx]. cbn [fst snd] in *. apply runs_ret. split_and!; [done..|].
  unfold needClusterOperation, CompareIntValue. cbn. rewrite Hm, !s32_small by lia.
  assert (sa_nbSlaveByMaster acc = ∅ ↔ ∀ id, ¬ tracked l id) as Hempty.
  { rewrite map_empty. split.
    - intros He id Ht. assert (sa_nbSlaveByMaster acc !! id = Some (slaves l id)) as Hid by by apply Hnb.
      congruence.
    - intros Ht id. destruct (_ !! id) as [v|] eqn:E; [|done]. apply Hnb in E as [E _]. by destruct (Ht id). }
  assert (mn = ClusterReplicas (Spec cluster) ∧ mx = ClusterReplicas (Spec cluster) ↔
    (∀ id, tracked l id → slaves l id = ClusterReplicas (Spec cluster)) ∧
    ((∀ id, ¬ tracked l id) → ClusterReplicas (Spec cluster) = 0)) as <-.
  { rewrite Hiff, Hempty. split; intros [Hall Hn]; (split; [|done]).
    - intros id Ht. apply (Hall id). by apply Hnb.
    - intros id v [Ht ->]%Hnb. by apply Hall. }
  repeat case_decide; naive_solver.
Qed.
(** C17: the operator takes a cluster for settled exactly when its pods show it so: with
    the status [buildClusterStatus] computes from the pods, [needClusterOperation] is
    false if and only if as many pods run a master with slots as the specification
    asks for, and every such master, and every master some slave refers to, has
    exactly [ClusterReplicas] slaves among the pods (and none are asked for when there
    is no master at all).  Building the status changes nothing of the nodes but the
    order in which their slots are listed, and keeps state, reason and restore. *)
Theorem needClusterOperation_settled infos pods cluster h :
  Z.of_nat (length pods) < 2 ^ 31 →
  runs (buildClusterStatus infos pods cluster) h (λ status h',
    let l := nodes_of h infos pods in
    heap_same h h' ∧
    ds_Status status = ds_Status (drc_Status cluster) ∧ ds_Reason status = ds_Reason (drc_Status cluster) ∧
    ds_Restore status = Restore cluster ∧
    (needClusterOperation (cluster <| drc_Status := status |>) = false ↔
       masters l = MasterSize (Spec cluster) ∧
       (∀ id, tracked l id → slaves l id = ClusterReplicas (Spec cluster)) ∧
       ((∀ id, ¬ tracked l id) → ClusterReplicas (Spec cluster) = 0))).
Proof. apply buildClusterStatus_counts. Qed.
End factors.

Definition demo_pod (name ip : string) : Pod :=
  mkPod (newObjectMeta name "ns" ∅ []) (zero_PodSpec <| ps_NodeName := "worker" |>) PodRunning ip.
Definition demo_heap : heap :=
  {[ 1%positive := NewDefaultNode <| ID := "a" |> <| IP := "10.0.0.1" |> <| Role := RedisMasterRole |>
       <| Slots := [1; 0; 2] |> ]}.
Definition demo_infos : ClusterInfos :=
  mkClusterInfos {[ "10.0.0.1:6379" := mkNodeInfos 1%positive (mkSlice [] 0) ]} ClusterInfosConsistent.

(** A lone master where one slave is asked for. *)
Lemma needClusterOperation_settled_witness :
  let cl := demo_drc (demo_spec <| MasterSize := 1 |> <| ClusterReplicas := 1 |>) "" in
  runs (@buildClusterStatus range_default sort_default demo_infos [demo_pod "p" "10.0.0.1"] cl) demo_heap
    (λ status h', needClusterOperation (cl <| drc_Status := status |>) = true).
Proof.
  intros cl. eapply runs_mono.
  - apply (@needClusterOperation_settled range_default sort_default demo_infos [demo_pod "p" "10.0.0.1"] cl).
    reflexivity.
  - intros status h' (_ & _ & _ & _ & Hiff). apply not_false_is_true. intros Hf.
    apply Hiff in Hf as (_ & Ht & _).
    assert (@tracked (@nodes_of range_default demo_heap demo_infos [demo_pod "p" "10.0.0.1"]) "a") as Hin.
    { exists (demo_heap !!! 1%positive). split; [vm_compute; left|]. left. split; vm_compute; reflexivity. }
    specialize (Ht "a" Hin). vm_compute in Ht. discriminate.
Defined.

(** ** Waiting *)

(** A wait whose timeout is among its events, and whose handler returns, ends: with
    the handler's success, or with the timeout. *)
Lemma waiting_runs {W} name (handler : M W (option error)) events (w : W) (Q : W → Prop) :
  Timeout ∈ events → (∀ w, runs handler w (λ e w', e = None → Q w')) →
  runs (waiting name handler events) w (λ e w',
    match e with None => Q w' | Some e => e = ErrText (name +:+ " timed out") end).
Proof.
  intros Hin Hh. revert w. induction events as [|[|env] events IH]; intros w; [by apply elem_of_nil in Hin|by apply runs_ret|].
  apply elem_of_cons in Hin as [?|Hin]; [done|]. cbn [waiting]. apply runs_bind, runs_ret.
  apply runs_bind. eapply runs_mono; [apply Hh|]. intros [e|] w' Hq; [by apply IH|]. apply runs_ret. auto.
Qed.

Section waits.
Context `{MapRange} `{KubeErrors} {W : Type} `{Client W} `{!ClientLaws W}.

Lemma first_running_None pods pod : first_running pods = None → pod ∈ pods → pod_Phase pod ≠ PodRunning.
Proof.
  induction pods as [|p pods IH]; simpl; [by intros _ ?%elem_of_nil|].
  destruct (decide _); [done|]. intros Hf [->|?]%elem_of_cons; auto.
Qed.

(** C32: a wait for the pods of a StatefulSet to terminate always ends once its timer
    fires, whatever the rest of the system does between the ticks: with the timeout
    error, or, when it reports success, at a moment when no stored pod of that
    StatefulSet is running. *)
Theorem waitPodTerminating_ends cluster statefulSet name events (w : W) :
  Timeout ∈ events →
  runs (waiting name (waitPodTerminating_Handler cluster statefulSet) events) w (λ e w',
    match e with
    | None => ∀ pod, stored w' !! key_of pod = Some (to_object pod) →
        om_Namespace (pod_meta pod) = drc_Namespace cluster →
        <[StatefulSetLabel := statefulSet]> (getLabels cluster) ⊆ om_Labels (pod_meta pod) →
        pod_Phase pod ≠ PodRunning
    | Some e => e = ErrText (name +:+ " timed out")
    end).
Proof.
  intros Hin. apply (waiting_runs name); [done|]. clear w. intros w. unfold waitPodTerminating_Handler.
  apply runs_bind. eapply runs_mono; [apply (List_law (T := Pod))|]. intros [err|pods] w' [Hs Hl]; apply runs_ret; [done|].
  intros Hnone pod Hst Hns Hlab. apply (first_running_None pods); [done|]. apply Hl. rewrite <- Hs. by split_and!.
Qed.
End waits.

Lemma waitPodTerminating_ends_witness :
  let cl := demo_drc demo_spec "" in
  @runs api_world _ (waiting "wait" (@waitPodTerminating_Handler range_default api_world (api_server (λ _ _, None)) cl "set")
      [Tick Datatypes.id; Timeout]) (∅, []) (λ e w',
    match e with None => True | Some e => e = ErrText "wait timed out" end).
Proof.
  intros cl. eapply runs_mono.
  - apply (@waitPodTerminating_ends range_default kube_errors_default api_world (api_server (λ _ _, None))
      (api_server_laws (λ _ _, None))). apply elem_of_cons. right. by left.
  - intros [e|] w' He; [exact He|exact I].
Defined.
