(* ===== verification/Connections.v ===== *)
(** [pkg/redisutil/client.go] and [connections.go]: one connection to a Redis server,
    and the pool of connections of an admin, which reconnects on network errors.

    The driver ([github.com/mediocregopher/radix.v2/redis]) and the random numbers are
    the parameter [Radix] over a world [W]; a connection of the driver is a value of
    type [C].  The code on the pool works on the pool and the world. *)

From Stdlib Require Import ZArith Lia.
From S2P Require Import Prelude GoStrings Errors Utils.

Local Open Scope Z_scope.

(** A reply of the driver, by what its methods [Str], [List] and [Map] return, with
    its field [Err]. *)
Record Resp := mkResp {
  resp_Err : option error;
  resp_Str : error + string;
  resp_List : error + list string;
  resp_Map : error + gmap string string;
}.

(** The driver.  The arguments of a command are its words; a pipeline queues commands
    and delivers one reply at a time; [ErrPipelineEmpty] recognises the error of that
    name.  [rand_Intn] is [rand.Intn]. *)
Class Radix (C W : Type) := {
  radix_DialTimeout : string → Z → M W (C * option error);
  radix_Cmd : C → string → list string → M W (option Resp);
  radix_Close : C → M W (option error);
  radix_PipeAppend : C → string → list string → M W ();
  radix_PipeResp : C → M W (option Resp);
  radix_PipeClear : C → M W (Z * Z);
  ErrPipelineEmpty : error → bool;
  rand_Intn : Z → M W Z;
}.

(** ** client.go *)

Record RedisClient (C : Type) := mkRedisClient {
  rcl_commandsMapping : gmap string string;
  rcl_client : C;
}.
Arguments mkRedisClient {C} _ _.
Arguments rcl_commandsMapping {C} _.
Arguments rcl_client {C} _.

(** [Client.getCommand] *)
Definition getCommand {C} (c : RedisClient C) (cmd : string) : string :=
  let upperCmd := ToUpper cmd in
  match rcl_commandsMapping c !! upperCmd with
  | Some renamed => renamed
  | None => upperCmd
  end.

Section client.
Context {C W : Type} `{Radix C W}.

(** [NewClient]: the client is returned with an error too. *)
Definition NewClient (addr password : string) (cnxTimeout : Z) (commandsMapping : gmap string string)
    : M W (RedisClient C * option error) :=
  r ← radix_DialTimeout addr cnxTimeout;
  let c := mkRedisClient commandsMapping r.1 in
  match r.2 with
  | Some err => mret (c, Some err)
  | None =>
      if decide (password = "") then mret (c, None)
      else
        resp ← radix_Cmd r.1 "AUTH" [password];
        match resp with
        | None => panic
        | Some resp => mret (c, resp_Err resp)
        end
  end.

(** [Client.Close], [Cmd], [PipeAppend], [PipeResp], [PipeClear] *)
Definition client_Close (c : RedisClient C) : M W (option error) := radix_Close (rcl_client c).
Definition client_Cmd (c : RedisClient C) (cmd : string) (args : list string) : M W (option Resp) :=
  radix_Cmd (rcl_client c) (getCommand c cmd) args.
Definition client_PipeAppend (c : RedisClient C) (cmd : string) (args : list string) : M W () :=
  radix_PipeAppend (rcl_client c) (getCommand c cmd) args.
Definition client_PipeResp (c : RedisClient C) : M W (option Resp) := radix_PipeResp (rcl_client c).
Definition client_PipeClear (c : RedisClient C) : M W (Z * Z) := radix_PipeClear (rcl_client c).
End client.

(** ** connections.go *)

Definition defaultClientTimeout : Z := 2 * 10 ^ 9.
Definition defaultClientName : string := "".
Definition ErrNotFound : string := "unable to find a node to connect".

(** [AdminOptions]; the durations are in nanoseconds. *)
Record AdminOptions := mkAdminOptions {
  opt_ConnectionTimeout : Z;
  opt_ClientName : string;
  opt_RenameCommandsFile : string;
  opt_Password : string;
}.

Record AdminConnections (C : Type) := mkAdminConnections {
  clients : gmap string (RedisClient C);
  connectionTimeout : Z;
  commandsMapping : gmap string string;
  clientName : string;
  password : string;
}.
Arguments mkAdminConnections {C} _ _ _ _ _.
Arguments clients {C} _.
Arguments connectionTimeout {C} _.
Arguments commandsMapping {C} _.
Arguments clientName {C} _.
Arguments password {C} _.
#[export] Instance AdminConnections_eta C : Settable (AdminConnections C) := λ c,
  mkAdminConnections (clients c) (connectionTimeout c) (commandsMapping c) (clientName c) (password c).

(** [netError.Timeout()] or a [*net.OpError] *)
Definition is_network_error (err : error) : bool :=
  match err with NetTimeout _ | NetOpError _ => true | _ => false end.

Section connections.
Context {C W : Type} `{MapRange} `{Radix C W}.
Abbreviation pool := (AdminConnections C * W)%type.
Implicit Types (cnx : AdminConnections C) (addr : string).

(** [GetAUTH] *)
Definition GetAUTH cnx : string * bool :=
  if decide (0 < String.length (password cnx))%nat then (password cnx, true) else ("", false).

(** [Remove] *)
Definition Remove addr : M pool () :=
  cnx ← gets fst;
  match clients cnx !! addr with
  | Some c =>
      on_snd (client_Close c);;
      modify (λ s, (s.1 <| clients := delete addr (clients s.1) |>, s.2))
  | None => mret ()
  end.

(** [Reset], [Close], [GetSelected], [getRandomKeyClient], [GetRandom] *)
Definition cnx_Close : M pool () :=
  cnx ← gets fst;
  for_each (range 80 (clients cnx)) (λ e, on_snd (client_Close e.2);; mret ()).
Definition Reset_ : M pool () :=
  cnx ← gets fst;
  for_each (range 81 (clients cnx)) (λ e, on_snd (client_Close e.2);; mret ());;
  modify (λ s, (s.1 <| clients := ∅ |>, s.2)).
Definition GetSelected cnx (addrs : list string) : gmap string (RedisClient C) :=
  foldl (λ selected addr,
    match clients cnx !! addr with Some c => <[addr := c]> selected | None => selected end) ∅ addrs.
Definition getRandomKeyClient : M pool (string * option (RedisClient C) * option error) :=
  cnx ← gets fst;
  let nbClient := Z.of_nat (size (clients cnx)) in
  if decide (nbClient = 0) then mret ("", None, Some (ErrText ErrNotFound))
  else
    randNumber ← on_snd (rand_Intn nbClient);
    mret match range 82 (clients cnx) !! Z.to_nat randNumber with
         | Some (k, c) => if decide (0 ≤ randNumber) then (k, Some c, None) else ("", None, Some (ErrText ErrNotFound))
         | None => ("", None, Some (ErrText ErrNotFound))
         end.
Definition GetRandom : M pool (option (RedisClient C) * option error) :=
  r ← getRandomKeyClient; mret (r.1.2, r.2).

(** [GetDifferentFrom]: the loop draws until the address differs. *)
Fixpoint GetDifferentFrom_loop (fuel : nat) addr : M pool (option (RedisClient C) * option error) :=
  match fuel with
  | O => λ _, Diverges
  | S fuel =>
      r ← getRandomKeyClient;
      match r with
      | (_, _, Some err) => mret (None, Some err)
      | (a, c, None) => if decide (a ≠ addr) then mret (c, None) else GetDifferentFrom_loop fuel addr
      end
  end.
Definition GetDifferentFrom (fuel : nat) addr : M pool (option (RedisClient C) * option error) :=
  cnx ← gets fst;
  match range 83 (clients cnx) with
  | [(a, c)] =>
      if decide (a ≠ addr) then mret (Some c, None) else mret (None, Some (ErrText ErrNotFound))
  | _ => GetDifferentFrom_loop fuel addr
  end.

(** *** Connecting and validating replies

    [connect] validates the reply to CLIENT SETNAME, which may reconnect, which
    connects: the functions below call one another.  They are given over the function
    [connect], which is then tied with fuel. *)
Section over_connect.
Variable connect : string → M pool (option (RedisClient C) * option error).

(** [Update] *)
Definition Update_over addr : M pool (option (RedisClient C) * option error) :=
  cnx ← gets fst;
  (match clients cnx !! addr with Some c => on_snd (client_Close c);; mret () | None => mret () end);;
  r ← connect addr;
  match r with
  | (Some c, None) =>
      modify (λ s, (s.1 <| clients := <[addr := c]> (clients s.1) |>, s.2));; mret (Some c, None)
  | _ => mret r
  end.
(** [Add] *)
Definition Add_over addr : M pool (option error) :=
  r ← Update_over addr; mret r.2.
(** [Get] *)
Definition Get_over addr : M pool (option (RedisClient C) * option error) :=
  cnx ← gets fst;
  match clients cnx !! addr with
  | Some c => mret (Some c, None)
  | None =>
      r ← connect addr;
      match r with
      | (Some c, None) =>
          modify (λ s, (s.1 <| clients := <[addr := c]> (clients s.1) |>, s.2));; mret (Some c, None)
      | _ => mret r
      end
  end.
(** [Reconnect] *)
Definition Reconnect_over addr : M pool (option error) :=
  Remove addr;; Add_over addr.
(** [handleError], for an error that is not nil *)
Definition handleError_over addr (err : error) : M pool bool :=
  if is_network_error err then Reconnect_over addr;; mret true else mret false.
(** [ValidateResp] *)
Definition ValidateResp_over (resp : option Resp) addr (errMessage : string) : M pool (option error) :=
  match resp with
  | None => mret (Some (ErrText (errMessage +:+ ": unable to connect to node " +:+ addr)))
  | Some resp =>
      match resp_Err resp with
      | Some err =>
          handleError_over addr err;;
          mret (Some (ErrText (errMessage +:+ ": unexpected error on node " +:+ addr +:+ ": " +:+ Error err)))
      | None => mret None
      end
  end.
(** [ValidatePipeResp], from [ok] *)
Fixpoint ValidatePipeResp_over (fuel : nat) (client : RedisClient C) addr (ok : bool) : M pool bool :=
  match fuel with
  | O => λ _, Diverges
  | S fuel =>
      resp ← on_snd (client_PipeResp client);
      match resp with
      | None => mret false
      | Some resp =>
          match resp_Err resp with
          | Some err =>
              if ErrPipelineEmpty err then mret ok
              else
                network ← handleError_over addr err;
                if network : bool then mret false else ValidatePipeResp_over fuel client addr false
          | None => ValidatePipeResp_over fuel client addr ok
          end
      end
  end.
End over_connect.

(** [connect]; [fuel] bounds the depth of the calls to itself. *)
Fixpoint connect (fuel : nat) addr : M pool (option (RedisClient C) * option error) :=
  match fuel with
  | O => λ _, Diverges
  | S fuel =>
      cnx ← gets fst;
      r ← on_snd (NewClient addr (password cnx) (connectionTimeout cnx) (commandsMapping cnx));
      match r with
      | (_, Some err) => mret (None, Some err)
      | (c, None) =>
          if decide (clientName cnx = "") then mret (Some c, None)
          else
            resp ← on_snd (client_Cmd c "CLIENT" ["SETNAME"; clientName cnx]);
            err ← ValidateResp_over (connect fuel) resp addr "Unable to run command CLIENT SETNAME";
            mret (Some c, err)
      end
  end.

(** The operations, with the fuel of the depth [fuel] and of the loop over a pipe. *)
Variable fuel : nat.
Definition Update addr := Update_over (connect fuel) addr.
Definition Add addr : M pool (option error) := Add_over (connect fuel) addr.
Definition Get addr := Get_over (connect fuel) addr.
Definition Reconnect addr : M pool (option error) := Reconnect_over (connect fuel) addr.
Definition handleError addr err : M pool bool := handleError_over (connect fuel) addr err.
Definition ValidateResp resp addr errMessage : M pool (option error) :=
  ValidateResp_over (connect fuel) resp addr errMessage.
Definition ValidatePipeResp client addr : M pool bool := ValidatePipeResp_over (connect fuel) fuel client addr true.

(** [AddAll], [ReplaceAll] *)
Definition AddAll (addrs : list string) : M pool () :=
  for_each addrs (λ addr, Add addr;; mret ()).
Definition ReplaceAll (addrs : list string) : M pool () :=
  Reset_;; AddAll addrs.

(** [NewAdminConnections]; [read_file] is the content of a file that exists. *)
Definition NewAdminConnections (read_file : string → option string) (addrs : list string)
    (options : option AdminOptions) : M W (AdminConnections C) := λ w,
  let cnx := mkAdminConnections ∅ defaultClientTimeout ∅ defaultClientName "" in
  let cnx :=
    match options with
    | Some o =>
        let cnx := if decide (opt_ConnectionTimeout o ≠ 0)
                   then cnx <| connectionTimeout := opt_ConnectionTimeout o |> else cnx in
        let cnx := match read_file (opt_RenameCommandsFile o) with
                   | Some text => cnx <| commandsMapping := BuildCommandReplaceMapping (Some text) |>
                   | None => cnx
                   end in
        cnx <| clientName := opt_ClientName o |> <| password := opt_Password o |>
    | None => cnx
    end in
  let! r := AddAll addrs (cnx, w) in Val r.2.
End connections.
