(* ===== verification/Admin.v ===== *)
(** [pkg/redisutil/admin.go]: the administration of a Redis cluster over a pool of
    connections, an implementation of [IAdmin].

    A loop over the pool runs while the pool changes, since validating a reply may
    reconnect.  The addresses of the pool at the start are visited in an unspecified
    order; an entry that is gone when its turn comes is skipped, an entry that was
    replaced gives the new connection, and an entry added meanwhile is not visited
    (the language leaves the last open). *)

From Stdlib Require Import ZArith Lia.
From S2P Require Import Prelude GoStrings Errors Slot Node ClusterInfo AdminInterface Utils Connections.

Local Open Scope Z_scope.

(** The first match of [cluster_known_nodes:([0-9]+)], its digits. *)
Fixpoint leading_digits (s : string) : string :=
  match s with
  | String c s' => match digit_of c with Some _ => String c (leading_digits s') | None => "" end
  | EmptyString => ""
  end.
Definition known_nodes_text : string := "cluster_known_nodes:".
Fixpoint clusterKnownNodesRE (s : string) : option string :=
  let digits := if HasPrefix s known_nodes_text then leading_digits (TrimPrefix s known_nodes_text) else "" in
  if decide (digits = "") then
    match s with
    | EmptyString => None
    | String _ s' => clusterKnownNodesRE s'
    end
  else Some digits.

(** The keys of [parseConfigMap]. *)
Definition parseConfigMap : list string :=
  [ "maxmemory"; "proto-max-bulk-len"; "client-query-buffer-limit"; "repl-backlog-size";
    "auto-aof-rewrite-min-size"; "active-defrag-ignore-bytes"; "hash-max-ziplist-entries";
    "hash-max-ziplist-value"; "stream-node-max-bytes"; "set-max-intset-entries";
    "zset-max-ziplist-entries"; "zset-max-ziplist-value"; "hll-sparse-max-bytes" ].

Section admin.
Context {C W : Type} `{MapRange} `{SortPkg} `{Growth} `{Radix C W}.
(** The fuel of the loops over a pipe and over the keys of a slot, and of the depth of
    reconnections. *)
Variable fuel : nat.
Abbreviation pool := (AdminConnections C * W)%type.
Implicit Types (addr : string) (c : RedisClient C).

(** The body of a loop over the pool for the entry of [addr], if it still exists. *)
Definition at_turn {A} addr (skip : A) (f : RedisClient C → M pool A) : M pool A :=
  cnx ← gets fst;
  match clients cnx !! addr with
  | Some c => f c
  | None => mret skip
  end.
(** The addresses of [a.Connections().GetAll()], for the loop [site]. *)
Definition GetAll (site : nat) (cnx : AdminConnections C) : list string := (range site (clients cnx)).*1.

(** [Close] *)
Definition Admin_Close : M pool () := Reset_.

(** [c, err := Get(addr)], and [k c] without an error. *)
Definition with_conn {A} addr (fail : error → A) (k : RedisClient C → M pool A) : M pool A :=
  r ← Get fuel addr;
  match r with
  | (_, Some err) => mret (fail err)
  | (Some c, None) => k c
  | (None, None) => panic
  end.
(** [resp := c.Cmd(cmd, args); err := ValidateResp(resp, addr, msg)]: the reply when it
    is valid. *)
Definition command c addr (cmd : string) (args : list string) (msg : string) : M pool (error + Resp) :=
  resp ← on_snd (client_Cmd c cmd args);
  err ← ValidateResp fuel resp addr msg;
  match err, resp with
  | Some err, _ => mret (inl err)
  | None, Some resp => mret (inr resp)
  | None, None => panic
  end.
Definition error_of {A} (r : error + A) : option error := match r with inl err => Some err | inr _ => None end.

(** [getInfos] *)
Definition getInfos c addr : M (heap * pool) (error + NodeInfos) :=
  r ← on_snd (command c addr "CLUSTER" ["NODES"] "unable to retrieve node info");
  match r with
  | inl err => mret (inl err)
  | inr resp =>
      match resp_Str resp with
      | inl err => mret (inl (ErrText ("wrong format from CLUSTER NODES: " +:+ Error err)))
      | inr raw => infos ← on_fst (DecodeNodeInfos raw addr); mret (inr infos)
      end
  end.

(** The body of the loop of [GetClusterInfos]. *)
Definition collect_infos (acc : ClusterInfos * ClusterInfosError) addr
    : M (heap * pool) (ClusterInfos * ClusterInfosError) :=
  cnx ← gets (λ s, s.2.1);
  match clients cnx !! addr with
  | None => mret acc
  | Some c =>
      r ← getInfos c addr;
      match r with
      | inl err =>
          mret (acc.1 <| Status := ClusterInfosPartial |>,
                acc.2 <| cie_partial := true |> <| cie_errs := <[addr := err]> (cie_errs acc.2) |>)
      | inr nodeinfos =>
          h ← gets fst;
          if decide (IPPort (h !!! ni_Node nodeinfos) = addr)
          then mret (acc.1 <| Infos := <[addr := nodeinfos]> (Infos acc.1) |>, acc.2)
          else mret acc
      end
  end.
(** [GetClusterInfos] *)
Definition Admin_GetClusterInfos : M (heap * pool) (ClusterInfos * option error) :=
  cnx ← gets (λ s, s.2.1);
  acc ← for_fold (GetAll 90 cnx) (NewClusterInfos, NewClusterInfosError) collect_infos;
  acc ← (if decide (size (cie_errs acc.2) = 0%nat) then
           r ← on_fst (ComputeStatus acc.1);
           mret (r.1, acc.2 <| cie_inconsistent := negb r.2 |>)
         else mret acc);
  if decide (Status acc.1 = ClusterInfosConsistent) then mret (acc.1, None)
  else mret (acc.1, Some (ClusterInfosError_error acc.2)).

(** [clusterKnowNodes] *)
Definition clusterKnowNodes c addr : M pool (Z * option error) :=
  r ← command c addr "CLUSTER" ["INFO"] "unable to retrieve cluster info";
  mret match r with
       | inl err => (0, Some err)
       | inr resp =>
           match resp_Str resp with
           | inl err => (0, Some (ErrText ("wrong format from CLUSTER INFO: " +:+ Error err)))
           | inr raw =>
               match clusterKnownNodesRE raw with
               | None => (0, Some (ErrText "cluster_known_nodes regex not found"))
               | Some digits =>
                   match ParseInt digits with
                   | (v, None) => (v, None)
                   | (v, Some e) => (v, Some (NumError "Atoi" digits e))
                   end
               end
           end
       end.
(** [ClusterManagerNodeIsEmpty] *)
Fixpoint NodeIsEmpty_loop (addrs : list string) : M pool (bool * option error) :=
  match addrs with
  | [] => mret (true, None)
  | addr :: addrs' =>
      r ← at_turn addr (1, None) (λ c, clusterKnowNodes c addr);
      match r with
      | (_, Some err) => mret (false, Some err)
      | (knowNodes, None) => if decide (knowNodes ≠ 1) then mret (false, None) else NodeIsEmpty_loop addrs'
      end
  end.
Definition ClusterManagerNodeIsEmpty : M pool (bool * option error) :=
  cnx ← gets fst; NodeIsEmpty_loop (GetAll 91 cnx).

(** [AttachSlaveToMaster] *)
Definition AttachSlaveToMaster (slave : ptr) (masterID : string) : M (heap * pool) (option error) :=
  n ← gets (λ s, s.1 !!! slave);
  err ← on_snd (with_conn (IPPort n) Some (λ c,
    r ← command c (IPPort n) "CLUSTER" ["REPLICATE"; masterID] "unable to run command REPLICATE";
    mret (error_of r)));
  match err with
  | Some err => mret (Some err)
  | None => modify (λ s, (heap_upd (become_slave masterID) slave s.1, s.2));; mret None
  end.

(** [AddSlots] *)
Definition Admin_AddSlots addr (slots : list Slot) : M pool (option error) :=
  match slots with
  | [] => mret None
  | _ =>
      with_conn addr Some (λ c,
        r ← command c addr "CLUSTER" ("ADDSLOTS" :: (Slot_String <$> slots)) "unable to run CLUSTER ADDSLOTS";
        mret (error_of r))
  end.

(** The queueing of SETSLOT for a slot, in [SetSlots] and [SetSlot]. *)
Definition append_setslot c (action nodeID : string) (slot : Slot) : M pool () :=
  if decide (nodeID = "") then on_snd (client_PipeAppend c "CLUSTER" ["SETSLOT"; Slot_String slot; action])
  else on_snd (client_PipeAppend c "CLUSTER" ["SETSLOT"; Slot_String slot; action; nodeID]).
Definition set_slots c addr (action : string) (slots : list Slot) (nodeID : string) : M pool (option error) :=
  for_each slots (append_setslot c action nodeID);;
  ok ← ValidatePipeResp fuel c addr;
  if negb ok then mret (Some (ErrText ("Error occured during CLUSTER SETSLOT " +:+ action)))
  else on_snd (client_PipeClear c);; mret None.
(** [SetSlots], [SetSlot] *)
Definition SetSlots addr (action : string) (slots : list Slot) (nodeID : string) : M pool (option error) :=
  match slots with
  | [] => mret None
  | _ => with_conn addr Some (λ c, set_slots c addr action slots nodeID)
  end.
Definition SetSlot addr (action : string) (slot : Slot) (nodeID : string) : M pool (option error) :=
  with_conn addr Some (λ c, set_slots c addr action [slot] nodeID).

(** [SetConfigEpoch] *)
Fixpoint SetConfigEpoch_loop (configEpoch : Z) (addrs : list string) : M pool (option error) :=
  match addrs with
  | [] => mret None
  | addr :: addrs' =>
      r ← at_turn addr (None, configEpoch) (λ c,
        r ← command c addr "CLUSTER" ["SET-CONFIG-EPOCH"; FormatInt configEpoch]
              "unable to run command SET-CONFIG-EPOCH";
        mret (error_of r, configEpoch + 1));
      match r with
      | (Some err, _) => mret (Some err)
      | (None, configEpoch) => SetConfigEpoch_loop configEpoch addrs'
      end
  end.
Definition SetConfigEpoch : M pool (option error) :=
  cnx ← gets fst; SetConfigEpoch_loop 1 (GetAll 92 cnx).

(** [AttachNodeToCluster]; a reply is validated with the address of the new node.  The
    text of the error of an address without port is left out. *)
Definition AttachNodeToCluster addr : M pool (option error) :=
  match SplitHostPort addr with
  | None => mret (Some (ErrText ("address " +:+ addr +:+ ": invalid")))
  | Some (ip, port) =>
      cnx ← gets fst;
      if decide (size (clients cnx) = 0%nat) then mret (Some (ErrText "no connection for other redis-node found"))
      else
        err ← for_err (GetAll 93 cnx) (λ cAddr,
          if decide (cAddr = addr) then mret None
          else at_turn cAddr None (λ c,
            r ← command c addr "CLUSTER" ["MEET"; ip; port] "cannot attach node to cluster";
            mret (error_of r)));
        match err with
        | Some err => mret (Some err)
        | None => Add fuel addr;; mret None
        end
  end.

(** [GetAllConfig] *)
Definition GetAllConfig c addr : M pool (error + gmap string string) :=
  r ← command c addr "CONFIG" ["GET"; "*"] "unable to retrieve config";
  mret match r with
       | inl err => inl err
       | inr resp =>
           match resp_Map resp with
           | inl err => inl (ErrText ("wrong format from CONFIG GET *: " +:+ Error err))
           | inr raw => inr raw
           end
       end.
(** The value of an entry of the new configuration; [None] is the [continue]. *)
Definition config_value (key value : string) : option string :=
  if decide (key ∈ parseConfigMap) then
    match ParseRedisMemConf value with
    | (value, None) => Some value
    | (_, Some _) => None
    end
  else Some value.
Definition set_config c addr (oldConfig : gmap string string) (kv : string * string) : M pool (option error) :=
  match config_value kv.1 kv.2 with
  | None => mret None
  | Some value =>
      if decide (value ≠ default "" (oldConfig !! kv.1)) then
        r ← command c addr "CONFIG" ["SET"; kv.1; value] "unable to retrieve config";
        mret (error_of r)
      else mret None
  end.
(** [SetConfigIfNeed] *)
Definition SetConfigIfNeed (newConfig : gmap string string) : M pool (option error) :=
  cnx ← gets fst;
  for_err (GetAll 94 cnx) (λ addr, at_turn addr None (λ c,
    r ← GetAllConfig c addr;
    match r with
    | inl err => mret (Some err)
    | inr oldConfig => for_err (range 95 newConfig) (set_config c addr oldConfig)
    end)).

(** [migrateCmdArgs] *)
Definition migrateCmdArgs (cnx : AdminConnections C) (dest : Node) (timeoutStr : string) (replace : bool)
    (keys : list string) : list string :=
  let args := [IP dest; Port dest; ""; "0"; timeoutStr] in
  let args := match GetAUTH cnx with
              | (password, true) => args ++ ["AUTH"; password]
              | _ => args
              end in
  let args := if replace then args ++ ["REPLACE"; "KEYS"] else args ++ ["KEYS"] in
  args ++ keys.

(** The [for] loop of [MigrateKeys] and [MigrateKeysInSlot], for one slot: the key
    count, and the error to return. *)
Fixpoint migrate_slot (n : nat) c addr (dest : Node) (slot : Slot) (batchStr timeoutStr : string)
    (replace : bool) (keyCount : Z) : M pool (Z * option error) :=
  match n with
  | O => λ _, Diverges
  | S n =>
      r ← command c addr "CLUSTER" ["GETKEYSINSLOT"; Slot_String slot; batchStr]
            "Unable to run command GETKEYSINSLOT";
      match r with
      | inl err => mret (keyCount, Some err)
      | inr resp =>
          match resp_List resp with
          | inl err => mret (keyCount, Some err)
          | inr [] => mret (keyCount, None)
          | inr keys =>
              let keyCount := keyCount + Z.of_nat (length keys) in
              cnx ← gets fst;
              r ← command c addr "MIGRATE" (migrateCmdArgs cnx dest timeoutStr replace keys)
                    "Unable to run command MIGRATE";
              match r with
              | inl err => mret (keyCount, Some err)
              | inr _ => migrate_slot n c addr dest slot batchStr timeoutStr replace keyCount
              end
          end
      end
  end.
Fixpoint migrate_slots c addr (dest : Node) (slots : list Slot) (batchStr timeoutStr : string)
    (replace : bool) (keyCount : Z) : M pool (Z * option error) :=
  match slots with
  | [] => mret (keyCount, None)
  | slot :: slots' =>
      r ← migrate_slot fuel c addr dest slot batchStr timeoutStr replace keyCount;
      match r with
      | (keyCount, Some err) => mret (keyCount, Some err)
      | (keyCount, None) => migrate_slots c addr dest slots' batchStr timeoutStr replace keyCount
      end
  end.
(** [MigrateKeys], [MigrateKeysInSlot] *)
Definition MigrateKeys addr (dest : Node) (slots : list Slot) (batch timeout : Z) (replace : bool)
    : M pool (Z * option error) :=
  match slots with
  | [] => mret (0, None)
  | _ =>
      with_conn addr (λ err, (0, Some err)) (λ c,
        migrate_slots c addr dest slots (FormatInt batch) (FormatInt timeout) replace 0)
  end.
Definition MigrateKeysInSlot addr (dest : Node) (slot : Slot) (batch timeout : Z) (replace : bool)
    : M pool (Z * option error) :=
  with_conn addr (λ err, (0, Some err)) (λ c,
    migrate_slot fuel c addr dest slot (FormatInt batch) (FormatInt timeout) replace 0).

(** [DetachSlave] *)
Definition DetachSlave (slave : ptr) : M (heap * pool) (option error) :=
  n ← gets (λ s, s.1 !!! slave);
  err ← on_snd (with_conn (IPPort n) Some (λ c,
    r ← command c (IPPort n) "CLUSTER" ["RESET"; "SOFT"] "cannot attach node to cluster";
    match r with
    | inl err => mret (Some err)
    | inr _ => AttachNodeToCluster (IPPort n)
    end));
  match err with
  | Some err => mret (Some err)
  | None =>
      modify (λ s, (heap_upd (λ n, (SetRole (SetReferentMaster n "") RedisMasterRole).1) slave s.1, s.2));;
      mret None
  end.

(** The body of the loop of [ForgetNode]. *)
Definition forget_from (id : string) (e : string * NodeInfos) : M (heap * pool) () :=
  let '(nodeAddr, nodeinfos) := e in
  n ← gets (λ s, s.1 !!! ni_Node nodeinfos);
  if decide (ID n = id) then mret ()
  else
    (if IsSlave n && bool_decide (MasterReferent n = id) then DetachSlave (ni_Node nodeinfos);; mret () else mret ());;
    on_snd (with_conn nodeAddr (λ _, ()) (λ c,
      resp ← on_snd (client_Cmd c "CLUSTER" ["FORGET"; id]);
      ValidateResp fuel resp nodeAddr "Unable to execute FORGET command";;
      mret ())).
(** [ForgetNode]; the errors are logged. *)
Definition ForgetNode (id : string) : M (heap * pool) (option error) :=
  infos ← Admin_GetClusterInfos;
  for_each (range 96 (Infos infos.1)) (forget_from id);;
  mret None.

(** [FlushAndReset] *)
Definition FlushAndReset addr (mode : string) : M pool (option error) :=
  with_conn addr Some (λ c,
    on_snd (client_PipeAppend c "FLUSHALL" []);;
    on_snd (client_PipeAppend c "CLUSTER" ["RESET"; mode]);;
    ok ← ValidatePipeResp fuel c addr;
    mret (if negb ok then Some (ErrText ("Cannot reset node " +:+ addr)) else None)).

(** [ResetPassword] *)
Definition ResetPassword (newPassword : string) : M pool (option error) :=
  cnx ← gets fst;
  if decide (size (clients cnx) = 0%nat) then mret (Some (ErrText "no connection for other redis-node found"))
  else
    for_err (GetAll 97 cnx) (λ addr, at_turn addr None (λ c,
      r ← command c addr "CONFIG" ["SET"; "masterauth"; newPassword] "cannot set new masterauth";
      match r with
      | inl err => mret (Some err)
      | inr _ =>
          r ← command c addr "CONFIG" ["SET"; "requirepass"; newPassword] "cannot set new requirepass";
          mret (error_of r)
      end)).

(** [NewAdmin]: the pool of the new admin replaces the one of the state. *)
Definition NewAdmin (read_file : string → option string) (addrs : list string) (options : AdminOptions) : M pool () :=
  λ s, let! r := NewAdminConnections fuel read_file addrs (Some options) s.2 in Val ((), r).

(** The interface, implemented by [Admin]. *)
Definition Admin : IAdmin pool := {|
  GetHashMaxSlot _ := DefaultHashMaxSlots;
  admin_GetClusterInfos := Admin_GetClusterInfos;
  admin_ClusterManagerNodeIsEmpty := ClusterManagerNodeIsEmpty;
  admin_SetConfigEpoch := SetConfigEpoch;
  admin_SetConfigIfNeed := SetConfigIfNeed;
  admin_AttachNodeToCluster := AttachNodeToCluster;
  admin_AttachSlaveToMaster := AttachSlaveToMaster;
  admin_DetachSlave := DetachSlave;
  admin_ForgetNode := ForgetNode;
  admin_SetSlots := SetSlots;
  admin_AddSlots := Admin_AddSlots;
  admin_SetSlot := SetSlot;
  admin_MigrateKeys := MigrateKeys;
  admin_MigrateKeysInSlot := MigrateKeysInSlot;
  admin_FlushAndReset := FlushAndReset;
  admin_ResetPassword := ResetPassword;
  admin_Close := Admin_Close;
  admin_Connections_Remove := Remove;
  admin_Connections_ReplaceAll := ReplaceAll fuel;
|}.
End admin.
