(* ===== verification/AdminProofs.v ===== *)
(** What the administration keeps: the heap of the caller, the pool of connections, and
    the keys it migrates. *)

From Stdlib Require Import ZArith Lia.
From S2P Require Import Prelude GoStrings Errors Slot Node ClusterInfo AdminInterface Utils Connections Admin.

Local Open Scope Z_scope.

(** ** The heap *)

Section heap.
Context {C W : Type} `{MapRange} `{SortPkg} `{Growth} `{Radix C W}.
Variable fuel : nat.
Abbreviation pool := (AdminConnections C * W)%type.
Implicit Types (h : heap).

Lemma alloc_fresh n h0 h :
  h0 ⊆ h → safe (alloc n) h (λ p h', h ⊆ h' ∧ h0 !! p = None ∧ h0 ⊆ h').
Proof.
  intros Hsub p h' Heq. unfold alloc in Heq. injection Heq as <- <-.
  assert (h !! fresh (dom h) = None) as Hnone by apply not_elem_of_dom, is_fresh.
  split_and!; [by apply insert_subseteq| |by etrans; [|apply insert_subseteq]].
  destruct (h0 !! _) eqn:E; [|done]. eapply lookup_weaken in E; [|done]. congruence.
Qed.

(** The nodes of a view are new. *)
Definition fresh_view h (ni : NodeInfos) : Prop := ∀ p, p ∈ view_nodes ni → h !! p = None.

Lemma fresh_append h ni p :
  fresh_view h ni → h !! p = None → fresh_view h (ni <| Friends := slice_append (Friends ni) p |>).
Proof.
  intros Hf Hp q. unfold view_nodes. cbn. unfold slice_append.
  assert (∀ s : slice, elems (match spare s with
    | O => mkSlice (elems s ++ [p]) (growth (length (elems s))) | S k => mkSlice (elems s ++ [p]) k end) =
    elems s ++ [p]) as -> by (intros [? [|?]]; done).
  rewrite !elem_of_app, list_elem_of_singleton. intros [[Hq| ->]|Hq]; [|done|]; apply Hf; unfold view_nodes;
    rewrite elem_of_app; [by left|by right].
Qed.

Lemma DecodeNodeInfos_fresh input addr h :
  safe (DecodeNodeInfos input addr) h (λ ni h', h ⊆ h' ∧ fresh_view h ni).
Proof.
  unfold DecodeNodeInfos, NewNodeInfos. apply safe_bind, safe_bind.
  eapply safe_mono; [by apply (alloc_fresh _ h h)|]. intros p h1 (_ & Hp & Hsub1). apply safe_ret.
  assert (fresh_view h (mkNodeInfos p (mkSlice [] 0))) as Hf.
  { intros q [Hq%elem_of_nil|Hq%list_elem_of_singleton]%elem_of_app; [done|by subst]. }
  revert Hf Hsub1. generalize (mkNodeInfos p (mkSlice [] 0)). clear Hp p. intros ni. revert ni h1.
  induction (Split input _) as [|line lines IH]; intros ni h1 Hf Hsub1; cbn [DecodeNodeInfos_loop]; [by apply safe_ret|].
  case_decide; [by apply IH|]. apply safe_bind, safe_pure. intros n _. apply safe_bind.
  eapply safe_mono; [by apply (alloc_fresh n h)|]. intros p h2 (_ & Hp & Hsub2).
  destruct (HasPrefix _ _); apply IH; [|done|by apply fresh_append|done].
  intros q Hq. unfold view_nodes in Hq. cbn in Hq. rewrite elem_of_app, list_elem_of_singleton in Hq.
  destruct Hq as [Hq| ->]; [|done]. apply Hf. unfold view_nodes. rewrite elem_of_app. by left.
Qed.

(** [ConfigSignature.String] writes the nodes of the signature only. *)
Lemma ConfigSignature_String_frame h0 (sig : gmap string ptr) h :
  h0 ⊆ h → (∀ a p, sig !! a = Some p → h0 !! p = None) →
  safe (ConfigSignature_String sig) h (λ _ h', h0 ⊆ h').
Proof.
  intros Hsub Hsig. unfold ConfigSignature_String. apply safe_bind.
  eapply safe_mono; [apply (safe_for_fold _ _ _ _ (λ _ h', h0 ⊆ h')); [done|]|by intros; apply safe_ret].
  intros s i h1 _ Hsub1. unfold ConfigSignature_String_entry.
  destruct (sig !! i) as [p|] eqn:E; [|by apply safe_ret].
  apply safe_bind, safe_gets, safe_bind, safe_modify, safe_ret. unfold heap_upd.
  apply insert_subseteq_r; [by apply (Hsig i)|done].
Qed.

Lemma getConfigSignature_in h nodes a p : getConfigSignature h nodes !! a = Some p → p ∈ nodes.
Proof.
  intros Hp. apply getConfigSignature_loop_lookup in Hp as [Hp|(? & _)]; [|done]. by rewrite lookup_empty in Hp.
Qed.

Definition fresh_infos h (infos : ClusterInfos) : Prop := ∀ a ni, Infos infos !! a = Some ni → fresh_view h ni.

Lemma sorted_view_fresh h0 h ni :
  fresh_view h0 ni →
  (∀ p, p ∈ (sorted_view h ni).1 → h0 !! p = None) ∧ fresh_view h0 (ni <| Friends := (sorted_view h ni).2 |>).
Proof.
  intros Hf. unfold sorted_view, SortByFunc. cbn [fst snd].
  set (v := sort_by _ _). assert (∀ p, p ∈ v → h0 !! p = None) as Hv.
  { intros p Hp. apply Hf. unfold v in Hp. by rewrite sort_by_Permutation in Hp. }
  split; [done|]. intros p Hp. unfold view_nodes in Hp. cbn in Hp. rewrite elem_of_app, list_elem_of_singleton in Hp.
  destruct Hp as [Hp| ->].
  - destruct (spare (Friends ni)); cbn in Hp.
    + apply Hf. unfold view_nodes. rewrite elem_of_app. by left.
    + apply Hv. by eapply elem_of_take in Hp as (i & Hp & _); apply list_elem_of_lookup_2 in Hp.
  - apply Hf. unfold view_nodes. rewrite elem_of_app, list_elem_of_singleton. by right.
Qed.

Lemma ComputeStatus_frame h0 infos h :
  h0 ⊆ h → fresh_infos h0 infos →
  safe (ComputeStatus infos) h (λ r h', h0 ⊆ h' ∧ fresh_infos h0 r.1).
Proof.
  intros Hsub Hf. unfold ComputeStatus. case_decide; [by apply safe_ret|].
  apply safe_bind, safe_gets, safe_bind.
  set (sig := getConfigSignature h _).
  assert (∀ a p, sig !! a = Some p → h0 !! p = None) as Hsig.
  { intros a p Hp%getConfigSignature_in. unfold SortByFunc in Hp. rewrite sort_by_Permutation in Hp.
    unfold GetNodes in Hp. apply list_elem_of_fmap in Hp as (ni & -> & Hni).
    apply list_elem_of_fmap in Hni as ([b ni'] & -> & Hin%elem_of_range). apply (Hf _ _ Hin). cbn.
    unfold view_nodes. rewrite elem_of_app, list_elem_of_singleton. by right. }
  clearbody sig.
  eapply safe_mono; [apply (safe_for_fold _ _ _ _ (λ c h', h0 ⊆ h' ∧ fresh_infos h0 c)); [done|]|].
  2: { intros c h' [Hs' Hc]. case_decide; by apply safe_ret. }
  intros c [addr ni] h1 Hin [Hs1 Hc]. apply elem_of_range in Hin. unfold ComputeStatus_step.
  apply safe_bind, safe_gets. destruct (sorted_view_fresh h0 h1 ni (Hf _ _ Hin)) as [Hview Hni].
  apply safe_bind, safe_gets. set (sig' := getConfigSignature h1 _).
  assert (∀ a p, sig' !! a = Some p → h0 !! p = None) as Hsig' by (intros a p ?%getConfigSignature_in; by apply Hview).
  clearbody sig'.
  assert (fresh_infos h0 (c <| Infos := <[addr := ni <| Friends := (sorted_view h1 ni).2 |>]> (Infos c) |>)) as Hc'.
  { intros a ni'. cbn. intros [[_ <-]|[_ Ha]]%lookup_insert_Some; [done|]. by apply (Hc a). }
  apply safe_bind. eapply safe_mono; [by apply (ConfigSignature_String_frame h0)|]. intros ? h2 Hs2.
  apply safe_bind, safe_gets. case_match; [by apply safe_ret|].
  apply safe_bind. eapply safe_mono; [by apply (ConfigSignature_String_frame h0)|]. intros ? h3 Hs3.
  apply safe_bind. eapply safe_mono; [by apply (ConfigSignature_String_frame h0)|]. intros ? h4 Hs4.
  by apply safe_ret.
Qed.

Lemma getInfos_fresh h0 c addr s :
  h0 ⊆ s.1 → safe (getInfos fuel c addr) s (λ r s',
    h0 ⊆ s'.1 ∧ match r with inl _ => True | inr ni => fresh_view h0 ni end).
Proof.
  intros Hsub. destruct s as [h cw]. unfold getInfos. apply safe_bind, safe_on_snd. intros r cw1 _.
  destruct r as [err|resp]; [by apply safe_ret|]. destruct (resp_Str resp) as [err|raw]; [by apply safe_ret|].
  apply safe_bind, safe_on_fst. eapply safe_mono; [apply DecodeNodeInfos_fresh|]. intros ni h1 [Hs1 Hf].
  apply safe_ret. split; [by etrans|]. intros p Hp. specialize (Hf p Hp). cbn in Hsub.
  destruct (h0 !! p) eqn:E; [|done]. eapply lookup_weaken in E; [|done]. congruence.
Qed.

Lemma Admin_GetClusterInfos_fresh h0 s :
  h0 ⊆ s.1 → safe (Admin_GetClusterInfos fuel) s (λ r s', h0 ⊆ s'.1 ∧ fresh_infos h0 r.1).
Proof.
  intros Hsub. unfold Admin_GetClusterInfos. apply safe_bind, safe_gets, safe_bind.
  eapply safe_mono; [apply (safe_for_fold _ _ _ _ (λ acc s', h0 ⊆ s'.1 ∧ fresh_infos h0 acc.1))|].
  { split; [done|]. intros a ni Ha. cbn in Ha. by rewrite lookup_empty in Ha. }
  - intros acc addr s1 _ [Hs1 Hf]. unfold collect_infos. apply safe_bind, safe_gets.
    destruct (clients s1.2.1 !! addr) as [c|]; [|by apply safe_ret].
    apply safe_bind. eapply safe_mono; [by apply (getInfos_fresh h0)|]. intros [err|ni] s2 [Hs2 Hni];
      [by apply safe_ret|]. apply safe_bind, safe_gets. case_decide; [|by apply safe_ret].
    apply safe_ret. split; [done|]. intros a ni'. cbn. intros [[_ <-]|[_ Ha]]%lookup_insert_Some; [done|]. by apply (Hf a).
  - intros acc s1 [Hs1 Hf]. apply safe_bind.
    eapply (safe_mono _ _ (λ acc s', h0 ⊆ s'.1 ∧ fresh_infos h0 acc.1)).
    + case_decide; [|by apply safe_ret]. destruct s1 as [h1 cw]. apply safe_bind, safe_on_fst.
      eapply safe_mono; [by apply (ComputeStatus_frame h0)|]. intros r h2 [Hs2 Hf2]. by apply safe_ret.
    + intros acc' s2 [Hs2 Hf2]. case_decide; by apply safe_ret.
Qed.

Lemma DetachSlave_frame h0 slave s :
  h0 ⊆ s.1 → h0 !! slave = None → safe (DetachSlave fuel slave) s (λ _ s', h0 ⊆ s'.1).
Proof.
  intros Hsub Hp. destruct s as [h cw]. unfold DetachSlave. apply safe_bind, safe_gets, safe_bind, safe_on_snd.
  intros [err|] cw1 _; [by apply safe_ret|]. apply safe_bind, safe_modify, safe_ret. by apply insert_subseteq_r.
Qed.

Lemma Admin_ForgetNode_frame h0 id s : h0 ⊆ s.1 → safe (ForgetNode fuel id) s (λ _ s', h0 ⊆ s'.1).
Proof.
  intros Hsub. unfold ForgetNode. apply safe_bind. eapply safe_mono; [by apply (Admin_GetClusterInfos_fresh h0)|].
  intros infos s1 [Hs1 Hf]. apply safe_bind.
  eapply safe_mono; [apply (safe_for_each_inv _ _ _ (λ s', h0 ⊆ s'.1)); [done|]|by intros; apply safe_ret].
  intros [addr ni] s2 Hin%elem_of_range Hs2. unfold forget_from. apply safe_bind, safe_gets.
  case_decide; [by apply safe_ret|]. apply safe_bind.
  eapply (safe_mono _ _ (λ _ s', h0 ⊆ s'.1)).
  - destruct (_ && _); [|by apply safe_ret]. apply safe_bind.
    eapply safe_mono; [apply (DetachSlave_frame h0); [done|]|by intros; apply safe_ret].
    apply (Hf _ _ Hin). unfold view_nodes. rewrite elem_of_app, list_elem_of_singleton. by right.
  - intros [] [h3 cw] Hs3. apply safe_on_snd. by intros.
Qed.

(** C28: [Admin] is an admin as the clustering and healing code expects one: attaching a
    slave changes that node alone, as [become_slave] says and only without an error;
    fetching the infos and forgetting a node leave every existing node alone; and
    forgetting a node never reports an error. *)
Theorem Admin_implements_IAdmin :
  @IAdminLaws pool (Admin fuel) ∧ ∀ id s, safe (@admin_ForgetNode _ (Admin fuel) id) s (λ e _, e = None).
Proof.
  split; [|intros id s; cbn [Admin admin_ForgetNode]; unfold ForgetNode;
    repeat (apply safe_bind; eapply safe_mono; [apply safe_true|]; intros ? ? _); by apply safe_ret].
  split; cbn [Admin admin_AttachSlaveToMaster admin_ForgetNode admin_GetClusterInfos].
  - intros p id h w e h' w'. unfold AttachSlaveToMaster. intros Heq.
    apply M_bind_Val in Heq as (n & s1 & Hn & Heq). injection Hn as <- <-.
    apply M_bind_Val in Heq as (err & [h1 w1] & Herr & Heq). unfold on_snd in Herr. cbn [fst snd] in Herr.
    destruct (with_conn _ _ _ _ _) as [[? ?]| |] in Herr; simpl in Herr; simplify_eq.
    destruct err as [err|]; [by injection Heq as <- <- <-|].
    apply M_bind_Val in Heq as ([] & s2 & Hm & Heq). injection Hm as <-. injection Heq as <- <- <-. done.
  - intros id h w e h' w' Heq. by apply (Admin_ForgetNode_frame h id (h, w)) in Heq.
  - intros h w r h' w' Heq. apply (Admin_GetClusterInfos_fresh h (h, w)) in Heq; [|done]. by destruct Heq.
Qed.
End heap.

(** ** What [GetClusterInfos] reports *)

Section outcome.
Context {C W : Type} `{MapRange} `{SortPkg} `{Growth} `{Radix C W}.
Variable fuel : nat.
Abbreviation pool := (AdminConnections C * W)%type.

(** From an unset status, with infos about the addresses [D]. *)
Definition infos_in (D : gset string) (infos : ClusterInfos) : Prop := dom (Infos infos) ⊆ D.

Lemma ComputeStatus_outcome D infos h :
  Status infos = ClusterInfosUnset → infos_in D infos →
  safe (ComputeStatus infos) h (λ r _,
    infos_in D r.1 ∧ Status r.1 = if r.2 : bool then ClusterInfosConsistent else ClusterInfosInconsistent).
Proof.
  intros Hunset HD. unfold ComputeStatus. rewrite decide_False by auto. apply safe_bind, safe_gets, safe_bind.
  set (I := λ c (_ : heap), infos_in D c ∧ (Status c = ClusterInfosUnset ∨ Status c = ClusterInfosInconsistent)).
  eapply safe_mono; [apply (safe_for_fold _ _ _ _ I); [split; auto|]|].
  - intros c [addr ni] h1 Hin [Hc Hs]. unfold ComputeStatus_step.
    assert (∀ v, infos_in D (c <| Infos := <[addr := v]> (Infos c) |>)) as Hins.
    { intros v. unfold infos_in. cbn. rewrite dom_insert_L. apply elem_of_range in Hin.
      apply elem_of_dom_2 in Hin. clear -Hin HD Hc. set_solver. }
    repeat (apply safe_bind; first [apply safe_gets|eapply safe_mono; [apply safe_true|]; intros ? ? _]).
    case_match; [apply safe_ret; by split|].
    repeat (apply safe_bind; eapply safe_mono; [apply safe_true|]; intros ? ? _).
    apply safe_ret. split; [apply Hins|by right].
  - intros c h1 [Hc Hs]. case_decide as Hu; apply safe_ret; [done|]. split; [done|]. cbn. by destruct Hs.
Qed.

(** C27: the outcome of [GetClusterInfos].  It returns no error exactly with the status
    Consistent; an error is either a partial one, with the status Partial, when some
    node did not answer, or an inconsistent one, with the status Inconsistent, when all
    answered and disagree.  The infos are about connected addresses only. *)
Theorem GetClusterInfos_outcome s :
  safe (Admin_GetClusterInfos fuel) s (λ r _,
    dom (Infos r.1) ⊆ dom (clients s.2.1) ∧
    match r.2 with
    | None => Status r.1 = ClusterInfosConsistent
    | Some e =>
        Status r.1 = ClusterInfosPartial ∧ IsPartialError e = true ∧ IsInconsistentError e = false ∨
        Status r.1 = ClusterInfosInconsistent ∧ IsPartialError e = false ∧ IsInconsistentError e = true
    end).
Proof.
  unfold Admin_GetClusterInfos. apply safe_bind, safe_gets, safe_bind. set (D := dom (clients s.2.1)).
  set (I := λ (acc : ClusterInfos * ClusterInfosError) (_ : heap * pool),
    infos_in D acc.1 ∧ cie_inconsistent acc.2 = false ∧
    if decide (cie_errs acc.2 = ∅) then Status acc.1 = ClusterInfosUnset ∧ cie_partial acc.2 = false
    else Status acc.1 = ClusterInfosPartial ∧ cie_partial acc.2 = true).
  eapply safe_mono; [apply (safe_for_fold _ _ _ _ I)|].
  { split; [unfold infos_in; cbn; clear; set_solver|]. split; [done|]. by rewrite decide_True. }
  - intros acc addr s1 Hin HI. pose proof HI as (HD & Hi & Hs). unfold GetAll in Hin.
    apply list_elem_of_fmap in Hin as ([a c] & -> & Hin%elem_of_range). apply elem_of_dom_2 in Hin.
    unfold collect_infos. apply safe_bind, safe_gets. destruct (clients s1.2.1 !! _) as [c'|]; [|by apply safe_ret].
    apply safe_bind. eapply safe_mono; [apply safe_true|]. intros [err|ni] s2 _.
    + apply safe_ret. split; [done|]. split; [done|]. cbn. rewrite decide_False; [done|]. apply insert_non_empty.
    + apply safe_bind, safe_gets. destruct (decide (IPPort _ = _)); [|by apply safe_ret]. apply safe_ret.
      split; [|by split]. unfold infos_in in *. cbn. rewrite dom_insert_L. fold D in Hin. clear -Hin HD. set_solver.
  - intros acc s1 (HD & Hi & Hs). apply safe_bind.
    set (Q := λ (acc : ClusterInfos * ClusterInfosError) (_ : heap * pool), infos_in D acc.1 ∧
      (Status acc.1 = ClusterInfosConsistent ∨
       Status acc.1 = ClusterInfosPartial ∧ cie_partial acc.2 = true ∧ cie_inconsistent acc.2 = false ∨
       Status acc.1 = ClusterInfosInconsistent ∧ cie_partial acc.2 = false ∧ cie_inconsistent acc.2 = true)).
    eapply (safe_mono _ _ Q).
    + destruct (decide (cie_errs acc.2 = ∅)) as [He|He].
      * rewrite decide_True by by rewrite He, map_size_empty. destruct Hs as [Hs Hp]. destruct s1 as [h1 cw].
        apply safe_bind, safe_on_fst. eapply safe_mono; [by apply (ComputeStatus_outcome D)|].
        intros [c b] h2 [Hc Hst]. apply safe_ret. split; [done|]. cbn in *. destruct b; [by left|right; right; auto].
      * rewrite decide_False by by rewrite map_size_empty_iff. apply safe_ret. split; [done|]. right; left. tauto.
    + intros acc' s2 [HD' Hst]. destruct (decide (Status acc'.1 = _)) as [Hc|Hc]; apply safe_ret;
        (split; [done|]); [done|]. cbn.
      destruct Hst as [?|[(?&?&?)|(?&?&?)]]; [done|left; by split_and!|right; by split_and!].
Qed.
End outcome.

(** ** The pool of connections *)

Section pool.
Context {C W : Type} `{MapRange} `{SortPkg} `{Growth} `{Radix C W}.
Abbreviation pool := (AdminConnections C * W)%type.

(** The server a connection of the driver is to. *)
Variable peer : C → string.
Hypothesis dial_peer : ∀ addr t w c w', radix_DialTimeout addr t w = Val ((c, None), w') → peer c = addr.

(** A connection to [addr] that renames the commands as the pool says. *)
Definition client_ok (cnx : AdminConnections C) (addr : string) (c : RedisClient C) : Prop :=
  peer (rcl_client c) = addr ∧ rcl_commandsMapping c = commandsMapping cnx.
(** Every entry of the pool is a connection to its address. *)
Definition pool_ok (cnx : AdminConnections C) : Prop := ∀ addr c, clients cnx !! addr = Some c → client_ok cnx addr c.

Definition pool_step (cnx cnx' : AdminConnections C) : Prop :=
  connectionTimeout cnx' = connectionTimeout cnx ∧ commandsMapping cnx' = commandsMapping cnx ∧
  clientName cnx' = clientName cnx ∧ password cnx' = password cnx ∧ (pool_ok cnx → pool_ok cnx').

#[export] Instance pool_step_preorder : PreOrder pool_step.
Proof.
  split; [by intros ?|]. intros x y z (? & ? & ? & ? & Hxy) (? & ? & ? & ? & Hyz). unfold pool_step.
  split_and!; [congruence..|auto].
Qed.

Lemma client_ok_step cnx cnx' addr c : pool_step cnx cnx' → client_ok cnx' addr c ↔ client_ok cnx addr c.
Proof. intros (_ & Hm & _). unfold client_ok. by rewrite Hm. Qed.

Lemma pool_step_insert cnx addr c : client_ok cnx addr c → pool_step cnx (cnx <| clients := <[addr := c]> (clients cnx) |>).
Proof.
  intros Hc. unfold pool_step. split_and!; [done..|]. intros Hok a c'. cbn.
  intros [[<- <-]|[_ Ha]]%lookup_insert_Some; [done|by apply (Hok a)].
Qed.
Lemma pool_step_delete cnx addr : pool_step cnx (cnx <| clients := delete addr (clients cnx) |>).
Proof.
  unfold pool_step. split_and!; [done..|]. intros Hok a c'. cbn. intros [_ Ha]%lookup_delete_Some. by apply (Hok a).
Qed.
Lemma pool_step_empty cnx : pool_step cnx (cnx <| clients := ∅ |>).
Proof. unfold pool_step. split_and!; [done..|]. intros _ a c'. cbn. by rewrite lookup_empty. Qed.

End pool.

(** Code on the pool, and on the heap and the pool, that takes such steps only. *)
Abbreviation keeps_pool peer := (keeps (on_first (pool_step peer))).
Abbreviation keeps_heap peer := (keeps (on_second (S := heap) (on_first (pool_step peer)))).

Section pool_ops.
Context {C W : Type} `{MapRange} `{SortPkg} `{Growth} `{Radix C W}.
Abbreviation pool := (AdminConnections C * W)%type.
Variable peer : C → string.
Hypothesis dial_peer : ∀ addr t w c w', radix_DialTimeout addr t w = Val ((c, None), w') → peer c = addr.

Definition connects (connect : string → M pool (option (RedisClient C) * option error)) : Prop :=
  ∀ addr s, safe (connect addr) s (λ r s',
    pool_step peer s.1 s'.1 ∧ ∀ c, r.1 = Some c → client_ok peer s'.1 addr c).

Lemma Remove_keeps addr : keeps_pool peer (Remove addr).
Proof.
  apply keeps_bind; [exact _|auto with keeps|]. intros cnx. destruct (clients cnx !! addr); [|apply keeps_ret; exact _].
  apply keeps_bind; [exact _|auto with keeps|]. intros _ s. apply safe_modify. apply pool_step_delete.
Qed.
Lemma Reset_keeps : keeps_pool peer Reset_.
Proof.
  apply keeps_bind; [exact _|auto with keeps|]. intros cnx. apply keeps_bind; [exact _|keeps|].
  intros _ s. apply safe_modify. apply pool_step_empty.
Qed.

Section over.
Variable connect : string → M pool (option (RedisClient C) * option error).
Hypothesis Hconnect : connects connect.

(** Registering what [connect] gives. *)
Lemma register_keeps addr :
  keeps_pool peer (r ← connect addr;
    match r with
    | (Some c, None) => modify (λ s, (s.1 <| clients := <[addr := c]> (clients s.1) |>, s.2));; mret (Some c, None)
    | _ => mret r
    end).
Proof.
  intros s. apply safe_bind. eapply safe_mono; [apply Hconnect|]. intros [[c|] [e|]] s1 [Hs Hc]; try by apply safe_ret.
  apply safe_bind, safe_modify, safe_ret. etrans; [exact Hs|]. apply pool_step_insert. by apply Hc.
Qed.

Lemma Update_over_keeps addr : keeps_pool peer (Update_over connect addr).
Proof.
  apply keeps_bind; [exact _|auto with keeps|]. intros cnx. apply keeps_bind; [exact _|keeps|]. intros _. apply register_keeps.
Qed.
Lemma Add_over_keeps addr : keeps_pool peer (Add_over connect addr).
Proof. apply keeps_bind; [exact _|apply Update_over_keeps|]. intros r. apply keeps_ret; exact _. Qed.
Lemma Get_over_keeps addr : keeps_pool peer (Get_over connect addr).
Proof.
  apply keeps_bind; [exact _|auto with keeps|]. intros cnx. destruct (clients cnx !! addr); [apply keeps_ret; exact _|apply register_keeps].
Qed.
Lemma handleError_over_keeps addr err : keeps_pool peer (handleError_over connect addr err).
Proof.
  unfold handleError_over. destruct (is_network_error err); [|apply keeps_ret; exact _]. apply keeps_bind; [exact _| |intros; apply keeps_ret; exact _].
  apply keeps_bind; [exact _|apply Remove_keeps|intros; apply Add_over_keeps].
Qed.
Lemma ValidateResp_over_keeps resp addr msg : keeps_pool peer (ValidateResp_over connect resp addr msg).
Proof.
  unfold ValidateResp_over. destruct resp as [resp|]; [|apply keeps_ret; exact _]. destruct (resp_Err resp); [|apply keeps_ret; exact _].
  apply keeps_bind; [exact _|apply handleError_over_keeps|intros; apply keeps_ret; exact _].
Qed.
Lemma ValidatePipeResp_over_keeps n client addr ok : keeps_pool peer (ValidatePipeResp_over connect n client addr ok).
Proof.
  revert ok. induction n as [|n IH]; intros ok; [apply keeps_diverges|]. cbn [ValidatePipeResp_over].
  apply keeps_bind; [exact _|auto with keeps|]. intros [resp|]; [|apply keeps_ret; exact _]. destruct (resp_Err resp) as [err|]; [|apply IH].
  destruct (ErrPipelineEmpty err); [apply keeps_ret; exact _|]. apply keeps_bind; [exact _|apply handleError_over_keeps|].
  intros []; [apply keeps_ret; exact _|apply IH].
Qed.
End over.

Lemma NewClient_peer addr pw t m w c w' :
  NewClient addr pw t m w = Val ((c, None), w') → peer (rcl_client c) = addr ∧ rcl_commandsMapping c = m.
Proof.
  unfold NewClient. intros Hr. apply M_bind_Val in Hr as ([c0 e] & w1 & Hd & Hr). cbn [fst snd] in Hr.
  destruct e as [e|]; [by injection Hr as <- ? ?|]. apply dial_peer in Hd. case_decide.
  - by injection Hr as <- _.
  - apply M_bind_Val in Hr as (resp & w2 & _ & Hr). destruct resp; [|done]. by injection Hr as <- _ _.
Qed.

Lemma connect_connects n : connects (connect n).
Proof.
  induction n as [|n IH]; intros addr s; [by intros ? ? ?|]. destruct s as [cnx w]. cbn [connect].
  apply safe_bind, safe_gets, safe_bind, safe_on_snd. cbn [fst]. intros [c [e|]] w1 Hc; [by apply safe_ret|].
  apply NewClient_peer in Hc. case_decide.
  - apply safe_ret. split; [done|]. by intros ? [= <-].
  - apply safe_bind, safe_on_snd. intros resp w2 _. apply safe_bind.
    eapply safe_mono; [by apply (ValidateResp_over_keeps (connect n))|]. intros err s2 Hs2. apply safe_ret.
    split; [done|]. cbn. intros ? [= <-]. eapply client_ok_step; [exact Hs2|done].
Qed.

Variable fuel : nat.
Lemma Get_keeps addr : keeps_pool peer (Get fuel addr).
Proof. apply Get_over_keeps, connect_connects. Qed.
Lemma Add_keeps addr : keeps_pool peer (Add fuel addr).
Proof. apply Add_over_keeps, connect_connects. Qed.
Lemma ValidateResp_keeps resp addr msg : keeps_pool peer (ValidateResp fuel resp addr msg).
Proof. apply ValidateResp_over_keeps, connect_connects. Qed.
Lemma ValidatePipeResp_keeps c addr : keeps_pool peer (ValidatePipeResp fuel c addr).
Proof. apply ValidatePipeResp_over_keeps, connect_connects. Qed.
#[local] Hint Resolve Get_keeps Add_keeps ValidateResp_keeps ValidatePipeResp_keeps Remove_keeps Reset_keeps : keeps.

Lemma AddAll_keeps addrs : keeps_pool peer (AddAll fuel addrs).
Proof. unfold AddAll. keeps. Qed.
Lemma ReplaceAll_keeps addrs : keeps_pool peer (ReplaceAll fuel addrs).
Proof. apply keeps_bind; [exact _|auto with keeps|intros; apply AddAll_keeps]. Qed.

Lemma command_keeps c addr cmd args msg : keeps_pool peer (command fuel c addr cmd args msg).
Proof. unfold command. keeps. Qed.
Lemma with_conn_keeps {A} addr (fail : error → A) (k : RedisClient C → M pool A) :
  (∀ c, keeps_pool peer (k c)) → keeps_pool peer (with_conn fuel addr fail k).
Proof. intros Hk. unfold with_conn. keeps. Qed.
Lemma at_turn_keeps {A} addr (skip : A) (k : RedisClient C → M pool A) : (∀ c, keeps_pool peer (k c)) → keeps_pool peer (at_turn addr skip k).
Proof. intros Hk. unfold at_turn. keeps. Qed.
#[local] Hint Resolve command_keeps AddAll_keeps ReplaceAll_keeps : keeps.

Lemma NodeIsEmpty_keeps : keeps_pool peer (ClusterManagerNodeIsEmpty fuel).
Proof.
  unfold ClusterManagerNodeIsEmpty. apply keeps_bind; [exact _|auto with keeps|]. intros cnx.
  generalize (GetAll 91 cnx). induction l as [|addr l IH]; [apply keeps_ret; exact _|]. cbn [NodeIsEmpty_loop].
  apply keeps_bind; [exact _|apply at_turn_keeps; intros; unfold clusterKnowNodes; keeps|]. intros r. keeps.
Qed.
Lemma AddSlots_keeps addr slots : keeps_pool peer (Admin_AddSlots fuel addr slots).
Proof. unfold Admin_AddSlots. destruct slots; [apply keeps_ret; exact _|]. apply with_conn_keeps. intros c. keeps. Qed.
Lemma set_slots_keeps c addr action slots id : keeps_pool peer (set_slots fuel c addr action slots id).
Proof. unfold set_slots, append_setslot. keeps. Qed.
Lemma SetSlots_keeps addr action slots id : keeps_pool peer (SetSlots fuel addr action slots id).
Proof. unfold SetSlots. destruct slots; [apply keeps_ret; exact _|]. apply with_conn_keeps. intros c. apply set_slots_keeps. Qed.
Lemma SetSlot_keeps addr action slot id : keeps_pool peer (SetSlot fuel addr action slot id).
Proof. apply with_conn_keeps. intros c. apply set_slots_keeps. Qed.
Lemma SetConfigEpoch_keeps : keeps_pool peer (SetConfigEpoch fuel).
Proof.
  unfold SetConfigEpoch. apply keeps_bind; [exact _|auto with keeps|]. intros cnx. generalize (GetAll 92 cnx), 1.
  induction l as [|addr l IH]; intros n; [apply keeps_ret; exact _|]. cbn [SetConfigEpoch_loop].
  apply keeps_bind; [exact _|apply at_turn_keeps; intros; keeps|]. intros r. keeps.
Qed.
Lemma AttachNodeToCluster_keeps addr : keeps_pool peer (AttachNodeToCluster fuel addr).
Proof.
  unfold AttachNodeToCluster, at_turn. keeps.
Qed.
Lemma SetConfigIfNeed_keeps conf : keeps_pool peer (SetConfigIfNeed fuel conf).
Proof.
  unfold SetConfigIfNeed, at_turn, GetAllConfig, set_config. keeps.
Qed.
Lemma migrate_slot_keeps n c addr dest slot b t r k : keeps_pool peer (migrate_slot fuel n c addr dest slot b t r k).
Proof.
  revert k. induction n as [|n IH]; intros k; [apply keeps_diverges|]. cbn [migrate_slot]. keeps.
Qed.
Lemma MigrateKeys_keeps addr dest slots b t r : keeps_pool peer (MigrateKeys fuel addr dest slots b t r).
Proof.
  unfold MigrateKeys. destruct slots as [|s0 slots]; [apply keeps_ret; exact _|]. apply with_conn_keeps. intros c.
  generalize (s0 :: slots), 0. induction l as [|s l IH]; intros k; [apply keeps_ret; exact _|]. cbn [migrate_slots].
  apply keeps_bind; [exact _|apply migrate_slot_keeps|]. intros x. keeps.
Qed.
Lemma MigrateKeysInSlot_keeps addr dest slot b t r : keeps_pool peer (MigrateKeysInSlot fuel addr dest slot b t r).
Proof. apply with_conn_keeps. intros c. apply migrate_slot_keeps. Qed.
Lemma FlushAndReset_keeps addr mode : keeps_pool peer (FlushAndReset fuel addr mode).
Proof. apply with_conn_keeps. intros c. keeps. Qed.
Lemma ResetPassword_keeps pw : keeps_pool peer (ResetPassword fuel pw).
Proof. unfold ResetPassword, at_turn. keeps. Qed.
End pool_ops.

(** ** Any sequence of operations *)

(** The operations of the interface, and of the pool. *)
Inductive admin_op :=
| OpGetClusterInfos
| OpClusterManagerNodeIsEmpty
| OpSetConfigEpoch
| OpSetConfigIfNeed (newConfig : gmap string string)
| OpAttachNodeToCluster (addr : string)
| OpAttachSlaveToMaster (slave : ptr) (masterID : string)
| OpDetachSlave (slave : ptr)
| OpForgetNode (id : string)
| OpSetSlots (addr action : string) (slots : list Slot) (nodeID : string)
| OpAddSlots (addr : string) (slots : list Slot)
| OpSetSlot (addr action : string) (slot : Slot) (nodeID : string)
| OpMigrateKeys (addr : string) (dest : Node) (slots : list Slot) (batch timeout : Z) (replace : bool)
| OpMigrateKeysInSlot (addr : string) (dest : Node) (slot : Slot) (batch timeout : Z) (replace : bool)
| OpFlushAndReset (addr mode : string)
| OpResetPassword (newPassword : string)
| OpRemove (addr : string)
| OpReplaceAll (addrs : list string)
| OpClose.

Section ops.
Context {C W : Type} `{MapRange} `{SortPkg} `{Growth} `{Radix C W}.
Abbreviation pool := (AdminConnections C * W)%type.
Variable fuel : nat.

(** An operation of [Admin], its result dropped. *)
Definition perform {A} (m : M (heap * pool) A) : M (heap * pool) () := m;; mret ().
Definition exec (o : admin_op) : M (heap * pool) () :=
  match o with
  | OpGetClusterInfos => perform (Admin_GetClusterInfos fuel)
  | OpClusterManagerNodeIsEmpty => perform (on_snd (ClusterManagerNodeIsEmpty fuel))
  | OpSetConfigEpoch => perform (on_snd (SetConfigEpoch fuel))
  | OpSetConfigIfNeed conf => perform (on_snd (SetConfigIfNeed fuel conf))
  | OpAttachNodeToCluster addr => perform (on_snd (AttachNodeToCluster fuel addr))
  | OpAttachSlaveToMaster p id => perform (AttachSlaveToMaster fuel p id)
  | OpDetachSlave p => perform (DetachSlave fuel p)
  | OpForgetNode id => perform (ForgetNode fuel id)
  | OpSetSlots addr action slots id => perform (on_snd (SetSlots fuel addr action slots id))
  | OpAddSlots addr slots => perform (on_snd (Admin_AddSlots fuel addr slots))
  | OpSetSlot addr action slot id => perform (on_snd (SetSlot fuel addr action slot id))
  | OpMigrateKeys addr dest slots b t r => perform (on_snd (MigrateKeys fuel addr dest slots b t r))
  | OpMigrateKeysInSlot addr dest slot b t r => perform (on_snd (MigrateKeysInSlot fuel addr dest slot b t r))
  | OpFlushAndReset addr mode => perform (on_snd (FlushAndReset fuel addr mode))
  | OpResetPassword pw => perform (on_snd (ResetPassword fuel pw))
  | OpRemove addr => perform (on_snd (Remove addr))
  | OpReplaceAll addrs => perform (on_snd (ReplaceAll fuel addrs))
  | OpClose => perform (on_snd Admin_Close)
  end.

Variable peer : C → string.
Hypothesis dial_peer : ∀ addr t w c w', radix_DialTimeout addr t w = Val ((c, None), w') → peer c = addr.

#[local] Hint Resolve command_keeps with_conn_keeps AttachNodeToCluster_keeps ValidateResp_keeps : keeps.
Lemma getInfos_keeps c addr : keeps_heap peer (getInfos fuel c addr).
Proof. unfold getInfos. keeps. Qed.
Lemma GetClusterInfos_keeps : keeps_heap peer (Admin_GetClusterInfos fuel).
Proof.
  unfold Admin_GetClusterInfos. apply keeps_bind; [exact _|auto with keeps|]. intros cnx.
  apply keeps_bind; [exact _| |intros acc; keeps].
  apply keeps_for_fold; [exact _|]. intros acc addr. unfold collect_infos. apply keeps_bind; [exact _|auto with keeps|].
  intros cnx'. destruct (clients cnx' !! addr); [|auto with keeps]. apply keeps_bind; [exact _|apply getInfos_keeps|].
  intros res. keeps.
Qed.
Lemma AttachSlave_keeps p id : keeps_heap peer (AttachSlaveToMaster fuel p id).
Proof.
  unfold AttachSlaveToMaster. apply keeps_bind; [exact _|auto with keeps|]. intros n.
  apply keeps_bind; [exact _| |intros e; keeps]. apply keeps_on_snd, with_conn_keeps; [done|].
  intros c. keeps.
Qed.
Lemma DetachSlave_keeps p : keeps_heap peer (DetachSlave fuel p).
Proof.
  unfold DetachSlave. apply keeps_bind; [exact _|auto with keeps|]. intros n.
  apply keeps_bind; [exact _| |intros e; keeps]. apply keeps_on_snd, with_conn_keeps; [done|].
  intros c. keeps.
Qed.
Lemma ForgetNode_keeps id : keeps_heap peer (ForgetNode fuel id).
Proof.
  unfold ForgetNode. apply keeps_bind; [exact _|apply GetClusterInfos_keeps|]. intros infos.
  apply keeps_bind; [exact _| |intros _; auto with keeps]. apply keeps_for_each; [exact _|]. intros [addr ni]. unfold forget_from.
  apply keeps_bind; [exact _|auto with keeps|]. intros n. case_decide; [auto with keeps|].
  apply keeps_bind; [exact _| |].
  - destruct (_ && _); [|auto with keeps]. apply keeps_bind; [exact _|apply DetachSlave_keeps|auto with keeps].
  - intros _. apply keeps_on_snd, with_conn_keeps; [done|]. intros c. keeps.
Qed.

Lemma exec_keeps o : keeps_heap peer (exec o).
Proof.
  destruct o; (apply keeps_bind; [exact _| |intros _; auto with keeps]);
    [apply GetClusterInfos_keeps|..|apply keeps_on_snd, Reset_keeps];
    try (apply keeps_on_snd).
  - by apply NodeIsEmpty_keeps.
  - by apply SetConfigEpoch_keeps.
  - by apply SetConfigIfNeed_keeps.
  - by apply AttachNodeToCluster_keeps.
  - apply AttachSlave_keeps.
  - apply DetachSlave_keeps.
  - apply ForgetNode_keeps.
  - by apply SetSlots_keeps.
  - by apply AddSlots_keeps.
  - by apply SetSlot_keeps.
  - by apply MigrateKeys_keeps.
  - by apply MigrateKeysInSlot_keeps.
  - by apply FlushAndReset_keeps.
  - by apply ResetPassword_keeps.
  - apply Remove_keeps.
  - by apply ReplaceAll_keeps.
Qed.

Lemma NewAdminConnections_ok read_file addrs options w :
  safe (NewAdminConnections fuel read_file addrs options) w (λ cnx _, pool_ok peer cnx).
Proof.
  intros cnx w' Heq. unfold NewAdminConnections in Heq.
  match type of Heq with context [AddAll fuel addrs (?c, w)] => set (cnx0 := c) in * end.
  destruct (AddAll fuel addrs (cnx0, w)) as [[[] [cnx1 w1]]| |] eqn:E; [|done..]. simpl in Heq. injection Heq as <- <-.
  apply (AddAll_keeps peer dial_peer fuel addrs (cnx0, w)) in E as (_ & _ & _ & _ & Hok). apply Hok.
  intros addr c. unfold cnx0. cbn. repeat case_match; cbn; by rewrite ?lookup_empty.
Qed.

(** C23: a command for an address goes to the server of that address.  In the pool of a
    new admin, and after any sequence of operations of the admin, failed or not and
    with all the reconnections they did, every connection registered for an address is
    a connection to that address and renames commands as the pool does; password,
    name, timeout and renaming of the pool never change. *)
Theorem pool_well_formed ops read_file addrs options h w :
  safe (NewAdminConnections fuel read_file addrs options) w (λ cnx w',
    safe (for_each ops exec) (h, (cnx, w')) (λ _ s',
      pool_ok peer s'.2.1 ∧ password s'.2.1 = password cnx ∧ clientName s'.2.1 = clientName cnx ∧
      connectionTimeout s'.2.1 = connectionTimeout cnx ∧ commandsMapping s'.2.1 = commandsMapping cnx)).
Proof.
  eapply safe_mono; [apply NewAdminConnections_ok|]. intros cnx w' Hok.
  eapply safe_mono; [apply (keeps_for_each (on_second (on_first (pool_step peer)))); intros o; apply exec_keeps|].
  intros [] s' (? & ? & ? & ? & Hs). split_and!; [by apply Hs|done..].
Qed.
End ops.
