(* ===== verification/KeyMigration.v ===== *)
(** The keys that [MigrateKeys] moves: what it relies on of the driver and of the Redis
    servers ([KeyServers]), servers that behave so, and that every key of the slots
    ends up on the destination.

    The operator marks a slot as migrating before it moves the keys, so that clients
    create no more keys in it on the source: between two commands of the loop the keys
    of the two servers change by these commands only. *)

From Stdlib Require Import ZArith Lia.
From S2P Require Import Prelude GoStrings Errors Slot Node ClusterInfo AdminInterface Utils Connections Admin.
From S2P Require Import AdminProofs.

Local Open Scope Z_scope.

(** The words of a command as sent for a pool with these renamed commands. *)
Definition renamed (renames : gmap string string) (cmd : string) : string :=
  match renames !! cmd with Some name => name | None => cmd end.

(** Keys by server and slot, of a world of servers whose commands are renamed by
    [renames].  A driver call returns; connecting, closing and authenticating touch no
    key; GETKEYSINSLOT gives at most as many keys of the slot as asked for, and as many
    as there are; MIGRATE without an error moves the named keys of the server. *)
Class KeyServers (C W : Type) `{Radix C W} (renames : gmap string string) := {
  peer : C → string;
  keys_in : W → string → Slot → list string;
  slot_of : string → Slot;
  keys_slot : ∀ w a s k, k ∈ keys_in w a s → slot_of k = s;
  keys_NoDup : ∀ w a s, NoDup (keys_in w a s);
  dial_law : ∀ addr t w, runs (radix_DialTimeout addr t) w (λ r w',
    (r.2 = None → peer r.1 = addr) ∧ keys_in w' = keys_in w);
  close_law : ∀ c w, runs (radix_Close c) w (λ _ w', keys_in w' = keys_in w);
  reply_law : ∀ c cmd args w, runs (radix_Cmd c cmd args) w (λ r _, is_Some r);
  auth_law : ∀ c pw w r w', radix_Cmd c "AUTH" [pw] w = Val (r, w') → keys_in w' = keys_in w;
  getkeys_law : ∀ c slot n w resp w',
    radix_Cmd c (renamed renames "CLUSTER") ["GETKEYSINSLOT"; Slot_String slot; FormatInt n] w = Val (Some resp, w') →
    resp_Err resp = None → 0 ≤ n < 2 ^ 63 → 0 ≤ slot ≤ max_uint64 →
    keys_in w' = keys_in w ∧ resp_List resp = inr (take (Z.to_nat n) (keys_in w (peer c) slot));
  migrate_law : ∀ c (cnx : AdminConnections C) dest t replace ks w resp w',
    radix_Cmd c (renamed renames "MIGRATE") (migrateCmdArgs cnx dest t replace ks) w = Val (Some resp, w') →
    resp_Err resp = None → peer c ≠ IPPort dest →
    (∀ s, keys_in w' (peer c) s = filter (λ k, k ∉ ks) (keys_in w (peer c) s)) ∧
    (∀ s k, k ∈ keys_in w' (IPPort dest) s ↔
       k ∈ keys_in w (IPPort dest) s ∨ k ∈ ks ∧ k ∈ keys_in w (peer c) s);
}.

Section migrate.
Context {C W : Type} `{MapRange} `{Radix C W} {renames : gmap string string} `{!KeyServers C W renames}.
Abbreviation pool := (AdminConnections C * W)%type.
Variable fuel : nat.
Hypothesis fuel_pos : fuel ≠ 0%nat.

Lemma dial_peer addr t (w : W) c w' : radix_DialTimeout addr t w = Val ((c, None), w') → peer c = addr.
Proof. intros Heq. destruct (dial_law addr t w) as (r & w1 & Hr & Hp & _). rewrite Hr in Heq. simplify_eq. by apply Hp. Qed.

Lemma NewClient_runs addr pw t m (w : W) :
  runs (NewClient addr pw t m) w (λ r w', keys_in w' = keys_in w).
Proof.
  apply runs_bind. eapply runs_mono; [apply dial_law|]. intros [c [e|]] w1 [_ Hk1]; cbn [fst snd].
  { by apply runs_ret. }
  case_decide; [by apply runs_ret|]. apply runs_bind.
  destruct (reply_law c "AUTH" [pw] w1) as (r & w2 & Hr & [resp ->]). exists (Some resp), w2. split; [done|].
  apply runs_ret. by rewrite (auth_law _ _ _ _ _ Hr).
Qed.

(** Without a client name, [connect] does not call itself. *)
Lemma connect_runs addr (s : pool) :
  clientName s.1 = "" → runs (connect fuel addr) s (λ r s',
    s'.1 = s.1 ∧ keys_in s'.2 = keys_in s.2 ∧
    ((∃ c, r = (Some c, None) ∧ client_ok peer s.1 addr c) ∨ ∃ err, r = (None, Some err))).
Proof.
  intros Hname. destruct s as [cnx w]. destruct fuel as [|n]; [done|]. cbn [connect].
  apply runs_bind, runs_ret. unfold Datatypes.id. cbn [fst] in *. apply runs_bind.
  destruct (NewClient_runs addr (password cnx) (connectionTimeout cnx) (commandsMapping cnx) w) as ([c e] & w1 & Hc & Hk).
  exists (c, e), (cnx, w1). split; [unfold on_snd; cbn [fst snd]; by rewrite Hc|].
  destruct e as [e|]; [by apply runs_ret; split_and!; [..|right; eexists]|].
  rewrite decide_True by done. apply runs_ret. split_and!; [done..|]. left. exists c. split; [done|].
  by apply (NewClient_peer peer dial_peer) in Hc.
Qed.

Lemma close_client_runs (c : RedisClient C) (s : pool) :
  runs (on_snd (client_Close c)) s (λ _ s', s'.1 = s.1 ∧ keys_in s'.2 = keys_in s.2).
Proof.
  destruct s as [cnx w]. destruct (close_law (rcl_client c) w) as (e & w1 & He & Hk). exists e, (cnx, w1).
  split; [|done]. unfold on_snd, client_Close. cbn [fst snd]. by rewrite He.
Qed.

Lemma handleError_runs addr err (s : pool) :
  clientName s.1 = "" → runs (handleError fuel addr err) s (λ _ _, True).
Proof.
  intros Hname. unfold handleError, handleError_over. destruct (is_network_error err); [|by apply runs_ret].
  apply runs_bind. eapply (runs_mono _ _ (λ _ _, True)); [|intros; by apply runs_ret].
  unfold Reconnect_over. apply runs_bind. eapply (runs_mono _ _ (λ _ s', clientName s'.1 = "")).
  { unfold Remove. apply runs_bind, runs_ret. unfold Datatypes.id. destruct (clients s.1 !! addr); [|by apply runs_ret].
    apply runs_bind. eapply runs_mono; [apply close_client_runs|]. intros _e s1 [Hs1 _]. apply runs_ret. cbn. by rewrite Hs1. }
  intros [] s1 Hname1. unfold Add_over, Update_over. apply runs_bind, runs_bind, runs_ret. unfold Datatypes.id. apply runs_bind.
  eapply (runs_mono _ _ (λ _ s', clientName s'.1 = "")).
  { destruct (clients s1.1 !! addr); [|by apply runs_ret]. apply runs_bind.
    eapply runs_mono; [apply close_client_runs|]. intros _e s2 [Hs2 _]. apply runs_ret. by rewrite Hs2. }
  intros [] s2 Hname2. apply runs_bind. eapply runs_mono; [by apply connect_runs|].
  intros r s3 (_ & _ & [(c & -> & _)|[err' ->]]); [|by apply runs_ret, runs_ret].
  apply runs_bind, runs_ret. by apply runs_ret, runs_ret.
Qed.

(** A command: the effect of the driver call when the reply is valid. *)
Lemma command_runs c addr cmd args msg (s : pool) :
  clientName s.1 = "" → runs (command fuel c addr cmd args msg) s (λ r s',
    match r with
    | inr resp => s'.1 = s.1 ∧ resp_Err resp = None ∧
        radix_Cmd (rcl_client c) (getCommand c cmd) args s.2 = Val (Some resp, s'.2)
    | inl _ => True
    end).
Proof.
  intros Hname. destruct s as [cnx w]. apply runs_bind.
  destruct (reply_law (rcl_client c) (getCommand c cmd) args w) as (r & w1 & Hr & [resp ->]).
  exists (Some resp), (cnx, w1). split; [unfold on_snd, client_Cmd; cbn [fst snd]; by rewrite Hr|].
  apply runs_bind. unfold ValidateResp, ValidateResp_over. destruct (resp_Err resp) as [err|] eqn:Ee.
  - apply runs_bind. eapply runs_mono; [by apply (handleError_runs addr err)|]. intros b s1 _. by apply runs_ret, runs_ret.
  - by apply runs_ret, runs_ret.
Qed.
Lemma elem_of_take_or_drop b (l : list string) k : k ∈ l ↔ k ∈ take b l ∨ k ∈ drop b l.
Proof. by rewrite <- elem_of_app, take_drop. Qed.

Lemma filter_not_taken (l : list string) b : NoDup l → filter (λ k, k ∉ take b l) l = drop b l.
Proof.
  intros Hnd. rewrite <- (take_drop b l) in Hnd. apply NoDup_app in Hnd as (_ & Hdis & _).
  transitivity (filter (λ k, k ∉ take b l) (take b l ++ drop b l)); [by rewrite take_drop|]. rewrite filter_app.
  assert (filter (λ k, k ∉ take b l) (take b l) = []) as ->.
  { apply list_filter_none. intros x Hx Hn. done. }
  apply list_filter_all. intros x Hx Hin. by apply (Hdis x).
Qed.

(** From the keys [K] of before to the keys [K'] of after, the keys of the slots went
    from one server to the other, and those of other slots stayed. *)
Definition moved (addr addr' : string) (slots : list Slot) (K K' : string → Slot → list string) : Prop :=
  (∀ slot, slot ∈ slots → K' addr slot = [] ∧ ∀ k, k ∈ K' addr' slot ↔ k ∈ K addr' slot ∨ k ∈ K addr slot) ∧
  (∀ slot, slot ∉ slots → K' addr slot = K addr slot ∧ ∀ k, k ∈ K' addr' slot ↔ k ∈ K addr' slot).

Lemma migrate_round (c : C) (cnx : AdminConnections C) dest t replace (slot : Slot) b (w : W) resp w' :
  radix_Cmd c (renamed renames "MIGRATE") (migrateCmdArgs cnx dest t replace (take b (keys_in w (peer c) slot))) w =
    Val (Some resp, w') →
  resp_Err resp = None → peer c ≠ IPPort dest →
  keys_in w' (peer c) slot = drop b (keys_in w (peer c) slot) ∧
  (∀ k, k ∈ keys_in w' (IPPort dest) slot ↔
     k ∈ keys_in w (IPPort dest) slot ∨ k ∈ take b (keys_in w (peer c) slot)) ∧
  ∀ s, s ≠ slot → keys_in w' (peer c) s = keys_in w (peer c) s ∧
    ∀ k, k ∈ keys_in w' (IPPort dest) s ↔ k ∈ keys_in w (IPPort dest) s.
Proof.
  intros Hm He Hne. destruct (migrate_law _ _ _ _ _ _ _ _ _ Hm He Hne) as [Hsrc Hdst].
  assert (∀ s k, k ∈ take b (keys_in w (peer c) slot) → k ∈ keys_in w (peer c) s → s = slot) as Hslot.
  { intros s k Hk Hs. apply keys_slot in Hs. assert (k ∈ keys_in w (peer c) slot) as Hk2%keys_slot; [|congruence].
    rewrite <- (take_drop b). apply elem_of_app. by left. }
  split_and!.
  - rewrite Hsrc. apply filter_not_taken, keys_NoDup.
  - intros k. rewrite Hdst. split; [tauto|]. intros [?|Hk]; [by left|]. right. split; [done|].
    rewrite <- (take_drop b). apply elem_of_app. by left.
  - intros s Hs. split.
    + rewrite Hsrc. apply list_filter_all. intros k Hk Hin. by apply Hs, (Hslot s k).
    + intros k. rewrite Hdst. split; [|tauto]. intros [?|[Hk Hin]]; [done|]. by destruct (Hs (Hslot s k Hk Hin)).
Qed.

Section loop.
Variables (c : RedisClient C) (addr : string) (dest : Node) (batch : Z) (timeoutStr : string) (replace : bool).
Hypothesis batch_ok : 1 ≤ batch < 2 ^ 63.
Hypothesis other_server : addr ≠ IPPort dest.

Lemma migrate_slot_runs n (slot : Slot) k (s : pool) :
  client_ok peer s.1 addr c → commandsMapping s.1 = renames → clientName s.1 = "" → 0 ≤ slot ≤ max_uint64 →
  (length (keys_in s.2 addr slot) < n)%nat →
  runs (migrate_slot fuel n c addr dest slot (FormatInt batch) timeoutStr replace k) s (λ r s',
    r.2 = None → s'.1 = s.1 ∧ moved addr (IPPort dest) [slot] (keys_in s.2) (keys_in s'.2) ∧
      r.1 = k + Z.of_nat (length (keys_in s.2 addr slot))).
Proof.
  intros [Hpeer Hmap] Hren Hname Hslot. revert k s Hmap Hren Hname. subst addr.
  induction n as [|n IH]; intros k s Hmap Hren Hname Hlen; [lia|]. cbn [migrate_slot].
  assert (∀ cmd, ToUpper cmd = cmd → getCommand c cmd = renamed renames cmd) as Hcmd.
  { intros cmd Hup. unfold getCommand, renamed. by rewrite Hup, Hmap, Hren. }
  apply runs_bind. eapply runs_mono; [by apply (command_runs c)|]. intros [err|resp] s1; [by intros; apply runs_ret|].
  intros (Hs1 & He & Hr). rewrite Hcmd in Hr by done.
  destruct (getkeys_law _ _ _ _ _ _ Hr He ltac:(lia) Hslot) as [Hk1 ->].
  destruct (take (Z.to_nat batch) (keys_in s.2 (peer (rcl_client c)) slot)) as [|k0 ks] eqn:Et.
  { apply runs_ret. intros _. assert (keys_in s.2 (peer (rcl_client c)) slot = []) as Hnil.
    { destruct (keys_in s.2 _ slot) as [|x l]; [done|]. destruct (Z.to_nat batch) eqn:E; [lia|done]. }
    rewrite Hk1, Hnil. split_and!; [done| |simpl; lia]. split; [|done].
    intros s0 ->%list_elem_of_singleton. rewrite Hnil. split; [done|]. intros k'. rewrite elem_of_nil. tauto. }
  apply runs_bind, runs_ret. unfold Datatypes.id. apply runs_bind.
  eapply runs_mono; [apply (command_runs c); by rewrite Hs1|]. intros [err|resp2] s2; [by intros; apply runs_ret|].
  intros (Hs2 & He2 & Hr2). rewrite Hcmd, <- Et, <- Hk1 in Hr2 by done.
  apply migrate_round in Hr2 as (Hsrc & Hdst & Hoth); [|done|done]. rewrite Hk1 in Hsrc, Hdst, Hoth.
  pose proof (f_equal length Et) as Hkl. rewrite length_take in Hkl. cbn [length] in Hkl.
  eapply runs_mono; [apply IH; try (rewrite Hs2, Hs1; done)|].
  { rewrite Hsrc, length_drop. lia. }
  intros r s3 Hpost Hnone. destruct (Hpost Hnone) as (Hs3 & [Hin Hout] & Hcount).
  split_and!; [congruence| |rewrite Hcount, Hsrc, length_drop; cbn [length]; lia].
  split.
  - intros s0 ->%list_elem_of_singleton. destruct (Hin slot) as [H1 H2]; [by apply list_elem_of_singleton|].
    split; [done|]. intros k'. rewrite H2, Hdst, Hsrc, (elem_of_take_or_drop (Z.to_nat batch) (keys_in s.2 (peer (rcl_client c)) slot)). tauto.
  - intros s0 Hs0. destruct (Hout s0 Hs0) as [-> H2]. rewrite list_elem_of_singleton in Hs0.
    destruct (Hoth s0 Hs0) as [-> H3]. split; [done|]. intros k'. by rewrite H2, H3.
Qed.

Lemma moved_nil K : moved addr (IPPort dest) [] K K.
Proof. split; [by intros slot ?%elem_of_nil|done]. Qed.
Lemma moved_cons slot slots K K1 K2 :
  slot ∉ slots → moved addr (IPPort dest) [slot] K K1 → moved addr (IPPort dest) slots K1 K2 →
  moved addr (IPPort dest) (slot :: slots) K K2.
Proof.
  intros Hn [Hin1 Hout1] [Hin2 Hout2]. split.
  - intros s [->|Hs]%elem_of_cons.
    + destruct (Hin1 slot) as [H1 H2]; [by left|]. destruct (Hout2 slot Hn) as [H3 H4].
      split; [by rewrite H3|]. intros k. by rewrite H4, H2.
    + destruct (Hin2 s Hs) as [H1 H2]. destruct (Hout1 s) as [H3 H4]; [rewrite list_elem_of_singleton; by intros ->|].
      split; [done|]. intros k. by rewrite H2, H3, H4.
  - intros s Hs. rewrite not_elem_of_cons in Hs. destruct Hs as [Hs1 Hs2].
    destruct (Hout2 s Hs2) as [H1 H2]. destruct (Hout1 s) as [H3 H4]; [by rewrite list_elem_of_singleton|].
    split; [by rewrite H1|]. intros k. by rewrite H2, H4.
Qed.

Definition count_keys (K : string → Slot → list string) (slots : list Slot) : Z :=
  Z.of_nat (sum_list ((λ slot, length (K addr slot)) <$> slots)).

Lemma migrate_slots_runs slots k (s : pool) :
  client_ok peer s.1 addr c → commandsMapping s.1 = renames → clientName s.1 = "" → NoDup slots →
  (∀ slot, slot ∈ slots → 0 ≤ slot ≤ max_uint64 ∧ (length (keys_in s.2 addr slot) < fuel)%nat) →
  runs (migrate_slots fuel c addr dest slots (FormatInt batch) timeoutStr replace k) s (λ r s',
    r.2 = None → s'.1 = s.1 ∧ moved addr (IPPort dest) slots (keys_in s.2) (keys_in s'.2) ∧
      r.1 = k + count_keys (keys_in s.2) slots).
Proof.
  revert k s. induction slots as [|slot slots IH]; intros k s Hc Hren Hname Hnd Hslots; cbn [migrate_slots].
  { apply runs_ret. intros _. split_and!; [done|apply moved_nil|unfold count_keys; simpl; lia]. }
  apply NoDup_cons in Hnd as [Hn Hnd]. destruct (Hslots slot) as [Hr Hl]; [by left|].
  apply runs_bind. eapply runs_mono; [by apply migrate_slot_runs|]. intros [k1 [err|]] s1 Hpost; [by apply runs_ret|].
  specialize (Hpost eq_refl). cbn [fst] in Hpost. destruct Hpost as (Hs1 & Hmoved & ->). pose proof Hmoved as [_ Hout].
  assert (∀ s0, s0 ∈ slots → keys_in s1.2 addr s0 = keys_in s.2 addr s0) as Hk.
  { intros s0 Hs0. apply Hout. rewrite list_elem_of_singleton. by intros ->. }
  eapply runs_mono; [apply IH; rewrite ?Hs1; [done..|]|].
  { intros s0 Hs0. rewrite Hk by done. apply Hslots. by right. }
  intros r s2 Hpost2 Hnone. destruct (Hpost2 Hnone) as (Hs2 & Hmoved2 & Hcount).
  split_and!; [congruence|by eapply moved_cons|]. rewrite Hcount. unfold count_keys. rewrite fmap_cons.
  assert (((λ s0, length (keys_in s1.2 addr s0)) <$> slots) = (λ s0, length (keys_in s.2 addr s0)) <$> slots) as ->.
  { apply list_fmap_ext. intros i s0 Hs0%list_elem_of_lookup_2. by rewrite Hk. }
  cbn [sum_list sum_list_with fst]. change (sum_list_with Datatypes.id ?l) with (sum_list l).
  unfold Datatypes.id. lia.
Qed.
End loop.

(** [Get] in a well-formed pool gives a connection to the address. *)
Lemma Get_runs addr (s : pool) :
  pool_ok peer s.1 → clientName s.1 = "" → runs (Get fuel addr) s (λ r s',
    keys_in s'.2 = keys_in s.2 ∧ pool_step peer s.1 s'.1 ∧
    ((∃ c, r = (Some c, None) ∧ client_ok peer s'.1 addr c) ∨ ∃ err, r = (None, Some err))).
Proof.
  intros Hok Hname. unfold Get, Get_over. apply runs_bind, runs_ret. unfold Datatypes.id.
  destruct (clients s.1 !! addr) as [c|] eqn:E.
  { apply runs_ret. split_and!; [done|done|left; exists c; by split; [|apply Hok]]. }
  apply runs_bind. eapply runs_mono; [by apply connect_runs|]. intros r s1 (Hs1 & Hk & [(c & -> & Hc)|[err ->]]).
  - apply runs_bind, runs_ret, runs_ret. cbn [fst snd]. split_and!; [done| |left; exists c; by rewrite Hs1].
    rewrite Hs1. by apply pool_step_insert.
  - apply runs_ret. rewrite Hs1. split_and!; [done|done|by right; eexists].
Qed.

(** C16: migrating the keys of some slots from one server to another terminates, and when
    it reports no error then no key of the slots is left on the source, each is on the
    destination with what was there before, the keys of all other slots are where they
    were, and the count is the number of keys moved.  One round per key and one more
    is fuel enough, whatever the batch size. *)
Theorem MigrateKeys_moves_all addr dest slots batch timeout replace (s : pool) :
  pool_ok peer s.1 → commandsMapping s.1 = renames → clientName s.1 = "" →
  addr ≠ IPPort dest → 1 ≤ batch < 2 ^ 63 → NoDup slots →
  (∀ slot, slot ∈ slots → 0 ≤ slot ≤ max_uint64 ∧ (length (keys_in s.2 addr slot) < fuel)%nat) →
  runs (MigrateKeys fuel addr dest slots batch timeout replace) s (λ r s',
    r.2 = None →
    moved addr (IPPort dest) slots (keys_in s.2) (keys_in s'.2) ∧
    r.1 = Z.of_nat (sum_list ((λ slot, length (keys_in s.2 addr slot)) <$> slots))).
Proof.
  intros Hok Hren Hname Hne Hbatch Hnd Hslots. unfold MigrateKeys. destruct slots as [|s0 slots].
  { apply runs_ret. intros _. split; [apply moved_nil|done]. }
  set (l := s0 :: slots) in *. apply runs_bind. eapply runs_mono; [by apply Get_runs|].
  intros r s1 (Hk & (_ & Hm & Hn & _) & [(c & -> & Hc)|[err ->]]); [|by apply runs_ret].
  eapply runs_mono; [apply migrate_slots_runs; [done|done|done|congruence|congruence|done|by rewrite Hk]|].
  intros r s2 Hpost Hnone. destruct (Hpost Hnone) as (_ & Hmoved & Hcount). rewrite Hk in Hmoved, Hcount.
  split; [done|]. by rewrite Hcount.
Qed.
End migrate.

(** ** Servers that behave so

    A connection is an address; the world is the keys of each server, where the slot of
    a key is its length. *)

Abbreviation toy_world := (gmap string (list string)).
Definition toy_keys (w : toy_world) (addr : string) (slot : Slot) : list string :=
  filter (λ k, Z.of_nat (String.length k) = slot) (remove_dups (default [] (w !! addr))).

(** The destination and the keys of a MIGRATE command. *)
Definition parse_migrate_rest (rest : list string) : list string :=
  let rest := match rest with "AUTH" :: _ :: r => r | _ => rest end in
  let rest := match rest with "REPLACE" :: r => r | _ => rest end in
  match rest with "KEYS" :: ks => ks | _ => [] end.
Definition toy_move (w : toy_world) (src dst : string) (ks : list string) : toy_world :=
  let keys := default [] (w !! src) in
  if decide (src = dst) then w
  else <[dst := default [] (w !! dst) ++ filter (λ k, k ∈ ks) keys]> (<[src := filter (λ k, k ∉ ks) keys]> w).

Definition toy_reply (keys : list string) : option Resp := Some (mkResp None (inr "OK") (inr keys) (inr ∅)).
Definition toy_Cmd (c cmd : string) (args : list string) : M toy_world (option Resp) := λ w,
  if decide (cmd = "CLUSTER") then
    match args with
    | [sub; slot; n] =>
        Val (toy_reply (take (Z.to_nat (ParseInt n).1) (toy_keys w c (ParseUint slot).1)), w)
    | _ => Val (toy_reply [], w)
    end
  else if decide (cmd = "MIGRATE") then
    match args with
    | host :: port :: _ :: _ :: _ :: rest =>
        Val (toy_reply [], toy_move w c (JoinHostPort host port) (parse_migrate_rest rest))
    | _ => Val (toy_reply [], w)
    end
  else Val (toy_reply [], w).
Definition toy_radix : Radix string toy_world := {|
  radix_DialTimeout addr t := mret (addr, None);
  radix_Cmd := toy_Cmd;
  radix_Close c := mret None;
  radix_PipeAppend c cmd args := mret ();
  radix_PipeResp c := mret (Some (mkResp (Some (ErrText "pipeline queue empty")) (inr "") (inr []) (inr ∅)));
  radix_PipeClear c := mret (0, 0);
  ErrPipelineEmpty err := match err with ErrText _ => true | _ => false end;
  rand_Intn n := mret 0;
|}.

Lemma remove_dups_filter (P : string → Prop) `{!∀ x, Decision (P x)} (l : list string) :
  remove_dups (filter P l) = filter P (remove_dups l).
Proof.
  induction l as [|x l IH]; [done|]. rewrite filter_cons. cbn [remove_dups].
  destruct (decide (P x)) as [Hx|Hx]; cbn [remove_dups].
  - destruct (decide_rel _ x (filter P l)) as [Hin|Hin], (decide_rel _ x l) as [Hin'|Hin'];
      rewrite list_elem_of_filter in Hin; [done|tauto|tauto|]. by rewrite filter_cons_True, IH.
  - destruct (decide_rel _ x l); [done|]. by rewrite filter_cons_False.
Qed.

Lemma toy_move_src w src dst ks s :
  src ≠ dst → toy_keys (toy_move w src dst ks) src s = filter (λ k, k ∉ ks) (toy_keys w src s).
Proof.
  intros Hne. unfold toy_move, toy_keys. rewrite decide_False by done.
  rewrite (lookup_insert_ne _ dst src), lookup_insert_eq by done. cbn [default from_option Datatypes.id].
  rewrite remove_dups_filter, !list_filter_filter. apply list_filter_iff. tauto.
Qed.
Lemma toy_move_dst w src dst ks s k :
  src ≠ dst → k ∈ toy_keys (toy_move w src dst ks) dst s ↔
    k ∈ toy_keys w dst s ∨ k ∈ ks ∧ k ∈ toy_keys w src s.
Proof.
  intros Hne. unfold toy_move, toy_keys. rewrite decide_False by done. rewrite lookup_insert_eq.
  cbn [default from_option Datatypes.id]. rewrite !list_elem_of_filter, !elem_of_remove_dups, elem_of_app, list_elem_of_filter.
  tauto.
Qed.

Lemma parse_migrate_args (cnx : AdminConnections string) dest t replace ks :
  ∃ rest, migrateCmdArgs cnx dest t replace ks = IP dest :: Port dest :: "" :: "0" :: t :: rest ∧
    parse_migrate_rest rest = ks.
Proof.
  unfold migrateCmdArgs, GetAUTH. destruct (decide _), replace; eexists; (split; [reflexivity|reflexivity]).
Qed.

Definition toy_servers : @KeyServers string toy_world toy_radix ∅.
Proof.
  unshelve refine {| peer c := c; keys_in w := toy_keys w; slot_of k := Z.of_nat (String.length k) |};
    cbn [toy_radix radix_DialTimeout radix_Close radix_Cmd].
  - intros w a s k [Hk _]%list_elem_of_filter. exact Hk.
  - intros w a s. apply NoDup_filter, NoDup_remove_dups.
  - intros addr t w. by apply runs_ret.
  - intros c w. by apply runs_ret.
  - intros c cmd args w. unfold runs, toy_Cmd. repeat case_match; by eexists _, _.
  - intros c pw w r w' Hr. unfold toy_Cmd in Hr. simpl in Hr. by simplify_eq.
  - intros c slot n w resp w' Hr _ Hn Hs. unfold toy_Cmd in Hr. rewrite decide_True in Hr by done.
    unfold Slot_String in Hr. rewrite ParseUint_FormatUint, ParseInt_FormatInt in Hr by lia.
    cbn [fst] in Hr. unfold toy_reply in Hr. by injection Hr as <- <-.
  - intros c cnx dest t replace ks w resp w' Hr _ Hne. unfold toy_Cmd in Hr.
    rewrite decide_False, decide_True in Hr by done.
    destruct (parse_migrate_args cnx dest t replace ks) as (rest & Hargs & Hks). rewrite Hargs, Hks in Hr.
    injection Hr as _ <-. change (JoinHostPort (IP dest) (Port dest)) with (IPPort dest).
    split; [intros s; by apply toy_move_src|intros s k; by apply toy_move_dst].
Defined.

(** Three keys in two slots, two at a time. *)
Lemma MigrateKeys_moves_all_witness :
  let dest := NewDefaultNode <| IP := "10.0.0.2" |> in
  let pool := mkAdminConnections ({[ "10.0.0.1:6379" := mkRedisClient ∅ "10.0.0.1:6379" ]}
                : gmap string (RedisClient string)) 0 ∅ "" "" in
  let w : toy_world := {[ "10.0.0.1:6379" := ["a"; "b"; "cc"; "ddd"] ]} in
  @runs (AdminConnections string * toy_world) (Z * option error)
    (@MigrateKeys string toy_world toy_radix 10 "10.0.0.1:6379" dest [1; 2] 2 5000 true)
    (pool, w) (λ r s', r.2 = None → r.1 = 3 ∧ toy_keys s'.2 "10.0.0.1:6379" 1 = []).
Proof.
  intros dest pool w. eapply runs_mono.
  - apply (@MigrateKeys_moves_all string toy_world toy_radix ∅ toy_servers 10 ltac:(discriminate)
      "10.0.0.1:6379" dest [1; 2] 2 5000 true (pool, w)).
    + intros addr c Hc. unfold pool in Hc. cbn [fst clients] in Hc. apply lookup_singleton_Some in Hc as [<- <-]. split; reflexivity.
    + reflexivity.
    + reflexivity.
    + vm_compute. discriminate.
    + lia.
    + apply (bool_decide_unpack _). by vm_compute.
    + intros slot [->|[->|?%elem_of_nil]%elem_of_cons]%elem_of_cons; [| |done];
        (split; [split; discriminate|vm_compute; lia]).
  - intros r s' Hpost Hnone. destruct (Hpost Hnone) as [[Hin _] Hcount]. split; [rewrite Hcount; vm_compute; reflexivity|].
    apply (Hin 1). by left.
Defined.

Lemma pool_well_formed_witness :
  @safe toy_world (AdminConnections string)
    (@NewAdminConnections string toy_world toy_radix 3 (λ _, None) ["10.0.0.1:6379"] None) ∅ (λ cnx w',
      safe (for_each [OpRemove "10.0.0.1:6379"; OpReplaceAll ["10.0.0.2:6379"]]
              (@exec string toy_world range_default sort_default growth_double toy_radix 3)) (∅, (cnx, w'))
        (λ _ s', pool_ok (λ c, c) s'.2.1)).
Proof.
  eapply safe_mono.
  - apply (@pool_well_formed string toy_world range_default sort_default growth_double toy_radix 3 (λ c, c)).
    intros addr t w c w' Hd. by injection Hd as <- _.
  - intros cnx w' Hs. eapply safe_mono; [exact Hs|]. by intros [] s' [Hok _].
Defined.

(** ** How deep [connect] goes *)

Section depth.
Context {C W : Type} `{Radix C W}.
Abbreviation pool := (AdminConnections C * W)%type.

(** A driver that connects, and whose CLIENT SETNAME times out. *)
Definition setname_times_out : Prop :=
  (∀ addr t w, ∃ c w', radix_DialTimeout addr t w = Val ((c, None), w')) ∧
  (∀ c w, ∃ e w', radix_Close c w = Val (e, w')) ∧
  (∀ c cmd name w, ∃ resp msg w', radix_Cmd c cmd ["SETNAME"; name] w = Val (Some resp, w') ∧
     resp_Err resp = Some (NetTimeout msg)).

Lemma bind_Diverges {S A B} (m : M S A) (k : A → M S B) s : m s = Diverges → (m ≫= k) s = Diverges.
Proof. intros Hm. unfold mbind, M_bind. by rewrite Hm. Qed.

Lemma connect_diverges :
  setname_times_out → ∀ n addr (s : pool), clientName s.1 ≠ "" → password s.1 = "" → connect n addr s = Diverges.
Proof.
  intros (Hdial & Hclose & Hcmd). induction n as [|n IH]; intros addr [cnx w] Hname Hpw; [done|]. cbn [fst] in *.
  cbn [connect]. unfold mbind at 1, M_bind at 1, gets. cbn [go_bind fst snd].
  destruct (Hdial addr (connectionTimeout cnx) w) as (c & w1 & Hd).
  erewrite bind_Val; [|unfold on_snd, NewClient; cbn [fst snd]; erewrite bind_Val by exact Hd; cbn [fst snd];
    rewrite decide_True by done; reflexivity].
  cbn [fst snd]. rewrite decide_False by done.
  set (cl := mkRedisClient (commandsMapping cnx) c).
  destruct (Hcmd c (getCommand cl "CLIENT") (clientName cnx) w1) as (resp & msg & w2 & Hr & He).
  erewrite bind_Val; [|unfold on_snd, client_Cmd; cbn [fst snd rcl_client cl]; rewrite Hr; reflexivity].
  cbn [fst snd]. unfold ValidateResp_over. rewrite He. unfold handleError_over. cbn [is_network_error].
  assert (∃ cnx' w', Remove addr (cnx, w2) = Val ((), (cnx', w')) ∧ clientName cnx' = clientName cnx ∧
    password cnx' = password cnx ∧ clients cnx' !! addr = None) as (cnx' & w3 & Hrem & Hn' & Hp' & Hnone).
  { unfold Remove. unfold mbind at 1, M_bind at 1, gets. cbn [go_bind fst snd].
    destruct (clients cnx !! addr) as [old|] eqn:E; [|by exists cnx, w2].
    destruct (Hclose (rcl_client old) w2) as (e & w3 & Hcl).
    erewrite bind_Val; [|unfold on_snd, client_Close; cbn [fst snd]; rewrite Hcl; reflexivity].
    eexists _, w3. split; [reflexivity|]. cbn. by rewrite lookup_delete_eq. }
  do 3 apply bind_Diverges. unfold Reconnect_over. erewrite bind_Val by exact Hrem. cbn [fst snd].
  apply bind_Diverges. unfold Update_over. erewrite bind_Val by reflexivity. cbn [fst snd]. rewrite Hnone.
  erewrite bind_Val by reflexivity. apply bind_Diverges. apply IH; cbn; congruence.
Qed.

(** C37: connecting ends without calling itself in a pool without a client name, as the
    operator creates them.  With a client name the reply to CLIENT SETNAME is validated,
    and validating a time-out reconnects to the same address: against a server that
    accepts connections and lets that command time out, connecting never ends. *)
Theorem connect_depth n addr (s : pool) :
  (clientName s.1 = "" → connect (S n) addr s = connect 1 addr s) ∧
  (setname_times_out → clientName s.1 ≠ "" → password s.1 = "" → connect n addr s = Diverges).
Proof.
  split; [|intros; by apply connect_diverges]. intros Hname. cbn [connect].
  rewrite !(bind_Val (gets fst) _ s (s.1) s) by reflexivity.
  destruct (on_snd (NewClient addr (password s.1) (connectionTimeout s.1) (commandsMapping s.1)) s)
    as [[[c [e|]] s1]| |] eqn:E; unfold mbind, M_bind; rewrite E; cbn [go_bind fst snd]; [done| |done..].
  by rewrite !decide_True.
Qed.
End depth.

(** A driver whose every command times out. *)
Definition silent_radix : Radix string () := {|
  radix_DialTimeout addr t := mret (addr, None);
  radix_Cmd c cmd args := mret (Some (mkResp (Some (NetTimeout "i/o timeout")) (inr "") (inr []) (inr ∅)));
  radix_Close c := mret None;
  radix_PipeAppend c cmd args := mret ();
  radix_PipeResp c := mret None;
  radix_PipeClear c := mret (0, 0);
  ErrPipelineEmpty err := false;
  rand_Intn n := mret 0;
|}.

Lemma connect_depth_witness :
  let pool name : AdminConnections string := mkAdminConnections ∅ 0 ∅ name "" in
  @connect string () silent_radix 7 "10.0.0.1:6379" (pool "", ()) =
    Val ((Some (mkRedisClient ∅ "10.0.0.1:6379"), None), (pool "", ())) ∧
  ∀ n, @connect string () silent_radix n "10.0.0.1:6379" (pool "operator", ()) = Diverges.
Proof.
  intros pool. split.
  - rewrite (proj1 (@connect_depth string () silent_radix 6 "10.0.0.1:6379" (pool "", ())) eq_refl). reflexivity.
  - intros n. apply (@connect_depth string () silent_radix n "10.0.0.1:6379" (pool "operator", ())).
    + split_and!; [intros addr t []; by exists addr, ()|intros c []; by exists None, ()|].
      intros c cmd name []. eexists _, "i/o timeout", (). split; reflexivity.
    + discriminate.
    + reflexivity.
Defined.
