(* ===== verification/Sync.v ===== *)
(** [pkg/controller/distributedrediscluster/sync_handler.go] and [pkg/exec/exec.go]: the
    stages of a reconciliation: the objects of the cluster, its password, its pods, the
    joining of its nodes, and the operation on its masters and slaves.

    The cluster resource is a pointer the stages write through: it is an argument and a
    result.  A stage returns it with an error.  The world has the Kubernetes client, the
    Redis admin of the reconciliation, and what [ControllerEnv] names. *)

From Stdlib Require Import ZArith Lia.
From S2P Require Import Prelude GoStrings Errors Slot Node ClusterInfo AdminInterface Clustering Migration Rebalance.
From S2P Require Import Kube Utils Api Client Heal Resources Ensurer Connections Status.

Local Open Scope Z_scope.

(** The rest of the world: creating the admin of the pods ([redisutil.NewAdmin]), the
    remote execution of a command in a container (standard output, standard error,
    error), sleeping, the clock, and what the timers of [waiting] deliver for a
    timeout; [env_format_time] is [time.Time.Format]. *)
Class ControllerEnv (W : Type) := {
  env_NewAdmin : list string → AdminOptions → M W ();
  env_execute : string → string → string → list string → M W (string * string * option error);
  env_Sleep : Z → M W ();
  env_now : W → Z;
  env_events : Z → W → list (select_event W);
  env_format_time : Z → string;
}.

(** Go on with a stage when the one before gave no error. *)
Definition and_then {S A} (m : M S (A * option error)) (k : A → M S (A * option error)) : M S (A * option error) :=
  r ← m; match r.2 with Some _ => mret r | None => k r.1 end.
(** The error of a call, wrapped, with the unchanged state of the stage. *)
Definition stage {S A} (a : A) (wrap : error → error) (m : M S (option error)) : M S (A * option error) :=
  e ← m; mret (a, wrap <$> e).

(** ** exec/exec.go *)

Section exec.
Context {W : Type} `{ControllerEnv W}.

(** [ExecOptions] with the two captures on; [ExecWithOptions] trims unless told not to. *)
Definition ExecWithOptions (namespace podName containerName : string) (command : list string)
    (preserveWhitespace : bool) : M W (string * string * option error) :=
  r ← env_execute namespace podName containerName command;
  mret (if preserveWhitespace then r else (TrimSpace r.1.1, TrimSpace r.1.2, r.2)).
Definition ExecCommandInContainerWithFullOutput (namespace podName containerName : string) (cmd : list string)
    : M W (string * string * option error) :=
  ExecWithOptions namespace podName containerName cmd false.
Definition ExecCommandInContainer (namespace podName containerName : string) (cmd : list string)
    : M W (string * option error) :=
  r ← ExecCommandInContainerWithFullOutput namespace podName containerName cmd; mret (r.1.1, r.2).
(** A pod without a container is dereferenced. *)
Definition ExecCommandInPodSet (podSet : list Pod) (cmd : list string) : M W (option error) :=
  for_err podSet (λ pod,
    match ps_Containers (pod_spec pod) with
    | [] => panic
    | c :: _ =>
        r ← ExecCommandInContainer (om_Namespace (pod_meta pod)) (om_Name (pod_meta pod)) (c_Name c) cmd;
        mret r.2
    end).
End exec.

(** ** sync_handler.go *)

Definition requeueAfter : Z := 10 * 10 ^ 9.
Definition second : Z := 10 ^ 9.

Section sync.
Context `{MapRange} `{SortPkg} `{K8sApi} `{ObjectStore} `{KubeErrors}.
Context {W : Type} `{Client W} `{IAdmin W} `{ControllerEnv W}.
(** The content of the file of renamed commands, and [config.RedisConf()]. *)
Variable rename_file : option string.
Variable redisConf : RedisConfig.
Implicit Types (cluster : DistributedRedisCluster).

(** [waiting] with the timers of the world. *)
Definition wait_for (name : string) (timeout : Z) (handler : M W (option error)) : M W (option error) :=
  events ← gets (env_events timeout); waiting name handler events.

(** [newRedisAdmin] *)
Definition newRedisAdmin (pods : list Pod) (password : string) : M W () :=
  env_NewAdmin (admin_addr <$> pods)
    (mkAdminOptions (s64 (DialTimeout redisConf * 10 ^ 6)) "" (GetRenameCommandsFile redisConf) password).

(** [initRestore]: also whether the resource is to be written.  Without a backup source,
    or with a backup the server did not return, it dereferences nil. *)
Definition restore_spec cluster : M W (DistributedRedisCluster * bool * option error) :=
  match Backup (Restore cluster) with
  | None => panic
  | Some backup =>
      let '(cluster, update) :=
        if decide (Image (Spec cluster) = "")
        then (cluster <| Spec := (Spec cluster) <| Image := b_ClusterImage (b_Status backup) |> |>, true)
        else (cluster, false) in
      let '(cluster, update) :=
        if decide (MasterSize (Spec cluster) ≠ b_MasterSize (b_Status backup))
        then (cluster <| Spec := (Spec cluster) <| MasterSize := b_MasterSize (b_Status backup) |> |>, true)
        else (cluster, update) in
      mret (cluster, update, None)
  end.
Definition initRestore cluster : M W (DistributedRedisCluster * bool * option error) :=
  match Backup (Restore cluster) with
  | Some _ => restore_spec cluster
  | None =>
      match Init (Spec cluster) ≫= BackupSource with
      | None => panic
      | Some source =>
          r ← GetRedisClusterBackup (bs_Namespace source) (bs_Name source);
          match r with
          | inl err => mret (cluster, false, Some err)
          | inr backup =>
              if decide (b_Phase (b_Status backup) ≠ BackupPhaseSucceeded)
              then mret (cluster, false, Some (ErrText "backup is still running"))
              else
                r ← UpdateCRStatus (cluster <| drc_Status := (drc_Status cluster)
                      <| ds_Restore := mkRestore RestorePhaseRunning (Some backup) |> |>);
                match r with
                | (cluster, Some err) => mret (cluster, false, Some err)
                | (cluster, None) => restore_spec cluster
                end
          end
      end
  end.

(** [validateAndSetDefault] *)
Definition validateAndSetDefault cluster : M W (DistributedRedisCluster * option error) :=
  r ← (if IsRestoreFromBackup cluster && ShouldInitRestorePhase cluster then initRestore cluster
       else mret (cluster, false, None));
  match r with
  | (cluster, _, Some err) => mret (cluster, Some err)
  | (cluster, update, None) =>
      let cluster :=
        if IsRestoreFromBackup cluster && (IsRestoreRunning cluster || IsRestoreRestarting cluster)
        then cluster <| Spec := (Spec cluster) <| ClusterReplicas := 0 |> |> else cluster in
      let '(cluster, updateDefault) := DefaultSpec cluster in
      if update || updateDefault then UpdateCR cluster else mret (cluster, None)
  end.

(** [dbLoadedFromDiskWhenRestore] *)
Definition dbLoadedFromDiskWhenRestore cluster : DistributedRedisCluster :=
  if IsRestoreFromBackup cluster && negb (IsRestored cluster) then
    match Config (Spec cluster) with
    | Some config => cluster <| Spec := (Spec cluster) <| Config := Some (<["appendonly" := "no"]> config) |> |>
    | None => cluster
    end
  else cluster.

(** The part of [resetClusterPassword] with the admin of the old password. *)
Definition set_password (podSet : list Pod) (oldPassword newPassword : string) : M W (option error) :=
  newRedisAdmin podSet oldPassword;;
  err ← ExecCommandInPodSet podSet ["/bin/sh"; "-c"; "echo " +:+ newPassword +:+ " > /data/redis_password"];
  err ← match err with
        | Some err => mret (Some err)
        | None => admin_ResetPassword newPassword
        end;
  admin_Close;;
  mret err.
(** [resetClusterPassword] *)
Definition resetClusterPassword cluster : M W (DistributedRedisCluster * option error) :=
  err ← CheckRedisNodeNum cluster;
  match err with
  | Some _ => mret (cluster, None)
  | None =>
      r ← GetStatefulSet (drc_Namespace cluster) (ClusterStatefulSetName (drc_Name cluster) 0);
      match r with
      | inl err => mret (cluster, Some err)
      | inr sts =>
          changed ← pure (IsPasswordChanged cluster sts);
          if negb changed then mret (cluster, None)
          else
            r ← UpdateCRStatus (cluster <| drc_Status :=
                  SetClusterResetPassword (drc_Status cluster) "updating cluster's password" |>);
            let cluster := (r : DistributedRedisCluster * option error).1 in
            pods ← GetStatefulSetPodsByLabels (drc_Namespace cluster) (getLabels cluster);
            match pods with
            | inl err => mret (cluster, Some err)
            | inr pods =>
                old ← GetOldRedisClusterPassword sts;
                match old with
                | inl err => mret (cluster, Some err)
                | inr oldPassword =>
                    new ← GetClusterPassword cluster;
                    match new with
                    | inl err => mret (cluster, Some err)
                    | inr newPassword =>
                        err ← set_password (clusterPods pods) oldPassword newPassword;
                        mret (cluster, err)
                    end
                end
            end
      end
  end.

(** What [ensureCluster] does with the result of [EnsureRedisStatefulsets]. *)
Definition after_statefulsets cluster (updated : bool) : M W (DistributedRedisCluster * option error) :=
  if updated then
    r ← UpdateCRStatus (cluster <| drc_Status := SetClusterUpdating (drc_Status cluster) "cluster spec updated" |>);
    let cluster := (r : DistributedRedisCluster * option error).1 in
    err ← wait_for "waitStatefulSetUpdating" (s64 (30 * second * s32 (ClusterReplicas (Spec cluster) + 2)))
            (waitStatefulSetUpdating_Handler cluster);
    mret (cluster, err)
  else mret (cluster, None).

(** [if IsRequestRetryable(err) { return Kubernetes.Wrap(..) }; return StopRetry.Wrap(..)] *)
Definition retry_or_stop (msg : string) (err : error) : error :=
  if IsRequestRetryable err then ErrorType_Wrap Kubernetes err msg else ErrorType_Wrap StopRetry err "stop retry".

(** The services and the secret, at the end of [ensureCluster]. *)
Definition ensure_services cluster (labels : label_map) : M W (DistributedRedisCluster * option error) :=
  r ← EnsureRedisHeadLessSvcs cluster labels;
  match r with
  | (Some err, _) => mret (cluster, Some (ErrorType_Wrap Kubernetes err "EnsureRedisHeadLessSvcs"))
  | (None, labels) =>
      r ← EnsureRedisSvc cluster labels;
      match r with
      | (Some err, _) => mret (cluster, Some (ErrorType_Wrap Kubernetes err "EnsureRedisSvc"))
      | (None, _) =>
          stage cluster (retry_or_stop "EnsureRedisRCloneSecret") (EnsureRedisRCloneSecret cluster)
      end
  end.

(** [ensureCluster] *)
Definition ensureCluster cluster : M W (DistributedRedisCluster * option error) :=
  r ← validateAndSetDefault cluster;
  match r with
  | (cluster, Some err) => mret (cluster, Some (retry_or_stop "Validate" err))
  | (cluster, None) =>
      let cluster := dbLoadedFromDiskWhenRestore cluster in
      let labels := getLabels cluster in
      and_then
        (stage cluster (λ err, ErrorType_Wrap Kubernetes err "EnsureRedisConfigMap")
           (EnsureRedisConfigMap cluster labels)) (λ cluster,
      and_then
        (r ← resetClusterPassword cluster;
         mret (r.1, (λ err, ErrorType_Wrap Cluster err "ResetPassword") <$> r.2)) (λ cluster,
      r ← EnsureRedisStatefulsets rename_file cluster labels;
      match r with
      | (_, Some err, _) => mret (cluster, Some (ErrorType_Wrap Kubernetes err "EnsureRedisStatefulSets"))
      | (updated, None, labels) =>
          and_then (after_statefulsets cluster updated) (λ cluster, ensure_services cluster labels)
      end))
  end.

#[local] Instance pod_control : IPodControl W := NewPodController.

(** [waitPodReady], with the pods of the healer *)
Definition waitPodReady (healer : CheckAndHeal) cluster : M W (option error) :=
  now ← gets env_now;
  r ← FixTerminatingPods now healer cluster (5 * 60 * second);
  match r.2 with
  | Some err => mret (Some (ErrorType_Wrap Kubernetes err "FixTerminatingPods"))
  | None =>
      err ← CheckRedisNodeNum cluster;
      mret ((λ err, ErrorType_Wrap Requeue err "CheckRedisNodeNum") <$> err)
  end.
(** ** The operations on the Redis cluster *)

(** [waitForClusterJoin]; without any infos it dereferences a nil node. *)
Definition waitForClusterJoin (clusterInfos : ClusterInfos) : M (heap * W) (option error) :=
  infos ← admin_GetClusterInfos;
  match infos.2 with
  | None => mret None
  | Some _ =>
      match range 100 (Infos clusterInfos) with
      | [] => panic
      | (_, nodeInfo) :: _ =>
          addr ← gets (λ s, IPPort (s.1 !!! ni_Node nodeInfo));
          err ← on_snd (admin_AttachNodeToCluster addr);
          match err with
          | Some err => mret (Some (ErrorType_Wrap Redis err "AttachNodeToCluster"))
          | None =>
              on_snd (env_Sleep second);;
              infos ← admin_GetClusterInfos;
              mret ((λ err, ErrorType_Wrap Requeue err "wait for cluster join") <$> infos.2)
          end
      end
  end.

(** The body of the second loop of [scalingDown]. *)
Definition forget_nodes (nodes : Nodes) : M (heap * W) (option error) :=
  for_err nodes (λ node,
    n ← gets (λ s, s.1 !!! node);
    if decide (0 < length (Slots n))%nat then
      let '(n, text) := Node_String env_format_time n in
      modify (λ s, (heap_upd (λ _, n) node s.1, s.2));;
      mret (Some (ErrorType_New Redis ("node " +:+ text +:+ " is not empty! Reshard data away and try again")))
    else
      err ← admin_ForgetNode (ID n);
      mret ((λ err, ErrorType_Wrap Redis err "ForgetNode") <$> err)).
Definition scale_down_set cluster (statefulSetNodes : gmap string Nodes) (i : Z) : M (heap * W) (option error) :=
  let stsName := ClusterStatefulSetName (drc_Name cluster) i in
  r ← on_snd (GetStatefulSet (drc_Namespace cluster) stsName);
  match r with
  | inl err => mret (Some (ErrorType_Wrap Kubernetes err "GetStatefulSet"))
  | inr sts =>
      err ← forget_nodes (default [] (statefulSetNodes !! stsName));
      match err with
      | Some err => mret (Some err)
      | None =>
          on_snd (DeleteStatefulSetByName (drc_Namespace cluster) stsName);;
          on_snd (DeleteServiceByName (drc_Namespace cluster) (ClusterHeadlessSvcName (drc_Name cluster) i));;
          on_snd (DeletePodDisruptionBudgetByName (drc_Namespace cluster) stsName);;
          on_snd (DeletePvcByLabels (drc_Namespace cluster) (om_Labels (ss_meta sts)));;
          on_snd (wait_for "waitPodTerminating" (s64 (30 * second * s32 (ClusterReplicas (Spec cluster) + 2)))
                    (waitPodTerminating_Handler cluster stsName));;
          mret None
      end
  end.
(** [scalingDown] *)
Definition scalingDown cluster (currentMasterNum : Z) (statefulSetNodes : gmap string Nodes)
    : M (heap * W) (DistributedRedisCluster * option error) :=
  r ← on_snd (UpdateCRStatus (cluster <| drc_Status := SetClusterRebalancing (drc_Status cluster)
        ("scale down, currentMasterSize: " +:+ FormatInt currentMasterNum +:+ ", expectMasterSize " +:+
         FormatInt (MasterSize (Spec cluster))) |>));
  let cluster := (r : DistributedRedisCluster * option error).1 in
  let expectMasterNum := MasterSize (Spec cluster) in
  let idxs := reverse (seqZ expectMasterNum (currentMasterNum - expectMasterNum)) in
  for_each idxs (λ i,
    for_each (default [] (statefulSetNodes !! ClusterStatefulSetName (drc_Name cluster) i)) (λ node,
      addr ← gets (λ s, IPPort (s.1 !!! node));
      on_snd (admin_Connections_Remove addr)));;
  err ← for_err idxs (scale_down_set cluster statefulSetNodes);
  mret (cluster, err).

(** Placing and attaching the slaves, in three branches of [syncCluster]. *)
Definition place_slaves (c : Ctx) : M (heap * W) (Ctx * option error) :=
  h ← gets fst;
  r ← pure (PlaceSlaves h c);
  match r with
  | (c, Some err) => mret (c, Some (ErrorType_Wrap Cluster err "PlaceSlaves"))
  | (c, None) =>
      err ← AttachingSlavesToMaster c;
      mret (c, (λ err, ErrorType_Wrap Cluster err "AttachingSlavesToMaster") <$> err)
  end.

(** [syncCluster]; the text of an error of [DispatchMasters] also prints the nodes as
    pointers, which is left out. *)
Definition syncCluster cluster (clusterInfos : ClusterInfos)
    : M (heap * W) (DistributedRedisCluster * option error) :=
  r ← on_fst (newRedisCluster clusterInfos cluster);
  match r with
  | (_, _, Some err) => mret (cluster, Some (ErrorType_Wrap Cluster err "newRedisCluster"))
  | (rCluster, nodes, None) =>
      h ← gets fst;
      r ← pure (DispatchMasters h (NewCtx h rCluster nodes (MasterSize (Spec cluster)) (drc_Name cluster)));
      match r with
      | (_, Some err) => mret (cluster, Some (ErrorType_Wrapf Cluster err "DispatchMasters with nodes "))
      | (c, None) =>
          let curMasters := GetCurrentMasters c in
          let newMasters := GetNewMasters c in
          if decide (length curMasters = 0%nat) then
            r ← place_slaves c;
            match r with
            | (_, Some err) => mret (cluster, Some err)
            | (_, None) => stage cluster (λ err, ErrorType_Wrap Cluster err "AllocSlots") (AllocSlots newMasters)
            end
          else if decide (length curMasters < length newMasters)%nat then
            r ← place_slaves c;
            match r with
            | (_, Some err) => mret (cluster, Some err)
            | (_, None) =>
                stage cluster (λ err, ErrorType_Wrap Cluster err "RebalancedCluster") (RebalancedCluster newMasters)
            end
          else if decide (MinReplicationFactor (drc_Status cluster) < ClusterReplicas (Spec cluster)) then
            r ← place_slaves c; mret (cluster, r.2)
          else if decide (MasterSize (Spec cluster) < Z.of_nat (length curMasters)) then
            r ← DispatchSlotToNewMasters c newMasters curMasters (newMasters ++ curMasters);
            match r with
            | (_, Some err) => mret (cluster, Some err)
            | (c, None) => scalingDown cluster (Z.of_nat (length curMasters)) (GetStatefulsetNodes c)
            end
          else mret (cluster, None)
      end
  end.
End sync.
