(* ===== verification/Frame.v ===== *)
(** Frame conditions: what the components of a reconciliation leave alone.

    [keeps R m]: whatever [m] does to the state is within the preorder [R].  The
    requests to the Kubernetes API that do not write a custom resource
    ([ClientFrame]) and the calls to the Redis admin and to the rest of the world
    ([AdminFrame]) are given as within [R]; then every component built from them is,
    which is proved here once for every [R]. *)

From Stdlib Require Import ZArith Lia.
From S2P Require Import Prelude GoStrings GoFloat Errors Slot Node ClusterInfo AdminInterface.
From S2P Require Import Clustering Migration Rebalance.
From S2P Require Import Kube Utils Api Client Heal Resources Ensurer EnsurerProofs Connections Status Sync.

Local Open Scope Z_scope.

(** On a heap and a world, the relation is that of the world. *)
Abbreviation on_world := (on_second (S := heap)).

(** ** The primitives *)

(** Requests that read, create objects of the keys [new], and update or delete objects
    of the keys [own]. *)
Class ClientFrame {W} `{ClientLaws W} (own new : string * (string * string) → Prop) (R : relation W) := {
  frame_Get : ∀ {T} `{KObject T} ns name, keeps R (client_Get (T := T) ns name);
  frame_List : ∀ {T} `{KObject T} ns labels, keeps R (client_List (T := T) ns labels);
  frame_Create : ∀ {T} `{KObject T} (x : T), new (key_of x) → keeps R (client_Create x);
  frame_Update : ∀ {T} `{KObject T} (x : T), own (key_of x) → keeps R (client_Update x);
  frame_Delete : ∀ {T} `{KObject T} (x : T), own (key_of x) → keeps R (client_Delete x);
}.

(** The keys of the objects that the operator writes for the cluster [name]. *)
Record footprint (own new : string * (string * string) → Prop) (ns name : string) : Prop := {
  new_StatefulSet : ∀ i, new (kind_of AppsStatefulSet, (ns, ClusterStatefulSetName name i));
  new_PDB : ∀ i, new (kind_of PodDisruptionBudget, (ns, ClusterStatefulSetName name i));
  new_ConfigMap : new (kind_of ConfigMap, (ns, RedisConfigMapName name));
  new_RestoreConfigMap : new (kind_of ConfigMap, (ns, RestoreConfigMapName name));
  new_Service : ∀ n, new (kind_of Service, (ns, n));
  new_Secret : ∀ n, new (kind_of Secret, (ns, n));
  own_StatefulSet : ∀ i, own (kind_of AppsStatefulSet, (ns, ClusterStatefulSetName name i));
  own_PDB : ∀ i, own (kind_of PodDisruptionBudget, (ns, ClusterStatefulSetName name i));
  own_ConfigMap : own (kind_of ConfigMap, (ns, RedisConfigMapName name));
  own_RestoreConfigMap : own (kind_of ConfigMap, (ns, RestoreConfigMapName name));
  own_Service : ∀ i, own (kind_of Service, (ns, ClusterHeadlessSvcName name i));
  own_Pod : ∀ n, own (kind_of Pod, (ns, n));
  own_PVC : ∀ n, own (kind_of PersistentVolumeClaim, (ns, n));
}.
Definition owns own new (cl : DistributedRedisCluster) : Prop := footprint own new (drc_Namespace cl) (drc_Name cl).
(** The calls to the Redis nodes and to the rest of the world that assign no slot. *)
Class CallFrame {W} `{IAdmin W} `{ControllerEnv W} (R : relation W) := {
  frame_GetClusterInfos : keeps (on_world R) admin_GetClusterInfos;
  frame_SetConfigIfNeed : ∀ config, keeps R (admin_SetConfigIfNeed config);
  frame_AttachNodeToCluster : ∀ addr, keeps R (admin_AttachNodeToCluster addr);
  frame_AttachSlaveToMaster : ∀ slave id, keeps (on_world R) (admin_AttachSlaveToMaster slave id);
  frame_ForgetNode : ∀ id, keeps (on_world R) (admin_ForgetNode id);
  frame_ResetPassword : ∀ password, keeps R (admin_ResetPassword password);
  frame_Close : keeps R admin_Close;
  frame_Remove : ∀ addr, keeps R (admin_Connections_Remove addr);
  frame_NewAdmin : ∀ addrs options, keeps R (env_NewAdmin addrs options);
  frame_execute : ∀ ns pod container cmd, keeps R (env_execute ns pod container cmd);
  frame_Sleep : ∀ d, keeps R (env_Sleep d);
  frame_events : ∀ timeout w f, Tick f ∈ env_events timeout w → ∀ w', R w' (f w');
}.
(** The commands that assign slots. *)
Class SlotFrame {W} `{IAdmin W} (R : relation W) := {
  frame_SetSlots : ∀ addr action slots id, keeps R (admin_SetSlots addr action slots id);
  frame_AddSlots : ∀ addr slots, keeps R (admin_AddSlots addr slots);
  frame_SetSlot : ∀ addr action slot id, keeps R (admin_SetSlot addr action slot id);
  frame_MigrateKeys : ∀ addr dest slots batch timeout replace,
    keeps R (admin_MigrateKeys addr dest slots batch timeout replace);
  frame_MigrateKeysInSlot : ∀ addr dest slot batch timeout replace,
    keeps R (admin_MigrateKeysInSlot addr dest slot batch timeout replace);
}.
Class AdminFrame {W} `{IAdmin W} `{ControllerEnv W} (R : relation W) := {
  frame_calls :: CallFrame R;
  frame_slots :: SlotFrame R;
}.
#[export] Hint Resolve frame_Get frame_List : keeps.
#[export] Hint Resolve frame_GetClusterInfos frame_SetConfigIfNeed frame_AttachNodeToCluster
  frame_AttachSlaveToMaster frame_ForgetNode frame_SetSlots frame_AddSlots frame_SetSlot frame_MigrateKeys
  frame_MigrateKeysInSlot frame_ResetPassword frame_Close frame_Remove frame_NewAdmin frame_execute
  frame_Sleep : keeps.
#[export] Hint Extern 0 (ClientFrame _ _ _) => exact _ : keeps.
#[export] Hint Extern 0 (CallFrame _) => exact _ : keeps.
#[export] Hint Extern 0 (SlotFrame _) => exact _ : keeps.
#[export] Hint Extern 0 (AdminFrame _) => exact _ : keeps.

(** ** The components *)

Section world.
Context `{MapRange} `{SortPkg} `{K8sApi} `{ObjectStore}.
Context {W : Type} `{ClientLaws W} (own new : string * (string * string) → Prop) (R : relation W) `{!PreOrder R} `{!ClientFrame own new R}.
Variable rename_file : option string.
Implicit Types (cl : DistributedRedisCluster).
Abbreviation owns := (owns own new).

(** Going on with a property of the result. *)
Lemma keeps_bind_post {A B} (Q : A → Prop) (m : M W A) (k : A → M W B) :
  keeps R m → (∀ w, safe m w (λ a _, Q a)) → (∀ a, Q a → keeps R (k a)) → keeps R (m ≫= k).
Proof.
  intros Hm HQ Hk w. apply safe_bind. intros a w1 Ha. eapply safe_mono; [apply Hk; exact (HQ w a w1 Ha)|].
  intros b w2 H12. cbv beta in *. etrans; [exact (Hm w a w1 Ha)|exact H12].
Qed.
Lemma keeps_bind_pure {A B} (m : go A) (k : A → M W B) :
  (∀ a, m = Val a → keeps R (k a)) → keeps R (pure m ≫= k).
Proof.
  intros Hk. apply (keeps_bind_post (λ a, m = Val a)); [by apply keeps_pure| |done]. intros w. by apply safe_pure.
Qed.

Lemma keeps_write_only {T} (m : M W (T * option error)) : keeps R m → keeps R (write_only m).
Proof. intros Hm. unfold write_only. keeps. Qed.
Hint Resolve keeps_write_only : keeps.
Lemma keeps_create_if_missing {A} (get : M W (error + A)) create :
  keeps R get → keeps R create → keeps R (create_if_missing get create).
Proof. intros. unfold create_if_missing. keeps; done. Qed.
Lemma keeps_delete_by_name {T} `{KObject T} ns name :
  own (kind_of T, (ns, name)) → keeps R (delete_by_name (client_Get ns name) (client_Delete (T := T))).
Proof.
  intros Hown. apply (keeps_bind_post (λ r, match r with inr x => key_of x = (kind_of T, (ns, name)) | inl _ => True end)).
  - apply frame_Get.
  - intros w. apply Get_key_law.
  - intros [e|x] Hx; [keeps|]. apply frame_Delete. by rewrite Hx.
Qed.
Lemma keeps_for_statefulsets cl f idxs b labels :
  (∀ i svcName labels, keeps R (f (ClusterStatefulSetName (drc_Name cl) i) svcName labels)) →
  keeps R (for_statefulsets cl f idxs b labels).
Proof.
  intros Hf. revert b labels. induction idxs as [|i idxs IH]; intros b labels; cbn [for_statefulsets]; keeps; done.
Qed.
Hint Resolve keeps_create_if_missing keeps_delete_by_name : keeps.

Lemma NewSvcForCR_key cl name labels svc :
  NewSvcForCR cl name labels = Val svc → key_of svc = (kind_of Service, (drc_Namespace cl, name)).
Proof. unfold NewSvcForCR. repeat case_match; intros; simplify_eq; done. Qed.

Lemma keeps_EnsureRedisConfigMap cl labels : owns cl → keeps R (EnsureRedisConfigMap cl labels).
Proof.
  intros []. unfold EnsureRedisConfigMap, ensure_restore_configmap, GetConfigMap, CreateConfigMap, UpdateConfigMap.
  keeps; first [by apply frame_Create|apply keeps_write_only; by apply frame_Update].
Qed.
(** Code that generates the StatefulSet number [i] and goes on with it. *)
Lemma keeps_generated {B} cl i svcName labels (k : error + AppsStatefulSet → M W B) :
  (∀ e, keeps R (k (inl e))) →
  (∀ ss, key_of ss = (kind_of AppsStatefulSet, (drc_Namespace cl, ClusterStatefulSetName (drc_Name cl) i)) →
     keeps R (k (inr ss))) →
  keeps R (pure (NewStatefulSetForCR rename_file cl (ClusterStatefulSetName (drc_Name cl) i) svcName labels) ≫= k).
Proof.
  intros He Hs. apply keeps_bind_pure. intros [e|ss] Hss; [done|]. apply generated_wf in Hss as [Hk _]. by apply Hs.
Qed.
Lemma keeps_ensureRedisPDB cl i labels :
  owns cl → keeps R (ensureRedisPDB cl (ClusterStatefulSetName (drc_Name cl) i) labels).
Proof.
  intros Hown. unfold ensureRedisPDB, GetPodDisruptionBudget, CreatePodDisruptionBudget.
  apply keeps_create_if_missing; [keeps|apply frame_Create, Hown].
Qed.
Hint Resolve keeps_ensureRedisPDB : keeps.
Lemma keeps_ensureRedisStatefulset cl i svcName labels :
  owns cl → keeps R (ensureRedisStatefulset rename_file cl (ClusterStatefulSetName (drc_Name cl) i) svcName labels).
Proof.
  intros Hown. unfold ensureRedisStatefulset, GetStatefulSet.
  apply keeps_bind; [done|keeps|]. intros [e|]; [keeps|].
  apply keeps_bind; [done|keeps|]. intros [e|ss].
  - destruct (IsNotFound e); [|keeps]. apply keeps_generated; [keeps|]. intros ss Hk.
    apply keeps_bind; [done| |keeps]. apply frame_Create. rewrite Hk. apply Hown.
  - apply keeps_bind; [done|keeps|]. intros [|]; [|keeps]. apply keeps_generated; [keeps|]. intros ss' Hk.
    apply keeps_bind; [done| |keeps]. apply keeps_write_only, frame_Update. rewrite Hk. apply Hown.
Qed.
Lemma keeps_EnsureRedisStatefulsets cl labels : owns cl → keeps R (EnsureRedisStatefulsets rename_file cl labels).
Proof. intros. apply keeps_for_statefulsets. intros. by apply keeps_ensureRedisStatefulset. Qed.
Lemma keeps_UpdateRedisStatefulsets cl labels : owns cl → keeps R (UpdateRedisStatefulsets rename_file cl labels).
Proof.
  intros Hown. unfold UpdateRedisStatefulsets, updateRedisStatefulset, UpdateStatefulSet.
  apply keeps_bind; [done| |keeps]. apply keeps_for_statefulsets. intros i svcName l.
  apply keeps_bind; [done| |keeps]. apply keeps_generated; [keeps|]. intros ss Hk.
  apply keeps_write_only, frame_Update. rewrite Hk. apply Hown.
Qed.
Lemma keeps_EnsureRedisHeadLessSvcs cl labels : owns cl → keeps R (EnsureRedisHeadLessSvcs cl labels).
Proof.
  intros Hown. unfold EnsureRedisHeadLessSvcs, ensureRedisHeadLessSvc, GetService, CreateService.
  apply keeps_bind; [done| |keeps]. apply keeps_for_statefulsets. intros.
  apply keeps_bind; [done|apply keeps_create_if_missing; [keeps|]|keeps]. apply frame_Create, Hown.
Qed.
Lemma keeps_EnsureRedisSvc cl labels : owns cl → keeps R (EnsureRedisSvc cl labels).
Proof.
  intros Hown. unfold EnsureRedisSvc, GetService, CreateService. cbv zeta.
  apply keeps_bind; [done|apply keeps_create_if_missing; [keeps|]|keeps].
  apply keeps_bind_pure. intros svc Hk%NewSvcForCR_key. apply frame_Create. rewrite Hk. apply Hown.
Qed.
Lemma keeps_EnsureRedisRCloneSecret cl : owns cl → keeps R (EnsureRedisRCloneSecret cl).
Proof.
  intros Hown. unfold EnsureRedisRCloneSecret. destruct (_ || _); [keeps|]. destruct (Backup _) as [b|]; [|keeps].
  apply (keeps_bind_post (λ r : error + Secret, match r with
    | inr s => key_of s = (kind_of Secret, (drc_Namespace cl, RCloneSecretName b)) | inl _ => True end)).
  - unfold NewRcloneSecret, newContext. keeps.
  - intros w. unfold NewRcloneSecret. apply safe_bind. eapply safe_mono; [apply safe_true|].
    intros [e|ctx] w' _; by apply safe_ret.
  - intros [e|s] Hs; [keeps|]. unfold CreateSecret. keeps. apply frame_Create. rewrite Hs. apply Hown.
Qed.
Lemma keeps_CheckRedisNodeNum cl : keeps R (CheckRedisNodeNum cl).
Proof. unfold CheckRedisNodeNum, GetStatefulSet. keeps. Qed.
Lemma keeps_GetClusterPassword cl : keeps R (GetClusterPassword cl).
Proof. unfold GetClusterPassword, secret_password. keeps. Qed.
Lemma keeps_GetOldRedisClusterPassword sts : keeps R (GetOldRedisClusterPassword sts).
Proof. unfold GetOldRedisClusterPassword, secret_password. keeps. Qed.
Lemma keeps_DeletePodByName cl name : owns cl → keeps R (DeletePodByName (drc_Namespace cl) name).
Proof. intros []. by apply keeps_delete_by_name. Qed.
Hint Resolve keeps_DeletePodByName : keeps.
Lemma keeps_FixTerminatingPods now c cl d :
  owns cl → keeps R (@FixTerminatingPods _ W NewPodController now c cl d).
Proof. intros. unfold FixTerminatingPods, pods_DeletePodByName, NewPodController. keeps. Qed.
End world.
#[export] Hint Resolve keeps_EnsureRedisConfigMap keeps_EnsureRedisStatefulsets keeps_UpdateRedisStatefulsets
  keeps_EnsureRedisHeadLessSvcs keeps_EnsureRedisSvc keeps_EnsureRedisRCloneSecret keeps_CheckRedisNodeNum
  keeps_GetClusterPassword keeps_GetOldRedisClusterPassword keeps_FixTerminatingPods keeps_DeletePodByName : keeps.
#[export] Hint Extern 0 (owns _ _ _) => eassumption : keeps.

Section operations.
Context `{MapRange} `{SortPkg} `{K8sApi} `{ObjectStore}.
Context {W : Type} `{ClientLaws W} `{IAdmin W} `{ControllerEnv W}.
Context (own new : string * (string * string) → Prop) (R : relation W).
Context `{!PreOrder R} `{!ClientFrame own new R} `{!CallFrame R}.
Abbreviation owns := (owns own new).
Variable redisConf : RedisConfig.

Lemma keeps_waiting name handler events :
  keeps R handler → (∀ f, Tick f ∈ events → ∀ w, R w (f w)) → keeps R (waiting name handler events).
Proof.
  intros Hh. induction events as [|[|f] events IH]; intros Hf; cbn [waiting].
  - by intros ? ? ?.
  - keeps.
  - apply keeps_bind; [done| |intros ?].
    { apply keeps_modify, Hf. by left. }
    apply keeps_bind; [done..|]. intros [e|]; [|keeps]. apply IH. intros. apply Hf. by right.
Qed.
Lemma keeps_wait_for name timeout handler : keeps R handler → keeps R (wait_for name timeout handler).
Proof.
  intros Hh w r w'. unfold wait_for. rewrite (bind_Val _ _ _ (env_events timeout w) w) by done.
  apply keeps_waiting; [done|]. intros f Hf. by eapply frame_events.
Qed.
Lemma keeps_waitPodTerminating cl sts : keeps R (waitPodTerminating_Handler cl sts).
Proof. unfold waitPodTerminating_Handler, GetStatefulSetPodsByLabels. keeps. Qed.
Lemma keeps_waitStatefulSetUpdating cl : keeps R (waitStatefulSetUpdating_Handler cl).
Proof. unfold waitStatefulSetUpdating_Handler, ListStatefulSetByLabels. keeps. Qed.
Hint Resolve keeps_wait_for keeps_waitPodTerminating keeps_waitStatefulSetUpdating : keeps.

Lemma keeps_newRedisAdmin pods password : keeps R (newRedisAdmin redisConf pods password).
Proof. unfold newRedisAdmin. keeps. Qed.
Hint Resolve keeps_newRedisAdmin : keeps.
Lemma keeps_set_password podSet p p' : keeps R (set_password redisConf podSet p p').
Proof.
  unfold set_password, ExecCommandInPodSet, ExecCommandInContainer, ExecCommandInContainerWithFullOutput,
    ExecWithOptions. keeps.
Qed.
Lemma keeps_waitPodReady healer cl : owns cl → keeps R (waitPodReady healer cl).
Proof. intros. unfold waitPodReady. keeps. Qed.

Lemma keeps_Heal c cl infos : owns cl → keeps (on_world R) (@Heal _ _ W _ NewPodController c cl infos).
Proof.
  intros. unfold Heal, FixFailedNodes, FixUntrustedNodes, fix_untrusted, pods_DeletePodByName, NewPodController. keeps.
Qed.
Lemma keeps_waitForClusterJoin infos : keeps (on_world R) (waitForClusterJoin infos).
Proof. unfold waitForClusterJoin. keeps. Qed.
Lemma keeps_AttachingSlavesToMaster c : keeps (on_world R) (AttachingSlavesToMaster c).
Proof. unfold AttachingSlavesToMaster. keeps. Qed.
Hint Resolve keeps_AttachingSlavesToMaster : keeps.
Lemma keeps_place_slaves c : keeps (on_world R) (place_slaves c).
Proof. unfold place_slaves. keeps. Qed.

Lemma keeps_forget_nodes nodes : keeps (on_world R) (forget_nodes nodes).
Proof. unfold forget_nodes. keeps. Qed.
Hint Resolve keeps_forget_nodes : keeps.
Lemma keeps_DeletePvcByLabels ns labels :
  (∀ name, own (kind_of PersistentVolumeClaim, (ns, name))) → keeps R (DeletePvcByLabels ns labels).
Proof.
  intros Hown w. unfold DeletePvcByLabels. apply safe_bind. intros r w1 Hr.
  pose proof (runs_safe _ _ _ (List_law _ _ w) _ _ Hr) as [_ Hlaw].
  apply (safe_mono _ _ (λ _ w', R w1 w')).
  2: { intros ? w' Hw. etrans; [exact (frame_List _ _ w _ _ Hr)|exact Hw]. }
  destruct r as [e|pvcs]; [by apply safe_ret|]. apply safe_for_err_inv; [done|].
  intros pvc w2 Hin Hw. eapply safe_mono.
  { apply frame_Delete. apply Hlaw in Hin as (_ & Hns & _). destruct pvc as [m ?]. cbn in Hns. unfold key_of, object_key. cbn.
    rewrite Hns. apply Hown. }
  intros ? w3 H23. by etrans.
Qed.
(** Removing the set number [i] deletes its own objects. *)
Lemma keeps_scale_down_set cl sets i :
  let ns := drc_Namespace cl in
  own (kind_of AppsStatefulSet, (ns, ClusterStatefulSetName (drc_Name cl) i)) →
  own (kind_of PodDisruptionBudget, (ns, ClusterStatefulSetName (drc_Name cl) i)) →
  own (kind_of Service, (ns, ClusterHeadlessSvcName (drc_Name cl) i)) →
  (∀ name, own (kind_of PersistentVolumeClaim, (ns, name))) →
  keeps (on_world R) (scale_down_set cl sets i).
Proof.
  intros ns Hsts Hpdb Hsvc Hpvc. unfold scale_down_set, GetStatefulSet, DeleteStatefulSetByName, DeleteServiceByName,
    DeletePodDisruptionBudgetByName. pose proof (keeps_DeletePvcByLabels ns) as Hpvcs.
  keeps; first [by apply (keeps_delete_by_name own new R)|by apply Hpvcs].
Qed.
Lemma keeps_scale_down_owned cl sets i : owns cl → keeps (on_world R) (scale_down_set cl sets i).
Proof. intros []. by apply keeps_scale_down_set. Qed.
End operations.

Section slot_operations.
Context `{MapRange} `{SortPkg} {W : Type} `{IAdmin W} (R : relation W) `{!PreOrder R} `{!SlotFrame R}.

Lemma keeps_DispatchSlotToNewMasters c news cur all :
  keeps (on_world R) (DispatchSlotToNewMasters c news cur all).
Proof. unfold DispatchSlotToNewMasters, dispatch_migration, tell_others. keeps. Qed.
Lemma keeps_AllocSlots_loop n slots per index first cursor nodes :
  keeps (on_world R) (AllocSlots_loop n slots per index first cursor nodes).
Proof.
  revert index first cursor. induction nodes as [|node nodes IH]; intros; cbn [AllocSlots_loop]; keeps.
Qed.
Hint Resolve keeps_AllocSlots_loop : keeps.
Lemma keeps_AllocSlots nodes : keeps (on_world R) (AllocSlots nodes).
Proof. unfold AllocSlots. keeps. Qed.

Lemma keeps_rebalance_loop fuel sn dst src : keeps (on_world R) (rebalance_loop fuel sn dst src).
Proof.
  revert dst src. induction fuel as [|fuel IH]; intros; cbn [rebalance_loop].
  - destruct (decide _); [by intros ? ? ?|keeps].
  - unfold moveSlot. keeps.
Qed.
Hint Resolve keeps_rebalance_loop : keeps.
Lemma keeps_RebalancedCluster nodes : keeps (on_world R) (RebalancedCluster nodes).
Proof. unfold RebalancedCluster. keeps. Qed.
End slot_operations.
#[export] Hint Resolve keeps_wait_for keeps_waitPodTerminating keeps_waitStatefulSetUpdating keeps_newRedisAdmin
  keeps_set_password keeps_waitPodReady keeps_Heal keeps_waitForClusterJoin keeps_place_slaves
  keeps_DispatchSlotToNewMasters keeps_AllocSlots keeps_RebalancedCluster keeps_scale_down_owned : keeps.
