(* ===== verification/Progress.v ===== *)
(** How the status of a stored custom resource progresses while a controller works on
    it: whatever requests fail, the stored status and that of the resource in hand
    move along the steps of a machine, and the other resources of the kind keep theirs.

    A controller's own machine is an instance of [advanced]. *)

From Stdlib Require Import ZArith Lia.
From S2P Require Import Prelude GoStrings Errors Slot Node ClusterInfo AdminInterface.
From S2P Require Import Kube Utils Api Client Connections Status Sync Frame.

Local Open Scope Z_scope.

(** The kinds of the objects a reconciliation of a cluster generates. *)
Definition generated_kind (kind : string) : Prop :=
  kind ≠ DistributedRedisClusterKind ∧ kind ≠ RedisClusterBackupKind.
Definition generated (k : string * (string * string)) : Prop := generated_kind k.1.
Lemma generated_footprint ns name : footprint generated generated ns name.
Proof. split; intros; split; discriminate. Qed.

(** ** The custom resources in the store *)

Section stored_resources.
Context {W : Type} `{ClientLaws W} {T : Type} `{KObject T} {P : Type} (proj : T → P).

(** A part of the resource stored under a name. *)
Definition stored_at (ns name : string) (w : W) : option P :=
  o ← stored w !! (kind_of T, (ns, name));
  x ← of_object o;
  if decide (key_of x = (kind_of T, (ns, name))) then Some (proj x) else None.
Lemma stored_at_Some ns name w p :
  stored_at ns name w = Some p ↔
  ∃ x, stored w !! (kind_of T, (ns, name)) = Some (to_object x) ∧ key_of x = (kind_of T, (ns, name)) ∧ proj x = p.
Proof.
  unfold stored_at. destruct (stored w !! _) as [o|] eqn:Ho; simpl; [|naive_solver].
  destruct (of_object o) as [x|] eqn:Hx; simpl.
  - apply to_of_object in Hx. subst. split.
    + destruct (decide _); [|done]. intros. simplify_eq. by exists x.
    + intros (y & Hy & Hk & <-). injection Hy as Hy. apply (f_equal of_object) in Hy.
      rewrite !of_to_object in Hy. injection Hy as ->. by rewrite decide_True.
  - split; [done|]. intros (y & Hy & _). injection Hy as ->. by rewrite of_to_object in Hx.
Qed.
Lemma stored_at_insert ns name w w' x :
  key_of x = (kind_of T, (ns, name)) → stored w' = <[(kind_of T, (ns, name)) := to_object x]> (stored w) →
  stored_at ns name w' = Some (proj x).
Proof. intros Hk Hw. apply stored_at_Some. exists x. by rewrite Hw, lookup_insert_eq. Qed.
Lemma stored_at_insert_ne ns name w w' o ns' name' :
  stored w' = <[(kind_of T, (ns, name)) := o]> (stored w) →
  (ns', name') ≠ (ns, name) → stored_at ns' name' w' = stored_at ns' name' w.
Proof. intros Heq Hne. unfold stored_at. rewrite Heq, lookup_insert_ne; [done|]. congruence. Qed.

(** That part is the same in all the stored resources. *)
Definition same_stored (w w' : W) : Prop := ∀ ns name, stored_at ns name w' = stored_at ns name w.
#[export] Instance same_stored_preorder : PreOrder same_stored.
Proof. split; [by intros w ns name|]. intros w1 w2 w3 H12 H23 ns name. by rewrite H23. Qed.

Lemma same_stored_eq w w' : stored w' = stored w → same_stored w w'.
Proof. intros Heq ns name. unfold stored_at. by rewrite Heq. Qed.
Lemma same_stored_other {U} `{KObject U} (x : U) w w' :
  kind_of U ≠ kind_of T → (∀ k, k ≠ key_of x → stored w' !! k = stored w !! k) → same_stored w w'.
Proof.
  intros Hk Hst ns name. unfold stored_at. rewrite Hst; [done|]. intros Heq. apply Hk.
  rewrite <- (kind_to_object x). by apply (f_equal fst) in Heq.
Qed.

Lemma same_stored_client : ¬ generated_kind (kind_of T) → ClientFrame generated generated same_stored.
Proof.
  intros HT. assert (∀ U `{KObject U} (x : U), generated (key_of x) → kind_of U ≠ kind_of T) as Hne.
  { unfold generated, key_of, object_key. cbn [fst]. intros U ? x. rewrite kind_to_object. congruence. }
  split; intros U ?.
  - intros ns name w. eapply safe_mono; [apply runs_safe, Get_law|]. intros r w' [Hw _]. by apply same_stored_eq.
  - intros ns labels w. eapply safe_mono; [apply runs_safe, List_law|]. intros r w' [Hw _]. by apply same_stored_eq.
  - intros x Hk%Hne w. eapply safe_mono; [apply runs_safe, Create_law|]. intros [e|] w' Hw.
    + by apply same_stored_eq.
    + destruct Hw as [_ Hw]. apply (same_stored_other x); [done|]. intros k Hx. by rewrite Hw, lookup_insert_ne.
  - intros x Hk%Hne w. eapply safe_mono; [apply runs_safe, Update_obj_law|]. intros [y [e|]] w' Hw; cbn [fst snd] in Hw.
    + destruct Hw as [_ Hw]. by apply same_stored_eq.
    + destruct Hw as (old & _ & _ & Hw). apply (same_stored_other x); [done|].
      intros k Hx. by rewrite Hw, lookup_insert_ne.
  - intros x Hk%Hne w. eapply safe_mono; [apply runs_safe, Delete_law|]. intros [e|] w' Hw.
    + by apply same_stored_eq.
    + apply (same_stored_other x); [done|]. intros k Hx. by rewrite Hw, lookup_delete_ne.
Qed.
End stored_resources.

(** ** Progress *)

(** A part of the status of a custom resource: [Status().Update] writes it, [Update]
    does not. *)
Class StatusPart {T} `{KObject T} {P} (proj : T → P) := {
  status_kind : ¬ generated_kind (kind_of T);
  status_write : ∀ old x y : T,
    to_object y = with_status (to_object old) (to_object x) → proj y = proj x ∧ key_of y = key_of old;
  spec_write : ∀ old x y : T,
    to_object y = with_spec (to_object old) (to_object x) → proj y = proj old ∧ key_of y = key_of x;
}.

#[export] Instance status_client {W} `{ClientLaws W} {T} `{KObject T} {P} (proj : T → P) `{!StatusPart proj} :
  ClientFrame generated generated (same_stored (W := W) proj).
Proof. apply same_stored_client, (status_kind (proj := proj)). Qed.

(** What a controller may do besides moving its resource: its other calls are within
    [R], which leaves that part of the resource alone, and the whole run is within [S]. *)
Class Confined {W} `{ClientLaws W} {T} `{KObject T} {P} (proj : T → P) (ns name : string) (R S : relation W) := {
  confined_preorder :: PreOrder S;
  confined_inner w w' : R w w' → S w w' ∧ stored_at proj ns name w' = stored_at proj ns name w;
  confined_read w w' : stored w' = stored w → S w w';
  confined_write w w' o : stored w' = <[(kind_of T, (ns, name)) := o]> (stored w) → S w w';
}.

(** The other resources of the kind keep their part. *)
Definition same_others {W} `{ClientLaws W} {T} `{KObject T} {P} (proj : T → P) (ns name : string) (w w' : W) : Prop :=
  ∀ ns' name', (ns', name') ≠ (ns, name) → stored_at proj ns' name' w' = stored_at proj ns' name' w.
#[export] Instance same_others_confined {W} `{ClientLaws W} {T} `{KObject T} {P} (proj : T → P) ns name :
  Confined proj ns name (same_stored (W := W) proj) (same_others proj ns name).
Proof.
  split.
  - split; [by intros w ns' name'|]. intros w1 w2 w3 H12 H23 ns' name' Hne. by rewrite H23, H12.
  - intros w w' Hsame. split; [intros ns' name' _|]; apply Hsame.
  - intros w w' Heq ns' name' _. unfold stored_at. by rewrite Heq.
  - intros w w' o Heq ns' name' Hne. by eapply stored_at_insert_ne.
Qed.

(** Only objects of the keys [own] change or disappear, and only objects of the keys
    [new] appear. *)
Definition changes_only {W} `{ClientLaws W} (own new : string * (string * string) → Prop) (w w' : W) : Prop :=
  ∀ k, ¬ own k → stored w' !! k = stored w !! k ∨ stored w !! k = None ∧ new k.

Section changes_only.
Context {W : Type} `{ClientLaws W} (own new : string * (string * string) → Prop).

#[export] Instance changes_only_preorder : PreOrder (changes_only (W := W) own new).
Proof.
  split; [by intros w k _; left|]. intros w1 w2 w3 H12 H23 k Hk.
  destruct (H12 k Hk) as [<-|?]; [by apply H23|by right].
Qed.
Lemma changes_only_read w w' : stored w' = stored w → changes_only own new w w'.
Proof. intros Heq k _. left. by rewrite Heq. Qed.
Lemma changes_only_insert w w' k o :
  stored w' = <[k := o]> (stored w) → own k ∨ stored w !! k = None ∧ new k → changes_only own new w w'.
Proof.
  intros Heq Hk k' Hk'. rewrite Heq. destruct (decide (k = k')) as [<-|Hne].
  - right. by destruct Hk.
  - left. by rewrite lookup_insert_ne.
Qed.
#[export] Instance changes_only_client : ClientFrame own new (changes_only (W := W) own new).
Proof.
  split; intros T ?.
  - intros ns name w. eapply safe_mono; [apply runs_safe, Get_law|]. intros r w' [Hw _]. by apply changes_only_read.
  - intros ns labels w. eapply safe_mono; [apply runs_safe, List_law|]. intros r w' [Hw _]. by apply changes_only_read.
  - intros x Hk w. eapply safe_mono; [apply runs_safe, Create_law|]. intros [e|] w' Hw; [by apply changes_only_read|].
    destruct Hw as [Hnone Hw]. eapply changes_only_insert; [exact Hw|by right].
  - intros x Hk w. eapply safe_mono; [apply runs_safe, Update_obj_law|]. intros [y [e|]] w' Hw; cbn [fst snd] in Hw.
    + destruct Hw as [_ Hw]. by apply changes_only_read.
    + destruct Hw as (old & _ & _ & Hw). eapply changes_only_insert; [exact Hw|by left].
  - intros x Hk w. eapply safe_mono; [apply runs_safe, Delete_law|]. intros [e|] w' Hw; [by apply changes_only_read|].
    intros k Hk'. left. rewrite Hw, lookup_delete_ne; [done|]. by intros <-.
Qed.

Lemma changes_only_confined {T} `{KObject T} {P} (proj : T → P) ns name (new' : string * (string * string) → Prop) :
  let k0 := (kind_of T, (ns, name)) in
  (∀ k, new k → new' k) → ¬ own k0 → ¬ new k0 →
  Confined proj ns name (changes_only (W := W) own new) (changes_only (λ k, own k ∨ k = k0) new').
Proof.
  intros k0 Hnew Hown0 Hnew0. split.
  - split; [by intros w k _; left|]. intros w1 w2 w3 H12 H23 k Hk.
    destruct (H12 k Hk) as [<-|?]; [by apply H23|by right].
  - intros w w' Hw. split.
    + intros k Hk. destruct (Hw k) as [?|[? ?]]; [tauto|by left|right; auto].
    + unfold stored_at. fold k0. by destruct (Hw k0 Hown0) as [->|[_ ?]].
  - intros w w' Heq k _. left. by rewrite Heq.
  - intros w w' o Heq k Hk. left. rewrite Heq, lookup_insert_ne; [done|]. intros <-. tauto.
Qed.
End changes_only.

Section progress.
Context {W : Type} `{ClientLaws W} {T : Type} `{KObject T} {P : Type} (proj : T → P) `{!StatusPart proj}.
Variables (step : relation P) (w0 : W) (ns name : string) (r0 : P).
Context (R S : relation W) `{!Confined proj ns name R S}.

(** The stored status has advanced from [r0], and that of the resource in hand is at
    least as far; the rest is within [S] of [w0]. *)
Definition advanced (x : T) (w : W) : Prop :=
  key_of x = (kind_of T, (ns, name)) ∧
  (∃ r, stored_at proj ns name w = Some r ∧ rtc step r0 r ∧ rtc step r (proj x)) ∧
  S w0 w.

Lemma advanced_world x w w' : R w w' → advanced x w → advanced x w'.
Proof.
  intros [HS Hat]%(confined_inner (R := R)) (Hk & (r & Hr & Hrtc) & Hother). split_and!; [done| |by etrans].
  exists r. by rewrite Hat.
Qed.
Lemma advanced_read x w w' : stored w' = stored w → advanced x w → advanced x w'.
Proof.
  intros Heq (Hk & (r & Hr & Hrtc) & Hother). split_and!; [done| |].
  - exists r. unfold stored_at. by rewrite Heq.
  - etrans; [done|by apply (confined_read (R := R))].
Qed.
Lemma advanced_resource x x' w :
  advanced x w → key_of x' = key_of x → rtc step (proj x) (proj x') → advanced x' w.
Proof.
  intros (Hk & (r & Hat & H0r & Hrc) & Hother) Hk' Hr. split_and!; [by rewrite Hk'| |done].
  exists r. split_and!; [done..|]. by etrans.
Qed.
Lemma advanced_same x x' w : advanced x w → key_of x' = key_of x → proj x' = proj x → advanced x' w.
Proof. intros Hadv Hk Hr. eapply advanced_resource; [exact Hadv|done|]. by rewrite Hr. Qed.

(** A write of the resource that stores [x'], whose status is not beyond that in hand. *)
Lemma advanced_write x x' w w' :
  advanced x w → key_of x' = (kind_of T, (ns, name)) →
  stored w' = <[(kind_of T, (ns, name)) := to_object x']> (stored w) →
  rtc step r0 (proj x') → rtc step (proj x') (proj x) →
  advanced x w' ∧ advanced x' w'.
Proof.
  intros (Hk & _ & Hother) Hk' Hw H0r Hrx.
  assert (stored_at proj ns name w' = Some (proj x')) as Hat by by eapply stored_at_insert.
  assert (S w0 w') by (etrans; [done|by eapply (confined_write (R := R))]).
  split; (split_and!; [done| |done]); exists (proj x'); split_and!; done.
Qed.

Lemma UpdateCRStatus_advanced x w :
  advanced x w →
  safe (UpdateCRStatus x) w (λ r w', advanced r.1 w' ∧ advanced x w' ∧ (r.2 = None → proj r.1 = proj x)).
Proof.
  intros Hadv. pose proof Hadv as (Hk & (r & Hat & H0r & Hrc) & _).
  apply stored_at_Some in Hat as (x0 & Hst & Hk0 & <-).
  eapply safe_mono; [apply runs_safe, StatusUpdate_obj_law|]. intros [x' [e|]] w'; cbn [fst snd].
  - intros [-> Hw]. apply (advanced_read _ w w') in Hadv; done.
  - rewrite Hk. intros (old & Hold & Hx' & Hw). rewrite Hst in Hold. simplify_eq.
    apply status_write in Hx' as [Hp Hk']. rewrite Hk0 in Hk'.
    destruct (advanced_write x x' w w') as [H1' H2']; rewrite ?Hp; try done. by etrans.
Qed.
Lemma UpdateCR_advanced x w : advanced x w → safe (UpdateCR x) w (λ r w', advanced r.1 w').
Proof.
  intros Hadv. pose proof Hadv as (Hk & (r & Hat & H0r & Hrc) & _).
  apply stored_at_Some in Hat as (x0 & Hst & Hk0 & <-).
  eapply safe_mono; [apply runs_safe, Update_obj_law|]. intros [x' [e|]] w'; cbn [fst snd].
  - intros [-> Hw]. by eapply advanced_read.
  - rewrite Hk. intros (old & Hold & Hx' & Hw). rewrite Hst in Hold. simplify_eq.
    apply spec_write in Hx' as [Hp Hk']. rewrite Hk in Hk'.
    eapply (advanced_write x x'); rewrite ?Hp; done.
Qed.

(** Going on after code that writes no such status. *)
Lemma safe_world {A B} (m : M W A) (k : A → M W B) x w Q :
  keeps R m → advanced x w → (∀ a w', advanced x w' → safe (k a) w' Q) → safe (m ≫= k) w Q.
Proof. apply safe_keeps. intros s s' HR. by apply advanced_world. Qed.
Lemma safe_pair {A B} (m : M (heap * W) A) (k : A → M (heap * W) B) x s Q :
  keeps (on_world R) m → advanced x s.2 → (∀ a s', advanced x s'.2 → safe (k a) s' Q) →
  safe (m ≫= k) s Q.
Proof. apply (safe_keeps _ (λ s, advanced x s.2)). intros s' s'' HR. by apply advanced_world. Qed.

(** The whole run: the resource is read at the start. *)
Lemma advanced_start x w :
  stored w !! (kind_of T, (ns, name)) = Some (to_object x) → stored_at proj ns name w = Some r0 → w = w0 →
  advanced x w.
Proof.
  intros Hx Hat ->. pose proof Hat as (x' & Hx' & Hk & Hp)%stored_at_Some. rewrite Hx in Hx'. injection Hx' as Hx'.
  apply (f_equal of_object) in Hx'. rewrite !of_to_object in Hx'. injection Hx' as ->.
  split_and!; [done| |done]. exists r0. rewrite Hp. by split_and!.
Qed.
End progress.

(** Code on the world inside code on the heap and the world. *)
Lemma safe_stage_pair {W A B} (m : M W A) (k : A → M (heap * W) B) s (Q : A → W → Prop) P :
  safe m s.2 Q → (∀ a s', Q a s'.2 → safe (k a) s' P) → safe (on_snd m ≫= k) s P.
Proof.
  intros Hm Hk. destruct s as [h w]. apply safe_bind, safe_on_snd. intros a w' Heq.
  apply (Hk a (h, w')). by apply Hm.
Qed.

(** One step of a proof of progress: going on after a call that writes no status, and a
    case distinction. *)
Ltac advance :=
  cbv beta zeta; cbn [fst snd];
  lazymatch goal with
  | |- safe (mret _) _ _ => apply safe_ret; cbn [fst snd]; try done
  | |- safe panic _ _ => apply safe_panic
  | |- safe (match ?x with _ => _ end) _ _ => destruct x
  | Hadv : advanced ?proj _ _ _ _ _ ?S ?x ?w |- safe (?m ≫= _) ?w _ =>
      eapply (safe_world proj _ _ _ _ _ _ S m _ x w); [solve [keeps]|exact Hadv|clear Hadv; intros ? ? Hadv]
  | Hadv : advanced ?proj _ _ _ _ _ ?S ?x (snd ?s) |- safe (?m ≫= _) ?s _ =>
      eapply (safe_pair proj _ _ _ _ _ _ S m _ x s); [solve [keeps]|exact Hadv|clear Hadv; intros ? ? Hadv]
  end.
