(* ===== verification/Worlds.v ===== *)
(** A concrete world for whole reconciliations: the in-memory API server, a recorded
    Redis admin, and timers that deliver one tick.  It instantiates the interfaces
    the controllers are written against, with their laws. *)

From Stdlib Require Import ZArith Lia.
From S2P Require Import Prelude GoStrings Errors Slot Node ClusterInfo AdminInterface.
From S2P Require Import Kube Utils Api Client Resources Connections Status Sync Frame.

Local Open Scope Z_scope.

(** ** A client of one half of a world, an admin of the other *)

Section lift.
Context {W V : Type}.

Definition lift_client (C : Client W) : Client (W * V) := {|
  client_Get T _ ns name := on_fst (client_Get ns name);
  client_List T _ ns labels := on_fst (client_List ns labels);
  client_Create T _ x := on_fst (client_Create x);
  client_Update T _ x := on_fst (client_Update x);
  client_Delete T _ x := on_fst (client_Delete x);
  client_StatusUpdate T _ x := on_fst (client_StatusUpdate x);
|}.

Lemma runs_on_fst {S T A} (m : M S A) (s : S) (t : T) (P : A → S * T → Prop) :
  runs m s (λ a s', P a (s', t)) → runs (on_fst m) (s, t) P.
Proof. intros (a & s' & Hm & HP). exists a, (s', t). unfold on_fst. simpl. by rewrite Hm. Qed.

Definition lift_client_laws `{KubeErrors} (C : Client W) (L : ClientLaws W) :
  @ClientLaws (W * V) _ (lift_client C).
Proof.
  unshelve refine {| stored w := stored w.1 |};
    cbn [client_Get client_List client_Create client_Update client_Delete client_StatusUpdate lift_client].
  - intros T ? ns name [w v]. apply runs_on_fst, Get_law.
  - intros T ? ns name [w v]. apply safe_on_fst, Get_key_law.
  - intros T ? x [w v]. apply runs_on_fst, Create_law.
  - intros T ? x [w v]. apply runs_on_fst, Update_obj_law.
  - intros T ? x [w v]. apply runs_on_fst, Delete_law.
  - intros T ? x [w v]. apply runs_on_fst, StatusUpdate_obj_law.
  - intros T ? ns labels [w v]. apply runs_on_fst, List_law.
Defined.

(** Code on the heap and the second half. *)
Definition heap_snd {A} (m : M (heap * V) A) : M (heap * (W * V)) A := λ s,
  let! r := m (s.1, s.2.2) in Val (r.1, (r.2.1, (s.2.1, r.2.2))).
Definition lift_admin (A : IAdmin V) : IAdmin (W * V) := {|
  GetHashMaxSlot w := GetHashMaxSlot w.2;
  admin_GetClusterInfos := heap_snd admin_GetClusterInfos;
  admin_ClusterManagerNodeIsEmpty := on_snd admin_ClusterManagerNodeIsEmpty;
  admin_SetConfigEpoch := on_snd admin_SetConfigEpoch;
  admin_SetConfigIfNeed config := on_snd (admin_SetConfigIfNeed config);
  admin_AttachNodeToCluster addr := on_snd (admin_AttachNodeToCluster addr);
  admin_AttachSlaveToMaster p id := heap_snd (admin_AttachSlaveToMaster p id);
  admin_DetachSlave p := heap_snd (admin_DetachSlave p);
  admin_ForgetNode id := heap_snd (admin_ForgetNode id);
  admin_SetSlots addr action slots id := on_snd (admin_SetSlots addr action slots id);
  admin_AddSlots addr slots := on_snd (admin_AddSlots addr slots);
  admin_SetSlot addr action slot id := on_snd (admin_SetSlot addr action slot id);
  admin_MigrateKeys addr dest slots b t r := on_snd (admin_MigrateKeys addr dest slots b t r);
  admin_MigrateKeysInSlot addr dest slot b t r := on_snd (admin_MigrateKeysInSlot addr dest slot b t r);
  admin_FlushAndReset addr mode := on_snd (admin_FlushAndReset addr mode);
  admin_ResetPassword password := on_snd (admin_ResetPassword password);
  admin_Close := on_snd admin_Close;
  admin_Connections_Remove addr := on_snd (admin_Connections_Remove addr);
  admin_Connections_ReplaceAll addrs := on_snd (admin_Connections_ReplaceAll addrs);
|}.

Lemma lift_admin_laws (A : IAdmin V) : IAdminLaws V → @IAdminLaws (W * V) (lift_admin A).
Proof.
  assert (∀ X (m : M (heap * V) X) h w x h' w',
    heap_snd m (h, w) = Val (x, (h', w')) → m (h, w.2) = Val (x, (h', w'.2))) as Hrun.
  { intros X m h w x h' w'. unfold heap_snd. simpl.
    destruct (m (h, w.2)) as [[? [? ?]]| |]; simpl; intros Heq; [|done..]. by injection Heq as <- <- <-. }
  intros L. split; intros *; cbn; intros Hr%Hrun.
  - by apply AttachSlaveToMaster_heap in Hr.
  - by apply ForgetNode_heap in Hr.
  - by apply GetClusterInfos_heap in Hr.
Qed.

(** The rest of the world does nothing; a wait sees one tick. *)
Definition quiet_env : ControllerEnv (W * V) := {|
  env_NewAdmin _ _ := mret ();
  env_execute _ _ _ _ := mret ("", "", None);
  env_Sleep _ := mret ();
  env_now _ := 0;
  env_events _ _ := [Tick Datatypes.id; Timeout];
  env_format_time _ := "";
|}.

Lemma lift_admin_frame (A : IAdmin V) (R : relation (W * V)) `{!PreOrder R} :
  (∀ w v v', R (w, v) (w, v')) → @AdminFrame (W * V) (lift_admin A) quiet_env R.
Proof.
  intros HR.
  assert (∀ X (m : M V X), keeps R (on_snd m)) as Hsnd.
  { intros X m [w v]. by apply safe_on_snd. }
  assert (∀ X (m : M (heap * V) X), keeps (on_world R) (heap_snd m)) as Hheap.
  { intros X m [h [w v]] x s'. unfold heap_snd, on_world. simpl.
    destruct (m (h, v)) as [[y [h' v']]| |]; simpl; intros Heq; [|done..].
    injection Heq as <- <-. apply HR. }
  split; split; cbn; intros; try first [apply Hsnd|apply Hheap|apply keeps_ret; done].
  match goal with Hin : Tick _ ∈ _ |- _ => apply elem_of_cons in Hin as [[= ->]|Hin] end; [done|].
  match goal with Hin : Tick _ ∈ _ |- _ => by apply list_elem_of_singleton in Hin end.
Qed.
End lift.

(** ** The demonstration *)

Definition demo_world : Type := api_world * list call.
#[export] Instance demo_client : Client demo_world := lift_client (api_server (λ _ _, None)).
#[export] Instance demo_laws : @ClientLaws demo_world kube_errors_default demo_client :=
  @lift_client_laws api_world (list call) kube_errors_default _ (api_server_laws (λ _ _, None)).
#[export] Instance demo_admin : IAdmin demo_world := lift_admin (recording_admin (λ _, false)).
#[export] Instance demo_admin_laws : IAdminLaws demo_world.
Proof. apply lift_admin_laws, recording_admin_laws. Qed.
#[export] Instance demo_env : ControllerEnv demo_world := quiet_env.

(** A world with these objects. *)
Definition world_with (os : list Object) : demo_world :=
  ((list_to_map ((λ o, (object_key o, o)) <$> os), []), []).
