(* ===== verification/SyncProofs.v ===== *)
(** Scaling down: which StatefulSets a reconciliation can delete. *)

From Stdlib Require Import ZArith Lia.
From S2P Require Import Prelude GoStrings Errors Slot Node ClusterInfo AdminInterface Clustering.
From S2P Require Import Kube Utils Api Client Resources Connections Status Sync Frame Worlds.

Local Open Scope Z_scope.

Section present.
Context {W : Type} `{ClientLaws W}.

Definition sts_present (ns sts : string) (w : W) : Prop := is_Some (stored w !! ("StatefulSet", (ns, sts))).
(** No StatefulSet disappears. *)
Definition keeps_sts (w w' : W) : Prop := ∀ ns sts, sts_present ns sts w → sts_present ns sts w'.
#[export] Instance keeps_sts_preorder : PreOrder keeps_sts.
Proof. split; [by intros w ns sts|]. intros w1 w2 w3 H12 H23 ns sts Hs. by apply H23, H12. Qed.

Lemma keeps_sts_stored w w' : stored w' = stored w → keeps_sts w w'.
Proof. intros Heq ns sts. unfold sts_present. by rewrite Heq. Qed.
Lemma keeps_sts_insert k o w w' : stored w' = <[k := o]> (stored w) → keeps_sts w w'.
Proof. intros Heq ns sts. unfold sts_present. rewrite Heq, lookup_insert_is_Some'. by right. Qed.

Lemma keeps_sts_Get {T} `{KObject T} ns name : keeps keeps_sts (client_Get (T := T) ns name).
Proof.
  intros w. eapply safe_mono; [apply runs_safe, Get_law|]. intros r w' [Hw _]. by apply keeps_sts_stored.
Qed.
Lemma keeps_sts_List {T} `{KObject T} ns labels : keeps keeps_sts (client_List (T := T) ns labels).
Proof.
  intros w. eapply safe_mono; [apply runs_safe, List_law|]. intros r w' [Hw _]. by apply keeps_sts_stored.
Qed.
Lemma keeps_sts_StatusUpdate {T} `{KObject T} (x : T) : keeps keeps_sts (client_StatusUpdate x).
Proof.
  intros w. eapply safe_mono; [apply runs_safe, StatusUpdate_obj_law|]. intros [y [e|]] w' Hw; cbn [fst snd] in Hw.
  - destruct Hw as [_ Hw]. by apply keeps_sts_stored.
  - destruct Hw as (old & _ & _ & Hw). by eapply keeps_sts_insert.
Qed.
(** A deletion removes at most the object it names. *)
Lemma Delete_sts {T} `{KObject T} (x : T) (w : W) :
  safe (client_Delete x) w (λ _ w',
    ∀ ns sts, sts_present ns sts w → sts_present ns sts w' ∨ key_of x = ("StatefulSet", (ns, sts))).
Proof.
  eapply safe_mono; [apply runs_safe, Delete_law|]. intros [e|] w' Hw ns sts Hs.
  - left. unfold sts_present. by rewrite Hw.
  - destruct (decide (key_of x = ("StatefulSet", (ns, sts)))) as [Heq|Hne]; [by right|left].
    unfold sts_present. by rewrite Hw, lookup_delete_ne.
Qed.
Lemma keeps_sts_Delete {T} `{KObject T} (x : T) :
  kind_of T ≠ "StatefulSet" → keeps keeps_sts (client_Delete x).
Proof.
  intros Hk w. eapply safe_mono; [apply Delete_sts|]. intros ? w' Hw ns sts Hs.
  destruct (Hw _ _ Hs) as [|Heq]; [done|]. apply (f_equal fst) in Heq.
  unfold key_of, object_key in Heq. cbn [fst] in Heq. by rewrite kind_to_object in Heq.
Qed.
#[local] Hint Resolve keeps_sts_Get keeps_sts_List keeps_sts_StatusUpdate keeps_sts_Delete : keeps.
#[local] Hint Extern 0 (kind_of _ ≠ _) => discriminate : keeps.

(** [DeleteStatefulSetByName] deletes no other StatefulSet. *)
Lemma DeleteStatefulSetByName_sts ns name (w : W) :
  safe (DeleteStatefulSetByName ns name) w (λ _ w',
    ∀ ns' sts, sts_present ns' sts w → sts_present ns' sts w' ∨ (ns' = ns ∧ sts = name)).
Proof.
  unfold DeleteStatefulSetByName, delete_by_name, GetStatefulSet, DeleteStatefulSet. apply safe_bind.
  intros r w1 Hr. pose proof (keeps_sts_Get _ _ _ _ _ Hr) as Hk. apply Get_key_law in Hr.
  destruct r as [e|x]; [apply safe_ret; left; by apply Hk|].
  eapply safe_mono; [apply Delete_sts|]. intros ? w' Hw ns' sts Hs%Hk.
  destruct (Hw _ _ Hs) as [|Heq]; [by left|right]. rewrite Hr in Heq. by injection Heq as <- <-.
Qed.
Lemma keeps_sts_DeletePvcByLabels ns labels : keeps keeps_sts (DeletePvcByLabels ns labels).
Proof. unfold DeletePvcByLabels. keeps. Qed.
Lemma keeps_sts_waitPodTerminating `{MapRange} cl sts : keeps keeps_sts (waitPodTerminating_Handler cl sts).
Proof. unfold waitPodTerminating_Handler, GetStatefulSetPodsByLabels. keeps. Qed.
Lemma keeps_sts_DeleteServiceByName ns name : keeps keeps_sts (DeleteServiceByName ns name).
Proof. unfold DeleteServiceByName, delete_by_name, GetService, DeleteService. keeps. Qed.
Lemma keeps_sts_DeletePDBByName ns name : keeps keeps_sts (DeletePodDisruptionBudgetByName ns name).
Proof.
  unfold DeletePodDisruptionBudgetByName, delete_by_name, GetPodDisruptionBudget, DeletePodDisruptionBudget. keeps.
Qed.
End present.
#[export] Hint Resolve keeps_sts_Get keeps_sts_List keeps_sts_StatusUpdate keeps_sts_Delete : keeps.
#[export] Hint Resolve keeps_sts_waitPodTerminating keeps_sts_DeletePvcByLabels keeps_sts_DeleteServiceByName keeps_sts_DeletePDBByName : keeps.

Section scale_down.
Context `{MapRange} `{SortPkg} `{K8sApi} `{ObjectStore}.
Context {W : Type} `{ClientLaws W} `{IAdminLaws W} `{!ControllerEnv W} `{!AdminFrame (keeps_sts (W := W))}.
Implicit Types (cl : DistributedRedisCluster) (sets : gmap string Nodes) (h : heap) (s : heap * W).

Definition set_nodes cl sets (i : Z) : Nodes := default [] (sets !! ClusterStatefulSetName (drc_Name cl) i).
(** The nodes of a StatefulSet own no slot. *)
Definition set_empty h cl sets (i : Z) : Prop := Forall (λ p, Slots (h !!! p) = []) (set_nodes cl sets i).

Lemma empty_slots_sub h h' p : h ⊆ h' → Slots (h' !!! p) = [] → Slots (h !!! p) = [].
Proof.
  intros Hsub. destruct (h !! p) as [n|] eqn:Hp.
  - rewrite (lookup_total_correct _ _ _ Hp), (lookup_total_correct h' p n); [done|].
    by eapply lookup_weaken.
  - intros _. by rewrite (lookup_total_alt h p), Hp.
Qed.

(** The forgotten nodes have no slots. *)
Lemma forget_nodes_spec h nodes s :
  h ⊆ s.1 →
  safe (forget_nodes nodes) s (λ e s',
    keeps_sts s.2 s'.2 ∧ (e = None → h ⊆ s'.1 ∧ Forall (λ p, Slots (h !!! p) = []) nodes)).
Proof.
  intros Hsub. unfold forget_nodes.
  eapply safe_for_err with (I := λ done s', keeps_sts s.2 s'.2 ∧ h ⊆ s'.1 ∧ Forall (λ p, Slots (h !!! p) = []) done).
  - done.
  - intros done p rest s' _ (Hk & Hh & Hd). apply safe_bind, safe_gets.
    destruct (decide (0 < _)%nat) as [Hlen|Hlen].
    + destruct (Node_String _ _) as [n text]. apply safe_bind, safe_modify, safe_ret. by split.
    + apply safe_bind. intros e [h' w'] Hf. assert (keeps_sts s'.2 w') as Hk' by by eapply frame_ForgetNode in Hf.
      destruct s' as [h0 w0]. apply ForgetNode_heap in Hf. apply safe_ret. cbn [fst snd] in *.
      assert (keeps_sts s.2 w') by by etrans. destruct e as [e|]; simpl; [done|].
      split_and!; [done|by etrans|]. apply Forall_app. split; [done|]. apply Forall_singleton.
      eapply empty_slots_sub; [exact Hh|]. destruct (Slots _); [done|]. simpl in Hlen. lia.
  - intros s' (Hk & Hh & Hd). done.
Qed.

(** Going on after a call that deletes no StatefulSet. *)
Lemma safe_on_snd_keeps {A B} (m : M W A) (k : A → M (heap * W) B) h w0 w P :
  keeps keeps_sts m → keeps_sts w0 w → (∀ a w', keeps_sts w0 w' → safe (k a) (h, w') P) →
  safe (on_snd m ≫= k) (h, w) P.
Proof.
  intros Hm Hw Hk. apply safe_bind, safe_on_snd. intros a w' Ha%Hm. apply Hk. by etrans.
Qed.

(** A round of the loop of [scalingDown]: with an error nothing is deleted; without, the
    StatefulSet was empty, and it is the only one that can be gone. *)
Lemma scale_down_set_spec h cl sets i s :
  h ⊆ s.1 →
  safe (scale_down_set cl sets i) s (λ e s',
    match e with
    | Some _ => keeps_sts s.2 s'.2
    | None =>
        h ⊆ s'.1 ∧ set_empty h cl sets i ∧
        ∀ ns sts, sts_present ns sts s.2 →
          sts_present ns sts s'.2 ∨ (ns = drc_Namespace cl ∧ sts = ClusterStatefulSetName (drc_Name cl) i)
    end).
Proof.
  intros Hsub. unfold scale_down_set. destruct s as [h0 w0]. apply safe_bind, safe_on_snd. intros r w1 Hr.
  unfold GetStatefulSet in Hr. apply keeps_sts_Get in Hr. destruct r as [e|sts]; [by apply safe_ret|].
  apply safe_bind. eapply safe_mono; [by apply forget_nodes_spec|]. intros [e|] s' [Hk Hh]; cbn [snd] in Hk.
  { apply safe_ret. cbn [snd]. by etrans. }
  destruct (Hh eq_refl) as [Hh' Hempty]. destruct s' as [h1 w2]. cbn [fst snd] in *.
  apply safe_bind, safe_on_snd. intros e w3 He. apply DeleteStatefulSetByName_sts in He.
  eapply (safe_mono _ _ (λ e s', e = None ∧ h1 = s'.1 ∧ keeps_sts w3 s'.2)).
  - do 4 (eapply (safe_on_snd_keeps _ _ _ w3); [|first [eassumption|reflexivity]|]; [eauto with keeps|intros ? ? ?]).
    apply safe_ret. by split_and!.
  - intros e' s' (-> & <- & Hk'). split_and!; [done..|]. intros ns sts' Hs.
    destruct (He ns sts') as [|[-> ->]]; [by apply Hk, Hr|left; by apply Hk'|by right].
Qed.

(** The sets before one that has been handled have been handled. *)
Lemma reverse_seqZ_prefix m n done rest i j :
  reverse (seqZ m n) = done ++ rest → i ∈ done → i ≤ j < m + n → j ∈ done.
Proof.
  intros Hl Hi Hj. assert (m ≤ i) as Hm.
  { assert (i ∈ reverse (seqZ m n)) as Hin by (rewrite Hl; apply elem_of_app; by left).
    rewrite elem_of_reverse, elem_of_seqZ in Hin. lia. }
  assert (j ∈ reverse (seqZ m n)) as Hin by (rewrite elem_of_reverse, elem_of_seqZ; lia).
  rewrite Hl, elem_of_app in Hin. destruct Hin as [|Hin]; [done|exfalso].
  apply list_elem_of_lookup in Hi as [a Ha], Hin as [b Hb].
  assert (reverse (seqZ m n) !! a = Some i) as Ha' by (rewrite Hl; by apply lookup_app_l_Some).
  assert (reverse (seqZ m n) !! (length done + b)%nat = Some j) as Hb'.
  { rewrite Hl, lookup_app_r by lia. by replace (length done + b - length done)%nat with b by lia. }
  apply lookup_lt_Some in Ha. apply reverse_lookup_Some in Ha' as [Ha' ?], Hb' as [Hb' ?].
  rewrite lookup_seqZ in Ha', Hb'. rewrite length_seqZ in *. lia.
Qed.

(** C14: scaling down deletes a StatefulSet only when it is beyond the expected number of
    masters and its nodes own no slot, and then those of every higher index own none
    either; with an error, no matter where, and whatever the other requests and the
    waits do, every other StatefulSet of the store is still there. *)
Theorem scalingDown_keeps_slots cl n sets h (w : W) :
  safe (scalingDown cl n sets) (h, w) (λ r s', ∀ ns sts,
    sts_present ns sts w →
    sts_present ns sts s'.2 ∨
    ∃ i, ns = drc_Namespace r.1 ∧ sts = ClusterStatefulSetName (drc_Name r.1) i ∧
      MasterSize (Spec r.1) ≤ i < n ∧ ∀ j, i ≤ j < n → set_empty h r.1 sets j).
Proof.
  unfold scalingDown. eapply safe_on_snd_keeps; [|reflexivity|]; [apply keeps_sts_StatusUpdate|].
  intros [cl' e0] w1 Hw1. cbn [fst]. apply safe_bind. cbv zeta.
  eapply safe_mono.
  { eapply safe_for_each_inv with (I := λ s, h = s.1 ∧ keeps_sts w s.2); [done|]. intros i s _ [Hh Hk].
    apply (safe_for_each_inv _ _ _ (λ s, h = s.1 ∧ keeps_sts w s.2)); [done|]. clear s Hh Hk. intros p [h' w'] _ [Hh Hk]. cbn [fst snd] in Hh, Hk. subst h'.
    apply safe_bind, safe_gets.
    apply safe_on_snd. intros ? w2 Hr%frame_Remove. cbn [fst snd] in *. split; [done|by etrans]. }
  intros _ [h' w2] [Hh Hw2]. cbn [fst snd] in Hh, Hw2. subst h'. apply safe_bind.
  set (idxs := reverse _).
  assert (∀ done rest j, idxs = done ++ rest → Forall (set_empty h cl' sets) done → j ∈ done →
    MasterSize (Spec cl') ≤ j ∧ j < n ∧ ∀ k, j ≤ k < n → set_empty h cl' sets k) as Hall.
  { intros done rest j Hl Hd Hj. assert (j ∈ idxs) as Hin by (rewrite Hl; apply elem_of_app; by left).
    unfold idxs in Hin. rewrite elem_of_reverse, elem_of_seqZ in Hin. split_and!; [lia..|].
    intros k Hk. rewrite Forall_forall in Hd. apply Hd. eapply reverse_seqZ_prefix; [exact Hl|exact Hj|lia]. }
  eapply safe_for_err with (I := λ done s', h ⊆ s'.1 ∧ Forall (set_empty h cl' sets) done ∧ ∀ ns sts,
    sts_present ns sts w → sts_present ns sts s'.2 ∨
    ∃ i, ns = drc_Namespace cl' ∧ sts = ClusterStatefulSetName (drc_Name cl') i ∧ i ∈ done).
  - split_and!; [done..|]. left. by apply Hw2.
  - intros done i rest s Hl (Hh & Hd & Hp). eapply safe_mono; [by apply scale_down_set_spec|].
    intros [e|] s' Hs.
    + apply safe_ret. intros ns sts Hst. destruct (Hp _ _ Hst) as [Hst'|(j & -> & -> & Hj)]; [left; by apply Hs|].
      right. exists j. split_and!; [done|done|by eapply Hall..].
    + destruct Hs as (Hh' & He & Hs). split_and!; [done|by apply Forall_app; split; [|apply Forall_singleton]|].
      intros ns sts Hst. setoid_rewrite elem_of_app. destruct (Hp _ _ Hst) as [Hst'|(j & -> & -> & Hj)].
      * destruct (Hs _ _ Hst') as [|[-> ->]]; [by left|right]. exists i. rewrite list_elem_of_singleton. auto.
      * right. exists j. auto.
  - intros s (Hh & Hd & Hp). apply safe_ret. intros ns sts Hst.
    destruct (Hp _ _ Hst) as [|(j & -> & -> & Hj)]; [by left|right].
    exists j. split_and!; [done|done|by eapply (Hall idxs []); rewrite ?app_nil_r..].
Qed.
End scale_down.

(** ** Scaling down in the concrete world *)

#[local] Existing Instances range_default sort_default k8s_default object_store_default kube_errors_default.

#[local] Instance demo_sts_frame : AdminFrame (W := demo_world) keeps_sts.
Proof. apply lift_admin_frame; [apply _|]. intros. apply keeps_sts_stored. reflexivity. Qed.

(** Four StatefulSets where three are expected. *)
Definition demo_sts (i : Z) : AppsStatefulSet :=
  mkStatefulSet (newObjectMeta (ClusterStatefulSetName "cache" i) "ns" ∅ [])
    (mkStatefulSetSpec "" (Some 1) "" ∅ ∅ ∅ zero_PodSpec []) 1 1.
Definition demo_four : demo_world :=
  world_with (OCluster (demo_drc demo_spec "") :: (OStatefulSet ∘ demo_sts <$> seqZ 0 4)).
Definition demo_sets : gmap string Nodes := {[ "drc-cache-3" := [1%positive] ]}.
Abbreviation demo_scaling := (scalingDown (demo_drc demo_spec "") 4 demo_sets ({[ 1%positive := NewDefaultNode ]}, demo_four)).

Lemma demo_scaling_run :
  match demo_scaling with
  | Val (r, s') =>
      drc_Namespace r.1 = "ns" ∧ drc_Name r.1 = "cache" ∧ MasterSize (Spec r.1) = 3 ∧
      stored s'.2 !! ("StatefulSet", ("ns", "drc-cache-3")) = None
  | _ => False
  end.
Proof. vm_compute. repeat split; reflexivity. Qed.

Lemma scalingDown_keeps_slots_witness :
  ∃ r s', demo_scaling = Val (r, s') ∧ ¬ sts_present "ns" "drc-cache-3" s'.2 ∧
    ∃ i, 3 ≤ i < 4 ∧ set_empty {[ 1%positive := NewDefaultNode ]} r.1 demo_sets i.
Proof.
  pose proof demo_scaling_run as Hrun.
  pose proof (scalingDown_keeps_slots (demo_drc demo_spec "") 4 demo_sets {[ 1%positive := NewDefaultNode ]} demo_four) as Hsafe.
  unfold safe in Hsafe. revert Hrun Hsafe. generalize demo_scaling.
  intros [[r s']| |] Hrun Hsafe; [|destruct Hrun..].
  destruct Hrun as (Hns & Hname & Hm & Hgone). exists r, s'.
  assert (¬ sts_present "ns" "drc-cache-3" s'.2) as Hno.
  { unfold sts_present. rewrite Hgone. intros [x Hx]. discriminate Hx. }
  split; [reflexivity|]. split; [exact Hno|].
  destruct (Hsafe r s' eq_refl "ns" "drc-cache-3") as [Hp|(i & _ & _ & Hi & Hempty)].
  - eexists. vm_compute. reflexivity.
  - contradiction.
  - rewrite Hm in Hi. exists i. split; [exact Hi|]. apply Hempty. lia.
Defined.
