(* ===== verification/SyncSlots.v ===== *)
(** What a whole [syncCluster] does to the hash slots: it builds the clustering context
    from the views of the nodes, and the operation it chooses finds the slots in the
    state it relies on. *)

From Stdlib Require Import ZArith Lia.
From S2P Require Import Prelude GoStrings GoFloat Errors Slot Node ClusterInfo AdminInterface.
From S2P Require Import Groups Clustering Migration MigrationProofs Rebalance RebalanceProofs.
From S2P Require Import Kube Utils Api Client Heal Resources Connections Status Sync Frame Worlds SyncProofs.

Local Open Scope Z_scope.

(** ** The slots of the nodes *)

(** What the nodes of a cluster satisfy, as Redis reports them: distinct IDs, slots of
    the cluster without overlap, and only masters hold any. *)
Record cluster_ok (h : heap) (l : Nodes) : Prop := {
  cok_NoDup : NoDup l;
  cok_id : ∀ p q, p ∈ l → q ∈ l → ID (h !!! p) = ID (h !!! q) → p = q;
  cok_id_nonempty : ∀ p, p ∈ l → ID (h !!! p) ≠ "";
  cok_alloc : ∀ p, p ∈ l → is_Some (h !! p);
  cok_slots_NoDup : ∀ p, p ∈ l → NoDup (Slots (h !!! p));
  cok_slots_range : ∀ p s, p ∈ l → s ∈ Slots (h !!! p) → 0 ≤ s < 16384;
  cok_disjoint : ∀ p q s, p ∈ l → q ∈ l → s ∈ Slots (h !!! p) → s ∈ Slots (h !!! q) → p = q;
  cok_holders : ∀ p, p ∈ l → Slots (h !!! p) ≠ [] → GetRole (h !!! p) = RedisClusterNodeRoleMaster;
}.

(** The masters that hold slots. *)
Definition holders (h : heap) (l : Nodes) : Nodes := filter (λ p, IsMasterWithSlot (h !!! p) = true) l.

Lemma IsMasterWithSlot_true n :
  IsMasterWithSlot n = true ↔ GetRole n = RedisClusterNodeRoleMaster ∧ Slots n ≠ [].
Proof.
  unfold IsMasterWithSlot, TotalSlots. rewrite andb_true_iff, bool_decide_eq_true, Z.ltb_lt.
  destruct (Slots n); simpl; intuition (try done; try lia).
Qed.

Lemma elem_of_holders h l p : cluster_ok h l → p ∈ holders h l ↔ p ∈ l ∧ Slots (h !!! p) ≠ [].
Proof.
  intros Hok. unfold holders. rewrite list_elem_of_filter, IsMasterWithSlot_true.
  pose proof (cok_holders _ _ Hok p). tauto.
Qed.

(** ** What changes of the nodes on the way *)

(** Names and roles may change; slots, IDs and the nodes themselves stay. *)
Definition same_slots (h h' : heap) : Prop := ∀ p,
  Slots (h' !!! p) = Slots (h !!! p) ∧ ID (h' !!! p) = ID (h !!! p) ∧ (is_Some (h !! p) → is_Some (h' !! p)).
#[export] Instance same_slots_preorder : PreOrder same_slots.
Proof.
  split; [by intros h p|]. intros h1 h2 h3 H12 H23 p.
  destruct (H12 p) as (? & ? & ?), (H23 p) as (? & ? & ?). split_and!; [congruence|congruence|auto].
Qed.
(** As when the nodes get the names of their pods. *)
Definition same_role (h h' : heap) : Prop := same_slots h h' ∧ ∀ p, GetRole (h' !!! p) = GetRole (h !!! p).
#[export] Instance same_role_preorder : PreOrder same_role.
Proof.
  split; [by intros h|]. intros h1 h2 h3 [H12 R12] [H23 R23]. split; [by etrans|]. intros p. by rewrite R23.
Qed.

Lemma heap_upd_is_Some f p q h : is_Some (h !! q) → is_Some (heap_upd f p h !! q).
Proof. unfold heap_upd. rewrite lookup_insert_is_Some'. by right. Qed.
Lemma same_slots_upd f p h :
  (∀ n, Slots (f n) = Slots n ∧ ID (f n) = ID n) → same_slots h (heap_upd f p h).
Proof.
  intros Hf q. rewrite heap_upd_case. destruct (Hf (h !!! q)). case_decide; split_and!; auto using heap_upd_is_Some.
Qed.

Lemma cluster_ok_same_role h h' l : same_role h h' → cluster_ok h l → cluster_ok h' l.
Proof.
  intros [Hs Hr] Hok. assert (∀ p, Slots (h' !!! p) = Slots (h !!! p)) as Hsl by (intros; apply Hs).
  assert (∀ p, ID (h' !!! p) = ID (h !!! p)) as Hid by (intros; apply Hs).
  split; [by apply Hok| | | | | | |].
  - intros p q. rewrite !Hid. apply Hok.
  - intros p. rewrite Hid. apply Hok.
  - intros p Hp. by apply Hs, Hok.
  - intros p. rewrite Hsl. apply Hok.
  - intros p s. rewrite Hsl. apply Hok.
  - intros p q s. rewrite !Hsl. apply Hok.
  - intros p. rewrite Hsl, Hr. apply Hok.
Qed.
Lemma holders_same_role h h' l : same_role h h' → holders h' l = holders h l.
Proof.
  intros [Hs Hr]. apply list_filter_iff. intros p. rewrite !IsMasterWithSlot_true, Hr.
  by rewrite (proj1 (Hs p)).
Qed.

(** ** The context *)

(** The StatefulSet under which a node is listed. *)
Definition set_name (n : Node) : string := if decide (StatefulSet n = "") then unknownVMName else StatefulSet n.
Definition nodes_of (h : heap) : Nodes → string → Nodes := group (λ p, set_name (h !!! p)).

Section context.
Context `{MapRange}.
Implicit Types (h : heap) (c : Ctx) (l : Nodes).

Lemma sortRedisNode_spec h l c m :
  indexes (cluster c) h l →
  foldl (sortRedisNodeByStatefulSet_step h) (c, m) l =
    (c <| currentMasters := currentMasters c ++ holders h l |>,
     foldl (λ m p, map_append m (set_name (h !!! p)) p) m l).
Proof.
  revert c m. induction l as [|p l IH]; intros c m Hix.
  { simpl. rewrite app_nil_r. by destruct c. }
  cbn [foldl]. unfold sortRedisNodeByStatefulSet_step at 2, Cluster_GetNodeByID.
  rewrite Hix by (by left). fold (set_name (h !!! p)). fold (IsMasterWithSlot (h !!! p)).
  set (c1 := if IsMasterWithSlot (h !!! p) then _ else _).
  assert (cluster c1 = cluster c ∧
    c <| currentMasters := currentMasters c ++ holders h (p :: l) |> =
    c1 <| currentMasters := currentMasters c1 ++ holders h l |>) as [Hc1 ->].
  { unfold c1, holders. rewrite filter_cons. destruct (IsMasterWithSlot (h !!! p)); destruct c; simpl.
    - by rewrite <- (assoc_L (++)).
    - done. }
  apply IH. rewrite Hc1. intros q Hq. apply Hix. by right.
Qed.

Lemma NewCtx_spec h rc l n name :
  indexes rc h l →
  let c := NewCtx h rc l n name in
  expectedMasterNum c = n ∧ clusterName c = name ∧ newMastersBySts c = ∅ ∧ slavesByMaster c = ∅ ∧
  currentMasters c = holders h l ∧
  ∀ s ns, nodes c !! s = Some ns ↔ ns = nodes_of h l s ∧ ns ≠ [].
Proof.
  intros Hix. unfold NewCtx, sortRedisNodeByStatefulSet.
  rewrite (sortRedisNode_spec h l (mkCtx n name rc ∅ [] ∅ ∅ false) ∅) by done.
  cbn. split_and!; [done..|]. intros s ns. rewrite foldl_map_append, lookup_empty. unfold nodes_of.
  destruct (group _ l s); naive_solver.
Qed.
End context.

(** ** The chosen masters *)

(** What [DispatchMasters] gives on the nodes [l]: [new] has one master for each of the
    [n] expected StatefulSets. *)
Record masters_ok (h : heap) (l new : Nodes) (n : Z) : Prop := {
  mok_NoDup : NoDup new;
  mok_length : Z.of_nat (length new) = n;
  mok_in : ∀ p, p ∈ new → p ∈ l;
}.

Section masters.
Context `{MapRange}.
Implicit Types (h : heap) (c : Ctx) (l : Nodes).

Lemma set_name_inj_values h (m : gmap string ptr) site :
  (∀ s p, m !! s = Some p → set_name (h !!! p) = s) → NoDup (range site m).*2.
Proof.
  intros Hm. apply NoDup_fmap_2_strong; [|apply range_NoDup].
  intros [s p] [s' p'] Hp%elem_of_range Hp'%elem_of_range Heq. simpl in Heq. subst p'. f_equal.
  by rewrite <- (Hm _ _ Hp), <- (Hm _ _ Hp').
Qed.

(** What [DispatchMasters] leaves in the context. *)
Record dispatched (h : heap) (rc : RedisCluster) (l : Nodes) (cl_name : string) (n : Z) (c : Ctx) : Prop := {
  dp_cluster : cluster c = rc;
  dp_slaves : slavesByMaster c = ∅;
  dp_current : currentMasters c = holders h l;
  dp_nodes s ns : nodes c !! s = Some ns ↔ ns = nodes_of h l s ∧ ns ≠ [];
  dp_dom s : is_Some (newMastersBySts c !! s) ↔ ∃ i, 0 ≤ i < n ∧ s = ClusterStatefulSetName cl_name i;
  dp_master s m : newMastersBySts c !! s = Some m → m ∈ nodes_of h l s;
  dp_holder s m p : newMastersBySts c !! s = Some m → p ∈ nodes_of h l s → IsMasterWithSlot (h !!! p) = true → p = m;
}.
Lemma DispatchMasters_dispatched h rc l cl_name n c :
  indexes rc h l → n < 2 ^ 31 → DispatchMasters h (NewCtx h rc l n cl_name) = Val (c, None) →
  dispatched h rc l cl_name n c.
Proof.
  intros Hix Hn Heq. destruct (NewCtx_spec h rc l n cl_name Hix) as (Hexp & Hname & Hnew & Hsl & Hcur & Hnodes).
  assert (cluster (NewCtx h rc l n cl_name) = rc) as Hrc.
  { unfold NewCtx, sortRedisNodeByStatefulSet. by rewrite (sortRedisNode_spec h l (mkCtx n cl_name rc ∅ [] ∅ ∅ false) ∅). }
  set (c0 := NewCtx h rc l n cl_name) in *.
  destruct (DispatchMasters_spec h c0) as (c' & e & Heq' & (Hf1 & Hf2 & Hf3 & Hf4) & _ & Hpost); [lia|done|naive_solver|].
  rewrite Heq in Heq'. simplify_eq. destruct (Hpost eq_refl) as [Hdom Hprop]. rewrite Hexp, Hname in Hdom.
  split; try congruence.
  - intros s ns. by rewrite Hf1.
  - exact Hdom.
  - intros s m Hm. destruct (Hprop s m Hm) as (ns & Hns & Hin & _). by apply Hnodes in Hns as [-> _].
  - intros s m p Hm. destruct (Hprop s m Hm) as (ns & Hns & _ & Hu). apply Hnodes in Hns as [-> _]. apply Hu.
Qed.
Lemma dispatched_name h rc l cl_name n c s m :
  dispatched h rc l cl_name n c → newMastersBySts c !! s = Some m → set_name (h !!! m) = s ∧ m ∈ l.
Proof. intros Hd Hm. pose proof (dp_master _ _ _ _ _ _ Hd s m Hm) as Hin. by apply list_elem_of_filter in Hin. Qed.
Lemma elem_of_GetNewMasters c p : p ∈ GetNewMasters c ↔ ∃ s, newMastersBySts c !! s = Some p.
Proof.
  unfold GetNewMasters. rewrite list_elem_of_fmap. split.
  - intros ([s m] & -> & Hin%elem_of_range). by exists s.
  - intros [s Hs]. exists (s, p). split; [done|]. by apply elem_of_range.
Qed.

Lemma DispatchMasters_masters h rc l cl_name n c :
  cluster_ok h l → indexes rc h l → 0 ≤ n < 2 ^ 31 →
  DispatchMasters h (NewCtx h rc l n cl_name) = Val (c, None) →
  masters_ok h l (GetNewMasters c) n ∧ GetCurrentMasters c = holders h l ∧
  (∀ s ns, nodes c !! s = Some ns ↔ ns = nodes_of h l s ∧ ns ≠ []) ∧
  ((∀ s, is_Some (nodes c !! s) → is_Some (newMastersBySts c !! s)) → ∀ p, p ∈ holders h l → p ∈ GetNewMasters c).
Proof.
  intros Hok Hix Hn Heq. pose proof (DispatchMasters_dispatched _ _ _ _ _ _ Hix (proj2 Hn) Heq) as Hd.
  pose proof (dp_nodes _ _ _ _ _ _ Hd) as Hnodes. pose proof (dp_dom _ _ _ _ _ _ Hd) as Hdom.
  split; [|split_and!; [apply Hd|done|]].
  - split.
    + apply (set_name_inj_values h). intros s p Hp. by apply (dispatched_name _ _ _ _ _ _ s p Hd).
    + unfold GetNewMasters. rewrite length_fmap, <- (length_fmap fst).
      assert ((range 22 (newMastersBySts c)).*1 ≡ₚ ClusterStatefulSetName cl_name <$> seqZ 0 n) as ->.
      { apply NoDup_Permutation; [apply range_NoDup_keys| |].
        - apply NoDup_fmap_2_strong; [|apply NoDup_seqZ]. intros i j Hi%elem_of_seqZ Hj%elem_of_seqZ.
          apply ClusterStatefulSetName_inj; lia.
        - intros s. rewrite list_elem_of_fmap, list_elem_of_fmap. split.
          + intros ([s' m] & -> & Hin%elem_of_range). destruct (proj1 (Hdom s')) as (i & Hi & ->); [by eexists|].
            exists i. split; [done|]. apply elem_of_seqZ. lia.
          + intros (i & -> & Hi%elem_of_seqZ). destruct (proj2 (Hdom (ClusterStatefulSetName cl_name i))) as [m Hsm].
            { exists i. split; [lia|done]. }
            eexists (_, m). split; [done|]. by apply elem_of_range. }
      rewrite length_fmap, length_seqZ. lia.
    + intros p [s Hs]%elem_of_GetNewMasters. by apply (dispatched_name _ _ _ _ _ _ s p Hd).
  - intros Hall p Hp. apply list_elem_of_filter in Hp as [Hmast Hp].
    assert (p ∈ nodes_of h l (set_name (h !!! p))) as Hns by by apply list_elem_of_filter.
    destruct (Hall (set_name (h !!! p))) as [m Hsm].
    { eexists. apply Hnodes. split; [done|]. intros Hnil. rewrite Hnil in Hns. by apply elem_of_nil in Hns. }
    rewrite (dp_holder _ _ _ _ _ _ Hd _ _ p Hsm Hns Hmast). apply elem_of_GetNewMasters. by eexists.
Qed.

(** [PlaceSlaves] only returns when every StatefulSet with nodes has a new master. *)
Lemma PlaceSlaves_nodes_masters h m ns c c' :
  PlaceSlaves_nodes h m ns c = Val c' → newMastersBySts c' = newMastersBySts c ∧ (ns ≠ [] → is_Some m).
Proof.
  destruct m as [m|].
  - destruct (PlaceSlaves_nodes_spec h m ns c) as (c1 & -> & Hc1 & _ & _). intros. simplify_eq. split; [done|by eexists].
  - destruct ns; simpl; intros; simplify_eq. split; [done|]. by intros [].
Qed.
Lemma PlaceSlaves_loop_masters h sets c c' :
  PlaceSlaves_loop h sets c = Val c' →
  ∀ s ns, (s, ns) ∈ sets → ns ≠ [] → is_Some (newMastersBySts c !! s).
Proof.
  revert c. induction sets as [|[s ns] sets IH]; intros c Heq s' ns' Hin Hne; [by apply elem_of_nil in Hin|].
  cbn [PlaceSlaves_loop] in Heq. apply go_bind_Val in Heq as (c1 & H1 & H2).
  destruct (PlaceSlaves_nodes_masters _ _ _ _ _ H1) as [Hc1 Hm]. apply elem_of_cons in Hin as [[= -> ->]|Hin]; [by apply Hm|].
  rewrite <- Hc1. by eapply IH.
Qed.
Lemma PlaceSlaves_masters h c c' e :
  PlaceSlaves h c = Val (c', e) → ∀ s ns, nodes c !! s = Some ns → ns ≠ [] → is_Some (newMastersBySts c !! s).
Proof.
  unfold PlaceSlaves. intros (c1 & Hloop & _)%go_bind_Val s ns Hs Hne.
  eapply (PlaceSlaves_loop_masters _ _ _ _ Hloop); [by apply elem_of_range|done].
Qed.
End masters.

(** ** The steps of a synchronisation *)

Section index.
Implicit Types (h : heap) (l : Nodes) (m : gmap string ptr).

Definition index_nodes h l m : gmap string ptr := foldl (λ m node, <[ID (h !!! node) := node]> m) m l.
Lemma index_nodes_other h l m k : (∀ q, q ∈ l → ID (h !!! q) ≠ k) → index_nodes h l m !! k = m !! k.
Proof.
  revert m. induction l as [|q l IH]; intros m Hk; [done|]. unfold index_nodes. cbn [foldl].
  fold (index_nodes h l (<[ID (h !!! q) := q]> m)). rewrite IH by (intros; apply Hk; by right).
  apply lookup_insert_ne, Hk. by left.
Qed.
Lemma index_nodes_lookup h l m p :
  (∀ q, q ∈ l → ID (h !!! q) = ID (h !!! p) → q = p) → p ∈ l → index_nodes h l m !! ID (h !!! p) = Some p.
Proof.
  revert m. induction l as [|q l IH]; intros m Hinj Hp; [by apply elem_of_nil in Hp|].
  unfold index_nodes. cbn [foldl]. fold (index_nodes h l (<[ID (h !!! q) := q]> m)).
  destruct (decide (p ∈ l)) as [Hl|Hl]; [apply IH; [|done]; intros; apply Hinj; [by right|done]|].
  apply elem_of_cons in Hp as [->|?]; [|done]. rewrite index_nodes_other; [apply lookup_insert_eq|].
  intros x Hx Heq. rewrite (Hinj x) in Hx; [done|by right|done].
Qed.
End index.

Section steps.
Context `{MapRange} `{SortPkg} `{K8sApi} `{ObjectStore}.
Context {W : Type} `{ClientLaws W} `{IAdminLaws W} `{!ControllerEnv W}.
Implicit Types (cl : DistributedRedisCluster) (h : heap) (w : W) (l : Nodes).

(** The number of slots is a constant of the cluster. *)
Definition same_max (w w' : W) : Prop := GetHashMaxSlot w' = GetHashMaxSlot w.
#[export] Instance same_max_preorder : PreOrder same_max.
Proof. split; [done|]. intros w1 w2 w3. unfold same_max. congruence. Qed.
Context `{!AdminFrame same_max} `{!AdminFrame (keeps_sts (W := W))}.

Lemma newRedisCluster_spec infos cl h :
  cluster_ok h (GetNodes infos) →
  safe (newRedisCluster infos cl) h (λ r h',
    r.1.2 = GetNodes infos ∧ r.2 = None ∧ same_role h h' ∧ indexes r.1.1 h' (GetNodes infos)).
Proof.
  intros Hok. unfold newRedisCluster. apply safe_bind, safe_gets, safe_bind. unfold Datatypes.id.
  eapply safe_mono.
  - apply (keeps_for_each same_role). intros node. unfold name_node. case_match; [|apply keeps_ret; exact _].
    apply keeps_modify. intros h0. split; [by apply same_slots_upd|]. intros q. rewrite heap_upd_case. by case_decide.
  - intros ? h' Hrole. apply safe_ret. cbn [fst snd]. split_and!; [done..|]. intros p Hp. cbn.
    destruct Hrole as [Hs _]. rewrite (proj1 (proj2 (Hs p))). apply index_nodes_lookup; [|done].
    intros q Hq. by apply Hok.
Qed.

Lemma become_slave_same id n : Slots (become_slave id n) = Slots n ∧ ID (become_slave id n) = ID n.
Proof. unfold become_slave, SetReferentMaster. by case_decide. Qed.
Lemma keeps_slots_AttachSlave p id : keeps (on_first same_slots) (admin_AttachSlaveToMaster (W := W) p id).
Proof.
  intros [h w] e [h' w'] Heq. apply AttachSlaveToMaster_heap in Heq as ->. unfold on_first. cbn [fst].
  destruct e; [done|]. apply same_slots_upd, become_slave_same.
Qed.
Hint Resolve keeps_slots_AttachSlave : keeps.
Lemma keeps_slots_AttachingSlaves c : keeps (on_first (same_slots)) (AttachingSlavesToMaster (W := W) c).
Proof. unfold AttachingSlavesToMaster. keeps. Qed.

(** Placing the slaves only changes roles, and needs a new master for every set. *)
Lemma place_slaves_spec c h w :
  safe (place_slaves c) (h, w) (λ _ s', same_slots h s'.1 ∧ same_max w s'.2 ∧
    ∀ s ns, nodes c !! s = Some ns → ns ≠ [] → is_Some (newMastersBySts c !! s)).
Proof.
  unfold place_slaves. apply safe_bind, safe_gets, safe_bind, safe_pure. intros [c' e] Hps. cbn [fst] in Hps.
  pose proof (PlaceSlaves_masters _ _ _ _ Hps) as Hall.
  destruct e as [e|]; [by apply safe_ret|]. apply safe_bind.
  intros e [h' w'] Hatt. pose proof (keeps_slots_AttachingSlaves _ _ _ _ Hatt) as Hs.
  pose proof (keeps_AttachingSlavesToMaster same_max _ _ _ _ Hatt) as Hm. by apply safe_ret.
Qed.

(** The migration allocates, and never frees. *)
Definition grows (h h' : heap) : Prop := ∀ p, is_Some (h !! p) → is_Some (h' !! p).
#[export] Instance grows_preorder : PreOrder grows.
Proof. split; [by intros h p|]. intros h1 h2 h3 H12 H23 p Hp. by apply H23, H12. Qed.
Lemma keeps_grows_upd f p : keeps (on_first (T := W) grows) (modify (λ st, (upd_slots f p st.1, st.2))).
Proof. apply keeps_modify. intros [h w] q. cbn [fst]. apply heap_upd_is_Some. Qed.
Hint Resolve keeps_grows_upd : keeps.
Lemma keeps_grows_DispatchSlots c new old all :
  keeps (on_first grows) (DispatchSlotToNewMasters (W := W) c new old all).
Proof.
  unfold DispatchSlotToNewMasters. apply keeps_bind; [exact _|apply keeps_gets; exact _|]. intros st.
  destruct (feedMigInfo _ _ _ _). keeps. unfold dispatch_migration, tell_others. destruct x as [[[]]]; keeps.
Qed.

Lemma scalingDown_grows cl n sets h w :
  safe (scalingDown cl n sets) (h, w) (λ r s', r.2 = None → h ⊆ s'.1).
Proof.
  unfold scalingDown. apply safe_bind, safe_on_snd. intros [cl' e] w1 _. cbn [fst]. apply safe_bind.
  eapply safe_mono; [apply (keeps_for_each (on_first eq)); intros; keeps|]. intros ? s Hs. cbn [fst snd on_first] in Hs.
  apply safe_bind. eapply (safe_for_err _ _ _ (λ _ s, h ⊆ s.1)).
  - unfold on_first in Hs. cbn [fst] in Hs. by rewrite <- Hs.
  - intros done i rest s' _ Hsub. eapply safe_mono; [by apply scale_down_set_spec|].
    intros [e'|] s'' Hspec; [by apply safe_ret|naive_solver].
  - intros s' Hsub. by apply safe_ret.
Qed.
End steps.

(** ** A synchronisation *)

Definition all_held (h : heap) (l : Nodes) : Prop := ∀ s, 0 ≤ s < 16384 → ∃ p, p ∈ l ∧ s ∈ Slots (h !!! p).

Section arithmetic.
Implicit Types (h : heap) (l new : Nodes).

(** The masters chosen hold all the slots when no holder is left out. *)
Lemma slots_held h l new n :
  cluster_ok h l → masters_ok h l new n → (∀ p, p ∈ holders h l → p ∈ new) → all_held h l →
  (new ≫= λ p, Slots (h !!! p)) ≡ₚ seqZ 0 16384.
Proof.
  intros Hok Hnew Hold Hall. apply NoDup_Permutation; [|apply NoDup_seqZ|].
  - apply NoDup_bind; [| |apply Hnew].
    + intros p q s Hp%(mok_in _ _ _ _ Hnew) Hq%(mok_in _ _ _ _ Hnew). by eapply (cok_disjoint _ _ Hok).
    + intros p Hp%(mok_in _ _ _ _ Hnew). by apply (cok_slots_NoDup _ _ Hok).
  - intros s. rewrite list_elem_of_bind, elem_of_seqZ. split.
    + intros (p & Hs & Hp%(mok_in _ _ _ _ Hnew)). pose proof (cok_slots_range _ _ Hok p s Hp Hs). lia.
    + intros Hs. destruct (Hall s) as (p & Hp & Hsp); [lia|]. exists p. split; [done|].
      apply Hold, elem_of_holders; [done|]. split; [done|]. intros Hnil. rewrite Hnil in Hsp. by apply elem_of_nil in Hsp.
Qed.

(** A chosen master without slots, when there are more masters than holders. *)
Lemma new_master_empty h l new n :
  cluster_ok h l → masters_ok h l new n → (length (holders h l) < length new)%nat →
  ∃ p, p ∈ new ∧ Slots (h !!! p) = [].
Proof.
  intros Hok Hnew Hlen. destruct (decide (Exists (λ p, Slots (h !!! p) = []) new)) as [(p & Hp & Hs)%Exists_exists|Hno].
  { by exists p. }
  exfalso. rewrite <- Forall_Exists_neg, Forall_forall in Hno.
  assert (new ⊆+ holders h l) as Hsub%submseteq_length; [|lia].
  apply NoDup_submseteq; [apply Hnew|]. intros p Hp. apply elem_of_holders; [done|].
  split; [by eapply mok_in|by apply Hno].
Qed.

Lemma masters_bom_ok h l new n :
  cluster_ok h l → masters_ok h l new n → 1 ≤ n → bom_ok h new (holders h l) 16384.
Proof.
  intros Hok Hnew Hn. assert (∀ p, p ∈ new ++ holders h l → p ∈ l) as Hin.
  { intros p [Hp|Hp]%elem_of_app; [by eapply mok_in|by apply list_elem_of_filter in Hp as [_ ?]]. }
  split.
  - intros ->. pose proof (mok_length _ _ _ _ Hnew). simpl in *. lia.
  - by eapply mok_NoDup.
  - apply NoDup_filter, (cok_NoDup _ _ Hok).
  - intros p q Hp%Hin Hq%Hin. by apply (cok_id _ _ Hok).
  - intros p Hp%Hin. by apply (cok_id_nonempty _ _ Hok).
  - lia.
  - intros p Hp%Hin. by apply (cok_slots_NoDup _ _ Hok).
  - intros p s Hp. apply (cok_slots_range _ _ Hok), Hin, elem_of_app. by right.
  - intros p q s Hp Hq. apply (cok_disjoint _ _ Hok); apply Hin, elem_of_app; by right.
  - intros p Hp Hno. apply dec_stable. intros Hs. apply Hno, elem_of_holders; [done|].
    split; [by eapply mok_in|done].
Qed.
End arithmetic.

Section sync_slots.
Context `{MapRange} `{SortPkg} `{K8sApi} `{ObjectStore}.
Context {W : Type} `{ClientLaws W} `{IAdminLaws W} `{!ControllerEnv W} `{!AdminReturns W}.
Context `{!AdminFrame (same_max (W := W))} `{!AdminFrame (keeps_sts (W := W))}.
Implicit Types (cl : DistributedRedisCluster) (h : heap) (w : W) (l : Nodes).

(** The branches of [syncCluster]. *)
Lemma allocate_branch cl c new wrap h w :
  NoDup new → 1 ≤ Z.of_nat (length new) ≤ 16384 → GetHashMaxSlot w = DefaultHashMaxSlots →
  safe (r ← place_slaves c;
        match (r : Ctx * option error) with
        | (_, Some err) => mret (cl, Some err)
        | (_, None) => stage cl wrap (AllocSlots new)
        end) (h, w) (λ r st', r.2 = None →
    (new ≫= λ p, Slots (st'.1 !!! p)) = seqZ 0 16384 ∧ ∀ p, p ∈ new → Slots (st'.1 !!! p) ≠ []).
Proof.
  intros Hnd Hlen Hmax. apply safe_bind. eapply safe_mono; [apply place_slaves_spec|].
  intros [c' [e|]] [h2 w2] (Hs2 & Hm2 & _); [by apply safe_ret|]. cbn [fst snd] in *.
  unfold stage. apply safe_bind. eapply safe_mono.
  { apply runs_safe, AllocSlots_runs; [by rewrite Hm2|done|lia]. }
  intros e [h3 w3] [_ Hpost]. apply safe_ret. cbn [fst snd]. intros He.
  destruct e; [done|]. destruct (Hpost eq_refl) as [Hc Hsh]. split; [done|]. intros p Hp. by apply Hsh.
Qed.

Lemma rebalance_branch cl c l new n wrap h w :
  cluster_ok h l → masters_ok h l new n → (length (holders h l) < length new)%nat → n ≤ 16384 →
  GetHashMaxSlot w = DefaultHashMaxSlots →
  ((∀ s ns, nodes c !! s = Some ns → ns ≠ [] → is_Some (newMastersBySts c !! s)) →
   ∀ p, p ∈ holders h l → p ∈ new) →
  safe (r ← place_slaves c;
        match (r : Ctx * option error) with
        | (_, Some err) => mret (cl, Some err)
        | (_, None) => stage cl wrap (RebalancedCluster new)
        end) (h, w) (λ r st', r.2 = None →
    (∀ p, p ∈ holders h l → p ∈ new) ∧
    (all_held h l → ∀ p, p ∈ new →
       Slots (st'.1 !!! p) = drop (Z.to_nat (TotalSlots (h !!! p) - 16384 / n)) (Slots (h !!! p)))).
Proof.
  intros Hok Hnew Hlt Hn Hmax Hin. apply safe_bind. eapply safe_mono; [apply place_slaves_spec|].
  intros [c' [e|]] [h2 w2] (Hs2 & Hm2 & Hsets); [by apply safe_ret|]. cbn [fst snd] in *.
  specialize (Hin Hsets). pose proof (mok_length _ _ _ _ Hnew) as Hlen.
  assert (∀ p, Slots (h2 !!! p) = Slots (h !!! p)) as Hs by (intros p; apply Hs2).
  unfold stage. apply safe_bind. intros e [h3 w3] Hreb. apply safe_ret. cbn [fst snd]. intros He.
  split; [done|]. intros Hall p Hp. destruct e; [done|].
  pose proof (slots_held h l new n Hok Hnew Hin Hall) as Hheld.
  destruct (new_master_empty h l new n Hok Hnew Hlt) as (q & Hq & Hempty).
  assert (runs (RebalancedCluster new) (h2, w2) (λ e st', e = None → rebalanced n new h2 st'.1)) as Hr.
  { rewrite <- Hlen. apply RebalancedCluster_runs; [by rewrite Hm2|by eapply mok_NoDup|lia| |].
    - assert (length (new ≫= λ p, Slots (h2 !!! p)) = Z.to_nat 16384) as ->; [|lia].
      rewrite <- (length_seqZ 0 16384), <- Hheld. f_equal. by apply list_bind_ext.
    - intros _. exists q. split; [done|]. unfold TotalSlots. rewrite Hs, Hempty. simpl.
      apply Z.div_str_pos. lia. }
  apply runs_safe in Hr. specialize (Hr _ _ Hreb eq_refl p Hp) as [_ Hr]. cbn [fst] in Hr.
  unfold TotalSlots in *. by rewrite Hr, !Hs.
Qed.

Lemma scale_down_branch cl c sets all l new n m h w :
  cluster_ok h l → masters_ok h l new n → 1 ≤ n → GetHashMaxSlot w = DefaultHashMaxSlots →
  safe (r ← DispatchSlotToNewMasters c new (holders h l) all;
        match (r : Ctx * option error) with
        | (_, Some err) => mret (cl, Some err)
        | (c, None) => scalingDown cl m (sets c)
        end) (h, w) (λ r st', r.2 = None →
    (new ≫= λ p, Slots (st'.1 !!! p)) ≡ₚ seqZ 0 16384 ∧
    ∀ p, p ∈ holders h l → p ∉ new → Slots (st'.1 !!! p) = []).
Proof.
  intros Hok Hnew Hn Hmax. apply safe_bind. intros [c' e] [h2 w2] Hrun.
  assert (grows h h2) as Hgrow by apply (keeps_grows_DispatchSlots _ _ _ _ _ _ _ Hrun).
  pose proof (DispatchSlotToNewMasters_runs c h w new (holders h l) all 16384
    (masters_bom_ok h l new n Hok Hnew Hn) ltac:(by rewrite Hmax)) as Hho%runs_safe.
  specialize (Hho _ _ Hrun) as (_ & _ & _ & Hho). cbn [fst snd] in Hho.
  destruct e as [e|]; [by apply safe_ret|]. destruct (Hho eq_refl) as [Hpart Hgone].
  eapply safe_mono; [apply scalingDown_grows|]. intros r [h3 w3] Hsub Hr. specialize (Hsub Hr). cbn [fst] in *.
  assert (∀ p, p ∈ l → Slots (h3 !!! p) = Slots (h2 !!! p)) as Hs.
  { intros p Hp. destruct (Hgrow p) as [x Hx]; [by apply (cok_alloc _ _ Hok)|].
    rewrite (lookup_total_correct _ _ _ Hx). erewrite lookup_total_correct; [done|]. by eapply lookup_weaken. }
  split.
  - rewrite <- Hpart. erewrite Forall_bind_ext; [done|]. apply Forall_forall. intros p Hp. apply Hs. by eapply mok_in.
  - intros p Hp Hno. rewrite Hs; [by apply Hgone|]. by apply list_elem_of_filter in Hp as [_ ?].
Qed.

(** C9: [syncCluster], on nodes as Redis reports them, when it succeeds.  With no slot
    held, every chosen master gets slots, and together exactly the slots 0 to 16383.
    With more masters expected than hold slots, no holder is left out, and if all slots
    are held every master has given up what it had above its share and nothing else.
    With fewer expected, and no slave missing, the chosen masters partition the slots
    and the others hold none.  Otherwise no slot moves.  There is one chosen master for
    each expected StatefulSet. *)
Theorem syncCluster_slots cl infos h w :
  let l := GetNodes infos in
  let old := holders h l in
  let n := MasterSize (Spec cl) in
  cluster_ok h l → 1 ≤ n ≤ 16384 → GetHashMaxSlot w = DefaultHashMaxSlots →
  safe (syncCluster cl infos) (h, w) (λ r st', r.2 = None →
    let slots p := Slots (st'.1 !!! p) in
    ∃ new, masters_ok h l new n ∧
      if decide (length old = 0%nat) then (new ≫= slots) = seqZ 0 16384 ∧ ∀ p, p ∈ new → slots p ≠ []
      else if decide (Z.of_nat (length old) < n) then
        (∀ p, p ∈ old → p ∈ new) ∧
        (all_held h l → ∀ p, p ∈ new →
           slots p = drop (Z.to_nat (TotalSlots (h !!! p) - 16384 / n)) (Slots (h !!! p)))
      else if decide (MinReplicationFactor (drc_Status cl) < ClusterReplicas (Spec cl)) then
        ∀ p, slots p = Slots (h !!! p)
      else if decide (n < Z.of_nat (length old)) then
        (new ≫= slots) ≡ₚ seqZ 0 16384 ∧ ∀ p, p ∈ old → p ∉ new → slots p = []
      else ∀ p, slots p = Slots (h !!! p)).
Proof.
  intros l old n Hok Hn Hmax. unfold syncCluster. apply safe_bind, safe_on_fst.
  eapply safe_mono; [by apply newRedisCluster_spec|]. intros [[rc l'] e] h1 (Hl & He & Hrole & Hix).
  cbn [fst snd] in Hl, He, Hix. subst l' e. fold l in Hix |- *.
  pose proof (cluster_ok_same_role _ _ _ Hrole Hok) as Hok1.
  pose proof (holders_same_role _ _ l Hrole) as Hold1. fold old in Hold1.
  apply safe_bind, safe_gets, safe_bind, safe_pure. cbn [fst]. intros [c [e|]] Hdm; [by apply safe_ret|].
  assert (0 ≤ MasterSize (Spec cl) < 2 ^ 31) as Hn' by (fold n; lia).
  destruct (DispatchMasters_masters _ _ _ _ _ _ Hok1 Hix Hn' Hdm) as (Hnew & -> & Hnodes & Hsub).
  fold n in Hnew |- *. cbv zeta. set (new := GetNewMasters c) in *. rewrite Hold1 in *.
  pose proof (mok_length _ _ _ _ Hnew) as Hlen. assert (masters_ok h l new n) as Hnew0 by (split; apply Hnew).
  assert (∀ p, Slots (h1 !!! p) = Slots (h !!! p)) as Hs1 by (intros; apply Hrole).
  case_decide.
  { eapply safe_mono; [apply allocate_branch; [by eapply mok_NoDup|lia|done]|]. intros r s Hr Hnone. exists new. auto. }
  case_decide.
  { eapply safe_mono; [apply (rebalance_branch _ _ l new n); [done|done|by rewrite Hold1|lia|done|]|].
    - intros Hsets. rewrite Hold1. apply Hsub. intros s [ns Hns]. eapply Hsets; [exact Hns|]. by apply Hnodes in Hns as [_ ?].
    - intros r s Hr Hnone. exists new. split; [done|]. destruct (Hr Hnone) as [Hin Hdrop]. rewrite Hold1 in Hin.
      rewrite decide_True by lia. split; [done|]. intros Hall p Hp. rewrite Hdrop by (try done; intros s0 Hs0; destruct (Hall s0 Hs0) as (q & ? & ?);
        exists q; by rewrite Hs1). unfold TotalSlots. by rewrite Hs1. }
  case_decide.
  { apply safe_bind. eapply safe_mono; [apply place_slaves_spec|]. intros r s (Hs2 & _) . apply safe_ret. intros _.
    exists new. split; [done|]. rewrite decide_False by lia. intros p. by rewrite (proj1 (Hs2 p)), Hs1. }
  case_decide.
  - rewrite <- Hold1. eapply safe_mono; [apply (scale_down_branch _ _ _ _ l new n); [done|done|lia|done]|].
    intros r s Hr Hnone. exists new. split; [done|]. rewrite decide_False by (rewrite Hold1; lia). auto.
  - apply safe_ret. intros _. exists new. split; [done|]. by rewrite decide_False by lia.
Qed.
End sync_slots.

(** ** The first synchronisation of a cluster of three masters *)

#[local] Existing Instances range_default sort_default k8s_default object_store_default kube_errors_default.

#[local] Instance demo_returns : AdminReturns demo_world.
Proof. split; intros; apply runs_on_snd; by eexists _, _. Qed.
#[local] Instance demo_max_frame : AdminFrame (W := demo_world) same_max.
Proof. apply lift_admin_frame; [apply _|]. by intros. Qed.
#[local] Instance demo_sts_frame' : AdminFrame (W := demo_world) keeps_sts.
Proof. apply lift_admin_frame; [apply _|]. intros. by apply keeps_sts_stored. Qed.

Definition demo_heap3 : heap :=
  {[ 1%positive := demo_node "a" "ip1" []; 2%positive := demo_node "b" "ip2" []; 3%positive := demo_node "c" "ip3" [] ]}.
Definition demo_infos3 : ClusterInfos :=
  mkClusterInfos {[ "ip1" := mkNodeInfos 1%positive (mkSlice [] 0); "ip2" := mkNodeInfos 2%positive (mkSlice [] 0);
                    "ip3" := mkNodeInfos 3%positive (mkSlice [] 0) ]} ClusterInfosConsistent.
Definition demo_pod_of (id ip : string) (i : Z) : RedisClusterNode :=
  mkRedisClusterNode id RedisClusterNodeRoleMaster ip "6379" [] "" ("pod-" +:+ id) ("host-" +:+ id)
    (ClusterStatefulSetName "cache" i).
Definition demo_new_cluster : DistributedRedisCluster :=
  (demo_drc demo_spec "") <| drc_Status := (demo_status "")
    <| ds_Nodes := [demo_pod_of "a" "ip1" 0; demo_pod_of "b" "ip2" 1; demo_pod_of "c" "ip3" 2] |> |>.
Abbreviation demo_sync := (syncCluster demo_new_cluster demo_infos3 (demo_heap3, world_with [])).

Lemma demo_sync_run :
  match demo_sync with
  | Val (r, s') => r.2 = None
  | _ => False
  end.
Proof. vm_compute. reflexivity. Qed.

Lemma demo_nodes3 : GetNodes demo_infos3 = [3%positive; 1%positive; 2%positive].
Proof. vm_compute. reflexivity. Qed.
Lemma demo_cluster_ok3 : cluster_ok demo_heap3 (GetNodes demo_infos3).
Proof.
  rewrite demo_nodes3.
  assert (∀ p, p ∈ [3%positive; 1%positive; 2%positive] → p = 3%positive ∨ p = 1%positive ∨ p = 2%positive) as Hp by set_solver.
  assert (∀ p, p ∈ [3%positive; 1%positive; 2%positive] → Slots (demo_heap3 !!! p) = []) as Hs
    by (intros p [->|[->| ->]]%Hp; reflexivity).
  split.
  - by apply (bool_decide_unpack (NoDup [3%positive; 1%positive; 2%positive])).
  - intros p q [->|[->| ->]]%Hp [->|[->| ->]]%Hp Heq; first [reflexivity|vm_compute in Heq; discriminate].
  - intros p [->|[->| ->]]%Hp; discriminate.
  - intros p [->|[->| ->]]%Hp; eexists; reflexivity.
  - intros p ->%Hs. constructor.
  - intros p s ->%Hs. by intros ?%elem_of_nil.
  - intros p q s ->%Hs _. by intros ?%elem_of_nil.
  - intros p ->%Hs. done.
Qed.

Lemma syncCluster_slots_witness :
  ∃ r s' new, demo_sync = Val (r, s') ∧ (new ≫= λ p, Slots (s'.1 !!! p)) = seqZ 0 16384.
Proof.
  pose proof demo_sync_run as Hrun.
  pose proof (syncCluster_slots demo_new_cluster demo_infos3 demo_heap3 (world_with []) demo_cluster_ok3) as Hsafe.
  assert (1 ≤ MasterSize (Spec demo_new_cluster) ≤ 16384) as Hn by (split; discriminate).
  specialize (Hsafe Hn eq_refl). unfold safe in Hsafe.
  assert (length (holders demo_heap3 (GetNodes demo_infos3)) = 0%nat) as Hold by (vm_compute; reflexivity).
  rewrite Hold in Hsafe.
  revert Hrun Hsafe. generalize demo_sync.
  intros [[r s']| |] Hrun Hsafe; [|destruct Hrun..].
  destruct (Hsafe r s' eq_refl Hrun) as (new & _ & Hslots & _).
  exists r, s', new. split; [reflexivity|exact Hslots].
Defined.
