(* ===== verification/Servers.v ===== *)
(** What the Redis servers say: each server has its own table of the hash slots, and
    claims a slot when its table gives the slot to itself.  The views of the nodes that
    the operator keeps are one thing, the claims of the servers another: this file shows
    that the commands the operator sends make the second follow the first, so that after
    a successful operation every slot is claimed by exactly one server. *)

From Stdlib Require Import ZArith Lia.
From S2P Require Import Prelude GoStrings GoFloat Errors Slot Node ClusterInfo AdminInterface.
From S2P Require Import Groups Clustering Migration MigrationProofs Rebalance RebalanceProofs.
From S2P Require Import Kube Utils Api Client Heal Resources Connections Status Sync Frame Worlds SyncProofs SyncSlots.

Local Open Scope Z_scope.

Lemma NoDup_bind_inv {A B} (f : A → list B) l :
  NoDup (l ≫= f) → (∀ x y b, x ∈ l → y ∈ l → b ∈ f x → b ∈ f y → x = y) ∧ ∀ x, x ∈ l → NoDup (f x).
Proof.
  induction l as [|a l IH]; [by split; [intros x ? ? ?%elem_of_nil|intros x ?%elem_of_nil]|].
  rewrite bind_cons, NoDup_app. intros (Ha & Hdis & [IH1 IH2]%IH).
  assert (∀ y b, y ∈ l → b ∈ f a → b ∈ f y → False) as Hno.
  { intros y b Hy Hb Hb'. apply (Hdis b Hb). apply list_elem_of_bind. by exists y. }
  split.
  - intros x y b [->|Hx]%elem_of_cons [->|Hy]%elem_of_cons Hbx Hby; [done|by destruct (Hno y b)|by destruct (Hno x b)|by eapply IH1].
  - intros x [->|Hx]%elem_of_cons; auto.
Qed.

(** ** The servers

    [server_id]: the ID of the server at an address; [claims w addr s]: the server at
    [addr] holds the slot [s].  CLUSTER SETSLOT NODE and CLUSTER ADDSLOTS change the claims
    of the server they are sent to, and nothing else does. *)
Class SlotServers (W : Type) `{IAdmin W} := {
  server_id : string → string;
  claims : W → string → Slot → Prop;
  SetSlots_claims addr action slots id w :
    safe (admin_SetSlots addr action slots id) w (λ e w', e = None → ∀ a s,
      claims w' a s ↔ if decide (action = "NODE" ∧ a = addr ∧ s ∈ slots) then id = server_id a else claims w a s);
  SetSlot_claims addr action slot id w :
    safe (admin_SetSlot addr action slot id) w (λ e w', e = None → ∀ a s,
      claims w' a s ↔ if decide (action = "NODE" ∧ a = addr ∧ s = slot) then id = server_id a else claims w a s);
  AddSlots_claims addr slots w :
    safe (admin_AddSlots addr slots) w (λ e w', e = None → ∀ a s, claims w' a s ↔ a = addr ∧ s ∈ slots ∨ claims w a s);
  MigrateKeys_claims addr dest slots batch timeout replace w :
    safe (admin_MigrateKeys addr dest slots batch timeout replace) w (λ _ w', ∀ a s, claims w' a s ↔ claims w a s);
  MigrateKeysInSlot_claims addr dest slot batch timeout replace w :
    safe (admin_MigrateKeysInSlot addr dest slot batch timeout replace) w (λ _ w', ∀ a s, claims w' a s ↔ claims w a s);
  AttachSlaveToMaster_claims p id st :
    safe (admin_AttachSlaveToMaster p id) st (λ _ st', ∀ a s, claims st'.2 a s ↔ claims st.2 a s);
}.

(** The servers accept SETSLOT NODE, whose errors the operator only logs: they are
    reachable, and no key of the slot is left on the server that gives it up. *)
Class Accepting (W : Type) `{IAdmin W} := {
  accepts_SetSlots addr slots id w : safe (admin_SetSlots addr "NODE" slots id) w (λ e _, e = None);
  accepts_SetSlot addr slot id w : safe (admin_SetSlot addr "NODE" slot id) w (λ e _, e = None);
}.

Section servers.
Context `{MapRange} `{SortPkg} {W : Type} `{SlotServers W} `{!Accepting W}.
Implicit Types (h : heap) (w : W) (l : Nodes) (s : Slot).

Definition claims_at h w (p : ptr) s : Prop := claims w (IPPort (h !!! p)) s.
(** The nodes have the IDs of the servers at their addresses. *)
Definition identified h l : Prop := ∀ p, p ∈ l → server_id (IPPort (h !!! p)) = ID (h !!! p).
(** The servers of the nodes claim what the views say. *)
Definition claims_view h w l : Prop := ∀ p s, p ∈ l → claims_at h w p s ↔ s ∈ Slots (h !!! p).

(** SETSLOT NODE, when it is accepted. *)
Lemma SetSlots_NODE addr slots id w :
  safe (admin_SetSlots addr "NODE" slots id) w (λ e w', e = None ∧ ∀ a s,
    claims w' a s ↔ if decide (a = addr ∧ s ∈ slots) then id = server_id a else claims w a s).
Proof.
  intros e w' Heq. pose proof (accepts_SetSlots _ _ _ _ _ _ Heq) as ->. split; [done|]. intros a s.
  rewrite (SetSlots_claims _ _ _ _ _ _ _ Heq eq_refl a s).
  destruct (decide (a = addr ∧ s ∈ slots)); [by rewrite decide_True|rewrite decide_False by tauto; done].
Qed.
(** The actions that only mark a slot. *)
Lemma SetSlots_mark addr action slots id w :
  action ≠ "NODE" → safe (admin_SetSlots addr action slots id) w (λ e w', e = None → ∀ a s, claims w' a s ↔ claims w a s).
Proof.
  intros Hne e w' Heq He a s. rewrite (SetSlots_claims _ _ _ _ _ _ _ Heq He a s). by rewrite decide_False by tauto.
Qed.

(** Telling a server that does not claim the slots who has them changes no claim. *)
Lemma tell_others_claims all from to slots h w :
  (∀ m s, m ∈ all → Slots (h !!! m) ≠ [] → s ∈ slots →
     IPPort (h !!! m) ≠ IPPort (h !!! to) → IPPort (h !!! m) ≠ IPPort (h !!! from) →
     ID (h !!! to) ≠ server_id (IPPort (h !!! m)) ∧ ¬ claims_at h w m s) →
  safe (tell_others all from to slots) (h, w) (λ _ st', st'.1 = h ∧ ∀ a s, claims st'.2 a s ↔ claims w a s).
Proof.
  intros Hall. apply (safe_for_each_inv all _ (h, w) (λ st', st'.1 = h ∧ ∀ a s, claims st'.2 a s ↔ claims w a s)); [done|].
  intros m [h' w'] Hm [Hh Hcl]. cbn [fst snd] in *. subst h'. apply safe_bind, safe_ret. unfold Datatypes.id. cbn [fst].
  case_decide as Hd; [by apply safe_ret|]. case_decide as Hz; [by apply safe_ret|].
  apply safe_bind, safe_on_snd. intros e w'' Heq. apply safe_ret. split; [done|]. cbn [snd]. intros a s.
  destruct (SetSlots_NODE _ _ _ _ _ _ Heq) as [_ Hcl']. rewrite Hcl'. case_decide as Has; [|by apply Hcl].
  destruct Has as [-> Hs]. destruct (Hall m s Hm) as [Hid Hno]; [|done|tauto|tauto|].
  - intros Hnil. apply Hz. unfold TotalSlots. by rewrite Hnil.
  - unfold claims_at in Hno. tauto.
Qed.

(** ** The migration of slots *)

Lemma upd_slots_lookup f p x h :
  upd_slots f p h !!! x = if decide (p = x) then (h !!! x) <| Slots := f (Slots (h !!! x)) |> else h !!! x.
Proof. unfold upd_slots. by rewrite heap_upd_case. Qed.
Lemma upd_slots_IPPort f p x h : IPPort (upd_slots f p h !!! x) = IPPort (h !!! x).
Proof. rewrite upd_slots_lookup. by case_decide. Qed.
Lemma upd_slots_ID f p x h : ID (upd_slots f p h !!! x) = ID (h !!! x).
Proof. rewrite upd_slots_lookup. by case_decide. Qed.
Lemma moved_heap_IPPort e x h : IPPort (moved_heap e h !!! x) = IPPort (h !!! x).
Proof. unfold moved_heap. rewrite upd_slots_IPPort. destruct e.1.1; [apply upd_slots_IPPort|done]. Qed.
Lemma moved_heap_slots F q slots x h s :
  s ∈ Slots (moved_heap ((F, q), slots) h !!! x) ↔
  s ∈ Slots (h !!! x) ∧ ¬ (F = Some x ∧ s ∈ slots) ∨ x = q ∧ s ∈ slots.
Proof.
  unfold moved_heap. cbn [fst snd]. set (h1 := match F with None => h | Some p => _ end).
  assert (s ∈ Slots (h1 !!! x) ↔ s ∈ Slots (h !!! x) ∧ ¬ (F = Some x ∧ s ∈ slots)) as Hh1.
  { unfold h1. destruct F as [p|]; [|naive_solver]. rewrite upd_slots_lookup. case_decide as Heq; [subst p|naive_solver].
    simpl. rewrite RemoveSlots_filter, list_elem_of_filter. naive_solver. }
  rewrite upd_slots_lookup, <- Hh1. case_decide as Heq; [subst x|naive_solver]. simpl. rewrite elem_of_AddSlots. naive_solver.
Qed.

Section nodes.
Variable l : Nodes.

(** The slots of a migration: an entry of the plan, in the current views. *)
Record movable h (F : option ptr) (q : ptr) s : Prop := {
  mv_to : q ∈ l;
  mv_from p : F = Some p → p ∈ l ∧ p ≠ q;
  mv_owner x : x ∈ l → s ∈ Slots (h !!! x) → F = Some x;
}.
Definition ids_inj h : Prop := ∀ p q, p ∈ l → q ∈ l → ID (h !!! p) = ID (h !!! q) → p = q.
Lemma address_inj h p q :
  identified h l → ids_inj h → p ∈ l → q ∈ l → IPPort (h !!! p) = IPPort (h !!! q) → p = q.
Proof. intros Hid Hinj Hp Hq Heq. apply Hinj; [done..|]. by rewrite <- !Hid, Heq. Qed.

(** What a round does to the claims, in terms of those before it. *)
Lemma dispatch_migration_moves all F q slots h w :
  identified h l → ids_inj h → (∀ m, m ∈ all → m ∈ l ∨ Slots (h !!! m) = []) →
  (∀ s, s ∈ slots → movable h F q s) → claims_view h w l →
  safe (dispatch_migration all ((F, q), slots)) (h, w) (λ e st', e = None → ∀ x s, x ∈ l →
    claims_at h st'.2 x s ↔ s ∈ slots ∧ x = q ∨ claims_at h w x s ∧ ¬ (s ∈ slots ∧ F = Some x)).
Proof.
  intros Hid Hinj Hall Hmv Hview.
  assert (∀ x s, x ∈ l → s ∈ slots → IPPort (h !!! x) = IPPort (h !!! q) ↔ x = q) as Haddr.
  { intros x s Hx Hs. split; [|by intros ->]. apply address_inj; [done..|]. by apply (Hmv s). }
  unfold dispatch_migration. apply safe_bind, safe_ret. unfold Datatypes.id. cbn [fst snd]. apply safe_bind.
  destruct F as [p|].
  - apply safe_bind, safe_on_snd. intros [e|] w1 Hr1; [apply safe_ret; by apply safe_ret|].
    pose proof (SetSlots_mark _ "IMPORTING" _ _ _ ltac:(done) _ _ Hr1 eq_refl) as Hc1. apply safe_bind, safe_on_snd.
    intros [e|] w2 Hr2; [apply safe_ret; by apply safe_ret|].
    pose proof (SetSlots_mark _ "MIGRATING" _ _ _ ltac:(done) _ _ Hr2 eq_refl) as Hc2. apply safe_bind, safe_on_snd.
    intros r w3 Hc3%MigrateKeys_claims. apply safe_bind, safe_on_snd. intros e4 w4 [_ Hc4]%SetSlots_NODE.
    apply safe_bind, safe_on_snd. intros e5 w5 [_ Hc5]%SetSlots_NODE. apply safe_bind. intros [] st6 Hr6.
    unfold modify in Hr6. injection Hr6 as <-. cbn [fst snd].
    assert (∀ x s, x ∈ l → claims w5 (IPPort (h !!! x)) s ↔
      s ∈ slots ∧ x = q ∨ claims w (IPPort (h !!! x)) s ∧ ¬ (s ∈ slots ∧ Some p = Some x)) as Hc.
    { intros x s Hx. rewrite Hc5. case_decide as Hd5.
      - destruct Hd5 as [Ha Hs]. destruct (Hmv s Hs) as [Hq Hp _]. destruct (Hp p eq_refl) as [Hp' Hne].
        apply (address_inj h) in Ha; [|done..]. subst x. rewrite Hid by done. split; [|naive_solver].
        intros Heq. by apply Hinj in Heq.
      - rewrite Hc4. case_decide as Hd4.
        + destruct Hd4 as [Ha Hs]. apply (Haddr x s Hx Hs) in Ha. subst x. rewrite Hid by done. naive_solver.
        + rewrite Hc3, Hc2, Hc1. split; [|naive_solver]. intros Hcl. right. split; [done|]. intros [Hs [= ->]]. naive_solver. }
    apply safe_bind. eapply safe_mono; [apply tell_others_claims|].
    { intros m s Hm Hne Hs. rewrite !upd_slots_IPPort, !upd_slots_ID. unfold claims_at. rewrite upd_slots_IPPort.
      intros Hmq Hmp. destruct (Hall m Hm) as [Hml|Hnil].
      - rewrite Hid by done. split; [intros Heq; apply Hinj in Heq; [by subst|by apply (Hmv s)|done]|].
        rewrite Hc by done. intros [[_ ->]|[Hcl Hno]]; [done|]. apply (Hview m s Hml) in Hcl.
        apply Hno. split; [done|]. by apply (mv_owner _ _ _ _ (Hmv s Hs)).
      - exfalso. apply Hne. rewrite upd_slots_lookup. case_decide; [subst p|done]. simpl. by rewrite Hnil. }
    intros [] [h7 w7] [Hh7 Hc7]. cbn [fst snd] in *. subst h7. apply safe_ret, safe_bind. intros [] st8 Hr8.
    unfold modify in Hr8. injection Hr8 as <-. apply safe_ret. intros _ x s Hx. unfold claims_at. cbn [snd]. by rewrite Hc7, Hc.
  - apply safe_on_snd. intros [e|] w1 Hr1; [by apply safe_ret|]. pose proof (AddSlots_claims _ _ _ _ _ Hr1 eq_refl) as Hc1.
    apply safe_bind. intros [] st8 Hr8. unfold modify in Hr8. injection Hr8 as <-. apply safe_ret.
    intros _ x s Hx. unfold claims_at. cbn [snd]. rewrite Hc1. split.
    + intros [[Ha Hs]|Hcl]; [left; split; [done|]; by apply (Haddr x s)|right; split; [done|by intros [? ?]]].
    + intros [[Hs ->]|[Hcl _]]; [by left|by right].
Qed.
Lemma dispatch_migration_claims all F q slots h w :
  identified h l → ids_inj h → (∀ m, m ∈ all → m ∈ l ∨ Slots (h !!! m) = []) →
  (∀ s, s ∈ slots → movable h F q s) → claims_view h w l →
  safe (dispatch_migration all ((F, q), slots)) (h, w) (λ e st', e = None → claims_view st'.1 st'.2 l).
Proof.
  intros Hid Hinj Hall Hmv Hview e [h' w'] Hrun He. pose proof (dispatch_migration_heap _ _ _ _ _ Hrun) as Hh.
  pose proof (dispatch_migration_moves _ _ _ _ _ _ Hid Hinj Hall Hmv Hview _ _ Hrun He) as Hcl.
  cbn [fst snd] in *. subst e h'. intros x s Hx. unfold claims_at in *.
  rewrite moved_heap_IPPort, moved_heap_slots, Hcl, (Hview x s Hx) by done. tauto.
Qed.

(** The views after a round are those of the plan, and the other nodes hold nothing. *)
Definition same_identity h h' : Prop := ∀ p, IPPort (h' !!! p) = IPPort (h !!! p) ∧ ID (h' !!! p) = ID (h !!! p).
#[export] Instance same_identity_preorder : PreOrder same_identity.
Proof.
  split; [by intros h p|]. intros h1 h2 h3 H12 H23 p. destruct (H23 p) as [-> ->]. apply H12.
Qed.
Lemma same_identity_moved e h : same_identity h (moved_heap e h).
Proof.
  intros p. split; [apply moved_heap_IPPort|]. unfold moved_heap. rewrite upd_slots_ID.
  destruct e.1.1; [apply upd_slots_ID|done].
Qed.
Lemma identified_same h h' : same_identity h h' → identified h l → identified h' l.
Proof. intros Hs Hid p Hp. destruct (Hs p) as [-> ->]. by apply Hid. Qed.
Lemma ids_inj_same h h' : same_identity h h' → ids_inj h → ids_inj h'.
Proof. intros Hs Hinj p q Hp Hq. destruct (Hs p) as [_ ->], (Hs q) as [_ ->]. by apply Hinj. Qed.

Lemma entry_movable h new old done F q h' s :
  (∀ p, p ∈ new ++ old → p ∈ l) → (∀ p, p ∈ l → p ∉ new ++ old → Slots (h' !!! p) = []) →
  (∀ p, p ∈ new → p ∉ old → Slots (h !!! p) = []) →
  after h new old done h' → entry_slot h new old done F q s → movable h' F q s.
Proof.
  intros Hin Hout Hempty Hafter He. split.
  - apply Hin, elem_of_app. left. by eapply es_new.
  - intros p Hp. destruct (es_from _ _ _ _ _ _ _ He p Hp) as (Hpo & Hne & _). split; [|done].
    apply Hin, elem_of_app. by right.
  - intros x Hx Hs. destruct (decide (x ∈ new ++ old)) as [Hxn|Hno].
    2: { rewrite Hout in Hs by done. by apply elem_of_nil in Hs. }
    apply (Hafter x Hxn) in Hs as [[Hs _]|(F' & l' & Hd & Hs)]; [|by apply (es_once _ _ _ _ _ _ _ He) in Hd].
    apply (es_owner _ _ _ _ _ _ _ He); [|done]. apply dec_stable. intros Hno. apply elem_of_app in Hxn as [Hxn|?]; [|done].
    rewrite Hempty in Hs by done. by apply elem_of_nil in Hs.
Qed.

Lemma DispatchSlotToNewMasters_claims c new old all N h w :
  bom_ok h new old N → GetHashMaxSlot w + 1 = N →
  (∀ p, p ∈ new ++ old → p ∈ l) → (∀ p, p ∈ l → p ∉ new ++ old → Slots (h !!! p) = []) → (∀ m, m ∈ all → m ∈ l) →
  identified h l → ids_inj h → claims_view h w l →
  safe (DispatchSlotToNewMasters c new old all) (h, w) (λ r st', r.2 = None →
    claims_view st'.1 st'.2 l ∧ ∀ p, p ∈ l → p ∉ new ++ old → Slots (st'.1 !!! p) = []).
Proof.
  intros Hok HN Hin Hout Hall Hid Hinj Hview. pose proof (bom_N _ _ _ _ Hok) as HNr.
  unfold DispatchSlotToNewMasters. apply safe_bind, safe_ret. unfold Datatypes.id. cbn [fst snd].
  assert (s64 (u64 (GetHashMaxSlot w + 1)) = N) as ->.
  { rewrite HN, u64_small by (unfold max_uint64; lia). by rewrite s64_small by lia. }
  destruct (feedMigInfo h new old N) as [plan info] eqn:Hfeed. apply safe_bind.
  assert (plan = (feedMigInfo h new old N).1) as -> by by rewrite Hfeed.
  eapply safe_mono.
  - apply (dispatch_loop_inv h new old N Hok all w (λ h' w', same_identity h h' ∧
      (∀ p, p ∈ l → p ∉ new ++ old → Slots (h' !!! p) = []) ∧ claims_view h' w' l)).
    { split; [by intros p|]. done. }
    intros done F q slots h' w' Hentry Hafter (Hsame & Hout' & Hview').
    intros e [h'' w''] Hrun He. pose proof (dispatch_migration_heap _ _ _ _ _ Hrun) as Hh.
    pose proof (dispatch_migration_claims all F q slots h' w' (identified_same _ _ Hsame Hid) (ids_inj_same _ _ Hsame Hinj)
      (λ m Hm, or_introl (Hall m Hm))) as Hcl.
    assert (∀ s, s ∈ slots → movable h' F q s) as Hmv.
    { intros s Hs. eapply entry_movable; [done..| |done|by apply Hentry]. apply (bom_new_empty _ _ _ _ Hok). }
    specialize (Hcl Hmv Hview' _ _ Hrun He). cbn [fst snd] in *. subst e h''. split; [|split; [|done]].
    + intros p. destruct (same_identity_moved ((F, q), slots) h' p) as [-> ->]. apply Hsame.
    + intros p Hp Hno. apply elem_of_nil_inv. intros s. rewrite moved_heap_slots, Hout' by done.
      intros [[?%elem_of_nil _]|[-> Hs]]; [done|]. apply Hno, elem_of_app. left. by apply (es_new _ _ _ _ _ _ _ (Hentry s Hs)).
  - intros e st' (done & rest & _ & _ & Hend). apply safe_ret. intros He. split; by apply Hend.
Qed.

(** ** The first allocation *)

Lemma AllocSlots_loop_claims n slots per index first cursor nodes h w :
  NoDup nodes → (∀ p, p ∈ nodes → p ∈ l ∧ Slots (h !!! p) = []) →
  identified h l → ids_inj h → claims_view h w l →
  safe (AllocSlots_loop n slots per index first cursor nodes) (h, w) (λ e st', e = None → claims_view st'.1 st'.2 l).
Proof.
  revert index first cursor h w. induction nodes as [|node nodes IH]; intros index first cursor h w Hnd Hnew Hid Hinj Hview;
    cbn [AllocSlots_loop]; [by apply safe_ret|].
  apply NoDup_cons in Hnd as [Hnode Hnd]. cbv zeta. apply safe_bind, safe_pure. intros new _. apply safe_bind.
  intros [] st1 Hr1. unfold modify in Hr1. injection Hr1 as <-. cbn [fst snd]. apply safe_bind, safe_gets. cbn [fst].
  apply safe_bind, safe_on_snd. intros [e|] w1 Hr2; [by apply safe_ret|].
  pose proof (AddSlots_claims _ _ _ _ _ Hr2 eq_refl) as Hc. rewrite upd_slots_IPPort in Hc.
  destruct (Hnew node ltac:(by left)) as [Hl Hempty]. set (h1 := upd_slots (λ _, new) node h).
  assert (same_identity h h1) as Hsame by (intros p; split; [apply upd_slots_IPPort|apply upd_slots_ID]).
  apply IH; [done| |by eapply identified_same|by eapply ids_inj_same|].
  - intros p Hp. destruct (Hnew p ltac:(by right)) as [Hpl Hps]. split; [done|].
    unfold h1. rewrite upd_slots_lookup. rewrite decide_False; [done|]. by intros ->.
  - intros p s Hp. unfold claims_at. destruct (Hsame p) as [-> _]. rewrite Hc, (Hview p s Hp).
    unfold h1. rewrite upd_slots_lookup. case_decide as Heq; [subst p|].
    + simpl. rewrite Hempty, elem_of_nil. tauto.
    + split; [|by right]. intros [[Ha _]|?]; [|done]. apply (address_inj h) in Ha; [by subst|done..].
Qed.
Lemma AllocSlots_claims nodes h w :
  NoDup nodes → (∀ p, p ∈ nodes → p ∈ l ∧ Slots (h !!! p) = []) →
  identified h l → ids_inj h → claims_view h w l →
  safe (AllocSlots nodes) (h, w) (λ e st', e = None → claims_view st'.1 st'.2 l).
Proof. intros. unfold AllocSlots. apply safe_bind, safe_ret. by apply AllocSlots_loop_claims. Qed.

(** ** Rebalancing

    [RebalancedCluster] takes the slots from the view of the source but does not add
    them to the view of the target: here the views are a part of the claims. *)
Record owned h w : Prop := {
  owned_view p s : p ∈ l → s ∈ Slots (h !!! p) → claims_at h w p s;
  owned_NoDup p : p ∈ l → NoDup (Slots (h !!! p));
  owned_once p q s : p ∈ l → q ∈ l → claims_at h w p s → claims_at h w q s → p = q;
}.
(** No slot loses its claim. *)
Definition held_on h w h' w' : Prop := ∀ s, (∃ p, p ∈ l ∧ claims_at h w p s) → ∃ p, p ∈ l ∧ claims_at h' w' p s.

(** The slots [moved] are claimed by the server of [dst] alone, the others as before. *)
Definition handed (moved : list Slot) (dst : ptr) h w h' w' : Prop := ∀ x s, x ∈ l →
  claims_at h' w' x s ↔ if decide (s ∈ moved) then x = dst else claims_at h w x s.
Lemma handed_held_on moved dst h w h' w' : dst ∈ l → handed moved dst h w h' w' → held_on h w h' w'.
Proof.
  intros Hdst Hh s (p & Hp & Hc). destruct (decide (s ∈ moved)) as [Hs|Hs].
  - exists dst. split; [done|]. apply (Hh dst s Hdst). by rewrite decide_True.
  - exists p. split; [done|]. apply (Hh p s Hp). by rewrite decide_False.
Qed.

Lemma moveSlot_claims src dst s rest h w :
  identified h l → ids_inj h → src ∈ l → dst ∈ l → src ≠ dst → Slots (h !!! src) = s :: rest → owned h w →
  safe (moveSlot (mkMovedNode src s) dst) (h, w) (λ e st', e = None →
    st'.1 = upd_slots (λ xs, RemoveSlot xs s) src h ∧ owned st'.1 st'.2 ∧ handed [s] dst h w st'.1 st'.2).
Proof.
  intros Hid Hinj Hsrc Hdst Hne Hs Hown. unfold moveSlot. cbn [Source mv_Slot]. apply safe_bind, safe_ret.
  unfold Datatypes.id. cbn [fst snd]. apply safe_bind, safe_on_snd. intros [e|] w1 Hr1; [by apply safe_ret|].
  apply safe_bind, safe_on_snd. intros [e|] w2 Hr2; [by apply safe_ret|].
  apply safe_bind, safe_on_snd. intros [n [e|]] w3 Hc3; [by apply safe_ret|]. apply MigrateKeysInSlot_claims in Hc3.
  apply safe_bind, safe_on_snd. intros e4 w4 Hr4. apply safe_bind, safe_on_snd. intros e5 w5 Hr5.
  apply safe_bind. intros [] st6 Hr6. unfold modify in Hr6. injection Hr6 as <-. apply safe_ret. intros _. cbn [fst snd].
  assert (∀ x s', x ∈ l → claims w5 (IPPort (h !!! x)) s' ↔
    if decide (s' = s) then x = dst else claims w (IPPort (h !!! x)) s') as Hc.
  { pose proof (accepts_SetSlot _ _ _ _ _ _ Hr4) as ->. pose proof (accepts_SetSlot _ _ _ _ _ _ Hr5) as ->.
    intros x s' Hx. rewrite (SetSlot_claims _ _ _ _ _ _ _ Hr5 eq_refl). case_decide as Hd5.
    { destruct Hd5 as (_ & Ha & ->). apply (address_inj h) in Ha; [|done..]. subst x.
      rewrite decide_True by done. rewrite Hid by done. split; [intros Heq; by apply Hinj in Heq|by intros ->]. }
    rewrite (SetSlot_claims _ _ _ _ _ _ _ Hr4 eq_refl). case_decide as Hd4.
    { destruct Hd4 as (_ & Ha & ->). apply (address_inj h) in Ha; [|done..]. subst x.
      rewrite decide_True by done. by rewrite Hid. }
    rewrite Hc3, (SetSlot_claims _ _ _ _ _ _ _ Hr2 eq_refl), decide_False by naive_solver.
    rewrite (SetSlot_claims _ _ _ _ _ _ _ Hr1 eq_refl), decide_False by naive_solver.
    case_decide as Heq; [|done]. subst s'. split; [|intros ->; tauto]. intros Hcl. exfalso. apply Hd5. split; [done|]. split; [|done].
    f_equal. f_equal. apply (owned_once _ _ Hown x src s); [done|done|exact Hcl|]. apply (owned_view _ _ Hown); [done|]. rewrite Hs. by left. }
  pose proof (owned_NoDup _ _ Hown src Hsrc) as Hnd. rewrite Hs in Hnd. apply NoDup_cons in Hnd as [Hns Hnd].
  split; [done|]. split; [split|].
  - intros p s' Hp Hin. unfold claims_at. rewrite upd_slots_IPPort, Hc by done. rewrite upd_slots_lookup in Hin.
    case_decide as Heq; [subst p|].
    + simpl in Hin. rewrite Hs, RemoveSlot_head in Hin. rewrite decide_False by (by intros ->).
      apply (owned_view _ _ Hown); [done|]. rewrite Hs. by right.
    + assert (s' ≠ s) as Hs'. { intros ->. apply Heq. apply (owned_once _ _ Hown src p s); [done..| |].
        - apply (owned_view _ _ Hown); [done|]. rewrite Hs. by left.
        - by apply (owned_view _ _ Hown). }
      rewrite decide_False by done. by apply (owned_view _ _ Hown).
  - intros p Hp. rewrite upd_slots_lookup. case_decide as Heq; [subst p|by apply (owned_NoDup _ _ Hown)].
    simpl. by rewrite Hs, RemoveSlot_head.
  - intros p q s' Hp Hq. unfold claims_at. rewrite !upd_slots_IPPort, !Hc by done. case_decide; [congruence|].
    by apply (owned_once _ _ Hown).
  - intros x s' Hx. unfold claims_at. rewrite upd_slots_IPPort, Hc by done.
    destruct (decide (s' = s)) as [->|Hs']; [rewrite decide_True by (by left); done|].
    by rewrite decide_False by (by rewrite list_elem_of_singleton).
Qed.

(** What a rebalancing does, from [h] and [w]. *)
Record rebalances h w h' w' : Prop := {
  reb_identity : same_identity h h';
  reb_owned : owned h' w';
  reb_held : held_on h w h' w';
}.
Lemma rebalances_trans h1 w1 h2 w2 h3 w3 : rebalances h1 w1 h2 w2 → rebalances h2 w2 h3 w3 → rebalances h1 w1 h3 w3.
Proof.
  intros [Hs _ Hh] [Hs' Ho Hh']. split; [|done|intros s Hc; by apply Hh', Hh].
  intros p. destruct (Hs' p) as [-> ->]. apply Hs.
Qed.
(** The balances do not matter. *)
Lemma rebalances_balances h w h' : same_but_balances h h' → owned h w → rebalances h w h' w.
Proof.
  intros Hs Hown. split.
  - intros p. by destruct (Hs p) as (_ & -> & ->).
  - split.
    + intros p s Hp. unfold claims_at. destruct (Hs p) as (-> & -> & _). by apply (owned_view _ _ Hown).
    + intros p Hp. destruct (Hs p) as (-> & _). by apply (owned_NoDup _ _ Hown).
    + intros p q s Hp Hq. unfold claims_at. destruct (Hs p) as (_ & -> & _), (Hs q) as (_ & -> & _).
      by apply (owned_once _ _ Hown).
  - intros s (p & Hp & Hc). exists p. split; [done|]. unfold claims_at. by destruct (Hs p) as (_ & -> & _).
Qed.

Lemma moveSlots_claims src dst moved rest h w :
  identified h l → ids_inj h → src ∈ l → dst ∈ l → src ≠ dst → Slots (h !!! src) = moved ++ rest → owned h w →
  safe (for_err (mkMovedNode src <$> moved) (λ e, moveSlot e dst)) (h, w) (λ e st', e = None →
    same_identity h st'.1 ∧ owned st'.1 st'.2 ∧ handed moved dst h w st'.1 st'.2).
Proof.
  intros Hid Hinj Hsrc Hdst Hne. revert h w Hid Hinj. induction moved as [|s moved IH]; intros h w Hid Hinj Hs Hown;
    cbn [fmap list_fmap for_err].
  { apply safe_ret. intros _. by split_and!. }
  apply safe_bind. eapply safe_mono; [by apply (moveSlot_claims src dst s (moved ++ rest))|].
  intros [e|] [h1 w1] Hp; [by apply safe_ret|]. cbn [fst snd] in Hp. destruct (Hp eq_refl) as (-> & Hown1 & Hh1).
  set (h1 := upd_slots _ src h) in *.
  assert (same_identity h h1) as Hsame by (intros p; split; [apply upd_slots_IPPort|apply upd_slots_ID]).
  eapply safe_mono; [apply IH; [by eapply identified_same|by eapply ids_inj_same| |done]|].
  - unfold h1. rewrite upd_slots_lookup, decide_True by done. simpl. rewrite Hs. apply RemoveSlot_head.
  - intros e st2 Hr He. destruct (Hr He) as (Hsame2 & Hown2 & Hh2). split; [by etrans|]. split; [done|].
    intros x s' Hx. rewrite (Hh2 x s' Hx).
    destruct (decide (s' ∈ moved)); [by rewrite decide_True by (by right)|].
    rewrite (Hh1 x s' Hx). destruct (decide (s' ∈ [s])) as [->%list_elem_of_singleton|Hn]; [by rewrite decide_True by (by left)|].
    rewrite decide_False; [done|]. intros [->|?]%elem_of_cons; [|done]. apply Hn. by left.
Qed.
Lemma handed_rebalances moved dst h w h' w' :
  dst ∈ l → same_identity h h' ∧ owned h' w' ∧ handed moved dst h w h' w' → rebalances h w h' w'.
Proof. intros Hdst (Hs & Ho & Hh). split; [done..|]. by eapply handed_held_on. Qed.

(** The table of one source is a prefix of its slots, whatever the share. *)
Lemma computeReshardTable_node_prefix fuel i node keys n moved table :
  (∃ j, moved = mkMovedNode node <$> take j keys ∧ (j = i ∧ (i ≤ length keys)%nat ∨ n ≤ Z.of_nat (length moved))) →
  computeReshardTable_node fuel i node keys n moved = Val table → ∃ j, table = mkMovedNode node <$> take j keys.
Proof.
  revert i moved. induction fuel as [|fuel IH]; intros i moved (j & -> & Hj) Heq; cbn [computeReshardTable_node] in Heq.
  { injection Heq as <-. by exists j. }
  case_decide as Hlt.
  - destruct Hj as [[-> Hi]|Hj]; [|lia]. destruct (keys !! i) as [s|] eqn:Hs; [|done].
    apply IH in Heq; [done|]. exists (S i). rewrite (take_S_r _ _ _ Hs), fmap_app. split; [done|]. left.
    split; [done|]. apply lookup_lt_Some in Hs. lia.
  - apply IH in Heq; [done|]. exists j. split; [done|]. right. lia.
Qed.
Lemma computeReshardTable_prefix h p n table :
  computeReshardTable h [p] n = Val table → ∃ j, table = mkMovedNode p <$> take j (Slots (h !!! p)).
Proof.
  unfold computeReshardTable, SortByFunc.
  assert (sort_by (λ a b, TotalSlots (h !!! a) <? TotalSlots (h !!! b)) [p] = [p]) as ->
    by apply Permutation_singleton_r, sort_by_Permutation.
  cbn [foldl computeReshardTable_loop]. cbv zeta. intros (moved & Hm & Heq)%go_bind_Val. injection Heq as <-.
  eapply computeReshardTable_node_prefix; [|exact Hm]. exists 0%nat. split; [done|]. left. lia.
Qed.

Lemma rebalance_loop_claims fuel sn d s h w :
  NoDup sn → (∀ p, p ∈ sn → p ∈ l) → 0 ≤ d → s < Z.of_nat (length sn) →
  identified h l → ids_inj h → owned h w →
  safe (rebalance_loop fuel sn d s) (h, w) (λ e st', e = None → rebalances h w st'.1 st'.2).
Proof.
  intros Hnd Hsn. revert d s h w. induction fuel as [|fuel IH]; intros d s h w Hd Hs Hid Hinj Hown; cbn [rebalance_loop].
  { case_decide; [by intros ???|]. apply safe_ret. intros _. by apply rebalances_balances. }
  case_decide as Hlt; [|apply safe_ret; intros _; by apply rebalances_balances].
  set (dst := sn !!! Z.to_nat d). set (src := sn !!! Z.to_nat s).
  destruct (lookup_lt_is_Some_2 sn (Z.to_nat d)) as [x Hx]; [lia|].
  destruct (lookup_lt_is_Some_2 sn (Z.to_nat s)) as [y Hy]; [lia|].
  assert (dst = x ∧ src = y) as [Hdx Hsy] by (split; by apply list_lookup_total_correct).
  assert (src ≠ dst) as Hne.
  { rewrite Hdx, Hsy. intros ->. pose proof (NoDup_lookup _ _ _ _ Hnd Hx Hy). lia. }
  assert (dst ∈ l ∧ src ∈ l) as [Hdl Hsl].
  { rewrite Hdx, Hsy. split; apply Hsn; by eapply list_elem_of_lookup_2. }
  apply safe_bind, safe_gets. cbn [fst]. apply safe_bind.
  apply (safe_mono _ _ (λ e st', e = None → rebalances h w st'.1 st'.2)).
  { case_match; [|apply safe_ret; intros _; by apply rebalances_balances].
    apply safe_bind, safe_pure. intros table (j & ->)%computeReshardTable_prefix.
    eapply safe_mono; [apply (moveSlots_claims _ _ _ (drop j (Slots (h !!! src)))); [done..| |done]; by rewrite take_drop|].
    intros e st' Hp He. by eapply handed_rebalances, Hp. }
  intros [e|] [h1 w1] Hreb; [by apply safe_ret|]. specialize (Hreb eq_refl). cbn [fst snd] in Hreb.
  apply safe_bind. intros [] st2 Hr2. unfold modify in Hr2. injection Hr2 as <-. cbn [fst snd].
  apply safe_bind. intros [] st3 Hr3. unfold modify in Hr3. injection Hr3 as <-. cbn [fst snd].
  apply safe_bind, safe_gets. cbn [fst].
  set (n := int_of_float _). set (h2 := heap_upd _ dst h1). set (h3 := heap_upd _ src h2).
  assert (rebalances h w h3 w1) as Hreb3.
  { eapply rebalances_trans; [exact Hreb|]. apply rebalances_balances; [|apply Hreb].
    etrans; [apply (same_but_balances_upd (λ m, Balance m + n) dst)|apply (same_but_balances_upd (λ m, Balance m - n) src)]. }
  eapply safe_mono; [apply IH|]; try done.
  - case_decide; lia.
  - case_decide; lia.
  - by eapply identified_same; [apply Hreb3|].
  - by eapply ids_inj_same; [apply Hreb3|].
  - apply Hreb3.
  - intros e st' Hr He. eapply rebalances_trans; [exact Hreb3|by apply Hr].
Qed.

Lemma RebalancedCluster_claims nodes h w :
  NoDup nodes → (∀ p, p ∈ nodes → p ∈ l) → identified h l → ids_inj h → owned h w →
  safe (RebalancedCluster nodes) (h, w) (λ e st', e = None → rebalances h w st'.1 st'.2).
Proof.
  intros Hnd Hl Hid Hinj Hown. unfold RebalancedCluster. apply safe_bind, safe_ret. unfold Datatypes.id. cbn [fst snd].
  apply safe_bind, safe_pure. intros h1 Hlow. apply safe_bind. intros [] st2 Hr2. unfold modify in Hr2. injection Hr2 as <-.
  cbn [fst snd]. assert (same_but_balances h h1) as Hsame.
  { etrans; [apply (set_balances_same (GetHashMaxSlot w) nodes)|by eapply lower_loop_same]. }
  pose proof (rebalances_balances _ _ _ Hsame Hown) as Hreb.
  eapply safe_mono; [apply rebalance_loop_claims|]; try done.
  - unfold SortByFunc. by rewrite sort_by_Permutation.
  - intros p. unfold SortByFunc. rewrite sort_by_Permutation. apply Hl.
  - lia.
  - by eapply identified_same; [apply Hreb|].
  - by eapply ids_inj_same; [apply Hreb|].
  - apply Hreb.
  - intros e st' Hr He. eapply rebalances_trans; [exact Hreb|by apply Hr].
Qed.

(** ** How many slots a server claims *)

Definition claims_number h w (p : ptr) (k : Z) : Prop :=
  ∃ X : gset Slot, (∀ s, s ∈ X ↔ claims_at h w p s) ∧ Z.of_nat (size X) = k.
Lemma claims_number_view h w p :
  (∀ s, claims_at h w p s ↔ s ∈ Slots (h !!! p)) → NoDup (Slots (h !!! p)) → claims_number h w p (TotalSlots (h !!! p)).
Proof.
  intros Hview Hnd. exists (list_to_set (Slots (h !!! p))). split; [|by rewrite size_list_to_set].
  intros s. by rewrite elem_of_list_to_set, Hview.
Qed.
Lemma claims_number_same h w p k h' w' :
  (∀ s, claims_at h' w' p s ↔ claims_at h w p s) → claims_number h w p k → claims_number h' w' p k.
Proof. intros Hs (X & HX & Hk). exists X. split; [|done]. intros s. by rewrite HX, Hs. Qed.

(** Slots handed from [src] to [dst]: one claims that many less, the other more. *)
Lemma handed_number moved src dst h w h' w' p k :
  handed moved dst h w h' w' → owned h w → src ∈ l → dst ∈ l → src ≠ dst → NoDup moved →
  (∀ s, s ∈ moved → claims_at h w src s) → p ∈ l → claims_number h w p k →
  claims_number h' w' p (k + (if decide (p = dst) then Z.of_nat (length moved)
    else if decide (p = src) then - Z.of_nat (length moved) else 0)).
Proof.
  intros Hh Hown Hsrc Hdst Hne Hnd Hmoved Hp (X & HX & <-). set (M := list_to_set moved : gset Slot).
  assert (∀ s, s ∈ M ↔ s ∈ moved) as HM by (intros s; apply elem_of_list_to_set).
  assert (size M = length moved) as HsM by by apply size_list_to_set.
  assert (∀ s, s ∈ moved → claims_at h w p s → p = src) as Honly.
  { intros s Hs Hc. by apply (owned_once _ _ Hown p src s), Hmoved. }
  case_decide as Hd; [subst p|case_decide as Hs; [subst p|]].
  - exists (X ∪ M). split.
    + intros s. rewrite elem_of_union, HX, HM, (Hh dst s Hp). case_decide; tauto.
    + rewrite size_union; [lia|]. intros s Hs Hm. apply Hne. symmetry. apply (Honly s); [by apply HM|by apply HX].
  - exists (X ∖ M). assert (M ⊆ X) as Hsub by (intros s Hs%HM; by apply HX, Hmoved). split.
    + intros s. rewrite elem_of_difference, HX, HM, (Hh src s Hp). case_decide; tauto.
    + rewrite size_difference by done. apply subseteq_size in Hsub. lia.
  - exists X. split; [|lia]. intros s. rewrite HX, (Hh p s Hp). case_decide as Hm; [|done].
    split; [intros Hc; by destruct Hs; apply (Honly s)|done].
Qed.

(** The invariant of the last loop of [RebalancedCluster]: a server claims its target,
    and as many slots more as its balance says. *)
Record on_course (h0 h2 h : heap) w : Prop := {
  oc_identity : same_identity h0 h;
  oc_owned : owned h w;
  oc_number p : p ∈ l → claims_number h w p (target h0 h2 p + Balance (h !!! p));
}.
Lemma on_course_start n h h2 w :
  claims_view h w l → owned h w → fair_start n l h h2 → on_course h h2 h2 w.
Proof.
  intros Hview Hown Hfair. pose proof (fs_same _ _ _ _ Hfair) as Hsame.
  pose proof (rebalances_balances _ w _ Hsame Hown) as [Hid Hown2 _]. split; [done..|].
  intros p Hp. unfold target. replace (_ - _ + _) with (TotalSlots (h !!! p)) by lia.
  apply (claims_number_same h w); [|apply claims_number_view; [intros s; by apply Hview|by apply (owned_NoDup _ _ Hown)]].
  intros s. unfold claims_at. by destruct (Hsame p) as (_ & -> & _).
Qed.
Lemma on_course_rounds `{!AdminReturns W} h0 h2 :
  identified h0 l → ids_inj h0 → kept_by_rounds (on_course h0 h2) l.
Proof.
  intros Hid Hinj h w x y m Hx Hy Hne Hm [Hsame Hown Hnum] e [h' w'] Hrun He. cbn [fst snd].
  set (moved := take (Z.to_nat m) (Slots (h !!! y))) in *.
  assert (Z.of_nat (length moved) = m) as Hlen by (unfold moved, TotalSlots in *; rewrite length_take; lia).
  assert (Slots (h !!! y) = moved ++ drop (Z.to_nat m) (Slots (h !!! y))) as Hs by (by unfold moved; rewrite take_drop).
  pose proof (moveSlots_claims y x moved (drop (Z.to_nat m) (Slots (h !!! y))) h w) as Hc. destruct (Hc ltac:(by eapply identified_same)
    ltac:(by eapply ids_inj_same) Hy Hx (not_eq_sym Hne) Hs Hown _ _ Hrun He) as (Hsame1 & Hown1 & Hh).
  pose proof (runs_safe _ _ _ (moveSlots_spec y x moved (drop (Z.to_nat m) (Slots (h !!! y))) h w Hs)) as Hb.
  destruct (Hb _ _ Hrun He) as (Hother & _ & Hbal). cbn [fst snd] in *.
  assert (same_but_balances h' (shift_balance x y m h')) as Hshift.
  { etrans; [apply (same_but_balances_upd (λ n, Balance n + m) x)|apply (same_but_balances_upd (λ n, Balance n - m) y)]. }
  pose proof (rebalances_balances _ w' _ Hshift Hown1) as [Hid2 Hown2 _]. split;
    [etrans; [exact Hsame|etrans; [exact Hsame1|exact Hid2]]|done|].
  intros p Hp. eapply (claims_number_same h' w').
  { intros s. unfold claims_at. by destruct (Hshift p) as (_ & -> & _). }
  assert (Balance (h' !!! p) = Balance (h !!! p)) as Hbp.
  { destruct (decide (p = y)) as [->|]; [done|by rewrite Hother]. }
  pose proof (owned_NoDup _ _ Hown y Hy) as Hnd. rewrite Hs in Hnd. apply NoDup_app in Hnd as (Hnd & _).
  assert (∀ s, s ∈ moved → claims_at h w y s) as Hmoved.
  { intros s Hin. apply (owned_view _ _ Hown); [done|]. rewrite Hs. apply elem_of_app. by left. }
  pose proof (handed_number moved y x h w h' w' p _ Hh Hown Hy Hx (not_eq_sym Hne) Hnd Hmoved Hp (Hnum p Hp)) as Hn.
  replace (target h0 h2 p + _) with (target h0 h2 p + Balance (h !!! p) +
    (if decide (p = x) then Z.of_nat (length moved) else if decide (p = y) then - Z.of_nat (length moved) else 0)); [done|].
  unfold shift_balance. rewrite !heap_upd_case, Hlen.
  repeat case_decide; try congruence; simpl; rewrite ?Hbp; lia.
Qed.
End nodes.

(** ** One claim for each slot *)

(** Each slot below [N] is claimed by exactly one of the servers of [l]. *)
Definition one_claim l h w N : Prop :=
  ∀ s, 0 ≤ s < N → ∃ p, p ∈ l ∧ claims_at h w p s ∧ ∀ q, q ∈ l → claims_at h w q s → q = p.

Lemma one_claim_intro l h w N :
  (∀ p q s, p ∈ l → q ∈ l → claims_at h w p s → claims_at h w q s → p = q) →
  (∀ s, 0 ≤ s < N → ∃ p, p ∈ l ∧ claims_at h w p s) → one_claim l h w N.
Proof. intros Honce Hall s Hs. destruct (Hall s Hs) as (p & Hp & Hc). exists p. split_and!; [done..|]. eauto. Qed.
(** Disjoint views that hold all the slots. *)
Lemma one_claim_view l h w N (held : Nodes) :
  claims_view h w l → (∀ p q s, p ∈ l → q ∈ l → s ∈ Slots (h !!! p) → s ∈ Slots (h !!! q) → p = q) →
  (∀ p, p ∈ held → p ∈ l) → (held ≫= λ p, Slots (h !!! p)) ≡ₚ seqZ 0 N → one_claim l h w N.
Proof.
  intros Hview Hdisj Hheld Hperm. apply one_claim_intro.
  - intros p q s Hp Hq Hc%Hview Hc'%Hview; [|done..]. by eapply Hdisj.
  - intros s Hs. assert (s ∈ held ≫= λ p, Slots (h !!! p)) as (p & Hin & Hp)%list_elem_of_bind.
    { rewrite Hperm. apply elem_of_seqZ. lia. }
    exists p. split; [by apply Hheld|]. by apply Hview; [apply Hheld|].
Qed.
Lemma owned_of_view l h w :
  claims_view h w l → (∀ p, p ∈ l → NoDup (Slots (h !!! p))) →
  (∀ p q s, p ∈ l → q ∈ l → s ∈ Slots (h !!! p) → s ∈ Slots (h !!! q) → p = q) → owned l h w.
Proof.
  intros Hview Hnd Hdisj. split; [|done|].
  - intros p s Hp Hs. by apply Hview.
  - intros p q s Hp Hq Hc%Hview Hc'%Hview; [|done..]. by eapply Hdisj.
Qed.
Lemma one_claim_rebalances l h w h' w' N :
  one_claim l h w N → rebalances l h w h' w' → one_claim l h' w' N.
Proof.
  intros Hone [_ Hown Hheld]. apply one_claim_intro; [apply Hown|]. intros s Hs.
  destruct (Hone s Hs) as (p & Hp & Hc & _). apply Hheld. by exists p.
Qed.
End servers.

Section theorems.
Context `{MapRange} `{SortPkg} {W : Type} `{SlotServers W} `{!Accepting W} `{!AdminReturns W}.

(** C7: a migration on the servers.  When the servers hold what the views say and accept
    SETSLOT NODE, [DispatchSlotToNewMasters] returns, and if it reports no error the
    servers again hold what the views say; each slot is claimed by exactly one server,
    that of a new master, and the servers of the masters that go away claim nothing. *)
Theorem DispatchSlotToNewMasters_servers c h (w : W) new old N :
  let l := new ++ old in
  bom_ok h new old N → GetHashMaxSlot w + 1 = N → identified h l → claims_view h w l →
  runs (DispatchSlotToNewMasters c new old l) (h, w) (λ r st', r.2 = None →
    claims_view st'.1 st'.2 l ∧ one_claim l st'.1 st'.2 N ∧
    ∀ p s, p ∈ old → p ∉ new → ¬ claims_at st'.1 st'.2 p s).
Proof.
  intros l Hok HN Hid Hview.
  destruct (DispatchSlotToNewMasters_runs c h w new old l N Hok HN) as (r & [h' w'] & Hrun & Hho).
  exists r, (h', w'). split; [done|]. cbn [fst snd] in *. intros Hr. destruct Hho as (_ & Hdisj & _ & Hpart).
  destruct (Hpart Hr) as [Hperm Hgone].
  assert (claims_view h' w' l) as Hview'.
  { apply (DispatchSlotToNewMasters_claims l c new old l N h w Hok HN) in Hrun; try done; [by apply (Hrun Hr)|].
    exact (bom_id _ _ _ _ Hok). }
  split; [done|]. split.
  - apply (one_claim_view l h' w' N new); [done|exact Hdisj| |done]. intros p Hp. apply elem_of_app. by left.
  - intros p s Hp Hno Hc. apply Hview' in Hc; [|apply elem_of_app; by right]. rewrite Hgone in Hc by done.
    by apply elem_of_nil in Hc.
Qed.

(** What a rebalancing leaves on the servers of the masters. *)
Lemma RebalancedCluster_shares nodes h (w : W) :
  let n := Z.of_nat (length nodes) in
  GetHashMaxSlot w = DefaultHashMaxSlots → NoDup nodes → 1 ≤ n ≤ 16384 →
  (nodes ≫= λ p, Slots (h !!! p)) ≡ₚ seqZ 0 16384 →
  (16384 mod n ≠ 0 → ∃ p, p ∈ nodes ∧ TotalSlots (h !!! p) < 16384 / n) →
  identified h nodes → ids_inj nodes h → claims_view h w nodes →
  runs (RebalancedCluster nodes) (h, w) (λ e st', e = None →
    one_claim nodes st'.1 st'.2 16384 ∧ ∀ p, p ∈ nodes →
      (∀ s, s ∈ drop (Z.to_nat (TotalSlots (h !!! p) - 16384 / n)) (Slots (h !!! p)) → claims_at st'.1 st'.2 p s) ∧
      ∃ k, claims_number st'.1 st'.2 p k ∧ 16384 / n ≤ k ≤ 16384 / n + 16384 mod n ∧
        (16384 / n ≤ TotalSlots (h !!! p) → k = 16384 / n)).
Proof.
  intros n Hmax Hnd Hn Hperm Hneg Hid Hinj Hview.
  assert (NoDup (nodes ≫= λ p, Slots (h !!! p))) as [Hdisj Hslots]%NoDup_bind_inv by (rewrite Hperm; apply NoDup_seqZ).
  assert (Z.of_nat (length (nodes ≫= λ p, Slots (h !!! p))) = 16384) as Htotal by (by rewrite Hperm, length_seqZ).
  assert (owned nodes h w) as Hown by by apply owned_of_view.
  destruct (RebalancedCluster_keeps (λ h' w', ∃ h2, fair_start n nodes h h2 ∧ on_course nodes h h2 h' w') nodes h w
    Hmax Hnd Hn Htotal Hneg) as (e & [h' w'] & Hrun & Hpost).
  { intros h2 Hfair. exists h2. split; [done|]. by eapply on_course_start. }
  { intros h1 w1 x y m Hx Hy Hne Hm (h2 & Hfair & Hoc) e st' Hrun He. exists h2. split; [done|].
    by apply (on_course_rounds nodes h h2 Hid Hinj h1 w1 x y m Hx Hy Hne Hm Hoc e). }
  exists e, (h', w'). split; [done|]. cbn [fst snd] in *. intros He. destruct (Hpost He) as (Hreb & h2 & Hfair & Hoc).
  split.
  - eapply one_claim_rebalances; [by eapply one_claim_view|].
    exact (RebalancedCluster_claims nodes nodes h w Hnd (λ p Hp, Hp) Hid Hinj Hown _ _ Hrun He).
  - intros p Hp. destruct (Hreb p Hp) as [Hz Hkept]. split.
    { intros s Hs. apply (owned_view _ _ _ (oc_owned _ _ _ _ _ Hoc)); [done|]. rewrite Hkept. exact Hs. }
    pose proof (oc_number _ _ _ _ _ Hoc p Hp) as Hnum. rewrite Hz, Z.add_0_r in Hnum. exists (target h h2 p).
    split; [done|]. split; [|by apply Hfair]. split; [by apply Hfair|].
    by eapply fair_start_target; [|reflexivity|lia|..].
Qed.

(** C8: rebalancing on the servers.  When the servers of the masters claim every slot
    once, as the views say, and accept SETSLOT NODE, [RebalancedCluster] returns, and if it
    reports no error every slot is still claimed by exactly one server; each server kept
    the slots up to its share, and claims the share [16384 / n] exactly if it started with
    that much, else the share or up to the remainder more.  The views no longer tell
    that: the target of a slot does not get it in its view. *)
Theorem RebalancedCluster_servers nodes h (w : W) :
  let n := Z.of_nat (length nodes) in
  GetHashMaxSlot w = DefaultHashMaxSlots → NoDup nodes → 1 ≤ n ≤ 16384 →
  (nodes ≫= λ p, Slots (h !!! p)) ≡ₚ seqZ 0 16384 →
  (16384 mod n ≠ 0 → ∃ p, p ∈ nodes ∧ TotalSlots (h !!! p) < 16384 / n) →
  identified h nodes → ids_inj nodes h → claims_view h w nodes →
  runs (RebalancedCluster nodes) (h, w) (λ e st', e = None →
    one_claim nodes st'.1 st'.2 16384 ∧ ∀ p, p ∈ nodes →
      (∀ s, s ∈ drop (Z.to_nat (TotalSlots (h !!! p) - 16384 / n)) (Slots (h !!! p)) → claims_at st'.1 st'.2 p s) ∧
      ∃ k, claims_number st'.1 st'.2 p k ∧ 16384 / n ≤ k ≤ 16384 / n + 16384 mod n ∧
        (16384 / n ≤ TotalSlots (h !!! p) → k = 16384 / n)).
Proof. apply RebalancedCluster_shares. Qed.

(** The first allocation on the servers, none of which claims a slot. *)
Lemma AllocSlots_servers nodes h (w : W) :
  GetHashMaxSlot w = DefaultHashMaxSlots → NoDup nodes → 1 ≤ Z.of_nat (length nodes) ≤ 16384 →
  (∀ p, p ∈ nodes → Slots (h !!! p) = []) →
  identified h nodes → ids_inj nodes h → claims_view h w nodes →
  runs (AllocSlots nodes) (h, w) (λ e st', e = None →
    claims_view st'.1 st'.2 nodes ∧ one_claim nodes st'.1 st'.2 16384).
Proof.
  intros Hmax Hnd Hn Hempty Hid Hinj Hview.
  destruct (AllocSlots_runs nodes h w Hmax Hnd Hn) as (e & [h' w'] & Hrun & _ & Hpost).
  exists e, (h', w'). split; [done|]. cbn [fst snd] in *. intros He. destruct (Hpost He) as [Hall _].
  assert (claims_view h' w' nodes) as Hview'.
  { apply (AllocSlots_claims nodes nodes h w) in Hrun; auto. }
  split; [done|]. apply (one_claim_view nodes h' w' 16384 nodes); [done| |done|by rewrite Hall].
  apply NoDup_bind_inv. rewrite Hall. apply NoDup_seqZ.
Qed.
End theorems.

(** ** Servers that follow the commands

    The tables of servers are those of the start, changed by the commands that did not
    fail. *)
Section log.
Variables (fails : call → bool) (ids : string → string) (init : string → Slot → Prop).

Definition call_claims (c : call) (held : string → Slot → Prop) : string → Slot → Prop := λ a s,
  match c with
  | CallSetSlots addr action slots id =>
      if decide (action = "NODE" ∧ a = addr ∧ s ∈ slots) then id = ids a else held a s
  | CallSetSlot addr action slot id =>
      if decide (action = "NODE" ∧ a = addr ∧ s = slot) then id = ids a else held a s
  | CallAddSlots addr slots => a = addr ∧ s ∈ slots ∨ held a s
  | _ => held a s
  end.
Definition log_claims (tr : list call) : string → Slot → Prop :=
  foldl (λ held c, if fails c then held else call_claims c held) init tr.
Lemma log_claims_snoc tr c :
  log_claims (tr ++ [c]) = if fails c then log_claims tr else call_claims c (log_claims tr).
Proof. unfold log_claims. by rewrite foldl_app. Qed.
Lemma record_claims c tr :
  safe (record fails c) tr (λ e tr', e = None → log_claims tr' = call_claims c (log_claims tr)).
Proof. intros e tr' Heq He. unfold record in Heq. injection Heq as <- <-. rewrite log_claims_snoc. by destruct (fails c). Qed.
(** Commands that change no table. *)
Lemma record_same c tr :
  (∀ held, call_claims c held = held) → safe (record fails c) tr (λ _ tr', log_claims tr' = log_claims tr).
Proof.
  intros Hc e tr' Heq. unfold record in Heq. injection Heq as _ <-. rewrite log_claims_snoc. by destruct (fails c).
Qed.

Definition log_servers : @SlotServers (list call) (recording_admin fails).
Proof.
  refine {| server_id := ids; claims := log_claims |}; cbn [recording_admin admin_SetSlots admin_SetSlot admin_AddSlots
    admin_MigrateKeys admin_MigrateKeysInSlot admin_AttachSlaveToMaster].
  - intros addr action slots id w e w' Heq He a s. by rewrite (record_claims _ _ _ _ Heq He).
  - intros addr action slot id w e w' Heq He a s. by rewrite (record_claims _ _ _ _ Heq He).
  - intros addr slots w e w' Heq He a s. by rewrite (record_claims _ _ _ _ Heq He).
  - intros addr dest slots b t r w. apply safe_bind. intros e w1 Hr. apply safe_ret. intros a s.
    by rewrite (record_same (CallMigrateKeys addr (ID dest) slots) w (λ _, eq_refl) _ _ Hr).
  - intros addr dest slot b t r w. apply safe_bind. intros e w1 Hr. apply safe_ret. intros a s.
    by rewrite (record_same (CallMigrateKeys addr (ID dest) [slot]) w (λ _, eq_refl) _ _ Hr).
  - intros p id [h w]. apply safe_bind, safe_gets, safe_bind, safe_on_snd. intros e w1 Hr.
    pose proof (record_same (CallAttachSlave _ id) w (λ _, eq_refl) _ _ Hr) as Hsame. destruct e; [apply safe_ret; intros a s; cbn [snd]; by rewrite Hsame|].
    apply safe_bind. intros [] st2 Hr2. unfold modify in Hr2. injection Hr2 as <-. apply safe_ret. intros a s. cbn [snd]. by rewrite Hsame.
Defined.
Lemma log_accepting : (∀ c, fails c = false) → @Accepting (list call) (recording_admin fails).
Proof. intros Hf. split; intros; intros e w' Heq; cbn in Heq; unfold record in Heq; injection Heq as <- _; by rewrite Hf. Qed.
End log.

(** ** Witnesses: two servers *)

Definition demo_ids (a : string) : string := if decide (a = "ip1:6379") then "a" else "b".
Definition demo_init (a : string) (s : Slot) : Prop := a = "ip1:6379" ∧ (s = 0 ∨ s = 1) ∨ a = "ip2:6379" ∧ s = 2.
Definition demo_up_init (a : string) (s : Slot) : Prop := a = "ip1:6379" ∧ 0 ≤ s < 16384.

Lemma demo_two (p : ptr) : p ∈ [1%positive; 2%positive] → p = 1%positive ∨ p = 2%positive.
Proof. set_solver. Qed.

Lemma DispatchSlotToNewMasters_servers_witness :
  runs (@DispatchSlotToNewMasters range_default sort_default (list call) (recording_admin (λ _, false)) demo_ctx
      [1%positive] [1%positive; 2%positive] [1%positive; 1%positive; 2%positive]) (demo_masters, []) (λ r st',
    r.2 = None → ¬ log_claims (λ _, false) demo_ids demo_init st'.2 (IPPort (st'.1 !!! 2%positive)) 2).
Proof.
  assert (∀ p, p ∈ [1%positive; 1%positive; 2%positive] → p = 1%positive ∨ p = 2%positive) as Hp by set_solver.
  eapply runs_mono.
  - apply (@DispatchSlotToNewMasters_servers range_default sort_default (list call) (recording_admin (λ _, false))
      (log_servers (λ _, false) demo_ids demo_init) (log_accepting _ (λ _, eq_refl)) (recording_admin_returns _)
      demo_ctx demo_masters [] [1%positive] [1%positive; 2%positive] 16384 demo_bom_ok eq_refl).
    + intros p [->| ->]%Hp; vm_compute; reflexivity.
    + intros p s [->| ->]%Hp; unfold claims_at; cbn [claims log_servers log_claims foldl].
      * change (IPPort (demo_masters !!! 1%positive)) with "ip1:6379".
        change (Slots (demo_masters !!! 1%positive)) with [0; 1]. rewrite !elem_of_cons, elem_of_nil. unfold demo_init. naive_solver.
      * change (IPPort (demo_masters !!! 2%positive)) with "ip2:6379".
        change (Slots (demo_masters !!! 2%positive)) with [2]. rewrite !elem_of_cons, elem_of_nil. unfold demo_init. naive_solver.
  - intros r st' Hpost Hr. destruct (Hpost Hr) as (_ & _ & Hgone). apply (Hgone 2%positive 2).
    + right. left.
    + intros Hin%list_elem_of_singleton. discriminate.
Defined.

Lemma RebalancedCluster_servers_witness :
  ∃ e st', @RebalancedCluster sort_default (list call) (recording_admin (λ _, false))
      [1%positive; 2%positive] (demo_scale_up, []) = Val (e, st') ∧
    (e = None → @claims_number (list call) (recording_admin (λ _, false)) (log_servers (λ _, false) demo_ids demo_up_init)
      st'.1 st'.2 2%positive 8192).
Proof.
  assert (Slots (demo_scale_up !!! 1%positive) = seqZ 0 16384) as E1
    by (unfold demo_scale_up; by rewrite lookup_total_insert_eq).
  assert (Slots (demo_scale_up !!! 2%positive) = []) as E2 by reflexivity.
  destruct (@RebalancedCluster_servers sort_default (list call) (recording_admin (λ _, false))
    (log_servers (λ _, false) demo_ids demo_up_init) (log_accepting _ (λ _, eq_refl)) (recording_admin_returns _)
    [1%positive; 2%positive] demo_scale_up []) as (e & st' & Hrun & Hpost).
  - reflexivity.
  - by apply (bool_decide_unpack (NoDup [1%positive; 2%positive])).
  - simpl. lia.
  - cbn [mbind list_bind]. rewrite E1, E2, !app_nil_r. reflexivity.
  - intros Hm. by destruct Hm.
  - intros p [->| ->]%demo_two; vm_compute; reflexivity.
  - intros p q [->| ->]%demo_two [->| ->]%demo_two Heq; first [reflexivity|vm_compute in Heq; discriminate].
  - intros p s [->| ->]%demo_two; unfold claims_at; cbn [claims log_servers log_claims foldl].
    + change (IPPort (demo_scale_up !!! 1%positive)) with "ip1:6379". rewrite E1, elem_of_seqZ. clear E1 E2. unfold demo_up_init.
      split; [intros [_ Hs]; lia|intros Hs; split; [reflexivity|lia]].
    + change (IPPort (demo_scale_up !!! 2%positive)) with "ip2:6379". rewrite E2, elem_of_nil. clear E1 E2. unfold demo_up_init.
      split; [intros [Ha _]; discriminate|tauto].
  - exists e, st'. split; [exact Hrun|]. intros He. destruct (Hpost He) as [_ Hall].
    destruct (Hall 2%positive ltac:(by right; left)) as [_ (k & Hk & Hb & _)].
    change (16384 / _) with 8192 in Hb. change (16384 mod _) with 0 in Hb.
    assert (k = 8192) as -> by lia. exact Hk.
Defined.

(** When the new owner refuses SETSLOT NODE, the operator tells the old one all the same,
    and reports no error: no server claims the slot any more. *)
Definition refuses_node (c : call) : bool :=
  match c with CallSetSlots addr action _ _ => bool_decide (addr = "ip2:6379" ∧ action = "NODE") | _ => false end.
Definition refused_run : go (option error * (heap * list call)) :=
  @dispatch_migration (list call) (recording_admin refuses_node) [1%positive; 2%positive]
    ((Some 1%positive, 2%positive), [0]) (demo_masters, []).
Lemma refused_slot_is_lost :
  match refused_run with
  | Val (e, (_, tr)) => e = None ∧
      ¬ log_claims refuses_node demo_ids demo_init tr "ip1:6379" 0 ∧
      ¬ log_claims refuses_node demo_ids demo_init tr "ip2:6379" 0
  | _ => False
  end.
Proof. vm_compute. split; [done|]. split; [discriminate|]. intros [[? _]|[_ ?]]; discriminate. Qed.
