(* ===== verification/ServersSync.v ===== *)
(** A whole [syncCluster] on the servers: whichever operation it chooses, when it succeeds
    every hash slot is claimed by exactly one server of the cluster. *)

From Stdlib Require Import ZArith Lia.
From S2P Require Import Prelude GoStrings GoFloat Errors Slot Node ClusterInfo AdminInterface.
From S2P Require Import Groups Clustering Migration MigrationProofs Rebalance RebalanceProofs.
From S2P Require Import Kube Utils Api Client Heal Resources Connections Status Sync Frame Worlds SyncProofs SyncSlots Servers.

Local Open Scope Z_scope.

(** The servers run in the pods of StatefulSets.  [stays keep w w']: no server claims more
    than before, and those at the addresses [keep] claim as much. *)
Definition stays {W} `{SlotServers W} (keep : string → Prop) (w w' : W) : Prop :=
  (∀ a s, claims w' a s → claims w a s) ∧ ∀ a s, keep a → claims w a s → claims w' a s.
#[export] Instance stays_preorder {W} `{SlotServers W} keep : PreOrder (stays keep).
Proof. split; [done|]. intros w1 w2 w3 [H12 K12] [H23 K23]. split; auto. Qed.

(** [home a]: the namespace and the name of the StatefulSet of the server at [a].  Deleting
    a StatefulSet takes its own servers away; other requests (pods are not deleted here)
    and calls leave the claims alone. *)
Class PodServers (W : Type) `{ClientLaws W} `{SlotServers W} `{!ControllerEnv W} := {
  home : string → string * string;
  pods_calls keep :: CallFrame (stays (W := W) keep);
  pods_Get {T} `{KObject T} keep ns name : keeps (stays (W := W) keep) (client_Get (T := T) ns name);
  pods_List {T} `{KObject T} keep ns labels : keeps (stays (W := W) keep) (client_List (T := T) ns labels);
  pods_StatusUpdate {T} `{KObject T} keep (x : T) : keeps (stays (W := W) keep) (client_StatusUpdate x);
  pods_Update {T} `{KObject T} (x : T) : kind_of T ≠ kind_of Pod →
    keeps (stays (W := W) (λ a, key_of x ≠ (kind_of AppsStatefulSet, home a))) (client_Update x);
  pods_Delete {T} `{KObject T} (x : T) : kind_of T ≠ kind_of Pod →
    keeps (stays (W := W) (λ a, key_of x ≠ (kind_of AppsStatefulSet, home a))) (client_Delete x);
}.

Section sync_servers.
Context `{MapRange} `{SortPkg} `{K8sApi} `{ObjectStore}.
Context {W : Type} `{ClientLaws W} `{IAdminLaws W} `{!SlotServers W} `{!Accepting W} `{!ControllerEnv W}.
Context `{!PodServers W} `{!AdminReturns W} `{!AdminFrame (same_max (W := W))} `{!AdminFrame (keeps_sts (W := W))}.
Implicit Types (cl : DistributedRedisCluster) (h : heap) (w : W) (l : Nodes).

(** ** Removing empty StatefulSets *)

(** The objects whose deletion leaves the servers at [keep] alone. *)
Definition away (keep : string → Prop) (k : string * (string * string)) : Prop :=
  k.1 ≠ kind_of Pod ∧ ∀ a, keep a → k ≠ (kind_of AppsStatefulSet, home a).
#[local] Instance away_client keep : ClientFrame (away keep) (λ _, False) (stays (W := W) keep).
Proof.
  assert (∀ T `{KObject T} (x : T) A (m : M W A), away keep (key_of x) → (kind_of T ≠ kind_of Pod →
    keeps (stays (λ a, key_of x ≠ (kind_of AppsStatefulSet, home a))) m) → keeps (stays keep) m) as Hmono.
  { intros T ? x A m [Hpod Haway] Hm w. eapply safe_mono; [apply Hm|].
    - unfold key_of, object_key in Hpod. cbn [fst] in Hpod. by rewrite kind_to_object in Hpod.
    - intros a w' [Hless Hkeep]. split; [done|]. intros b s Hb. apply Hkeep. by apply Haway. }
  split; intros T ?; [apply pods_Get|apply pods_List|done|..]; intros x Hx; apply (Hmono T _ x); try done.
  - apply pods_Update.
  - apply pods_Delete.
Qed.

Lemma scale_down_set_stays h (keep : string → Prop) cl sets i s :
  h ⊆ s.1 →
  (set_empty h cl sets i → ∀ a, keep a → (home a).2 ≠ ClusterStatefulSetName (drc_Name cl) i) →
  safe (scale_down_set cl sets i) s (λ e s', e = None → h ⊆ s'.1 ∧ stays keep s.2 s'.2).
Proof.
  intros Hsub Hkeep e s' Hrun He. subst e.
  pose proof (scale_down_set_spec h cl sets i s Hsub _ _ Hrun) as (Hsub' & Hempty & _). split; [done|].
  specialize (Hkeep Hempty).
  assert (∀ k, k.1 ≠ kind_of Pod → k.2.2 = ClusterStatefulSetName (drc_Name cl) i ∨ k.1 ≠ kind_of AppsStatefulSet →
    away keep k) as Haway.
  { intros k Hpod Hk. split; [done|]. intros a Ha ->. cbn in Hk. destruct Hk as [Hk|Hk]; [by apply (Hkeep a)|done]. }
  revert Hrun. apply (keeps_scale_down_set (away keep) (λ _, False) (stays keep)); intros; apply Haway; cbn; auto; done.
Qed.
Lemma scalingDown_stays h (keep : string → Prop) cl n sets w :
  (∀ cl' i, set_empty h cl' sets i → ∀ a, keep a → (home a).2 ≠ ClusterStatefulSetName (drc_Name cl') i) →
  safe (scalingDown cl n sets) (h, w) (λ r s', r.2 = None → h ⊆ s'.1 ∧ stays keep w s'.2).
Proof.
  intros Hkeep. unfold scalingDown. apply safe_bind, safe_on_snd. intros [cl' e] w1 Hr1. cbn [fst].
  pose proof (pods_StatusUpdate keep _ _ _ _ Hr1) as Hw1. apply safe_bind.
  apply (safe_mono _ _ (λ _ s', h = s'.1 ∧ stays keep w1 s'.2)).
  { intros ? s' Hr. split; [|revert Hr].
    - revert Hr. apply (keeps_for_each (on_first eq)). intros i. keeps.
    - apply (keeps_for_each (on_world (stays keep))). intros i. keeps. }
  intros ? s2 [Hh Hw2]. apply safe_bind.
  eapply (safe_for_err _ _ _ (λ _ s, h ⊆ s.1 ∧ stays keep w s.2)).
  - rewrite <- Hh. split; [done|]. etrans; [exact Hw1|exact Hw2].
  - intros done i rest s3 _ [Hsub Hw3]. eapply safe_mono; [by apply (scale_down_set_stays h keep), Hkeep|].
    intros [e'|] s4 Hp; [by apply safe_ret|]. destruct (Hp eq_refl) as [Hsub4 Hw4]. split; [done|]. by etrans.
  - intros s3 Hs3. by apply safe_ret.
Qed.

(** ** The parts without slots *)

(** Nothing but names and roles of the nodes changes. *)
Definition same_servers (s s' : heap * W) : Prop :=
  same_identity s.1 s'.1 ∧ ∀ a sl, claims s'.2 a sl ↔ claims s.2 a sl.
#[local] Instance same_servers_preorder : PreOrder same_servers.
Proof.
  split; [by intros s; split|]. intros s1 s2 s3 [H12 C12] [H23 C23]. split.
  - intros p. destruct (H23 p) as [-> ->]. apply H12.
  - intros a sl. by rewrite C23.
Qed.
Lemma become_slave_identity id n : IPPort (become_slave id n) = IPPort n ∧ ID (become_slave id n) = ID n.
Proof. unfold become_slave, SetReferentMaster. by case_decide. Qed.
Lemma same_identity_upd f p h :
  (∀ n, IPPort (f n) = IPPort n ∧ ID (f n) = ID n) → same_identity h (heap_upd f p h).
Proof. intros Hf q. rewrite heap_upd_case. case_decide; [apply Hf|done]. Qed.
Lemma keeps_servers_AttachSlave p id : keeps same_servers (admin_AttachSlaveToMaster p id).
Proof.
  intros [h w] e [h' w'] Hrun. split; [|exact (AttachSlaveToMaster_claims _ _ _ _ _ Hrun)].
  apply AttachSlaveToMaster_heap in Hrun as ->. cbn [fst]. destruct e; [by intros q|].
  apply same_identity_upd, become_slave_identity.
Qed.
Hint Resolve keeps_servers_AttachSlave : keeps.
Lemma keeps_servers_place_slaves c : keeps same_servers (place_slaves c).
Proof. unfold place_slaves, AttachingSlavesToMaster. keeps. Qed.

(** [newRedisCluster] lists the nodes under the StatefulSets of the status. *)
Record status_names cl h l : Prop := {
  sn_home n p : n ∈ ds_Nodes (drc_Status cl) → p ∈ l → ID (h !!! p) = rcn_ID n →
    rcn_StatefulSet n = (home (IPPort (h !!! p))).2 ∧ rcn_StatefulSet n ≠ "";
  sn_all p : p ∈ l → ∃ n, n ∈ ds_Nodes (drc_Status cl) ∧ rcn_ID n = ID (h !!! p);
}.
Lemma index_nodes_inv h l m k p :
  index_nodes h l m !! k = Some p → ID (h !!! p) = k ∨ m !! k = Some p.
Proof.
  revert m. induction l as [|q l IH]; intros m; [by right|]. unfold index_nodes. cbn [foldl].
  fold (index_nodes h l (<[ID (h !!! q) := q]> m)). intros [?|Hm]%IH; [by left|].
  apply lookup_insert_Some in Hm as [[<- ->]|[_ ?]]; [by left|by right].
Qed.
Lemma newRedisCluster_names infos cl h :
  cluster_ok h (GetNodes infos) → status_names cl h (GetNodes infos) →
  safe (newRedisCluster infos cl) h (λ _ h', same_identity h h' ∧
    ∀ p, p ∈ GetNodes infos → set_name (h' !!! p) = (home (IPPort (h !!! p))).2).
Proof.
  intros Hok Hnames. unfold newRedisCluster. apply safe_bind, safe_gets. unfold Datatypes.id.
  set (rc := _ <| rc_Nodes := _ |>). set (l := GetNodes infos) in *.
  assert (∀ p, p ∈ l → rc_Nodes rc !! ID (h !!! p) = Some p) as Hix.
  { intros p Hp. apply (index_nodes_lookup h l); [|done]. intros q Hq. by apply (cok_id _ _ Hok). }
  assert (∀ done rest h1, ds_Nodes (drc_Status cl) = done ++ rest → same_identity h h1 →
    (∀ p n, p ∈ l → n ∈ done → rcn_ID n = ID (h !!! p) → set_name (h1 !!! p) = (home (IPPort (h !!! p))).2) →
    safe (for_each rest (name_node rc)) h1 (λ _ h', same_identity h h' ∧
      ∀ p, p ∈ l → set_name (h' !!! p) = (home (IPPort (h !!! p))).2)) as Hloop.
  { intros done rest. revert done. induction rest as [|n rest IH]; intros done h1 Hsplit Hsame Hdone; cbn [for_each].
    - apply safe_ret. split; [done|]. intros p Hp. destruct (sn_all _ _ _ Hnames p Hp) as (n & Hn & Hid).
      apply (Hdone p n); [done| |done]. by rewrite Hsplit, app_nil_r in Hn.
    - assert (∀ h2, same_identity h1 h2 → (∀ p, p ∈ l → set_name (h2 !!! p) =
          if decide (rcn_ID n = ID (h !!! p)) then (home (IPPort (h !!! p))).2 else set_name (h1 !!! p)) →
        safe (for_each rest (name_node rc)) h2 (λ _ h', same_identity h h' ∧
          ∀ p, p ∈ l → set_name (h' !!! p) = (home (IPPort (h !!! p))).2)) as Hnext.
      { intros h2 Hsame2 Hset. apply (IH (done ++ [n])); [by rewrite Hsplit, <- (assoc_L (++))| |].
        - intros p. destruct (Hsame2 p) as [-> ->]. apply Hsame.
        - intros p m Hp [Hm| ->%list_elem_of_singleton]%elem_of_app Hid; rewrite Hset by done.
          + case_decide; [done|]. by apply (Hdone p m).
          + by rewrite decide_True. }
      apply safe_bind. unfold name_node. destruct (rc_Nodes rc !! rcn_ID n) as [q|] eqn:Hq.
      + intros [] h2 Hr. unfold modify in Hr. injection Hr as <-. apply Hnext; [by apply same_identity_upd|].
        intros p Hp. rewrite heap_upd_case. case_decide as Hpq; [subst q|].
        * apply index_nodes_inv in Hq as [Hid|?]; [|done]. rewrite decide_True by done.
          destruct (sn_home _ _ _ Hnames n p) as [Hn Hne]; [|done..|].
          { rewrite Hsplit. apply elem_of_app. right. by left. }
          unfold set_name. cbn [StatefulSet set_field]. simpl. by rewrite decide_False.
        * case_decide as Hid; [|done]. rewrite Hid, Hix in Hq by done. congruence.
      + apply safe_ret. apply Hnext; [by intros p|]. intros p Hp. case_decide as Hid; [|done].
        rewrite Hid, Hix in Hq by done. done. }
  apply safe_bind. eapply safe_mono; [apply (Hloop [] _ h); [done|by intros p|by intros p n ? ?%elem_of_nil]|].
  intros ? h' Hp. by apply safe_ret.
Qed.

(** ** The branches of [syncCluster] *)

Lemma one_claim_same l h h' w N : same_identity h h' → one_claim l h' w N → one_claim l h w N.
Proof.
  intros Hs Hone s Hr. destruct (Hone s Hr) as (p & Hp & Hc & Hu). unfold claims_at in *. exists p. destruct (Hs p) as [Heq _].
  rewrite <- Heq. split_and!; [done..|]. intros q Hq Hcq. apply Hu; [done|]. by destruct (Hs q) as [-> _].
Qed.
Lemma claims_view_same l h w h' w' :
  same_servers (h, w) (h', w') → same_slots h h' → claims_view h w l → claims_view h' w' l.
Proof.
  intros [Hid Hc] Hs Hview p s Hp. unfold claims_at. cbn [fst snd] in *. destruct (Hid p) as [-> _].
  rewrite Hc. destruct (Hs p) as [-> _]. by apply Hview.
Qed.
Lemma one_claim_start l h w :
  cluster_ok h l → claims_view h w l → all_held h l → one_claim l h w 16384.
Proof.
  intros Hok Hview Hall. apply one_claim_intro.
  - intros p q s Hp Hq Hc%Hview Hc'%Hview; [|done..]. by apply (cok_disjoint _ _ Hok p q s).
  - intros s Hs. destruct (Hall s Hs) as (p & Hp & Hsp). exists p. split; [done|]. by apply Hview.
Qed.

Lemma keeps_identity_upd f p : keeps (on_first (T := W) same_identity) (modify (λ st, (upd_slots f p st.1, st.2))).
Proof. apply keeps_modify. intros [h w] q. split; [apply upd_slots_IPPort|apply upd_slots_ID]. Qed.
Hint Resolve keeps_identity_upd : keeps.
Lemma keeps_identity_AllocSlots_loop n slots per index first cursor nodes :
  keeps (on_first same_identity) (AllocSlots_loop (W := W) n slots per index first cursor nodes).
Proof. revert index first cursor. induction nodes as [|node nodes IH]; intros; cbn [AllocSlots_loop]; keeps. Qed.
Hint Resolve keeps_identity_AllocSlots_loop : keeps.
Lemma keeps_identity_AllocSlots nodes : keeps (on_first same_identity) (AllocSlots (W := W) nodes).
Proof. unfold AllocSlots. keeps. Qed.
Lemma keeps_identity_DispatchSlots c new old all :
  keeps (on_first same_identity) (DispatchSlotToNewMasters (W := W) c new old all).
Proof.
  unfold DispatchSlotToNewMasters. apply keeps_bind; [exact _|apply keeps_gets; exact _|]. intros st.
  destruct (feedMigInfo _ _ _ _). keeps. unfold dispatch_migration, tell_others. destruct x as [[[]]]; keeps.
Qed.
(** The context keeps its lists of nodes. *)
Lemma DispatchSlots_nodes c new old all st :
  safe (DispatchSlotToNewMasters (W := W) c new old all) st (λ r _, nodes r.1 = nodes c).
Proof.
  unfold DispatchSlotToNewMasters. apply safe_bind, safe_gets. destruct (feedMigInfo _ _ _ _). apply safe_bind.
  intros e st' _. by apply safe_ret.
Qed.

(** What is known when an operation is chosen. *)
Record ready l new h w : Prop := {
  rd_ok : cluster_ok h l;
  rd_identified : identified h l;
  rd_view : claims_view h w l;
  rd_new_NoDup : NoDup new;
  rd_new p : p ∈ new → p ∈ l;
  rd_max : GetHashMaxSlot w = DefaultHashMaxSlots;
}.
Lemma place_slaves_ready c l new h w :
  ready l new h w →
  safe (place_slaves c) (h, w) (λ _ s', same_identity h s'.1 ∧ same_slots h s'.1 ∧
    GetHashMaxSlot s'.2 = DefaultHashMaxSlots ∧ claims_view s'.1 s'.2 l ∧ identified s'.1 l ∧ ids_inj l s'.1).
Proof.
  intros Hrd r [h2 w2] Hrun. pose proof (place_slaves_spec c h w _ _ Hrun) as (Hs & Hm & _).
  pose proof (keeps_servers_place_slaves c _ _ _ Hrun) as Hsame. cbn [fst snd] in *.
  split; [apply Hsame|]. split; [done|]. split; [by rewrite Hm; apply Hrd|].
  split; [by eapply claims_view_same; [| |apply Hrd]|]. split.
  - eapply identified_same; [apply Hsame|]. apply Hrd.
  - eapply ids_inj_same; [apply Hsame|]. intros p q. apply (cok_id _ _ (rd_ok _ _ _ _ Hrd)).
Qed.

Lemma allocate_branch_servers cl c l new wrap h w :
  ready l new h w → holders h l = [] → 1 ≤ Z.of_nat (length new) ≤ 16384 →
  safe (r ← place_slaves c;
        match (r : Ctx * option error) with
        | (_, Some err) => mret (cl, Some err)
        | (_, None) => stage cl wrap (AllocSlots new)
        end) (h, w) (λ r st', r.2 = None → one_claim l h st'.2 16384).
Proof.
  intros Hrd Hold Hlen. apply safe_bind. eapply safe_mono; [by eapply place_slaves_ready|].
  intros [c' [e|]] [h2 w2] (Hsame & Hs & Hmax & Hview & Hid & Hinj); [by apply safe_ret|]. cbn [fst snd] in *.
  assert (∀ p, p ∈ l → Slots (h2 !!! p) = []) as Hempty.
  { intros p Hp. destruct (Hs p) as [-> _]. apply dec_stable. intros Hne.
    assert (p ∈ holders h l) as Hin by (apply elem_of_holders; [apply Hrd|done]).
    rewrite Hold in Hin. by apply elem_of_nil in Hin. }
  unfold stage. apply safe_bind. intros e [h3 w3] Hrun. apply safe_ret. cbn [fst snd]. intros He. destruct e; [done|].
  pose proof (AllocSlots_runs new h2 w2 Hmax (rd_new_NoDup _ _ _ _ Hrd) Hlen) as Hsh%runs_safe.
  specialize (Hsh _ _ Hrun) as [Hother Hpost]. destruct (Hpost eq_refl) as [Hall _]. cbn [fst] in *.
  assert (claims_view h3 w3 l) as Hview3.
  { refine (AllocSlots_claims l new h2 w2 (rd_new_NoDup _ _ _ _ Hrd) _ Hid Hinj Hview _ _ Hrun eq_refl).
    intros p Hp. split; [by eapply rd_new|]. by apply Hempty, (rd_new _ _ _ _ Hrd). }
  apply (one_claim_same _ _ h3); [etrans; [exact Hsame|exact (keeps_identity_AllocSlots _ _ _ _ Hrun)]|].
  apply (one_claim_view l h3 w3 16384 new); [done| |apply Hrd|by rewrite Hall].
  destruct (NoDup_bind_inv (λ p, Slots (h3 !!! p)) new) as [Hdisj _]; [rewrite Hall; apply NoDup_seqZ|].
  assert (∀ p s, p ∈ l → s ∈ Slots (h3 !!! p) → p ∈ new) as Hin.
  { intros p s Hp Hin. apply dec_stable. intros Hno. rewrite Hother, Hempty in Hin by done. by apply elem_of_nil in Hin. }
  intros p q s Hp Hq Hsp Hsq. eapply Hdisj; eauto.
Qed.
Lemma rebalance_branch_servers cl c l new wrap h w :
  ready l new h w → all_held h l →
  safe (r ← place_slaves c;
        match (r : Ctx * option error) with
        | (_, Some err) => mret (cl, Some err)
        | (_, None) => stage cl wrap (RebalancedCluster new)
        end) (h, w) (λ r st', r.2 = None → one_claim l h st'.2 16384).
Proof.
  intros Hrd Hall. pose proof (one_claim_start l h w (rd_ok _ _ _ _ Hrd) (rd_view _ _ _ _ Hrd) Hall) as Hone.
  apply safe_bind. eapply safe_mono; [by eapply place_slaves_ready|].
  intros [c' [e|]] [h2 w2] (Hsame & Hs & _ & Hview & Hid & Hinj); [by apply safe_ret|]. cbn [fst snd] in *.
  assert (owned l h2 w2) as Hown.
  { apply owned_of_view; [done|..].
    - intros p Hp. destruct (Hs p) as [-> _]. by apply (cok_slots_NoDup _ _ (rd_ok _ _ _ _ Hrd)).
    - intros p q s Hp Hq. destruct (Hs p) as [-> _], (Hs q) as [-> _]. by apply (cok_disjoint _ _ (rd_ok _ _ _ _ Hrd)). }
  assert (one_claim l h2 w2 16384) as Hone2.
  { apply one_claim_intro; [apply Hown|]. intros s Hr. destruct (Hall s Hr) as (p & Hp & Hsp). exists p. split; [done|].
    apply Hview; [done|]. by destruct (Hs p) as [-> _]. }
  unfold stage. apply safe_bind. intros e [h3 w3] Hrun. apply safe_ret. cbn [fst snd]. intros He. destruct e; [done|].
  pose proof (RebalancedCluster_claims l new h2 w2 (rd_new_NoDup _ _ _ _ Hrd) (rd_new _ _ _ _ Hrd) Hid Hinj Hown
    _ _ Hrun eq_refl) as Hreb. cbn [fst snd] in Hreb.
  apply (one_claim_same _ _ h3); [etrans; [exact Hsame|apply Hreb]|]. by eapply one_claim_rebalances.
Qed.

Lemma scale_down_branch_servers cl c l new n m h w :
  ready l new h w → masters_ok h l new n → 1 ≤ n →
  (∀ p, p ∈ l → set_name (h !!! p) = (home (IPPort (h !!! p))).2) →
  (∀ s ns, nodes c !! s = Some ns ↔ ns = nodes_of h l s ∧ ns ≠ []) →
  safe (r ← DispatchSlotToNewMasters c new (holders h l) (new ++ holders h l);
        match (r : Ctx * option error) with
        | (_, Some err) => mret (cl, Some err)
        | (c, None) => scalingDown cl m (GetStatefulsetNodes c)
        end) (h, w) (λ r st', r.2 = None → one_claim l h st'.2 16384).
Proof.
  intros Hrd Hnew Hn Hhome Hnodes. pose proof (rd_ok _ _ _ _ Hrd) as Hok. pose proof (rd_max _ _ _ _ Hrd) as Hmax.
  pose proof (masters_bom_ok h l new n Hok Hnew Hn) as Hbom.
  assert (∀ p, p ∈ new ++ holders h l → p ∈ l) as Hin.
  { intros p [Hp|Hp]%elem_of_app; [by eapply rd_new|by apply list_elem_of_filter in Hp as [_ ?]]. }
  assert (∀ p, p ∈ l → p ∉ new ++ holders h l → Slots (h !!! p) = []) as Hout.
  { intros p Hp Hno. apply dec_stable. intros Hne. apply Hno, elem_of_app. right. by apply elem_of_holders. }
  apply safe_bind. intros [c' e] [h2 w2] Hrun. destruct e as [e|]; [by apply safe_ret|].
  assert (GetHashMaxSlot w + 1 = 16384) as HN by by rewrite Hmax.
  pose proof (DispatchSlotToNewMasters_runs c h w new (holders h l) (new ++ holders h l) 16384 Hbom HN) as Hho%runs_safe.
  specialize (Hho _ _ Hrun) as (_ & Hdisj & _ & Hho). destruct (Hho eq_refl) as [Hpart _]. cbn [fst snd] in *.
  pose proof (DispatchSlotToNewMasters_claims l c new (holders h l) (new ++ holders h l) 16384 h w Hbom HN Hin Hout Hin
    (rd_identified _ _ _ _ Hrd) (cok_id _ _ Hok) (rd_view _ _ _ _ Hrd) _ _ Hrun eq_refl) as [Hview2 Hout2]. cbn [fst snd] in Hview2, Hout2.
  pose proof (keeps_identity_DispatchSlots _ _ _ _ _ _ _ Hrun) as Hsame. unfold on_first in Hsame. cbn [fst] in Hsame.
  pose proof (DispatchSlots_nodes _ _ _ _ _ _ _ Hrun) as Hc. cbn [fst] in Hc.
  assert (∀ p q s, p ∈ l → q ∈ l → claims_at h w2 p s → claims_at h w2 q s → p = q) as Honce.
  { assert (∀ p s, p ∈ l → claims_at h w2 p s → p ∈ new ++ holders h l ∧ s ∈ Slots (h2 !!! p)) as Hcl.
    { intros p s Hp Hcl. assert (s ∈ Slots (h2 !!! p)) as Hs.
      { apply Hview2; [done|]. unfold claims_at. by destruct (Hsame p) as [-> _]. }
      split; [|done]. apply dec_stable. intros Hno. rewrite Hout2 in Hs by done. by apply elem_of_nil in Hs. }
    intros p q s Hp Hq [Hpn Hps]%Hcl [Hqn Hqs]%Hcl; [|done..]. by apply (Hdisj p q s). }
  assert (∀ s, 0 ≤ s < 16384 → ∃ p, p ∈ l ∧ claims_at h w2 p s) as Hall.
  { intros s Hs. assert (s ∈ new ≫= λ p, Slots (h2 !!! p)) as (p & Hps & Hp%(rd_new _ _ _ _ Hrd))%list_elem_of_bind.
    { rewrite Hpart. apply elem_of_seqZ. lia. }
    exists p. split; [done|]. apply (Hview2 p s Hp) in Hps. unfold claims_at in *. by destruct (Hsame p) as [<- _]. }
  set (keep a := ∃ p s, p ∈ l ∧ a = IPPort (h !!! p) ∧ claims w2 a s).
  eapply safe_mono; [apply (scalingDown_stays h2 keep)|].
  - intros cl' i Hempty a (p & s & Hp & -> & Hcl) Heq. rewrite <- Hhome in Heq by done.
    assert (p ∈ set_nodes cl' (GetStatefulsetNodes c') i) as Hset.
    { unfold set_nodes, GetStatefulsetNodes. rewrite Hc, <- Heq.
      assert (p ∈ nodes_of h l (set_name (h !!! p))) as Hpn by by apply list_elem_of_filter.
      rewrite (proj2 (Hnodes _ (nodes_of h l (set_name (h !!! p))))); [done|]. split; [done|]. intros Hnil. rewrite Hnil in Hpn.
      by apply elem_of_nil in Hpn. }
    unfold set_empty in Hempty. rewrite Forall_forall in Hempty. apply Hempty in Hset.
    assert (s ∈ Slots (h2 !!! p)) as Hs.
    { apply Hview2; [done|]. unfold claims_at. by destruct (Hsame p) as [-> _]. }
    rewrite Hset in Hs. by apply elem_of_nil in Hs.
  - intros r st' Hpost Hnone. destruct (Hpost Hnone) as [_ [Hless Hkeep]]. apply one_claim_intro.
    + intros p q s Hp Hq Hcp%Hless Hcq%Hless. by apply (Honce p q s).
    + intros s Hs. destruct (Hall s Hs) as (p & Hp & Hcl). exists p. split; [done|].
      apply Hkeep; [|done]. by exists p, s.
Qed.

End sync_servers.

(** ** The first synchronisation of three servers *)

#[local] Existing Instances range_default sort_default k8s_default object_store_default kube_errors_default.

Section lift_servers.
Context {W V : Type} (A : IAdmin V) (S : @SlotServers V A).
Lemma safe_heap_snd {X} (m : M (heap * V) X) h (w : W) (v : V) (P : X → V → Prop) :
  safe m (h, v) (λ x st', P x st'.2) → safe (heap_snd m) (h, (w, v)) (λ x st', P x st'.2.2).
Proof.
  intros Hm x st' Heq. unfold heap_snd in Heq. simpl in Heq. destruct (m (h, v)) as [[y [h' v']]| |] eqn:E; try done.
  simpl in Heq. injection Heq as <- <-. exact (Hm _ _ E).
Qed.
Definition lift_servers : @SlotServers (W * V) (lift_admin A).
Proof.
  refine {| server_id := server_id; claims w := claims w.2 |}; intros; cbn.
  all: try (destruct w as [w v]; apply safe_on_snd; intros ? ? Hr; cbn [snd]).
  - by apply SetSlots_claims in Hr.
  - by apply SetSlot_claims in Hr.
  - by apply AddSlots_claims in Hr.
  - by apply MigrateKeys_claims in Hr.
  - by apply MigrateKeysInSlot_claims in Hr.
  - destruct st as [h [w v]]. apply (safe_heap_snd _ h w v (λ _ v', ∀ a s, claims v' a s ↔ claims v a s)).
    apply (AttachSlaveToMaster_claims p id (h, v)).
Defined.
End lift_servers.

#[local] Existing Instances demo_returns demo_max_frame demo_sts_frame'.
Definition demo_ids3 (a : string) : string :=
  if decide (a = "ip1:6379") then "a" else if decide (a = "ip2:6379") then "b" else "c".
Definition demo_home3 (a : string) : string * string :=
  ("ns", ClusterStatefulSetName "cache"
    (if decide (a = "ip1:6379") then 0 else if decide (a = "ip2:6379") then 1 else 2)).
#[local] Instance demo_servers : SlotServers demo_world :=
  lift_servers _ (log_servers (λ _, false) demo_ids3 (λ _ _, False)).
#[local] Instance demo_accepting : Accepting demo_world.
Proof.
  split; intros; cbn; destruct w as [w v]; apply safe_on_snd; intros e v' Hr;
    [by apply (accepts_SetSlots (Accepting := log_accepting _ (λ _, eq_refl))) in Hr
    |by apply (accepts_SetSlot (Accepting := log_accepting _ (λ _, eq_refl))) in Hr].
Qed.
(** Code on the log that leaves the tables alone. *)
Definition same_tables (v v' : list call) : Prop := ∀ a s,
  log_claims (λ _, false) demo_ids3 (λ _ _, False) v' a s ↔ log_claims (λ _, false) demo_ids3 (λ _ _, False) v a s.
#[local] Instance same_tables_preorder : PreOrder same_tables.
Proof. split; [done|]. intros v1 v2 v3 H12 H23 a s. etrans; [apply H23|apply H12]. Qed.
Lemma same_tables_stays keep (w w' : demo_world) : same_tables w.2 w'.2 → stays keep w w'.
Proof. intros Hsame. split; intros a s; intros; by apply Hsame. Qed.
Lemma same_tables_record c : (∀ held, call_claims demo_ids3 c held = held) → keeps same_tables (record (λ _, false) c).
Proof. intros Hc v e v' Hr a s. by rewrite (record_same _ demo_ids3 (λ _ _, False) c v Hc e v' Hr). Qed.
#[local] Instance demo_pods_calls keep : CallFrame (stays (W := demo_world) keep).
Proof.
  assert (∀ A (m : M (list call) A), keeps same_tables m → keeps (stays (W := demo_world) keep) (on_snd m)) as Hsnd.
  { intros A m Hm [w v]. apply safe_on_snd. intros x v' Hr. apply same_tables_stays. exact (Hm v x v' Hr). }
  assert (∀ A (m : M (heap * list call) A), keeps (on_second same_tables) m →
    keeps (on_world (stays (W := demo_world) keep)) (heap_snd m)) as Hheap.
  { intros A m Hm [h [w v]] x s' Hr. apply same_tables_stays. revert Hr. apply (safe_heap_snd m h w v (λ _ v', same_tables v v')).
    exact (Hm (h, v)). }
  assert (∀ X (x : X), keeps (stays (W := demo_world) keep) (mret x)) as Hret by (intros; apply keeps_ret; exact _).
  split; cbn; intros; try apply Hret; try (apply Hsnd, same_tables_record; done).
  - apply Hheap, keeps_ret. exact _.
  - apply Hheap. intros [h v] e st' Hr. exact (AttachSlaveToMaster_claims (SlotServers := log_servers _ demo_ids3 _) _ _ _ _ _ Hr).
  - apply Hheap. intros [h v]. apply safe_on_snd. intros e v' Hr. by apply (same_tables_record (CallForget id)) in Hr.
  - apply Hsnd. intros v e v' Hr. unfold record_ in Hr. injection Hr as _ <-. intros a s. by rewrite log_claims_snoc.
  - apply Hsnd. intros v e v' Hr. unfold record_ in Hr. injection Hr as _ <-. intros a s. by rewrite log_claims_snoc.
  - apply elem_of_cons in H as [[= ->]|H%list_elem_of_singleton]; done.
Qed.
#[local] Instance demo_pods : PodServers demo_world.
Proof.
  assert (∀ keep A (m : M api_world A), keeps (stays (W := demo_world) keep) (on_fst m)) as Hfst.
  { intros keep A m [w v]. by apply safe_on_fst. }
  by refine {| home := demo_home3 |}; intros; apply Hfst.
Defined.

Lemma demo_three (p : ptr) : p ∈ GetNodes demo_infos3 → p = 3%positive ∨ p = 1%positive ∨ p = 2%positive.
Proof. rewrite demo_nodes3. set_solver. Qed.
Lemma demo_status_names : status_names demo_new_cluster demo_heap3 (GetNodes demo_infos3).
Proof.
  split.
  - intros n p Hn [->|[->| ->]]%demo_three.
    all: apply elem_of_cons in Hn as [->|[->|[->|?%elem_of_nil]%elem_of_cons]%elem_of_cons]; [..|done];
      intros Hid; first [discriminate Hid|split; [vm_compute; reflexivity|discriminate]].
  - intros p [->|[->| ->]]%demo_three.
    + exists (demo_pod_of "c" "ip3" 2). split; [right; right; left|reflexivity].
    + exists (demo_pod_of "a" "ip1" 0). split; [left|reflexivity].
    + exists (demo_pod_of "b" "ip2" 1). split; [right; left|reflexivity].
Qed.

