(* ===== verification/Settle.v ===== *)
(** A synchronisation that places slaves settles the cluster: once the first allocation, a
    scaling up or an addition of slaves has succeeded, the status built from what the
    Redis servers then say asks for no further operation. *)

From Stdlib Require Import ZArith Lia.
From S2P Require Import Prelude GoStrings GoFloat Errors Slot Node ClusterInfo AdminInterface.
From S2P Require Import Groups Clustering Migration MigrationProofs Rebalance RebalanceProofs.
From S2P Require Import Kube Utils Api Client Heal Resources Connections Status StatusProofs Sync Frame Worlds.
From S2P Require Import SyncProofs SyncSlots Servers ServersSync.

Local Open Scope Z_scope.

(** ** Counting through addresses *)

(** Two lists of the same keys have as many elements that satisfy a property of the key. *)
Lemma length_filter_keys {A B K} (f : A → K) (g : B → K) (P : A → Prop) (Q : B → Prop)
    `{!∀ a, Decision (P a), !∀ b, Decision (Q b)} (l : list A) (l' : list B) :
  f <$> l ≡ₚ g <$> l' → (∀ a b, a ∈ l → b ∈ l' → f a = g b → P a ↔ Q b) →
  length (filter P l) = length (filter Q l').
Proof.
  intros (l3 & Heq & Hperm)%Permutation_map_inv HPQ.
  assert (∀ a b, a ∈ l → b ∈ l3 → f a = g b → P a ↔ Q b) as HPQ3.
  { intros a b Ha Hb. apply HPQ; [done|]. by rewrite Hperm. }
  transitivity (length (filter Q l3)); [|by rewrite Hperm]. clear l' Hperm HPQ.
  revert l3 Heq HPQ3. induction l as [|a l IH]; intros [|b l3] Heq HPQ; try done.
  injection Heq as Hab Heq. rewrite !filter_cons. specialize (IH l3 Heq).
  assert (∀ x y, x ∈ l → y ∈ l3 → f x = g y → P x ↔ Q y) as Hrest by (intros x y Hx Hy; apply HPQ; by right).
  pose proof (HPQ a b ltac:(by left) ltac:(by left) Hab) as Hpq.
  destruct (decide (P a)), (decide (Q b)); simpl; rewrite IH by done; tauto.
Qed.

(** Each pod finds the one node with its address. *)
Lemma redis_node_of_pod `{MapRange} h infos pod p :
  NoDup ((λ p, IP (h !!! p)) <$> GetNodes infos) → p ∈ GetNodes infos → IP (h !!! p) = pod_IP pod →
  redis_node_of h infos pod = Some p.
Proof.
  intros Hnd Hp Hip. unfold redis_node_of.
  assert (filter (λ q, IP (h !!! q) = pod_IP pod) (GetNodes infos) = [p]) as ->; [|done].
  apply Permutation_singleton_r, symmetry, NoDup_Permutation; [apply NoDup_singleton| |].
  - apply NoDup_filter. by eapply NoDup_fmap_1.
  - intros q. rewrite list_elem_of_singleton, list_elem_of_filter. split; [by intros ->|]. intros [Hq Hin].
    apply list_elem_of_lookup in Hp as [i Hi], Hin as [j Hj]. assert (i = j) as ->; [|congruence].
    apply (NoDup_lookup _ i j (IP (h !!! p)) Hnd); rewrite list_lookup_fmap.
    + by rewrite Hi.
    + rewrite Hj. simpl. congruence.
Qed.
Lemma redis_nodes_of_pods `{MapRange} h infos pods :
  pod_IP <$> pods ≡ₚ (λ p, IP (h !!! p)) <$> GetNodes infos →
  NoDup ((λ p, IP (h !!! p)) <$> GetNodes infos) →
  omap (redis_node_of h infos) pods ≡ₚ GetNodes infos.
Proof.
  intros Hp Hnd. symmetry in Hp. apply Permutation_map_inv in Hp as (pods' & Heq & Hperm). rewrite Hperm.
  apply reflexive_eq. clear pods Hperm. assert (∀ p, p ∈ GetNodes infos → p ∈ GetNodes infos) as Hin by done.
  revert Heq Hin. generalize (GetNodes infos) at 1 2 4 as l.
  induction pods' as [|pod pods IH]; intros [|p l] Heq Hin; try done. injection Heq as Hip Heq. simpl.
  rewrite (redis_node_of_pod h infos pod p) by (done || (apply Hin; by left)). f_equal. apply IH; [done|].
  intros q Hq. apply Hin. by right.
Qed.

(** ** The roles of the servers

    [master_of w a]: the ID of the node that the server at [a] replicates, if it is a slave.
    CLUSTER REPLICATE makes the server it is sent to a slave of the given node, and the
    commands that assign slots change no role. *)
Class RoleServers (W : Type) `{IAdmin W} := {
  master_of : W → string → option string;
  AttachSlaveToMaster_role p id st : safe (admin_AttachSlaveToMaster p id) st (λ e st', e = None →
    ∀ a, master_of st'.2 a = if decide (a = IPPort (st.1 !!! p)) then Some id else master_of st.2 a);
  slots_roles :: SlotFrame (λ w w', ∀ a, master_of w' a = master_of w a);
}.

Section settled.
Context {W : Type} `{SlotServers W} `{!RoleServers W}.
Implicit Types (h : heap) (w : W) (l new : Nodes).

(** The nodes are as their servers say. *)
Record reports h w l : Prop := {
  rp_identified : identified h l;
  rp_view : claims_view h w l;
  rp_role p : p ∈ l →
    match master_of w (IPPort (h !!! p)) with
    | Some id => GetRole (h !!! p) = RedisClusterNodeRoleSlave ∧ MasterReferent (h !!! p) = id
    | None => GetRole (h !!! p) = RedisClusterNodeRoleMaster
    end;
}.
(** The servers of [new] are masters and claim slots; the others are slaves of the one of
    [new] in their set, and each set has [r] of them. *)
Record settled h l new (set : ptr → string) (r : Z) w : Prop := {
  st_NoDup : NoDup new;
  st_in m : m ∈ new → m ∈ l;
  st_master m : m ∈ new → master_of w (IPPort (h !!! m)) = None ∧ ∃ s, claims_at h w m s;
  st_slave p : p ∈ l → p ∉ new →
    ∃ m, m ∈ new ∧ set p = set m ∧ master_of w (IPPort (h !!! p)) = Some (ID (h !!! m));
  st_once m m' : m ∈ new → m' ∈ new → set m = set m' → m = m';
  st_size m : m ∈ new → Z.of_nat (length (filter (λ p, set p = set m) l)) = r + 1;
}.

(** The nodes that are read later, at the same addresses. *)
Definition address (n : Node) : string * string := (IP n, Port n).
Lemma address_IPPort n n' : address n = address n' → IPPort n = IPPort n'.
Proof. intros [= Hip Hport]. unfold IPPort. by rewrite Hip, Hport. Qed.

Section status.
Variables (h : heap) (l new : Nodes) (set : ptr → string) (r : Z) (w : W) (h' : heap) (l' : Nodes).
Hypothesis Hst : settled h l new set r w.
Hypothesis Hl : NoDup l.
Hypothesis Hid : identified h l.
Hypothesis Hinj : ids_inj l h.
Hypothesis Hne : ∀ p, p ∈ l → ID (h !!! p) ≠ "".
Hypothesis Hrep : reports h' w l'.
Abbreviation nodes := ((λ q, h' !!! q) <$> l').
Hypothesis Haddr : (λ p, address (h !!! p)) <$> l ≡ₚ address <$> nodes.

Lemma status_node_of p n : p ∈ l → n ∈ nodes → address (h !!! p) = address n →
  ID n = ID (h !!! p) ∧ IsMasterWithSlot n = bool_decide (p ∈ new) ∧ IsSlave n = bool_decide (p ∉ new) ∧
  ∀ m, m ∈ new → slave_of (ID (h !!! m)) n ↔ p ∉ new ∧ set p = set m.
Proof.
  intros Hp (q & -> & Hq)%list_elem_of_fmap Ha%address_IPPort. unfold slave_of.
  assert (ID (h' !!! q) = ID (h !!! p)) as Hidq by (by rewrite <- (rp_identified _ _ _ Hrep), <- Ha, Hid).
  pose proof (rp_role _ _ _ Hrep q Hq) as Hrole. rewrite <- Ha in Hrole. unfold IsMasterWithSlot, IsSlave.
  split; [done|]. destruct (decide (p ∈ new)) as [Hnew|Hnew].
  - destruct (st_master _ _ _ _ _ _ Hst p Hnew) as [Hm (s & Hs)]. rewrite Hm in Hrole. rewrite Hrole.
    rewrite (bool_decide_eq_true_2 (p ∈ new)), (bool_decide_eq_false_2 (p ∉ new)) by tauto. split_and!; [|done|].
    + apply andb_true_iff. split; [by apply bool_decide_eq_true|]. apply Z.ltb_lt.
      assert (s ∈ Slots (h' !!! q)) as Hin. { apply (rp_view _ _ _ Hrep); [done|]. unfold claims_at in *. by rewrite <- Ha. }
      unfold TotalSlots. destruct (Slots (h' !!! q)); [by apply elem_of_nil in Hin|simpl; lia].
    + intros m _. split; [by intros [? _]|tauto].
  - destruct (st_slave _ _ _ _ _ _ Hst p Hp Hnew) as (m & Hm & Hset & Hmo). rewrite Hmo in Hrole.
    destruct Hrole as [Hrole Href]. rewrite Hrole, Href.
    rewrite (bool_decide_eq_false_2 (p ∈ new)), (bool_decide_eq_true_2 (p ∉ new)) by done. split_and!; [done|done|].
    intros m' Hm'. split.
    + intros (_ & Heq & _). split; [done|]. rewrite Hset. f_equal. apply Hinj; [by apply (st_in _ _ _ _ _ _ Hst)..|done].
    + intros [_ Heq]. split; [by apply bool_decide_eq_true|].
      assert (m = m') as -> by (apply (st_once _ _ _ _ _ _ Hst); [done..|congruence]).
      split; [done|]. by apply Hne, (st_in _ _ _ _ _ _ Hst).
Qed.
Lemma status_node_inv n : n ∈ nodes → ∃ p, p ∈ l ∧ address (h !!! p) = address n.
Proof.
  intros Hn. assert (address n ∈ address <$> nodes) as Ha by by apply list_elem_of_fmap_2.
  rewrite <- Haddr in Ha. apply list_elem_of_fmap in Ha as (p & Heq & Hp). by exists p.
Qed.
Lemma status_node_get p : p ∈ l → ∃ n, n ∈ nodes ∧ address (h !!! p) = address n.
Proof.
  intros Hp. assert (address (h !!! p) ∈ address <$> nodes) as Ha by (rewrite <- Haddr; by apply (list_elem_of_fmap_2 (λ p, address (h !!! p)))).
  apply list_elem_of_fmap in Ha as (n & Heq & Hn). by exists n.
Qed.

Lemma settled_masters : masters nodes = Z.of_nat (length new).
Proof.
  unfold masters. rewrite <- (length_filter_keys (λ p, address (h !!! p)) address (λ p, p ∈ new) _ l nodes Haddr).
  - f_equal. apply Permutation_length, NoDup_Permutation; [by apply NoDup_filter|apply Hst|]. intros p.
    rewrite list_elem_of_filter. split; [tauto|]. intros Hp. split; [done|]. by apply (st_in _ _ _ _ _ _ Hst).
  - intros p n Hp Hn Ha. destruct (status_node_of p n Hp Hn Ha) as (_ & -> & _). by rewrite bool_decide_eq_true.
Qed.
Lemma settled_slaves m : m ∈ new → slaves nodes (ID (h !!! m)) = r.
Proof.
  intros Hm. unfold slaves.
  rewrite <- (length_filter_keys (λ p, address (h !!! p)) address (λ p, p ∉ new ∧ set p = set m) _ l nodes Haddr).
  - pose proof (st_size _ _ _ _ _ _ Hst m Hm) as Hsize.
    assert (filter (λ p, set p = set m) l ≡ₚ m :: filter (λ p, p ∉ new ∧ set p = set m) l) as Hperm.
    { apply NoDup_Permutation; [by apply NoDup_filter| |].
      - apply NoDup_cons. split; [|by apply NoDup_filter]. intros [[? _] _]%list_elem_of_filter. done.
      - intros p. rewrite elem_of_cons, !list_elem_of_filter. split.
        + intros [Hset Hp]. destruct (decide (p ∈ new)); [left; by apply (st_once _ _ _ _ _ _ Hst)|tauto].
        + intros [->|?]; [split; [done|by apply (st_in _ _ _ _ _ _ Hst)]|tauto]. }
    rewrite Hperm in Hsize. simpl in Hsize. lia.
  - intros p n Hp Hn Ha. destruct (status_node_of p n Hp Hn Ha) as (_ & _ & _ & Hsl). by rewrite Hsl.
Qed.
Lemma settled_tracked id : tracked nodes id ↔ ∃ m, m ∈ new ∧ id = ID (h !!! m).
Proof.
  split.
  - intros (n & Hn & Hor). destruct (status_node_inv n Hn) as (p & Hp & Ha).
    destruct (status_node_of p n Hp Hn Ha) as (Hidn & Hmn & Hsn & Hsl). destruct Hor as [[Hmast Hid']|Hs].
    + rewrite Hmn in Hmast. apply bool_decide_eq_true in Hmast. exists p. split; [done|congruence].
    + assert (p ∉ new) as Hp' by (destruct Hs as [Hs _]; rewrite Hsn in Hs; by apply bool_decide_eq_true in Hs).
      destruct (st_slave _ _ _ _ _ _ Hst p Hp Hp') as (m & Hm & Hset & _). exists m. split; [done|].
      assert (slave_of (ID (h !!! m)) n) as (_ & <- & _) by by apply Hsl. by destruct Hs as (_ & -> & _).
  - intros (m & Hm & ->). pose proof (st_in _ _ _ _ _ _ Hst m Hm) as Hml.
    destruct (status_node_get m Hml) as (n & Hn & Ha). destruct (status_node_of m n Hml Hn Ha) as (Hidn & Hmn & _).
    exists n. split; [done|]. left. split; [|done]. rewrite Hmn. by apply bool_decide_eq_true.
Qed.
End status.

(** The nodes of a later view, when they run in the pods. *)
Record view_of (h : heap) (l : Nodes) (h' : heap) (l' : Nodes) (pods : list Pod) : Prop := {
  vo_address : (λ p, address (h !!! p)) <$> l ≡ₚ (λ q, address (h' !!! q)) <$> l';
  vo_pods : pod_IP <$> pods ≡ₚ (λ p, IP (h !!! p)) <$> l;
}.

(** The status of settled servers asks for nothing. *)
Lemma settled_status `{MapRange} `{SortPkg} cl infos h l new set w h' pods :
  settled h l new set (ClusterReplicas (Spec cl)) w → Z.of_nat (length new) = MasterSize (Spec cl) →
  1 ≤ MasterSize (Spec cl) → Z.of_nat (length pods) < 2 ^ 31 →
  NoDup ((λ p, IP (h !!! p)) <$> l) → identified h l → ids_inj l h → (∀ p, p ∈ l → ID (h !!! p) ≠ "") →
  reports h' w (GetNodes infos) → view_of h l h' (GetNodes infos) pods →
  runs (buildClusterStatus infos pods cl) h' (λ status _, needClusterOperation (cl <| drc_Status := status |>) = false).
Proof.
  intros Hst Hnew Hone Hlen Hips Hid Hinj Hne Hrep [Haddr Hpods].
  assert ((λ p, IP (h !!! p)) <$> l ≡ₚ (λ q, IP (h' !!! q)) <$> GetNodes infos) as Hip.
  { apply (fmap_Permutation fst) in Haddr. by rewrite <- !list_fmap_compose in Haddr. }
  assert (NoDup l) as Hl by by eapply NoDup_fmap_1.
  eapply runs_mono; [by apply buildClusterStatus_counts|]. intros status h2 (_ & _ & _ & _ & Hneed). apply Hneed.
  assert (StatusProofs.nodes_of h' infos pods ≡ₚ (λ q, h' !!! q) <$> GetNodes infos) as Hn.
  { unfold StatusProofs.nodes_of. apply fmap_Permutation, redis_nodes_of_pods; [by rewrite Hpods|]. by rewrite <- Hip. }
  assert ((λ p, address (h !!! p)) <$> l ≡ₚ address <$> ((λ q, h' !!! q) <$> GetNodes infos)) as Ha by by rewrite <- list_fmap_compose.
  assert (∀ id, tracked (StatusProofs.nodes_of h' infos pods) id ↔ ∃ m, m ∈ new ∧ id = ID (h !!! m)) as Htr.
  { intros id. rewrite <- (settled_tracked h l new set _ w h' _ Hst Hid Hinj Hne Hrep Ha id). unfold tracked.
    by setoid_rewrite Hn. }
  split_and!.
  - rewrite <- Hnew, <- (settled_masters h l new set _ w h' _ Hst Hl Hid Hinj Hne Hrep Ha). unfold masters. by rewrite Hn.
  - intros id (m & Hm & ->)%Htr.
    rewrite <- (settled_slaves h l new set _ w h' _ Hst Hl Hid Hinj Hne Hrep Ha m Hm). unfold slaves. by rewrite Hn.
  - intros Hno. destruct new as [|m new']; [simpl in Hnew; lia|]. destruct (Hno (ID (h !!! m))). apply Htr.
    exists m. split; [by left|done].
Qed.
End settled.

(** ** Attaching the slaves *)

(** The replicas after some nodes were attached to masters, one after the other. *)
Definition reassign (h : heap) (f : string → option string) (ms : list (ptr * string)) (a : string) : option string :=
  foldl (λ r x, if decide (a = IPPort (h !!! x.1)) then Some x.2 else r) (f a) ms.
Lemma reassign_snoc h f ms p id a :
  reassign h f (ms ++ [(p, id)]) a = if decide (a = IPPort (h !!! p)) then Some id else reassign h f ms a.
Proof. unfold reassign. by rewrite foldl_app. Qed.
Lemma reassign_out h f ms a : (∀ p id, (p, id) ∈ ms → a ≠ IPPort (h !!! p)) → reassign h f ms a = f a.
Proof.
  induction ms as [|[p id] ms IH] using rev_ind; intros Ha; [done|]. rewrite reassign_snoc, decide_False.
  - apply IH. intros q i Hq. apply (Ha q i), elem_of_app. by left.
  - apply (Ha p id), elem_of_app. right. by left.
Qed.
Lemma reassign_in h f ms p id :
  (p, id) ∈ ms → (∀ q i, (q, i) ∈ ms → IPPort (h !!! q) = IPPort (h !!! p) → i = id) →
  reassign h f ms (IPPort (h !!! p)) = Some id.
Proof.
  induction ms as [|[q i] ms IH] using rev_ind; intros Hin Hu; [by apply elem_of_nil in Hin|].
  rewrite reassign_snoc. case_decide as Ha.
  - f_equal. apply (Hu q i); [|done]. apply elem_of_app. right. by left.
  - apply IH; [|intros x j Hx; apply Hu, elem_of_app; by left].
    apply elem_of_app in Hin as [?|[= -> ->]%list_elem_of_singleton]; [done|]. by destruct Ha.
Qed.
Definition attachments (sets : list (string * Nodes)) : list (ptr * string) := sets ≫= λ e, (λ p, (p, e.1)) <$> e.2.

Section settles.
Context `{MapRange} `{SortPkg} `{K8sApi} `{ObjectStore}.
Context {W : Type} `{ClientLaws W} `{IAdminLaws W} `{!SlotServers W} `{!RoleServers W} `{!Accepting W} `{!ControllerEnv W}.
Context `{!PodServers W} `{!AdminReturns W} `{!AdminFrame (same_max (W := W))} `{!AdminFrame (keeps_sts (W := W))}.
Implicit Types (cl : DistributedRedisCluster) (h : heap) (w : W) (l new : Nodes) (c : Ctx).

(** When no command fails, every slave of the context replicates its master. *)
Lemma AttachingSlaves_roles c h w :
  (∀ id, is_Some (slavesByMaster c !! id) → slaves_of c id ≠ [] →
     ∃ m, rc_Nodes (cluster c) !! id = Some m ∧ ID (h !!! m) = id) →
  safe (AttachingSlavesToMaster c) (h, w) (λ e st', e = None → ∀ a,
    master_of st'.2 a = reassign h (master_of w) (attachments (range 23 (slavesByMaster c))) a).
Proof.
  intros Hm. unfold AttachingSlavesToMaster.
  set (I := λ ms (e : option error) (st : heap * W), same_identity h st.1 ∧
    (e = None → ∀ a, master_of st.2 a = reassign h (master_of w) ms a)).
  eapply safe_mono; [apply (safe_for_fold_list _ _ _ _ (λ done, I (attachments done)))|].
  - split; [by intros p|done].
  - intros done [id slaves] rest e st Hl HI. assert (slavesByMaster c !! id = Some slaves) as Hid.
    { apply (elem_of_range 23). rewrite Hl. apply elem_of_app. right. by left. }
    unfold attachments. rewrite bind_app. fold (attachments done). cbn [mbind list_bind fst snd]. rewrite app_nil_r.
    destruct slaves as [|p0 slaves'].
    { cbn [fmap list_fmap]. rewrite app_nil_r. destruct (Cluster_GetNodeByID _ _) as [[m|] [err|]]; by apply safe_ret. }
    set (slaves := p0 :: slaves') in *. destruct (Hm id) as (m & Hrc & Hmid); [by eexists|by unfold slaves_of; rewrite Hid|].
    unfold Cluster_GetNodeByID. rewrite Hrc.
    eapply safe_mono; [apply (safe_for_fold_list _ _ _ _ (λ done', I (attachments done ++ ((λ p, (p, id)) <$> done')))) | ].
    + cbn [fmap list_fmap]. by rewrite app_nil_r.
    + intros done' p rest' e' st' _ [Hsame Hroles]. apply safe_bind, safe_gets, safe_bind.
      intros err st2 Hatt. pose proof (keeps_servers_AttachSlave _ _ _ _ _ Hatt) as [Hs2 _].
      apply AttachSlaveToMaster_role in Hatt. apply safe_ret. split; [by etrans|]. destruct err as [err|]; [done|].
      intros He a. rewrite fmap_app, (assoc_L (++)). cbn [fmap list_fmap]. rewrite reassign_snoc, (Hatt eq_refl a).
      destruct (Hsame p) as [-> _], (Hsame m) as [_ ->]. rewrite Hmid. case_decide; [done|]. by apply Hroles.
    + intros e' st' HI'. exact HI'.
  - intros e st [_ Hr]. exact Hr.
Qed.

Lemma elem_of_attachments c p id : (p, id) ∈ attachments (range 23 (slavesByMaster c)) ↔ p ∈ slaves_of c id.
Proof.
  unfold attachments, slaves_of. rewrite list_elem_of_bind. split.
  - intros ([i ps] & (q & [= -> ->] & Hq)%list_elem_of_fmap & Hin%elem_of_range). cbn [fst snd] in *. by rewrite Hin.
  - intros Hp. destruct (slavesByMaster c !! id) as [ps|] eqn:E; [|by apply elem_of_nil in Hp].
    exists (id, ps). split; [|by apply elem_of_range]. apply list_elem_of_fmap. by exists p.
Qed.

(** The set of each node has a new master, and every other node of the set replicates it. *)
Definition placed h l c w w' : Prop :=
  (∀ p, p ∈ l → ∃ m, newMastersBySts c !! set_name (h !!! p) = Some m ∧
     (p ≠ m → master_of w' (IPPort (h !!! p)) = Some (ID (h !!! m)))) ∧
  ∀ m, m ∈ GetNewMasters c → master_of w' (IPPort (h !!! m)) = master_of w (IPPort (h !!! m)).

Lemma place_slaves_roles h rc l name n c w :
  dispatched h rc l name n c → indexes rc h l → ids_inj l h → reports h w l →
  (∀ p q, p ∈ l → q ∈ l → IP (h !!! p) = IP (h !!! q) → p = q) →
  safe (place_slaves c) (h, w) (λ r st', r.2 = None → placed h l c w st'.2).
Proof.
  intros Hd Hix Hinj Hrep Hip. unfold place_slaves. apply safe_bind, safe_gets, safe_bind, safe_pure. cbn [fst].
  intros [c' e] Hps. pose proof (PlaceSlaves_masters _ _ _ _ Hps) as Hall.
  assert (∀ p, p ∈ l → nodes c !! set_name (h !!! p) = Some (nodes_of h l (set_name (h !!! p))) ∧
    p ∈ nodes_of h l (set_name (h !!! p))) as Hset.
  { intros p Hp. assert (p ∈ nodes_of h l (set_name (h !!! p))) as Hin by by apply list_elem_of_filter.
    split; [|done]. apply (dp_nodes _ _ _ _ _ _ Hd). split; [done|]. intros Hnil. rewrite Hnil in Hin. by apply elem_of_nil in Hin. }
  destruct (PlaceSlaves_spec h c) as (c2 & Heq & Hc & Hsl & Hinv & _).
  { apply Hd. }
  { intros s ns Hs. apply (Hall s ns Hs). by apply (dp_nodes _ _ _ _ _ _ Hd) in Hs as [_ ?]. }
  { intros s s' m m' Hm Hm' Hid. destruct (dispatched_name _ _ _ _ _ _ _ _ Hd Hm) as [<- Hl].
    destruct (dispatched_name _ _ _ _ _ _ _ _ Hd Hm') as [<- Hl']. f_equal. f_equal. by apply Hinj. }
  rewrite Heq in Hps. injection Hps as <- <-.
  assert (∀ q i, q ∈ slaves_of c2 i → q ∈ l ∧
    ∃ m, newMastersBySts c !! set_name (h !!! q) = Some m ∧ i = ID (h !!! m) ∧ to_attach h m q) as Hin.
  { intros q i (s & ns & m & [-> _]%(dp_nodes _ _ _ _ _ _ Hd) & Hm & -> & Hq & Hat)%Hinv.
    apply list_elem_of_filter in Hq as [<- Hq]. split; [done|]. by exists m. }
  assert (∀ p q i, p ∈ l → (q, i) ∈ attachments (range 23 (slavesByMaster c2)) → IPPort (h !!! q) = IPPort (h !!! p) →
    ∃ m, newMastersBySts c !! set_name (h !!! p) = Some m ∧ i = ID (h !!! m) ∧ to_attach h m p) as Hatt.
  { intros p q i Hp Hq%elem_of_attachments Ha. destruct (Hin q i Hq) as [Hql Hm].
    apply (address_inj l h) in Ha; [by subst q|apply Hrep|done..]. }
  apply safe_bind. eapply safe_mono.
  { apply AttachingSlaves_roles. intros i _ Hne. destruct (slaves_of c2 i) as [|q qs] eqn:E; [done|].
    destruct (Hin q i) as (_ & m & Hm & -> & _); [rewrite E; by left|]. exists m. split; [|done].
    rewrite Hc, (dp_cluster _ _ _ _ _ _ Hd). by apply Hix, (dispatched_name _ _ _ _ _ _ _ _ Hd Hm). }
  intros err [h2 w2] Hroles. apply safe_ret. cbn [fst snd] in *. intros He. destruct err; [done|].
  specialize (Hroles eq_refl). split.
  - intros p Hp. destruct (Hset p Hp) as [Hns Hpns]. destruct (Hall _ _ Hns) as [m Hm].
    { intros Hnil. rewrite Hnil in Hpns. by apply elem_of_nil in Hpns. }
    exists m. split; [done|]. intros Hpm. rewrite Hroles. destruct (dispatched_name _ _ _ _ _ _ _ _ Hd Hm) as [_ Hml].
    assert (IP (h !!! p) ≠ IP (h !!! m)) as Hne by (intros Heqip; by apply Hpm, Hip).
    destruct (decide (to_attach h m p)) as [Hat|Hat].
    + apply reassign_in.
      * apply elem_of_attachments. rewrite (Hsl _ _ m Hns Hm). by apply list_elem_of_filter.
      * intros q i Hq Ha. destruct (Hatt p q i Hp Hq Ha) as (m' & Hm' & -> & _). by simplify_eq.
    + rewrite reassign_out.
      * assert (GetRole (h !!! p) = RedisClusterNodeRoleSlave ∧ MasterReferent (h !!! p) = ID (h !!! m)) as [Hr Hmr].
        { apply dec_stable. intros Hno. apply Hat. done. }
        pose proof (rp_role _ _ _ Hrep p Hp) as Hrole. destruct (master_of w (IPPort (h !!! p))) as [i|].
        { destruct Hrole as [_ <-]. by rewrite Hmr. } { by rewrite Hrole in Hr. }
      * intros q i Hq Ha. destruct (Hatt p q i Hp Hq (eq_sym Ha)) as (m' & Hm' & _ & Hat'). by simplify_eq.
  - intros m [s Hs]%elem_of_GetNewMasters. destruct (dispatched_name _ _ _ _ _ _ _ _ Hd Hs) as [<- Hml].
    rewrite Hroles. apply reassign_out. intros q i Hq Ha.
    destruct (Hatt m q i Hml Hq (eq_sym Ha)) as (m' & Hm' & _ & [Hne _]). by simplify_eq.
Qed.
(** ** The branches that place slaves *)

Definition same_roles (w w' : W) : Prop := ∀ a, master_of w' a = master_of w a.
#[local] Instance same_roles_preorder : PreOrder same_roles.
Proof. split; [done|]. intros w1 w2 w3 H12 H23 a. by rewrite H23. Qed.
#[local] Instance slots_same_roles : SlotFrame same_roles := slots_roles.
Lemma placed_same_roles h l c w w' w'' : placed h l c w w' → same_roles w' w'' → placed h l c w w''.
Proof.
  intros [Hp Hm] Hs. split.
  - intros p Hin. destruct (Hp p Hin) as (m & Hm' & Hr). exists m. split; [done|]. intros. by rewrite Hs, Hr.
  - intros m Hin. by rewrite Hs, Hm.
Qed.

(** A context on nodes that are as their servers say: a set without slots has no slaves. *)
Record placing cl h rc l c w : Prop := {
  pl_dispatched : dispatched h rc l (drc_Name cl) (MasterSize (Spec cl)) c;
  pl_index : indexes rc h l;
  pl_masters : masters_ok h l (GetNewMasters c) (MasterSize (Spec cl));
  pl_ready : ready l (GetNewMasters c) h w;
  pl_reports : reports h w l;
  pl_ip p q : p ∈ l → q ∈ l → IP (h !!! p) = IP (h !!! q) → p = q;
  pl_slave p : p ∈ l → is_Some (master_of w (IPPort (h !!! p))) →
    ∃ q, q ∈ l ∧ set_name (h !!! q) = set_name (h !!! p) ∧ Slots (h !!! q) ≠ [];
  pl_size i : 0 ≤ i < MasterSize (Spec cl) →
    Z.of_nat (length (filter (λ p, set_name (h !!! p) = ClusterStatefulSetName (drc_Name cl) i) l)) = ClusterReplicas (Spec cl) + 1;
}.

Lemma placing_master cl h rc l c w m :
  placing cl h rc l c w → m ∈ GetNewMasters c → master_of w (IPPort (h !!! m)) = None.
Proof.
  intros Hpl [s Hs]%elem_of_GetNewMasters. pose proof (pl_dispatched _ _ _ _ _ _ Hpl) as Hd.
  destruct (dispatched_name _ _ _ _ _ _ _ _ Hd Hs) as [<- Hm].
  destruct (master_of w (IPPort (h !!! m))) as [i|] eqn:E; [|done]. exfalso.
  destruct (pl_slave _ _ _ _ _ _ Hpl m Hm) as (q & Hq & Hset & Hslots); [by rewrite E|].
  pose proof (cok_holders _ _ (rd_ok _ _ _ _ (pl_ready _ _ _ _ _ _ Hpl)) q Hq Hslots) as Hmast.
  assert (q = m) as ->.
  { apply (dp_holder _ _ _ _ _ _ Hd _ _ q Hs); [by apply list_elem_of_filter|]. by apply IsMasterWithSlot_true. }
  pose proof (rp_role _ _ _ (pl_reports _ _ _ _ _ _ Hpl) m Hm) as Hrole. rewrite E in Hrole.
  destruct Hrole as [Hrole _]. by rewrite Hrole in Hmast.
Qed.
Lemma placed_settled cl h rc l c w w' :
  placing cl h rc l c w → placed h l c w w' → (∀ m, m ∈ GetNewMasters c → ∃ s, claims_at h w' m s) →
  settled h l (GetNewMasters c) (λ p, set_name (h !!! p)) (ClusterReplicas (Spec cl)) w'.
Proof.
  intros Hpl [Hp Hm] Hcl. pose proof (pl_dispatched _ _ _ _ _ _ Hpl) as Hd. split.
  - apply (rd_new_NoDup _ _ _ _ (pl_ready _ _ _ _ _ _ Hpl)).
  - intros m. apply (rd_new _ _ _ _ (pl_ready _ _ _ _ _ _ Hpl)).
  - intros m Hin. split; [|by apply Hcl]. rewrite Hm by done. by eapply placing_master.
  - intros p Hin Hno. destruct (Hp p Hin) as (m & Hs & Hr). exists m.
    assert (m ∈ GetNewMasters c) as Hnew by (apply elem_of_GetNewMasters; by eexists).
    split; [done|]. split; [by destruct (dispatched_name _ _ _ _ _ _ _ _ Hd Hs)|]. apply Hr. by intros ->.
  - intros m m' [s Hs]%elem_of_GetNewMasters [s' Hs']%elem_of_GetNewMasters Heq.
    destruct (dispatched_name _ _ _ _ _ _ _ _ Hd Hs) as [<- _], (dispatched_name _ _ _ _ _ _ _ _ Hd Hs') as [<- _].
    rewrite Heq in Hs. congruence.
  - intros m [s Hs]%elem_of_GetNewMasters. destruct (dispatched_name _ _ _ _ _ _ _ _ Hd Hs) as [Hset _].
    destruct (proj1 (dp_dom _ _ _ _ _ _ Hd s)) as (i & Hi & ->); [by eexists|]. rewrite Hset.
    by apply (pl_size _ _ _ _ _ _ Hpl).
Qed.

(** What an operation on the slots finds after the slaves are placed. *)
Record slaves_placed h l c h2 w2 : Prop := {
  sp_identity : same_identity h h2;
  sp_slots : same_slots h h2;
  sp_max : GetHashMaxSlot w2 = DefaultHashMaxSlots;
  sp_view : claims_view h2 w2 l;
  sp_identified : identified h2 l;
  sp_ids : ids_inj l h2;
  sp_sets s ns : nodes c !! s = Some ns → ns ≠ [] → is_Some (newMastersBySts c !! s);
}.
Lemma claims_at_same h h2 w p s : same_identity h h2 → claims_at h2 w p s ↔ claims_at h w p s.
Proof. intros Hs. unfold claims_at. by destruct (Hs p) as [-> _]. Qed.

Lemma place_slaves_both cl h rc l c w :
  placing cl h rc l c w →
  safe (place_slaves c) (h, w) (λ r st', r.2 = None → slaves_placed h l c st'.1 st'.2 ∧ placed h l c w st'.2).
Proof.
  intros Hpl [c' e] [h2 w2] Hrun He. pose proof (pl_ready _ _ _ _ _ _ Hpl) as Hrd.
  pose proof (place_slaves_ready c l _ h w Hrd _ _ Hrun) as (Hsame & Hs & Hmax & Hview & Hid & Hinj).
  pose proof (place_slaves_spec c h w _ _ Hrun) as (_ & _ & Hsets). split; [done|].
  refine (place_slaves_roles h rc l _ _ c w (pl_dispatched _ _ _ _ _ _ Hpl) (pl_index _ _ _ _ _ _ Hpl) _
    (pl_reports _ _ _ _ _ _ Hpl) (pl_ip _ _ _ _ _ _ Hpl) _ _ Hrun He).
  intros p q. apply (cok_id _ _ (rd_ok _ _ _ _ Hrd)).
Qed.

Lemma place_then_settled cl h rc l c w wrap (op : M (heap * W) (option error)) :
  placing cl h rc l c w → keeps (on_world same_roles) op →
  (∀ h2 w2, slaves_placed h l c h2 w2 →
     safe op (h2, w2) (λ e st', e = None → ∀ m, m ∈ GetNewMasters c → ∃ s, claims_at h2 st'.2 m s)) →
  safe (r ← place_slaves c;
        match (r : Ctx * option error) with
        | (_, Some err) => mret (cl, Some err)
        | (_, None) => stage cl wrap op
        end) (h, w) (λ r st', r.2 = None → r.1 = cl ∧
    settled h l (GetNewMasters c) (λ p, set_name (h !!! p)) (ClusterReplicas (Spec cl)) st'.2).
Proof.
  intros Hpl Hkeeps Hop. apply safe_bind. eapply safe_mono; [by eapply place_slaves_both|].
  intros [c' [e|]] [h2 w2] Hboth; [by apply safe_ret|]. destruct (Hboth eq_refl) as [Hsp Hplaced]. cbn [fst snd] in *.
  unfold stage. apply safe_bind. intros e [h3 w3] Hrun. apply safe_ret. cbn [fst snd]. intros He. destruct e; [done|].
  split; [done|]. apply (placed_settled cl h rc l c w w3 Hpl).
  - eapply placed_same_roles; [exact Hplaced|]. exact (Hkeeps _ _ _ Hrun).
  - intros m Hm. destruct (Hop h2 w2 Hsp _ _ Hrun eq_refl m Hm) as [s Hs]. exists s.
    by apply (claims_at_same h h2), Hs; apply Hsp.
Qed.

Section operations.
Variables (cl : DistributedRedisCluster) (h : heap) (rc : RedisCluster) (l : Nodes) (c : Ctx) (w : W).
Hypothesis Hpl : placing cl h rc l c w.
Hypothesis Hn : 1 ≤ MasterSize (Spec cl) ≤ 16384.
Abbreviation new := (GetNewMasters c).
Let Hok : cluster_ok h l := rd_ok _ _ _ _ (pl_ready _ _ _ _ _ _ Hpl).
Let Hnew : masters_ok h l new (MasterSize (Spec cl)) := pl_masters _ _ _ _ _ _ Hpl.

Lemma AllocSlots_claims_some h2 w2 :
  holders h l = [] → slaves_placed h l c h2 w2 →
  safe (AllocSlots new) (h2, w2) (λ e st', e = None → ∀ m, m ∈ new → ∃ s, claims_at h2 st'.2 m s).
Proof using All.
  intros Hold [Hsame Hs Hmax Hview Hid Hinj _] e [h3 w3] Hrun He m Hm. subst e. cbn [snd].
  pose proof (mok_length _ _ _ _ Hnew) as Hlen. pose proof (mok_NoDup _ _ _ _ Hnew) as Hnd.
  assert (1 ≤ Z.of_nat (length new) ≤ 16384) as Hlen' by lia.
  pose proof (AllocSlots_runs new h2 w2 Hmax Hnd Hlen') as Hsh%runs_safe.
  specialize (Hsh _ _ Hrun) as [_ Hpost]. destruct (Hpost eq_refl) as [_ Hall]. destruct (Hall m Hm) as [Hne _]. cbn [fst] in Hne.
  assert (claims_view h3 w3 l) as Hview3.
  { refine (AllocSlots_claims l new h2 w2 Hnd _ Hid Hinj Hview _ _ Hrun eq_refl). intros p Hp.
    pose proof (mok_in _ _ _ _ Hnew p Hp) as Hpl'. split; [done|]. destruct (Hs p) as [-> _]. apply dec_stable. intros Hno.
    assert (p ∈ holders h l) as Hin by by apply elem_of_holders. rewrite Hold in Hin. by apply elem_of_nil in Hin. }
  destruct (Slots (h3 !!! m)) as [|s ss] eqn:E; [done|]. exists s.
  apply (claims_at_same h2 h3); [exact (keeps_identity_AllocSlots _ _ _ _ Hrun)|].
  apply Hview3; [by eapply mok_in|]. rewrite E. by left.
Qed.

Lemma RebalancedCluster_claims_some h2 w2 :
  (length (holders h l) < length new)%nat → all_held h l →
  ((∀ s ns, nodes c !! s = Some ns → ns ≠ [] → is_Some (newMastersBySts c !! s)) → ∀ p, p ∈ holders h l → p ∈ new) →
  slaves_placed h l c h2 w2 →
  safe (RebalancedCluster new) (h2, w2) (λ e st', e = None → ∀ m, m ∈ new → ∃ s, claims_at h2 st'.2 m s).
Proof using All.
  intros Hlt Hheld Hin [Hsame Hs Hmax Hview Hid Hinj Hsets] e [h3 w3] Hrun He m Hm. subst e. cbn [snd].
  pose proof (mok_length _ _ _ _ Hnew) as Hlen. pose proof (mok_NoDup _ _ _ _ Hnew) as Hnd.
  assert (∀ p, p ∈ new → p ∈ l) as Hsub by (intros p; by eapply mok_in).
  assert ((new ≫= λ p, Slots (h2 !!! p)) ≡ₚ seqZ 0 16384) as Hperm.
  { rewrite <- (slots_held h l new _ Hok Hnew (Hin Hsets) Hheld). apply reflexive_eq, list_bind_ext; [|done].
    intros p. by destruct (Hs p) as [-> _]. }
  assert (identified h2 new ∧ ids_inj new h2 ∧ claims_view h2 w2 new) as (Hid' & Hinj' & Hview').
  { split_and!; [intros p Hp; by apply Hid, Hsub|intros p q Hp Hq; apply Hinj; by apply Hsub|].
    intros p s Hp. by apply Hview, Hsub. }
  assert (∀ p, p ∈ new → TotalSlots (h2 !!! p) = TotalSlots (h !!! p)) as Htot.
  { intros p _. unfold TotalSlots. by destruct (Hs p) as [-> _]. }
  assert (1 ≤ 16384 / Z.of_nat (length new)) as Hshare by (rewrite Hlen; apply Z.div_le_lower_bound; lia).
  pose proof (RebalancedCluster_shares new h2 w2 Hmax Hnd ltac:(lia) Hperm) as Hsh.
  destruct Hsh as (e & st' & Hrun' & Hpost); [|done..|].
  { intros _. destruct (new_master_empty h l new _ Hok Hnew Hlt) as (q & Hq & Hempty). exists q. split; [done|].
    rewrite Htot by done. unfold TotalSlots. rewrite Hempty. simpl. lia. }
  rewrite Hrun in Hrun'. injection Hrun' as <- <-. destruct (Hpost eq_refl) as [_ Hall].
  destruct (Hall m Hm) as (_ & k & (X & HX & Hk) & Hb & _). cbn [fst snd] in *.
  destruct (set_choose X) as [s HsX]; [intros ->%leibniz_equiv; rewrite size_empty in Hk; lia|].
  exists s. apply (claims_at_same h2 h3); [|by apply HX].
  assert (owned new h2 w2) as Hown.
  { apply owned_of_view; [done|..].
    - intros p Hp. destruct (Hs p) as [-> _]. by apply (cok_slots_NoDup _ _ Hok), Hsub.
    - intros p q s' Hp Hq. destruct (Hs p) as [-> _], (Hs q) as [-> _]. apply (cok_disjoint _ _ Hok); by apply Hsub. }
  exact (reb_identity _ _ _ _ _ (RebalancedCluster_claims new new h2 w2 Hnd (λ p Hp, Hp) Hid' Hinj' Hown _ _ Hrun eq_refl)).
Qed.
End operations.

(** Placing the slaves alone, when every new master holds slots already. *)
Lemma place_settled cl h rc l c w :
  placing cl h rc l c w → (length (GetNewMasters c) ≤ length (holders h l))%nat →
  ((∀ s ns, nodes c !! s = Some ns → ns ≠ [] → is_Some (newMastersBySts c !! s)) →
   ∀ p, p ∈ holders h l → p ∈ GetNewMasters c) →
  safe (r ← place_slaves c; mret (cl, (r : Ctx * option error).2)) (h, w) (λ r st', r.2 = None → r.1 = cl ∧
    settled h l (GetNewMasters c) (λ p, set_name (h !!! p)) (ClusterReplicas (Spec cl)) st'.2).
Proof.
  intros Hpl Hlen Hin. apply safe_bind. eapply safe_mono; [by eapply place_slaves_both|].
  intros [c' e] [h2 w2] Hboth. apply safe_ret. cbn [fst snd]. intros ->. destruct (Hboth eq_refl) as [Hsp Hplaced].
  cbn [fst snd] in *. split; [done|]. apply (placed_settled cl h rc l c w w2 Hpl Hplaced). intros m Hm.
  pose proof (pl_ready _ _ _ _ _ _ Hpl) as Hrd. pose proof (rd_ok _ _ _ _ Hrd) as Hok.
  assert (holders h l ≡ₚ GetNewMasters c) as Hperm.
  { apply submseteq_length_Permutation; [|done]. apply NoDup_submseteq; [apply NoDup_filter, Hok|].
    apply Hin, (sp_sets _ _ _ _ _ Hsp). }
  rewrite <- Hperm, elem_of_holders in Hm by done. destruct Hm as [Hml Hslots].
  destruct (Slots (h !!! m)) as [|s ss] eqn:E; [done|]. exists s. apply (claims_at_same h h2); [apply Hsp|].
  apply (sp_view _ _ _ _ _ Hsp); [done|]. destruct (sp_slots _ _ _ _ _ Hsp m) as [-> _]. rewrite E. by left.
Qed.

(** ** The whole synchronisation *)

(** The pods: each expected StatefulSet has [ClusterReplicas + 1] nodes, addresses are
    distinct, and only sets with slots have slaves. *)
Record layout cl h l w : Prop := {
  lo_size i : 0 ≤ i < MasterSize (Spec cl) →
    Z.of_nat (length (filter (λ p, (home (IPPort (h !!! p))).2 = ClusterStatefulSetName (drc_Name cl) i) l)) =
    ClusterReplicas (Spec cl) + 1;
  lo_ip p q : p ∈ l → q ∈ l → IP (h !!! p) = IP (h !!! q) → p = q;
  lo_slave p : p ∈ l → is_Some (master_of w (IPPort (h !!! p))) →
    ∃ q, q ∈ l ∧ (home (IPPort (h !!! q))).2 = (home (IPPort (h !!! p))).2 ∧ Slots (h !!! q) ≠ [];
}.

(** Names aside, the nodes stay as they are. *)
Definition same_view h h' : Prop := ∀ p, Slots (h' !!! p) = Slots (h !!! p) ∧ ID (h' !!! p) = ID (h !!! p) ∧
  IP (h' !!! p) = IP (h !!! p) ∧ Port (h' !!! p) = Port (h !!! p) ∧
  GetRole (h' !!! p) = GetRole (h !!! p) ∧ MasterReferent (h' !!! p) = MasterReferent (h !!! p).
#[local] Instance same_view_preorder : PreOrder same_view.
Proof.
  split; [by intros h p|]. intros h1 h2 h3 H12 H23 p. destruct (H23 p) as (-> & -> & -> & -> & -> & ->). apply H12.
Qed.
Lemma keeps_view_newRedisCluster infos cl : keeps same_view (newRedisCluster infos cl).
Proof.
  unfold newRedisCluster. keeps. unfold name_node. case_match; [|apply keeps_ret; exact _].
  apply keeps_modify. intros h q. rewrite heap_upd_case. by case_decide.
Qed.
Lemma reports_same_view h h' w l : same_view h h' → reports h w l → reports h' w l.
Proof.
  intros Hs Hrep. assert (∀ p, IPPort (h' !!! p) = IPPort (h !!! p)) as Ha.
  { intros p. destruct (Hs p) as (_ & _ & Hi & Hp & _). apply address_IPPort. unfold address. by rewrite Hi, Hp. }
  split.
  - intros p Hp. rewrite Ha. destruct (Hs p) as (_ & -> & _). by apply Hrep.
  - intros p s Hp. unfold claims_at. rewrite Ha. destruct (Hs p) as (-> & _). by apply Hrep.
  - intros p Hp. rewrite Ha. destruct (Hs p) as (_ & _ & _ & _ & -> & ->). by apply Hrep.
Qed.

(** The status of a later view, through the names that [newRedisCluster] gives. *)
Lemma settled_view cl h h1 l w new set infos' h' pods :
  same_view h h1 → cluster_ok h1 l → reports h1 w l → (∀ p q, p ∈ l → q ∈ l → IP (h !!! p) = IP (h !!! q) → p = q) →
  Z.of_nat (length new) = MasterSize (Spec cl) → 1 ≤ MasterSize (Spec cl) → ∀ w',
  settled h1 l new set (ClusterReplicas (Spec cl)) w' → reports h' w' (GetNodes infos') →
  view_of h l h' (GetNodes infos') pods → Z.of_nat (length pods) < 2 ^ 31 →
  runs (buildClusterStatus infos' pods cl) h' (λ status _, needClusterOperation (cl <| drc_Status := status |>) = false).
Proof.
  intros Hsv Hok Hrep Hips Hlen Hone w' Hst Hrep' [Haddr Hpods] Hpodn.
  assert (∀ p, IP (h1 !!! p) = IP (h !!! p)) as Hip by (intros p; apply Hsv).
  eapply settled_status; [exact Hst|done|done|done| |apply Hrep|exact (cok_id _ _ Hok)|exact (cok_id_nonempty _ _ Hok)|done|split].
  - apply NoDup_fmap_2_strong; [|apply Hok]. intros p q Hp Hq. rewrite !Hip. by apply Hips.
  - rewrite <- Haddr. apply reflexive_eq, list_fmap_ext. intros _ p _. unfold address. by destruct (Hsv p) as (_ & _ & -> & -> & _).
  - rewrite Hpods. apply reflexive_eq, list_fmap_ext. intros _ p _. by rewrite Hip.
Qed.

(** C2: a synchronisation settles the cluster.  Take nodes as their Redis servers say
    ([reports]), listed under the StatefulSets of their pods, at distinct addresses,
    [ClusterReplicas + 1] of them in each expected set, with slaves only in sets that have
    slots ([layout]); let all slots be held or none, and let there be too few masters with
    slots or too few slaves.  When
    [syncCluster] succeeds (a first allocation, a rebalancing after scaling up, or the
    placing of slaves), then from whatever the servers report at those addresses
    afterwards, [buildClusterStatus] computes a status for which [needClusterOperation]
    is false: the next reconciliation has nothing to do. *)
Theorem syncCluster_settles cl infos h w :
  let l := GetNodes infos in
  cluster_ok h l → status_names cl h l → 1 ≤ MasterSize (Spec cl) ≤ 16384 → GetHashMaxSlot w = DefaultHashMaxSlots →
  reports h w l → layout cl h l w → holders h l = [] ∨ all_held h l →
  Z.of_nat (length (holders h l)) < MasterSize (Spec cl) ∨
    MinReplicationFactor (drc_Status cl) < ClusterReplicas (Spec cl) →
  safe (syncCluster cl infos) (h, w) (λ r st', r.2 = None → ∀ infos' h' pods,
    reports h' st'.2 (GetNodes infos') → view_of h l h' (GetNodes infos') pods → Z.of_nat (length pods) < 2 ^ 31 →
    runs (buildClusterStatus infos' pods r.1) h' (λ status _,
      needClusterOperation (r.1 <| drc_Status := status |>) = false)).
Proof.
  intros l Hok Hnames Hn Hmax Hrep Hlay Hheld Hop. unfold syncCluster. apply safe_bind, safe_on_fst.
  intros [[rc l'] e] h1 Hrun. pose proof (newRedisCluster_spec _ _ _ Hok _ _ Hrun) as (Hl & He & Hrole & Hix).
  pose proof (newRedisCluster_names _ _ _ Hok Hnames _ _ Hrun) as [Hsame Hset].
  pose proof (keeps_view_newRedisCluster _ _ _ _ _ Hrun) as Hsv.
  cbn [fst snd] in Hl, He, Hix. subst l' e. fold l in Hix, Hset |- *.
  pose proof (cluster_ok_same_role _ _ _ Hrole Hok) as Hok1. pose proof (holders_same_role _ _ l Hrole) as Hold1.
  pose proof (reports_same_view _ _ _ _ Hsv Hrep) as Hrep1.
  apply safe_bind, safe_gets, safe_bind, safe_pure. cbn [fst]. intros [c [e|]] Hdm; [by apply safe_ret|].
  assert (0 ≤ MasterSize (Spec cl) < 2 ^ 31) as Hn' by lia.
  destruct (DispatchMasters_masters _ _ _ _ _ _ Hok1 Hix Hn' Hdm) as (Hnew & -> & Hnodes & Hin).
  pose proof (DispatchMasters_dispatched _ _ _ _ _ _ Hix (proj2 Hn') Hdm) as Hd. cbv zeta.
  pose proof (mok_length _ _ _ _ Hnew) as Hlen.
  assert (placing cl h1 rc l c w) as Hpl.
  { split; [done..| |done| | |].
    - split; [done|apply Hrep1|apply Hrep1|apply Hnew|apply Hnew|done].
    - intros p q Hp Hq. destruct (Hsv p) as (_ & _ & -> & _), (Hsv q) as (_ & _ & -> & _). by apply (lo_ip _ _ _ _ Hlay).
    - intros p Hp Hs. destruct (Hsame p) as [Hpp _]. rewrite Hpp in Hs. destruct (lo_slave _ _ _ _ Hlay p Hp Hs) as (q & Hq & Hhome & Hne).
      exists q. split; [done|]. rewrite !Hset by done. split; [done|]. by destruct (Hsv q) as (-> & _).
    - intros i Hi. rewrite <- (lo_size _ _ _ _ Hlay i Hi). f_equal. apply Permutation_length.
      apply NoDup_Permutation; [apply NoDup_filter, Hok..|]. intros p. rewrite !list_elem_of_filter.
      split; intros [Hp Hpl]; (split; [|done]); [by rewrite <- Hset|by rewrite Hset]. }
  eapply (safe_mono _ _ (λ r st', r.2 = None → r.1 = cl ∧
    settled h1 l (GetNewMasters c) (λ p, set_name (h1 !!! p)) (ClusterReplicas (Spec cl)) st'.2)).
  2: { intros [cl' e] [h3 w3] Hst He infos' h' pods Hrep' Hview' Hpodn. cbn [fst snd] in *.
    destruct (Hst He) as [-> Hst']. eapply (settled_view cl h h1 l w); try done; [by apply Hlay|lia]. }
  assert (((∀ s ns, nodes c !! s = Some ns → ns ≠ [] → is_Some (newMastersBySts c !! s)) →
    ∀ p, p ∈ holders h1 l → p ∈ GetNewMasters c)) as Hholders.
  { intros Hall. apply Hin. intros s [ns Hs]. apply (Hall s ns Hs). by apply Hnodes in Hs as [_ ?]. }
  case_decide as Hzero.
  { apply (place_then_settled cl h1 rc l c w _ _ Hpl (keeps_AllocSlots same_roles _)). intros h2 w2.
    apply (AllocSlots_claims_some cl h1 rc l c w Hpl Hn h2 w2). by apply nil_length_inv. }
  assert (all_held h1 l) as Hall.
  { destruct Hheld as [Hnil|Hall]; [by rewrite Hold1, Hnil in Hzero|]. intros s Hs. destruct (Hall s Hs) as (p & Hp & Hsp).
    exists p. split; [done|]. by destruct (Hsv p) as (-> & _). }
  case_decide as Hup.
  { apply (place_then_settled cl h1 rc l c w _ _ Hpl (keeps_RebalancedCluster same_roles _)). intros h2 w2.
    by apply (RebalancedCluster_claims_some cl h1 rc l c w Hpl Hn h2 w2). }
  case_decide as Hmin; [|rewrite <- Hold1 in Hop; lia].
  apply (place_settled cl h1 rc l c w Hpl); [lia|done].
Qed.
End settles.

(** ** A master and its slave *)

#[local] Existing Instances range_default sort_default k8s_default object_store_default kube_errors_default.
#[local] Existing Instances demo_returns demo_max_frame demo_sts_frame' demo_servers demo_accepting.

(** The roles that the commands of a log leave. *)
Section log.
Variable fails : call → bool.
Definition log_master_of (init : string → option string) (tr : list call) (a : string) : option string :=
  foldl (λ r c, if fails c then r else
    match c with CallAttachSlave addr id => if decide (a = addr) then Some id else r | _ => r end) (init a) tr.
Lemma log_master_of_snoc init tr c a :
  log_master_of init (tr ++ [c]) a = if fails c then log_master_of init tr a else
    match c with CallAttachSlave addr id => if decide (a = addr) then Some id else log_master_of init tr a
    | _ => log_master_of init tr a end.
Proof. unfold log_master_of. by rewrite foldl_app. Qed.
Definition log_roles (init : string → option string) : @RoleServers (list call) (recording_admin fails).
Proof.
  refine {| master_of := log_master_of init |}.
  - intros p id [h w]. cbn. apply safe_bind, safe_gets, safe_bind, safe_on_snd. intros e w1 Hr.
    unfold record in Hr. injection Hr as <- <-. cbn [fst]. destruct (fails _) eqn:E; [by apply safe_ret|].
    apply safe_bind. intros [] st2 Hr2. unfold modify in Hr2. injection Hr2 as <-. apply safe_ret. intros _ a. cbn [snd].
    by rewrite log_master_of_snoc, E.
  - split; cbn; intros; intros v e v' Hr; unfold record, mbind, M_bind, mret, M_ret in Hr; cbn in Hr; injection Hr as _ <-;
      intros a; rewrite log_master_of_snoc; by case_match.
Defined.
End log.
Definition lift_roles {W V : Type} (A : IAdmin V) (R : @RoleServers V A) : @RoleServers (W * V) (lift_admin A).
Proof.
  refine {| master_of w := master_of w.2 |}.
  - intros p id [h [w v]]. cbn. apply (safe_heap_snd _ h w v (λ e v', e = None → ∀ a,
      master_of v' a = if decide (a = IPPort (h !!! p)) then Some id else master_of v a)).
    apply (AttachSlaveToMaster_role p id (h, v)).
  - split; cbn; intros; intros [w v]; apply safe_on_snd; intros e v' Hr; cbn [snd].
    + exact (frame_SetSlots (SlotFrame := slots_roles) _ _ _ _ _ _ _ Hr).
    + exact (frame_AddSlots (SlotFrame := slots_roles) _ _ _ _ _ Hr).
    + exact (frame_SetSlot (SlotFrame := slots_roles) _ _ _ _ _ _ _ Hr).
    + exact (frame_MigrateKeys (SlotFrame := slots_roles) _ _ _ _ _ _ _ _ _ Hr).
    + exact (frame_MigrateKeysInSlot (SlotFrame := slots_roles) _ _ _ _ _ _ _ _ _ Hr).
Defined.

#[local] Instance demo_roles : RoleServers demo_world := lift_roles _ (log_roles (λ _, false) (λ _, None)).
#[local] Existing Instance demo_pods_calls.
#[local] Instance demo_pair_pods : PodServers demo_world.
Proof.
  assert (∀ keep A (m : M api_world A), keeps (stays (W := demo_world) keep) (on_fst m)) as Hfst.
  { intros keep A m [w v]. by apply safe_on_fst. }
  by refine {| home := λ _, ("ns", ClusterStatefulSetName "cache" 0) |}; intros; apply Hfst.
Defined.

(** Two new servers in the pods of one StatefulSet. *)
Definition demo_pair_heap : heap :=
  {[ 1%positive := ClusterInfo.demo_node "a" "ip1" []; 2%positive := ClusterInfo.demo_node "b" "ip2" [] ]}.
Definition demo_pair_infos : ClusterInfos :=
  mkClusterInfos {[ "ip1" := mkNodeInfos 1%positive (mkSlice [] 0); "ip2" := mkNodeInfos 2%positive (mkSlice [] 0) ]}
    ClusterInfosConsistent.
Definition demo_pair_cluster : DistributedRedisCluster :=
  (demo_drc (demo_spec <| MasterSize := 1 |> <| ClusterReplicas := 1 |>) "") <| drc_Status := (demo_status "")
    <| ds_Nodes := [demo_pod_of "a" "ip1" 0; demo_pod_of "b" "ip2" 0] |> |>.
Abbreviation demo_pair_sync := (syncCluster demo_pair_cluster demo_pair_infos (demo_pair_heap, world_with [])).
(** The view afterwards. *)
Definition demo_pair_after (slots : list Slot) : heap :=
  {[ 1%positive := ClusterInfo.demo_node "a" "ip1" slots;
     2%positive := become_slave "a" (ClusterInfo.demo_node "b" "ip2" []) ]}.
Definition demo_pair_podlist : list Pod := [StatusProofs.demo_pod "pod-a" "ip1"; StatusProofs.demo_pod "pod-b" "ip2"].

Lemma demo_pair_nodes : GetNodes demo_pair_infos = [1%positive; 2%positive].
Proof. vm_compute. reflexivity. Qed.
Lemma demo_pair (p : ptr) : p ∈ GetNodes demo_pair_infos → p = 1%positive ∨ p = 2%positive.
Proof. rewrite demo_pair_nodes. set_solver. Qed.
(** The log of the synchronisation: the slave is attached and the master is given slots. *)
Definition demo_pair_log (tr : list call) : bool :=
  match tr with
  | [CallAttachSlave b a; CallAddSlots a' _] => bool_decide (b = "ip2:6379" ∧ a = "a" ∧ a' = "ip1:6379")
  | _ => false
  end.
Lemma demo_pair_log_shape tr :
  demo_pair_log tr = true → ∃ slots, tr = [CallAttachSlave "ip2:6379" "a"; CallAddSlots "ip1:6379" slots].
Proof.
  destruct tr as [|[] tr]; try discriminate. destruct tr as [|[] tr]; try discriminate.
  destruct tr; [|discriminate]. intros Hlog. apply bool_decide_eq_true in Hlog as (-> & -> & ->). by eexists.
Qed.
Lemma demo_pair_run :
  match demo_pair_sync with
  | Val (r, s') => match r.2 with None => true | Some _ => false end && demo_pair_log s'.2.2
  | _ => false
  end = true.
Proof. vm_compute. reflexivity. Qed.
Lemma demo_pair_ok : cluster_ok demo_pair_heap (GetNodes demo_pair_infos).
Proof.
  split.
  - rewrite demo_pair_nodes. by apply (bool_decide_unpack (NoDup [1%positive; 2%positive])).
  - intros p q [->| ->]%demo_pair [->| ->]%demo_pair Heq; first [reflexivity|vm_compute in Heq; discriminate].
  - intros p [->| ->]%demo_pair; discriminate.
  - intros p [->| ->]%demo_pair; eexists; reflexivity.
  - intros p [->| ->]%demo_pair; constructor.
  - intros p s [->| ->]%demo_pair Hs; by apply elem_of_nil in Hs.
  - intros p q s [->| ->]%demo_pair _ Hs; by apply elem_of_nil in Hs.
  - intros p [->| ->]%demo_pair Hs; by destruct Hs.
Qed.
Lemma demo_pair_names : status_names demo_pair_cluster demo_pair_heap (GetNodes demo_pair_infos).
Proof.
  split.
  - intros n p Hn _ _. apply elem_of_cons in Hn as [->|[->|?%elem_of_nil]%elem_of_cons]; [..|done];
      (split; [vm_compute; reflexivity|discriminate]).
  - intros p [->| ->]%demo_pair.
    + exists (demo_pod_of "a" "ip1" 0). split; [left|reflexivity].
    + exists (demo_pod_of "b" "ip2" 0). split; [right; left|reflexivity].
Qed.
Lemma demo_pair_reports : reports demo_pair_heap (world_with []) (GetNodes demo_pair_infos).
Proof.
  split.
  - intros p [->| ->]%demo_pair; vm_compute; reflexivity.
  - intros p s [->| ->]%demo_pair; (split; [intros []|intros Hs; by apply elem_of_nil in Hs]).
  - intros p [->| ->]%demo_pair; reflexivity.
Qed.
Lemma demo_pair_layout : layout demo_pair_cluster demo_pair_heap (GetNodes demo_pair_infos) (world_with []).
Proof.
  split.
  - intros i Hi. assert (i = 0) as -> by (cbn in Hi; lia). vm_compute. reflexivity.
  - intros p q [->| ->]%demo_pair [->| ->]%demo_pair Heq; first [reflexivity|vm_compute in Heq; discriminate].
  - intros p [->| ->]%demo_pair [i Hi]; vm_compute in Hi; discriminate.
Qed.
Lemma demo_pair_reports_after (w : demo_world) slots :
  w.2 = [CallAttachSlave "ip2:6379" "a"; CallAddSlots "ip1:6379" slots] →
  reports (demo_pair_after slots) w (GetNodes demo_pair_infos).
Proof.
  intros Hw. assert (∀ a s, claims w a s ↔ a = "ip1:6379" ∧ s ∈ slots) as Hcl.
  { intros a s. cbn [claims demo_servers lift_servers]. cbn. rewrite Hw. cbn. tauto. }
  assert (∀ a, master_of w a = if decide (a = "ip2:6379") then Some "a" else None) as Hro.
  { intros a. cbn [master_of demo_roles lift_roles]. cbn. rewrite Hw. reflexivity. }
  split.
  - intros p [->| ->]%demo_pair; reflexivity.
  - intros p s [->| ->]%demo_pair; unfold claims_at; rewrite Hcl.
    + change (IPPort (demo_pair_after slots !!! 1%positive)) with "ip1:6379".
      change (Slots (demo_pair_after slots !!! 1%positive)) with slots. tauto.
    + change (IPPort (demo_pair_after slots !!! 2%positive)) with "ip2:6379".
      change (Slots (demo_pair_after slots !!! 2%positive)) with (@nil Slot). rewrite elem_of_nil.
      split; [intros [? _]; discriminate|done].
  - intros p [->| ->]%demo_pair; rewrite Hro.
    + change (IPPort (demo_pair_after slots !!! 1%positive)) with "ip1:6379". reflexivity.
    + change (IPPort (demo_pair_after slots !!! 2%positive)) with "ip2:6379". split; reflexivity.
Qed.
Lemma demo_pair_view slots :
  view_of demo_pair_heap (GetNodes demo_pair_infos) (demo_pair_after slots) (GetNodes demo_pair_infos) demo_pair_podlist.
Proof. rewrite demo_pair_nodes. by split. Qed.

Lemma syncCluster_settles_witness :
  ∃ r s' slots, demo_pair_sync = Val (r, s') ∧ reports (demo_pair_after slots) s'.2 (GetNodes demo_pair_infos) ∧
    runs (buildClusterStatus demo_pair_infos demo_pair_podlist r.1) (demo_pair_after slots) (λ status _,
      needClusterOperation (r.1 <| drc_Status := status |>) = false).
Proof.
  pose proof demo_pair_run as Hrun.
  pose proof (syncCluster_settles demo_pair_cluster demo_pair_infos demo_pair_heap (world_with []) demo_pair_ok
    demo_pair_names) as Hsafe.
  assert (1 ≤ MasterSize (Spec demo_pair_cluster) ≤ 16384) as Hn by (split; discriminate).
  assert (holders demo_pair_heap (GetNodes demo_pair_infos) = []) as Hold by (vm_compute; reflexivity).
  specialize (Hsafe Hn eq_refl demo_pair_reports demo_pair_layout (or_introl Hold)). rewrite Hold in Hsafe.
  specialize (Hsafe (or_introl eq_refl)). unfold safe in Hsafe.
  revert Hrun Hsafe. generalize demo_pair_sync. intros [[r s']| |] Hrun Hsafe; [|discriminate..].
  apply andb_true_iff in Hrun as [Hnone Hlog].
  assert (r.2 = None) as Hr by (destruct (r.2); [discriminate|reflexivity]).
  destruct (demo_pair_log_shape _ Hlog) as [slots Hs].
  pose proof (demo_pair_reports_after s'.2 slots Hs) as Hrep.
  exists r, s', slots. split; [reflexivity|]. split; [exact Hrep|].
  apply (Hsafe r s' eq_refl Hr demo_pair_infos (demo_pair_after slots) demo_pair_podlist).
  - exact Hrep.
  - apply demo_pair_view.
  - reflexivity.
Defined.
