(* ===== verification/Reconcile.v ===== *)
(** [pkg/controller/distributedrediscluster/distributedrediscluster_controller.go]: one
    reconciliation of a [DistributedRedisCluster], and the filter of the watched events.

    The resource read at the start is the pointer the stages write through.  The function
    is cut where the code goes on: the objects, the pods, the admin of the pods, the
    restore, and the operation on the cluster. *)

From Stdlib Require Import ZArith Lia.
From S2P Require Import Prelude GoStrings Errors Slot Node ClusterInfo AdminInterface Clustering Migration Rebalance.
From S2P Require Import Kube Utils Api Client Heal Resources Ensurer Connections Status Sync.

Local Open Scope Z_scope.

(** [reconcile.Result] *)
Record Result := mkResult { res_Requeue : bool; RequeueAfter : Z }.

(** ** The predicates on the events of the watch *)

Definition CreateFunc (isClusterScoped : bool) (meta : ObjectMeta) : bool :=
  if negb (ShoudManage isClusterScoped (om_Annotations meta)) then false else true.
Definition UpdateFunc (isClusterScoped : bool) (metaOld metaNew : ObjectMeta) : bool :=
  if negb (ShoudManage isClusterScoped (om_Annotations metaNew)) then false
  else if decide (om_Generation metaOld ≠ om_Generation metaNew) then true else false.
Definition DeleteFunc (isClusterScoped : bool) (meta : ObjectMeta) (deleteStateUnknown : bool) : bool :=
  if negb (ShoudManage isClusterScoped (om_Annotations meta)) then false else negb deleteStateUnknown.

(** ** Reconcile *)

Section reconcile.
Context `{MapRange} `{SortPkg} `{K8sApi} `{ObjectStore} `{KubeErrors}.
Context {W : Type} `{Client W} `{IAdmin W} `{ControllerEnv W}.
(** The file of renamed commands, [config.RedisConf()] and [reconcileTime]. *)
Variable rename_file : option string.
Variable redisConf : RedisConfig.
Variable reconcileTime : Z.
Implicit Types (instance : DistributedRedisCluster).

#[local] Instance pod_control : IPodControl W := NewPodController.

Definition no_result : Result := mkResult false 0.
Definition requeue_after (d : Z) : Result := mkResult false d.

(** [newStatus := instance.Status.DeepCopy(); set(newStatus, err.Error());
    r.updateClusterIfNeed(instance, newStatus, reqLogger)] *)
Definition report (set : ClusterStatus → string → ClusterStatus) instance (err : error)
    : M (heap * W) DistributedRedisCluster :=
  on_snd (updateClusterIfNeed instance (set (drc_Status instance) (Error err))).

(** [isScalingDown] *)
Definition isScalingDown instance : M W bool :=
  r ← ListStatefulSetByLabels (drc_Namespace instance) (getLabels instance);
  mret match r with
       | inl _ => false
       | inr stsList => bool_decide (MasterSize (Spec instance) < Z.of_nat (length stsList))
       end.

(** The two branches on the phase of the restore. *)
Definition restart_restored instance : M (heap * W) (Result * option error) :=
  let instance := instance <| drc_Status := (drc_Status instance)
    <| ds_Restore := (Restore instance) <| Phase := RestorePhaseRestart |> |> |> in
  r ← on_snd (UpdateCRStatus instance);
  match r with
  | (_, Some err) => mret (no_result, Some err)
  | (instance, None) =>
      r ← on_snd (UpdateRedisStatefulsets rename_file instance (getLabels instance));
      match (r : option error * label_map).1 with
      | Some err => mret (no_result, Some err)
      | None =>
          err ← on_snd (wait_for "waitMasterNodeRestarting" (60 * second) (waitStatefulSetUpdating_Handler instance));
          match err with
          | Some err => mret (no_result, Some err)
          | None => mret (mkResult true 0, None)
          end
      end
  end.
(** A restore without a recorded backup is dereferenced. *)
Definition finish_restore instance : M (heap * W) (Result * option error) :=
  let instance := instance <| drc_Status := (drc_Status instance)
    <| ds_Restore := (Restore instance) <| Phase := RestorePhaseSucceeded |> |> |> in
  r ← on_snd (UpdateCRStatus instance);
  match r with
  | (_, Some err) => mret (no_result, Some err)
  | (instance, None) =>
      match Backup (Restore instance) with
      | None => panic
      | Some backup =>
          let instance := instance <| Spec := (Spec instance)
            <| ClusterReplicas := b_ClusterReplicas (b_Status backup) |> |> in
          r ← on_snd (UpdateCR instance);
          mret (no_result, (r : DistributedRedisCluster * option error).2)
      end
  end.

(** The end, after the operation on the cluster; an error is checked against the status
    of the infos fetched before. *)
Definition report_ok instance (clusterInfos : ClusterInfos) (pods : list Pod)
    : M (heap * W) (Result * option error) :=
  infos ← admin_GetClusterInfos;
  match infos.2, bool_decide (Status clusterInfos = ClusterInfosPartial) with
  | Some err, true => mret (no_result, Some (ErrorType_Wrap Redis err "GetClusterInfos"))
  | _, _ =>
      newStatus ← on_fst (buildClusterStatus infos.1 pods instance);
      on_snd (updateClusterIfNeed instance (SetClusterOK newStatus "OK"));;
      mret (requeue_after (s64 (reconcileTime * second)), None)
  end.

(** From the configuration of the nodes to the operation on the cluster. *)
Definition operate instance (clusterInfos : ClusterInfos) (pods : list Pod)
    : M (heap * W) (Result * option error) :=
  err ← on_snd (admin_SetConfigIfNeed (default ∅ (Config (Spec instance))));
  match err with
  | Some err => mret (no_result, Some (ErrorType_Wrap Redis err "SetConfigIfNeed"))
  | None =>
      status ← on_fst (buildClusterStatus clusterInfos pods instance);
      scaling ← on_snd (isScalingDown instance);
      let status := if scaling : bool then SetClusterRebalancing status "scaling down" else status in
      instance ← on_snd (updateClusterIfNeed instance status);
      let instance := instance <| drc_Status := status |> in
      if needClusterOperation instance then
        r ← syncCluster instance clusterInfos;
        match r with
        | (instance, Some err) => report SetClusterFailed instance err;; mret (no_result, Some err)
        | (instance, None) => report_ok instance clusterInfos pods
        end
      else report_ok instance clusterInfos pods
  end.

(** With the infos of the nodes: healing, joining, then the restore or the operation. *)
Definition heal_and_operate instance (clusterInfos : ClusterInfos) (pods : list Pod)
    : M (heap * W) (Result * option error) :=
  r ← Heal (mkCheckAndHeal pods false) instance clusterInfos;
  match r with
  | (_, Some err) => mret (no_result, Some (ErrorType_Wrap Redis err "Heal"))
  | (true, None) => mret (requeue_after requeueAfter, None)
  | (false, None) =>
      err ← waitForClusterJoin clusterInfos;
      match err with
      | Some err =>
          match GetType err with
          | Requeue => mret (requeue_after requeueAfter, None)
          | _ => report SetClusterFailed instance err;; mret (no_result, Some err)
          end
      | None =>
          if IsRestoreFromBackup instance && IsRestoreRunning instance then restart_restored instance
          else if IsRestoreFromBackup instance && IsRestoreRestarting instance then finish_restore instance
          else operate instance clusterInfos pods
      end
  end.

(** With an admin for the pods. *)
Definition reconcile_admin instance (pods : list Pod) : M (heap * W) (Result * option error) :=
  infos ← admin_GetClusterInfos;
  match infos.2, bool_decide (Status infos.1 = ClusterInfosPartial) with
  | Some err, true => mret (no_result, Some (ErrorType_Wrap Redis err "GetClusterInfos"))
  | _, _ => heal_and_operate instance infos.1 pods
  end.

(** With the objects of the cluster in place: the pods, the password, the admin, which
    is closed at the end. *)
Definition reconcile_pods instance : M (heap * W) (Result * option error) :=
  r ← on_snd (GetStatefulSetPodsByLabels (drc_Namespace instance) (getLabels instance));
  match r with
  | inl err => mret (no_result, Some (ErrorType_Wrap Kubernetes err "GetStatefulSetPods"))
  | inr items =>
      let pods := clusterPods items in
      err ← on_snd (waitPodReady (mkCheckAndHeal pods false) instance);
      match err with
      | Some err =>
          match GetType err with
          | Kubernetes => mret (no_result, Some err)
          | _ => report SetClusterScaling instance err;; mret (requeue_after requeueAfter, None)
          end
      | None =>
          r ← on_snd (GetClusterPassword instance);
          match r with
          | inl err => mret (no_result, Some (ErrorType_Wrap Kubernetes err "getClusterPassword"))
          | inr password =>
              on_snd (newRedisAdmin redisConf pods password);;
              r ← reconcile_admin instance pods;
              on_snd admin_Close;;
              mret r
          end
      end
  end.

(** [Reconcile] *)
Definition Reconcile (namespace name : string) : M (heap * W) (Result * option error) :=
  r ← on_snd (client_Get (T := DistributedRedisCluster) namespace name);
  match r with
  | inl err => if IsNotFound err then mret (no_result, None) else mret (no_result, Some err)
  | inr instance =>
      r ← on_snd (ensureCluster rename_file redisConf instance);
      match r with
      | (instance, Some err) =>
          match GetType err with
          | StopRetry => mret (no_result, None)
          | _ => report SetClusterScaling instance err;; mret (requeue_after requeueAfter, None)
          end
      | (instance, None) => reconcile_pods instance
      end
  end.
End reconcile.
