(* ===== verification/ReconcileProofs.v ===== *)
(** What a whole reconciliation does to the stored resources: the restore of a cluster
    goes through its phases in order, whatever fails on the way, and the other
    clusters keep theirs. *)

From Stdlib Require Import ZArith Lia.
From S2P Require Import Prelude GoStrings Errors Slot Node ClusterInfo AdminInterface Clustering Migration Rebalance.
From S2P Require Import Kube Utils Api Client Heal Resources Ensurer Connections Status Sync Frame Progress Worlds Reconcile.

Local Open Scope Z_scope.

(** ** The restore in the stored resources *)

(** The steps of a restore: a succeeded backup is recorded, the masters restart with
    its data, and the restore is over. *)
Inductive restore_step : Restore_ → Restore_ → Prop :=
| restore_start backup :
    b_Phase (b_Status backup) = BackupPhaseSucceeded →
    restore_step (mkRestore "" None) (mkRestore RestorePhaseRunning (Some backup))
| restore_restart backup : restore_step (mkRestore RestorePhaseRunning backup) (mkRestore RestorePhaseRestart backup)
| restore_finish backup : restore_step (mkRestore RestorePhaseRestart backup) (mkRestore RestorePhaseSucceeded backup).

(** The restore is a part of the status. *)
#[export] Instance restore_status : StatusPart (T := DistributedRedisCluster) Restore.
Proof.
  split.
  - intros [Hk _]. by apply Hk.
  - intros old x y Hy. cbn in Hy. by injection Hy as ->.
  - intros old x y Hy. cbn in Hy. by injection Hy as ->.
Qed.
(** The restore of the cluster stored under a name; no restore changes. *)
Abbreviation restore_at := (stored_at (T := DistributedRedisCluster) Restore).
Abbreviation same_restores := (same_stored (T := DistributedRedisCluster) Restore).
Abbreviation other_restores := (same_others (T := DistributedRedisCluster) Restore).

(** ** The stages *)

Section stages.
Context `{MapRange} `{SortPkg} `{K8sApi} `{ObjectStore}.
Context {W : Type} `{ClientLaws W} `{IAdmin W} `{ControllerEnv W}.
Variable rename_file : option string.
Variable redisConf : RedisConfig.
Variables (w0 : W) (ns name : string) (r0 : Restore_).
Context (own new : string * (string * string) → Prop) (R S : relation W).
Context `{!PreOrder R} `{!ClientFrame own new R} `{!AdminFrame R} `{!Confined (T := DistributedRedisCluster) Restore ns name R S}.
Hypothesis Hfoot : footprint own new ns name.
Abbreviation adv := (advanced (T := DistributedRedisCluster) Restore restore_step w0 ns name r0 S).
Implicit Types (c instance : DistributedRedisCluster) (w : W).

Lemma adv_owns c w : adv c w → owns own new c.
Proof. intros [[= Hns Hname] _]. unfold owns, drc_Namespace, drc_Name. by rewrite Hns, Hname. Qed.
Hint Extern 0 (owns _ _ _) => eapply adv_owns; eassumption : keeps.

Lemma restore_spec_advanced c w : adv c w → safe (restore_spec c) w (λ r w', adv r.1.1 w').
Proof.
  intros Hadv. unfold restore_spec. destruct (Backup (Restore c)) as [b|]; [|apply safe_panic].
  destruct (decide _), (decide _); apply safe_ret; eapply advanced_same; done.
Qed.
Lemma initRestore_advanced c w :
  ShouldInitRestorePhase c = true → adv c w → safe (initRestore c) w (λ r w', adv r.1.1 w').
Proof.
  intros Hphase%bool_decide_eq_true Hadv. unfold initRestore.
  destruct (Backup (Restore c)) as [b|] eqn:Hb; [by apply restore_spec_advanced|].
  destruct (Init (Spec c) ≫= BackupSource) as [source|]; [|apply safe_panic].
  unfold GetRedisClusterBackup. advance. clear w. destruct a as [err|backup].
  { by apply safe_ret. }
  destruct (decide _) as [|Hdone%dec_stable]; [by apply safe_ret|].
  apply safe_bind. eapply safe_mono.
  { apply (UpdateCRStatus_advanced Restore restore_step w0 ns name r0 R S). eapply advanced_resource; [exact Hadv|done|].
    apply rtc_once. destruct (Restore c) as [ph bk] eqn:Hr. simpl in *. subst. by constructor. }
  intros [c' [e|]] w (Hadv' & _ & _); cbn [fst snd] in Hadv'; [by apply safe_ret|].
  by apply restore_spec_advanced.
Qed.

Lemma DefaultSpec_resource c :
  key_of (DefaultSpec c).1 = key_of c ∧ Restore (DefaultSpec c).1 = Restore c.
Proof.
  unfold DefaultSpec. destruct (default_fields _ _) as [spec u]. destruct (Monitor spec) as [mon|]; [|done].
  destruct (default_monitor mon) as [[? ?] ?]. by destruct (Annotations spec).
Qed.
Lemma validateAndSetDefault_advanced c w :
  adv c w → safe (validateAndSetDefault c) w (λ r w', adv r.1 w').
Proof.
  intros Hadv. unfold validateAndSetDefault. apply safe_bind.
  apply (safe_mono _ _ (λ r w', adv r.1.1 w')).
  { destruct (IsRestoreFromBackup c); [|by apply safe_ret]. cbn [andb].
    destruct (ShouldInitRestorePhase c) eqn:Hs; [by apply initRestore_advanced|by apply safe_ret]. }
  clear w Hadv. intros [[c' update] [e|]] w Hadv; cbn [fst snd] in *; [by apply safe_ret|].
  set (c'' := if _ : bool then _ else _).
  assert (adv c'' w) as Hadv'.
  { subst c''. destruct (_ && _); [|done]. by eapply advanced_same. }
  pose proof (DefaultSpec_resource c'') as [Hm Hr]. destruct (DefaultSpec c'') as [c3 u3]. simpl in Hm, Hr.
  assert (adv c3 w) as Hadv3 by by eapply advanced_same.
  destruct (update || u3); [|by apply safe_ret]. by apply (UpdateCR_advanced Restore restore_step w0 ns name r0 R S).
Qed.
Lemma dbLoadedFromDiskWhenRestore_advanced c w : adv c w → adv (dbLoadedFromDiskWhenRestore c) w.
Proof.
  intros Hadv. unfold dbLoadedFromDiskWhenRestore.
  destruct (_ && _); [|done]. destruct (Config (Spec c)); [|done]. by eapply advanced_same.
Qed.

(** A status with the same restore is written; the error is dropped. *)
Lemma status_write c status w :
  adv c w → ds_Restore status = Restore c →
  safe (UpdateCRStatus (c <| drc_Status := status |>)) w (λ r w', adv r.1 w' ∧ adv c w').
Proof.
  intros Hadv Hs. eapply safe_mono.
  { apply (UpdateCRStatus_advanced Restore restore_step w0 ns name r0 R S). by eapply advanced_same. }
  intros r w' (H1' & H2' & _). split; [done|]. by eapply advanced_same.
Qed.
Lemma updateClusterIfNeed_advanced c status w :
  adv c w → ds_Restore status = Restore c → safe (updateClusterIfNeed c status) w (λ c' w', adv c' w' ∧ adv c w').
Proof.
  intros Hadv Hs. unfold updateClusterIfNeed. destruct (compareStatus _ _); [|by apply safe_ret].
  apply safe_bind. eapply safe_mono; [by apply status_write|]. intros r w' Hr. by apply safe_ret.
Qed.

Lemma resetClusterPassword_advanced c w :
  adv c w → safe (resetClusterPassword redisConf c) w (λ r w', adv r.1 w').
Proof.
  intros Hadv. unfold resetClusterPassword, GetStatefulSet. repeat advance.
  apply safe_bind. eapply safe_mono; [by apply status_write|]. clear Hadv. intros [c' e] ? [Hadv _]. cbn [fst] in Hadv.
  unfold GetStatefulSetPodsByLabels. repeat advance.
Qed.
Lemma after_statefulsets_advanced c updated w :
  adv c w → safe (after_statefulsets c updated) w (λ r w', adv r.1 w').
Proof.
  intros Hadv. unfold after_statefulsets. destruct updated; [|by apply safe_ret].
  apply safe_bind. eapply safe_mono; [by apply status_write|]. clear Hadv. intros [c' e] ? [Hadv _]. cbn [fst] in Hadv.
  repeat advance.
Qed.
Lemma ensure_services_advanced c labels w :
  adv c w → safe (ensure_services c labels) w (λ r w', adv r.1 w').
Proof. intros Hadv. unfold ensure_services, stage. repeat advance. Qed.

Lemma safe_and_then (m : M W (DistributedRedisCluster * option error)) k w :
  safe m w (λ r w', adv r.1 w') → (∀ c w', adv c w' → safe (k c) w' (λ r w', adv r.1 w')) →
  safe (and_then m k) w (λ r w', adv r.1 w').
Proof.
  intros Hm Hk. apply safe_bind. eapply safe_mono; [exact Hm|]. intros [c [e|]] w' Hadv; cbn [fst snd] in *.
  - by apply safe_ret.
  - by apply Hk.
Qed.
Lemma ensureCluster_advanced c w :
  adv c w → safe (ensureCluster rename_file redisConf c) w (λ r w', adv r.1 w').
Proof.
  intros Hadv. unfold ensureCluster. apply safe_bind.
  eapply safe_mono; [by apply validateAndSetDefault_advanced|]. clear Hadv.
  intros [c' [e|]] w' Hadv; cbn [fst] in Hadv; [by apply safe_ret|]. cbv zeta.
  apply dbLoadedFromDiskWhenRestore_advanced in Hadv.
  apply safe_and_then; [unfold stage; repeat advance|].
  clear w' Hadv. intros c1 w1 Hadv. apply safe_and_then.
  { apply safe_bind. eapply safe_mono; [by apply resetClusterPassword_advanced|]. intros r w' Hr. by apply safe_ret. }
  clear w1 Hadv. intros c2 w2 Hadv. repeat advance.
  apply safe_and_then; [by apply after_statefulsets_advanced|]. intros. by apply ensure_services_advanced.
Qed.

(** ** The operation on the cluster *)

(** The postcondition of code that also works on the heap. *)
Lemma scalingDown_advanced c n sets (s : heap * W) :
  adv c s.2 → safe (scalingDown c n sets) s (λ r s', adv r.1 s'.2).
Proof.
  intros Hadv. unfold scalingDown. eapply safe_stage_pair; [by apply status_write|].
  clear Hadv. intros [c' e] ? [Hadv _]. cbn [fst] in Hadv. repeat advance.
Qed.
Lemma syncCluster_advanced c infos (s : heap * W) :
  adv c s.2 → safe (syncCluster c infos) s (λ r s', adv r.1 s'.2).
Proof.
  intros Hadv. unfold syncCluster, stage. repeat advance. by apply scalingDown_advanced.
Qed.

(** ** Reconcile *)

(** The end: some resource in hand is where the stored one has advanced to. *)
Definition advanced_end (s : heap * W) : Prop := ∃ c, adv c s.2.
Lemma advanced_end_intro c (s : heap * W) : adv c s.2 → advanced_end s.
Proof. by exists c. Qed.
Hint Resolve advanced_end_intro : core.

Lemma report_advanced (set : ClusterStatus → string → ClusterStatus) c err (s : heap * W) :
  (∀ status reason, ds_Restore (set status reason) = ds_Restore status) → adv c s.2 →
  safe (report set c err) s (λ c' s', adv c' s'.2 ∧ adv c s'.2).
Proof.
  intros Hset Hadv. unfold report. destruct s as [h w]. apply safe_on_snd. intros c' w' Heq.
  by apply (updateClusterIfNeed_advanced c (set (drc_Status c) (Error err)) w Hadv (Hset _ _)).
Qed.
Lemma buildClusterStatus_restore infos pods c (h : heap) :
  safe (buildClusterStatus infos pods c) h (λ status _, ds_Restore status = Restore c).
Proof.
  unfold buildClusterStatus. apply safe_bind. eapply safe_mono; [apply safe_true|]. intros acc h' _.
  destruct (replication_factors _) as [mn mx]. by apply safe_ret.
Qed.
Lemma safe_status {B} infos pods c (k : ClusterStatus → M (heap * W) B) s P :
  adv c s.2 → (∀ status s', ds_Restore status = Restore c → adv c s'.2 → safe (k status) s' P) →
  safe (on_fst (buildClusterStatus infos pods c) ≫= k) s P.
Proof.
  intros Hadv Hk. destruct s as [h w]. apply safe_bind, safe_on_fst.
  eapply safe_mono; [apply buildClusterStatus_restore|]. intros status h' Hs. by apply Hk.
Qed.

Lemma restart_restored_advanced c (s : heap * W) :
  Phase (Restore c) = RestorePhaseRunning → adv c s.2 →
  safe (restart_restored rename_file c) s (λ _ s', advanced_end s').
Proof.
  intros Hphase Hadv. unfold restart_restored. eapply safe_stage_pair.
  { apply (UpdateCRStatus_advanced Restore restore_step w0 ns name r0 R S). eapply advanced_resource; [exact Hadv|done|].
    apply rtc_once. change (restore_step (Restore c) ((Restore c) <| Phase := RestorePhaseRestart |>)).
    destruct (Restore c) as [ph b]. simpl in Hphase. subst. constructor. }
  clear Hadv. intros [c' [e|]] s' (Hadv & _); cbn [fst] in Hadv; repeat advance; eauto.
Qed.
Lemma finish_restore_advanced c (s : heap * W) :
  Phase (Restore c) = RestorePhaseRestart → adv c s.2 →
  safe (finish_restore c) s (λ _ s', advanced_end s').
Proof.
  intros Hphase Hadv. unfold finish_restore. eapply safe_stage_pair.
  { apply (UpdateCRStatus_advanced Restore restore_step w0 ns name r0 R S). eapply advanced_resource; [exact Hadv|done|].
    apply rtc_once. change (restore_step (Restore c) ((Restore c) <| Phase := RestorePhaseSucceeded |>)).
    destruct (Restore c) as [ph b]. simpl in Hphase. subst. constructor. }
  clear Hadv. intros [c' [e|]] s' (Hadv & _); cbn [fst] in Hadv; [apply safe_ret; eauto|].
  destruct (Backup (Restore c')) as [b|]; [|apply safe_panic].
  eapply safe_stage_pair; [apply (UpdateCR_advanced Restore restore_step w0 ns name r0 R S); by eapply advanced_same|].
  intros r s'' Hr. apply safe_ret, (advanced_end_intro r.1), Hr.
Qed.

Lemma report_ok_advanced reconcileTime c infos pods (s : heap * W) :
  adv c s.2 → safe (report_ok reconcileTime c infos pods) s (λ _ s', advanced_end s').
Proof.
  intros Hadv. unfold report_ok.
  assert (∀ infos' (s : heap * W), adv c s.2 → safe
    (newStatus ← on_fst (buildClusterStatus infos' pods c);
     on_snd (updateClusterIfNeed c (SetClusterOK newStatus "OK"));;
     mret (requeue_after (s64 (reconcileTime * second)), None)) s
    (λ (_ : Result * option error) s', advanced_end s')) as Hend.
  { clear s Hadv. intros infos' s Hadv. eapply safe_status; [exact Hadv|]. clear s Hadv. intros status s Hs Hadv.
    eapply safe_stage_pair; [by apply updateClusterIfNeed_advanced|]. intros c' s' [_ Hadv']. apply safe_ret. eauto. }
  advance. destruct (_.2) as [e|]; [|by apply Hend]. destruct (bool_decide _); [|by apply Hend].
  apply safe_ret. eauto.
Qed.

Lemma operate_advanced reconcileTime c infos pods (s : heap * W) :
  adv c s.2 → safe (operate reconcileTime c infos pods) s (λ _ s', advanced_end s').
Proof.
  intros Hadv. unfold operate. advance. destruct a as [e|]; [apply safe_ret; eauto|].
  eapply safe_status; [exact Hadv|]. clear Hadv. intros status s2 Hs Hadv. unfold isScalingDown. advance.
  set (status' := if a : bool then _ else _).
  assert (ds_Restore status' = Restore c) as Hs' by by destruct a.
  eapply safe_stage_pair; [by apply updateClusterIfNeed_advanced|]. clear Hadv. intros c' s3 [Hadv' Hadv].
  set (c'' := c' <| drc_Status := status' |>).
  assert (adv c'' s3.2) as Hadv''.
  { destruct Hadv' as (? & _). destruct Hadv as (_ & (r & ?) & ?). split_and!; [done| |done].
    exists r. unfold c'', Restore. cbn. by rewrite Hs'. }
  clear Hadv Hadv'. clearbody c''.
  destruct (needClusterOperation c''); [|by apply report_ok_advanced].
  apply safe_bind. eapply safe_mono; [by apply syncCluster_advanced|].
  intros [c4 [e|]] s4 Hadv4; cbn [fst] in Hadv4; [|by apply report_ok_advanced].
  apply safe_bind. eapply safe_mono; [by apply report_advanced|]. intros c5 s5 [Hadv5 _]. apply safe_ret. eauto.
Qed.

Lemma report_end set c err (x : Result * option error) (s : heap * W) :
  (∀ status reason, ds_Restore (set status reason) = ds_Restore status) → adv c s.2 →
  safe (report set c err;; mret x) s (λ _ s', advanced_end s').
Proof.
  intros Hset Hadv. apply safe_bind. eapply safe_mono; [by apply report_advanced|].
  intros c' s' [Hadv' _]. apply safe_ret. eauto.
Qed.

Lemma heal_and_operate_advanced reconcileTime c infos pods (s : heap * W) :
  adv c s.2 → safe (heal_and_operate rename_file reconcileTime c infos pods) s (λ _ s', advanced_end s').
Proof.
  intros Hadv. unfold heal_and_operate. advance. destruct a as [[|] [e|]]; try (apply safe_ret; eauto).
  advance. destruct a as [e|].
  - destruct (GetType e); first [by apply report_end|apply safe_ret; eauto].
  - unfold IsRestoreRunning, IsRestoreRestarting. destruct (IsRestoreFromBackup c); [|by apply operate_advanced].
    cbn [andb]. do 2 (case_bool_decide; [first [by apply restart_restored_advanced|by apply finish_restore_advanced]|]).
    by apply operate_advanced.
Qed.
Lemma reconcile_admin_advanced reconcileTime c pods (s : heap * W) :
  adv c s.2 → safe (reconcile_admin rename_file reconcileTime c pods) s (λ _ s', advanced_end s').
Proof.
  intros Hadv. unfold reconcile_admin. advance.
  destruct (a.2) as [e|], (bool_decide (Status a.1 = ClusterInfosPartial)); [apply safe_ret; eauto|by apply heal_and_operate_advanced..].
Qed.
Lemma reconcile_pods_advanced reconcileTime c (s : heap * W) :
  adv c s.2 → safe (reconcile_pods rename_file redisConf reconcileTime c) s (λ _ s', advanced_end s').
Proof.
  intros Hadv. unfold reconcile_pods, GetStatefulSetPodsByLabels. advance.
  destruct a as [e|items]; [apply safe_ret; eauto|]. advance. destruct a as [e|].
  { destruct (GetType e); first [by apply report_end|apply safe_ret; eauto]. }
  advance. destruct a as [e|password]; [apply safe_ret; eauto|]. advance.
  apply safe_bind. eapply safe_mono; [by apply reconcile_admin_advanced|].
  clear Hadv. intros r s4 [c4 Hadv]. repeat advance. eauto.
Qed.
End stages.

(** The whole run, from a stored resource. *)
Section run.
Context `{MapRange} `{SortPkg} `{K8sApi} `{ObjectStore}.
Context {W : Type} `{ClientLaws W} `{IAdmin W} `{ControllerEnv W}.

Lemma Reconcile_advanced own new (R S : relation W) rename_file redisConf reconcileTime ns name (h : heap) (w : W) r0
    `{!PreOrder R} `{!ClientFrame own new R} `{!AdminFrame R}
    `{!Confined (T := DistributedRedisCluster) Restore ns name R S} :
  footprint own new ns name → restore_at ns name w = Some r0 →
  safe (Reconcile rename_file redisConf reconcileTime ns name) (h, w) (λ _ s', advanced_end w ns name r0 S s').
Proof.
  intros Hfoot Hr0. unfold Reconcile.
  pose proof Hr0 as (c0 & Hc0 & Hk0 & _)%stored_at_Some.
  assert (advanced Restore restore_step w ns name r0 S c0 w) as Hadv.
  { by apply (advanced_start Restore restore_step w ns name r0 R S). }
  eapply safe_stage_pair; [apply runs_safe, Get_law|]. intros r s [Hst Hc]; cbn [snd] in *.
  assert (advanced Restore restore_step w ns name r0 S c0 s.2) as Hadv'.
  { by eapply (advanced_read Restore restore_step w ns name r0 R S). }
  destruct r as [e|c].
  { destruct (IsNotFound e); apply safe_ret; by exists c0. }
  cbn in Hc, Hc0. rewrite Hc0 in Hc. simplify_eq.
  eapply safe_stage_pair; [by eapply (ensureCluster_advanced _ _ _ _ _ _ own new R S)|]. intros [c' [e|]] s' Hadv2; cbn [fst] in Hadv2.
  - destruct (GetType e); first [by eapply (report_end _ _ _ _ R S)|apply safe_ret; by exists c'].
  - by eapply (reconcile_pods_advanced _ _ _ _ _ _ own new R S).
Qed.
End run.

(** ** The restore machine *)

Section machine.
Context `{MapRange} `{SortPkg} `{K8sApi} `{ObjectStore}.
Context {W : Type} `{ClientLaws W} `{IAdmin W} `{ControllerEnv W} `{!AdminFrame (W := W) same_restores}.

(** C10: a reconciliation moves the restore of its cluster, as it is stored, only along
    the machine not started, running, restarting, succeeded, whatever fails on the way
    and however far it gets: it never goes back, never skips a phase, never changes the
    recorded backup once there is one, and records only a succeeded backup.  The restores
    of the other clusters are not changed.  (The Redis admin and the rest of the world are
    assumed not to write the status of clusters.) *)
Theorem Reconcile_restore_machine rename_file redisConf reconcileTime ns name (h : heap) (w : W) r0 :
  restore_at ns name w = Some r0 →
  safe (Reconcile rename_file redisConf reconcileTime ns name) (h, w) (λ _ s',
    (∃ r, restore_at ns name s'.2 = Some r ∧ rtc restore_step r0 r) ∧
    ∀ ns' name', (ns', name') ≠ (ns, name) → restore_at ns' name' s'.2 = restore_at ns' name' w).
Proof.
  intros Hr0. eapply safe_mono.
  { apply (Reconcile_advanced generated generated same_restores (other_restores ns name)); try apply _; [apply generated_footprint|done]. }
  intros _ s' (c & _ & (r & Hr & Hrtc & _) & Hother). split; [by exists r|exact Hother].
Qed.
End machine.

(** ** A restore in the concrete world *)

#[local] Existing Instances range_default sort_default k8s_default object_store_default kube_errors_default.

Definition demo_backup : RedisClusterBackup :=
  mkRedisClusterBackup (newObjectMeta "dump" "ns" ∅ [])
    (mkBackupSpec "" "cache" None (mkBackend "" None (Some (mkS3Spec "http://s3" "bucket" "")) None None None) None None)
    (mkBackupStatus (Some 0) None BackupPhaseSucceeded "" 3 1 "redis:5").
Definition demo_restored (r : Restore_) : DistributedRedisCluster :=
  mkDRC (newObjectMeta "cache" "ns" ∅ [])
    (demo_spec <| Init := Some (mkInitSpec (Some (mkBackupSourceSpec "ns" "dump" []))) |> <| Image := "redis:5" |>)
    ((demo_status "") <| ds_Restore := r |>).

#[local] Instance demo_frame : AdminFrame (W := demo_world) same_restores.
Proof. apply lift_admin_frame; [apply _|]. intros. apply same_stored_eq. reflexivity. Qed.

Definition demo_start : demo_world := world_with [OCluster (demo_restored (mkRestore "" None)); OBackup demo_backup].
Abbreviation demo_run := (Reconcile None (mkRedisConfig 2000 "" "") 60 "ns" "cache" (∅, demo_start)).

Lemma demo_run_restore :
  match demo_run with Val (_, s') => restore_at "ns" "cache" s'.2 | _ => None end =
  Some (mkRestore RestorePhaseRunning (Some demo_backup)).
Proof. vm_compute. reflexivity. Qed.

Lemma Reconcile_restore_machine_witness :
  ∃ r s', demo_run = Val (r, s') ∧
    restore_at "ns" "cache" s'.2 = Some (mkRestore RestorePhaseRunning (Some demo_backup)) ∧
    rtc restore_step (mkRestore "" None) (mkRestore RestorePhaseRunning (Some demo_backup)).
Proof.
  pose proof demo_run_restore as Hat.
  assert (restore_at "ns" "cache" demo_start = Some (mkRestore "" None)) as Hstart by (vm_compute; reflexivity).
  pose proof (Reconcile_restore_machine None (mkRedisConfig 2000 "" "") 60 "ns" "cache" ∅ demo_start
    (mkRestore "" None) Hstart) as Hsafe.
  unfold safe in Hsafe. revert Hat Hsafe. generalize demo_run. intros [[r s']| |] Hat Hsafe; [|discriminate Hat..].
  exists r, s'. split; [reflexivity|]. split; [exact Hat|].
  destruct (Hsafe r s' eq_refl) as [(r' & Hr' & Hrtc) _].
  rewrite Hat in Hr'. injection Hr' as <-. exact Hrtc.
Defined.
