(* ===== verification/Osm.v ===== *)
(** [pkg/osm/osm.go]: the context of a backup's bucket, from the backend of the
    specification and the secret it names, and the check that the bucket can be
    written.

    The cloud packages are parameters: the names of their settings and of the keys of
    their secrets ([OsmNames]), their small string functions, and the calls to the
    storage and to AWS ([OsmEnv]).  A [stow.ConfigMap] is a map of strings. *)

From S2P Require Import Prelude GoStrings Errors Kube Utils Api Client Resources.

Definition CaCertFileName : string := "ca.crt".

(** [otx.Context] *)
Record OSMContext := mkOSMContext {
  osm_Name : string;
  osm_Provider : string;
  osm_Config : gmap string string;
}.
#[export] Instance OSMContext_eta : Settable OSMContext := λ nc,
  mkOSMContext (osm_Name nc) (osm_Provider nc) (osm_Config nc).

(** [aws.Config], the fields set here: the static credentials (key id, secret) and the
    region. *)
Record AwsConfig := mkAwsConfig {
  aws_Credentials : option (string * string);
  aws_Region : option string;
}.

(** The constants of [stow], by provider, and of [kmodules.xyz/constants]. *)
Class OsmNames := {
  s3_Kind : string; s3_ConfigAccessKeyID : string; s3_ConfigSecretKey : string; s3_ConfigAuthType : string;
  s3_ConfigRegion : string; s3_ConfigEndpoint : string; s3_ConfigDisableSSL : string; s3_ConfigCACertData : string;
  gcs_Kind : string; gcs_ConfigProjectId : string; gcs_ConfigJSON : string;
  azure_Kind : string; azure_ConfigAccount : string; azure_ConfigKey : string;
  local_Kind : string; local_ConfigKeyPath : string;
  swift_Kind : string; swift_ConfigUsername : string; swift_ConfigKey : string; swift_ConfigRegion : string;
  swift_ConfigTenantAuthURL : string; swift_ConfigDomain : string; swift_ConfigTenantName : string;
  swift_ConfigTenantDomain : string; swift_ConfigTenantId : string; swift_ConfigStorageURL : string;
  swift_ConfigAuthToken : string;
  AWS_ACCESS_KEY_ID : string; AWS_SECRET_ACCESS_KEY : string; CA_CERT_DATA : string;
  GOOGLE_PROJECT_ID : string; GOOGLE_SERVICE_ACCOUNT_JSON_KEY : string;
  AZURE_ACCOUNT_NAME : string; AZURE_ACCOUNT_KEY : string;
  OS_USERNAME : string; OS_PASSWORD : string; OS_REGION_NAME : string; OS_AUTH_URL : string;
  OS_USER_DOMAIN_NAME : string; OS_PROJECT_NAME : string; OS_PROJECT_DOMAIN_NAME : string;
  OS_TENANT_ID : string; OS_TENANT_NAME : string; ST_AUTH : string; ST_USER : string; ST_KEY : string;
  OS_STORAGE_URL : string; OS_AUTH_TOKEN : string;
  (** the settings of S3 have different names *)
  s3_settings : NoDup [s3_ConfigAccessKeyID; s3_ConfigSecretKey; s3_ConfigAuthType; s3_ConfigRegion;
                       s3_ConfigEndpoint; s3_ConfigDisableSSL; s3_ConfigCACertData];
}.

(** The calls out of the process.  [Location], [Bucket] and [Session] are values of the
    packages. *)
Class OsmEnv (W : Type) := {
  Location : Type;
  Bucket : Type;
  Session : Type;
  stow_Dial : string → gmap string string → M W (error + Location);
  loc_Container : Location → string → M W (error + Bucket);
  HasWriteAccess : Bucket → M W (option error);
  session_NewSession : M W (error + Session);
  ec2metadata_Region : Session → M W (error + string);
  session_NewSessionWithOptions : AwsConfig → M W (error + Session);
  GetBucketLocation : Session → option string → M W (error + option string);
  (** [WithRegion] of [aws.Config] sets the region *)
  WithRegion : AwsConfig → string → AwsConfig;
  (** [types.StringP], [types.String], [stringz.Val]; the last is its second argument
      when the first is empty *)
  types_StringP : string → option string;
  types_String : option string → string;
  stringz_Val : string → string → string;
  stringz_Val_law : ∀ s d, stringz_Val s d = if decide (s = "") then d else s;
  (** whether [url.Parse] fails *)
  url_error : string → option error;
}.

(** ** net/url: the scheme *)

Definition is_letter (c : ascii) : bool :=
  let n := nat_of_ascii c in (Nat.leb 97 n && Nat.leb n 122) || (Nat.leb 65 n && Nat.leb n 90).
Definition is_scheme_rest (c : ascii) : bool :=
  let n := nat_of_ascii c in
  (Nat.leb 48 n && Nat.leb n 57) || bool_decide (c = "+"%char) || bool_decide (c = "-"%char) || bool_decide (c = "."%char).
(** [getScheme], from the first byte or a later one: there is no scheme unless a colon
    follows it. *)
Fixpoint getScheme (first : bool) (s : string) : option string :=
  match s with
  | "" => None
  | String c s' =>
      if is_letter c then String c <$> getScheme false s'
      else if is_scheme_rest c then if first then None else String c <$> getScheme false s'
      else if bool_decide (c = ":"%char) then Some ""
      else None
  end.
(** [u, err := url.Parse(raw)], and [u.Scheme] *)
Definition url_Scheme {W} `{OsmEnv W} (raw : string) : error + string :=
  match url_error raw with
  | Some err => inl err
  | None => inr (ToLower (default "" (getScheme true raw)))
  end.
(** [strconv.FormatBool] *)
Definition FormatBool (b : bool) : string := if b then "true" else "false".

(** ** osm.go *)

Section osm.
Context `{OsmNames} `{ObjectStore} {W : Type} `{Client W} `{OsmEnv W}.
Implicit Types (config : gmap string string) (nc : OSMContext) (spec : Backend).

(** [nc.Config[key] = value] *)
Definition put_setting (key value : string) nc : OSMContext :=
  nc <| osm_Config := <[key := value]> (osm_Config nc) |>.
(** [string(config[key])], where a key that is absent gives no bytes *)
Definition secret_value config (key : string) : string := default "" (config !! key).

(** The data of the secret the backend names. *)
Definition osm_secret spec (namespace : string) : M W (error + gmap string string) :=
  if decide (StorageSecretName spec ≠ "") then
    r ← client_Get (T := Secret) namespace (StorageSecretName spec);
    mret match r with inl err => inl err | inr secret => inr (secret_Data secret) end
  else mret (inr ∅).

(** The credentials of S3. *)
Definition s3_credentials config nc : OSMContext :=
  match config !! AWS_ACCESS_KEY_ID, config !! AWS_SECRET_ACCESS_KEY with
  | Some keyID, Some key =>
      put_setting s3_ConfigAuthType "accesskey"
        (put_setting s3_ConfigSecretKey key (put_setting s3_ConfigAccessKeyID keyID nc))
  | _, _ => put_setting s3_ConfigAuthType "iam" nc
  end.
(** The session with AWS: the region of the machine for its own role, the static
    credentials otherwise. *)
Definition aws_session config nc : M W (error + Session) :=
  if decide (secret_value (osm_Config nc) s3_ConfigAuthType = "iam") then
    r ← session_NewSession;
    c ← match r with
        | inl _ => mret (mkAwsConfig None None)
        | inr s =>
            r ← ec2metadata_Region s;
            mret match r with
                 | inl _ => mkAwsConfig None None
                 | inr region => WithRegion (mkAwsConfig None None) region
                 end
        end;
    session_NewSessionWithOptions c
  else
    session_NewSessionWithOptions
      (mkAwsConfig (Some (secret_value config AWS_ACCESS_KEY_ID, secret_value config AWS_SECRET_ACCESS_KEY))
         (Some "us-east-1")).
(** The region of a bucket of AWS. *)
Definition s3_region config (s3 : S3Spec) nc : M W (error + OSMContext) :=
  r ← aws_session config nc;
  match r with
  | inl err => mret (inl err)
  | inr sess =>
      r ← GetBucketLocation sess (types_StringP (s3_Bucket s3));
      mret match r with
           | inl err => inl err
           | inr out => inr (put_setting s3_ConfigRegion (stringz_Val (types_String out) "us-east-1") nc)
           end
  end.
(** The settings of a service that is compatible with S3. *)
Definition s3_endpoint config (s3 : S3Spec) nc : error + OSMContext :=
  let nc := put_setting s3_ConfigEndpoint (s3_Endpoint s3) nc in
  match url_Scheme (s3_Endpoint s3) with
  | inl err => inl err
  | inr scheme =>
      let nc := put_setting s3_ConfigDisableSSL (FormatBool (bool_decide (scheme = "http"))) nc in
      inr match config !! CA_CERT_DATA with
          | Some cacertData => if decide (scheme = "https") then put_setting s3_ConfigCACertData cacertData nc else nc
          | None => nc
          end
  end.
Definition s3_context config (s3 : S3Spec) nc : M W (error + OSMContext) :=
  let nc := s3_credentials config (nc <| osm_Provider := s3_Kind |>) in
  if decide (s3_Endpoint s3 = "") then s3_region config s3 nc
  else if HasSuffix (s3_Endpoint s3) ".amazonaws.com" then s3_region config s3 nc
  else mret (s3_endpoint config s3 nc).

(** The settings of Swift and the keys of the secret that hold them. *)
Definition swift_table : list (string * string) :=
  [ (swift_ConfigUsername, OS_USERNAME); (swift_ConfigKey, OS_PASSWORD); (swift_ConfigRegion, OS_REGION_NAME);
    (swift_ConfigTenantAuthURL, OS_AUTH_URL);
    (swift_ConfigDomain, OS_USER_DOMAIN_NAME); (swift_ConfigTenantName, OS_PROJECT_NAME);
    (swift_ConfigTenantDomain, OS_PROJECT_DOMAIN_NAME);
    (swift_ConfigTenantId, OS_TENANT_ID); (swift_ConfigTenantName, OS_TENANT_NAME);
    (swift_ConfigTenantAuthURL, ST_AUTH); (swift_ConfigUsername, ST_USER); (swift_ConfigKey, ST_KEY);
    (swift_ConfigStorageURL, OS_STORAGE_URL); (swift_ConfigAuthToken, OS_AUTH_TOKEN) ].
Definition swift_step config nc (val : string * string) : OSMContext :=
  match osm_Config nc !! val.1 with
  | Some _ => nc
  | None => put_setting val.1 (secret_value config val.2) nc
  end.

(** [NewOSMContext] *)
Definition NewOSMContext spec (namespace : string) : M W (error + OSMContext) :=
  r ← osm_secret spec namespace;
  match r with
  | inl err => mret (inl err)
  | inr config =>
      let nc := mkOSMContext "objectstore" "" ∅ in
      match be_S3 spec, be_GCS spec, be_Azure spec, be_Local spec, be_Swift spec with
      | Some s3, _, _, _, _ => s3_context config s3 nc
      | _, Some _, _, _, _ =>
          mret (inr (put_setting gcs_ConfigJSON (secret_value config GOOGLE_SERVICE_ACCOUNT_JSON_KEY)
            (put_setting gcs_ConfigProjectId (secret_value config GOOGLE_PROJECT_ID) (nc <| osm_Provider := gcs_Kind |>))))
      | _, _, Some _, _, _ =>
          mret (inr (put_setting azure_ConfigKey (secret_value config AZURE_ACCOUNT_KEY)
            (put_setting azure_ConfigAccount (secret_value config AZURE_ACCOUNT_NAME) (nc <| osm_Provider := azure_Kind |>))))
      | _, _, _, Some local, _ =>
          mret (inr (put_setting local_ConfigKeyPath (local_MountPath local) (nc <| osm_Provider := local_Kind |>)))
      | _, _, _, _, Some _ =>
          mret (inr (foldl (swift_step config) (nc <| osm_Provider := swift_Kind |>) swift_table))
      | _, _, _, _, _ => mret (inl (ErrText "no storage provider is configured"))
      end
  end.

(** [CheckBucketAccess] *)
Definition CheckBucketAccess spec (namespace : string) : M W (option error) :=
  r ← NewOSMContext spec namespace;
  match r with
  | inl err => mret (Some err)
  | inr cfg =>
      r ← stow_Dial (osm_Provider cfg) (osm_Config cfg);
      match r with
      | inl err => mret (Some err)
      | inr loc =>
          match Backend_Container spec with
          | inl err => mret (Some err)
          | inr bucket =>
              r ← loc_Container loc bucket;
              match r with
              | inl err => mret (Some err)
              | inr c => HasWriteAccess c
              end
          end
      end
  end.
End osm.

(** ** What the contexts say *)

(** Lookups among the settings of S3: the names differ. *)
Ltac s3_lookups :=
  let Hn := fresh in pose proof s3_settings as Hn;
  repeat (apply NoDup_cons in Hn as [? Hn]); clear Hn;
  repeat match goal with Hni : _ ∉ _ :: _ |- _ => apply not_elem_of_cons in Hni as [? Hni] end;
  cbn; split_and?; repeat first [rewrite lookup_insert_eq | rewrite lookup_insert_ne by congruence]; try done.

Section osm_theorems.
Context `{OsmNames} `{ObjectStore} {W : Type} `{ClientLaws W} `{OsmEnv W}.
Implicit Types (config : gmap string string) (nc : OSMContext) (spec : Backend).

(** The data of the secret that the backend names, in the stored objects. *)
Definition secret_data spec (ns : string) (w : W) config : Prop :=
  if decide (StorageSecretName spec = "") then config = ∅
  else ∃ s, stored w !! (kind_of Secret, (ns, StorageSecretName spec)) = Some (OSecret s) ∧ secret_Data s = config.

Lemma osm_secret_spec spec ns w :
  runs (osm_secret spec ns) w (λ r _, ∀ config, r = inr config → secret_data spec ns w config).
Proof.
  unfold osm_secret, secret_data. destruct (decide (StorageSecretName spec = "")) as [Hn|Hn].
  - rewrite decide_False by (by intros []). apply runs_ret. congruence.
  - rewrite decide_True by done. apply runs_bind. eapply runs_mono; [apply Get_law|].
    intros [e|s] w' [_ Hs]; apply runs_ret; intros config [= <-]. by exists s.
Qed.

(** The settings of Swift that are ever used: the first key of each. *)
Definition swift_effective : list (string * string) := take 8 swift_table ++ drop 12 swift_table.

Lemma swift_fold config nc l key :
  osm_Config (foldl (swift_step config) nc l) !! key =
  match osm_Config nc !! key with
  | Some v => Some v
  | None => (list_to_map (prod_map id (secret_value config) <$> l) : gmap string string) !! key
  end.
Proof.
  revert nc. induction l as [|[s k] l IH]; intros nc; [cbn; rewrite lookup_empty; by case_match|].
  cbn [foldl fmap list_fmap]. rewrite IH. unfold swift_step, prod_map. cbn [fst snd]. rewrite list_to_map_cons, lookup_insert. unfold id at 1 3.
  destruct (decide (s = key)) as [->|Hne].
  - destruct (osm_Config nc !! key) as [v|] eqn:Hv; [by rewrite Hv|].
    cbn. by rewrite lookup_insert_eq, decide_True.
  - rewrite decide_False by done. assert (osm_Config (match osm_Config nc !! s with Some _ => nc | None => put_setting s (secret_value config k) nc end)
      !! key = osm_Config nc !! key) as ->.
    { case_match; [done|]. cbn. by rewrite lookup_insert_ne. }
    by case_match.
Qed.
Lemma swift_fold_provider config nc l : osm_Provider (foldl (swift_step config) nc l) = osm_Provider nc.
Proof.
  revert nc. induction l as [|v l IH]; intros nc; [done|]. cbn [foldl]. rewrite IH. unfold swift_step. by case_match.
Qed.
Lemma swift_first_wins (f : string → string) :
  (list_to_map (prod_map id f <$> swift_table) : gmap string string) = list_to_map (prod_map id f <$> swift_effective).
Proof.
  apply map_eq. intros key. unfold swift_effective, swift_table. cbn [take drop app fmap list_fmap].
  unfold prod_map, id. cbn [fst snd]. rewrite !list_to_map_cons, !lookup_insert. repeat (case_decide; [done|]). done.
Qed.

(** What the settings of S3 are to say: the static credentials when the secret has both
    of them, the role of the machine otherwise, and no half of them; a region for AWS, the
    endpoint and its TLS for another service. *)
Definition on_aws (s3 : S3Spec) : bool :=
  bool_decide (s3_Endpoint s3 = "") || HasSuffix (s3_Endpoint s3) ".amazonaws.com".
Definition s3_auth config (settings : gmap string string) : Prop :=
  match config !! AWS_ACCESS_KEY_ID, config !! AWS_SECRET_ACCESS_KEY with
  | Some id, Some key =>
      settings !! s3_ConfigAuthType = Some "accesskey" ∧
      settings !! s3_ConfigAccessKeyID = Some id ∧ settings !! s3_ConfigSecretKey = Some key
  | _, _ =>
      settings !! s3_ConfigAuthType = Some "iam" ∧
      settings !! s3_ConfigAccessKeyID = None ∧ settings !! s3_ConfigSecretKey = None
  end.
Definition s3_service config (s3 : S3Spec) (settings : gmap string string) : Prop :=
  if on_aws s3 then
    (∃ region, region ≠ "" ∧ settings !! s3_ConfigRegion = Some region) ∧
    settings !! s3_ConfigEndpoint = None ∧ settings !! s3_ConfigDisableSSL = None ∧
    settings !! s3_ConfigCACertData = None
  else
    ∃ scheme, url_Scheme (s3_Endpoint s3) = inr scheme ∧
    settings !! s3_ConfigRegion = None ∧ settings !! s3_ConfigEndpoint = Some (s3_Endpoint s3) ∧
    settings !! s3_ConfigDisableSSL = Some (FormatBool (bool_decide (scheme = "http"))) ∧
    settings !! s3_ConfigCACertData = (if decide (scheme = "https") then config !! CA_CERT_DATA else None).

Lemma s3_credentials_auth config nc :
  osm_Config nc = ∅ →
  let nc' := s3_credentials config nc in
  s3_auth config (osm_Config nc') ∧ osm_Provider nc' = osm_Provider nc ∧
  ∀ key, key ∈ [s3_ConfigRegion; s3_ConfigEndpoint; s3_ConfigDisableSSL; s3_ConfigCACertData] →
    osm_Config nc' !! key = None.
Proof.
  intros Hnc nc'. unfold s3_auth, nc', s3_credentials.
  destruct (config !! AWS_ACCESS_KEY_ID) as [id|], (config !! AWS_SECRET_ACCESS_KEY) as [key|];
    cbn; rewrite Hnc; (split; [|split; [done|intros k Hk]]); repeat (apply elem_of_cons in Hk as [->|Hk]);
    try (by apply elem_of_nil in Hk); s3_lookups.
Qed.
Lemma s3_auth_other config nc key v :
  key ∈ [s3_ConfigRegion; s3_ConfigEndpoint; s3_ConfigDisableSSL; s3_ConfigCACertData] →
  s3_auth config (osm_Config nc) → s3_auth config (osm_Config (put_setting key v nc)).
Proof.
  intros Hk. assert (key ≠ s3_ConfigAuthType ∧ key ≠ s3_ConfigAccessKeyID ∧ key ≠ s3_ConfigSecretKey) as (? & ? & ?).
  { repeat (apply elem_of_cons in Hk as [->|Hk]); try (by apply elem_of_nil in Hk); s3_lookups. }
  unfold s3_auth. cbn. by rewrite !lookup_insert_ne by done.
Qed.

Lemma s3_region_spec config s3 nc w :
  safe (s3_region config s3 nc) w (λ r _, ∀ nc', r = inr nc' →
    ∃ region, region ≠ "" ∧ nc' = put_setting s3_ConfigRegion region nc).
Proof.
  unfold s3_region. apply safe_bind. eapply safe_mono; [apply safe_true|]. intros [e|sess] w1 _; [by apply safe_ret|].
  apply safe_bind. eapply safe_mono; [apply safe_true|]. intros [e|out] w2 _; apply safe_ret; [done|].
  intros nc' [= <-]. eexists. split; [|done]. rewrite stringz_Val_law. by case_decide.
Qed.
Lemma s3_endpoint_spec config s3 nc nc' :
  (∀ key, key ∈ [s3_ConfigRegion; s3_ConfigEndpoint; s3_ConfigDisableSSL; s3_ConfigCACertData] →
    osm_Config nc !! key = None) →
  s3_endpoint config s3 nc = inr nc' →
  (s3_auth config (osm_Config nc) → s3_auth config (osm_Config nc')) ∧ osm_Provider nc' = osm_Provider nc ∧
  ∃ scheme, url_Scheme (s3_Endpoint s3) = inr scheme ∧
    osm_Config nc' !! s3_ConfigRegion = None ∧ osm_Config nc' !! s3_ConfigEndpoint = Some (s3_Endpoint s3) ∧
    osm_Config nc' !! s3_ConfigDisableSSL = Some (FormatBool (bool_decide (scheme = "http"))) ∧
    osm_Config nc' !! s3_ConfigCACertData = (if decide (scheme = "https") then config !! CA_CERT_DATA else None).
Proof.
  intros Hnone. unfold s3_endpoint. destruct (url_Scheme (s3_Endpoint s3)) as [|scheme]; [done|]. cbv zeta.
  assert (osm_Config nc !! s3_ConfigCACertData = None ∧ osm_Config nc !! s3_ConfigRegion = None) as [Hca Hreg].
  { split; apply Hnone; set_solver. }
  intros [= <-]. split; [|split].
  - intros. repeat case_match; repeat (apply s3_auth_other; [set_solver|]); done.
  - by repeat case_match.
  - exists scheme. split; [done|]. destruct (config !! CA_CERT_DATA), (decide (scheme = "https")); s3_lookups.
Qed.
End osm_theorems.

Section osm_properties.
Context `{OsmNames} `{ObjectStore} {W : Type} `{ClientLaws W} `{OsmEnv W}.

(** The context of an S3 bucket, whatever the storage and AWS answer: it says the
    static credentials exactly when the secret holds both the id and the key, and never
    one of them alone; for AWS it has a region, which is not empty, and no endpoint; for
    another service it has the endpoint of the specification, no TLS exactly when the
    scheme of its URL is [http], and the certificate of the secret only for [https]. *)
Theorem NewOSMContext_s3 (spec : Backend) s3 (ns : string) (w : W) :
  be_S3 spec = Some s3 →
  safe (NewOSMContext spec ns) w (λ r _, ∀ nc, r = inr nc →
    osm_Provider nc = s3_Kind ∧
    ∃ config, secret_data spec ns w config ∧
      s3_auth config (osm_Config nc) ∧ s3_service config s3 (osm_Config nc)).
Proof.
  intros Hs3. unfold NewOSMContext. rewrite Hs3. apply safe_bind.
  eapply safe_mono; [apply runs_safe, osm_secret_spec|]. intros [e|config] w1 Hc; [by apply safe_ret|].
  specialize (Hc config eq_refl). cbv zeta. unfold s3_context. set (nc0 := (mkOSMContext _ _ _) <| osm_Provider := _ |>).
  destruct (s3_credentials_auth config nc0 eq_refl) as (Hauth & Hprov & Hnone).
  set (nc1 := s3_credentials config nc0) in *.
  assert (on_aws s3 = true → safe (s3_region config s3 nc1) w1 (λ r _, ∀ nc, r = inr nc →
    osm_Provider nc = s3_Kind ∧ ∃ config, secret_data spec ns w config ∧
      s3_auth config (osm_Config nc) ∧ s3_service config s3 (osm_Config nc))) as Haws.
  { intros Hon. eapply safe_mono; [apply s3_region_spec|]. intros r ? Hr nc (region & Hne & ->)%Hr.
    split; [exact Hprov|]. exists config. split; [done|]. split; [apply s3_auth_other; [set_solver|done]|].
    unfold s3_service. rewrite Hon.
    pose proof (Hnone s3_ConfigEndpoint ltac:(set_solver)). pose proof (Hnone s3_ConfigDisableSSL ltac:(set_solver)).
    pose proof (Hnone s3_ConfigCACertData ltac:(set_solver)).
    split; [exists region; split; [done|]|]; s3_lookups. }
  unfold on_aws in Haws. destruct (decide _) as [He|He]; [apply Haws; by rewrite bool_decide_true|].
  destruct (HasSuffix _ _) eqn:Hsuf; [apply Haws; by rewrite orb_true_r|]. clear Haws.
  apply safe_ret. intros nc Hnc. destruct (s3_endpoint_spec _ _ _ _ Hnone Hnc) as (Hauth' & Hprov' & Hserv).
  split; [by rewrite Hprov'|]. exists config. split; [done|]. split; [by apply Hauth'|].
  unfold s3_service, on_aws. by rewrite bool_decide_false, Hsuf.
Qed.

(** C40: the context of a Swift container holds exactly ten settings, each from the first
    key of the secret that the table names for it, or the empty text without it.  So the
    keys of the versions 1 and 2 of the protocol that come later in the table
    (OS_TENANT_NAME, ST_AUTH, ST_USER, ST_KEY) are never used, even in a secret that has
    no others: an absent first key already makes the setting exist. *)
Theorem NewOSMContext_swift (spec : Backend) c (ns : string) (w : W) :
  be_S3 spec = None → be_GCS spec = None → be_Azure spec = None → be_Local spec = None → be_Swift spec = Some c →
  runs (NewOSMContext spec ns) w (λ r _, ∀ nc, r = inr nc →
    osm_Provider nc = swift_Kind ∧
    ∃ config, secret_data spec ns w config ∧
      osm_Config nc = list_to_map (prod_map id (secret_value config) <$> swift_effective)).
Proof.
  intros H1' H2' H3' H4' H5'. unfold NewOSMContext. rewrite H1', H2', H3', H4', H5'. apply runs_bind.
  eapply runs_mono; [apply osm_secret_spec|]. intros [e|config] w1 Hc; apply runs_ret; [done|].
  intros nc <-%(inj inr). split.
  { by rewrite swift_fold_provider. }
  exists config. split; [by apply Hc|]. rewrite <- swift_first_wins.
  apply map_eq. intros key. by rewrite swift_fold.
Qed.
End osm_properties.

(** ** A storage in the concrete world *)

(** The names of the settings and of the keys. *)
Definition osm_names_demo : OsmNames.
Proof.
  refine {|
    s3_Kind := "s3"; s3_ConfigAccessKeyID := "access_key_id"; s3_ConfigSecretKey := "secret_key";
    s3_ConfigAuthType := "auth_type"; s3_ConfigRegion := "region"; s3_ConfigEndpoint := "endpoint";
    s3_ConfigDisableSSL := "disable_ssl"; s3_ConfigCACertData := "cacert_data";
    gcs_Kind := "google"; gcs_ConfigProjectId := "project_id"; gcs_ConfigJSON := "json";
    azure_Kind := "azure"; azure_ConfigAccount := "account"; azure_ConfigKey := "key";
    local_Kind := "local"; local_ConfigKeyPath := "path";
    swift_Kind := "swift"; swift_ConfigUsername := "username"; swift_ConfigKey := "key";
    swift_ConfigRegion := "region"; swift_ConfigTenantAuthURL := "tenant_auth_url"; swift_ConfigDomain := "domain";
    swift_ConfigTenantName := "tenant_name"; swift_ConfigTenantDomain := "tenant_domain";
    swift_ConfigTenantId := "tenant_id"; swift_ConfigStorageURL := "storage_url"; swift_ConfigAuthToken := "auth_token";
    AWS_ACCESS_KEY_ID := "AWS_ACCESS_KEY_ID"; AWS_SECRET_ACCESS_KEY := "AWS_SECRET_ACCESS_KEY";
    CA_CERT_DATA := "CA_CERT_DATA"; GOOGLE_PROJECT_ID := "GOOGLE_PROJECT_ID";
    GOOGLE_SERVICE_ACCOUNT_JSON_KEY := "GOOGLE_SERVICE_ACCOUNT_JSON_KEY";
    AZURE_ACCOUNT_NAME := "AZURE_ACCOUNT_NAME"; AZURE_ACCOUNT_KEY := "AZURE_ACCOUNT_KEY";
    OS_USERNAME := "OS_USERNAME"; OS_PASSWORD := "OS_PASSWORD"; OS_REGION_NAME := "OS_REGION_NAME";
    OS_AUTH_URL := "OS_AUTH_URL"; OS_USER_DOMAIN_NAME := "OS_USER_DOMAIN_NAME"; OS_PROJECT_NAME := "OS_PROJECT_NAME";
    OS_PROJECT_DOMAIN_NAME := "OS_PROJECT_DOMAIN_NAME"; OS_TENANT_ID := "OS_TENANT_ID";
    OS_TENANT_NAME := "OS_TENANT_NAME"; ST_AUTH := "ST_AUTH"; ST_USER := "ST_USER"; ST_KEY := "ST_KEY";
    OS_STORAGE_URL := "OS_STORAGE_URL"; OS_AUTH_TOKEN := "OS_AUTH_TOKEN" |}.
  apply (bool_decide_unpack _). vm_compute. exact I.
Defined.
(** A storage where every bucket can be written, and AWS in one region. *)
Definition osm_env_demo (W : Type) : OsmEnv W.
Proof.
  refine {|
    Location := (); Bucket := (); Session := ();
    stow_Dial _ _ := mret (inr ()); loc_Container _ _ := mret (inr ()); HasWriteAccess _ := mret None;
    session_NewSession := mret (inr ()); ec2metadata_Region _ := mret (inr "eu-west-1");
    session_NewSessionWithOptions _ := mret (inr ()); GetBucketLocation _ _ := mret (inr (Some ""));
    WithRegion c region := mkAwsConfig (aws_Credentials c) (Some region);
    types_StringP := Some; types_String := default "";
    stringz_Val s d := if decide (s = "") then d else s;
    url_error _ := None |}.
  reflexivity.
Defined.

#[local] Existing Instances osm_names_demo osm_env_demo object_store_default kube_errors_default.
#[local] Instance osm_client : Client api_world := api_server (λ _ _, None).
#[local] Instance osm_laws : @ClientLaws api_world kube_errors_default osm_client := api_server_laws (λ _ _, None).

(** A secret with keys for S3 and the keys of version 1 of Swift. *)
Definition demo_secret : Secret :=
  mkSecret (newObjectMeta "keys" "ns" ∅ [])
    (list_to_map [("AWS_ACCESS_KEY_ID", "id"); ("AWS_SECRET_ACCESS_KEY", "key"); ("CA_CERT_DATA", "cert");
                  ("ST_USER", "me"); ("ST_KEY", "pass"); ("ST_AUTH", "https://auth")]).
Definition demo_store : api_world := ({[ object_key (OSecret demo_secret) := OSecret demo_secret ]}, []).
Lemma demo_secret_stored : stored demo_store !! (kind_of Secret, ("ns", "keys")) = Some (OSecret demo_secret).
Proof. vm_compute. reflexivity. Qed.
Definition demo_s3 : S3Spec := mkS3Spec "HTTPS://minio:9000" "bucket" "".

Abbreviation demo_s3_run :=
  (NewOSMContext (mkBackend "keys" None (Some demo_s3) None None None) "ns" demo_store).
Lemma demo_s3_settings :
  match demo_s3_run with
  | Val (inr nc, _) => osm_Config nc !! "auth_type" = Some "accesskey" ∧ osm_Config nc !! "cacert_data" = Some "cert"
  | _ => False
  end.
Proof. vm_compute. split; reflexivity. Qed.
Lemma NewOSMContext_s3_witness :
  ∃ nc w', demo_s3_run = Val (inr nc, w') ∧ osm_Provider nc = "s3" ∧
    osm_Config nc !! "auth_type" = Some "accesskey" ∧ osm_Config nc !! "cacert_data" = Some "cert".
Proof.
  pose proof demo_s3_settings as Hnc.
  pose proof (NewOSMContext_s3 (mkBackend "keys" None (Some demo_s3) None None None) demo_s3 "ns" demo_store eq_refl) as Hs.
  unfold safe in Hs. revert Hnc Hs. generalize demo_s3_run. intros [[[e|nc] w']| |] Hnc Hs; [destruct Hnc| |destruct Hnc..].
  exists nc, w'. split; [reflexivity|]. split; [|exact Hnc]. exact (proj1 (Hs (inr nc) w' eq_refl nc eq_refl)).
Defined.

Lemma NewOSMContext_swift_witness :
  runs (NewOSMContext (mkBackend "keys" None None None None (Some "container")) "ns") demo_store
    (λ r _, ∀ nc, r = inr nc → osm_Config nc !! "username" = Some "" ∧ osm_Config nc !! "tenant_auth_url" = Some "").
Proof.
  eapply runs_mono.
  - apply (NewOSMContext_swift (mkBackend "keys" None None None None (Some "container")) "container" "ns" demo_store);
      reflexivity.
  - intros r w' Hr nc Hnc. destruct (Hr nc Hnc) as (_ & config & Hdata & ->).
    destruct Hdata as (s & Hs & <-).
    change (stored demo_store !! (kind_of Secret, ("ns", "keys")) = Some (OSecret s)) in Hs. rewrite demo_secret_stored in Hs. injection Hs as <-. split; vm_compute; reflexivity.
Defined.
