(* ===== verification/Backup.v ===== *)
(** [pkg/controller/redisclusterbackup] and [pkg/event]: one reconciliation of a
    [RedisClusterBackup]: its validation, the job that dumps every master, and the
    phases of the backup.

    The resource is a pointer the code writes through: it is an argument, and a result
    where the caller goes on with it.  Labels are never a nil map here: [ValidateBackup]
    makes one before they are written. *)

From Stdlib Require Import ZArith Lia.
From S2P Require Import Prelude GoStrings Errors Kube Utils Api Client Resources Ensurer Connections Status Sync Reconcile Osm.
From S2P Require Import Node.

Local Open Scope Z_scope.

(** event/event.go, and the event types of [corev1]. *)
Definition BackupError : string := "BakcupError".
Definition BackupFailed : string := "BakcupFailed".
Definition Starting : string := "Starting".
Definition BackupSuccessful : string := "SuccessfulBackup".
Definition EventTypeNormal : string := "Normal".
Definition EventTypeWarning : string := "Warning".
(** [batchv1.JobComplete], [JobFailed], [corev1.ConditionTrue] *)
Definition JobComplete : string := "Complete".
Definition JobFailed : string := "Failed".
Definition ConditionTrue : string := "True".

(** The rest of the world: the clock and the event recorder (object, type, reason,
    message). *)
Class BackupEnv (W : Type) := {
  backup_Now : W → Z;
  rec_Event : Object → string → string → string → M W ();
}.

(** ** helper.go *)

(** [isJobFinished] *)
Definition isJobFinished (j : Job) : bool :=
  existsb (λ c, (bool_decide (c.1 = JobComplete) || bool_decide (c.1 = JobFailed)) && bool_decide (c.2 = ConditionTrue))
    (job_Conditions j).

(** [upsertEnvVars] *)
Fixpoint upsert (vars : list EnvVar) (env : EnvVar) : list EnvVar :=
  match vars with
  | [] => [env]
  | v :: vars' => if decide (env_Name v = env_Name env) then env :: vars' else v :: upsert vars' env
  end.
Definition upsertEnvVars (vars nv : list EnvVar) : list EnvVar := foldl upsert vars nv.

(** [redisPassword]; without a secret it dereferences nil. *)
Definition backup_redisPassword (cluster : DistributedRedisCluster) : go EnvVar :=
  match PasswordSecret (Spec cluster) with
  | None => Panics
  | Some secretName => Val (mkEnvVar "REDIS_PASSWORD" "" (Some (mkEnvVarSource None (Some (secretName, "password")) None)))
  end.

(** ** redisclusterbackup_controller.go: the predicates and the list helpers *)

Definition contains (l : list string) (s : string) : bool := existsb (λ v, bool_decide (v = s)) l.
Definition isJobCompleted (newJob : Job) : bool := if isJobFinished newJob then true else false.

(** [remove]: the range keeps the array and the length [n] it starts with, while the body
    shifts the elements of that array and shortens [list] to [len].  Slicing past the
    length panics. *)
Fixpoint remove_loop (n i : nat) (array : list string) (len : nat) (s : string) : go (list string) :=
  match n with
  | O => Val (take len array)
  | S n' =>
      match array !! i with
      | None => Panics
      | Some v =>
          if decide (v = s) then
            if decide (len < i + 1)%nat then Panics
            else remove_loop n' (S i) (take i array ++ drop (S i) (take len array) ++ drop (len - 1) array) (len - 1) s
          else remove_loop n' (S i) array len s
      end
  end.
Definition remove (l : list string) (s : string) : go (list string) := remove_loop (length l) 0 l (length l) s.

(** The predicates on the events of backups. *)
Definition BackupUpdateFunc (isClusterScoped : bool) (metaOld metaNew : ObjectMeta) : bool :=
  if negb (ShoudManage isClusterScoped (om_Annotations metaNew)) then false
  else if decide (om_Generation metaOld ≠ om_Generation metaNew) then true else false.
Definition BackupDeleteFunc (isClusterScoped : bool) (meta : ObjectMeta) (deleteStateUnknown : bool) : bool :=
  if negb (ShoudManage isClusterScoped (om_Annotations meta)) then false else negb deleteStateUnknown.
Definition BackupCreateFunc (isClusterScoped : bool) (meta : ObjectMeta) : bool :=
  if negb (ShoudManage isClusterScoped (om_Annotations meta)) then false else true.

(** The predicates on the events of jobs. *)
Definition JobUpdateFunc (isClusterScoped : bool) (newJob : Job) : bool :=
  if negb (ShoudManage isClusterScoped (om_Annotations (job_meta newJob))) then false
  else if isJobCompleted newJob then true else false.
(** The object of a deletion may have another type. *)
Definition JobDeleteFunc (isClusterScoped : bool) (meta : ObjectMeta) (job : option Job) : bool :=
  if negb (ShoudManage isClusterScoped (om_Annotations meta)) then false
  else
    match job with
    | None => false
    | Some job =>
        if bool_decide (job_Succeeded job = 0) && (job_Failed job <=? Int32 (job_BackoffLimit job)) then true else false
    end.
Definition JobCreateFunc (isClusterScoped : bool) (job : Job) : bool :=
  if negb (ShoudManage isClusterScoped (om_Annotations (job_meta job))) then false
  else if (0 <? job_Succeeded job) || (Int32 (job_BackoffLimit job) <=? job_Failed job) then true else false.

Section backup.
Context `{MapRange} `{SortPkg} `{K8sApi} `{ObjectStore} `{KubeErrors}.
Context `{OsmNames} {W : Type} `{Client W} `{OsmEnv W} `{BackupEnv W}.
Variable isClusterScoped : bool.
Implicit Types (backup : RedisClusterBackup) (cluster : DistributedRedisCluster).

Definition bk_Name backup : string := om_Name (b_meta backup).
Definition bk_Namespace backup : string := om_Namespace (b_meta backup).

(** [markAsFailedBackup], [markAsIgnoredBackup] *)
Definition mark_backup (phase : string) backup (reason : string) : M W (RedisClusterBackup * option error) :=
  t ← gets backup_Now;
  UpdateCRStatus (backup <| b_Status := (b_Status backup) <| b_CompletionTime := Some t |>
    <| b_Phase := phase |> <| b_Reason := reason |> |>).
Definition markAsFailedBackup := mark_backup BackupPhaseFailed.
Definition markAsIgnoredBackup := mark_backup BackupPhaseIgnored.

(** [r.recorder.Event(backup, corev1.EventTypeWarning, reason, msg)], and the same with
    the error, which is returned. *)
Definition warn backup (reason msg : string) : M W () := rec_Event (OBackup backup) EventTypeWarning reason msg.
Definition warn_error backup (err : error) : M W (option error) :=
  warn backup BackupError (Error err);; mret (Some err).

(** [isBackupRunning] *)
Definition isBackupRunning backup : M W (error + bool) :=
  let labMap : label_map :=
    <[LabelBackupStatus := BackupPhaseRunning]> {[ LabelClusterName := b_RedisClusterName (b_Spec backup) ]} in
  backups ← client_List (T := RedisClusterBackup) (bk_Namespace backup) labMap;
  match backups with
  | inl err => mret (inl err)
  | inr backups =>
      let jobLabMap : label_map :=
        <[LabelClusterName := b_RedisClusterName (b_Spec backup)]> {[ AnnotationJobType := JobTypeBackup ]} in
      jobs ← ListJobByLabels (bk_Namespace backup) jobLabMap;
      match jobs with
      | inl err => mret (inl err)
      | inr jobs =>
          mret (inr (bool_decide (0 < length (backups : list RedisClusterBackup))%nat &&
                     bool_decide (0 < length (jobs : list Job))%nat))
      end
  end.

(** ** sync_handler.go *)

(** [ValidateBackup] *)
Definition ValidateBackup backup : M W (option error) :=
  match Validate backup with
  | Some err => mret (Some err)
  | None =>
      r ← GetDistributedRedisCluster (bk_Namespace backup) (b_RedisClusterName (b_Spec backup));
      mret match r with inl err => Some err | inr _ => None end
  end.

(** [delete(backup.GetLabels(), LabelBackupStatus); UpdateCR(backup)] *)
Definition set_labels (f : label_map → label_map) backup : RedisClusterBackup :=
  backup <| b_meta := (b_meta backup) <| om_Labels := f (om_Labels (b_meta backup)) |> |>.
Definition drop_status_label backup : M W (RedisClusterBackup * option error) :=
  UpdateCR (set_labels (delete LabelBackupStatus) backup).

(** ** The job *)

(** The container for a master. *)
Definition backup_container backup cluster (location folderName : string) (node : RedisClusterNode) (i : Z)
    : go Container :=
  let container := zero_Container
    <| c_Name := JobTypeBackup +:+ "-" +:+ FormatInt i |>
    <| c_Image := b_Image (b_Spec backup) |>
    <| c_ImagePullPolicy := "Always" |>
    <| c_Args := [JobTypeBackup; "--data-dir=" +:+ BackupDumpDir; "--location=" +:+ location;
                  "--host=" +:+ rcn_IP node; "--folder=" +:+ folderName;
                  "--snapshot=" +:+ bk_Name backup +:+ "-" +:+ FormatInt i; "--"] |>
    <| c_VolumeMounts := [mkVolumeMount UtilVolumeName BackupDumpDir "" false;
                          mkVolumeMount "rcloneconfig" SecretMountPath "" true] |> in
  let! container :=
    match PasswordSecret (Spec cluster) with
    | Some _ => let! env := backup_redisPassword cluster in Val (container <| c_Env := c_Env container ++ [env] |>)
    | None => Val container
    end in
  let container :=
    match be_Local (b_Backend (b_Spec backup)) with
    | Some l =>
        container <| c_VolumeMounts := c_VolumeMounts container ++
          [mkVolumeMount "local" (local_MountPath l) (local_SubPath l) false] |>
    | None => container
    end in
  Val match b_PodSpec (b_Spec backup) with
      | Some p =>
          container <| c_Resources := bp_Resources p |>
            <| c_LivenessProbe := ProbeCopied <$> bp_LivenessProbe p |>
            <| c_ReadinessProbe := ProbeCopied <$> bp_ReadinessProbe p |>
            <| c_Lifecycle := LifecycleCopied <$> bp_Lifecycle p |>
      | None => container
      end.

(** The loop of [backupContainers]: [i] containers are set. *)
Fixpoint backupContainers_loop backup cluster (location : string) (masterNum i : Z) (containers : list Container)
    (nodes : list RedisClusterNode) : M W (error + list Container) :=
  match nodes with
  | [] => mret (inr containers)
  | node :: nodes' =>
      if decide (rcn_Role node = RedisClusterNodeRoleMaster) then
        if decide (i = masterNum) then mret (inr containers)
        else
          r ← pure (RemotePath backup);
          match r with
          | (_, Some err) => warn backup BackupError (Error err);; mret (inl err)
          | (folderName, None) =>
              container ← pure (backup_container backup cluster location folderName node i);
              backupContainers_loop backup cluster location masterNum (i + 1)
                (<[Z.to_nat i := container]> containers) nodes'
          end
      else backupContainers_loop backup cluster location masterNum i containers nodes'
  end.
(** [backupContainers]; a negative number of masters panics in [make]. *)
Definition backupContainers backup cluster : M W (error + list Container) :=
  match Backend_Location (b_Backend (b_Spec backup)) with
  | inl err => mret (inl err)
  | inr location =>
      let masterNum := MasterSize (Spec cluster) in
      if decide (masterNum < 0) then panic
      else
        backupContainers_loop backup cluster location masterNum 0 (replicate (Z.to_nat masterNum) zero_Container)
          (ds_Nodes (drc_Status cluster))
  end.

(** The owner reference to the backup. *)
Definition backup_owner backup (controller : option bool) : OwnerReference :=
  mkOwnerReference (SchemeGroup +:+ "/" +:+ SchemeVersion) RedisClusterBackupKind (bk_Name backup)
    (om_UID (b_meta backup)) controller None.

(** [createPVCForBackup]; only called with a storage. *)
Definition createPVCForBackup backup (storage : RedisStorage) (jobName : string) : M W (option error) :=
  create_if_missing (GetPvc (bk_Namespace backup) jobName)
    (client_Create (mkPVC
       (newObjectMeta jobName (bk_Namespace backup) ∅ (if st_DeleteClaim storage then [backup_owner backup None] else []))
       ["ReadWriteOnce"] {[ "storage" := st_Size storage ]} (Some (st_Class storage)) (Some "Filesystem"))).

(** [GetVolumeForBackup] *)
Definition GetVolumeForBackup backup (jobName : string) : M W (error + Volume) :=
  match b_Storage (b_Spec backup) with
  | None => mret (inr (mkVolume UtilVolumeName VolEmptyDir))
  | Some storage =>
      if decide (st_Type storage = Ephemeral) then mret (inr (mkVolume UtilVolumeName VolEmptyDir))
      else
        err ← createPVCForBackup backup storage jobName;
        mret match err with
             | Some err => inl err
             | None => inr (mkVolume UtilVolumeName (VolPVC jobName))
             end
  end.

(** The job of [getBackupJob]. *)
Definition backup_job backup (containers : list Container) (persistentVolume : Volume) : Job :=
  let jobLabel : label_map :=
    <[LabelClusterName := b_RedisClusterName (b_Spec backup)]> {[ AnnotationJobType := JobTypeBackup ]} in
  let meta := newObjectMeta (JobName backup) (bk_Namespace backup) jobLabel [backup_owner backup (Some true)] in
  let meta :=
    if isClusterScoped
    then meta <| om_Annotations := <[AnnotationScope := AnnotationClusterScoped]> (om_Annotations meta) |>
    else meta in
  let spec := zero_PodSpec <| ps_Containers := containers |>
    <| ps_Volumes := [persistentVolume; mkVolume "rcloneconfig" (VolSecret (RCloneSecretName backup))] |>
    <| ps_RestartPolicy := "Never" |> in
  let spec :=
    match b_PodSpec (b_Spec backup) with
    | Some p =>
        spec <| ps_NodeSelector := bp_NodeSelector p |> <| ps_Affinity := AffinityCopied <$> bp_Affinity p |>
          <| ps_SchedulerName := bp_SchedulerName p |> <| ps_Tolerations := bp_Tolerations p |>
          <| ps_PriorityClassName := bp_PriorityClassName p |> <| ps_Priority := bp_Priority p |>
          <| ps_SecurityContext := bp_SecurityContext p |> <| ps_ImagePullSecrets := bp_ImagePullSecrets p |>
    | None => spec
    end in
  let spec :=
    match be_Local (b_Backend (b_Spec backup)) with
    | Some l => spec <| ps_Volumes := ps_Volumes spec ++ [mkVolume "local" (local_VolumeSource l)] |>
    | None => spec
    end in
  mkJob meta (b_ActiveDeadlineSeconds (b_Spec backup)) None spec [] 0 0.
(** [getBackupJob] *)
Definition getBackupJob backup cluster : M W (error + Job) :=
  r ← GetVolumeForBackup backup (JobName backup);
  match r with
  | inl err => mret (inl err)
  | inr persistentVolume =>
      r ← backupContainers backup cluster;
      mret match r with
           | inl err => inl err
           | inr containers => inr (backup_job backup containers persistentVolume)
           end
  end.

(** ** The phases *)

(** What [handleBackupJob] does with a backup that finds another one running. *)
Definition ignore_backup backup (msg : string) : M W (option error) :=
  r ← markAsIgnoredBackup backup msg;
  r ← drop_status_label (r : RedisClusterBackup * option error).1;
  match r with
  | (backup, Some err) => warn_error backup err
  | (backup, None) => warn backup BackupFailed msg;; mret None
  end.

(** The events at the end of a job. *)
Definition report_job backup cluster (jobSucceeded : bool) : M W () :=
  if jobSucceeded then
    rec_Event (OBackup backup) EventTypeNormal BackupSuccessful "Successfully completed backup";;
    rec_Event (OCluster cluster) EventTypeNormal BackupSuccessful "Successfully completed backup"
  else
    rec_Event (OBackup backup) EventTypeWarning BackupFailed "Failed to complete backup";;
    rec_Event (OCluster cluster) EventTypeWarning BackupFailed "Failed to complete backup".
(** The end of the job of this backup. *)
Definition complete_backup backup cluster (jobType : string) : M W (option error) :=
  let jobSucceeded := bool_decide (jobType = JobComplete) in
  t ← gets backup_Now;
  let status :=
    if jobSucceeded then (b_Status backup) <| b_Phase := BackupPhaseSucceeded |>
    else (b_Status backup) <| b_Phase := BackupPhaseFailed |> <| b_Reason := "run batch job failed" |> in
  r ← UpdateCRStatus (backup <| b_Status := status <| b_CompletionTime := Some t |> |>);
  match r with
  | (backup, Some err) => warn_error backup err
  | (backup, None) =>
      r ← drop_status_label backup;
      match r with
      | (backup, Some err) => warn_error backup err
      | (backup, None) => report_job backup cluster jobSucceeded;; mret None
      end
  end.
(** The loop over the owners of the job, which stops at the first backup. *)
Fixpoint handle_owners backup cluster (jobType : string) (owners : list OwnerReference) : M W (option error) :=
  match owners with
  | [] => mret None
  | o :: owners' =>
      if decide (or_Kind o = RedisClusterBackupKind) then
        if decide (or_Name o = bk_Name backup) then complete_backup backup cluster jobType
        else ignore_backup backup "One Backup is already Running"
      else handle_owners backup cluster jobType owners'
  end.
(** [handleBackupJob]; a job without conditions is indexed. *)
Definition handleBackupJob backup : M W (option error) :=
  r ← GetJob (bk_Namespace backup) (JobName backup);
  match r with
  | inl err =>
      if IsNotFound err then ignore_backup backup "One Backup is already Running, Job not found"
      else mret (Some err)
  | inr jobObj =>
      if negb (isJobFinished jobObj) then mret (Some (ErrText "wait for job Succeeded or Failed"))
      else
        r ← GetDistributedRedisCluster (bk_Namespace backup) (b_RedisClusterName (b_Spec backup));
        match r with
        | inl err => warn_error backup err
        | inr cluster =>
            match job_Conditions jobObj with
            | [] => panic
            | (jobType, _) :: _ => handle_owners backup cluster jobType (om_OwnerReferences (job_meta jobObj))
            end
        end
  end.

(** [r.markAsFailedBackup(backup, msg)], reported and not retried. *)
Definition fail_backup backup (msg : string) : M W (option error) :=
  r ← markAsFailedBackup backup msg;
  warn (r : RedisClusterBackup * option error).1 BackupFailed msg;; mret None.

(** The end of [create]: the backup is running, and its job is created. *)
Definition run_backup backup cluster (job : Job) : M W (option error) :=
  r ← UpdateCRStatus (backup <| b_Status := (b_Status backup) <| b_Phase := BackupPhaseRunning |>
        <| b_MasterSize := MasterSize (Spec cluster) |>
        <| b_ClusterReplicas := ClusterReplicas (Spec cluster) |>
        <| b_ClusterImage := Image (Spec cluster) |> |>);
  match r with
  | (backup, Some err) => warn backup BackupFailed (Error err);; mret (Some err)
  | (backup, None) =>
      r ← UpdateCR (set_labels (λ labels,
            <[LabelBackupStatus := BackupPhaseRunning]>
              (<[LabelClusterName := b_RedisClusterName (b_Spec backup)]> labels)) backup);
      match r with
      | (backup, Some err) => warn_error backup err
      | (backup, None) =>
          rec_Event (OBackup backup) EventTypeNormal Starting "Backup running";;
          err ← client_Create job;
          match err with
          | Some err => warn_error backup err
          | None => mret None
          end
      end
  end.

(** [if backup.Spec.Local == nil { osm.CheckBucketAccess(..) }] *)
Definition check_bucket backup : M W (option error) :=
  match be_Local (b_Backend (b_Spec backup)) with
  | None => CheckBucketAccess (b_Backend (b_Spec backup)) (bk_Namespace backup)
  | Some _ => mret None
  end.

(** The part of [create] for a backup that no other one precedes. *)
Definition start_backup backup : M W (option error) :=
  r ← GetDistributedRedisCluster (bk_Namespace backup) (b_RedisClusterName (b_Spec backup));
  match r with
  | inl err => warn_error backup err
  | inr cluster =>
      r ← NewRcloneSecret (RCloneSecretName backup) (bk_Namespace backup) (b_Backend (b_Spec backup))
            [backup_owner backup None];
      match r with
      | inl err => fail_backup backup ("Failed to generate rclone secret. Reason: " +:+ Error err)
      | inr secret =>
          err ← CreateSecret secret;
          match err with
          | Some err => warn_error backup err
          | None =>
              err ← check_bucket backup;
              match err with
              | Some err => fail_backup backup (Error err)
              | None =>
                  r ← getBackupJob backup cluster;
                  match r with
                  | inl err =>
                      let message := "Failed to create Backup Job. Reason: " +:+ Error err in
                      warn backup BackupError message;;
                      if IsRequestRetryable err then mret (Some err)
                      else r ← markAsFailedBackup backup message; mret (r : RedisClusterBackup * option error).2
                  | inr job => run_backup backup cluster job
                  end
              end
          end
      end
  end.

(** Backups that are over. *)
Definition is_completed backup : bool :=
  bool_decide (b_Phase (b_Status backup) = BackupPhaseFailed) ||
  bool_decide (b_Phase (b_Status backup) = BackupPhaseSucceeded) ||
  bool_decide (b_Phase (b_Status backup) = BackupPhaseIgnored).

(** [if backup.Status.StartTime == nil { ... }] *)
Definition set_start_time backup : M W (RedisClusterBackup * option error) :=
  match b_StartTime (b_Status backup) with
  | Some _ => mret (backup, None)
  | None =>
      t ← gets backup_Now;
      UpdateCRStatus (backup <| b_Status := (b_Status backup) <| b_StartTime := Some t |> |>)
  end.
(** [create], with the start time set. *)
Definition advance_backup backup : M W (option error) :=
  if is_completed backup then
    r ← drop_status_label backup;
    match r with
    | (backup, Some err) => warn_error backup err
    | (_, None) => mret None
    end
  else
    err ← ValidateBackup backup;
    match err with
    | Some err =>
        if IsRequestRetryable err then mret (Some err) else fail_backup backup (Error err)
    | None =>
        r ← isBackupRunning backup;
        match r with
        | inl err => warn_error backup err
        | inr true => handleBackupJob backup
        | inr false => start_backup backup
        end
    end.
Definition create backup : M W (option error) :=
  r ← set_start_time backup;
  match r with
  | (backup, Some err) => warn_error backup err
  | (backup, None) => advance_backup backup
  end.

(** [Reconcile] of the backup controller *)
Definition backup_Reconcile (namespace name : string) : M W (Result * option error) :=
  r ← client_Get (T := RedisClusterBackup) namespace name;
  match r with
  | inl err => if IsNotFound err then mret (no_result, None) else mret (no_result, Some err)
  | inr instance => err ← create instance; mret (no_result, err)
  end.
End backup.
