(* ===== verification/BackupProofs.v ===== *)
(** What a reconciliation of a backup does: the phases a backup goes through, and the
    containers of its job. *)

From Stdlib Require Import ZArith Lia.
From S2P Require Import Prelude GoStrings Errors Node Kube Utils Api Client Resources Ensurer Connections Status Sync.
From S2P Require Import Frame Progress Worlds Reconcile Osm Backup.

Local Open Scope Z_scope.

(** ** The list helper of the finalizers *)

Lemma remove_loop_absent n i array len s :
  (i + n ≤ length array)%nat → s ∉ take n (drop i array) → remove_loop n i array len s = Val (take len array).
Proof.
  revert i. induction n as [|n IH]; intros i Hlen Hs; cbn [remove_loop]; [done|].
  destruct (lookup_lt_is_Some_2 array i) as [v Hv]; [lia|]. rewrite Hv.
  rewrite (drop_S _ _ _ Hv) in Hs. cbn [take] in Hs. apply not_elem_of_cons in Hs as [Hne Hs].
  rewrite decide_False by done. apply IH; [lia|done].
Qed.
Lemma remove_loop_skip n l1 l2 len s :
  s ∉ l1 → remove_loop (length l1 + n) 0 (l1 ++ l2) len s = remove_loop n (length l1) (l1 ++ l2) len s.
Proof.
  intros Hs. assert (∀ pre, remove_loop (length l1 + n) (length pre) (pre ++ l1 ++ l2) len s =
    remove_loop n (length (pre ++ l1)) (pre ++ l1 ++ l2) len s) as Hg; [|by apply (Hg [])].
  induction l1 as [|v l1 IH]; intros pre; [by rewrite app_nil_r|]. apply not_elem_of_cons in Hs as [Hne Hs].
  cbn [length Nat.add remove_loop app]. rewrite list_lookup_middle, decide_False by done.
  specialize (IH Hs (pre ++ [v])). rewrite <- !(assoc_L (++)) in IH. rewrite length_app, Nat.add_1_r in IH. exact IH.
Qed.
(** [remove] takes out a string that occurs once. *)
Lemma remove_once l1 s l2 : s ∉ l1 → s ∉ l2 → remove (l1 ++ s :: l2) s = Val (l1 ++ l2).
Proof.
  intros H1 H2. unfold remove. rewrite length_app. cbn [length]. rewrite remove_loop_skip by done.
  cbn [remove_loop]. rewrite list_lookup_middle, decide_True, decide_False by (done || lia).
  rewrite take_app_length. rewrite (take_ge (l1 ++ s :: l2)) by (rewrite length_app; simpl; lia).
  replace (S (length l1)) with (length (l1 ++ [s])) at 2 by (rewrite length_app; simpl; lia).
  replace (l1 ++ s :: l2) with ((l1 ++ [s]) ++ l2) by by rewrite <- (assoc_L (++)).
  rewrite drop_app_length. set (rest := drop _ _).
  replace (length l1 + S (length l2) - 1)%nat with (length (l1 ++ l2)) by (rewrite length_app; lia).
  rewrite (assoc_L (++) l1 l2). rewrite remove_loop_absent.
  - by rewrite take_app_length.
  - rewrite !length_app. unfold rest. rewrite length_drop, !length_app. simpl. lia.
  - destruct l2 as [|y l2]; [by intros ?%elem_of_nil|]. intros Hin%subseteq_take. revert Hin.
    rewrite <- !(assoc_L (++)), drop_app_ge by lia. replace (S _ - _)%nat with 1%nat by lia. cbn [drop app].
    rewrite drop_0. unfold rest. rewrite drop_app_ge by (rewrite length_app; simpl; lia).
    rewrite length_app. replace (_ + _ - _ - _)%nat with (S (length l2) - 1)%nat by (simpl; lia).
    intros [Hin|Hin%subseteq_drop]%elem_of_app; apply H2; [by right|done].
Qed.
(** A string that occurs twice in a row is not: the second one stays, or the loop runs past the shortened
    list and panics. *)
Lemma remove_twice :
  remove ["a"; "a"; "b"] "a" = Val ["a"; "b"] ∧ remove ["a"; "a"] "a" = Panics.
Proof. done. Qed.

(** ** The containers of the job *)

Section containers.
Context `{ObjectStore} {W : Type} `{BackupEnv W}.
Implicit Types (backup : RedisClusterBackup) (cl : DistributedRedisCluster).

(** The masters of the status, in order. *)
Definition status_masters (nodes : list RedisClusterNode) : list RedisClusterNode :=
  filter (λ n, rcn_Role n = RedisClusterNodeRoleMaster) nodes.

Lemma backup_container_returns backup cl location folder node i :
  ∃ c, backup_container backup cl location folder node i = Val c ∧
    c_Name c = JobTypeBackup +:+ "-" +:+ FormatInt i ∧ ("--host=" +:+ rcn_IP node) ∈ c_Args c ∧
    ("--folder=" +:+ folder) ∈ c_Args c ∧ ("--snapshot=" +:+ bk_Name backup +:+ "-" +:+ FormatInt i) ∈ c_Args c.
Proof.
  unfold backup_container, backup_redisPassword.
  destruct (PasswordSecret (Spec cl)), (be_Local _), (b_PodSpec _); cbn [go_bind]; eexists; split; try done;
    cbn; split_and!; try done; set_solver.
Qed.

Lemma backupContainers_loop_spec backup cl location folder masterNum nodes i containers (w : W) :
  RemotePath backup = Val (folder, None) → 0 ≤ i ≤ masterNum → Z.of_nat (length containers) = masterNum →
  runs (backupContainers_loop backup cl location masterNum i containers nodes) w (λ r w', w' = w ∧ ∃ cs, r = inr cs ∧
    length cs = length containers ∧
    (∀ j : nat, Z.of_nat j < i → cs !! j = containers !! j) ∧
    ∀ (j : nat), i + Z.of_nat j < masterNum →
      match status_masters nodes !! j with
      | Some node => ∃ c, cs !! (Z.to_nat i + j)%nat = Some c ∧
          backup_container backup cl location folder node (i + Z.of_nat j) = Val c
      | None => cs !! (Z.to_nat i + j)%nat = containers !! (Z.to_nat i + j)%nat
      end).
Proof.
  intros Hpath. revert i containers. induction nodes as [|node nodes IH]; intros i containers Hi Hlen;
    cbn [backupContainers_loop].
  { apply runs_ret. split; [done|]. exists containers. by split_and!. }
  unfold status_masters. rewrite filter_cons.
  destruct (decide (rcn_Role node = RedisClusterNodeRoleMaster)); [|by apply IH].
  destruct (decide (i = masterNum)) as [->|Hne].
  { apply runs_ret. split; [done|]. exists containers. split_and!; [done..|]. intros. lia. }
  rewrite Hpath. apply runs_bind, runs_pure.
  destruct (backup_container_returns backup cl location folder node i) as (c & Hc & _). rewrite Hc.
  apply runs_bind, runs_pure. eapply runs_mono; [apply IH; [lia|by rewrite length_insert]|].
  intros r w' (-> & cs & -> & Hlcs & Hlow & Hhigh). split; [done|]. exists cs. split; [done|].
  rewrite length_insert in Hlcs. split; [done|]. split.
  - intros j Hj. rewrite Hlow by lia. apply list_lookup_insert_ne. lia.
  - intros [|j] Hj; cbn [lookup list_lookup].
    + exists c. rewrite !Nat.add_0_r, Z.add_0_r. split; [|done]. rewrite Hlow by lia.
      apply list_lookup_insert_eq. lia.
    + specialize (Hhigh j ltac:(lia)). replace (Z.to_nat i + S j)%nat with (Z.to_nat (i + 1) + j)%nat by lia.
      replace (i + Z.of_nat (S j)) with (i + 1 + Z.of_nat j) by lia. fold (status_masters nodes).
      destruct (status_masters nodes !! j) as [n|]; [done|].
      rewrite Hhigh. apply list_lookup_insert_ne. lia.
Qed.

(** C36: the job of a backup has one container per expected master: the i-th dumps the
    i-th master of the status, under its own snapshot name, into the folder of the
    backup; masters beyond the expected number are left out, and when the status has
    fewer masters than expected the last containers are empty.  Nothing panics. *)
Theorem backupContainers_one_per_master backup cl location folder (w : W) :
  Backend_Location (b_Backend (b_Spec backup)) = inr location → RemotePath backup = Val (folder, None) →
  0 ≤ MasterSize (Spec cl) →
  runs (backupContainers backup cl) w (λ r w', w' = w ∧ ∃ cs, r = inr cs ∧
    Z.of_nat (length cs) = MasterSize (Spec cl) ∧
    ∀ j : nat, Z.of_nat j < MasterSize (Spec cl) →
      match status_masters (ds_Nodes (drc_Status cl)) !! j with
      | Some node => ∃ c, cs !! j = Some c ∧ c_Name c = JobTypeBackup +:+ "-" +:+ FormatInt (Z.of_nat j) ∧
          ("--host=" +:+ rcn_IP node) ∈ c_Args c ∧ ("--folder=" +:+ folder) ∈ c_Args c ∧
          ("--snapshot=" +:+ bk_Name backup +:+ "-" +:+ FormatInt (Z.of_nat j)) ∈ c_Args c
      | None => cs !! j = Some zero_Container
      end).
Proof.
  intros Hloc Hpath Hm. unfold backupContainers. rewrite Hloc. destruct (decide (_ < 0)); [lia|].
  eapply runs_mono; [eapply backupContainers_loop_spec; [done|lia|]; rewrite length_replicate; lia|].
  intros r w' (-> & cs & -> & Hlen & _ & Hcs). split; [done|]. exists cs. split; [done|].
  rewrite length_replicate in Hlen. split; [lia|]. intros j Hj. specialize (Hcs j ltac:(lia)).
  change (Z.to_nat 0 + j)%nat with j in Hcs. destruct (status_masters _ !! j) as [node|].
  - destruct Hcs as (c & Hc & Hval). exists c. split; [done|].
    destruct (backup_container_returns backup cl location folder node (0 + Z.of_nat j)) as (c' & Hc' & Hargs).
    rewrite Hval in Hc'. by injection Hc' as <-.
  - rewrite Hcs. apply lookup_replicate_2. lia.
Qed.
End containers.

(** ** The phases *)

#[export] Instance backup_status : StatusPart (T := RedisClusterBackup) b_Status.
Proof.
  split.
  - intros [_ Hk]. by apply Hk.
  - intros old x y Hy. cbn in Hy. by injection Hy as ->.
  - intros old x y Hy. cbn in Hy. by injection Hy as ->.
Qed.
Abbreviation backup_at := (stored_at (T := RedisClusterBackup) b_Status).

(** The backup is over. *)
Definition over (st : RedisClusterBackupStatus) : Prop :=
  b_Phase st = BackupPhaseFailed ∨ b_Phase st = BackupPhaseSucceeded ∨ b_Phase st = BackupPhaseIgnored.

(** The job that the API server has for the backup: it is finished, its first condition
    is its completion, and the backup owns it. *)
Definition succeeded_job (ns name : string) (s : store) (job : Job) : Prop :=
  s !! (kind_of Job, (ns, "redisbackup-" +:+ name)) = Some (OJob job) ∧ isJobFinished job = true ∧
  (∃ status, head (job_Conditions job) = Some (JobComplete, status)) ∧
  ∃ o, o ∈ om_OwnerReferences (job_meta job) ∧ or_Kind o = RedisClusterBackupKind ∧ or_Name o = name.

(** The steps of a backup, with what the store [s] must have for them. *)
Inductive backup_step (s : store) (ns name : string) : relation RedisClusterBackupStatus :=
| backup_begins st t :
    b_StartTime st = None → backup_step s ns name st (st <| b_StartTime := Some t |>)
| backup_runs st clname cl :
    ¬ over st → s !! (DistributedRedisClusterKind, (ns, clname)) = Some (OCluster cl) →
    backup_step s ns name st
      (st <| b_Phase := BackupPhaseRunning |> <| b_MasterSize := MasterSize (Spec cl) |>
          <| b_ClusterReplicas := ClusterReplicas (Spec cl) |> <| b_ClusterImage := Image (Spec cl) |>)
| backup_succeeds st job t :
    ¬ over st → succeeded_job ns name s job →
    backup_step s ns name st (st <| b_Phase := BackupPhaseSucceeded |> <| b_CompletionTime := Some t |>)
| backup_ends st phase reason t :
    ¬ over st → phase = BackupPhaseFailed ∨ phase = BackupPhaseIgnored →
    backup_step s ns name st
      (st <| b_CompletionTime := Some t |> <| b_Phase := phase |> <| b_Reason := reason |>).

Lemma over_final s ns name st st' :
  rtc (backup_step s ns name) st st' → over st →
  b_Phase st' = b_Phase st ∧ b_CompletionTime st' = b_CompletionTime st ∧ b_Reason st' = b_Reason st.
Proof.
  induction 1 as [|st st1 st' Hstep _ IH]; intros Hover; [done|].
  destruct Hstep; [|done..]. destruct IH as (-> & -> & ->); done.
Qed.
Lemma is_completed_over backup : is_completed backup = true ↔ over (b_Status backup).
Proof. unfold is_completed, over. rewrite !orb_true_iff, !bool_decide_eq_true. tauto. Qed.

(** Nothing of the backups, the jobs and the clusters is written. *)
Definition quiet_kind (kind : string) : Prop :=
  kind = kind_of RedisClusterBackup ∨ kind = kind_of Job ∨ kind = kind_of DistributedRedisCluster.
Definition quiet {W} `{ClientLaws W} (w w' : W) : Prop := ∀ k, quiet_kind k.1 → stored w' !! k = stored w !! k.
(** What the rest of the world is assumed not to write. *)
Class BackupFrame {W} `{OsmEnv W} `{BackupEnv W} (R : relation W) := {
  frame_Event : ∀ o ty reason msg, keeps R (rec_Event o ty reason msg);
  frame_Dial : ∀ kind config, keeps R (stow_Dial kind config);
  frame_Container : ∀ loc name, keeps R (loc_Container loc name);
  frame_HasWriteAccess : ∀ c, keeps R (HasWriteAccess c);
  frame_NewSession : keeps R session_NewSession;
  frame_Region : ∀ s, keeps R (ec2metadata_Region s);
  frame_NewSessionWithOptions : ∀ c, keeps R (session_NewSessionWithOptions c);
  frame_GetBucketLocation : ∀ s bucket, keeps R (GetBucketLocation s bucket);
}.

Section quiet.
Context {W : Type} `{ClientLaws W}.

#[export] Instance quiet_preorder : PreOrder quiet.
Proof. split; [by intros w k|]. intros w1 w2 w3 H12 H23 k Hk. by rewrite H23, H12. Qed.
Lemma quiet_stored w w' : stored w' = stored w → quiet w w'.
Proof. intros Heq k _. by rewrite Heq. Qed.
#[export] Instance quiet_client : ClientFrame (λ _, False) (λ k, ¬ quiet_kind k.1) quiet.
Proof.
  split; intros T ?; [| | |done..].
  - intros ns name w. eapply safe_mono; [apply runs_safe, Get_law|]. intros r w' [Hw _]. by apply quiet_stored.
  - intros ns labels w. eapply safe_mono; [apply runs_safe, List_law|]. intros r w' [Hw _]. by apply quiet_stored.
  - intros x Hk w. eapply safe_mono; [apply runs_safe, Create_law|]. intros [e|] w' Hw; [by apply quiet_stored|].
    destruct Hw as [_ Hw]. intros k Hkind. rewrite Hw. apply lookup_insert_ne. by intros <-.
Qed.
#[export] Instance quiet_confined ns name : Confined b_Status ns name quiet (same_others b_Status ns name).
Proof.
  assert (∀ w w', quiet w w' → same_stored b_Status w w') as Hq.
  { intros w w' Hw ns' name'. unfold stored_at. rewrite Hw; [done|by left]. }
  split; [apply _| |intros; by apply (confined_read (R := same_stored b_Status))|
          intros; by eapply (confined_write (R := same_stored b_Status))].
  intros w w' Hw%Hq. by apply (confined_inner (R := same_stored b_Status)).
Qed.
End quiet.
#[export] Hint Resolve frame_Event frame_Dial frame_Container
  frame_HasWriteAccess frame_NewSession frame_Region frame_NewSessionWithOptions frame_GetBucketLocation : keeps.
#[export] Hint Extern 0 (BackupFrame _) => exact _ : keeps.

Section phases.
Context `{MapRange} `{SortPkg} `{K8sApi} `{ObjectStore}.
Context `{OsmNames} {W : Type} `{ClientLaws W} `{OsmEnv W} `{BackupEnv W}.
Variable isClusterScoped : bool.
Variables (w0 : W) (ns name : string) (st0 : RedisClusterBackupStatus).
(** What the calls that do not write the backup stay within, and the whole run: the
    claims and secrets of the namespace are made within [R], its job within [S]. *)
Context (new : string * (string * string) → Prop) (R S : relation W).
Context `{!PreOrder R} `{!ClientFrame (λ _, False) new R} `{!BackupFrame R}.
Context `{!Confined (T := RedisClusterBackup) b_Status ns name R S}.
Hypothesis R_quiet : ∀ w w', R w w' → quiet w w'.
Hypothesis new_Secret : ∀ n, new (kind_of Secret, (ns, n)).
Hypothesis new_PVC : ∀ n, new (kind_of PersistentVolumeClaim, (ns, n)).
Hypothesis S_Job : ∀ n o w w', stored w !! (kind_of Job, (ns, n)) = None →
  stored w' = <[(kind_of Job, (ns, n)) := o]> (stored w) → S w w'.
Implicit Types (x backup : RedisClusterBackup) (w : W).

Abbreviation step := (backup_step (stored w0) ns name).
Abbreviation adv := (advanced (T := RedisClusterBackup) b_Status step w0 ns name st0 S).

(** The status has advanced, and the jobs and clusters are as at the start. *)
Definition phase_inv x w : Prop :=
  adv x w ∧ ∀ k, k.1 = kind_of Job ∨ k.1 = kind_of DistributedRedisCluster → stored w !! k = stored w0 !! k.

Lemma phase_inv_world x w w' : R w w' → phase_inv x w → phase_inv x w'.
Proof.
  intros HR [Hadv Hfr]. split.
  - by eapply (advanced_world _ _ _ _ _ _ R S).
  - intros k Hk. rewrite (R_quiet _ _ HR) by (red; tauto). by apply Hfr.
Qed.
Lemma phase_inv_resource x x' w :
  phase_inv x w → key_of x' = key_of x → rtc step (b_Status x) (b_Status x') → phase_inv x' w.
Proof. intros [Hadv Hfr] Hk Hr. split; [by eapply advanced_resource|done]. Qed.
Lemma phase_inv_same x x' w : phase_inv x w → key_of x' = key_of x → b_Status x' = b_Status x → phase_inv x' w.
Proof. intros Hx Hk Hs. eapply phase_inv_resource; [exact Hx|done|]. by rewrite Hs. Qed.
Lemma phase_ns x w : phase_inv x w → bk_Namespace x = ns.
Proof. by intros [[[= Hns _] _] _]. Qed.

(** Writing the backup. *)
Lemma frozen_insert x o w w' k :
  k.1 = kind_of Job ∨ k.1 = kind_of DistributedRedisCluster →
  stored w' = <[key_of x := o]> (stored w) → stored w' !! k = stored w !! k.
Proof. intros Hk ->. apply lookup_insert_ne. intros <-. by destruct Hk. Qed.
Lemma UpdateCRStatus_phase x w :
  phase_inv x w → safe (UpdateCRStatus x) w (λ r w', phase_inv r.1 w' ∧ phase_inv x w').
Proof.
  intros [Hadv Hfr] r w' Hrun.
  destruct (UpdateCRStatus_advanced b_Status step w0 ns name st0 R S x w Hadv r w' Hrun) as (H1' & H2' & _).
  assert (∀ k, k.1 = kind_of Job ∨ k.1 = kind_of DistributedRedisCluster → stored w' !! k = stored w !! k) as Hst.
  { intros k Hk. pose proof (runs_safe _ _ _ (StatusUpdate_obj_law x w) _ _ Hrun) as Hw. cbn beta in Hw.
    destruct (r.2); [by destruct Hw as [_ ->]|]. destruct Hw as (old & _ & _ & Hw). by eapply frozen_insert. }
  split; (split; [done|]; intros k Hk; rewrite Hst by done; by apply Hfr).
Qed.
Lemma UpdateCR_phase x w : phase_inv x w → safe (UpdateCR x) w (λ r w', phase_inv r.1 w').
Proof.
  intros [Hadv Hfr] r w' Hrun. split; [exact (UpdateCR_advanced b_Status step w0 ns name st0 R S x w Hadv r w' Hrun)|].
  intros k Hk. rewrite <- Hfr by done. pose proof (runs_safe _ _ _ (Update_obj_law x w) _ _ Hrun) as Hw. cbn beta in Hw.
  destruct (r.2); [by destruct Hw as [_ ->]|]. destruct Hw as (old & _ & _ & Hw). by eapply frozen_insert.
Qed.

(** The end of the reconciliation. *)
Definition ended w : Prop := ∃ x, adv x w.
Lemma ended_intro x w : phase_inv x w → ended w.
Proof. intros [Hx _]. by exists x. Qed.
Hint Resolve ended_intro : core.

Lemma phase_bind {A B} (m : M W A) (k : A → M W B) x w Q :
  keeps R m → phase_inv x w → (∀ a w', phase_inv x w' → safe (k a) w' Q) → safe (m ≫= k) w Q.
Proof. apply safe_keeps. intros s s' HR. by apply phase_inv_world. Qed.
(** The same, with a property of the result. *)
Lemma phase_bind_post {A B} (P : A → Prop) (m : M W A) (k : A → M W B) x w Q :
  keeps R m → (∀ w, safe m w (λ a _, P a)) → phase_inv x w →
  (∀ a w', P a → phase_inv x w' → safe (k a) w' Q) → safe (m ≫= k) w Q.
Proof.
  intros Hm HP Hx Hk. apply safe_bind. intros a w' Ha. apply Hk; [exact (HP w a w' Ha)|].
  exact (phase_inv_world x w w' (Hm w a w' Ha) Hx).
Qed.
Hint Extern 0 (bk_Namespace _ = _) => eapply phase_ns; eassumption : keeps.

Ltac go :=
  cbv beta zeta; cbn [fst snd];
  lazymatch goal with
  | |- safe (mret _) _ _ => apply safe_ret; cbn [fst snd]; try done; eauto
  | |- safe panic _ _ => apply safe_panic
  | |- safe (match ?x with _ => _ end) _ _ => destruct x
  | Hx : phase_inv ?x ?w |- safe (?m ≫= _) ?w _ =>
      eapply (phase_bind m _ x w); [solve [keeps]|exact Hx|clear Hx; intros ? ? Hx]
  end.

Lemma drop_status_label_phase x w : phase_inv x w → safe (drop_status_label x) w (λ r w', phase_inv r.1 w').
Proof. intros Hx. apply UpdateCR_phase. by eapply phase_inv_same. Qed.
Lemma warn_error_phase x y err w : phase_inv x w → safe (warn_error y err) w (λ _ w', ended w').
Proof. intros Hx. unfold warn_error, warn. repeat go. Qed.
Lemma mark_backup_phase phase x reason w :
  ¬ over (b_Status x) → phase = BackupPhaseFailed ∨ phase = BackupPhaseIgnored → phase_inv x w →
  safe (mark_backup phase x reason) w (λ r w', phase_inv r.1 w').
Proof.
  intros Hno Hp Hx. unfold mark_backup. go. eapply safe_mono.
  - apply UpdateCRStatus_phase. eapply phase_inv_resource; [exact Hx|done|]. apply rtc_once. by constructor.
  - by intros r w2 [Hr _].
Qed.
Lemma ignore_backup_phase x msg w :
  ¬ over (b_Status x) → phase_inv x w → safe (ignore_backup x msg) w (λ _ w', ended w').
Proof.
  intros Hno Hx. unfold ignore_backup. apply safe_bind. eapply safe_mono.
  { apply mark_backup_phase; [done|by right|done]. }
  intros r w1 Hr. apply safe_bind. eapply safe_mono; [by apply drop_status_label_phase|].
  clear Hx Hr. intros [x' [e|]] w2 Hx; cbn [fst] in Hx; [by eapply warn_error_phase|]. unfold warn. repeat go.
Qed.
Lemma fail_backup_phase x msg w :
  ¬ over (b_Status x) → phase_inv x w → safe (fail_backup x msg) w (λ _ w', ended w').
Proof.
  intros Hno Hx. unfold fail_backup. apply safe_bind. eapply safe_mono.
  { apply mark_backup_phase; [done|by left|done]. }
  intros r w1 Hr. cbv beta in Hr. unfold warn. repeat go.
Qed.

(** The loop over the owners of a finished job. *)
Lemma complete_backup_phase x cl jobType w :
  ¬ over (b_Status x) →
  (jobType = JobComplete → ∃ job, succeeded_job ns name (stored w0) job) →
  phase_inv x w → safe (complete_backup x cl jobType) w (λ _ w', ended w').
Proof.
  intros Hno Hjob Hx. unfold complete_backup. go. apply safe_bind. eapply safe_mono.
  { apply UpdateCRStatus_phase. eapply phase_inv_resource; [exact Hx|done|]. apply rtc_once.
    destruct (bool_decide_reflect (jobType = JobComplete)) as [Hc|].
    - destruct (Hjob Hc) as [job Hj]. by eapply backup_succeeds.
    - apply (backup_ends _ _ _ (b_Status x)); [done|by left]. }
  clear Hx. intros [x' [e|]] w2 [Hx _]; cbn [fst] in Hx; [by eapply warn_error_phase|].
  apply safe_bind. eapply safe_mono; [by apply drop_status_label_phase|].
  clear Hx. intros [x3 [e|]] w3 Hx; cbn [fst] in Hx; [by eapply warn_error_phase|].
  unfold report_job. repeat go.
Qed.
Lemma handle_owners_phase x cl jobType owners w :
  ¬ over (b_Status x) →
  (jobType = JobComplete → (∃ o, o ∈ owners ∧ or_Kind o = RedisClusterBackupKind ∧ or_Name o = bk_Name x) →
   ∃ job, succeeded_job ns name (stored w0) job) →
  phase_inv x w → safe (handle_owners x cl jobType owners) w (λ _ w', ended w').
Proof.
  intros Hno. induction owners as [|o owners IH]; intros Hjob Hx; cbn [handle_owners]; [apply safe_ret; eauto|].
  destruct (decide (or_Kind o = _)) as [Hk|]; [destruct (decide (or_Name o = _)) as [Hn|]|].
  - apply complete_backup_phase; [done| |done]. intros Hc. apply Hjob; [done|]. exists o. split; [by left|done].
  - by apply ignore_backup_phase.
  - apply IH; [|done]. intros Hc (o' & Ho' & Hrest). apply Hjob; [done|]. exists o'. split; [by right|done].
Qed.
Lemma handleBackupJob_phase x w :
  ¬ over (b_Status x) → phase_inv x w → safe (handleBackupJob x) w (λ _ w', ended w').
Proof.
  intros Hno Hx. unfold handleBackupJob, GetJob.
  pose proof Hx as [(Hkey & _) Hfr]. apply safe_bind.
  intros r w1 Hget. assert (phase_inv x w1) as Hx1.
  { eapply phase_inv_world; [exact (frame_Get _ _ w _ _ Hget)|done]. }
  pose proof (runs_safe _ _ _ (Get_law _ _ w) _ _ Hget) as Hlaw. cbn beta in Hlaw. destruct Hlaw as [_ Hjob].
  destruct r as [e|job]; [destruct (IsNotFound e); [by apply ignore_backup_phase|apply safe_ret; eauto]|].
  destruct (isJobFinished job) eqn:Hfin; cbn [negb]; [|apply safe_ret; eauto].
  clear Hx Hget. unfold GetDistributedRedisCluster. go. destruct a as [e|cl]; [by eapply warn_error_phase|].
  destruct (job_Conditions job) as [|[jobType status] conds] eqn:Hconds; [apply safe_panic|].
  apply handle_owners_phase; [done| |done]. intros -> (o & Ho & Hk & Hn). exists job.
  injection Hkey as Hns Hname. unfold bk_Namespace, bk_Name in *. split_and!; [|done|by eexists; rewrite Hconds|].
  - rewrite <- Hfr by by left. unfold JobName in Hjob. by rewrite <- Hns, <- Hname.
  - exists o. by rewrite <- Hname.
Qed.

(** Starting the backup. *)
Lemma keeps_backupContainers_loop x cl location n i l nodes :
  keeps R (backupContainers_loop x cl location n i l nodes).
Proof.
  revert i l. induction nodes as [|node nodes IH]; intros i l; cbn [backupContainers_loop]; unfold warn; keeps.
Qed.
Hint Resolve keeps_backupContainers_loop : keeps.
Lemma keeps_backupContainers x cl : keeps R (backupContainers x cl).
Proof. unfold backupContainers. keeps. Qed.
Hint Resolve keeps_backupContainers : keeps.
Lemma keeps_createPVC x storage n : bk_Namespace x = ns → keeps R (createPVCForBackup x storage n).
Proof.
  intros Hns. apply (keeps_create_if_missing R); [unfold GetPvc; keeps|].
  apply frame_Create. unfold key_of, object_key. cbn. rewrite Hns. apply new_PVC.
Qed.
Hint Resolve keeps_createPVC : keeps.
Lemma keeps_getBackupJob x cl : bk_Namespace x = ns → keeps R (getBackupJob isClusterScoped x cl).
Proof. intros Hns. unfold getBackupJob, GetVolumeForBackup. keeps. Qed.
Lemma getBackupJob_key x cl w :
  safe (getBackupJob isClusterScoped x cl) w (λ r _, match r with
    | inr job => key_of job = (kind_of Job, (bk_Namespace x, JobName x)) | inl _ => True end).
Proof.
  unfold getBackupJob. apply safe_bind. eapply safe_mono; [apply safe_true|]. intros [e|v] w1 _; [by apply safe_ret|].
  apply safe_bind. eapply safe_mono; [apply safe_true|]. intros [e|cs] w2 _; apply safe_ret; [done|].
  unfold backup_job, key_of, object_key. cbn. by destruct isClusterScoped.
Qed.
Lemma keeps_NewRcloneSecret n ns' spec owners : keeps R (NewRcloneSecret n ns' spec owners).
Proof. unfold NewRcloneSecret, newContext. keeps. Qed.
Lemma NewRcloneSecret_key n ns' spec owners w :
  safe (NewRcloneSecret (W := W) n ns' spec owners) w (λ r _, match r with
    | inr secret => key_of secret = (kind_of Secret, (ns', n)) | inl _ => True end).
Proof.
  unfold NewRcloneSecret. apply safe_bind. eapply safe_mono; [apply safe_true|].
  intros [e|ctx] w' _; by apply safe_ret.
Qed.
Lemma keeps_CreateSecret secret n : key_of secret = (kind_of Secret, (ns, n)) → keeps R (CreateSecret secret).
Proof. intros Hk. unfold CreateSecret. keeps. apply frame_Create. rewrite Hk. apply new_Secret. Qed.
Lemma keeps_CheckBucketAccess spec ns' : keeps R (CheckBucketAccess spec ns').
Proof. unfold CheckBucketAccess, NewOSMContext, osm_secret, s3_context, s3_region, aws_session. keeps. Qed.
Hint Resolve keeps_getBackupJob keeps_NewRcloneSecret keeps_CheckBucketAccess : keeps.

Lemma run_backup_phase x cl clname job n w :
  ¬ over (b_Status x) → stored w0 !! (DistributedRedisClusterKind, (ns, clname)) = Some (OCluster cl) →
  key_of job = (kind_of Job, (ns, n)) →
  phase_inv x w → safe (run_backup x cl job) w (λ _ w', ended w').
Proof.
  intros Hno Hcl Hjob Hx. unfold run_backup. apply safe_bind. eapply safe_mono.
  { apply UpdateCRStatus_phase. eapply phase_inv_resource; [exact Hx|done|]. apply rtc_once. by eapply backup_runs. }
  clear Hx. intros [x' [e|]] w2 [Hx _]; cbn [fst] in Hx; [unfold warn; repeat go|].
  apply safe_bind. eapply safe_mono; [apply UpdateCR_phase; by eapply phase_inv_same|].
  clear Hx. intros [x3 [e|]] w3 Hx; cbn [fst] in Hx; [by eapply warn_error_phase|].
  go. destruct Hx as [Hadv _]. apply safe_bind. intros e w4 He.
  pose proof (runs_safe _ _ _ (Create_law job w') _ _ He) as Hw. cbn beta in Hw.
  assert (adv x3 w4) as Hadv4.
  { destruct e as [e|]; [by eapply (advanced_read _ _ _ _ _ _ R S)|]. destruct Hw as [Hnone Hw]. rewrite Hjob in Hnone, Hw.
    destruct Hadv as (Hk & (r & Hr & Hrtc) & HS). split; [done|]. split.
    - exists r. split; [|done]. unfold stored_at. rewrite Hw, lookup_insert_ne by done. exact Hr.
    - etrans; [exact HS|]. by eapply S_Job. }
  destruct e as [e|]; [|apply safe_ret; by exists x3].
  unfold warn_error, warn. apply safe_bind. intros u w5 Hw5%frame_Event. apply safe_ret. exists x3.
  by eapply (advanced_world _ _ _ _ _ _ R S).
Qed.
Lemma start_backup_phase x w :
  ¬ over (b_Status x) → phase_inv x w → safe (start_backup isClusterScoped x) w (λ _ w', ended w').
Proof.
  intros Hno Hx. unfold start_backup, GetDistributedRedisCluster.
  pose proof Hx as [_ Hfr]. pose proof (phase_ns _ _ Hx) as Hns. apply safe_bind.
  intros r w1 Hget. assert (phase_inv x w1) as Hx1.
  { eapply phase_inv_world; [exact (frame_Get _ _ w _ _ Hget)|done]. }
  pose proof (runs_safe _ _ _ (Get_law _ _ w) _ _ Hget) as Hlaw. cbn beta in Hlaw. destruct Hlaw as [_ Hcl].
  destruct r as [e|cl]; [by eapply warn_error_phase|]. clear Hx Hget.
  rewrite Hfr, Hns in Hcl by by right.
  eapply phase_bind_post; [keeps|apply NewRcloneSecret_key|done|]. clear Hx1. intros [e|secret] w2 Hk Hx;
    [by apply fail_backup_phase|]. rewrite Hns in Hk.
  eapply phase_bind; [by eapply keeps_CreateSecret|done|]. clear Hx. intros [e|] w3 Hx; [by eapply warn_error_phase|].
  unfold check_bucket. go. destruct a as [e|]; [by apply fail_backup_phase|].
  eapply phase_bind_post; [keeps|apply getBackupJob_key|done|]. clear Hx. intros [e|job] w4 Hjob Hx;
    [|rewrite Hns in Hjob; by eapply run_backup_phase].
  unfold warn. go. destruct (IsRequestRetryable e); [apply safe_ret; eauto|].
  apply safe_bind. eapply safe_mono; [apply mark_backup_phase; [done|by left|done]|].
  intros r w5 Hr. apply safe_ret. exact (ended_intro _ _ Hr).
Qed.

Lemma advance_backup_phase x w : phase_inv x w → safe (advance_backup isClusterScoped x) w (λ _ w', ended w').
Proof.
  intros Hx. unfold advance_backup. destruct (is_completed x) eqn:Hc.
  - apply safe_bind. eapply safe_mono; [by apply drop_status_label_phase|].
    clear Hx. intros [x' [e|]] w1 Hx; cbn [fst] in Hx; [by eapply warn_error_phase|]. apply safe_ret. eauto.
  - assert (¬ over (b_Status x)) as Hno by by rewrite <- is_completed_over, Hc.
    unfold ValidateBackup, GetDistributedRedisCluster. apply safe_bind.
    eapply (safe_mono _ _ (λ _ w', phase_inv x w')).
    { destruct (Validate x); [by apply safe_ret|]. go. by apply safe_ret. }
    clear Hx. intros e w1 Hx. cbv beta in Hx. destruct e as [e|].
    + destruct (IsRequestRetryable e); [apply safe_ret; eauto|by apply fail_backup_phase].
    + unfold isBackupRunning, ListJobByLabels. apply safe_bind. eapply (safe_mono _ _ (λ _ w', phase_inv x w')).
      { repeat go. }
      clear Hx. intros [e|[|]] w2 Hx; cbv beta in Hx;
        [by eapply warn_error_phase|by apply handleBackupJob_phase|by apply start_backup_phase].
Qed.
Lemma create_phase x w : phase_inv x w → safe (create isClusterScoped x) w (λ _ w', ended w').
Proof.
  intros Hx. unfold create, set_start_time. apply safe_bind. eapply (safe_mono _ _ (λ r w', phase_inv r.1 w')).
  - destruct (b_StartTime (b_Status x)) eqn:Ht; [by apply safe_ret|]. go. eapply safe_mono.
    + apply UpdateCRStatus_phase. eapply phase_inv_resource; [exact Hx|done|]. apply rtc_once. by constructor.
    + by intros r w2 [Hr _].
  - clear Hx. intros [x' [e|]] w1 Hx; cbn [fst] in Hx; [by eapply warn_error_phase|by apply advance_backup_phase].
Qed.
End phases.

Section run.
Context `{MapRange} `{SortPkg} `{K8sApi} `{ObjectStore}.
Context `{OsmNames} {W : Type} `{ClientLaws W} `{OsmEnv W} `{BackupEnv W}.

(** The whole run, from a stored backup. *)
Lemma backup_Reconcile_ended new (R S : relation W) isClusterScoped ns name (w : W) st0
    `{!PreOrder R} `{!ClientFrame (λ _, False) new R} `{!BackupFrame R}
    `{!Confined (T := RedisClusterBackup) b_Status ns name R S} :
  (∀ w w', R w w' → quiet w w') →
  (∀ n, new (kind_of Secret, (ns, n))) → (∀ n, new (kind_of PersistentVolumeClaim, (ns, n))) →
  (∀ n o w w', stored w !! (kind_of Job, (ns, n)) = None →
     stored w' = <[(kind_of Job, (ns, n)) := o]> (stored w) → S w w') →
  backup_at ns name w = Some st0 →
  safe (backup_Reconcile isClusterScoped ns name) w (λ _ w', ended w ns name st0 S w').
Proof.
  intros HR Hsecret Hpvc Hjob Hst0. unfold backup_Reconcile.
  pose proof Hst0 as (x0 & Hx0 & _)%stored_at_Some.
  assert (phase_inv w ns name st0 S x0 w) as Hx.
  { split; [by apply (advanced_start _ _ _ _ _ _ R S)|done]. }
  apply safe_bind. intros r w1 Hget.
  assert (phase_inv w ns name st0 S x0 w1) as Hx1.
  { eapply (phase_inv_world _ _ _ _ R S); [done|exact (frame_Get _ _ w _ _ Hget)|done]. }
  pose proof (runs_safe _ _ _ (Get_law _ _ w) _ _ Hget) as Hlaw. cbn beta in Hlaw. destruct Hlaw as [_ Hr].
  destruct r as [e|x].
  { destruct (IsNotFound e); apply safe_ret; by eapply ended_intro. }
  rewrite Hx0 in Hr. injection Hr as <-.
  apply safe_bind. eapply safe_mono; [by eapply (create_phase _ _ _ _ _ new R S)|]. intros e w2 He. by apply safe_ret.
Qed.
End run.

Section machine.
Context `{MapRange} `{SortPkg} `{K8sApi} `{ObjectStore}.
Context `{OsmNames} {W : Type} `{ClientLaws W} `{OsmEnv W} `{BackupEnv W} `{!BackupFrame (W := W) quiet}.

(** C18: a reconciliation moves the stored status of its backup only along the steps of
    the machine, whatever fails on the way: the start is recorded once; a backup that is
    not over begins to run with the sizes and the image of a stored cluster of its
    namespace, fails or is ignored, or succeeds, and then only when the API server has a
    finished job of its name that it owns and whose first condition is its completion.
    A backup that is over keeps its phase, its reason and its completion time.  The
    statuses of the other backups are not changed. *)
Theorem backup_Reconcile_phases isClusterScoped ns name (w : W) st0 :
  backup_at ns name w = Some st0 →
  safe (backup_Reconcile isClusterScoped ns name) w (λ _ w',
    (∃ st, backup_at ns name w' = Some st ∧ rtc (backup_step (stored w) ns name) st0 st ∧
       (over st0 → b_Phase st = b_Phase st0 ∧ b_CompletionTime st = b_CompletionTime st0 ∧ b_Reason st = b_Reason st0)) ∧
    ∀ ns' name', (ns', name') ≠ (ns, name) → backup_at ns' name' w' = backup_at ns' name' w).
Proof.
  intros Hst0. eapply safe_mono.
  { apply (backup_Reconcile_ended (λ k, ¬ quiet_kind k.1) quiet (same_others b_Status ns name)); try apply _; try done.
    1,2: intros n [|[|]]; discriminate.
    intros n o w1 w2 _ Hw ns' name' _. unfold stored_at. by rewrite Hw, lookup_insert_ne. }
  intros ? w' (x & _ & (st & Hst & Hrtc & _) & Hother). split; [|exact Hother]. exists st. split_and!; [done..|].
  intros Hover. by eapply over_final.
Qed.
End machine.

(** ** A backup in the concrete world *)

#[local] Existing Instances range_default sort_default k8s_default object_store_default kube_errors_default osm_names_demo osm_env_demo.

#[local] Instance demo_backup_env : BackupEnv demo_world := {|
  backup_Now _ := 1600000000000000000;
  rec_Event _ _ _ _ := mret ();
|}.
#[local] Instance demo_backup_frame : BackupFrame (W := demo_world) quiet.
Proof. split; intros; apply keeps_ret; apply _. Qed.

Definition new_backup : RedisClusterBackup :=
  mkRedisClusterBackup (newObjectMeta "dump" "ns" ∅ [])
    (mkBackupSpec "agent" "cache" None (mkBackend "" None (Some (mkS3Spec "http://s3" "bucket" "")) None None None) None None)
    (mkBackupStatus None None "" "" 0 0 "").
Definition demo_master : RedisClusterNode :=
  mkRedisClusterNode "a" RedisClusterNodeRoleMaster "10.0.0.1" "6379" [] "" "drc-cache-0-0" "" "drc-cache-0".
Definition demo_cluster : DistributedRedisCluster :=
  mkDRC (newObjectMeta "cache" "ns" ∅ []) (demo_spec <| Image := "redis:5" |>)
    ((demo_status "") <| ds_Nodes := [demo_master] |>).
Definition demo_backups : demo_world := world_with [OCluster demo_cluster; OBackup new_backup].
Definition running_status : RedisClusterBackupStatus :=
  mkBackupStatus (Some 1600000000000000000) None BackupPhaseRunning "" 3 1 "redis:5".
Abbreviation demo_backup_run := (backup_Reconcile true "ns" "dump" demo_backups).

Lemma demo_backup_status :
  match demo_backup_run with Val (r, w') => r = (no_result, None) ∧ backup_at "ns" "dump" w' = Some running_status | _ => False end.
Proof. vm_compute. split; reflexivity. Qed.

Lemma backup_Reconcile_phases_witness :
  ∃ w', demo_backup_run = Val ((no_result, None), w') ∧ backup_at "ns" "dump" w' = Some running_status ∧
    rtc (backup_step (stored demo_backups) "ns" "dump") (b_Status new_backup) running_status.
Proof.
  pose proof demo_backup_status as Hat.
  assert (backup_at "ns" "dump" demo_backups = Some (b_Status new_backup)) as Hstart by (vm_compute; reflexivity).
  pose proof (backup_Reconcile_phases true "ns" "dump" demo_backups (b_Status new_backup) Hstart) as Hsafe.
  unfold safe in Hsafe. revert Hat Hsafe. generalize demo_backup_run. intros [[r w']| |] Hat Hsafe; [|destruct Hat..].
  destruct Hat as [-> Hat]. exists w'. split; [reflexivity|]. split; [exact Hat|].
  destruct (Hsafe (no_result, None) w' eq_refl) as [(st & Hst & Hrtc & _) _].
  rewrite Hat in Hst. injection Hst as <-. exact Hrtc.
Defined.

Lemma backupContainers_one_per_master_witness :
  let backup := set_field b_Status (λ _, running_status) new_backup in
  @runs demo_world _ (backupContainers backup demo_cluster) demo_backups (λ r _, ∃ cs, r = inr cs ∧
    Z.of_nat (length cs) = 3 ∧ (∃ c, cs !! 0%nat = Some c ∧ ("--host=10.0.0.1") ∈ c_Args c) ∧
    cs !! 1%nat = Some zero_Container).
Proof.
  intros backup. eapply runs_mono.
  - apply (backupContainers_one_per_master backup demo_cluster "s3:bucket" "redis/ns/cache/20200913122640").
    + reflexivity.
    + vm_compute. reflexivity.
    + vm_compute. discriminate.
  - intros r w' (_ & cs & Hr & Hlen & Hcs). exists cs. split; [exact Hr|]. split; [exact Hlen|]. split.
    + destruct (Hcs 0%nat ltac:(vm_compute; reflexivity)) as (c & Hc & _ & Hhost & _). exists c. split; [exact Hc|exact Hhost].
    + exact (Hcs 1%nat ltac:(vm_compute; reflexivity)).
Defined.
