(* ===== verification/Isolation.v ===== *)
(** What a reconciliation may touch: whatever fails, the reconciliation of a cluster
    changes no stored object but those of that cluster, and that of a backup changes no
    object but the backup. *)

From Stdlib Require Import ZArith Lia.
From S2P Require Import Prelude GoStrings Errors Slot Node ClusterInfo AdminInterface Clustering Migration Rebalance.
From S2P Require Import Kube Utils Api Client Heal Resources Ensurer Connections Status Sync Frame Progress Worlds.
From S2P Require Import Reconcile ReconcileProofs Osm Backup BackupProofs.

Local Open Scope Z_scope.

(** ** The objects of a cluster *)

(** The keys of the objects that a reconciliation of the cluster may change or delete:
    the StatefulSets and disruption budgets by number, the two configuration maps, the
    services of the numbers (when scaling down), and pods and claims of the namespace,
    which it finds through labels and through the nodes. *)
Inductive owned (ns name : string) : string * (string * string) → Prop :=
| owned_StatefulSet i : owned ns name (kind_of AppsStatefulSet, (ns, ClusterStatefulSetName name i))
| owned_PDB i : owned ns name (kind_of PodDisruptionBudget, (ns, ClusterStatefulSetName name i))
| owned_ConfigMap : owned ns name (kind_of ConfigMap, (ns, RedisConfigMapName name))
| owned_RestoreConfigMap : owned ns name (kind_of ConfigMap, (ns, RestoreConfigMapName name))
| owned_Service i : owned ns name (kind_of Service, (ns, ClusterHeadlessSvcName name i))
| owned_Pod n : owned ns name (kind_of Pod, (ns, n))
| owned_PVC n : owned ns name (kind_of PersistentVolumeClaim, (ns, n)).
(** Those it may create: also the services and the secret, whose names come from the
    specification. *)
Inductive creatable (ns name : string) : string * (string * string) → Prop :=
| creatable_owned k : owned ns name k → creatable ns name k
| creatable_Service n : creatable ns name (kind_of Service, (ns, n))
| creatable_Secret n : creatable ns name (kind_of Secret, (ns, n)).

Lemma owned_footprint ns name : footprint (owned ns name) (creatable ns name) ns name.
Proof.
  split; intros; first [apply creatable_Service|apply creatable_Secret|by constructor|by constructor; constructor].
Qed.
Lemma creatable_kind ns name k : creatable ns name k → generated k.
Proof. destruct 1 as [k Hk| |]; [destruct Hk|..]; split; discriminate. Qed.

Lemma creatable_spec ns name k : creatable ns name k → k.2.1 = ns ∧ k.1 ≠ kind_of Job.
Proof. destruct 1 as [k Hk| |]; [destruct Hk|..]; done. Qed.

Lemma creatable_StatefulSet ns name n :
  creatable ns name (kind_of AppsStatefulSet, (ns, n)) → ∃ i, n = ClusterStatefulSetName name i.
Proof.
  remember (kind_of AppsStatefulSet, (ns, n)) as k eqn:Hk.
  destruct 1 as [k Hown| |]; [|done..]. destruct Hown; try done. injection Hk as <-. by eexists.
Qed.

(** *** The names of StatefulSets *)

Lemma last_separator c s1 s2 d1 d2 :
  has_byte c d1 = false → has_byte c d2 = false → s1 +:+ String c d1 = s2 +:+ String c d2 → s1 = s2.
Proof.
  intros Hd1 Hd2 Heq. pose proof (LastIndex_app s1 d1 c Hd1) as Hl. rewrite Heq, LastIndex_app in Hl by done.
  injection Hl as Hl. by rewrite <- (slice_to_app s1 (String c d1)), Heq, <- Hl, slice_to_app.
Qed.
Lemma has_dash_FormatUint i : 0 ≤ i → has_byte "-" (FormatUint i) = false.
Proof. intros. by apply has_byte_FormatUint. Qed.
(** Clusters whose names do not end in a dash, as those of Kubernetes, have StatefulSets
    of different names. *)
Lemma ClusterStatefulSetName_cluster name name' i j :
  0 ≤ j → HasSuffix name' "-" = false →
  ClusterStatefulSetName name i = ClusterStatefulSetName name' j → name = name'.
Proof.
  intros Hj Hdash Heq. unfold ClusterStatefulSetName in Heq.
  change ("-" +:+ FormatInt i) with (String "-" (FormatInt i)) in Heq.
  change ("-" +:+ FormatInt j) with (String "-" (FormatInt j)) in Heq.
  assert (FormatInt j = FormatUint j) as Hjs by (unfold FormatInt; by rewrite decide_False by lia).
  rewrite Hjs in Heq. unfold FormatInt in Heq. destruct (decide (i < 0)) as [Hi|Hi].
  - exfalso.
    assert (("drc-" +:+ name +:+ "-") +:+ String "-" (FormatUint (- i)) =
            ("drc-" +:+ name') +:+ String "-" (FormatUint j)) as H'.
    { rewrite !string_app_assoc. exact Heq. }
    apply last_separator in H'; [|apply has_dash_FormatUint; lia..].
    apply (f_equal (λ s, slice_from s 4)) in H'.
    change 4%nat with (String.length "drc-") in H'. rewrite !slice_from_app in H'.
    subst name'. by rewrite HasSuffix_app in Hdash.
  - assert (("drc-" +:+ name) +:+ String "-" (FormatUint i) = ("drc-" +:+ name') +:+ String "-" (FormatUint j)) as H'.
    { rewrite !string_app_assoc. exact Heq. }
    apply last_separator in H'; [|apply has_dash_FormatUint; lia..].
    apply (f_equal (λ s, slice_from s 4)) in H'.
    change 4%nat with (String.length "drc-") in H'. by rewrite !slice_from_app in H'.
Qed.

(** ** Clusters *)

Section cluster.
Context `{MapRange} `{SortPkg} `{K8sApi} `{ObjectStore}.
Context {W : Type} `{ClientLaws W} `{IAdmin W} `{ControllerEnv W}.
Variables (ns name : string).
Abbreviation inner := (changes_only (W := W) (owned ns name) (creatable ns name)).
Abbreviation outer := (changes_only (W := W)
  (λ k, owned ns name k ∨ k = (kind_of DistributedRedisCluster, (ns, name))) (creatable ns name)).
Context `{!AdminFrame inner}.

Lemma cluster_confined : Confined (T := DistributedRedisCluster) Restore ns name inner outer.
Proof.
  apply changes_only_confined; [done|..]; intros Hk; [|apply creatable_kind in Hk as [Hk _]; by apply Hk].
  by apply creatable_owned, creatable_kind in Hk as [Hk _].
Qed.

Lemma Reconcile_outer rename_file redisConf reconcileTime (h : heap) (w : W) :
  safe (Reconcile rename_file redisConf reconcileTime ns name) (h, w) (λ _ s', outer w s'.2).
Proof.
  destruct (restore_at ns name w) as [r0|] eqn:Hr0.
  - pose proof cluster_confined. eapply safe_mono.
    { eapply (Reconcile_advanced (owned ns name) (creatable ns name) inner outer); try apply _;
        [apply owned_footprint|exact Hr0]. }
    intros ? s' (c & _ & _ & Hout). exact Hout.
  - unfold Reconcile. apply safe_bind, safe_on_snd. intros r w1 Hr.
    pose proof (runs_safe _ _ _ (Get_law _ _ w) _ _ Hr) as [Hw Hx]. pose proof (Get_key_law _ _ w _ _ Hr) as Hk.
    destruct r as [e|x].
    + destruct (IsNotFound e); apply safe_ret; intros k _; left; by rewrite <- Hw.
    + assert (restore_at ns name w = Some (Restore x)) as Hat; [|by rewrite Hat in Hr0].
      apply stored_at_Some. by exists x.
Qed.

(** C11: whatever fails and however far it gets, a reconciliation of the cluster [name]
    changes and deletes no stored object but the cluster itself and the objects it owns
    (its StatefulSets and their disruption budgets, its configuration maps, its numbered
    services, pods and claims of its namespace), and creates none but those, services and
    secrets of its namespace.  So it changes nothing in other namespaces, no backup, job
    or existing secret, no other cluster, and no StatefulSet of another cluster.  (The
    Redis admin and the rest of the world are assumed to keep to the same objects.) *)
Theorem Reconcile_isolated rename_file redisConf reconcileTime (h : heap) (w : W) :
  safe (Reconcile rename_file redisConf reconcileTime ns name) (h, w) (λ _ s',
    (∀ k, ¬ owned ns name k → k ≠ (kind_of DistributedRedisCluster, (ns, name)) →
       stored s'.2 !! k = stored w !! k ∨ stored w !! k = None ∧ creatable ns name k) ∧
    (∀ k, k.2.1 ≠ ns ∨ k.1 = kind_of RedisClusterBackup ∨ k.1 = kind_of Job → stored s'.2 !! k = stored w !! k) ∧
    (∀ n s, stored w !! (kind_of Secret, (ns, n)) = Some s → stored s'.2 !! (kind_of Secret, (ns, n)) = Some s) ∧
    (∀ name', name' ≠ name → ∀ k, k = (kind_of DistributedRedisCluster, (ns, name')) ∨
       (HasSuffix name' "-" = false ∧ ∃ i, 0 ≤ i ∧ k = (kind_of AppsStatefulSet, (ns, ClusterStatefulSetName name' i))) →
       stored s'.2 !! k = stored w !! k)).
Proof.
  eapply safe_mono; [apply Reconcile_outer|]. intros ? s' Hout.
  assert (∀ k, ¬ creatable ns name k → k ≠ (kind_of DistributedRedisCluster, (ns, name)) →
    stored s'.2 !! k = stored w !! k) as Hsame.
  { intros k Hnew Hk. destruct (Hout k) as [?|[_ ?]]; [|done..]. intros [Hown|?]; [|done]. by apply Hnew, creatable_owned. }
  split; [|split; [|split]].
  - intros k Hown Hk. apply Hout. tauto.
  - intros k Hk. apply Hsame.
    + intros Hnew. pose proof (creatable_spec _ _ _ Hnew) as [Hns Hjob].
      apply creatable_kind in Hnew as [_ Hb]. by destruct Hk as [?|[?|?]].
    + intros ->. by destruct Hk as [?|[?|?]].
  - intros n s Hs. destruct (Hout (kind_of Secret, (ns, n))) as [->|[Hnone _]]; [|done|by rewrite Hs in Hnone].
    intros [Hown|Hk]; [|done]. inversion Hown.
  - intros name' Hne k [->|(Hdash & i & Hi & ->)]; apply Hsame.
    + intros [? _]%creatable_kind. done.
    + congruence.
    + intros [j Hj]%creatable_StatefulSet.
      by apply Hne, eq_sym, (ClusterStatefulSetName_cluster name name' j i).
    + done.
Qed.
End cluster.

(** ** Backups *)

Definition backup_supplies (ns : string) (k : string * (string * string)) : Prop :=
  k.2.1 = ns ∧ (k.1 = kind_of Secret ∨ k.1 = kind_of PersistentVolumeClaim).

Section backup.
Context `{MapRange} `{SortPkg} `{K8sApi} `{ObjectStore}.
Context `{OsmNames} {W : Type} `{ClientLaws W} `{OsmEnv W} `{BackupEnv W}.
Variables (ns name : string).
Abbreviation inner := (changes_only (W := W) (λ _, False) (backup_supplies ns)).
Abbreviation made := (λ k, backup_supplies ns k ∨ k.2.1 = ns ∧ k.1 = kind_of Job).
Abbreviation outer := (changes_only (W := W) (λ k, False ∨ k = (kind_of RedisClusterBackup, (ns, name))) made).
Context `{!BackupFrame inner}.

Lemma backup_confined : Confined (T := RedisClusterBackup) b_Status ns name inner outer.
Proof.
  apply changes_only_confined; [by left|by intros []|]. intros [_ [Hk|Hk]]; discriminate Hk.
Qed.
Lemma inner_quiet w w' : inner w w' → quiet w w'.
Proof.
  intros Hw k Hk. destruct (Hw k) as [?|[_ [_ Hk']]]; [by intros []|done|].
  exfalso. destruct Hk as [Hk|[Hk|Hk]]; rewrite Hk in Hk'; by destruct Hk'.
Qed.

(** C19: whatever fails, a reconciliation of a backup changes no stored object but the
    backup, and deletes none at all: it only creates secrets, claims and jobs of its
    namespace, under names that were free.  So a backup never disturbs a cluster.
    (The recorder and the storage are assumed to keep to the same.) *)
Theorem backup_Reconcile_isolated isClusterScoped (w : W) st0 :
  backup_at ns name w = Some st0 →
  safe (backup_Reconcile isClusterScoped ns name) w (λ _ w',
    (∀ k o, stored w !! k = Some o → k ≠ (kind_of RedisClusterBackup, (ns, name)) → stored w' !! k = Some o) ∧
    is_Some (backup_at ns name w') ∧
    (∀ k, stored w !! k = None → is_Some (stored w' !! k) →
       k.2.1 = ns ∧ (k.1 = kind_of Secret ∨ k.1 = kind_of PersistentVolumeClaim ∨ k.1 = kind_of Job))).
Proof.
  intros Hst0. pose proof backup_confined as Hc.
  eapply safe_mono.
  { apply (backup_Reconcile_ended (backup_supplies ns) inner outer); try apply _; [exact inner_quiet|..|exact Hst0].
    1,2: intros n; split; auto.
    intros n o w1 w2 Hnone Hw. eapply changes_only_insert; [exact Hw|]. by right; split; [|right]. }
  intros ? w' (x & _ & (st & Hst & _) & Hout). split; [|split].
  - intros k o Hk Hne. destruct (Hout k) as [->|[Hnone _]]; [intros [Hf|Hf]; [destruct Hf|done]|done|by rewrite Hk in Hnone].
  - by eexists.
  - intros k Hnone [o Ho]. destruct (Hout k) as [Heq|[_ Hk]].
    + intros [Hf|Hf]; [destruct Hf|subst k]. apply stored_at_Some in Hst0 as (y & Hy & _). by rewrite Hy in Hnone.
    + by rewrite Heq, Hnone in Ho.
    + destruct Hk as [[? [?|?]]|[? ?]]; auto.
Qed.
End backup.

(** ** In the concrete world *)

#[local] Existing Instances range_default sort_default k8s_default object_store_default kube_errors_default.
#[local] Existing Instances osm_names_demo osm_env_demo.

#[local] Instance demo_inner_frame own new : AdminFrame (W := demo_world) (changes_only own new).
Proof. apply lift_admin_frame; [apply _|]. intros. apply changes_only_read. reflexivity. Qed.
#[local] Instance demo_backup_env : BackupEnv demo_world := {|
  backup_Now _ := 1600000000000000000;
  rec_Event _ _ _ _ := mret ();
|}.
#[local] Instance demo_backup_frame own new : BackupFrame (W := demo_world) (changes_only own new).
Proof. split; intros; apply keeps_ret; apply _. Qed.

Definition demo_named (name : string) : DistributedRedisCluster :=
  mkDRC (newObjectMeta name "ns" ∅ []) (demo_spec <| Image := "redis:5" |>) (demo_status "").
(** Two clusters of one namespace, a StatefulSet of the second, and a secret. *)
Definition demo_neighbour : AppsStatefulSet :=
  mkStatefulSet (newObjectMeta "drc-other-0" "ns" ∅ []) (mkStatefulSetSpec "" None "" ∅ ∅ ∅ zero_PodSpec []) 0 0.
Definition demo_two : demo_world :=
  world_with [OCluster (demo_named "cache"); OCluster (demo_named "other"); OStatefulSet demo_neighbour].
Abbreviation demo_isolated := (Reconcile None (mkRedisConfig 2000 "" "") 60 "ns" "cache" (∅, demo_two)).

Lemma demo_isolated_creates :
  match demo_isolated with
  | Val (_, s') => is_Some (stored s'.2 !! (kind_of AppsStatefulSet, ("ns", "drc-cache-0")))
  | _ => False
  end.
Proof. vm_compute. by eexists. Qed.

Lemma Reconcile_isolated_witness :
  ∃ r s', demo_isolated = Val (r, s') ∧
    is_Some (stored s'.2 !! (kind_of AppsStatefulSet, ("ns", "drc-cache-0"))) ∧
    stored s'.2 !! (kind_of AppsStatefulSet, ("ns", "drc-other-0")) = Some (OStatefulSet demo_neighbour) ∧
    stored s'.2 !! (kind_of DistributedRedisCluster, ("ns", "other")) = Some (OCluster (demo_named "other")).
Proof.
  pose proof demo_isolated_creates as Hnew.
  pose proof (Reconcile_isolated "ns" "cache" None (mkRedisConfig 2000 "" "") 60 ∅ demo_two) as Hsafe.
  assert (stored demo_two !! (kind_of AppsStatefulSet, ("ns", "drc-other-0")) = Some (OStatefulSet demo_neighbour)) as Hs
    by (vm_compute; reflexivity).
  assert (stored demo_two !! (kind_of DistributedRedisCluster, ("ns", "other")) = Some (OCluster (demo_named "other"))) as Hc
    by (vm_compute; reflexivity).
  unfold safe in Hsafe. revert Hnew Hsafe. generalize demo_isolated. intros [[r s']| |] Hnew Hsafe; [|destruct Hnew..].
  exists r, s'. split; [reflexivity|]. split; [exact Hnew|].
  destruct (Hsafe r s' eq_refl) as (_ & _ & _ & Hother). split.
  - rewrite <- Hs. apply (Hother "other" ltac:(discriminate)). right. split; [vm_compute; reflexivity|].
    exists 0. split; [lia|vm_compute; reflexivity].
  - rewrite <- Hc. apply (Hother "other" ltac:(discriminate)). left. reflexivity.
Defined.

Abbreviation demo_backup_isolated := (backup_Reconcile true "ns" "dump" demo_backups).
Lemma demo_backup_isolated_creates :
  match demo_backup_isolated with
  | Val (_, w') => existsb (λ e, bool_decide (e.1.1 = kind_of Job)) (map_to_list (stored w')) = true
  | _ => False
  end.
Proof. vm_compute. reflexivity. Qed.
Lemma backup_Reconcile_isolated_witness :
  ∃ r w', demo_backup_isolated = Val (r, w') ∧
    stored w' !! (kind_of DistributedRedisCluster, ("ns", "cache")) = Some (OCluster demo_cluster) ∧
    existsb (λ e, bool_decide (e.1.1 = kind_of Job)) (map_to_list (stored w')) = true.
Proof.
  pose proof demo_backup_isolated_creates as Hnew.
  assert (backup_at "ns" "dump" demo_backups = Some (b_Status new_backup)) as Hstart by (vm_compute; reflexivity).
  pose proof (backup_Reconcile_isolated "ns" "dump" true demo_backups (b_Status new_backup) Hstart) as Hsafe.
  assert (stored demo_backups !! (kind_of DistributedRedisCluster, ("ns", "cache")) = Some (OCluster demo_cluster)) as Hc
    by (vm_compute; reflexivity).
  unfold safe in Hsafe. revert Hnew Hsafe. generalize demo_backup_isolated. intros [[r w']| |] Hnew Hsafe; [|destruct Hnew..].
  exists r, w'. split; [reflexivity|]. split; [|exact Hnew].
  destruct (Hsafe r w' eq_refl) as (Hold & _ & _). apply (Hold _ _ Hc). discriminate.
Defined.
