(* ===== verification/Quiescence.v ===== *)
(** A settled cluster is left alone: when the objects of a cluster are as its
    specification wants them, no pod is going away and the Redis nodes agree with the
    stored status, a reconciliation sends no write at all and asks to be called again
    after the usual time.

    [rests I m P]: from a world that satisfies [I], [m] returns a result in [P] and [I]
    still holds.  [I] is any property that the reads below preserve: that it holds in the
    end means that the code did nothing else. *)

From Stdlib Require Import ZArith Lia.
From S2P Require Import Prelude GoStrings GoFloat Errors Slot Node ClusterInfo AdminInterface.
From S2P Require Import Clustering Migration Rebalance Kube Utils Api Client Heal Resources Ensurer EnsurerProofs.
From S2P Require Import Status StatusProofs Connections Sync Frame Worlds Reconcile.

Local Open Scope Z_scope.

(** ** Code that rests *)

Definition rests {W A} (I : W → Prop) (m : M W A) (P : A → Prop) : Prop :=
  ∀ w, I w → runs m w (λ a w', P a ∧ I w').

Section rests.
Context {W : Type} (I : W → Prop).

Lemma rests_mono {A} (m : M W A) (P Q : A → Prop) : rests I m P → (∀ a, P a → Q a) → rests I m Q.
Proof. intros Hm Himpl w Hw. eapply runs_mono; [by apply Hm|]. intros a w' [? ?]. auto. Qed.
Lemma rests_ret {A} (a : A) (P : A → Prop) : P a → rests I (mret a) P.
Proof. intros HP w Hw. by apply runs_ret. Qed.
Lemma rests_pure {A} (a : A) (P : A → Prop) : P a → rests I (pure (Val a)) P.
Proof. intros HP w Hw. by apply runs_pure. Qed.
Lemma rests_bind {A B} (m : M W A) (k : A → M W B) (P : A → Prop) (Q : B → Prop) :
  rests I m P → (∀ a, P a → rests I (k a) Q) → rests I (m ≫= k) Q.
Proof.
  intros Hm Hk w Hw. apply runs_bind. eapply runs_mono; [by apply Hm|]. intros a w' [HP Hw']. by apply Hk.
Qed.
(** Code that gives one result. *)
Lemma rests_bind_eq {A B} (m : M W A) (k : A → M W B) (a : A) (Q : B → Prop) :
  rests I m (λ r, r = a) → rests I (k a) Q → rests I (m ≫= k) Q.
Proof. intros Hm Hk. eapply rests_bind; [exact Hm|]. by intros _ ->. Qed.
Lemma rests_for_err {A E} (l : list A) (f : A → M W (option E)) :
  (∀ x, x ∈ l → rests I (f x) (λ e, e = None)) → rests I (for_err l f) (λ e, e = None).
Proof.
  induction l as [|x l IH]; intros Hf; cbn [for_err]; [by apply rests_ret|].
  eapply rests_bind_eq; [apply Hf; by left|]. apply IH. intros. apply Hf. by right.
Qed.
(** A fold whose steps do nothing. *)
Lemma rests_for_fold {A B} (l : list A) (b : B) (f : B → A → M W B) :
  (∀ x, x ∈ l → rests I (f b x) (λ b', b' = b)) → rests I (for_fold l b f) (λ b', b' = b).
Proof.
  induction l as [|x l IH]; intros Hf; cbn [for_fold]; [by apply rests_ret|].
  eapply rests_bind_eq; [apply Hf; by left|]. apply IH. intros. apply Hf. by right.
Qed.
End rests.

(** Resting code under code on the heap too. *)
Lemma runs_resting {W A B} (I : W → Prop) (m : M W A) (k : A → M (heap * W) B) (P : A → Prop) h w Q :
  rests I m P → I w → (∀ a w', P a → I w' → runs (k a) (h, w') Q) → runs (on_snd m ≫= k) (h, w) Q.
Proof.
  intros Hm Hw Hk. destruct (Hm w Hw) as (a & w' & Heq & HP & Hw'). apply runs_bind.
  exists a, (h, w'). split; [unfold on_snd; simpl; by rewrite Heq|]. by apply Hk.
Qed.

(** ** The objects of a settled cluster *)

Section settled.
Context `{MapRange} `{SortPkg} `{K8sApi} `{ObjectStore}.
Implicit Types (c : DistributedRedisCluster) (s : store).

(** An object of the type is stored under its own name. *)
Definition held {T} `{KObject T} s (ns name : string) (P : T → Prop) : Prop :=
  ∃ x : T, s !! (kind_of T, (ns, name)) = Some (to_object x) ∧ key_of x = (kind_of T, (ns, name)) ∧ P x.

(** The objects are as the specification wants them, and the status says so. *)
Record settled c s : Prop := {
  settled_cluster : held s (drc_Namespace c) (drc_Name c) (λ c', c' = c);
  settled_defaults : DefaultSpec c = (c, false);
  settled_restore : IsRestoreFromBackup c = false;
  settled_size : 0 < MasterSize (Spec c);
  settled_config : held s (drc_Namespace c) (RedisConfigMapName (drc_Name c)) (λ cm : ConfigMap,
    isRedisConfChanged (default "" (cm_Data cm !! RedisConfKey)) (Config (Spec c)) = false);
  settled_sets i : 0 ≤ i < MasterSize (Spec c) →
    held s (drc_Namespace c) (ClusterStatefulSetName (drc_Name c) i) (λ ss : AppsStatefulSet,
      shouldUpdateRedis c ss = Val false ∧
      checkRedisNodeNum (s32 (ClusterReplicas (Spec c) + 1)) ss = Val None);
  settled_budgets i : 0 ≤ i < MasterSize (Spec c) →
    held s (drc_Namespace c) (ClusterStatefulSetName (drc_Name c) i) (λ _ : PodDisruptionBudget, True);
  settled_services i : 0 ≤ i < MasterSize (Spec c) →
    held s (drc_Namespace c) (ClusterHeadlessSvcName (ServiceName (Spec c)) i) (λ _ : Service, True);
  settled_service : held s (drc_Namespace c) (ServiceName (Spec c)) (λ _ : Service, True);
  settled_password n : PasswordSecret (Spec c) = Some n → held s (drc_Namespace c) n (λ _ : Secret, True);
  settled_state : ds_Status (drc_Status c) = ClusterStatusOK ∧ ds_Reason (drc_Status c) = "OK";
  settled_nodes : NoDup (rcn_ID <$> ds_Nodes (drc_Status c)) ∧ Z.of_nat (length (ds_Nodes (drc_Status c))) < 2 ^ 31;
}.

(** The views of the Redis nodes agree with the status [st] of the cluster: there is
    nothing to heal, and the status built from them says the same. *)
Definition agrees c (pods : list Pod) (h : heap) (infos : ClusterInfos) : Prop :=
  listGhostNodes h c infos = ∅ ∧ listUntrustedNodes h infos = ∅ ∧
  runs (buildClusterStatus infos pods c) h (λ st _,
    NoDup (rcn_ID <$> ds_Nodes st) ∧ node_view <$> ds_Nodes st ≡ₚ node_view <$> ds_Nodes (drc_Status c) ∧
    NumberOfMaster st = NumberOfMaster (drc_Status c) ∧
    NumberOfMaster st = MasterSize (Spec c) ∧
    MinReplicationFactor st = ClusterReplicas (Spec c) ∧ MaxReplicationFactor st = ClusterReplicas (Spec c)).

(** The calls of a reconciliation of a settled cluster, in the worlds of [I]: reads give
    the stored objects, [items] are its pods, and the admin succeeds.  [fetched infos h]:
    the views [infos] are in the heap; fetching others leaves them there. *)
Class Steady {W} `{Client W} `{IAdmin W} `{ControllerEnv W} c s (items : list Pod) (I : W → Prop)
    (fetched : ClusterInfos → heap → Prop) := {
  steady_Get : ∀ {T} `{KObject T} ns name (x : T),
    s !! (kind_of T, (ns, name)) = Some (to_object x) → key_of x = (kind_of T, (ns, name)) →
    rests I (client_Get ns name) (λ r, r = inr x);
  steady_pods : rests I (client_List (drc_Namespace c) (getLabels c)) (λ r, r = inr items);
  steady_staying : ∀ pod, pod ∈ items → om_DeletionTimestamp (pod_meta pod) = None;
  steady_sets : rests I (client_List (T := AppsStatefulSet) (drc_Namespace c) (getLabels c)) (λ r,
    ∃ sets, r = inr sets ∧ Z.of_nat (length (sets : list AppsStatefulSet)) ≤ MasterSize (Spec c));
  steady_NewAdmin : ∀ addrs options, rests I (env_NewAdmin addrs options) (λ _, True);
  steady_Close : rests I admin_Close (λ _, True);
  steady_SetConfig : ∀ config, rests I (admin_SetConfigIfNeed config) (λ e, e = None);
  steady_infos : ∀ h w, I w → runs admin_GetClusterInfos (h, w) (λ r p,
    r.2 = None ∧ fetched r.1 p.1 ∧ (∀ infos, fetched infos h → fetched infos p.1) ∧ I p.2);
  steady_agrees : ∀ infos h, fetched infos h → agrees c (clusterPods items) h infos;
}.
End settled.

(** ** The stages *)

Section stages.
Context `{MapRange} `{SortPkg} `{K8sApi} `{ObjectStore} `{KubeErrors}.
Context {W : Type} `{Client W} `{IAdmin W} `{ControllerEnv W}.
Variable rename_file : option string.
Variable redisConf : RedisConfig.
Variables (c : DistributedRedisCluster) (s : store) (items : list Pod) (I : W → Prop).
Variable fetched : ClusterInfos → heap → Prop.
Context `{!Steady c s items I fetched}.
Hypothesis Hc : settled c s.

Lemma rests_Get {T} `{KObject T} {B} ns name (P : T → Prop) (k : error + T → M W B) Q :
  held s ns name P → (∀ x, P x → rests I (k (inr x)) Q) → rests I (client_Get ns name ≫= k) Q.
Proof. intros (x & Hx & Hk & HP) Hcont. eapply rests_bind_eq; [by apply steady_Get|]. by apply Hcont. Qed.
Lemma rests_present {T} `{KObject T} ns name (P : T → Prop) create :
  held s ns name P → rests I (create_if_missing (client_Get (T := T) ns name) create) (λ e, e = None).
Proof. intros Hx. eapply rests_Get; [exact Hx|]. intros x _. by apply rests_ret. Qed.
Lemma rests_for_statefulsets f idxs labels :
  (∀ i svcName labels, i ∈ idxs → svcName = ClusterHeadlessSvcName (ServiceName (Spec c)) i →
     rests I (f (ClusterStatefulSetName (drc_Name c) i) svcName labels) (λ r, r = (false, None))) →
  rests I (for_statefulsets c f idxs false labels) (λ r, r.1 = (false, None)).
Proof.
  revert labels. induction idxs as [|i idxs IH]; intros labels Hf; cbn [for_statefulsets]; [by apply rests_ret|].
  eapply rests_bind_eq; [by apply Hf; [left|]|]. apply IH. intros. apply Hf; [by right|done].
Qed.

Lemma rests_EnsureRedisConfigMap labels : rests I (EnsureRedisConfigMap c labels) (λ e, e = None).
Proof.
  unfold EnsureRedisConfigMap, GetConfigMap. eapply rests_Get; [by apply settled_config|]. intros cm Hcm. rewrite Hcm.
  eapply rests_bind_eq; [by apply rests_ret|]. unfold ensure_restore_configmap.
  rewrite (settled_restore _ _ Hc). by apply rests_ret.
Qed.

Lemma shouldUpdateRedis_password cl ss : shouldUpdateRedis cl ss = Val false → IsPasswordChanged cl ss = Val false.
Proof.
  unfold shouldUpdateRedis. destruct (ss_Replicas _) as [n|]; [|done]. case_decide; [done|].
  destruct (container0 ss) as [ct| |]; [|done..]. cbn [go_bind]. case_decide; [done|].
  by destruct (IsPasswordChanged cl ss) as [[]| |].
Qed.
Lemma rests_CheckRedisNodeNum : rests I (CheckRedisNodeNum c) (λ e, e = None).
Proof.
  apply rests_for_err. intros i Hi%elem_of_seqZ. unfold GetStatefulSet.
  eapply rests_Get; [apply (settled_sets c s Hc); lia|]. intros ss [_ ->]. by apply rests_pure.
Qed.
Lemma rests_resetClusterPassword : rests I (resetClusterPassword redisConf c) (λ r, r = (c, None)).
Proof.
  unfold resetClusterPassword. eapply rests_bind_eq; [apply rests_CheckRedisNodeNum|].
  unfold GetStatefulSet. eapply rests_Get; [apply (settled_sets c s Hc); pose proof (settled_size c s Hc); lia|].
  intros ss [Hup _]. rewrite (shouldUpdateRedis_password _ _ Hup).
  eapply rests_bind_eq; [by apply rests_pure|]. by apply rests_ret.
Qed.
Lemma rests_EnsureRedisStatefulsets labels :
  rests I (EnsureRedisStatefulsets rename_file c labels) (λ r, r.1 = (false, None)).
Proof.
  apply rests_for_statefulsets. intros i svcName l Hi%elem_of_seqZ _. unfold ensureRedisStatefulset.
  eapply rests_bind_eq.
  { eapply rests_present. apply (settled_budgets c s Hc). lia. }
  unfold GetStatefulSet. eapply rests_Get; [apply (settled_sets c s Hc); lia|]. intros ss [-> _].
  eapply rests_bind_eq; [by apply rests_pure|]. by apply rests_ret.
Qed.
Lemma rests_ensure_services labels : rests I (ensure_services c labels) (λ r, r = (c, None)).
Proof.
  unfold ensure_services, EnsureRedisHeadLessSvcs, EnsureRedisSvc, stage.
  eapply (rests_bind _ _ _ (λ r, r.1 = None)).
  { eapply rests_bind; [apply rests_for_statefulsets|].
    - intros i svcName l Hi%elem_of_seqZ ->. eapply rests_bind_eq; [|by apply rests_ret].
      eapply rests_present. apply (settled_services c s Hc). lia.
    - intros [[u e] l] Hr. cbn in Hr. injection Hr as -> ->. by apply rests_ret. }
  intros [e l] He. cbn in He. subst e. cbv zeta. eapply rests_bind_eq.
  { eapply rests_bind_eq; [eapply rests_present; apply (settled_service c s Hc)|]. by apply rests_ret. }
  apply (rests_bind_eq I _ _ None); [|by apply rests_ret]. unfold EnsureRedisRCloneSecret.
  rewrite (settled_restore _ _ Hc). by apply rests_ret.
Qed.
Lemma rests_ensureCluster : rests I (ensureCluster rename_file redisConf c) (λ r, r = (c, None)).
Proof.
  unfold ensureCluster, validateAndSetDefault. rewrite (settled_restore _ _ Hc). cbn [andb].
  eapply rests_bind_eq.
  { eapply rests_bind_eq; [by apply rests_ret|]. cbn beta iota zeta. rewrite (settled_restore _ _ Hc).
    cbn [andb]. rewrite (settled_defaults _ _ Hc). by apply rests_ret. }
  cbv zeta. cbn iota beta.
  assert (dbLoadedFromDiskWhenRestore c = c) as -> by (unfold dbLoadedFromDiskWhenRestore; by rewrite (settled_restore _ _ Hc)).
  eapply rests_bind_eq.
  { eapply rests_bind_eq; [apply rests_EnsureRedisConfigMap|]. by apply rests_ret. }
  cbn [snd fst]. eapply rests_bind_eq.
  { eapply rests_bind_eq; [apply rests_resetClusterPassword|]. by apply rests_ret. }
  cbn [snd fst]. eapply rests_bind; [apply rests_EnsureRedisStatefulsets|].
  intros [[u e] l] Hr. cbn in Hr. injection Hr as -> ->.
  eapply rests_bind_eq; [by apply rests_ret|]. cbn [snd fst]. apply rests_ensure_services.
Qed.

Lemma elem_of_clusterPods (pods : list Pod) pod : pod ∈ clusterPods pods → pod ∈ pods.
Proof.
  unfold clusterPods. assert (∀ acc, pod ∈ foldl (λ l p, if decide (pod_Phase p = PodRunning) then l ++ [p] else l) acc pods →
    pod ∈ acc ∨ pod ∈ pods) as Hgen.
  { induction pods as [|p pods IH]; intros acc; cbn [foldl]; [by left|]. intros [Hin|Hin]%IH.
    - case_decide; [|by left]. apply elem_of_app in Hin as [?|Hin]; [by left|].
      apply list_elem_of_singleton in Hin as ->. right. by left.
    - right. by right. }
  intros [Hin|?]%Hgen; [by apply elem_of_nil in Hin|done].
Qed.
Lemma rests_waitPodReady dry : rests I (waitPodReady (mkCheckAndHeal (clusterPods items) dry) c) (λ e, e = None).
Proof.
  unfold waitPodReady, FixTerminatingPods. eapply (rests_bind _ _ _ (λ _, True)).
  { intros w Hw. exists (env_now w), w. done. }
  intros now _. eapply rests_bind_eq.
  { rewrite decide_False by done. eapply rests_bind_eq; [apply rests_for_fold|].
    - intros pod Hin%elem_of_clusterPods. rewrite (steady_staying (I := I) pod Hin). by apply rests_ret.
    - apply rests_ret. cbn [fst snd]. by rewrite (proj2 (NewAggregate_None []) eq_refl). }
  cbn [snd]. eapply rests_bind_eq; [apply rests_CheckRedisNodeNum|]. by apply rests_ret.
Qed.
Lemma rests_newRedisAdmin pods password : rests I (newRedisAdmin redisConf pods password) (λ _, True).
Proof. apply steady_NewAdmin. Qed.
Lemma rests_GetClusterPassword : rests I (GetClusterPassword c) (λ r, ∃ password, r = inr password).
Proof.
  unfold GetClusterPassword, secret_password. destruct (PasswordSecret (Spec c)) as [n|] eqn:Hn.
  - eapply rests_Get; [by apply (settled_password c s Hc)|]. intros x _. apply rests_ret. by eexists.
  - apply rests_ret. by eexists.
Qed.
Lemma rests_isScalingDown : rests I (isScalingDown c) (λ b, b = false).
Proof.
  unfold isScalingDown, ListStatefulSetByLabels.
  eapply rests_bind; [apply steady_sets|]. intros _ (sets & -> & Hlen). apply rests_ret.
  apply bool_decide_eq_false. lia.
Qed.
Lemma Heal_rests dry infos h (w : W) :
  fetched infos h →
  @Heal _ _ W _ NewPodController (mkCheckAndHeal (clusterPods items) dry) c infos (h, w) = Val ((false, None), (h, w)).
Proof.
  intros (Hg & Hu & _)%(steady_agrees (I := I)). unfold Heal, FixFailedNodes, FixUntrustedNodes.
  unfold mbind, M_bind, gets. simpl. rewrite Hg, range_empty. simpl.
  rewrite (proj2 (NewAggregate_None []) eq_refl). simpl. rewrite Hu, range_empty. simpl.
  by rewrite (proj2 (NewAggregate_None []) eq_refl).
Qed.

(** *** The status *)

(** A status that says what the stored one says. *)
Definition reported (st : ClusterStatus) : Prop :=
  ds_Status st = ClusterStatusOK ∧ ds_Reason st = "OK" ∧ ds_Restore st = Restore c ∧
  NumberOfMaster st = NumberOfMaster (drc_Status c) ∧ NoDup (rcn_ID <$> ds_Nodes st) ∧
  node_view <$> ds_Nodes st ≡ₚ node_view <$> ds_Nodes (drc_Status c).

Lemma reported_same st st' : reported st → reported st' → compareStatus st st' = false.
Proof.
  intros (Hs & Hr & Hre & Hm & Hd & Hp) (Hs' & Hr' & Hre' & Hm' & Hd' & Hp').
  assert (node_view <$> ds_Nodes st ≡ₚ node_view <$> ds_Nodes st') as Hpp by by rewrite Hp.
  assert (∀ st, node_view <$> ds_Nodes st ≡ₚ node_view <$> ds_Nodes (drc_Status c) →
    Z.of_nat (length (ds_Nodes st)) < 2 ^ 31) as Hlen.
  { intros x Hx. rewrite <- (length_fmap node_view), Hx, length_fmap. apply (settled_nodes _ _ Hc). }
  apply compareStatus_false; [auto..|]. rewrite Hs, Hr, Hre, Hm, Hs', Hr', Hre', Hm'.
  destruct (proj2 (outer_false_Permutation _ _ Hd Hd') Hpp) as [Hl Ho]. by split_and!.
Qed.
Lemma reported_stored : reported (drc_Status c).
Proof. destruct (settled_state _ _ Hc), (settled_nodes _ _ Hc). done. Qed.
Lemma reported_OK st : reported st → reported (SetClusterOK st "OK").
Proof. intros (_ & _ & Hst). split; [done|]. split; [done|exact Hst]. Qed.

(** The status built from fetched views, for the stored cluster or after a report. *)
Lemma build_reported instance infos h :
  fetched infos h → reported (drc_Status instance) →
  runs (buildClusterStatus infos (clusterPods items) instance) h (λ st _,
    reported st ∧ NumberOfMaster st = MasterSize (Spec c) ∧
    MinReplicationFactor st = ClusterReplicas (Spec c) ∧ MaxReplicationFactor st = ClusterReplicas (Spec c)).
Proof.
  intros (_ & _ & Hrun)%(steady_agrees (I := I)) (Hs & Hr & Hre & _).
  assert (buildClusterStatus infos (clusterPods items) instance = buildClusterStatus infos (clusterPods items) c) as ->.
  { unfold buildClusterStatus. destruct (settled_state _ _ Hc) as [Hcs Hcr]. unfold Restore in Hre.
    by rewrite Hs, Hr, Hre, Hcs, Hcr. }
  destruct Hrun as (st & h' & Heq & Hd & Hp & Hm & Hm' & Hmin & Hmax). exists st, h'. split; [done|].
  split; [|done]. unfold reported.
  assert (ds_Status st = ds_Status (drc_Status c) ∧ ds_Reason st = ds_Reason (drc_Status c) ∧
    ds_Restore st = Restore c) as (-> & -> & ->).
  { revert Heq. unfold buildClusterStatus. intros (acc & h1 & _ & Heq)%M_bind_Val.
    destruct (replication_factors _). injection Heq as <- _. done. }
  by destruct (settled_state _ _ Hc).
Qed.

Lemma runs_on_fst_bind {A B} (m : M heap A) (k : A → M (heap * W) B) h (w : W) (P : A → Prop) Q :
  runs m h (λ a _, P a) → (∀ a h', P a → runs (k a) (h', w) Q) → runs (on_fst m ≫= k) (h, w) Q.
Proof.
  intros (a & h' & Heq & HP) Hk. apply runs_bind. exists a, (h', w). split; [unfold on_fst; simpl; by rewrite Heq|].
  by apply Hk.
Qed.

(** ** Reconcile *)

Variable reconcileTime : Z.
Abbreviation rested := (λ (r : Result * option error) (p : heap * W),
  r = (requeue_after (s64 (reconcileTime * second)), None) ∧ I p.2).

Lemma report_ok_rests instance infos h (w : W) :
  reported (drc_Status instance) → I w →
  runs (report_ok reconcileTime instance infos (clusterPods items)) (h, w) rested.
Proof.
  intros Hst Hw. unfold report_ok. apply runs_bind. eapply runs_mono; [by apply steady_infos|].
  intros [infos' e] [h' w'] (He & Hf & _ & Hw'). cbn in He, Hf, Hw'. subst e. cbn [snd fst].
  eapply runs_on_fst_bind; [by apply build_reported|]. intros st h2 (Hrep & _).
  eapply (runs_resting I _ _ (λ _, True)); [|done|].
  { unfold updateClusterIfNeed. rewrite reported_same; [by apply rests_ret|done|by apply reported_OK]. }
  intros ? w2 _ Hw2. by apply runs_ret.
Qed.
Lemma operate_rests infos h (w : W) :
  fetched infos h → I w → runs (operate reconcileTime c infos (clusterPods items)) (h, w) rested.
Proof.
  intros Hf Hw. unfold operate. eapply runs_resting; [apply steady_SetConfig|done|]. intros ? w1 -> Hw1.
  eapply runs_on_fst_bind; [by apply build_reported; [|apply reported_stored]|].
  intros st h1 (Hrep & Hm & Hmin & Hmax).
  eapply runs_resting; [apply rests_isScalingDown|done|]. intros ? w2 -> Hw2.
  eapply (runs_resting I _ _ (λ c', c' = c)); [|done|].
  { unfold updateClusterIfNeed. rewrite reported_same; [by apply rests_ret|apply reported_stored|done]. }
  intros ? w3 -> Hw3. cbv zeta.
  assert (needClusterOperation (c <| drc_Status := st |>) = false) as ->.
  { unfold needClusterOperation, CompareIntValue. cbn. unfold Spec in *. rewrite Hm, Hmin, Hmax.
    by rewrite !decide_False by (intros Hn; by apply Hn). }
  by apply report_ok_rests.
Qed.
Lemma heal_and_operate_rests infos h (w : W) :
  fetched infos h → I w → runs (heal_and_operate rename_file reconcileTime c infos (clusterPods items)) (h, w) rested.
Proof.
  intros Hf Hw. unfold heal_and_operate. apply runs_bind. exists (false, None), (h, w).
  split; [by apply Heal_rests|]. cbv beta. apply runs_bind. unfold waitForClusterJoin.
  apply runs_bind. eapply runs_mono; [by apply steady_infos|].
  intros [infos' e] [h' w'] (He & _ & Hkeep & Hw'). cbn in He, Hkeep, Hw'. subst e. cbn [snd].
  apply runs_ret. rewrite (settled_restore _ _ Hc). cbn [andb]. apply operate_rests; auto.
Qed.
Lemma reconcile_pods_rests h (w : W) : I w → runs (reconcile_pods rename_file redisConf reconcileTime c) (h, w) rested.
Proof.
  intros Hw. unfold reconcile_pods, GetStatefulSetPodsByLabels.
  eapply runs_resting; [apply steady_pods|done|]. intros ? w1 -> Hw1.
  eapply runs_resting; [apply rests_waitPodReady|done|]. intros ? w2 -> Hw2.
  eapply runs_resting; [apply rests_GetClusterPassword|done|]. intros ? w3 [password ->] Hw3.
  eapply runs_resting; [apply rests_newRedisAdmin|done|]. intros ? w4 _ Hw4.
  apply runs_bind. unfold reconcile_admin. apply runs_bind. eapply runs_mono; [by apply steady_infos|].
  intros [infos e] [h' w'] (He & Hf & _ & Hw'). cbn in He, Hf, Hw'. subst e. cbn [snd fst].
  eapply runs_mono; [by apply heal_and_operate_rests|]. intros r [h2 w5] [-> Hw5].
  eapply runs_resting; [apply steady_Close|done|]. intros ? w6 _ Hw6. by apply runs_ret.
Qed.

(** C13: a reconciliation of a settled cluster comes to rest: it terminates without a
    panic, asks to be called again after [reconcileTime] without an error, and sends
    nothing but reads, whatever property of the world the reads preserve, so no object
    is written, no pod deleted, no Redis node told anything but the settings.  Settled
    means: the defaults are filled in, the stored StatefulSets, disruption budgets,
    services and configuration map are what the specification asks for, with all their
    pods, none of which is going away, and the Redis nodes agree with the stored status,
    which is OK. *)
Theorem Reconcile_quiescent h (w : W) :
  I w →
  runs (Reconcile rename_file redisConf reconcileTime (drc_Namespace c) (drc_Name c)) (h, w) (λ r p,
    r = (requeue_after (s64 (reconcileTime * second)), None) ∧ I p.2).
Proof.
  intros Hw. unfold Reconcile. destruct (settled_cluster _ _ Hc) as (c' & Hst & Hk & ->).
  eapply runs_resting; [by apply steady_Get|done|]. intros ? w1 -> Hw1.
  eapply runs_resting; [apply rests_ensureCluster|done|]. intros ? w2 -> Hw2. by apply reconcile_pods_rests.
Qed.
End stages.

(** ** A settled cluster in the concrete world *)

#[local] Existing Instances range_default sort_default k8s_default object_store_default kube_errors_default.

(** Three masters and their slaves: number, address and pod. *)
Definition quiet_node (i : nat) : Node :=
  let master := Nat.even i in
  NewDefaultNode <| ID := "node-" +:+ FormatInt (Z.of_nat i) |> <| IP := "10.0.0." +:+ FormatInt (Z.of_nat i) |>
    <| Role := if master then RedisMasterRole else RedisSlaveRole |>
    <| MasterReferent := if master then "" else "node-" +:+ FormatInt (Z.of_nat (i - 1)) |>
    <| Slots := if master then [Z.of_nat i; Z.of_nat i + 1] else [] |>.
Definition quiet_ptrs : list ptr := Pos.of_nat <$> seq 1 6.
Definition quiet_heap : heap := list_to_map ((λ i, (Pos.of_nat (S i), quiet_node i)) <$> seq 0 6).
Definition quiet_infos : ClusterInfos :=
  mkClusterInfos (list_to_map ((λ i, (IPPort (quiet_node i),
    mkNodeInfos (Pos.of_nat (S i)) (mkSlice (filter (λ p, p ≠ Pos.of_nat (S i)) quiet_ptrs) 0))) <$> seq 0 6))
    ClusterInfosConsistent.

Definition quiet_spec : DistributedRedisClusterSpec :=
  Spec (DefaultSpec (demo_drc (demo_spec <| Config := Some {[ "maxmemory" := "1gb" ]} |>) "")).1.
Definition quiet_new : DistributedRedisCluster := demo_drc quiet_spec ClusterStatusOK.
Definition quiet_set (i : Z) : string := ClusterStatefulSetName "cache" i.
Definition quiet_labels (i : Z) : label_map := <[StatefulSetLabel := quiet_set i]> (getLabels quiet_new).
Definition quiet_pod (i : nat) : Pod :=
  mkPod (newObjectMeta (quiet_set (Z.of_nat i / 2) +:+ "-" +:+ FormatInt (Z.of_nat i `mod` 2)) "ns"
           (quiet_labels (Z.of_nat i / 2)) [])
    zero_PodSpec PodRunning (IP (quiet_node i)).
Definition quiet_sts (i : Z) : AppsStatefulSet :=
  match NewStatefulSetForCR None quiet_new (quiet_set i) (ClusterHeadlessSvcName "cache" i) (quiet_labels i) with
  | Val (inr ss) => mkStatefulSet (ss_meta ss) (ss_spec ss) 2 2
  | _ => mkStatefulSet (newObjectMeta "" "" ∅ []) (mkStatefulSetSpec "" None "" ∅ ∅ ∅ zero_PodSpec []) 0 0
  end.
Definition quiet_objects : list Object :=
  ((λ i, OPod (quiet_pod i)) <$> seq 0 6) ++
  (seqZ 0 3 ≫= λ i, [OStatefulSet (quiet_sts i);
     OPDB (NewPodDisruptionBudgetForCR quiet_new (quiet_set i) (quiet_labels i));
     OService (NewHeadLessSvcForCR quiet_new (ClusterHeadlessSvcName "cache" i) (quiet_labels i))]) ++
  [OService (NewHeadLessSvcForCR quiet_new "cache" ∅); OConfigMap (NewConfigMapForCR quiet_new ∅)].
Definition quiet_items : list Pod :=
  match client_List "ns" (getLabels quiet_new) (world_with quiet_objects) with
  | Val (inr pods, _) => pods
  | _ => []
  end.
(** The cluster, with the status of its nodes. *)
Definition quiet_cluster : DistributedRedisCluster :=
  match buildClusterStatus quiet_infos (clusterPods quiet_items) quiet_new quiet_heap with
  | Val (st, _) => quiet_new <| drc_Status := SetClusterOK st "OK" |>
  | _ => quiet_new
  end.
Definition quiet_world : demo_world := world_with (OCluster quiet_cluster :: quiet_objects).

(** An admin that finds the nodes each time; its other calls are recorded. *)
Definition quiet_admin : IAdmin (list call) :=
  let A := recording_admin (λ _, false) in {|
  GetHashMaxSlot := @GetHashMaxSlot _ A;
  admin_GetClusterInfos p := Val ((quiet_infos, None), (quiet_heap, p.2));
  admin_ClusterManagerNodeIsEmpty := @admin_ClusterManagerNodeIsEmpty _ A;
  admin_SetConfigEpoch := @admin_SetConfigEpoch _ A;
  admin_SetConfigIfNeed := @admin_SetConfigIfNeed _ A;
  admin_AttachNodeToCluster := @admin_AttachNodeToCluster _ A;
  admin_AttachSlaveToMaster := @admin_AttachSlaveToMaster _ A;
  admin_DetachSlave := @admin_DetachSlave _ A;
  admin_ForgetNode := @admin_ForgetNode _ A;
  admin_SetSlots := @admin_SetSlots _ A;
  admin_AddSlots := @admin_AddSlots _ A;
  admin_SetSlot := @admin_SetSlot _ A;
  admin_MigrateKeys := @admin_MigrateKeys _ A;
  admin_MigrateKeysInSlot := @admin_MigrateKeysInSlot _ A;
  admin_FlushAndReset := @admin_FlushAndReset _ A;
  admin_ResetPassword := @admin_ResetPassword _ A;
  admin_Close := @admin_Close _ A;
  admin_Connections_Remove := @admin_Connections_Remove _ A;
  admin_Connections_ReplaceAll := @admin_Connections_ReplaceAll _ A;
|}.
#[local] Instance quiet_world_admin : IAdmin demo_world := lift_admin quiet_admin.

(** The objects and the log of writes of the API server are those of the start. *)
Definition unchanged (w : demo_world) : Prop := w.1 = quiet_world.1.
Definition quiet_fetched (infos : ClusterInfos) (h : heap) : Prop := infos = quiet_infos ∧ h = quiet_heap.

Lemma quiet_status :
  match buildClusterStatus quiet_infos (clusterPods quiet_items) quiet_cluster quiet_heap with
  | Val (st, _) => ds_Nodes st = ds_Nodes (drc_Status quiet_cluster) ∧ NumberOfMaster st = 3 ∧
      MinReplicationFactor st = 1 ∧ MaxReplicationFactor st = 1
  | _ => False
  end.
Proof. vm_compute. split_and!; reflexivity. Qed.
Lemma quiet_nodes : NoDup (rcn_ID <$> ds_Nodes (drc_Status quiet_cluster)).
Proof. apply (bool_decide_unpack _). vm_compute. exact I. Qed.
Lemma quiet_agrees : agrees quiet_cluster (clusterPods quiet_items) quiet_heap quiet_infos.
Proof.
  split; [vm_compute; reflexivity|]. split; [vm_compute; reflexivity|]. pose proof quiet_status as Hst.
  unfold runs. revert Hst. generalize (buildClusterStatus quiet_infos (clusterPods quiet_items) quiet_cluster quiet_heap).
  intros [[st h]| |] Hst; [|destruct Hst..]. destruct Hst as (Hn & Hm & Hmin & Hmax).
  exists st, h. split; [reflexivity|]. rewrite Hn, Hm, Hmin, Hmax. split; [exact quiet_nodes|].
  split; [reflexivity|]. split_and!; vm_compute; reflexivity.
Qed.

Lemma quiet_rests {A} (m : M demo_world A) (P : A → Prop) :
  (∀ v, ∃ a v', m (quiet_world.1, v) = Val (a, (quiet_world.1, v')) ∧ P a) → rests unchanged m P.
Proof.
  intros Hm [w v] Hw. change (w = quiet_world.1) in Hw. subst w. destruct (Hm v) as (a & v' & Heq & HP).
  exists a, (quiet_world.1, v'). split; [exact Heq|]. split; [exact HP|reflexivity].
Qed.
Lemma quiet_Get {T} `{KObject T} ns name (x : T) :
  quiet_world.1.1 !! (kind_of T, (ns, name)) = Some (to_object x) → key_of x = (kind_of T, (ns, name)) →
  rests unchanged (client_Get ns name) (λ r, r = inr x).
Proof.
  intros Hx Hk. apply quiet_rests. intros v. exists (inr x), v. split; [|reflexivity].
  revert Hx. generalize quiet_world.1. intros w Hx.
  unfold client_Get, demo_client, lift_client, on_fst. cbn [fst snd].
  unfold client_Get, api_server, api_Get, api_read. rewrite Hx, of_to_object. by rewrite decide_True.
Qed.
Lemma quiet_List {T} `{KObject T} ns labels :
  rests unchanged (client_List (T := T) ns labels) (λ r, r = inr (omap (api_select ns labels) (map_to_list quiet_world.1.1))).
Proof. apply quiet_rests. intros v. eexists _, v. split; [|reflexivity]. generalize quiet_world.1. reflexivity. Qed.
Lemma quiet_pods :
  omap (api_select (T := Pod) "ns" (getLabels quiet_cluster)) (map_to_list quiet_world.1.1) = quiet_items.
Proof. vm_compute. reflexivity. Qed.
Lemma quiet_sets :
  length (omap (api_select (T := AppsStatefulSet) "ns" (getLabels quiet_cluster)) (map_to_list quiet_world.1.1)) = 3%nat.
Proof. vm_compute. reflexivity. Qed.
Lemma quiet_staying : forallb (λ pod, bool_decide (om_DeletionTimestamp (pod_meta pod) = None)) quiet_items = true.
Proof. vm_compute. reflexivity. Qed.
Lemma quiet_names :
  drc_Namespace quiet_cluster = "ns" ∧ drc_Name quiet_cluster = "cache" ∧ Spec quiet_cluster = quiet_spec.
Proof. split; [|split]; vm_compute; reflexivity. Qed.
#[local] Instance quiet_steady : Steady (W := demo_world) quiet_cluster quiet_world.1.1 quiet_items unchanged quiet_fetched.
Proof.
  destruct quiet_names as (Hns & _ & Hspec). split; rewrite ?Hns, ?Hspec; clear Hns Hspec.
  - intros T ? ns name x. apply quiet_Get.
  - eapply rests_mono; [apply quiet_List|]. intros r ->. rewrite quiet_pods. reflexivity.
  - intros pod Hpod. pose proof quiet_staying as Hall. rewrite forallb_forall in Hall.
    apply list_elem_of_In, Hall, bool_decide_eq_true in Hpod. exact Hpod.
  - eapply rests_mono; [apply quiet_List|]. intros r ->. eexists. split; [reflexivity|]. rewrite quiet_sets.
    vm_compute. discriminate.
  - intros addrs options. apply quiet_rests. generalize quiet_world.1. intros w v. by exists (), v.
  - apply quiet_rests. generalize quiet_world.1. intros w v. by eexists (), _.
  - intros config. apply quiet_rests. generalize quiet_world.1. intros w v. by eexists None, _.
  - intros h [w v] Hw. exists (quiet_infos, None), (quiet_heap, (w, v)). split; [reflexivity|].
    split; [reflexivity|]. split; [split; reflexivity|]. split; [|exact Hw]. intros infos [-> _]. split; reflexivity.
  - intros infos h [-> ->]. exact quiet_agrees.
Qed.

(** What is stored under the names of the set number [i]. *)
Lemma quiet_stored_sets i :
  i = 0 ∨ i = 1 ∨ i = 2 →
  quiet_world.1.1 !! (kind_of AppsStatefulSet, ("ns", ClusterStatefulSetName "cache" i)) = Some (OStatefulSet (quiet_sts i)) ∧
  key_of (quiet_sts i) = (kind_of AppsStatefulSet, ("ns", ClusterStatefulSetName "cache" i)) ∧
  shouldUpdateRedis quiet_cluster (quiet_sts i) = Val false ∧ checkRedisNodeNum 2 (quiet_sts i) = Val None.
Proof. intros [->|[->| ->]]; (split; [|split; [|split]]); vm_compute; reflexivity. Qed.
Lemma quiet_stored_others i :
  i = 0 ∨ i = 1 ∨ i = 2 →
  quiet_world.1.1 !! (kind_of PodDisruptionBudget, ("ns", ClusterStatefulSetName "cache" i)) =
    Some (OPDB (NewPodDisruptionBudgetForCR quiet_new (quiet_set i) (quiet_labels i))) ∧
  quiet_world.1.1 !! (kind_of Service, ("ns", ClusterHeadlessSvcName "cache" i)) =
    Some (OService (NewHeadLessSvcForCR quiet_new (ClusterHeadlessSvcName "cache" i) (quiet_labels i))).
Proof. intros [->|[->| ->]]; split; vm_compute; reflexivity. Qed.
Lemma quiet_stored_rest :
  quiet_world.1.1 !! (kind_of Service, ("ns", "cache")) = Some (OService (NewHeadLessSvcForCR quiet_new "cache" ∅)) ∧
  quiet_world.1.1 !! (kind_of ConfigMap, ("ns", RedisConfigMapName "cache")) = Some (OConfigMap (NewConfigMapForCR quiet_new ∅)) ∧
  isRedisConfChanged (default "" (cm_Data (NewConfigMapForCR quiet_new ∅) !! RedisConfKey)) (Config quiet_spec) = false.
Proof. split; [|split]; vm_compute; reflexivity. Qed.
Lemma quiet_stored_cluster :
  quiet_world.1.1 !! (kind_of DistributedRedisCluster, ("ns", "cache")) = Some (OCluster quiet_cluster).
Proof. vm_compute. reflexivity. Qed.
Lemma quiet_defaults : DefaultSpec quiet_cluster = (quiet_cluster, false).
Proof. vm_compute. reflexivity. Qed.
Lemma quiet_settled : settled quiet_cluster quiet_world.1.1.
Proof.
  destruct quiet_names as (Hns & Hname & Hspec). destruct quiet_stored_rest as (Hsvc & Hcm & Hconf).
  assert (MasterSize quiet_spec = 3 ∧ ClusterReplicas quiet_spec = 1 ∧ ServiceName quiet_spec = "cache" ∧
    PasswordSecret quiet_spec = None) as (Hm & Hr & Hs & Hp) by (repeat split; vm_compute; reflexivity).
  split; rewrite ?Hns, ?Hname, ?Hspec, ?Hm, ?Hr, ?Hs, ?Hp.
  - exists quiet_cluster. split; [exact quiet_stored_cluster|]. split; [vm_compute; reflexivity|reflexivity].
  - exact quiet_defaults.
  - vm_compute. reflexivity.
  - lia.
  - exists (NewConfigMapForCR quiet_new ∅). split; [exact Hcm|]. split; [vm_compute; reflexivity|exact Hconf].
  - intros i Hi. destruct (quiet_stored_sets i) as (Hx & Hk & Hup & Hn); [lia|]. exists (quiet_sts i).
    split; [exact Hx|]. split; [exact Hk|]. split; [exact Hup|exact Hn].
  - intros i Hi. destruct (quiet_stored_others i) as [Hx _]; [lia|]. eexists. split; [exact Hx|]. split; reflexivity.
  - intros i Hi. destruct (quiet_stored_others i) as [_ Hx]; [lia|]. eexists. split; [exact Hx|]. split; reflexivity.
  - eexists. split; [exact Hsvc|]. split; reflexivity.
  - intros n Hn. discriminate Hn.
  - vm_compute. split; reflexivity.
  - split; [exact quiet_nodes|]. vm_compute. reflexivity.
Qed.

Lemma Reconcile_quiescent_witness :
  runs (Reconcile None (mkRedisConfig 2000 "" "") 60 (drc_Namespace quiet_cluster) (drc_Name quiet_cluster))
    (∅, quiet_world) (λ r p, r = (requeue_after (60 * 10 ^ 9), None) ∧ p.2.1 = quiet_world.1).
Proof.
  exact (Reconcile_quiescent None (mkRedisConfig 2000 "" "") quiet_cluster quiet_world.1.1 quiet_items unchanged
    quiet_fetched quiet_settled 60 ∅ quiet_world eq_refl).
Defined.
