(* ===== verification/Establish.v ===== *)
(** [ensureCluster] establishes what it is for: it returns, and when it returns without an
    error, the objects of the cluster are stored as its specification asks for, whatever
    was there before.  Together with [Quiescence] this is the cycle of the controller:
    what one reconciliation has established the next one leaves alone.  The exception is
    the map of a cluster without a configuration, which is written by every call.

    The stages are proved with [rests] of [Quiescence], on the invariant that the
    specifications are those of the start ([specs_kept]). *)

From Stdlib Require Import ZArith Lia.
From S2P Require Import Prelude GoStrings GoFloat Errors Slot Node ClusterInfo AdminInterface.
From S2P Require Import Clustering Migration Rebalance Kube Utils Api Client Heal Resources Ensurer EnsurerProofs.
From S2P Require Import Status Connections Sync Worlds Reconcile Quiescence.

Local Open Scope Z_scope.

(** ** What the rest of the world leaves alone

    Nobody else writes the specifications: the stored StatefulSets and clusters keep
    theirs (their status may change), the pods have containers, and configuration maps,
    budgets and services that exist stay as they are. *)

Definition sts_view (o : Object) : option (ObjectMeta * StatefulSetSpec) :=
  match o with OStatefulSet ss => Some (ss_meta ss, ss_spec ss) | _ => None end.
Definition cluster_view (o : Object) : option (ObjectMeta * DistributedRedisClusterSpec * Restore_) :=
  match o with OCluster c => Some (drc_meta c, Spec c, Restore c) | _ => None end.
Definition fixed_kind (kind : string) : Prop :=
  kind = kind_of ConfigMap ∨ kind = kind_of PodDisruptionBudget ∨ kind = kind_of Service.
Definition pods_wf (s : store) : Prop := ∀ p, s !! key_of p = Some (OPod p) → ps_Containers (pod_spec p) ≠ [].

Record specs_kept {W} `{ClientLaws W} (w w' : W) : Prop := {
  kept_sts k : stored w' !! k ≫= sts_view = stored w !! k ≫= sts_view;
  kept_cluster k : stored w' !! k ≫= cluster_view = stored w !! k ≫= cluster_view;
  kept_fixed k : fixed_kind k.1 → is_Some (stored w !! k) → stored w' !! k = stored w !! k;
  kept_pods : pods_wf (stored w) → pods_wf (stored w');
}.

Section kept.
Context {W : Type} `{ClientLaws W}.
Implicit Types (w : W).

#[export] Instance specs_kept_preorder : PreOrder (specs_kept (W := W)).
Proof.
  split; [done|]. intros w1 w2 w3 [Hs Hc Hf Hp] [Hs' Hc' Hf' Hp']. split; [intros k..|auto].
  - by rewrite Hs'.
  - by rewrite Hc'.
  - intros Hk Hw. rewrite <- (Hf k Hk Hw). apply Hf'; [done|]. by rewrite Hf.
Qed.
Lemma specs_kept_read w w' : stored w' = stored w → specs_kept w w'.
Proof. intros Heq. split; intros; by rewrite ?Heq in *. Qed.
(** A write at one key that keeps the views. *)
Lemma specs_kept_insert w w' k o :
  stored w' = <[k := o]> (stored w) → sts_view o = stored w !! k ≫= sts_view →
  cluster_view o = stored w !! k ≫= cluster_view → (fixed_kind k.1 → stored w !! k = None) →
  k.1 ≠ kind_of Pod → specs_kept w w'.
Proof.
  intros Heq Hs Hc Hf Hpod. split; [intros k'..|]; rewrite Heq.
  1-3: destruct (decide (k = k')) as [<-|Hne]; rewrite ?lookup_insert_eq, ?lookup_insert_ne by done; try done.
  - intros Hk [o' Ho']. by rewrite Hf in Ho'.
  - intros Hwf p. rewrite lookup_insert_ne by (by intros ->). apply Hwf.
Qed.
Lemma specs_kept_store_wf w w' : specs_kept w w' → store_wf (stored w) → store_wf (stored w').
Proof.
  intros Hk Hwf k ss Hss. pose proof (kept_sts _ _ Hk k) as Hv. rewrite Hss in Hv. cbn in Hv.
  destruct (stored w !! k) as [o|] eqn:Ho; [|done]. destruct o as [| |ss'| | | | | | |]; try done.
  cbn in Hv. injection Hv as _ ->. by eapply Hwf.
Qed.
End kept.

(** ** The objects *)

Section objects.
Context `{MapRange} `{SortPkg} `{K8sApi}.
Implicit Types (c : DistributedRedisCluster) (s : store).

Definition config_key c : string * (string * string) := (kind_of ConfigMap, (drc_Namespace c, RedisConfigMapName (drc_Name c))).
Definition service_key c (name : string) : string * (string * string) := (kind_of Service, (drc_Namespace c, name)).
Definition config_ok c s : Prop :=
  ∃ cm, s !! config_key c = Some (OConfigMap cm) ∧
    isRedisConfChanged (default "" (cm_Data cm !! RedisConfKey)) (Config (Spec c)) = false.
Definition services_ok c s : Prop :=
  (∀ i, 0 ≤ i < MasterSize (Spec c) → is_Some (s !! service_key c (ClusterHeadlessSvcName (ServiceName (Spec c)) i))) ∧
  is_Some (s !! service_key c (ServiceName (Spec c))).
(** The StatefulSets with their budgets, and the services, are stored as the specification
    asks for. *)
Record workload_ok c s : Prop := {
  workload_sets i : 0 ≤ i < MasterSize (Spec c) → sts_ok c (ClusterStatefulSetName (drc_Name c) i) s;
  workload_services : services_ok c s;
}.
(** The map that the operator writes, and the store with it. *)
Definition generated_config c : Object := OConfigMap (NewConfigMapForCR c (getLabels c)).
Definition with_config c s : store := <[config_key c := generated_config c]> s.
(** The stored map is up to date, or it is the one that the operator writes. *)
Definition config_written c s : Prop := config_ok c s ∨ s !! config_key c = Some (generated_config c).

(** An empty configuration is never up to date: the lines of a text are one at least. *)
Lemma empty_config_changed text conf : default ∅ conf = ∅ → isRedisConfChanged text conf = true.
Proof.
  intros He. unfold isRedisConfChanged. rewrite He. cbv zeta. rewrite map_size_empty.
  pose proof (Split_nonempty (TrimSuffix text newline) (ascii_of_nat 10)) as Hne.
  destruct (Split _ _); [done|]. by rewrite decide_True.
Qed.
Lemma empty_config_never_ok c s : default ∅ (Config (Spec c)) = ∅ → ¬ config_ok c s.
Proof. intros He (cm & _ & Hch). by rewrite empty_config_changed in Hch. Qed.
(** The configuration survives the text form of the map. *)
Definition config_stable c : Prop :=
  ∃ m, Config (Spec c) = Some m ∧ conf_ok m ∧ m ≠ ∅ ∧ map_Forall (λ _ v, v ≠ "") m.

Lemma generated_config_unchanged c labels :
  config_stable c →
  isRedisConfChanged (default "" (cm_Data (NewConfigMapForCR c labels) !! RedisConfKey)) (Config (Spec c)) = false.
Proof.
  intros (m & Hm & Hok & Hne & Hv). unfold NewConfigMapForCR. cbn [cm_Data].
  assert (conf_keys m ≠ []) as Hk.
  { destruct (map_choose m Hne) as (k & v & Hkv). intros Hnil. apply (Hv k v Hkv). by eapply conf_keys_nil. }
  rewrite Hm. rewrite lookup_insert_ne, lookup_insert_ne, lookup_singleton_eq by done. cbn [default from_option Datatypes.id].
  apply isRedisConfChanged_spec; [done..|]. split; [|done]. f_equal. apply map_filter_id. intros k v Hkv. by apply (Hv k v).
Qed.
End objects.

(** ** The stages *)

(** The calls of the stages to the rest of the world: they return, a wait is bounded, and
    the specifications are kept. *)
Class Bystander {W} `{ClientLaws W} `{IAdmin W} `{ControllerEnv W} := {
  bystander_NewAdmin addrs options (w : W) : runs (env_NewAdmin addrs options) w (λ _ w', specs_kept w w');
  bystander_execute ns pod container cmd (w : W) : runs (env_execute ns pod container cmd) w (λ _ w', specs_kept w w');
  bystander_ResetPassword password (w : W) : runs (admin_ResetPassword password) w (λ _ w', specs_kept w w');
  bystander_Close (w : W) : runs admin_Close w (λ _ w', specs_kept w w');
  bystander_bounded timeout (w : W) : Timeout ∈ env_events timeout w;
  bystander_events timeout (w : W) f : Tick f ∈ env_events timeout w → ∀ w', specs_kept w' (f w');
}.

Section stages.
Context `{MapRange} `{SortPkg} `{K8sApi} `{ObjectStore} `{KubeErrors}.
Context {W : Type} `{Client W} `{!ClientLaws W} `{IAdmin W} `{ControllerEnv W} `{!Bystander (W := W)}.
Variable rename_file : option string.
Variable redisConf : RedisConfig.
Implicit Types (c : DistributedRedisCluster) (w : W).

(** The resource in hand is that of the start but for the conditions of its status. *)
Definition in_hand c c' : Prop := ∃ st, c' = c <| drc_Status := st |> ∧ ds_Restore st = Restore c.
Lemma in_hand_refl c : in_hand c c.
Proof. exists (drc_Status c). by destruct c. Qed.
Lemma in_hand_view c c' : cluster_view (OCluster c') = cluster_view (OCluster c) → in_hand c c'.
Proof. destruct c as [m sp st], c' as [m' sp' st']. cbn. intros [= -> -> Hr]. by exists st'. Qed.
Lemma in_hand_generable c c' : in_hand c c' → generable c → generable c'.
Proof. intros (st & -> & Hst). unfold generable, Restore in *. cbn. by rewrite Hst. Qed.

(** What the stages rely on in the store. *)
Definition cluster_stored c (s : store) : Prop := s !! key_of c ≫= cluster_view = cluster_view (OCluster c).

Section from.
Variables (c : DistributedRedisCluster) (w0 : W).
Hypotheses (Hwf : store_wf (stored w0)) (Hst : cluster_stored c (stored w0)) (Hgen : generable c).
Abbreviation kept := (specs_kept w0).

Lemma rests_kept {A} (m : M W A) : (∀ w, runs m w (λ _ w', specs_kept w w')) → rests kept m (λ _, True).
Proof. intros Hm w Hw. eapply runs_mono; [apply Hm|]. intros a w' Hk. split; [done|]. by etrans. Qed.
Lemma rests_read {T} `{KObject T} ns name :
  rests kept (client_Get (T := T) ns name) (λ r, match r with
    | inr x => ∃ w, kept w ∧ stored w !! (kind_of T, (ns, name)) = Some (to_object x)
    | inl _ => True end).
Proof.
  intros w Hw. eapply runs_mono; [apply Get_law|]. intros r w' [Heq Hr]. split.
  - destruct r as [e|x]; [done|]. by exists w.
  - etrans; [done|]. by apply specs_kept_read.
Qed.
Lemma rests_list {T} `{KObject T} ns labels :
  rests kept (client_List (T := T) ns labels) (λ r, match r with
    | inr xs => ∃ w, kept w ∧ ∀ x, x ∈ xs → stored w !! key_of x = Some (to_object x)
    | inl _ => True end).
Proof.
  intros w Hw. eapply runs_mono; [apply List_law|]. intros r w' [Heq Hr]. split.
  - destruct r as [e|xs]; [done|]. exists w. split; [done|]. intros x Hx. by apply Hr.
  - etrans; [done|]. by apply specs_kept_read.
Qed.
Lemma rests_UpdateCRStatus c' :
  in_hand c c' → rests kept (UpdateCRStatus c') (λ r, in_hand c r.1).
Proof.
  intros (st & -> & Hrs) w Hw. eapply runs_mono; [apply StatusUpdate_obj_law|].
  intros [y [e|]] w'; cbn [fst snd].
  - intros [-> Heq]. split; [by exists st|]. etrans; [done|]. by apply specs_kept_read.
  - change (key_of (c <| drc_Status := st |>)) with (key_of c). intros (old & Hold & Hy & Heq).
    pose proof (kept_cluster _ _ Hw (key_of c)) as Hv. unfold cluster_stored in Hst. rewrite Hst, Hold in Hv.
    destruct old as [| | | | | | | |old|]; try done. injection Hy as ->. cbn in Hv. injection Hv as Hm Hsp Hr.
    assert (cluster_view (OCluster (old <| drc_Status := st |>)) = cluster_view (OCluster c)) as Hview.
    { cbn. unfold Restore. cbn. by rewrite Hm, Hsp, Hrs. }
    split; [by apply in_hand_view|]. etrans; [done|].
    eapply specs_kept_insert; [exact Heq|..]; rewrite ?Hold; cbn [mbind option_bind]; try done.
    + etrans; [exact Hview|]. cbn. by rewrite Hm, Hsp, Hr.
    + unfold fixed_kind. cbn. by intros [?|[?|?]].
Qed.
Lemma in_hand_wf_sts k ss w : kept w → stored w !! k = Some (OStatefulSet ss) →
  is_Some (ss_Replicas (ss_spec ss)) ∧ ps_Containers (ss_PodSpec (ss_spec ss)) ≠ [].
Proof. intros Hw. by apply (specs_kept_store_wf w0 w). Qed.

Lemma rests_node_num c' : rests kept (CheckRedisNodeNum c') (λ _, True).
Proof.
  intros w Hw. unfold CheckRedisNodeNum. generalize (seqZ 0 (MasterSize (Spec c'))) as idxs. intros idxs.
  revert w Hw. induction idxs as [|i idxs IH]; [by apply rests_ret|]. cbn [for_err].
  apply (rests_bind kept _ _ (λ _, True)); [|intros [e|] _; [by apply rests_ret|exact IH]].
  unfold GetStatefulSet. eapply rests_bind; [apply rests_read|]. intros [e|ss] Hss; [by apply rests_ret|].
  destruct Hss as (w & Hw & [[n Hn] _]%(in_hand_wf_sts _ ss)); [|done].
  unfold checkRedisNodeNum. rewrite Hn. by apply rests_pure.
Qed.
Lemma rests_secret_password ns name : rests kept (secret_password ns name) (λ _, True).
Proof. unfold secret_password. eapply rests_bind; [apply rests_read|]. intros r _. by apply rests_ret. Qed.
Lemma rests_ExecCommandInPodSet pods cmd :
  (∀ pod, pod ∈ pods → ps_Containers (pod_spec pod) ≠ []) → rests kept (ExecCommandInPodSet pods cmd) (λ _, True).
Proof.
  unfold ExecCommandInPodSet. induction pods as [|pod pods IH]; intros Hpods; cbn [for_err]; [by apply rests_ret|].
  apply (rests_bind kept _ _ (λ _, True)).
  - destruct (ps_Containers (pod_spec pod)) eqn:Hc; [by destruct (Hpods pod); [left|]|].
    apply rests_kept. intros w. apply runs_bind. unfold ExecCommandInContainer, ExecCommandInContainerWithFullOutput, ExecWithOptions.
    apply runs_bind, runs_bind. eapply runs_mono; [apply bystander_execute|]. intros r w' Hk. by apply runs_ret, runs_ret, runs_ret.
  - intros [e|] _; [by apply rests_ret|]. apply IH. intros. apply Hpods. by right.
Qed.
Lemma rests_set_password pods p p' :
  (∀ pod, pod ∈ pods → ps_Containers (pod_spec pod) ≠ []) → rests kept (set_password redisConf pods p p') (λ _, True).
Proof.
  intros Hpods. unfold set_password, newRedisAdmin.
  eapply rests_bind; [apply rests_kept; intros; apply bystander_NewAdmin|]. intros [] _.
  eapply rests_bind; [by apply rests_ExecCommandInPodSet|]. intros e _. apply (rests_bind kept _ _ (λ _, True)).
  { destruct e; [by apply rests_ret|]. apply rests_kept. intros. apply bystander_ResetPassword. }
  intros e' _. eapply rests_bind; [apply rests_kept; intros; apply bystander_Close|]. intros [] _. by apply rests_ret.
Qed.

(** [resetClusterPassword]: the pods have containers. *)
Hypothesis Hpods : pods_wf (stored w0).
Lemma reset_in_hand : rests kept (resetClusterPassword redisConf c) (λ r, in_hand c r.1).
Proof.
  unfold resetClusterPassword. eapply rests_bind; [apply rests_node_num|].
  intros [e|] _; [apply rests_ret, in_hand_refl|]. unfold GetStatefulSet.
  eapply rests_bind; [apply rests_read|]. intros [e|sts] Hss; [apply rests_ret, in_hand_refl|].
  destruct Hss as (w & Hw & [_ Hcs]%(in_hand_wf_sts _ sts)); [|done].
  assert (∃ b, IsPasswordChanged c sts = Val b) as [b ->].
  { unfold IsPasswordChanged, container0. destruct (PasswordSecret (Spec c)); [|by eexists].
    destruct (ps_Containers _); [done|]. by eexists. }
  apply (rests_bind kept _ _ (λ b', b' = b)); [by apply rests_pure|]. intros _ ->.
  destruct b; cbn [negb]; [|apply rests_ret, in_hand_refl].
  eapply rests_bind; [apply rests_UpdateCRStatus; by eexists|]. intros [c' e] Hc. cbn [fst] in *. cbv zeta.
  unfold GetStatefulSetPodsByLabels. eapply rests_bind; [apply rests_list|]. intros [e'|pods] Hl; [by apply rests_ret|].
  apply (rests_bind kept _ _ (λ _, True)).
  { unfold GetOldRedisClusterPassword, container0. destruct (ps_Containers _); [done|].
    apply (rests_bind kept _ _ (λ _, True)); [by apply rests_pure|]. intros ct _. cbv zeta.
    case_decide; [by apply rests_ret|apply rests_secret_password]. }
  intros [e'|old] _; [by apply rests_ret|]. apply (rests_bind kept _ _ (λ _, True)).
  { unfold GetClusterPassword. destruct (PasswordSecret _); [apply rests_secret_password|by apply rests_ret]. }
  intros [e'|new] _; [by apply rests_ret|]. apply (rests_bind kept _ _ (λ _, True)).
  { apply rests_set_password. intros pod Hin%elem_of_clusterPods. destruct Hl as (w' & Hw' & Hl).
    apply (kept_pods _ _ Hw' Hpods). by apply Hl. }
  intros e' _. by apply rests_ret.
Qed.

(** [waiting], when the handler rests and one of the events is the timeout. *)
Lemma rests_waiting name handler events :
  rests kept handler (λ _, True) → Timeout ∈ events → (∀ f, Tick f ∈ events → ∀ w, specs_kept w (f w)) →
  rests kept (waiting name handler events) (λ _, True).
Proof.
  intros Hh. induction events as [|[|f] events IH]; intros Ht He; cbn [waiting].
  - by apply elem_of_nil in Ht.
  - by apply rests_ret.
  - apply (rests_bind kept _ _ (λ _, True)).
    { intros w Hw. exists (), (f w). split; [done|]. split; [done|]. etrans; [exact Hw|]. apply He. by left. }
    intros _ _. eapply rests_bind; [exact Hh|]. intros [e|] _; [|by apply rests_ret].
    apply IH; [by apply elem_of_cons in Ht as [?|?]|]. intros. apply He. by right.
Qed.
Lemma rests_wait_for name timeout handler :
  rests kept handler (λ _, True) → rests kept (wait_for name timeout handler) (λ _, True).
Proof.
  intros Hh w Hw. unfold wait_for. apply runs_bind. exists (env_events timeout w), w. split; [done|].
  apply rests_waiting; [done|apply bystander_bounded| |done]. apply bystander_events.
Qed.
Lemma rests_after_statefulsets c' updated :
  in_hand c c' → rests kept (after_statefulsets c' updated) (λ r, in_hand c r.1).
Proof.
  intros Hc. unfold after_statefulsets. destruct updated; [|by apply rests_ret].
  eapply rests_bind; [apply rests_UpdateCRStatus|].
  { destruct Hc as (st & -> & ?). by eexists. }
  intros [c2 e] Hc2. cbn [fst] in *. cbv zeta. eapply rests_bind; [apply rests_wait_for|intros; by apply rests_ret].
  unfold waitStatefulSetUpdating_Handler, ListStatefulSetByLabels.
  eapply rests_bind; [apply rests_list|]. intros r _. by apply rests_ret.
Qed.
End from.

(** The services, which are created when they are missing. *)
Lemma create_service_runs ns name (svc : Service) w :
  key_of svc = (kind_of Service, (ns, name)) →
  runs (create_if_missing (client_Get (T := Service) ns name) (client_Create svc)) w (λ e w',
    specs_kept w w' ∧ (e = None → is_Some (stored w' !! (kind_of Service, (ns, name))))).
Proof.
  intros Hk. eapply runs_mono; [by apply create_if_missing_runs|]. intros e w' (Hs & Hok & _). rewrite Hk in *.
  split; [|exact Hok]. destruct Hs as [?|[Hnone Hs]]; [by apply specs_kept_read|].
  eapply specs_kept_insert; [exact Hs|..]; by rewrite ?Hnone.
Qed.
Lemma head_less_svcs_runs c idxs b labels w :
  runs (for_statefulsets c (λ _ svcName labels, err ← ensureRedisHeadLessSvc c svcName labels; mret (false, err))
      idxs b labels) w (λ r w',
    specs_kept w w' ∧
    (r.1.2 = None → ∀ i, i ∈ idxs → is_Some (stored w' !! service_key c (ClusterHeadlessSvcName (ServiceName (Spec c)) i)))).
Proof.
  revert b labels w. induction idxs as [|i idxs IH]; intros b labels w; cbn [for_statefulsets].
  - apply runs_ret. split; [done|]. by intros _ i ?%elem_of_nil.
  - apply runs_bind, runs_bind. eapply runs_mono; [by apply create_service_runs|]. intros e w1 [Hk Hok].
    apply runs_ret. destruct e as [e|]; [by apply runs_ret|]. eapply runs_mono; [apply IH|].
    intros r w2 [Hk2 Hok2]. split; [by etrans|]. intros Hr j [->|Hj]%elem_of_cons; [|by apply Hok2].
    rewrite (kept_fixed _ _ Hk2); [by apply Hok| |by apply Hok]. by do 2 right.
Qed.
Lemma NewSvcForCR_returns c name labels :
  generable c → ∃ svc, NewSvcForCR c name labels = Val svc ∧ key_of svc = service_key c name.
Proof.
  intros (_ & Hmon & _). unfold NewSvcForCR. destruct (Monitor (Spec c)) as [mon|]; [|by eexists].
  destruct (Hmon mon eq_refl) as [prom ->]. by eexists.
Qed.
Lemma ensure_services_runs c labels w :
  IsRestoreFromBackup c = false → generable c →
  runs (ensure_services c labels) w (λ r w', r.1 = c ∧ specs_kept w w' ∧ (r.2 = None → services_ok c (stored w'))).
Proof.
  intros Hr Hgen. unfold ensure_services, EnsureRedisHeadLessSvcs. apply runs_bind, runs_bind.
  eapply runs_mono; [apply head_less_svcs_runs|]. intros [[b e] l] w1 [Hk1 Hok1]. apply runs_ret. cbn [fst snd] in *.
  destruct e as [e|]; [by apply runs_ret|]. unfold EnsureRedisSvc. cbv zeta. apply runs_bind, runs_bind.
  destruct (NewSvcForCR_returns c (ServiceName (Spec c)) (delete StatefulSetLabel l) Hgen) as (svc & -> & Hkey).
  change (pure (Val svc) ≫= _) with (client_Create (W := W) svc).
  eapply runs_mono; [by apply (create_service_runs (drc_Namespace c) (ServiceName (Spec c)))|]. intros e w2 [Hk2 Hok2]. apply runs_ret.
  destruct e as [e|]; [apply runs_ret; split_and!; [done|by etrans|done]|].
  unfold stage, EnsureRedisRCloneSecret. rewrite Hr. cbn [negb orb]. apply runs_bind, runs_ret, runs_ret.
  split; [done|]. split; [by etrans|]. intros _. split; [|by apply Hok2].
  intros i Hi. assert (is_Some (stored w1 !! service_key c (ClusterHeadlessSvcName (ServiceName (Spec c)) i))) as Hi1.
  { apply Hok1; [done|]. apply elem_of_seqZ. lia. }
  rewrite (kept_fixed _ _ Hk2); [done| |done]. by do 2 right.
Qed.

(** The configuration map: it stays when it is up to date, and else it is written; no
    other object is. *)
Lemma EnsureRedisConfigMap_runs c w :
  IsRestoreFromBackup c = false →
  runs (EnsureRedisConfigMap c (getLabels c)) w (λ e w',
    (stored w' = stored w ∧ (e = None → config_ok c (stored w))) ∨
    (stored w' = with_config c (stored w) ∧ ¬ config_ok c (stored w))).
Proof.
  intros Hr. unfold EnsureRedisConfigMap, ensure_restore_configmap. rewrite Hr.
  set (labels := getLabels c). apply runs_bind. eapply runs_mono; [apply Get_law|]. intros r w1 [Hs1 Hr1]. apply runs_bind.
  change (kind_of ConfigMap, (drc_Namespace c, RedisConfigMapName (drc_Name c))) with (config_key c) in Hr1.
  enough (runs (match r with
    | inl err => if IsNotFound err then CreateConfigMap (NewConfigMapForCR c labels) else mret (Some err)
    | inr drcCm => if isRedisConfChanged (default "" (cm_Data drcCm !! RedisConfKey)) (Config (Spec c))
                   then UpdateConfigMap (NewConfigMapForCR c labels) else mret None end) w1
    (λ e w', (stored w' = stored w ∧ (e = None → config_ok c (stored w))) ∨
      (stored w' = with_config c (stored w) ∧ ¬ config_ok c (stored w)))) as Hrun.
  { eapply runs_mono; [exact Hrun|]. intros [e|] w2 Hw2; by apply runs_ret. }
  destruct r as [e|cm].
  - destruct (IsNotFound e) eqn:He; [|apply runs_ret; rewrite Hs1; by left].
    eapply runs_mono; [apply Create_law|]. intros [e'|] w2 Hw2; rewrite Hs1 in Hw2.
    + rewrite Hw2. by left.
    + destruct Hw2 as [_ ->]. right. split; [done|]. intros (cm & Hcm & _). by rewrite Hr1 in Hcm.
  - destruct (isRedisConfChanged _ _) eqn:Hch; [|apply runs_ret; rewrite Hs1; left; split; [done|]; by exists cm].
    eapply runs_mono; [apply Update_law|]. intros [e'|] w2 Hw2; rewrite Hs1 in Hw2.
    + rewrite Hw2. by left.
    + destruct Hw2 as (old & _ & ->). right. split; [by destruct old|].
      intros (cm' & Hcm & Hsame). rewrite Hr1 in Hcm. injection Hcm as <-. by rewrite Hch in Hsame.
Qed.

(** ** Together *)

Lemma store_wf_insert_config s k cm : store_wf s → store_wf (<[k := OConfigMap cm]> s).
Proof. intros Hs k' ss [[_ ?]|[_ Hk]]%lookup_insert_Some; [done|by eapply Hs]. Qed.
Lemma config_ok_lookup c s s' : s' !! config_key c = s !! config_key c → config_ok c s → config_ok c s'.
Proof. intros Heq (cm & Hcm & Hok). exists cm. by rewrite Heq. Qed.
Lemma config_ok_kept c w w' : specs_kept w w' → config_ok c (stored w) → config_ok c (stored w').
Proof.
  intros Hk (cm & Hcm & Hok). apply (config_ok_lookup c (stored w)); [|by exists cm].
  apply (kept_fixed _ _ Hk); [by left|by eexists].
Qed.
Lemma sts_ok_kept c name w w' : specs_kept w w' → sts_ok c name (stored w) → sts_ok c name (stored w').
Proof.
  intros Hk [(ss & Hss & Hup) Hp]. split.
  - pose proof (kept_sts _ _ Hk (sts_key c name)) as Hv. rewrite Hss in Hv. cbn in Hv.
    destruct (stored w' !! sts_key c name) as [o|] eqn:Ho; [|done]. destruct o as [| |ss'| | | | | | |]; try done.
    exists ss'. split; [done|]. cbn in Hv. injection Hv as _ Hsp. rewrite <- Hup.
    unfold shouldUpdateRedis, monitorChanged, IsPasswordChanged, container0. by rewrite Hsp.
  - rewrite (kept_fixed _ _ Hk); [done| |done]. right. by left.
Qed.

(** After the configuration map: the password, the StatefulSets, and the services. *)
Lemma sets_run c c' updated labels w :
  in_hand c c' → generable c → store_wf (stored w) → MasterSize (Spec c) < 2 ^ 31 →
  runs (for_statefulsets c' (ensureRedisStatefulset rename_file c') (seqZ 0 (MasterSize (Spec c'))) updated labels) w
    (λ r w', store_wf (stored w') ∧
      (∀ k, k.1 ≠ kind_of AppsStatefulSet → k.1 ≠ kind_of PodDisruptionBudget → stored w' !! k = stored w !! k) ∧
      (r.1.2 = None → ∀ i, 0 ≤ i < MasterSize (Spec c) → sts_ok c (ClusterStatefulSetName (drc_Name c) i) (stored w'))).
Proof.
  intros Hc Hgen Hwf Hm. pose proof (in_hand_generable _ _ Hc Hgen) as Hgen'. destruct Hc as (st & -> & Hst).
  eapply runs_mono; [apply ensure_loop_runs; [done..|]|].
  { by apply sts_names_NoDup. }
  intros r w' (Hwf' & Hother & Hok & _). split; [done|]. split.
  - intros k Hk1 Hk2. apply Hother. intros i _. by split; intros ->.
  - intros Hr i Hi. apply (Hok Hr i). apply elem_of_seqZ. cbn. lia.
Qed.
Lemma after_sets_runs c c' updated labels w :
  IsRestoreFromBackup c = false → in_hand c c' → generable c → store_wf (stored w) → cluster_stored c (stored w) →
  runs (and_then (after_statefulsets c' updated) (λ cluster, ensure_services cluster labels)) w (λ r w',
    in_hand c r.1 ∧ specs_kept w w' ∧ (r.2 = None → services_ok c (stored w'))).
Proof.
  intros Hr Hc Hgen Hwf Hst. apply runs_bind. eapply runs_mono; [by apply (rests_after_statefulsets c w Hst)|].
  intros [c2 [e|]] w2 [Hc2 Hk]; cbn [fst snd] in *; [by apply runs_ret|].
  assert (IsRestoreFromBackup c2 = false ∧ (∀ s, services_ok c2 s → services_ok c s)) as [Hr2 Hs2] by by destruct Hc2 as (st & -> & _).
  eapply runs_mono; [apply ensure_services_runs; [done|by eapply in_hand_generable]|].
  intros r w3 (-> & Hk3 & Hok). split; [done|]. split; [by etrans|auto].
Qed.

(** The stages of [ensureCluster] after the configuration map. *)
Definition later_stages c : M W (DistributedRedisCluster * option error) :=
  and_then
    (r ← resetClusterPassword redisConf c;
     mret (r.1, (λ err, ErrorType_Wrap Cluster err "ResetPassword") <$> r.2)) (λ cluster,
  r ← EnsureRedisStatefulsets rename_file cluster (getLabels c);
  match r with
  | (_, Some err, _) => mret (cluster, Some (ErrorType_Wrap Kubernetes err "EnsureRedisStatefulSets"))
  | (updated, None, labels) =>
      and_then (after_statefulsets cluster updated) (λ cluster, ensure_services cluster labels)
  end).
Lemma ensureCluster_stages c w :
  IsRestoreFromBackup c = false → DefaultSpec c = (c, false) →
  ensureCluster rename_file redisConf c w =
  and_then (stage c (λ err, ErrorType_Wrap Kubernetes err "EnsureRedisConfigMap")
    (EnsureRedisConfigMap c (getLabels c))) later_stages w.
Proof.
  intros Hr Hdef. unfold ensureCluster, validateAndSetDefault, dbLoadedFromDiskWhenRestore, mbind, M_bind, mret, M_ret.
  rewrite Hr. cbn [andb go_bind fst snd]. rewrite Hr. cbn [andb]. rewrite Hdef. cbn [orb go_bind fst snd].
  rewrite Hr. cbn [andb].
  unfold and_then, stage, mbind, M_bind, mret, M_ret.
  destruct (EnsureRedisConfigMap c (getLabels c) w) as [[[e|] w1]| |]; reflexivity.
Qed.

(** ** Nothing is written twice

    From a store where the StatefulSets and services are as the specification asks for,
    every request for one of them finds it, and the stages after the configuration map
    write nothing. *)
Section again.
Variables (c : DistributedRedisCluster) (s : store).
Hypotheses (Hr : IsRestoreFromBackup c = false) (Hgen : generable c) (Hwf : store_wf s).
Hypotheses (Hm : 0 < MasterSize (Spec c) < 2 ^ 31) (Hok : workload_ok c s).
#[local] Abbreviation same := (λ w : W, stored w = s).

Lemma rests_same {A} (m : M W A) (P : A → Prop) :
  (∀ w, stored w = s → runs m w (λ a w', P a ∧ stored w' = stored w)) → rests same m P.
Proof. intros Hrun w Hw. eapply runs_mono; [by apply Hrun|]. intros a w' [HP Heq]. split; [done|]. by rewrite Heq. Qed.
Lemma rests_same_Get {T} `{KObject T} ns name :
  rests same (client_Get (T := T) ns name) (λ r, match r with
    | inr x => s !! (kind_of T, (ns, name)) = Some (to_object x)
    | inl err => IsNotFound err = true → s !! (kind_of T, (ns, name)) = None end).
Proof. apply rests_same. intros w <-. eapply runs_mono; [apply Get_law|]. intros r w' [Heq Hx]. by split. Qed.
Lemma rests_same_service ns name (svc : Service) :
  key_of svc = (kind_of Service, (ns, name)) → is_Some (s !! (kind_of Service, (ns, name))) →
  rests same (create_if_missing (client_Get (T := Service) ns name) (client_Create svc)) (λ _, True).
Proof.
  intros Hk Hs. apply rests_same. intros w Hw. eapply runs_mono; [by apply create_if_missing_runs|].
  intros e w' (_ & _ & Hid). split; [done|]. apply Hid. by rewrite Hk, Hw.
Qed.

Lemma same_resetClusterPassword : rests same (resetClusterPassword redisConf c) (λ r, r.1 = c).
Proof.
  destruct (workload_sets _ _ Hok 0) as [(ss & Hss & Hup) _]; [lia|]. unfold resetClusterPassword.
  apply (rests_bind same _ _ (λ _, True)).
  { unfold CheckRedisNodeNum. generalize (seqZ 0 (MasterSize (Spec c))) as idxs. intros idxs.
    induction idxs as [|i idxs IH]; [by apply rests_ret|]. cbn [for_err].
    apply (rests_bind same _ _ (λ _, True)); [|intros [e|] _; [by apply rests_ret|exact IH]].
    unfold GetStatefulSet. eapply rests_bind; [apply rests_same_Get|]. intros [e|ss'] Hss'; [by apply rests_ret|].
    apply Hwf in Hss' as [[n Hn] _]. unfold checkRedisNodeNum. rewrite Hn. by apply rests_pure. }
  intros [e|] _; [by apply rests_ret|]. unfold GetStatefulSet. eapply rests_bind; [apply rests_same_Get|].
  intros [e|ss'] Hget; [by apply rests_ret|]. unfold sts_key in Hss.
  change (kind_of AppsStatefulSet) with "StatefulSet" in Hget. rewrite Hget in Hss. injection Hss as ->.
  rewrite (shouldUpdateRedis_password _ _ Hup). apply (rests_bind_eq same _ _ false); [by apply rests_pure|]. by apply rests_ret.
Qed.
Lemma same_EnsureRedisStatefulsets labels :
  rests same (EnsureRedisStatefulsets rename_file c labels) (λ r, r.1.2 = None → r.1.1 = false).
Proof.
  apply rests_same. intros w Hw. eapply runs_mono; [apply ensure_loop_runs; [done|by rewrite Hw|apply sts_names_NoDup; lia]|].
  intros r w' (_ & _ & _ & Hid). destruct Hid as [Heq Hupd]; [|by split].
  rewrite Hw. intros i Hi%elem_of_seqZ. apply (workload_sets _ _ Hok). lia.
Qed.
Lemma same_ensure_services labels : rests same (ensure_services c labels) (λ r, r.1 = c).
Proof.
  destruct (workload_services _ _ Hok) as [Hheads Hsvc].
  unfold ensure_services, EnsureRedisHeadLessSvcs, EnsureRedisSvc, stage, EnsureRedisRCloneSecret. rewrite Hr. cbv zeta.
  apply (rests_bind same _ _ (λ _, True)).
  { apply (rests_bind same _ _ (λ _, True)); [|intros; by apply rests_ret].
    assert (∀ i, i ∈ seqZ 0 (MasterSize (Spec c)) → 0 ≤ i < MasterSize (Spec c)) as Hidx by (intros i ?%elem_of_seqZ; lia).
    generalize false at 2 as b. revert labels Hidx. generalize (seqZ 0 (MasterSize (Spec c))) as idxs.
    induction idxs as [|i idxs IH]; intros l Hidx b; cbn [for_statefulsets]; [by apply rests_ret|].
    apply (rests_bind same _ _ (λ _, True)); [|intros [b' [e|]] _; [by apply rests_ret|]].
    - apply (rests_bind same _ _ (λ _, True)); [|intros; by apply rests_ret].
      apply rests_same_service; [done|]. apply Hheads, Hidx. by left.
    - apply IH. intros. apply Hidx. by right. }
  intros [[e|] l] _; [by apply rests_ret|]. apply (rests_bind same _ _ (λ _, True)).
  - apply (rests_bind same _ _ (λ _, True)); [|intros; by apply rests_ret].
    destruct (NewSvcForCR_returns c (ServiceName (Spec c)) (delete StatefulSetLabel l) Hgen) as (svc & -> & Hkey).
    change (pure (Val svc) ≫= _) with (client_Create (W := W) svc). by apply rests_same_service.
  - intros [[e|] l'] _; [by apply rests_ret|]. cbn [negb orb].
    eapply rests_bind_eq; [by apply rests_ret|]. by apply rests_ret.
Qed.
Lemma same_later_stages : rests same (later_stages c) (λ r, r.1 = c).
Proof.
  unfold later_stages. eapply rests_bind.
  { eapply rests_bind; [apply same_resetClusterPassword|]. intros r Hc. by apply (rests_ret same _ (λ r, r.1 = c)). }
  intros [c1 [e|]] Hc; cbn [fst snd] in *; subst c1; [by apply rests_ret|].
  eapply rests_bind; [apply same_EnsureRedisStatefulsets|]. intros [[u [e|]] l] Hu; cbn [fst snd] in *; [by apply rests_ret|].
  rewrite Hu by done. eapply rests_bind_eq; [by apply rests_ret|]. apply same_ensure_services.
Qed.
End again.

(** From any store the later stages establish the StatefulSets and the services, and keep
    the configuration map. *)
Lemma later_stages_run c w :
  IsRestoreFromBackup c = false → generable c → MasterSize (Spec c) < 2 ^ 31 →
  store_wf (stored w) → pods_wf (stored w) → cluster_stored c (stored w) →
  runs (later_stages c) w (λ r w', in_hand c r.1 ∧ (r.2 = None → workload_ok c (stored w')) ∧
    (is_Some (stored w !! config_key c) → stored w' !! config_key c = stored w !! config_key c)).
Proof.
  intros Hr Hgen Hm Hwf Hpods Hst. unfold later_stages. apply runs_bind, runs_bind.
  eapply runs_mono; [by apply (reset_in_hand c w)|]. intros [c2 e] w2 [Hc2 Hk2]. apply runs_ret. cbn [fst snd] in *.
  assert (is_Some (stored w !! config_key c) → stored w2 !! config_key c = stored w !! config_key c) as Hcm2.
  { intros Hs. by apply (kept_fixed _ _ Hk2); [left|]. }
  destruct e as [e|]; cbn [fmap option_fmap option_map]; [by apply runs_ret|].
  pose proof (specs_kept_store_wf _ _ Hk2 Hwf) as Hwf2.
  apply runs_bind. eapply runs_mono; [by apply sets_run|]. intros [[u e] l] w3 (Hwf3 & Hsame & Hsets). cbn [fst snd] in *.
  assert (is_Some (stored w !! config_key c) → stored w3 !! config_key c = stored w !! config_key c) as Hcm3.
  { intros Hs. rewrite <- Hcm2 by done. by apply Hsame. }
  destruct e as [e|]; [by apply runs_ret|].
  eapply runs_mono; [apply (after_sets_runs c)|]; [done..| |].
  { unfold cluster_stored. rewrite Hsame by done. by rewrite (kept_cluster _ _ Hk2). }
  intros r w4 (Hc4 & Hk4 & Hsvc). split; [done|]. split.
  - intros Hnone. split; [|by apply Hsvc]. intros i Hi. apply (sts_ok_kept _ _ _ _ Hk4). by apply Hsets.
  - intros Hs. rewrite <- Hcm3 by done. apply (kept_fixed _ _ Hk4); [by left|]. by rewrite Hcm3.
Qed.

(** What the later stages rely on is there after the configuration map as well. *)
Lemma with_config_keeps c s :
  store_wf s → pods_wf s → cluster_stored c s →
  store_wf (with_config c s) ∧ pods_wf (with_config c s) ∧ cluster_stored c (with_config c s).
Proof.
  intros Hwf Hpods Hst. split_and!; [by apply store_wf_insert_config| |].
  - intros p. unfold with_config. rewrite lookup_insert_ne by done. apply Hpods.
  - unfold cluster_stored, with_config. by rewrite lookup_insert_ne by done.
Qed.
Lemma with_config_workload c s : workload_ok c s → workload_ok c (with_config c s).
Proof.
  intros [Hsets [Hheads Hsvc]]. split; [|split].
  - intros i Hi. destruct (Hsets i Hi) as [(ss & Hss & Hup) Hp].
    split; [exists ss; split; [|done]|]; unfold with_config; by rewrite lookup_insert_ne by done.
  - intros i Hi. unfold with_config. rewrite lookup_insert_ne by done. by apply Hheads.
  - unfold with_config. by rewrite lookup_insert_ne by done.
Qed.
(** What a stage for the configuration map without an error leaves for the later ones. *)
Lemma config_stage_keeps c w w1 :
  store_wf (stored w) → pods_wf (stored w) → cluster_stored c (stored w) →
  (stored w1 = stored w ∧ config_ok c (stored w)) ∨ stored w1 = with_config c (stored w) →
  store_wf (stored w1) ∧ pods_wf (stored w1) ∧ cluster_stored c (stored w1) ∧
  (workload_ok c (stored w) → workload_ok c (stored w1)) ∧ config_written c (stored w1).
Proof.
  intros Hwf Hpods Hst [[-> Hok]| ->]; [split_and!; [done..|by left]|].
  destruct (with_config_keeps c (stored w)) as (? & ? & ?); [done..|]. split_and!; [done..| |].
  - apply with_config_workload.
  - right. apply lookup_insert_eq.
Qed.
Lemma config_written_lookup c s s' : s' !! config_key c = s !! config_key c → config_written c s → config_written c s'.
Proof. intros Heq [?|?]; [left; by eapply config_ok_lookup|right; by rewrite Heq]. Qed.
Lemma config_written_stored c s : config_written c s → is_Some (s !! config_key c).
Proof. intros [(cm & -> & _)|Hs]; [by eexists|by rewrite Hs]. Qed.
Lemma config_written_stable c s : config_stable c → config_written c s → config_ok c s.
Proof.
  intros Hconf [?|Hs]; [done|]. exists (NewConfigMapForCR c (getLabels c)). split; [exact Hs|].
  by apply generated_config_unchanged.
Qed.

(** The later stages, from a store that the configuration map leaves. *)
Lemma later_stages_from c s w :
  IsRestoreFromBackup c = false → generable c → 0 < MasterSize (Spec c) < 2 ^ 31 →
  store_wf s → pods_wf s → cluster_stored c s → stored w = s →
  runs (later_stages c) w (λ r w', in_hand c r.1 ∧ (r.2 = None → workload_ok c (stored w')) ∧
    (is_Some (s !! config_key c) → stored w' !! config_key c = s !! config_key c) ∧
    (workload_ok c s → r.1 = c ∧ stored w' = s)).
Proof.
  intros Hr Hgen Hm Hwf Hpods Hst <-. destruct (later_stages_run c w) as (r & w' & Heq & Hc & Hok & Hcm); [naive_solver..|].
  exists r, w'. split; [done|]. split; [done|]. split; [done|]. split; [done|]. intros Hwork.
  destruct (same_later_stages c (stored w) Hr Hgen Hwf Hm Hwork w eq_refl) as (r2 & w2 & Heq2 & Hsame).
  rewrite Heq in Heq2. by injection Heq2 as -> ->.
Qed.

(** C12: what [ensureCluster] establishes, for a cluster that is not restored from a backup,
    has at least one master, has its defaults filled in, and whose generators have what
    they dereference ([generable]: resources, a Prometheus in the monitor if there is one,
    a start time of the backup in the status if there is one, a name for the password
    secret if there is one).  From any store whose StatefulSets and pods have containers, and while
    nobody else writes specifications, it returns, with the specification of the resource
    unchanged.  When it reports no error, every StatefulSet with its disruption budget, the
    headless service of each and the service of the cluster are stored, none of them one
    that the operator would change, and the map with the Redis configuration is up to date
    or the one that the operator has just written; that one is up to date as well when the
    configuration is not empty and survives its text form ([config_stable]).  From a store
    where the StatefulSets and services are there already, nothing is written, whatever
    requests fail, but this map, and only when it is not up to date.  For a cluster without a
    configuration it never is, and every call that succeeds leaves the generated map. *)
Theorem ensureCluster_establishes c w :
  IsRestoreFromBackup c = false → DefaultSpec c = (c, false) → generable c →
  0 < MasterSize (Spec c) < 2 ^ 31 → store_wf (stored w) → pods_wf (stored w) → cluster_stored c (stored w) →
  runs (ensureCluster rename_file redisConf c) w (λ r w',
    in_hand c r.1 ∧
    (r.2 = None → workload_ok c (stored w') ∧ config_written c (stored w') ∧
      (config_stable c → config_ok c (stored w'))) ∧
    (workload_ok c (stored w) → r.1 = c ∧
      ((stored w' = stored w ∧ (r.2 = None → config_ok c (stored w))) ∨
       (stored w' = with_config c (stored w) ∧ ¬ config_ok c (stored w)))) ∧
    (default ∅ (Config (Spec c)) = ∅ →
      (∀ s, ¬ config_ok c s) ∧ (r.2 = None → stored w' !! config_key c = Some (generated_config c)))).
Proof.
  intros Hr Hdef Hgen Hm Hwf Hpods Hst. eapply runs_equal; [by apply ensureCluster_stages|].
  apply runs_bind, runs_bind. eapply runs_mono; [by apply EnsureRedisConfigMap_runs|]. intros e w1 Hcm. apply runs_ret.
  pose proof (empty_config_never_ok c) as Hempty. cbn [snd fst].
  destruct e as [e|]; cbn [fmap option_fmap option_map].
  { apply runs_ret. split; [apply in_hand_refl|]. split; [done|]. split; [|intros He; split; [auto|done]]. intros _. split; [done|].
    destruct Hcm as [[? _]|?]; [by left|by right]. }
  destruct (config_stage_keeps c w w1) as (Hwf1 & Hpods1 & Hst1 & Hwork1 & Hwr1); [done..|naive_solver|].
  eapply runs_mono; [by apply (later_stages_from c (stored w1) w1)|]. intros r w' (Hc & Hok & Hkey & Hsame).
  pose proof (config_written_lookup _ _ _ (Hkey (config_written_stored _ _ Hwr1)) Hwr1) as Hwr.
  split; [done|]. split; [|split].
  - intros Hnone. split; [by apply Hok|]. split; [done|]. intros Hconf. by apply config_written_stable.
  - intros Hwork. destruct (Hsame (Hwork1 Hwork)) as [? Heq]. split; [done|]. rewrite Heq.
    destruct Hcm as [[? Hok1]|?]; [left; auto|by right].
  - intros He. split; [auto|]. intros _. destruct Hwr as [Hbad|?]; [by destruct (Hempty (stored w') He)|done].
Qed.
End stages.

(** ** A cluster without any objects, in the concrete world *)

#[local] Existing Instances range_default sort_default k8s_default object_store_default kube_errors_default.

Definition bare_world : demo_world := world_with [OCluster quiet_new].
#[local] Instance demo_bystander : Bystander (W := demo_world).
Proof.
  split.
  - intros addrs options w. by apply runs_ret.
  - intros ns pod container cmd w. by apply runs_ret.
  - intros password w. unfold admin_ResetPassword, demo_admin, lift_admin, on_snd. eexists _, _. split; [reflexivity|].
    by apply specs_kept_read.
  - intros w. eexists _, _. split; [reflexivity|]. by apply specs_kept_read.
  - intros timeout w. by right; left.
  - intros timeout w f [[= ->]|[?|?%elem_of_nil]%elem_of_cons]%elem_of_cons; by try reflexivity.
Qed.

Lemma bare_stored k o : bare_world.1.1 !! k = Some o → o = OCluster quiet_new.
Proof.
  change bare_world.1.1 with (<[object_key (OCluster quiet_new) := OCluster quiet_new]> (∅ : store)).
  intros [[_ <-]|[_ Hk]]%lookup_insert_Some; [done|]. by rewrite lookup_empty in Hk.
Qed.
Lemma bare_fields :
  IsRestoreFromBackup quiet_new = false ∧ MasterSize (Spec quiet_new) = 3 ∧
  Config (Spec quiet_new) = Some {[ "maxmemory" := "1gb" ]} ∧ is_Some (Resources (Spec quiet_new)) ∧
  Monitor (Spec quiet_new) = None ∧ Backup (Restore quiet_new) = None ∧ PasswordSecret (Spec quiet_new) = None.
Proof. split_and!; vm_compute; try reflexivity. by eexists. Qed.
Lemma bare_defaults : DefaultSpec quiet_new = (quiet_new, false).
Proof. vm_compute. reflexivity. Qed.
Lemma bare_cluster : bare_world.1.1 !! key_of quiet_new = Some (OCluster quiet_new).
Proof. vm_compute. reflexivity. Qed.
Lemma bare_config : config_stable quiet_new.
Proof.
  destruct bare_fields as (_ & _ & Hconf & _). unfold config_stable. rewrite Hconf. eexists. split; [done|]. split; [|split].
  - apply map_Forall_singleton. by vm_compute.
  - apply map_non_empty_singleton.
  - by apply map_Forall_singleton.
Qed.
Lemma bare_generable : generable quiet_new.
Proof. destruct bare_fields as (_ & _ & _ & Hres & Hmon & Hback & Hpw). unfold generable. by rewrite Hmon, Hback, Hpw. Qed.

(** The run reports no error, and creates the objects. *)
Abbreviation demo_establish c w := (ensureCluster None (mkRedisConfig 2000 "" "") c w).
Lemma bare_no_error :
  match demo_establish quiet_new bare_world with
  | Val (r, w') => r.2 = None ∧ length w'.1.2 = 11%nat
  | _ => False
  end.
Proof. vm_compute. split; reflexivity. Qed.

(** The same cluster without a configuration. *)
Definition plain_new : DistributedRedisCluster := quiet_new <| Spec := (Spec quiet_new) <| Config := None |> |>.
Definition plain_world : demo_world := world_with [OCluster plain_new].
Lemma plain_stored k o : plain_world.1.1 !! k = Some o → o = OCluster plain_new.
Proof.
  change plain_world.1.1 with (<[object_key (OCluster plain_new) := OCluster plain_new]> (∅ : store)).
  intros [[_ <-]|[_ Hk]]%lookup_insert_Some; [done|]. by rewrite lookup_empty in Hk.
Qed.
Lemma plain_fields :
  IsRestoreFromBackup plain_new = false ∧ DefaultSpec plain_new = (plain_new, false) ∧ MasterSize (Spec plain_new) = 3 ∧
  default ∅ (Config (Spec plain_new)) = ∅ ∧ plain_world.1.1 !! key_of plain_new = Some (OCluster plain_new).
Proof. split_and!; vm_compute; reflexivity. Qed.
Lemma plain_generable : generable plain_new.
Proof. exact bare_generable. Qed.
Lemma plain_no_error :
  match demo_establish plain_new plain_world with Val (r, _) => r.2 = None | _ => False end.
Proof. vm_compute. reflexivity. Qed.

Lemma ensureCluster_establishes_witness :
  runs (ensureCluster None (mkRedisConfig 2000 "" "") quiet_new) bare_world (λ r w',
    r.2 = None ∧ workload_ok quiet_new w'.1.1 ∧ config_ok quiet_new w'.1.1) ∧
  runs (ensureCluster None (mkRedisConfig 2000 "" "") plain_new) plain_world (λ r w',
    r.2 = None ∧ workload_ok plain_new w'.1.1 ∧ ¬ config_ok plain_new w'.1.1 ∧
    w'.1.1 !! config_key plain_new = Some (generated_config plain_new)).
Proof.
  split.
  - pose proof bare_no_error as Hn.
    destruct (ensureCluster_establishes None (mkRedisConfig 2000 "" "") quiet_new bare_world)
      as (r & w' & Heq & _ & Hok & _).
    + exact (proj1 bare_fields).
    + exact bare_defaults.
    + exact bare_generable.
    + rewrite (proj1 (proj2 bare_fields)). lia.
    + intros k ss Hk. apply bare_stored in Hk. discriminate.
    + intros p Hp. apply bare_stored in Hp. discriminate.
    + unfold cluster_stored. change (stored bare_world) with bare_world.1.1. rewrite bare_cluster. reflexivity.
    + rewrite Heq in Hn. destruct Hn as [Hn _]. exists r, w'. split; [exact Heq|]. split; [exact Hn|].
      destruct (Hok Hn) as (Hwork & _ & Hconf). split; [exact Hwork|exact (Hconf bare_config)].
  - pose proof plain_no_error as Hn. destruct plain_fields as (Hr & Hdef & Hm & He & Hst).
    destruct (ensureCluster_establishes None (mkRedisConfig 2000 "" "") plain_new plain_world)
      as (r & w' & Heq & _ & Hok & _ & Hplain).
    + exact Hr.
    + exact Hdef.
    + exact plain_generable.
    + rewrite Hm. lia.
    + intros k ss Hk. apply plain_stored in Hk. discriminate.
    + intros p Hp. apply plain_stored in Hp. discriminate.
    + unfold cluster_stored. change (stored plain_world) with plain_world.1.1. rewrite Hst. reflexivity.
    + rewrite Heq in Hn. exists r, w'. split; [exact Heq|]. split; [exact Hn|].
      destruct (Hok Hn) as (Hwork & _), (Hplain He) as [Hnever Hgen]. split; [exact Hwork|].
      split; [exact (Hnever _)|exact (Hgen Hn)].
Defined.
